(* ===== verification/_CoqProject ===== *)
-Q . S2P
Prelude.v
Layout.v
Memory.v
GlobalAlloc.v
AsyncLib.v
Locked.v
Bump.v
LinkedList.v
FixedSizeBlock.v
FallbackModel.v
Vga.v
Frames.v
HeapInit.v
Access.v
Paging.v
PageWalk.v
Collections.v
HeapTests.v
HeapTraffic.v
Machine.v
Interrupts.v
Hoare.v
Keyboard.v
Task.v
Console.v
Executor.v
Cooperative.v
Scheduler.v
MainLoop.v
Race.v
WakerRefs.v
Boot.v
KernelMain.v
ConsoleRun.v
Experiments.v
WakerRun.v
Testing.v
KernelTests.v
ExpectedFailures.v
TestBuilds.v
