(* ===== verification/Prelude.v ===== *)
(** * TaijiOS: a verification library for the kernel under src/

    TaijiOS is a small x86_64 kernel.  The boot loader enters [kernel_main]
    (src/src/main.rs), which calls [init] (src/src/lib.rs) to load the descriptor
    tables and enable interrupts, builds a frame allocator from the boot loader's
    memory map (src/src/memory.rs), maps the heap and hands it to the global
    allocator ([init_heap], src/src/allocator.rs), spawns its tasks and gives the CPU
    to the executor (src/src/task/executor.rs).  Timer and keyboard interrupts
    (src/src/interrupts.rs) preempt that loop: the keyboard handler queues a scancode
    and wakes the keyboard task (src/src/task/keyboard.rs), which prints the decoded
    keys through the VGA writer (src/src/vga_buffer.rs).

    ** How the code is modelled

    Rust functions are Gallina functions with the source's names that return an
    [outcome] (below): a value, a panic with its message, a page fault, or an
    exhausted loop bound.  Mutable receivers and statics are passed in and returned.
    [usize] and [u64] are [Z] with explicit overflow: the build profile
    ([BuildProfile]: overflow checks as in dev, wrap-around as in release) is a
    parameter and theorems hold for both unless they say which.  Heap memory is a
    finite map from mapped aligned addresses to 64-bit words, so the intrusive lists
    of the allocators are real pointer structures, and accesses of smaller scalars
    change the bytes of a word.  An allocator promises its clients that the bytes of
    their blocks stay as they wrote them.  Code that interrupts can preempt
    runs in the state monad [K] of Machine.v; [preempt] marks every point between two
    accesses to shared state, a schedule says which interrupts arrive there, and
    theorems quantify over all schedules.

    Crates outside src/ are typeclasses of operations with a class of laws that state
    their documented behaviour: [linked_list_allocator] ([FallbackHeap]), [x86_64]
    ([X86Phys], [X86Virt], [Mapper], [OffsetPageTable], [X86PageTable], [Translate], [X86Gdt]), [crossbeam_queue], [futures_util],
    [conquer_once], [spin] and [pic8259] ([AsyncLib]), [pc_keyboard] ([PcKeyboard])
    and [uart_16550] ([Uart]).  Each has a concrete instance on which the theorems are
    evaluated.  A call of [AtomicWaker] or [ArrayQueue] is one step: an
    interrupt takes effect before or after it, never inside it.  The field order of
    [ListNode], which Rust leaves to the compiler, is a parameter too ([NodeLayout]).

    ** Files

    - Prelude.v: outcomes, machine integers, loops, tactics (this file).
    - Layout.v: [Layout] of the core library and [align_up] (src/src/allocator.rs).
    - Memory.v: words of memory, intrusive lists ([chain]), regions and disjointness.
    - Locked.v: the [Locked] wrapper with its spin lock, again an allocator.
    - GlobalAlloc.v: the [GlobalAlloc] trait as [AllocOps], its contract [AllocSpec]
      and what every client may conclude from it ([client_safe]); module [Dummy] is
      the [Dummy] allocator of src/src/allocator.rs.
    - Bump.v, LinkedList.v, FixedSizeBlock.v: src/src/allocator/*.rs, one [init],
      [alloc], [dealloc] and helper per Rust function, each an [AllocSpec] instance.
      Module [Spec] of LinkedList.v is the abstract first-fit free list.
    - FallbackModel.v: the linked list allocator as an instance of [FallbackHeap].
    - Vga.v: src/src/vga_buffer.rs; module [Terminal] is the abstract screen.
    - Frames.v: the frame allocators of src/src/memory.rs.
    - HeapInit.v: [init_heap] of src/src/allocator.rs, over Frames and FixedSizeBlock.
    - Paging.v: [init] and [active_level_4_table] of src/src/memory.rs.
    - PageWalk.v: the prototypes that memory.rs and main.rs keep in comments: walking the
      page tables by hand, and an experiment with a new mapping.
    - Access.v, Collections.v: scalar accesses to memory; Box, Vec and Rc of Rust's
      [alloc] crate over any allocator, with a small logic of allocated objects, and
      the allocation error handler of src/src/lib.rs.
    - HeapTests.v: src/tests/heap_allocation.rs.
    - HeapTraffic.v: what collections of other crates ask of the global allocator.
    - AsyncLib.v, Machine.v: the interfaces above; the shared state [kstate], locks,
      [without_interrupts], [_print] with points inside its critical section, and waking.
    - Interrupts.v: src/src/interrupts.rs, [add_scancode] and printing by code that
      interrupts preempt.
    - Hoare.v: a program logic for code that interrupts preempt.
    - Console.v: the abstract console, that is, what a run prints and does with key
      presses as a list of events, and a logic for it.
    - Keyboard.v, Task.v, Executor.v: src/src/task/keyboard.rs, mod.rs with
      simple_executor.rs, and executor.rs.
    - Cooperative.v: the two executors compared.
    - Scheduler.v: the tasks of [kernel_main] under the executor and interrupts.
    - MainLoop.v: the executor's main loop as a step relation, and its invariant.
    - Race.v: how many key presses in the window of [poll_next] the task queue survives.
    - WakerRefs.v: which references to wakers are left, and who drops the last one.
    - Boot.v: src/src/gdt.rs and [init] of src/src/lib.rs; how the CPU enters handlers.
    - KernelMain.v: [kernel_main] of src/src/main.rs as one run, the panic handler.
    - ConsoleRun.v: the account that the whole kernel gives on the abstract console.
    - Experiments.v: the listings of translations and of page table entries that main.rs
      keeps in comments.
    - WakerRun.v: the wakers of the whole kernel.
    - Testing.v: the test runner of src/src/lib.rs and src/src/serial.rs.
    - KernelTests.v: the test functions of src/src/vga_buffer.rs, lib.rs and main.rs, and
      [test_kernel_main] of src/src/lib.rs.
    - ExpectedFailures.v: src/tests/should_panic.rs and stack_overflow.rs.
    - TestBuilds.v: the executable of the heap tests and [kernel_main] in a test build.

    ** What the theorems show

    - The whole kernel ([kernel_main_comes_to_rest]): from its entry, under every
      schedule of interrupts and whatever heap the executor's collections use, it ends
      asleep with all input handled and exactly its four heap objects and the blocks of
      those collections allocated, or panics for one of three reasons that the theorem
      names; it never faults and never blocks on a lock.  The screen then shows the
      texts of the program and its tasks in their order, a dot for each tick of the timer
      and, for each key press, its decoded form in its turn or the warning that it was
      dropped ([screen_tells_all]).
    - Allocators ([fsb_client_safe], [ll_client_safe], [bump_client_safe]): from
      [init] on, any run of permitted calls and writes keeps the client's blocks
      aligned, in the heap, apart and untouched, and every further call returns.
      [ll_alloc_simulates] and [ll_dealloc_simulates] refine the pointer code to
      the abstract free list, [ll_find_region_first_fit] gives termination and
      first fit.  The functional theorems describe size classes, reuse of freed
      blocks, when the bump heap is reset or exhausted, and the accounting of free
      bytes; [ll_padding_leaks] exhibits the bytes the linked list allocator loses
      in front of an over-aligned block.  The heap tests pass on any allocator that
      fulfils the contract ([heap_tests_pass]); on the kernel's, boxes reuse the memory of
      those before them ([boxes_reuse_memory]).
    - Memory: frames handed out are usable, aligned and fresh, and all of them are handed
      out before there is none ([boot_frames_sound]); [init_heap] maps the 25 heap
      pages to distinct frames and leaves a heap on which every client is safe
      ([init_heap_correct], [kernel_heap_safe]).  The walk of the page tables by hand
      finds the addresses that the CPU finds ([translate_addr_agrees_with_cpu]), and a
      new mapping of the screen's frame shows what is written through it
      ([new_mapping_shows_text]).  The experiments that print translations and the used
      entries of the tables print exactly the lines that the physical memory determines
      ([translations_printed], [page_tables_listed]).
    - Screen: printing never indexes out of bounds ([print_total]) and shows the
      last 25 rows of the text laid out in 80 columns ([print_refines_terminal]).
    - Interrupts: code that prints and the handlers that interrupt it, between its texts
      or in the middle of one, never deadlock on a lock, and every interrupt is
      acknowledged once ([interrupts_never_deadlock]); [add_scancode] on every path.
    - Tasks: under every schedule [poll_next] takes the scancodes in their order and loses
      no wake-up ([poll_next_contract]), [sleep_if_idle] halts the CPU only when nothing
      is left to do ([cpu_sleeps_only_when_idle]) and the executor reaches that state with
      the key presses decoded in their order ([kernel_tasks_quiesce]).  In every state that
      the main loop reaches, with interrupts arriving without end, no wake-up is missing
      ([no_lost_wakeup]).  All these fail only by the panic on a full task queue.  Scancodes that come
      before the keyboard task has started are lost, and those that find the queue full;
      with room in the queue no others are.  [wakeup_race_overflows] is the limit
      of this: each key press in the window after [register] queues the task's id once
      more, and the task queue survives exactly 100 of them in a row.  On cooperative
      tasks both executors do the same work ([executors_equivalent]) and end.
      No interrupt handler frees a waker from the kernel's entry on, and one waker is left
      when it sleeps ([no_waker_freed_in_handlers]); the cache of wakers does not promise
      that for tasks that finish while they are registered
      ([finished_waker_freed_in_handler]).
    - Start-up: interrupts are enabled last ([init_enables_interrupts_last]); then no
      exception resets the machine, and a stack overflow reaches the double fault
      handler on its own stack ([stack_overflow_is_handled]).
    - Tests: the runner reports tests in order and exits with the right status
      ([test_runner_reports]); the kernel's tests pass whatever interrupts arrive
      ([kernel_tests_pass]), and the builds with a heap always end with a verdict
      ([test_builds_end_with_verdict]).  The two tests that pass by failing do so, and
      only then ([expected_failures_judged]).

    ** Fuel

    A loop that is not structural takes a bound.  [find_region] passes one more than
    the number of mapped words; a free list has at most one node per two words, and
    LinkedList.v proves the bound is never reached.  The keyboard task needs more
    than the scancodes queued or still to arrive, the executor more than the queued
    ids, interrupts to come and polls of its tasks; Keyboard.v, Scheduler.v and
    Cooperative.v prove that any such bound gives a result.  A schedule is finite, so
    [kernel_tasks_quiesce] is about the idle state after the last interrupt; in MainLoop.v
    the schedule can be extended at every step.

    ** Not modelled

    Where the executor's own data lies: its map of tasks, the boxed futures, the queues and
    the wakers are in the model's maps and lists, not in words of memory.  What their
    collections ask of the allocator is in KernelMain.v, as any list of requests, made in
    one place before the tasks run; WakerRefs.v counts the
    references to wakers without placing them in memory.  The experiments in the comments
    of src/src/main.rs that provoke a page fault or a stack overflow; what the CPU then does
    is in Boot.v.  A panic ends a run of the model with its message; what the panic handler does next is [panic] of KernelMain.v and
    [test_panic_handler]. *)

From stdpp Require Import prelude gmap strings.

Declare Scope kernel_scope.
Delimit Scope kernel_scope with kernel.
Global Open Scope Z_scope.
Global Open Scope kernel_scope.

(** ** Outcomes of Rust code

    A call either returns ([Done]), panics ([Panicked], with the message), touches
    an unmapped word of memory ([Faulted], the page fault handler then halts the
    CPU), or runs out of the fuel of a loop ([Diverged]). *)
Inductive outcome (A : Type) : Type :=
| Done (a : A)
| Panicked (msg : string)
| Faulted
| Diverged.
Arguments Done {A} a.
Arguments Panicked {A} msg.
Arguments Faulted {A}.
Arguments Diverged {A}.

Global Instance outcome_ret : MRet outcome := @Done.
Global Instance outcome_bind : MBind outcome := λ A B f m,
  match m with
  | Done a => f a
  | Panicked msg => Panicked msg
  | Faulted => Faulted
  | Diverged => Diverged
  end.
Global Instance outcome_fmap : FMap outcome := λ A B f m,
  match m with
  | Done a => Done (f a)
  | Panicked msg => Panicked msg
  | Faulted => Faulted
  | Diverged => Diverged
  end.

Global Instance outcome_eq_dec `{EqDecision A} : EqDecision (outcome A).
Proof. solve_decision. Defined.

(** [Option::expect] and [Option::unwrap]. *)
Definition expect {A} (msg : string) (o : option A) : outcome A :=
  match o with Some a => Done a | None => Panicked msg end.

(** [assert!] *)
Definition rust_assert (b : bool) (msg : string) : outcome unit :=
  if b then Done () else Panicked msg.

Lemma bind_Done {A B} (m : outcome A) (f : A → outcome B) b :
  m ≫= f = Done b ↔ ∃ a, m = Done a ∧ f a = Done b.
Proof. destruct m; simpl; naive_solver. Qed.

Lemma expect_Done {A} msg (o : option A) a : expect msg o = Done a ↔ o = Some a.
Proof. destruct o; simpl; naive_solver. Qed.

(** ** Tactics *)

Create HintDb kernel discriminated.

(** Split a goal or hypothesis about a bind that returned. *)
Ltac inv_done :=
  repeat match goal with
  | H : _ ≫= _ = Done _ |- _ => apply bind_Done in H as (? & ? & ?)
  | H : expect _ _ = Done _ |- _ => apply expect_Done in H
  | H : Done _ = Done _ |- _ => injection H as H
  | H : Panicked _ = Done _ |- _ => discriminate H
  | H : Faulted = Done _ |- _ => discriminate H
  | H : Diverged = Done _ |- _ => discriminate H
  end; simplify_eq/=.

(** Run the binds of the code whose first computation is a value. *)
Ltac run_binds := cbn [mbind outcome_bind mret outcome_ret].
Tactic Notation "run" := run_binds.
Tactic Notation "run" uconstr(E) := rewrite E; run_binds.
Tactic Notation "run" uconstr(E) "by" tactic3(t) := rewrite E by t; run_binds.

(** Case analysis on the conditionals of the code. *)
Ltac case_code :=
  repeat first
    [ case_decide | case_bool_decide | case_match ]; simplify_eq/=.

(** ** Iterators *)

(** [Iterator::position] *)
Fixpoint position {A} (p : A → bool) (l : list A) : option nat :=
  match l with
  | [] => None
  | x :: l' => if p x then Some O else S <$> position p l'
  end.

Lemma position_Some {A} (p : A → bool) l i :
  position p l = Some i ↔
  ∃ x, l !! i = Some x ∧ p x = true ∧ ∀ j y, (j < i)%nat → l !! j = Some y → p y = false.
Proof.
  revert i. induction l as [|x l IH]; intros i; simpl.
  { split; [done|]. intros (? & ? & _). done. }
  destruct (p x) eqn:Hx.
  - split.
    + intros [= <-]. exists x. split_and!; [done..|]. intros; lia.
    + intros (y & Hy & Hp & Hmin). destruct i as [|i]; [done|].
      specialize (Hmin O x ltac:(lia) eq_refl). congruence.
  - rewrite fmap_Some. split.
    + intros (k & Hk & ->). apply IH in Hk as (y & ? & ? & Hmin).
      exists y. split_and!; [done..|]. intros [|j] z ? Hz; simplify_eq/=; [done|].
      eapply Hmin; [|done]. lia.
    + intros (y & Hy & Hp & Hmin). destruct i as [|i]; simplify_eq/=; [congruence|].
      exists i. split; [|done]. apply IH. exists y. split_and!; [done..|].
      intros j z ??. apply (Hmin (S j) z); [lia|done].
Qed.

Lemma position_None {A} (p : A → bool) l :
  position p l = None ↔ Forall (λ x, p x = false) l.
Proof.
  induction l as [|x l IH]; simpl; [split; [constructor|done]|].
  rewrite Forall_cons, <-IH. destruct (p x); [split; [done|naive_solver]|].
  rewrite fmap_None. naive_solver.
Qed.

(** [for x in l { body }] on a state, with early exit on a panic. *)
Fixpoint for_each {A S} (l : list A) (body : A → S → outcome S) (s : S) : outcome S :=
  match l with
  | [] => Done s
  | x :: l' => s' ← body x s; for_each l' body s'
  end.

(** A loop whose body keeps an invariant returns and keeps it. *)
Lemma for_each_inv {A S} (I : list A → S → Prop) (l : list A) (body : A → S → outcome S) s :
  (∀ l1 x l2 s, l = l1 ++ x :: l2 → I l1 s → ∃ s', body x s = Done s' ∧ I (l1 ++ [x]) s') →
  I [] s → ∃ s', for_each l body s = Done s' ∧ I l s'.
Proof.
  assert (∀ l0 s, (∀ l1 x l2 s, l0 ++ l = l1 ++ x :: l2 → I l1 s →
    ∃ s', body x s = Done s' ∧ I (l1 ++ [x]) s') → I l0 s →
    ∃ s', for_each l body s = Done s' ∧ I (l0 ++ l) s') as Hgen.
  { induction l as [|x l IH]; intros l0 s0 Hstep Hi; simpl.
    - rewrite app_nil_r. eauto.
    - destruct (Hstep l0 x l s0 eq_refl Hi) as (s1 & E & Hi1). rewrite E. simpl.
      destruct (IH (l0 ++ [x]) s1) as (s2 & E2 & Hi2).
      + intros l1 y l2 s' El. apply (Hstep l1 y l2). by rewrite <-El, <-app_assoc.
      + done.
      + exists s2. split; [done|]. by rewrite <-app_assoc in Hi2. }
  apply (Hgen [] s).
Qed.

(** ** Programs over a state

    A program that passes a state along, and its triples: from a state that satisfies the
    precondition it returns a result that satisfies the postcondition, or it panics with
    one of the messages [Err]; it neither faults nor runs out of fuel. *)
Definition stM (S R : Type) : Type := S → outcome (R * S).

Global Instance stM_ret {S} : MRet (stM S) := λ R r s, Done (r, s).
Global Instance stM_bind {S} : MBind (stM S) := λ R R' f m s, '(r, s') ← m s; f r s'.

Section triples.
Context {S : Type} (Err : string → Prop).

Definition htriple {R} (P : S → Prop) (f : stM S R) (Q : R → S → Prop) : Prop :=
  ∀ s, P s → match f s with
             | Done (r, s') => Q r s'
             | Panicked msg => Err msg
             | Faulted | Diverged => False
             end.

Lemma htriple_ret {R} P (r : R) (Q : R → S → Prop) :
  (∀ s, P s → Q r s) → htriple P (mret r) Q.
Proof. intros HP s Hs. by apply HP. Qed.

Lemma htriple_bind {R R'} P (f : stM S R) (g : R → stM S R') M Q :
  htriple P f M → (∀ r, htriple (M r) (g r) Q) → htriple P (f ≫= g) Q.
Proof.
  intros Hf Hg s Hs. specialize (Hf s Hs). unfold mbind, stM_bind.
  destruct (f s) as [[r s']| | |]; cbn; [by apply Hg|done..].
Qed.

Lemma htriple_conseq {R} (P P' : S → Prop) (f : stM S R) (Q Q' : R → S → Prop) :
  (∀ s, P s → P' s) → (∀ r s, Q' r s → Q r s) → htriple P' f Q' → htriple P f Q.
Proof.
  intros HP HQ Hf s Hs. specialize (Hf s (HP s Hs)). destruct (f s) as [[r s']| | |]; auto.
Qed.

Lemma htriple_pre {R} (P P' : S → Prop) (f : stM S R) Q :
  (∀ s, P s → P' s) → htriple P' f Q → htriple P f Q.
Proof. intros HP. by apply htriple_conseq. Qed.

Lemma htriple_pure {R} (φ : Prop) P (f : stM S R) Q :
  (φ → htriple P f Q) → htriple (λ s, φ ∧ P s) f Q.
Proof. intros Hf s [Hφ HP]. by apply Hf. Qed.

End triples.

(** ** Machine integers

    [usize] and [u64] are 64-bit.  The arithmetic operators panic on overflow when
    the crate is built with overflow checks (the dev profile) and wrap otherwise
    (the release profile): the profile is a parameter of the model. *)
Class BuildProfile := { overflow_checks : bool }.

Definition dev_profile : BuildProfile := {| overflow_checks := true |}.
Definition release_profile : BuildProfile := {| overflow_checks := false |}.

Definition usize_bits : Z := 64.
Definition usize_modulus : Z := 2 ^ 64.
Definition usize_max : Z := usize_modulus - 1.
Definition isize_max : Z := 2 ^ 63 - 1.
Definition is_usize (x : Z) : Prop := 0 ≤ x < usize_modulus.

Global Instance is_usize_dec x : Decision (is_usize x).
Proof. unfold is_usize. apply _. Defined.

Section arith.
Context `{BuildProfile}.

Definition usize_add (a b : Z) : outcome Z :=
  if bool_decide (a + b < usize_modulus) then Done (a + b)
  else if overflow_checks then Panicked "attempt to add with overflow"
  else Done ((a + b) mod usize_modulus).

Definition usize_sub (a b : Z) : outcome Z :=
  if bool_decide (b ≤ a) then Done (a - b)
  else if overflow_checks then Panicked "attempt to subtract with overflow"
  else Done ((a - b) mod usize_modulus).

Lemma usize_add_Done a b : a + b < usize_modulus → usize_add a b = Done (a + b).
Proof. intros. unfold usize_add. by rewrite bool_decide_eq_true_2. Qed.

Lemma usize_sub_Done a b : b ≤ a → usize_sub a b = Done (a - b).
Proof. intros. unfold usize_sub. by rewrite bool_decide_eq_true_2. Qed.

End arith.

(** [usize::checked_add] *)
Definition checked_add (a b : Z) : option Z :=
  if bool_decide (a + b < usize_modulus) then Some (a + b) else None.

(** [!x] on [usize] *)
Definition usize_not (x : Z) : Z := Z.lxor x (Z.ones usize_bits).

Lemma checked_add_Some a b c :
  checked_add a b = Some c ↔ c = a + b ∧ a + b < usize_modulus.
Proof. unfold checked_add. case_bool_decide; naive_solver. Qed.
