(* ===== verification/Layout.v ===== *)
(** * Layouts and alignment

    [core::alloc::Layout] as the allocators use it, and the [align_up] helper of
    src/src/allocator.rs.  A layout is a size and an alignment; the constructor
    checks of the Rust core library are executable. *)

From stdpp Require Import prelude gmap strings.
From S2P Require Import Prelude.

(** [usize::is_power_of_two] *)
Definition is_power_of_two (a : Z) : bool :=
  bool_decide (0 < a ∧ a = 2 ^ Z.log2 a).

Record Layout := mkLayout { l_size : Z; l_align : Z }.

Global Instance Layout_eq_dec : EqDecision Layout.
Proof. solve_decision. Defined.

(** [Layout::from_size_align]: a non-zero power of two, and the size, rounded up to
    the alignment, must not exceed [isize::MAX]. *)
Definition from_size_align (size align : Z) : option Layout :=
  if is_power_of_two align && bool_decide (size ≤ isize_max - (align - 1))
  then Some (mkLayout size align) else None.

(** [Layout::align_to] *)
Definition align_to (l : Layout) (align : Z) : option Layout :=
  from_size_align (l_size l) (Z.max (l_align l) align).

(** [Layout::padding_needed_for] and [Layout::pad_to_align]: the size grows to a
    multiple of the alignment. *)
Definition padding_needed_for (l : Layout) (align : Z) : Z :=
  (- l_size l) mod align.
Definition pad_to_align (l : Layout) : Layout :=
  mkLayout (l_size l + padding_needed_for l (l_align l)) (l_align l).

(** The layouts safe Rust can build. *)
Definition layout_valid (l : Layout) : Prop :=
  is_power_of_two (l_align l) = true ∧ 0 ≤ l_size l ∧
  l_size l ≤ isize_max - (l_align l - 1).

Global Instance layout_valid_dec l : Decision (layout_valid l).
Proof. unfold layout_valid. apply _. Defined.

Section align_up.
Context `{BuildProfile}.

(** [align_up]: [(addr + align - 1) & !(align - 1)], in the order Rust evaluates
    it. *)
Definition align_up (addr align : Z) : outcome Z :=
  s ← usize_add addr align;
  t ← usize_sub s 1;
  m ← usize_sub align 1;
  Done (Z.land t (usize_not m)).

End align_up.

(** The remainder-based version that the comment in [align_up] describes. *)
Definition align_up_remainder (addr align : Z) : Z :=
  let remainder := addr mod align in
  if bool_decide (remainder = 0) then addr else addr - remainder + align.

(** ** Powers of two *)

Lemma is_power_of_two_true a :
  is_power_of_two a = true ↔ ∃ k, 0 ≤ k ∧ a = 2 ^ k.
Proof.
  unfold is_power_of_two. rewrite bool_decide_eq_true. split.
  - intros [? ->]. exists (Z.log2 a). split; [apply Z.log2_nonneg | done].
  - intros (k & ? & ->). rewrite Z.log2_pow2 by done. split; [lia | done].
Qed.

Lemma pow2_pos a : is_power_of_two a = true → 0 < a.
Proof. rewrite is_power_of_two_true. intros (k & ? & ->). lia. Qed.

Lemma pow2_divide a b :
  is_power_of_two a = true → is_power_of_two b = true → a ≤ b → (a | b).
Proof.
  rewrite !is_power_of_two_true. intros (j & ? & ->) (k & ? & ->) Hle.
  apply Z.pow_le_mono_r_iff in Hle; [| lia..].
  exists (2 ^ (k - j)). rewrite <-Z.pow_add_r by lia. f_equal; lia.
Qed.

Lemma pow2_max a b :
  is_power_of_two a = true → is_power_of_two b = true →
  is_power_of_two (Z.max a b) = true.
Proof. intros. by destruct (Z.max_spec a b) as [[_ ->]|[_ ->]]. Qed.

(** Masking with the complement of [2^k - 1] clears the low bits. *)
Lemma land_usize_not x k :
  0 ≤ k → 0 ≤ x < usize_modulus →
  Z.land x (usize_not (2 ^ k - 1)) = x / 2 ^ k * 2 ^ k.
Proof.
  intros Hk [Hx0 Hx]. unfold usize_not.
  rewrite <-Z.shiftr_div_pow2, <-Z.shiftl_mul_pow2, <-Z.ldiff_ones_r by lia.
  replace (2 ^ k - 1) with (Z.ones k) by (rewrite Z.ones_equiv; lia).
  apply Z.bits_inj'. intros n Hn.
  rewrite Z.land_spec, Z.lxor_spec, Z.ldiff_spec, !Z.testbit_ones_nonneg by
    (unfold usize_bits; lia).
  destruct (Z.ltb_spec n usize_bits) as [|Hbig]; [by rewrite xorb_true_r|].
  assert (Z.testbit x n = false) as ->; [|done].
  destruct (decide (x = 0)) as [->|]; [apply Z.testbit_0_l|].
  apply Z.bits_above_log2; [done|].
  apply Z.log2_lt_pow2; [lia|].
  eapply Z.lt_le_trans; [exact Hx|].
  apply Z.pow_le_mono_r; unfold usize_bits in *; lia.
Qed.

(** ** [align_up] *)

Lemma align_up_remainder_spec addr align :
  0 < align →
  addr ≤ align_up_remainder addr align < addr + align ∧
  (align | align_up_remainder addr align).
Proof.
  intros Ha. unfold align_up_remainder.
  pose proof (Z.mod_pos_bound addr align Ha).
  pose proof (Z.div_mod addr align). case_bool_decide.
  - split; [lia|]. apply Z.mod_divide; lia.
  - split; [lia|]. exists (addr / align + 1). lia.
Qed.

Section align_up_facts.
Context `{BuildProfile}.

Lemma align_up_Done addr align :
  is_power_of_two align = true → 0 ≤ addr → addr + align < usize_modulus →
  align_up addr align = Done (align_up_remainder addr align).
Proof.
  intros Hp Haddr Hlt. pose proof (pow2_pos _ Hp).
  apply is_power_of_two_true in Hp as (k & Hk & ->).
  unfold align_up. rewrite usize_add_Done by done. simpl.
  rewrite usize_sub_Done by lia. simpl. rewrite usize_sub_Done by lia. simpl.
  rewrite land_usize_not by lia. f_equal.
  unfold align_up_remainder.
  pose proof (Z.mod_pos_bound addr (2 ^ k) ltac:(lia)).
  pose proof (Z.div_mod addr (2 ^ k)). set (q := addr / 2 ^ k) in *.
  case_bool_decide.
  - replace (addr + 2 ^ k - 1) with (2 ^ k - 1 + q * 2 ^ k) by lia.
    rewrite Z.div_add, (Z.div_small (2 ^ k - 1)) by lia. lia.
  - replace (addr + 2 ^ k - 1) with (addr mod 2 ^ k - 1 + (q + 1) * 2 ^ k) by lia.
    rewrite Z.div_add, (Z.div_small (addr mod _ - 1)) by lia. lia.
Qed.

(** An aligned address is a fixed point. *)
Lemma align_up_aligned addr align :
  is_power_of_two align = true → 0 ≤ addr → addr + align < usize_modulus →
  (align | addr) → align_up addr align = Done addr.
Proof.
  intros Hp ?? Hd. rewrite align_up_Done by done. f_equal.
  unfold align_up_remainder. rewrite bool_decide_eq_true_2; [done|].
  apply Z.mod_divide; [|done]. pose proof (pow2_pos _ Hp). lia.
Qed.

End align_up_facts.

(** ** Layout adjustments *)

Lemma padding_bound l align :
  0 < align → 0 ≤ padding_needed_for l align < align.
Proof. intros. unfold padding_needed_for. by apply Z.mod_pos_bound. Qed.

Lemma pad_to_align_divide l :
  0 < l_align l → (l_align l | l_size (pad_to_align l)).
Proof.
  intros Ha. unfold pad_to_align, padding_needed_for; simpl.
  exists (- ((- l_size l) / l_align l)).
  pose proof (Z.div_mod (- l_size l) (l_align l)). lia.
Qed.

Lemma pad_to_align_bound l :
  0 < l_align l →
  l_size l ≤ l_size (pad_to_align l) ≤ l_size l + (l_align l - 1).
Proof. intros. pose proof (padding_bound l (l_align l)). simpl. lia. Qed.

(** ** Properties *)

Section align_up_properties.
Context `{BuildProfile}.

(** C31: for a power of two and no overflow, [align_up] returns the least multiple of
    [align] that is not below [addr], which is also what the remainder-based
    version in its comment computes. *)
Theorem align_up_correct addr align :
  is_power_of_two align = true → 0 ≤ addr → addr + align < usize_modulus →
  ∃ r, align_up addr align = Done r ∧ r = align_up_remainder addr align ∧
       addr ≤ r < addr + align ∧ (align | r) ∧
       ∀ q, addr ≤ q → (align | q) → r ≤ q.
Proof.
  intros Hp Ha Hlt. pose proof (pow2_pos _ Hp) as Hpos.
  destruct (align_up_remainder_spec addr align Hpos) as [Hb [k Hk]].
  eexists. split; [by apply align_up_Done|]. split_and!; [done|lia..|by exists k|].
  intros q Hq [j Hj]. assert (k < j + 1) by (apply (Z.mul_lt_mono_pos_r align); lia).
  rewrite Hk, Hj. apply Z.mul_le_mono_nonneg_r; lia.
Qed.

End align_up_properties.

Lemma align_up_correct_witness :
  ∃ r, @align_up dev_profile 0x444444440011 64 = Done r ∧
       r = align_up_remainder 0x444444440011 64 ∧
       0x444444440011 ≤ r < 0x444444440011 + 64 ∧ (64 | r) ∧
       ∀ q, 0x444444440011 ≤ q → (64 | q) → r ≤ q.
Proof. apply (@align_up_correct dev_profile); [reflexivity | lia | reflexivity]. Defined.

(** C32: when [addr + align] does not fit into a machine word, [align_up] panics in a build
    with overflow checks.  In a build without them it wraps around: it returns [addr],
    which is the right answer, if the sum is exactly one too large, and address 0
    otherwise. *)
Theorem align_up_overflow addr align :
  is_power_of_two align = true → is_usize addr → align < usize_modulus →
  usize_modulus ≤ addr + align →
  @align_up dev_profile addr align = Panicked "attempt to add with overflow" ∧
  @align_up release_profile addr align =
    Done (if decide (addr + align = usize_modulus) then addr else 0).
Proof.
  intros Hp Hu Ha Hov. unfold is_usize in Hu. pose proof (pow2_pos _ Hp).
  apply is_power_of_two_true in Hp as (k & Hk & ->).
  unfold align_up, usize_add. rewrite bool_decide_eq_false_2 by lia. cbn. split; [done|].
  assert ((addr + 2 ^ k) mod usize_modulus = addr + 2 ^ k - usize_modulus) as ->.
  { symmetry. apply (Z.mod_unique _ _ 1); lia. }
  case_decide as Heq.
  - rewrite Heq, Z.sub_diag.
    assert (usize_sub 0 1 = Done (usize_modulus - 1)) as -> by done. run.
    rewrite usize_sub_Done by lia. run. rewrite land_usize_not by lia. f_equal.
    assert (k ≤ 64) as Hk64.
    { unfold usize_modulus in *. apply (Z.pow_le_mono_r_iff 2); lia. }
    assert (usize_modulus = 2 ^ (64 - k) * 2 ^ k) as Hm.
    { rewrite <-Z.pow_add_r by lia. unfold usize_modulus. f_equal. lia. }
    assert ((usize_modulus - 1) / 2 ^ k = 2 ^ (64 - k) - 1) as ->; [|lia].
    symmetry. apply (Z.div_unique _ _ _ (2 ^ k - 1)); lia.
  - rewrite usize_sub_Done by lia. run. rewrite usize_sub_Done by lia. run.
    rewrite land_usize_not by lia. by rewrite Z.div_small by lia.
Qed.

Lemma align_up_overflow_witness :
  (@align_up dev_profile (2 ^ 64 - 1) 4096 = Panicked "attempt to add with overflow" ∧
   @align_up release_profile (2 ^ 64 - 1) 4096 = Done 0) ∧
  (@align_up dev_profile (2 ^ 64 - 8) 8 = Panicked "attempt to add with overflow" ∧
   @align_up release_profile (2 ^ 64 - 8) 8 = Done (2 ^ 64 - 8)).
Proof.
  split.
  - apply (align_up_overflow (2 ^ 64 - 1) 4096); [reflexivity | by vm_compute | reflexivity | done].
  - apply (align_up_overflow (2 ^ 64 - 8) 8); [reflexivity | by vm_compute | reflexivity | done].
Defined.
