(* ===== verification/Memory.v ===== *)
(** * Memory, intrusive lists and regions

    The heap as the allocators see it: a finite map from the mapped, 8-byte aligned
    addresses to 64-bit words.  An access outside the map is a page fault.  The
    allocators keep their free lists inside the freed memory; [chain] is the
    representation predicate of such a list.  Regions are address ranges and
    [all_disjoint] says that no two of them share a byte.  [preserved] says that a
    memory change leaves the bytes of a set of blocks as they were. *)

From stdpp Require Import prelude gmap strings.
From S2P Require Import Prelude Layout.

Abbreviation mem := (gmap Z Z).

Definition word_size : Z := 8.

Definition read_word (m : mem) (a : Z) : outcome Z :=
  match m !! a with Some v => Done v | None => Faulted end.

Definition write_word (m : mem) (a v : Z) : outcome mem :=
  match m !! a with Some _ => Done (<[a := v]> m) | None => Faulted end.

(** The null pointer, and [Option<&mut T>] stored in a word: [None] is 0. *)
Definition null : Z := 0.
Definition opt_of_word (w : Z) : option Z := if bool_decide (w = 0) then None else Some w.
Definition word_of_opt (o : option Z) : Z := default 0 o.

Lemma read_word_Done m a v : m !! a = Some v → read_word m a = Done v.
Proof. unfold read_word. by intros ->. Qed.

Lemma write_word_Done m a v : is_Some (m !! a) → write_word m a v = Done (<[a := v]> m).
Proof. unfold write_word. by intros [? ->]. Qed.

Lemma opt_of_word_of_opt o : o ≠ Some 0 → opt_of_word (word_of_opt o) = o.
Proof.
  unfold opt_of_word. destruct o as [a|]; simpl; [|done].
  intros. case_bool_decide; congruence.
Qed.

Lemma opt_of_word_nonzero a : a ≠ 0 → opt_of_word a = Some a.
Proof. intros. unfold opt_of_word. by rewrite bool_decide_eq_false_2. Qed.

(** The word that holds a byte, and the byte in it (little endian). *)
Definition word_addr (x : Z) : Z := x - x mod word_size.
Definition byte_of (w i : Z) : Z := Z.land (Z.shiftr w (8 * i)) 255.
Definition read_byte (m : mem) (x : Z) : option Z :=
  (λ w, byte_of w (x mod word_size)) <$> m !! word_addr x.

Lemma word_addr_bound x : word_addr x ≤ x < word_addr x + word_size.
Proof. unfold word_addr, word_size. pose proof (Z.mod_pos_bound x 8). lia. Qed.

Lemma word_addr_divide x : (word_size | word_addr x).
Proof. exists (x / word_size). unfold word_addr, word_size. pose proof (Z.div_mod x 8). lia. Qed.

Lemma is_Some_insert_word (m : mem) i j v : is_Some (m !! j) → is_Some (<[i := v]> m !! j).
Proof. intros. rewrite lookup_insert. case_decide; eauto. Qed.

(** ** Intrusive singly linked lists

    [chain off m p l]: following the [next] word at offset [off] of each node from
    [p] visits exactly the addresses of [l] and then ends. *)
Fixpoint chain (off : Z) (m : mem) (p : option Z) (l : list Z) : Prop :=
  match l with
  | [] => p = None
  | a :: l' =>
      p = Some a ∧ a ≠ 0 ∧
      ∃ w, m !! (a + off) = Some w ∧ chain off m (opt_of_word w) l'
  end.

Lemma chain_frame off (m m' : mem) p l :
  (∀ a, a ∈ l → m' !! (a + off) = m !! (a + off)) →
  chain off m p l → chain off m' p l.
Proof.
  revert p. induction l as [|a l IH]; intros p Hf; [done|].
  intros (-> & ? & w & Hw & Hc). split_and!; [done..|]. exists w. split.
  - rewrite Hf; [done | left].
  - apply IH; [|done]. intros. apply Hf. by right.
Qed.

Lemma chain_insert off (m : mem) p l i v :
  (∀ a, a ∈ l → a + off ≠ i) → chain off m p l → chain off (<[i := v]> m) p l.
Proof.
  intros Hne. apply chain_frame. intros a Ha.
  rewrite lookup_insert_ne; [done|]. specialize (Hne a Ha). congruence.
Qed.

Lemma chain_push off (m : mem) p l a :
  chain off m p l → a ≠ 0 → a ∉ l →
  chain off (<[a + off := word_of_opt p]> m) (Some a) (a :: l).
Proof.
  intros Hc Ha Hn. split_and!; [done..|].
  exists (word_of_opt p). rewrite lookup_insert_eq. split; [done|].
  rewrite opt_of_word_of_opt.
  - apply chain_insert; [|done]. intros b Hb ?. apply Hn. by replace a with b by lia.
  - destruct l; simpl in Hc; naive_solver.
Qed.

Lemma chain_mapped off (m : mem) p l a :
  chain off m p l → a ∈ l → a ≠ 0 ∧ is_Some (m !! (a + off)).
Proof.
  revert p. induction l as [|b l IH]; intros p Hc Ha; [by apply elem_of_nil in Ha|].
  destruct Hc as (-> & ? & w & Hw & Hc).
  apply elem_of_cons in Ha as [->|Ha]; [eauto | by eapply IH].
Qed.

(** A chain never revisits a node, so it has at most one node per mapped word. *)
Lemma chain_functional off (m : mem) p l1 l2 :
  chain off m p l1 → chain off m p l2 → l1 = l2.
Proof.
  revert p l2. induction l1 as [|a l1 IH]; intros p [|b l2]; simpl; [naive_solver..|].
  intros (-> & _ & w & Hw & Hc) (E & _ & w' & Hw' & Hc'). simplify_eq. f_equal. eauto.
Qed.

Lemma chain_suffix off (m : mem) p l1 a l2 :
  chain off m p (l1 ++ a :: l2) → chain off m (Some a) (a :: l2).
Proof.
  revert p. induction l1 as [|b l1 IH]; intros p.
  - intros (? & ? & ?). by split_and!.
  - intros (_ & _ & w & _ & Hc). by eapply IH.
Qed.

Lemma chain_NoDup off (m : mem) p l : chain off m p l → NoDup l.
Proof.
  revert p. induction l as [|a l IH]; intros p Hc; [constructor|].
  constructor.
  - intros (l1 & l2 & ->)%list_elem_of_split.
    pose proof (chain_suffix off m p [] a _ Hc) as H1.
    pose proof (chain_suffix off m p (a :: l1) a l2 Hc) as H2.
    pose proof (chain_functional _ _ _ _ _ H1 H2) as E.
    apply (f_equal length) in E. rewrite !length_cons, length_app in E.
    simpl in E. lia.
  - destruct Hc as (_ & _ & w & _ & Hc). by eapply IH.
Qed.

Lemma chain_length off (m : mem) p l : chain off m p l → (length l ≤ size m)%nat.
Proof.
  intros Hc. pose proof (chain_NoDup _ _ _ _ Hc) as Hnd.
  rewrite <-size_dom.
  replace (length l) with (size (list_to_set ((λ a, a + off) <$> l) : gset Z)).
  - apply subseteq_size. intros x Hx. apply elem_of_list_to_set in Hx.
    apply list_elem_of_fmap in Hx as (a & -> & Ha).
    apply elem_of_dom. by eapply chain_mapped.
  - rewrite size_list_to_set, length_fmap; [done|].
    apply NoDup_fmap_2; [|done]. intros ???. lia.
Qed.

(** ** Regions *)

Abbreviation region := (Z * Z)%type.

Definition disj (r1 r2 : region) : Prop := r1.1 + r1.2 ≤ r2.1 ∨ r2.1 + r2.2 ≤ r1.1.

Global Instance disj_symmetric : Symmetric disj.
Proof. unfold disj. intros ??. lia. Qed.

Fixpoint all_disjoint (rs : list region) : Prop :=
  match rs with
  | [] => True
  | r :: rs' => Forall (disj r) rs' ∧ all_disjoint rs'
  end.

Global Instance all_disjoint_dec rs : Decision (all_disjoint rs).
Proof.
  induction rs as [|r rs IH]; simpl; [apply _|].
  assert (∀ r', Decision (disj r r')) by (intros; unfold disj; apply _). apply _.
Defined.

Global Instance all_disjoint_proper : Proper ((≡ₚ) ==> iff) all_disjoint.
Proof.
  assert (∀ l1 l2, l1 ≡ₚ l2 → all_disjoint l1 → all_disjoint l2) as Hd.
  { induction 1 as [|r l1 l2 Hp IH|r1 r2 l|]; simpl; [done| | |naive_solver].
    - intros [Hf ?]. split; [|by apply IH]. by rewrite <-Hp.
    - rewrite !Forall_cons. intros [[? ?] [? ?]]. split_and!; [by symmetry|done..]. }
  intros l1 l2 Hp. split; apply Hd; [done | by symmetry].
Qed.

Lemma all_disjoint_app l1 l2 :
  all_disjoint (l1 ++ l2) ↔
  all_disjoint l1 ∧ all_disjoint l2 ∧ ∀ r1 r2, r1 ∈ l1 → r2 ∈ l2 → disj r1 r2.
Proof.
  induction l1 as [|r l1 IH]; simpl.
  - split; [intros; split_and!; [done..|] | naive_solver].
    by intros ?? ?%elem_of_nil.
  - rewrite IH, Forall_app, !Forall_forall. split.
    + intros [[Hl Hr] (? & ? & Hx)]. split_and!; [done..|].
      intros r1 r2 [->|?]%elem_of_cons ?; auto.
    + intros ([Hl ?] & ? & Hx). split_and!; try done.
      * intros; apply Hx; [left|done].
      * intros; apply Hx; [by right|done].
Qed.

Lemma all_disjoint_elem rs r1 r2 l :
  rs ≡ₚ r1 :: l → all_disjoint rs → r2 ∈ l → disj r1 r2.
Proof. intros -> [Hf _] ?. by eapply Forall_forall. Qed.

Definition sub_region (r1 r : region) : Prop := r.1 ≤ r1.1 ∧ r1.1 + r1.2 ≤ r.1 + r.2.

Lemma disj_sub r1 r r' : sub_region r1 r → disj r r' → disj r1 r'.
Proof. unfold sub_region, disj. lia. Qed.

(** A region may be replaced by disjoint parts of it. *)
Lemma all_disjoint_split r parts rs :
  all_disjoint (r :: rs) → Forall (λ r1, sub_region r1 r) parts → all_disjoint parts →
  all_disjoint (parts ++ rs).
Proof.
  intros [Hr Hrs] Hsub Hp. apply all_disjoint_app. split_and!; [done..|].
  intros r1 r2 H1 H2. rewrite Forall_forall in Hr, Hsub.
  eapply disj_sub; [by apply Hsub | by apply Hr].
Qed.

Lemma all_disjoint_fmap_sub {X} (f g : X → region) (l : list X) :
  Forall (λ x, sub_region (g x) (f x)) l →
  all_disjoint (f <$> l) → all_disjoint (g <$> l).
Proof.
  induction l as [|x l IH]; [done|]. intros [Hx Hl]%Forall_cons [Hd Hr].
  rewrite fmap_cons. split; [|by apply IH].
  rewrite Forall_fmap, Forall_forall in *. intros y Hy. unfold compose.
  eapply disj_sub; [done|]. symmetry. eapply disj_sub; [by apply Hl|]. symmetry. by apply Hd.
Qed.

(** Every word that holds a byte of the heap [hs, he) is mapped. *)
Definition mapped (hs he : Z) (m : mem) : Prop :=
  ∀ w, (word_size | w) → hs < w + word_size → w < he → is_Some (m !! w).

Lemma mapped_insert hs he m w v : mapped hs he m → mapped hs he (<[w := v]> m).
Proof. intros Hm x ???. apply is_Some_insert_word. by apply Hm. Qed.

(** ** Blocks handed to a client *)

Record block := mkBlock { b_ptr : Z; b_layout : Layout }.

Global Instance block_eq_dec : EqDecision block.
Proof. solve_decision. Defined.

Definition block_region (b : block) : region := (b_ptr b, l_size (b_layout b)).

(** The byte at [x], the word at [w] lies inside the block. *)
Definition byte_in (b : block) (x : Z) : Prop :=
  b_ptr b ≤ x < b_ptr b + l_size (b_layout b).
Definition word_in (b : block) (w : Z) : Prop :=
  (word_size | w) ∧ b_ptr b ≤ w ∧ w + word_size ≤ b_ptr b + l_size (b_layout b).

Lemma word_in_byte b w x : word_in b w → word_addr x = w → byte_in b x.
Proof. intros (_ & ? & ?) Hx. pose proof (word_addr_bound x). unfold byte_in. lia. Qed.

Lemma word_in_self b w : word_in b w → byte_in b w ∧ word_addr w = w.
Proof.
  intros Hw. pose proof Hw as ([k ->] & _). assert (word_addr (k * word_size) = k * word_size) as E.
  { unfold word_addr. rewrite Z.mod_mul by done. lia. }
  split; [by eapply word_in_byte|done].
Qed.

(** What a client may rely on: its blocks are non-null, aligned, inside the heap and
    pairwise disjoint. *)
Definition block_ok (hs he : Z) (b : block) : Prop :=
  b_ptr b ≠ null ∧ (l_align (b_layout b) | b_ptr b) ∧
  hs ≤ b_ptr b ∧ b_ptr b + l_size (b_layout b) ≤ he.

Definition blocks_ok (hs he : Z) (live : list block) : Prop :=
  Forall (block_ok hs he) live ∧ all_disjoint (block_region <$> live).

Lemma byte_in_mapped hs he m b x :
  mapped hs he m → block_ok hs he b → byte_in b x → is_Some (m !! word_addr x).
Proof.
  intros Hm (_ & _ & ? & ?) [??]. pose proof (word_addr_bound x).
  apply Hm; [apply word_addr_divide|lia..].
Qed.

Lemma word_in_mapped hs he m b w :
  mapped hs he m → block_ok hs he b → word_in b w → is_Some (m !! w).
Proof. intros ?? [? E]%word_in_self. rewrite <-E. by eapply byte_in_mapped. Qed.

(** A byte belongs to at most one block, and a word inside a block holds no byte of
    another one. *)
Lemma blocks_ok_byte_apart hs he b1 L b2 x :
  blocks_ok hs he (b1 :: L) → b2 ∈ L → byte_in b1 x → ¬ byte_in b2 x.
Proof.
  intros [_ [Hd _]] Hb2 Hx1 Hx2. rewrite Forall_fmap, Forall_forall in Hd.
  specialize (Hd _ Hb2). unfold disj, block_region, byte_in in *. cbn in *. lia.
Qed.

Lemma blocks_ok_word_apart hs he b1 L b2 w x :
  blocks_ok hs he (b1 :: L) → b2 ∈ L → word_in b1 w → byte_in b2 x → word_addr x ≠ w.
Proof.
  intros Hok Hb Hw Hx E. by eapply blocks_ok_byte_apart; [..|eapply word_in_byte|].
Qed.

(** The live blocks keep their contents: the words inside of them, and every byte
    where a block shares a word with its surroundings. *)
Definition preserved (live : list block) (m m' : mem) : Prop :=
  ∀ b, b ∈ live →
    (∀ w, word_in b w → m' !! w = m !! w) ∧
    (∀ x, byte_in b x → read_byte m' x = read_byte m x).

Lemma preserved_refl live m : preserved live m m.
Proof. done. Qed.

Lemma preserved_trans live m1 m2 m3 :
  preserved live m1 m2 → preserved live m2 m3 → preserved live m1 m3.
Proof.
  intros H1 H2 b Hb. destruct (H1 b Hb) as [W1 B1], (H2 b Hb) as [W2 B2].
  split; intros x Hx; [by rewrite W2, W1|by rewrite B2, B1].
Qed.

Lemma preserved_subset live live' m m' :
  live' ⊆ live → preserved live m m' → preserved live' m m'.
Proof. intros Hs Hp b Hb. apply Hp. by apply Hs. Qed.

(** The words that hold a byte of a live block are unchanged. *)
Lemma preserved_words live m m' :
  (∀ b x, b ∈ live → byte_in b x → m' !! word_addr x = m !! word_addr x) →
  preserved live m m'.
Proof.
  intros Hs b Hb. split.
  - intros w [Hx E]%word_in_self. rewrite <-E. by eapply Hs.
  - intros x Hx. unfold read_byte. by rewrite (Hs b).
Qed.

Lemma preserved_insert live m w v :
  (∀ b x, b ∈ live → byte_in b x → word_addr x ≠ w) → preserved live m (<[w := v]> m).
Proof.
  intros Hn. apply preserved_words. intros b x Hb Hx.
  rewrite lookup_insert_ne; [done|]. by apply not_eq_sym, (Hn b).
Qed.

(** The step from [m] to [m'] writes bytes of the block [b] only. *)
Definition writes_in (b : block) (m m' : mem) : Prop :=
  (∀ w, (∀ x, byte_in b x → word_addr x ≠ w) → m' !! w = m !! w) ∧
  (∀ w, is_Some (m !! w) → is_Some (m' !! w)) ∧
  (∀ x, ¬ byte_in b x → read_byte m' x = read_byte m x).

Lemma writes_in_word b m w v : word_in b w → writes_in b m (<[w := v]> m).
Proof.
  intros Hw. split_and!.
  - intros w' Hn. destruct (word_in_self _ _ Hw) as [Hx E].
    rewrite lookup_insert_ne; [done|]. rewrite <-E. by apply Hn.
  - intros w'. apply is_Some_insert_word.
  - intros x Hx. unfold read_byte. rewrite lookup_insert_ne; [done|].
    intros E. apply Hx. by eapply word_in_byte.
Qed.

Lemma writes_in_sub b b' m m' :
  (∀ x, byte_in b x → byte_in b' x) → writes_in b m m' → writes_in b' m m'.
Proof. intros Hs (Hw & ? & Hx). split_and!; [|done|]; eauto. Qed.

Lemma writes_in_mapped hs he b m m' : writes_in b m m' → mapped hs he m → mapped hs he m'.
Proof. intros (_ & Hd & _) Hm w ???. by apply Hd, Hm. Qed.

Lemma writes_in_preserved hs he b L m m' :
  blocks_ok hs he (b :: L) → writes_in b m m' → preserved L m m'.
Proof.
  intros Hok (Hw & _ & Hx) b' Hb'. split.
  - intros w Hin. apply Hw. intros x Hbx E.
    eapply blocks_ok_byte_apart; [done..|]. by eapply word_in_byte.
  - intros x Hin. apply Hx. intros Hbx. by eapply blocks_ok_byte_apart.
Qed.

#[export] Hint Resolve preserved_refl preserved_trans : kernel.

(** ** Concrete heaps: [n] zeroed words from [hs] on. *)
Definition heap_words (hs : Z) (n : nat) : mem :=
  list_to_map ((λ i, (hs + word_size * Z.of_nat i, 0)) <$> seq 0 n).

Lemma heap_words_mapped hs n :
  (word_size | hs) → mapped hs (hs + word_size * Z.of_nat n) (heap_words hs n).
Proof.
  unfold word_size. intros [h Hh] w [k Hk] Hlo Hhi. unfold heap_words, word_size in *.
  destruct (list_to_map _ !! w) eqn:E; [eauto|].
  destruct (not_elem_of_list_to_map_2 _ _ E). rewrite <-list_fmap_compose.
  apply list_elem_of_fmap. exists (Z.to_nat (k - h)).
  split; [cbn; lia|]. apply elem_of_seq. lia.
Qed.
