(* ===== verification/GlobalAlloc.v ===== *)
(** * The GlobalAlloc interface

    [core::alloc::GlobalAlloc] as a typeclass of operations, the contract an
    implementation promises ([AllocSpec]) and what every client that respects the
    trait's safety rules may conclude from the contract alone.  The bump, linked
    list and fixed-size block allocators discharge the contract in their own files.
    The [Dummy] allocator of src/src/allocator.rs is here too. *)

From stdpp Require Import prelude gmap strings.
From S2P Require Import Prelude Layout Memory.

(** [alloc] returns a pointer, null on failure; [dealloc] returns nothing.  Both
    update the allocator and the memory it manages. *)
Class AllocOps (A : Type) := {
  op_alloc : Layout → A → mem → outcome (Z * A * mem);
  op_dealloc : Z → Layout → A → mem → outcome (A * mem);
}.

(** The contract.  [as_inv hs he live a m] holds when [a] manages the heap
    [hs, he) in memory [m] and [live] are the blocks the client still owns. *)
Class AllocSpec (A : Type) `{AllocOps A} := {
  as_inv : Z → Z → list block → A → mem → Prop;
  as_admits : Layout → Prop;
  as_perm hs he a m :
    Proper ((≡ₚ) ==> impl) (λ live, as_inv hs he live a m);
  as_sound hs he live a m :
    as_inv hs he live a m → blocks_ok hs he live;
  as_mapped hs he live a m :
    as_inv hs he live a m → mapped hs he m;
  as_alloc hs he live a m l :
    as_inv hs he live a m → as_admits l →
    ∃ p a' m', op_alloc l a m = Done (p, a', m') ∧ preserved live m m' ∧
      if decide (p = null) then as_inv hs he live a' m'
      else as_inv hs he (mkBlock p l :: live) a' m';
  as_dealloc hs he live a m b :
    as_inv hs he (b :: live) a m →
    ∃ a' m', op_dealloc (b_ptr b) (b_layout b) a m = Done (a', m') ∧
      preserved live m m' ∧ as_inv hs he live a' m';
  as_write hs he live a m m' b :
    as_inv hs he live a m → b ∈ live → writes_in b m m' →
    as_inv hs he live a m';
}.

#[export] Existing Instance as_perm.

(** ** A client of an allocator

    The state is what the client owns, the allocator and the memory; a step is a
    call that the trait's safety contract permits, or a write into an owned block. *)
Section client.
Context `{AllocSpec A}.
Implicit Types (a : A) (m : mem) (live : list block).

Definition client_state : Type := list block * A * mem.

Inductive client_step : client_state → client_state → Prop :=
| step_alloc live a m l p a' m' :
    as_admits l → op_alloc l a m = Done (p, a', m') → p ≠ null →
    client_step (live, a, m) (mkBlock p l :: live, a', m')
| step_alloc_failed live a m l a' m' :
    as_admits l → op_alloc l a m = Done (null, a', m') →
    client_step (live, a, m) (live, a', m')
| step_dealloc live live' b a m a' m' :
    live ≡ₚ b :: live' →
    op_dealloc (b_ptr b) (b_layout b) a m = Done (a', m') →
    client_step (live, a, m) (live', a', m')
| step_write live a m m' b :
    b ∈ live → writes_in b m m' →
    client_step (live, a, m) (live, a, m').

Definition state_inv (hs he : Z) (σ : client_state) : Prop :=
  as_inv hs he σ.1.1 σ.1.2 σ.2.

Lemma client_step_inv hs he σ σ' :
  client_step σ σ' → state_inv hs he σ → state_inv hs he σ'.
Proof.
  unfold state_inv. destruct 1 as [??? l p a' m' Hl Ha Hp|??? l a' m' Hl Ha
    |live live' b ???? Hperm Hd|]; simpl; intros Hinv.
  - destruct (as_alloc _ _ _ _ _ _ Hinv Hl) as (?&?&?&E&_&Hi).
    rewrite E in Ha. simplify_eq. by rewrite decide_False in Hi.
  - destruct (as_alloc _ _ _ _ _ _ Hinv Hl) as (?&?&?&E&_&Hi).
    rewrite E in Ha. simplify_eq. by rewrite decide_True in Hi.
  - eapply as_perm in Hinv; [|exact Hperm].
    destruct (as_dealloc _ _ _ _ _ _ Hinv) as (?&?&E&_&Hi).
    rewrite E in Hd. by simplify_eq.
  - by eapply as_write.
Qed.

Lemma client_steps_inv hs he σ σ' :
  rtc client_step σ σ' → state_inv hs he σ → state_inv hs he σ'.
Proof. induction 1; eauto using client_step_inv. Qed.

(** Everything a client relies on in a state: its blocks are aligned, inside the heap
    and apart; the bytes of a block can be accessed; every further request it may
    make returns, leaves its blocks' contents alone and yields a block that is apart
    from the others or null; every block can be given back. *)
Definition client_safe (hs he : Z) (σ : client_state) : Prop :=
  let '(live, a, m) := σ in
  blocks_ok hs he live ∧
  (∀ b x, b ∈ live → byte_in b x → is_Some (read_byte m x)) ∧
  (∀ l, as_admits l → ∃ p a' m', op_alloc l a m = Done (p, a', m') ∧
     preserved live m m' ∧ (p ≠ null → blocks_ok hs he (mkBlock p l :: live))) ∧
  (∀ b live', live ≡ₚ b :: live' →
     ∃ a' m', op_dealloc (b_ptr b) (b_layout b) a m = Done (a', m') ∧
       preserved live' m m' ∧ blocks_ok hs he live').

Lemma state_inv_safe hs he σ : state_inv hs he σ → client_safe hs he σ.
Proof.
  destruct σ as [[live a] m]. unfold state_inv. simpl. intros Hinv.
  pose proof (as_sound _ _ _ _ _ Hinv) as Hok. split_and!; [done| | |].
  - intros b x Hb Hx. unfold read_byte. rewrite fmap_is_Some.
    eapply byte_in_mapped; [by eapply as_mapped| |exact Hx].
    destruct Hok as [Hf _]. rewrite Forall_forall in Hf. by apply Hf.
  - intros l Hl. destruct (as_alloc _ _ _ _ _ _ Hinv Hl) as (p & a' & m' & E & Hp & Hi).
    exists p, a', m'. split_and!; [done..|]. intros Hn. rewrite decide_False in Hi by done.
    by eapply as_sound.
  - intros b live' Hp. eapply as_perm in Hinv; [|exact Hp].
    destruct (as_dealloc _ _ _ _ _ _ Hinv) as (a' & m' & E & Hpr & Hi).
    exists a', m'. split_and!; [done..|]. by eapply as_sound.
Qed.

(** Any run of a client from a state with the invariant is safe. *)
Lemma client_run_safe hs he σ σ' :
  state_inv hs he σ → rtc client_step σ σ' → client_safe hs he σ'.
Proof. intros. by eapply state_inv_safe, client_steps_inv. Qed.

End client.

(** ** The Dummy allocator *)
Module Dummy.

Inductive Dummy : Type := mkDummy.

Definition alloc (_layout : Layout) (self : Dummy) (m : mem) : outcome (Z * Dummy * mem) :=
  Done (null, self, m).

Definition dealloc (_ptr : Z) (_layout : Layout) (self : Dummy) (m : mem)
    : outcome (Dummy * mem) :=
  Panicked "dealloc should be never called".

Definition ops : AllocOps Dummy := {| op_alloc := alloc; op_dealloc := dealloc |}.

End Dummy.
