(* ===== verification/AsyncLib.v ===== *)
(** * Interfaces of the crates behind the asynchronous code

    The executor, the keyboard driver and the interrupt handlers use
    [crossbeam_queue::ArrayQueue], [futures_util::task::AtomicWaker],
    [conquer_once::spin::OnceCell], [spin::Mutex] and [pic8259::ChainedPics], which
    are outside the repository.  [AsyncLib] is what the code calls of them and
    [AsyncLaws] their documented behaviour, stated over an abstract view: the
    elements and the capacity of a queue, the registered waker, the contents of a
    cell, whether a lock is held, the acknowledged interrupts.  [list_lib] is a
    concrete instance for evaluation. *)

From stdpp Require Import prelude gmap strings.
From S2P Require Import Prelude.

(** [TaskId(u64)] *)
Record TaskId := mkTaskId { task_id_val : Z }.

Global Instance TaskId_eq_dec : EqDecision TaskId.
Proof. solve_decision. Defined.
Global Program Instance TaskId_countable : Countable TaskId :=
  inj_countable' task_id_val mkTaskId _.
Next Obligation. by intros []. Qed.

(** The wakers of the kernel: the executor's [TaskWaker], which holds the task's id
    and the task queue shared with the executor, and the waker of the simple executor,
    which does nothing. *)
Inductive Waker := TaskWaker (task_id : TaskId) | DummyWaker.

Global Instance Waker_eq_dec : EqDecision Waker.
Proof. solve_decision. Defined.

(** [core::task::Poll] *)
Inductive Poll (A : Type) := Ready (a : A) | Pending.
Arguments Ready {A} a.
Arguments Pending {A}.

(** [push] answers the element back when the queue is full ([Err(PushError)]), [pop]
    answers nothing when it is empty ([Err(PopError)]). *)
Class AsyncLib := {
  ArrayQueue : Type → Type;
  queue_new {A} : nat → ArrayQueue A;
  queue_push {A} : ArrayQueue A → A → (unit + A) * ArrayQueue A;
  queue_pop {A} : ArrayQueue A → option A * ArrayQueue A;
  queue_is_empty {A} : ArrayQueue A → bool;
  AtomicWaker : Type;
  waker_new : AtomicWaker;
  waker_register : AtomicWaker → Waker → AtomicWaker;
  waker_take : AtomicWaker → option Waker * AtomicWaker;
  OnceCell : Type → Type;
  cell_uninit {A} : OnceCell A;
  cell_try_get {A} : OnceCell A → option A;
  cell_set {A} : OnceCell A → A → OnceCell A;
  cell_try_init_once {A} : OnceCell A → (unit → A) → option unit * OnceCell A;
  Mutex : Type;
  mutex_new : Mutex;
  mutex_lock : Mutex → outcome Mutex;
  mutex_unlock : Mutex → Mutex;
  ChainedPics : Type;
  pics_new : Z → Z → ChainedPics;
  pics_initialize : ChainedPics → ChainedPics;
  pics_notify_end_of_interrupt : ChainedPics → Z → ChainedPics;
}.

(** A queue is first in, first out with a fixed capacity.  A waker cell holds the last
    registered waker until it is taken.  A cell is initialised at most once; the value
    of an initialised cell may be updated through a shared reference ([cell_set] is
    the effect of the queue's interior mutability on the cell).  A spin lock that is
    taken while it is held spins forever, since its holder cannot run on the single
    CPU.  The interrupt controllers remember which vectors were acknowledged, and from
    their initialisation on at which vectors their lines were placed. *)
Class AsyncLaws `{AsyncLib} := {
  elems {A} : ArrayQueue A → list A;
  capacity {A} : ArrayQueue A → nat;
  queue_new_spec {A} n : elems (queue_new (A := A) n) = [] ∧ capacity (queue_new (A := A) n) = n;
  queue_push_spec {A} (q : ArrayQueue A) x :
    if bool_decide (length (elems q) < capacity q)%nat
    then ∃ q', queue_push q x = (inl (), q') ∧ elems q' = elems q ++ [x] ∧
               capacity q' = capacity q
    else queue_push q x = (inr x, q);
  queue_pop_spec {A} (q : ArrayQueue A) :
    match elems q with
    | [] => queue_pop q = (None, q)
    | x :: l => ∃ q', queue_pop q = (Some x, q') ∧ elems q' = l ∧ capacity q' = capacity q
    end;
  queue_is_empty_spec {A} (q : ArrayQueue A) :
    queue_is_empty q = bool_decide (length (elems q) = 0%nat);
  registered : AtomicWaker → option Waker;
  waker_new_spec : registered waker_new = None;
  waker_register_spec w k : registered (waker_register w k) = Some k;
  waker_take_spec w :
    ∃ w', waker_take w = (registered w, w') ∧ registered w' = None;
  cell_uninit_spec {A} : cell_try_get (A := A) cell_uninit = None;
  cell_set_spec {A} (c : OnceCell A) x y :
    cell_try_get c = Some x → cell_try_get (cell_set c y) = Some y;
  cell_try_init_once_spec {A} (c : OnceCell A) f :
    match cell_try_get c with
    | None => ∃ c', cell_try_init_once c f = (Some (), c') ∧ cell_try_get c' = Some (f ())
    | Some _ => cell_try_init_once c f = (None, c)
    end;
  locked : Mutex → bool;
  mutex_new_spec : locked mutex_new = false;
  mutex_lock_spec x :
    if locked x then mutex_lock x = Diverged
    else ∃ x', mutex_lock x = Done x' ∧ locked x' = true;
  mutex_unlock_spec x : locked (mutex_unlock x) = false;
  acknowledged : ChainedPics → list Z;
  pics_notify_spec p v :
    acknowledged (pics_notify_end_of_interrupt p v) = acknowledged p ++ [v];
  remapped : ChainedPics → option (Z * Z);
  pics_initialize_spec offset1 offset2 :
    remapped (pics_initialize (pics_new offset1 offset2)) = Some (offset1, offset2);
}.

(** ** An instance: lists with a bound, options *)

Definition list_lib : AsyncLib := {|
  ArrayQueue A := (nat * list A)%type;
  queue_new A n := (n, []);
  queue_push A q x :=
    if bool_decide (length q.2 < q.1)%nat then (inl (), (q.1, q.2 ++ [x])) else (inr x, q);
  queue_pop A q := match q.2 with [] => (None, q) | x :: l => (Some x, (q.1, l)) end;
  queue_is_empty A q := bool_decide (length q.2 = 0%nat);
  AtomicWaker := option Waker;
  waker_new := None;
  waker_register _ k := Some k;
  waker_take w := (w, None);
  OnceCell A := option A;
  cell_uninit A := None;
  cell_try_get A c := c;
  cell_set A _ x := Some x;
  cell_try_init_once A c f := match c with None => (Some (), Some (f ())) | Some _ => (None, c) end;
  Mutex := bool;
  mutex_new := false;
  mutex_lock x := if x : bool then Diverged else Done true;
  mutex_unlock _ := false;
  ChainedPics := (Z * Z * bool * list Z)%type;
  pics_new offset1 offset2 := (offset1, offset2, false, []);
  pics_initialize p := (p.1.1, true, p.2);
  pics_notify_end_of_interrupt p v := (p.1, p.2 ++ [v]);
|}.

Program Definition list_laws : @AsyncLaws list_lib := {|
  elems A q := q.2;
  capacity A q := q.1;
  registered w := w;
  locked x := x;
  acknowledged p := p.2;
  remapped p := if p.1.2 : bool then Some p.1.1 else None;
|}.
Next Obligation. done. Qed.
Next Obligation. intros A q x. simpl. case_bool_decide; [eauto|done]. Qed.
Next Obligation. intros A [c [|x l]]; simpl; eauto. Qed.
Next Obligation. done. Qed.
Next Obligation. done. Qed.
Next Obligation. done. Qed.
Next Obligation. intros w. simpl. eauto. Qed.
Next Obligation. done. Qed.
Next Obligation. done. Qed.
Next Obligation. intros A [x|] f; simpl; eauto. Qed.
Next Obligation. done. Qed.
Next Obligation. intros [|]; simpl; eauto. Qed.
Next Obligation. done. Qed.
Next Obligation. done. Qed.
Next Obligation. done. Qed.
