(* ===== verification/Locked.v ===== *)
(** * The Locked wrapper (src/src/allocator.rs)

    The allocators are shared through [Locked], a newtype around [spin::Mutex] on which
    [GlobalAlloc] is implemented: every call takes the lock, works on the wrapped
    allocator and releases the lock when the guard is dropped.  Wrapping an allocator
    that fulfils the contract gives one that fulfils it again, so that a call never
    finds the lock taken by an earlier one. *)

From stdpp Require Import prelude gmap strings.
From S2P Require Import Prelude Layout Memory GlobalAlloc AsyncLib.

Record Locked `{AsyncLib} (A : Type) := mkLocked { inner : A; lock_state : Mutex }.
Arguments mkLocked {_ A}.
Arguments inner {_ A}.
Arguments lock_state {_ A}.

Section operations.
Context `{AsyncLib} {A : Type}.
Implicit Types (self : Locked A) (m : mem).

Definition Locked_new (a : A) : Locked A := {| inner := a; lock_state := mutex_new |}.

(** [Locked::lock]: the value behind the guard, and the wrapper while it is held. *)
Definition lock self : outcome (A * Locked A) :=
  x ← mutex_lock (lock_state self); Done (inner self, mkLocked (inner self) x).

(** The end of the guard's life, which may have changed the value. *)
Definition drop_guard (a : A) self : Locked A := mkLocked a (mutex_unlock (lock_state self)).

(** [self.lock()] at the start of a method and the drop of the guard at its end. *)
Definition with_lock {R} (f : A → mem → outcome (R * A * mem)) self m
    : outcome (R * Locked A * mem) :=
  '(a, held) ← lock self;
  '(r, a', m') ← f a m;
  Done (r, drop_guard a' held, m').

Context `{AllocOps A}.

(** [impl GlobalAlloc for Locked<A>] *)
Global Instance locked_ops : AllocOps (Locked A) := {|
  op_alloc layout := with_lock (op_alloc layout);
  op_dealloc ptr layout self m :=
    '(_, self', m') ← with_lock (λ a m, '(a', m') ← op_dealloc ptr layout a m;
                                        Done ((), a', m')) self m;
    Done (self', m');
|}.

End operations.

Section proofs.
Context `{AsyncLaws} {A : Type}.
Implicit Types (self : Locked A) (m : mem).

Definition free_lock self : Prop := locked (lock_state self) = false.

Lemma Locked_new_free (a : A) : free_lock (Locked_new a).
Proof. apply mutex_new_spec. Qed.

(** On a free lock the call runs and leaves the lock free; on a held one it spins. *)
Lemma with_lock_free {R} (f : A → mem → outcome (R * A * mem)) self m r a m' :
  free_lock self → f (inner self) m = Done (r, a, m') →
  ∃ self', with_lock f self m = Done (r, self', m') ∧ inner self' = a ∧ free_lock self'.
Proof.
  intros Hl Hf. pose proof (mutex_lock_spec (lock_state self)) as Hx. rewrite Hl in Hx.
  destruct Hx as (x & E & _). unfold with_lock, lock. run E. run Hf.
  eexists. split_and!; [done|done|apply mutex_unlock_spec].
Qed.

Lemma with_lock_held {R} (f : A → mem → outcome (R * A * mem)) self m :
  locked (lock_state self) = true → with_lock f self m = Diverged.
Proof.
  intros Hl. pose proof (mutex_lock_spec (lock_state self)) as Hx. rewrite Hl in Hx.
  unfold with_lock, lock. by rewrite Hx.
Qed.

(** The wrapped allocator fulfils the contract of the allocator. *)
Global Program Instance locked_spec `{AllocSpec A} : AllocSpec (Locked A) := {|
  as_inv hs he live self m := free_lock self ∧ as_inv hs he live (inner self) m;
  as_admits := as_admits (A := A);
|}.
Next Obligation. intros ?? hs he a m l1 l2 Hp [? Hi]. split; [done|by eapply as_perm]. Qed.
Next Obligation. intros ?? hs he live a m [_ Hi]. by eapply as_sound. Qed.
Next Obligation. intros ?? hs he live a m [_ Hi]. by eapply as_mapped. Qed.
Next Obligation.
  intros ?? hs he live self m l [Hl Hi] Hadm. simpl.
  destruct (as_alloc _ _ _ _ _ _ Hi Hadm) as (p & a & m' & E & Hp & Hinv).
  destruct (with_lock_free _ _ _ _ _ _ Hl E) as (self' & E' & <- & Hl').
  exists p, self', m'. split_and!; [done..|]. by case_decide.
Qed.
Next Obligation.
  intros ?? hs he live self m b [Hl Hi]. simpl.
  destruct (as_dealloc _ _ _ _ _ _ Hi) as (a & m' & E & Hp & Hinv).
  destruct (with_lock_free (λ a m, '(a', m') ← op_dealloc (b_ptr b) (b_layout b) a m;
    Done ((), a', m')) self m () a m' Hl) as (self' & E' & <- & Hl'); [by rewrite E|].
  rewrite E'. exists self', m'. by split_and!.
Qed.
Next Obligation.
  intros ?? hs he live self m m' b [? Hi] ??. split; [done|by eapply as_write].
Qed.

End proofs.
