(* ===== verification/Bump.v ===== *)
(** * The bump allocator (src/src/allocator/bump.rs)

    The allocator hands out addresses in increasing order and counts the live
    allocations; the heap is reused only when the count drops to zero.  The file
    models every operation, discharges the [AllocSpec] contract, and proves when
    freed memory is reused and when it is not (the loops of
    src/tests/heap_allocation.rs). *)

From stdpp Require Import prelude gmap strings.
From S2P Require Import Prelude Layout Memory GlobalAlloc.

Record BumpAllocator := mkBump {
  heap_start : Z;
  heap_end : Z;
  next : Z;
  allocations : Z;
}.

Definition new : BumpAllocator :=
  {| heap_start := 0; heap_end := 0; next := 0; allocations := 0 |}.

Section operations.
Context `{BuildProfile}.

Definition init (self : BumpAllocator) (hstart hsize : Z) : outcome BumpAllocator :=
  hend ← usize_add hstart hsize;
  Done {| heap_start := hstart; heap_end := hend; next := hstart;
          allocations := allocations self |}.

Definition alloc (layout : Layout) (bump : BumpAllocator) : outcome (Z * BumpAllocator) :=
  alloc_start ← align_up (next bump) (l_align layout);
  match checked_add alloc_start (l_size layout) with
  | None => Done (null, bump)
  | Some alloc_end =>
      if bool_decide (alloc_end > heap_end bump) then Done (null, bump)
      else
        n ← usize_add (allocations bump) 1;
        Done (alloc_start,
              {| heap_start := heap_start bump; heap_end := heap_end bump;
                 next := alloc_end; allocations := n |})
  end.

Definition dealloc (_ptr : Z) (_layout : Layout) (bump : BumpAllocator)
    : outcome BumpAllocator :=
  n ← usize_sub (allocations bump) 1;
  Done {| heap_start := heap_start bump; heap_end := heap_end bump;
          next := if bool_decide (n = 0) then heap_start bump else next bump;
          allocations := n |}.

(** The bump allocator never touches the memory it hands out. *)
Global Instance bump_ops : AllocOps BumpAllocator := {|
  op_alloc l a m := '(p, a') ← alloc l a; Done (p, a', m);
  op_dealloc p l a m := a' ← dealloc p l a; Done (a', m);
|}.

(** The loop body of the [many_boxes] tests: allocate a box and drop it at once;
    [None] when the allocation failed. *)
Definition box_round (l : Layout) (a : BumpAllocator) : outcome (option BumpAllocator) :=
  '(p, a') ← alloc l a;
  if bool_decide (p = null) then Done None
  else a'' ← dealloc p l a'; Done (Some a'').

Fixpoint box_rounds (n : nat) (l : Layout) (a : BumpAllocator)
    : outcome (option BumpAllocator) :=
  match n with
  | O => Done (Some a)
  | S n' =>
      r ← box_round l a;
      match r with
      | None => Done None
      | Some a' => box_rounds n' l a'
      end
  end.

End operations.

(** ** Invariant *)

Definition bump_admits (l : Layout) : Prop := layout_valid l ∧ 0 < l_size l.

Definition bump_inv (hs he : Z) (live : list block) (a : BumpAllocator) : Prop :=
  heap_start a = hs ∧ heap_end a = he ∧
  0 < hs ∧ he ≤ 2 ^ 63 ∧ hs ≤ next a ≤ he ∧
  allocations a = Z.of_nat (length live) ∧
  Z.of_nat (length live) ≤ next a - hs ∧
  (live = [] → next a = hs) ∧
  blocks_ok hs (next a) live.

Lemma blocks_ok_mono hs he he' live :
  he ≤ he' → blocks_ok hs he live → blocks_ok hs he' live.
Proof.
  intros Hle [Hf Hd]. split; [|done].
  eapply Forall_impl; [exact Hf|]. intros b (? & ? & ? & ?). split_and!; [done..|lia].
Qed.

Lemma blocks_ok_perm hs he l1 l2 : l1 ≡ₚ l2 → blocks_ok hs he l1 → blocks_ok hs he l2.
Proof. intros Hp [Hf Hd]. split; [by rewrite <-Hp | by rewrite <-Hp]. Qed.

Lemma bump_inv_perm hs he a l1 l2 :
  l1 ≡ₚ l2 → bump_inv hs he l1 a → bump_inv hs he l2 a.
Proof.
  intros Hp (? & ? & ? & ? & ? & ? & ? & Hnil & ?).
  pose proof (Permutation_length Hp). unfold bump_inv.
  split_and!; try done; try lia; [|by eapply blocks_ok_perm].
  intros ->. apply Hnil. by apply Permutation_nil_r.
Qed.

Section proofs.
Context `{BuildProfile}.

Lemma bump_alloc_cases hs he live a l :
  bump_inv hs he live a → bump_admits l →
  let p := align_up_remainder (next a) (l_align l) in
  (he < p + l_size l ∧ alloc l a = Done (null, a)) ∨
  (p + l_size l ≤ he ∧ next a ≤ p ∧ (l_align l | p) ∧
   alloc l a = Done (p, mkBump hs he (p + l_size l) (allocations a + 1))).
Proof.
  intros (Hs & He & ? & Hhe & ? & Hn & Hlen & _ & _) [[Hp [Hsz0 Hsz]] Hpos] p.
  pose proof (pow2_pos _ Hp).
  destruct (align_up_remainder_spec (next a) (l_align l)) as [Hb Hd]; [done|].
  fold p in Hb, Hd. unfold isize_max in Hsz.
  assert (usize_modulus = 2 * 2 ^ 63) as Hm by done.
  unfold alloc. rewrite align_up_Done by (done || lia). fold p. simpl.
  unfold checked_add. rewrite bool_decide_eq_true_2 by lia. rewrite He.
  case_bool_decide as Hgt.
  - left. split; [lia | done].
  - right. split_and!; [lia..|done|].
    rewrite usize_add_Done by lia. simpl. by rewrite Hs.
Qed.

Lemma bump_inv_alloc hs he live a l p a' :
  bump_inv hs he live a → bump_admits l → alloc l a = Done (p, a') →
  if decide (p = null) then a' = a else bump_inv hs he (mkBlock p l :: live) a'.
Proof.
  intros Hinv Hl Ha.
  pose proof (bump_alloc_cases hs he live a l Hinv Hl) as [[_ E]|(Hfit & Hge & Hd & E)];
    rewrite E in Ha; simplify_eq; [done|].
  destruct Hinv as (Hs & He & ? & ? & ? & Hn & ? & _ & Hok).
  destruct Hl as [_ Hpos]. rewrite decide_False by (unfold null; lia).
  apply (blocks_ok_mono _ _ (align_up_remainder (next a) (l_align l) + l_size l)) in Hok
    as Hok'; [|lia].
  destruct Hok as [Hf _]. destruct Hok' as [Hf' Hdis].
  unfold bump_inv; simpl. split_and!; try done; try lia.
  split; simpl.
  - constructor; [|done]. unfold block_ok, null; simpl. split_and!; try done; lia.
  - split; [|done]. rewrite Forall_fmap. eapply Forall_impl; [exact Hf|].
    unfold block_ok, disj, block_region; simpl. lia.
Qed.

Lemma bump_inv_dealloc hs he b live a :
  bump_inv hs he (b :: live) a →
  ∃ a', dealloc (b_ptr b) (b_layout b) a = Done a' ∧ bump_inv hs he live a' ∧
        next a' = if decide (live = []) then hs else next a.
Proof.
  intros (Hs & He & ? & ? & ? & Hn & Hlen & _ & [Hf Hd]).
  rewrite length_cons in *. apply Forall_cons in Hf as [_ Hf].
  rewrite fmap_cons in Hd. destruct Hd as [_ Hd].
  unfold dealloc. rewrite usize_sub_Done by lia. simpl. rewrite Hn.
  eexists; split; [done|]. unfold bump_inv; simpl. rewrite Hs, He.
  case_bool_decide as Hz; destruct live as [|b' live]; try (simpl in *; lia);
    split_and!; try done; try lia; simpl in *; lia.
Qed.

(** The bump allocator fulfils the allocator contract. *)
Global Program Instance bump_spec : AllocSpec BumpAllocator := {|
  as_inv hs he live a m := bump_inv hs he live a ∧ mapped hs he m;
  as_admits := bump_admits;
|}.
Next Obligation.
  intros hs he a m l1 l2 Hp [Hinv ?]. split; [by eapply bump_inv_perm|done].
Qed.
Next Obligation.
  intros hs he live a m [(? & ? & ? & ? & ? & ? & ? & ? & ?) _].
  eapply blocks_ok_mono; [|done]. lia.
Qed.
Next Obligation. by intros hs he live a m [_ ?]. Qed.
Next Obligation.
  intros hs he live a m l [Hinv Hm] Hl. simpl.
  destruct (alloc l a) as [[p a']| | |] eqn:Ha.
  all: try by destruct (bump_alloc_cases _ _ _ _ _ Hinv Hl) as [[_ E]|(_ & _ & _ & E)];
    rewrite E in Ha.
  exists p, a', m. split_and!; [done..|].
  pose proof (bump_inv_alloc _ _ _ _ _ _ _ Hinv Hl Ha). case_decide; by subst.
Qed.
Next Obligation.
  intros hs he live a m b [Hinv Hm].
  destruct (bump_inv_dealloc _ _ _ _ _ Hinv) as (a' & E & Hi & _).
  exists a', m. simpl. by rewrite E.
Qed.
Next Obligation.
  intros hs he live a m m' b [? ?] ??. split; [done|by eapply writes_in_mapped].
Qed.

(** ** When freed memory is reused *)

Lemma box_round_cases hs he live a l :
  bump_inv hs he live a → bump_admits l →
  (he < align_up_remainder (next a) (l_align l) + l_size l ∧ box_round l a = Done None) ∨
  ∃ a', box_round l a = Done (Some a') ∧ bump_inv hs he live a' ∧
        next a' = if decide (live = []) then hs else
                  align_up_remainder (next a) (l_align l) + l_size l.
Proof.
  intros Hinv Hl. unfold box_round.
  pose proof (bump_alloc_cases _ _ _ _ _ Hinv Hl) as [[? E]|(Hfit & Hge & Hd & E)].
  - left. by rewrite E.
  - right. pose proof (bump_inv_alloc _ _ _ _ _ _ _ Hinv Hl E) as Hinv'.
    destruct Hinv as (? & ? & ? & ? & ? & _). destruct Hl as [_ ?].
    rewrite decide_False in Hinv' by (unfold null; lia).
    rewrite E. simpl. rewrite bool_decide_eq_false_2 by (unfold null; lia).
    destruct (bump_inv_dealloc _ _ _ _ _ Hinv') as (a' & Ed & Hi & Hn).
    simpl in Ed. rewrite Ed. simpl. eauto.
Qed.

Lemma box_rounds_advance n hs he live a l :
  bump_inv hs he live a → bump_admits l → live ≠ [] →
  box_rounds n l a = Done None ∨
  ∃ a', box_rounds n l a = Done (Some a') ∧ bump_inv hs he live a' ∧
        next a + Z.of_nat n ≤ next a'.
Proof.
  revert a. induction n as [|n IH]; intros a Hinv Hl Hne; simpl.
  - right. exists a. split_and!; [done..|lia].
  - destruct (box_round_cases _ _ _ _ _ Hinv Hl) as [[_ E]|(a1 & E & Hi & Hn)];
      rewrite E; simpl; [by left|].
    rewrite decide_False in Hn by done. destruct Hl as [[Hp ?] ?].
    destruct (align_up_remainder_spec (next a) (l_align l)); [by apply pow2_pos|].
    destruct (IH a1) as [|(a2 & ? & ? & ?)]; [done..|by left|].
    right. exists a2. split_and!; [done..|lia].
Qed.

(** Freeing every live block, in any order, makes the whole heap available. *)
Fixpoint dealloc_all (bs : list block) (a : BumpAllocator) : outcome BumpAllocator :=
  match bs with
  | [] => Done a
  | b :: bs' => a' ← dealloc (b_ptr b) (b_layout b) a; dealloc_all bs' a'
  end.

Lemma dealloc_all_inv hs he live bs a :
  live ≡ₚ bs → bump_inv hs he live a →
  ∃ a', dealloc_all bs a = Done a' ∧ bump_inv hs he [] a'.
Proof.
  intros Hp Hinv. eapply bump_inv_perm in Hinv; [|exact Hp].
  clear Hp live. revert a Hinv. induction bs as [|b bs IH]; intros a Hinv; simpl; [eauto|].
  destruct (bump_inv_dealloc _ _ _ _ _ Hinv) as (a' & E & Hi & _).
  rewrite E. simpl. by apply IH.
Qed.

End proofs.

(** ** Properties *)

Section properties.
Context `{BuildProfile}.

Lemma bump_init_inv hs sz :
  0 < hs → 0 ≤ sz → hs + sz ≤ 2 ^ 63 →
  ∃ a, init new hs sz = Done a ∧ bump_inv hs (hs + sz) [] a ∧ next a = hs.
Proof.
  intros. unfold init. rewrite usize_add_Done by (unfold usize_modulus; lia). run.
  eexists. split_and!; [done| |done]. unfold bump_inv. simpl.
  split_and!; try done; try lia.
Qed.

(** C27: [init] returns, and from then on, whatever sequence of permitted calls and writes a client
    makes, the blocks it holds from the bump allocator are aligned, inside the heap
    and pairwise disjoint, and every further [alloc] and [dealloc] returns without a
    panic. *)
Theorem bump_client_safe hs sz m :
  0 < hs → 0 ≤ sz → hs + sz ≤ 2 ^ 63 → mapped hs (hs + sz) m →
  ∃ a, init new hs sz = Done a ∧
    ∀ σ, rtc client_step ([], a, m) σ → client_safe hs (hs + sz) σ.
Proof.
  intros ??? Hm. destruct (bump_init_inv hs sz) as (a & E & Hinv & _); [done..|].
  exists a. split; [done|]. intros σ. apply client_run_safe. by split.
Qed.

(** C29: freeing all live blocks, in any order, returns and leaves the allocator as
    after [init]: no live allocations and the whole heap free. *)
Theorem bump_dealloc_all_resets hs he live bs a :
  bump_inv hs he live a → live ≡ₚ bs →
  dealloc_all bs a = Done (mkBump hs he hs 0).
Proof.
  intros Hinv Hp. destruct (dealloc_all_inv _ _ _ _ _ Hp Hinv) as (a' & E & Hi).
  rewrite E. destruct Hi as (? & ? & _ & _ & _ & ? & _ & Hn & _).
  specialize (Hn eq_refl). destruct a'; simpl in *. by subst.
Qed.

(** C36: the loop of the [many_boxes] test on an otherwise empty heap: if one box fits,
    any number of rounds succeeds and leaves the allocator as it was, because dropping
    the only box resets the heap. *)
Theorem bump_many_boxes n hs he a l :
  bump_inv hs he [] a → bump_admits l → align_up_remainder hs (l_align l) + l_size l ≤ he →
  box_rounds n l a = Done (Some a).
Proof.
  intros Hinv Hl Hfit. induction n as [|n IH]; [done|]. simpl.
  assert (next a = hs) as Hn by (destruct Hinv as (_ & _ & _ & _ & _ & _ & _ & Hn & _); auto).
  destruct (box_round_cases _ _ _ _ _ Hinv Hl) as [[Hlt _]|(a' & E & Hi & Hn')].
  { rewrite Hn in Hlt. lia. }
  rewrite decide_True in Hn' by done. run E.
  assert (a' = a) as ->; [|done]. destruct a, a', Hinv as (? & ? & _ & _ & _ & ? & _),
    Hi as (? & ? & _ & _ & _ & ? & _). simpl in *. congruence.
Qed.

(** C30: the loop of the [many_boxes_long_lived] test: while another block is alive the
    freed boxes are not reused, so as many rounds as the heap has bytes, which is how many
    the test makes, exhaust it. *)
Theorem bump_long_lived_exhausts n hs he live a l :
  bump_inv hs he live a → bump_admits l → live ≠ [] → he - hs ≤ Z.of_nat n →
  box_rounds n l a = Done None.
Proof.
  intros Hinv Hl Hne Hn.
  destruct (box_rounds_advance n _ _ _ _ _ Hinv Hl Hne) as [|(a' & _ & Hi & Ha)]; [done|].
  destruct Hi as (_ & _ & _ & _ & ? & _). destruct Hinv as (_ & _ & _ & _ & ? & _ & Hlen & _).
  destruct live; [done|]. cbn [length] in Hlen. lia.
Qed.

End properties.

(** Witnesses, on a heap of 64 bytes at 4096. *)
Definition small_bump (n : Z) (k : Z) : BumpAllocator := mkBump 4096 4160 n k.

Lemma small_bump_inv_nil : bump_inv 4096 4160 [] (small_bump 4096 0).
Proof. unfold bump_inv. simpl. split_and!; try done; lia. Qed.

Lemma small_bump_inv_one :
  bump_inv 4096 4160 [mkBlock 4096 (mkLayout 8 8)] (small_bump 4104 1).
Proof.
  unfold bump_inv. simpl. split_and!; try done; try lia. split; [|by split].
  constructor; [|constructor]. unfold block_ok, null; simpl.
  split_and!; try done; try lia. by exists 512.
Qed.

Lemma layout_8_8_admits : bump_admits (mkLayout 8 8).
Proof. split; [by vm_compute|done]. Qed.

Lemma bump_client_safe_witness :
  client_safe (H := @bump_ops dev_profile) 4096 (4096 + 64)
    ([mkBlock 4096 (mkLayout 8 8)], small_bump 4104 1, heap_words 4096 8).
Proof.
  destruct (@bump_client_safe dev_profile 4096 64 (heap_words 4096 8)) as (a & E & Hsafe);
    [lia|lia|lia|apply (heap_words_mapped 4096 8); by exists 512|].
  assert (Done a = Done (small_bump 4096 0)) as [= ->] by (by rewrite <-E).
  apply Hsafe. eapply rtc_l; [|apply rtc_refl].
  eapply step_alloc; [exact layout_8_8_admits|reflexivity|by unfold null].
Defined.

Lemma bump_dealloc_all_resets_witness :
  @dealloc_all dev_profile [mkBlock 4096 (mkLayout 8 8)] (small_bump 4104 1) =
  Done (mkBump 4096 4160 4096 0).
Proof.
  exact (@bump_dealloc_all_resets dev_profile _ _ _ _ _ small_bump_inv_one (reflexivity _)).
Defined.

Lemma bump_many_boxes_witness :
  @box_rounds dev_profile 1000 (mkLayout 8 8) (small_bump 4096 0) =
  Done (Some (small_bump 4096 0)).
Proof.
  apply (@bump_many_boxes dev_profile 1000 4096 4160);
    [exact small_bump_inv_nil|exact layout_8_8_admits|by vm_compute].
Defined.

Lemma bump_long_lived_exhausts_witness :
  @box_rounds dev_profile 64 (mkLayout 8 8) (small_bump 4104 1) = Done None.
Proof.
  apply (@bump_long_lived_exhausts dev_profile 64 4096 4160 [mkBlock 4096 (mkLayout 8 8)]);
    [exact small_bump_inv_one|exact layout_8_8_admits|done|lia].
Defined.
