(* ===== verification/LinkedList.v ===== *)
(** * The linked list allocator (src/src/allocator/linked_list.rs)

    The free regions form a singly linked list whose nodes are stored in the freed
    memory itself.  The model works on the words of memory: a [ListNode] is two
    words, the head node lives in the allocator, and [find_region] walks the
    pointers with the cursor the code calls [current].

    [Spec] is the abstract first-fit free list on (start, size) pairs; the second
    half of the file proves that the pointer code implements it, that it never
    panics, faults or loops, and that it fulfils the [AllocSpec] contract. *)

From stdpp Require Import prelude gmap strings.
From S2P Require Import Prelude Layout Memory GlobalAlloc.

(** The order of the fields of a [repr(Rust)] struct is the compiler's choice. *)
Class NodeLayout := { size_first : bool }.

Definition size_off `{NodeLayout} : Z := if size_first then 0 else 8.
Definition next_off `{NodeLayout} : Z := if size_first then 8 else 0.

Record ListNode := mkNode { size : Z; next : option Z }.

(** [mem::size_of::<ListNode>()] and [mem::align_of::<ListNode>()] *)
Definition size_of_ListNode : Z := 16.
Definition align_of_ListNode : Z := 8.

Definition ListNode_new (size : Z) : ListNode := {| size := size; next := None |}.

Record LinkedListAllocator := mkLL { head : ListNode }.

Definition new : LinkedListAllocator := {| head := ListNode_new 0 |}.

(** [current: &mut ListNode] points to the head node of the allocator or to a node
    in memory. *)
Inductive cursor := AtHead | AtNode (addr : Z).

Section operations.
Context `{BuildProfile, NodeLayout}.

(** [node_ptr.write(node)] and field accesses through a pointer. *)
Definition write_node (m : mem) (addr : Z) (node : ListNode) : outcome mem :=
  m1 ← write_word m (addr + size_off) (size node);
  write_word m1 (addr + next_off) (word_of_opt (next node)).

Definition read_size (m : mem) (addr : Z) : outcome Z := read_word m (addr + size_off).

Definition get_next (self : LinkedListAllocator) (m : mem) (current : cursor)
    : outcome (option Z) :=
  match current with
  | AtHead => Done (next (head self))
  | AtNode addr => w ← read_word m (addr + next_off); Done (opt_of_word w)
  end.

Definition set_next (self : LinkedListAllocator) (m : mem) (current : cursor) (n : option Z)
    : outcome (LinkedListAllocator * mem) :=
  match current with
  | AtHead => Done (mkLL (mkNode (size (head self)) n), m)
  | AtNode addr => m' ← write_word m (addr + next_off) (word_of_opt n); Done (self, m')
  end.

(** [ListNode::start_addr] is the address of the node itself. *)
Definition start_addr (addr : Z) : Z := addr.

Definition end_addr (m : mem) (addr : Z) : outcome Z :=
  s ← read_size m addr; usize_add (start_addr addr) s.

Definition add_free_region (self : LinkedListAllocator) (m : mem) (addr size : Z)
    : outcome (LinkedListAllocator * mem) :=
  a ← align_up addr align_of_ListNode;
  _ ← rust_assert (bool_decide (a = addr)) "assertion failed: align_up(addr) == addr";
  _ ← rust_assert (bool_decide (size >= size_of_ListNode)) "assertion failed: size";
  let node := {| LinkedList.size := size; next := next (head self) |} in
  m' ← write_node m addr node;
  Done (mkLL (mkNode (LinkedList.size (head self)) (Some addr)), m').

Definition init (self : LinkedListAllocator) (m : mem) (heap_start heap_size : Z)
    : outcome (LinkedListAllocator * mem) :=
  add_free_region self m heap_start heap_size.

(** [Ok alloc_start] is [Some], [Err(())] is [None]. *)
Definition alloc_from_region (m : mem) (region size align : Z) : outcome (option Z) :=
  alloc_start ← align_up (start_addr region) align;
  match checked_add alloc_start size with
  | None => Done None
  | Some alloc_end =>
      e ← end_addr m region;
      if bool_decide (alloc_end > e) then Done None
      else
        e' ← end_addr m region;
        excess_size ← usize_sub e' alloc_end;
        if bool_decide (excess_size > 0 ∧ excess_size < size_of_ListNode)
        then Done None
        else Done (Some alloc_start)
  end.

(** The removal of the node after [current] in [find_region]:
    [region.next.take()], [current.next.take().unwrap()], [current.next = next]. *)
Definition unlink (self : LinkedListAllocator) (m : mem) (current : cursor) (region : Z)
    : outcome (Z * LinkedListAllocator * mem) :=
  nxt ← get_next self m (AtNode region);
  '(self1, m1) ← set_next self m (AtNode region) None;
  taken ← get_next self1 m1 current;
  '(self2, m2) ← set_next self1 m1 current None;
  node ← expect "called `Option::unwrap()` on a `None` value" taken;
  '(self3, m3) ← set_next self2 m2 current nxt;
  Done (node, self3, m3).

(** The [while let] loop of [find_region]; [fuel] bounds its iterations. *)
Fixpoint find_region_loop (fuel : nat) (self : LinkedListAllocator) (m : mem)
    (current : cursor) (size align : Z)
    : outcome (option (Z * Z) * LinkedListAllocator * mem) :=
  match fuel with
  | O => Diverged
  | S fuel' =>
      current_next ← get_next self m current;
      match current_next with
      | None => Done (None, self, m)
      | Some region =>
          r ← alloc_from_region m region size align;
          match r with
          | Some alloc_start =>
              '(node, self', m') ← unlink self m current region;
              Done (Some (node, alloc_start), self', m')
          | None => find_region_loop fuel' self m (AtNode region) size align
          end
      end
  end.

(** The list has at most one node per mapped word, so this many iterations are
    enough for every list without a cycle. *)
Definition find_region (self : LinkedListAllocator) (m : mem) (size align : Z)
    : outcome (option (Z * Z) * LinkedListAllocator * mem) :=
  find_region_loop (S (base.size m)) self m AtHead size align.

Definition size_align (layout : Layout) : outcome (Z * Z) :=
  l ← expect "adjusting alignment failed" (align_to layout align_of_ListNode);
  let l := pad_to_align l in
  let size := Z.max (l_size l) size_of_ListNode in
  Done (size, l_align l).

Definition alloc (layout : Layout) (self : LinkedListAllocator) (m : mem)
    : outcome (Z * LinkedListAllocator * mem) :=
  '(size, align) ← size_align layout;
  '(found, self1, m1) ← find_region self m size align;
  match found with
  | Some (region, alloc_start) =>
      alloc_end ← expect "overflow" (checked_add alloc_start size);
      e ← end_addr m1 region;
      excess_size ← usize_sub e alloc_end;
      if bool_decide (excess_size > 0) then
        '(self2, m2) ← add_free_region self1 m1 alloc_end excess_size;
        Done (alloc_start, self2, m2)
      else Done (alloc_start, self1, m1)
  | None => Done (null, self1, m1)
  end.

Definition dealloc (ptr : Z) (layout : Layout) (self : LinkedListAllocator) (m : mem)
    : outcome (LinkedListAllocator * mem) :=
  '(size, _) ← size_align layout;
  add_free_region self m ptr size.

Global Instance linked_list_ops : AllocOps LinkedListAllocator := {|
  op_alloc := alloc;
  op_dealloc := dealloc;
|}.

End operations.

(** ** The abstract free list *)
Module Spec.

(** Where an allocation would start in a free region, if it fits. *)
Definition fit (r : region) (size align : Z) : option Z :=
  let alloc_start := align_up_remainder r.1 align in
  let excess := r.1 + r.2 - (alloc_start + size) in
  if bool_decide (excess = 0 ∨ size_of_ListNode ≤ excess) then Some alloc_start else None.

(** First fit: the free regions before the chosen one, the chosen one with the
    allocation's start, and the regions after it. *)
Fixpoint first_fit (free : list region) (size align : Z)
    : option (list region * (region * Z) * list region) :=
  match free with
  | [] => None
  | r :: free' =>
      match fit r size align with
      | Some start => Some ([], (r, start), free')
      | None =>
          match first_fit free' size align with
          | Some (before, chosen, after) => Some (r :: before, chosen, after)
          | None => None
          end
      end
  end.

(** The rest of the chosen region, if any, becomes a free region of its own. *)
Definition split_rest (r : region) (alloc_end : Z) : list region :=
  if bool_decide (alloc_end < r.1 + r.2) then [(alloc_end, r.1 + r.2 - alloc_end)] else [].

Definition allocate (free : list region) (size align : Z) : option Z * list region :=
  match first_fit free size align with
  | Some (before, (r, start), after) =>
      (Some start, split_rest r (start + size) ++ before ++ after)
  | None => (None, free)
  end.

Definition release (free : list region) (ptr size : Z) : list region := (ptr, size) :: free.

End Spec.

(** ** Representation and invariant *)

Section repr.
Context `{NodeLayout}.

(** The list of free regions that the nodes in memory represent. *)
Definition stored (m : mem) (r : region) : Prop := m !! (r.1 + size_off) = Some r.2.

Definition repr (self : LinkedListAllocator) (m : mem) (free : list region) : Prop :=
  chain next_off m (next (head self)) free.*1 ∧ Forall (stored m) free.

End repr.

Definition free_ok (hs he : Z) (r : region) : Prop :=
  (align_of_ListNode | r.1) ∧ size_of_ListNode ≤ r.2 ∧ hs ≤ r.1 ∧ r.1 + r.2 ≤ he.

(** The bytes the allocator sets aside for a request. *)
Definition adj_align (l : Layout) : Z := Z.max (l_align l) align_of_ListNode.
Definition adj_size (l : Layout) : Z :=
  Z.max (l_size (pad_to_align (mkLayout (l_size l) (adj_align l)))) size_of_ListNode.
Definition footprint (b : block) : region := (b_ptr b, adj_size (b_layout b)).

(** The layouts that [size_align] accepts. *)
Definition ll_admits (l : Layout) : Prop :=
  layout_valid l ∧ l_size l ≤ isize_max - (adj_align l - 1).

Definition live_ok (hs he : Z) (b : block) : Prop :=
  ll_admits (b_layout b) ∧ (adj_align (b_layout b) | b_ptr b) ∧
  hs ≤ b_ptr b ∧ b_ptr b + adj_size (b_layout b) ≤ he.

Definition heap_bounds (hs he : Z) : Prop := 0 < hs ∧ hs ≤ he ∧ he ≤ 2 ^ 63.

Definition ll_inv `{NodeLayout} (hs he : Z) (live : list block)
    (self : LinkedListAllocator) (m : mem) : Prop :=
  heap_bounds hs he ∧ mapped hs he m ∧
  ∃ free, repr self m free ∧ Forall (free_ok hs he) free ∧
    Forall (live_ok hs he) live ∧ all_disjoint (free ++ (footprint <$> live)).

(** The words outside the given regions are unchanged, and nothing is unmapped. *)
Definition frame_out (rs : list region) (m m' : mem) : Prop :=
  (∀ w, Forall (λ r, w < r.1 ∨ r.1 + r.2 ≤ w) rs → m' !! w = m !! w) ∧
  (∀ w, is_Some (m !! w) → is_Some (m' !! w)).

(** ** Layout adjustment *)

Lemma adj_align_facts l :
  layout_valid l →
  is_power_of_two (adj_align l) = true ∧ (align_of_ListNode | adj_align l) ∧
  (l_align l | adj_align l) ∧ align_of_ListNode ≤ adj_align l.
Proof.
  intros (Hp & _). unfold adj_align.
  assert (is_power_of_two (Z.max (l_align l) align_of_ListNode) = true)
    by (by apply pow2_max).
  split_and!; [done|apply pow2_divide; [done..|lia]|apply pow2_divide; [done..|lia]|lia].
Qed.

Lemma adj_size_facts l :
  layout_valid l →
  size_of_ListNode ≤ adj_size l ∧ l_size l ≤ adj_size l ∧ (align_of_ListNode | adj_size l).
Proof.
  intros Hv. destruct (adj_align_facts l Hv) as (Hp & Hd & _ & Hge).
  unfold adj_size. set (l' := mkLayout (l_size l) (adj_align l)).
  assert (0 < l_align l') as Hpos by (simpl; unfold align_of_ListNode in *; lia).
  pose proof (pad_to_align_bound l' Hpos) as Hb. pose proof (pad_to_align_divide l' Hpos) as Hdiv.
  change (l_size l') with (l_size l) in Hb. split_and!; [lia..|].
  destruct (Z.max_spec (l_size (pad_to_align l')) size_of_ListNode) as [[_ ->]|[_ ->]].
  - by exists 2.
  - by etrans.
Qed.

Lemma size_align_Done l : ll_admits l → size_align l = Done (adj_size l, adj_align l).
Proof.
  intros [Hv Hs]. destruct (adj_align_facts l Hv) as (Hp & _).
  unfold size_align, align_to, from_size_align. fold (adj_align l). rewrite Hp.
  by rewrite bool_decide_eq_true_2.
Qed.

(** ** The pointer operations *)

Section pointer_proofs.
Context `{BuildProfile, NodeLayout}.

Lemma offsets : (size_off = 0 ∧ next_off = 8) ∨ (size_off = 8 ∧ next_off = 0).
Proof. unfold size_off, next_off. destruct size_first; auto. Qed.

Definition cur_word (c : cursor) : option Z :=
  match c with AtHead => None | AtNode a => Some (a + next_off) end.

(** The cursor's [next] field can be written. *)
Definition cur_ok (m : mem) (c : cursor) : Prop :=
  ∀ w, cur_word c = Some w → is_Some (m !! w).

Lemma set_next_spec self m c n :
  cur_ok m c → n ≠ Some 0 →
  ∃ self' m', set_next self m c n = Done (self', m') ∧ get_next self' m' c = Done n ∧
    (c ≠ AtHead → self' = self) ∧
    (∀ w, cur_word c ≠ Some w → m' !! w = m !! w) ∧
    (∀ w, is_Some (m !! w) → is_Some (m' !! w)).
Proof.
  intros Hok Hn. destruct c as [|a]; simpl.
  - eexists _, _. split_and!; [done| |done..]. done.
  - rewrite write_word_Done by (by apply Hok). simpl.
    eexists _, _. split_and!; [done| |done| |].
    + simpl. unfold read_word. rewrite lookup_insert_eq. simpl.
      by rewrite opt_of_word_of_opt.
    + intros w Hw. rewrite lookup_insert_ne; [done|]. congruence.
    + intros w Hw. by apply is_Some_insert_word.
Qed.

Lemma get_next_frame self m m' c p :
  get_next self m c = Done p →
  (∀ w, cur_word c = Some w → m' !! w = m !! w) →
  get_next self m' c = Done p.
Proof.
  destruct c as [|a]; simpl; [done|]. intros Hg Hf.
  unfold read_word in *. by rewrite Hf.
Qed.

Lemma end_addr_Done hs he m r :
  heap_bounds hs he → free_ok hs he r → stored m r →
  end_addr m r.1 = Done (r.1 + r.2).
Proof.
  intros (? & ? & ?) (? & ? & ? & ?) Hst. unfold end_addr, read_size.
  rewrite (read_word_Done _ _ _ Hst). simpl. unfold start_addr.
  apply usize_add_Done. unfold usize_modulus. lia.
Qed.

Lemma alloc_from_region_spec hs he m r sz al :
  heap_bounds hs he → free_ok hs he r → stored m r →
  is_power_of_two al = true → al ≤ 2 ^ 63 → 0 ≤ sz →
  alloc_from_region m r.1 sz al = Done (Spec.fit r sz al).
Proof.
  intros Hb Hr Hst Hp Hal Hsz. pose proof (end_addr_Done _ _ _ _ Hb Hr Hst) as He.
  destruct Hb as (? & ? & ?), Hr as (? & ? & ? & ?). unfold size_of_ListNode in *.
  unfold alloc_from_region, start_addr.
  rewrite align_up_Done by (done || unfold usize_modulus; lia). simpl.
  unfold Spec.fit, size_of_ListNode.
  destruct (align_up_remainder_spec r.1 al) as [? _]; [by apply pow2_pos|].
  set (st := align_up_remainder r.1 al) in *.
  unfold checked_add. case_bool_decide as Hov.
  - rewrite He. simpl. case_bool_decide as Hgt.
    + rewrite bool_decide_eq_false_2 by lia. done.
    + rewrite usize_sub_Done by lia. simpl. case_bool_decide as Hex.
      * rewrite bool_decide_eq_false_2 by lia. done.
      * rewrite bool_decide_eq_true_2 by lia. done.
  - unfold usize_modulus in *. rewrite bool_decide_eq_false_2 by lia. done.
Qed.

(** Distinct free regions have their nodes in distinct words. *)
Definition nodes_apart (c : Z) (r : region) : Prop :=
  c + size_of_ListNode ≤ r.1 ∨ r.1 + size_of_ListNode ≤ c.

Lemma nodes_apart_next c r : nodes_apart c r → c + next_off ≠ r.1 + next_off.
Proof. unfold nodes_apart, size_of_ListNode. pose proof offsets; lia. Qed.

Lemma nodes_apart_size c r :
  nodes_apart c r → c + next_off ≠ r.1 + size_off ∧ c + size_off ≠ r.1 + next_off.
Proof. unfold nodes_apart, size_of_ListNode. pose proof offsets; lia. Qed.

Lemma disj_nodes_apart hs he r1 r2 :
  free_ok hs he r1 → free_ok hs he r2 → disj r1 r2 → nodes_apart r1.1 r2.
Proof. unfold free_ok, disj, nodes_apart, size_of_ListNode. lia. Qed.

Definition cur_apart (c : cursor) (free : list region) : Prop :=
  match c with AtHead => True | AtNode a => Forall (nodes_apart a) free end.

Lemma cur_apart_word c free r w :
  cur_apart c free → r ∈ free → cur_word c = Some w → w ≠ r.1 + next_off.
Proof.
  destruct c as [|a]; simpl; [done|]. intros Hf Hr [= <-].
  apply nodes_apart_next. by eapply Forall_forall in Hf.
Qed.

Lemma opt_of_word_not_null w : opt_of_word w ≠ Some 0.
Proof. unfold opt_of_word. case_bool_decide; congruence. Qed.

Lemma get_next_AtNode self m a p :
  get_next self m (AtNode a) = Done p ↔ ∃ w, m !! (a + next_off) = Some w ∧ p = opt_of_word w.
Proof. simpl. unfold read_word. destruct (m !! _); simpl; naive_solver. Qed.

(** Unlinking the node after the cursor. *)
Lemma unlink_spec self m c r nxt :
  cur_ok m c → get_next self m c = Done (Some r) →
  get_next self m (AtNode r) = Done nxt → cur_word c ≠ Some (r + next_off) →
  ∃ self' m',
    unlink self m c r = Done (r, self', m') ∧
    get_next self' m' c = Done nxt ∧ (c ≠ AtHead → self' = self) ∧
    (∀ w, cur_word c ≠ Some w → w ≠ r + next_off → m' !! w = m !! w) ∧
    (∀ w, is_Some (m !! w) → is_Some (m' !! w)).
Proof.
  intros Hok Hg Hn Hne. unfold unlink. run Hn.
  pose proof Hn as (w & Hw & ->)%get_next_AtNode.
  destruct (set_next_spec self m (AtNode r) None) as (s1 & m1 & E1 & _ & Hs1 & Hf1 & Hd1);
    [by intros ? [= <-]|done|]. specialize (Hs1 ltac:(done)) as ->.
  run E1.
  assert (cur_ok m1 c) as Hok1 by (intros x Hx; apply Hd1; auto).
  assert (get_next self m1 c = Done (Some r)) as Hg1.
  { eapply get_next_frame; [done|]. intros x Hx. apply Hf1. simpl. congruence. }
  run Hg1.
  destruct (set_next_spec self m1 c None) as (s2 & m2 & E2 & _ & Hs2 & Hf2 & Hd2); [done..|].
  run E2. cbn [expect]. run.
  assert (cur_ok m2 c) as Hok2 by (intros x Hx; apply Hd2; auto).
  destruct (set_next_spec s2 m2 c (opt_of_word w)) as (s3 & m3 & E3 & G3 & Hs3 & Hf3 & Hd3);
    [done|apply opt_of_word_not_null|].
  run E3. exists s3, m3. split_and!; [done|done| | |].
  - intros Hc. by rewrite Hs3, Hs2.
  - intros x Hx Hxr. rewrite Hf3, Hf2, Hf1; [done|simpl; congruence|done..].
  - auto.
Qed.

Lemma find_region_loop_spec hs he sz al free :
  heap_bounds hs he → is_power_of_two al = true → al ≤ 2 ^ 63 → 0 ≤ sz →
  ∀ fuel self m c p,
  Forall (free_ok hs he) free → Forall (stored m) free → all_disjoint free →
  cur_ok m c → cur_apart c free → get_next self m c = Done p →
  chain next_off m p free.*1 → (length free < fuel)%nat →
  match Spec.first_fit free sz al with
  | None => find_region_loop fuel self m c sz al = Done (None, self, m)
  | Some (before, (r, start), after) =>
      ∃ self' m' p',
        find_region_loop fuel self m c sz al = Done (Some (r.1, start), self', m') ∧
        get_next self' m' c = Done p' ∧ chain next_off m' p' (before ++ after).*1 ∧
        (c ≠ AtHead → self' = self) ∧
        (∀ w, cur_word c ≠ Some w → (∀ r', r' ∈ free → w ≠ r'.1 + next_off) →
           m' !! w = m !! w) ∧
        (∀ w, is_Some (m !! w) → is_Some (m' !! w))
  end.
Proof.
  intros Hb Hp Hal Hsz. induction free as [|r free IH];
    intros [|fuel] self m c p Hok Hst Hdis Hcur Hap Hg Hch Hfuel; simpl in Hfuel; try lia.
  { simpl in *. subst p. by rewrite Hg. }
  apply Forall_cons in Hok as [Hr Hok], Hst as [Hsr Hst]. destruct Hdis as [Hdr Hdis].
  pose proof Hch as (-> & Hr0 & w & Hw & Hch').
  assert (Forall (nodes_apart r.1) free) as Hapart.
  { apply Forall_forall. intros r' Hr'. rewrite Forall_forall in Hdr, Hok.
    eapply disj_nodes_apart; eauto. }
  assert (cur_word c ≠ Some (r.1 + next_off)) as Hcr.
  { intros E. by eapply cur_apart_word in E; [|exact Hap|left]. }
  assert (get_next self m (AtNode r.1) = Done (opt_of_word w)) as Hgr
    by (apply get_next_AtNode; eauto).
  cbn [find_region_loop]. run Hg.
  run (alloc_from_region_spec hs he) by done.
  cbn [Spec.first_fit]. destruct (Spec.fit r sz al) as [st|] eqn:Hfit.
  - destruct (unlink_spec self m c r.1 (opt_of_word w)) as (s' & m' & E & G & Hs & Hf & Hd);
      [done..|].
    exists s', m', (opt_of_word w). split_and!; [|done| |done| |done].
    + by run E.
    + eapply chain_frame; [|exact Hch']. intros a Ha.
      apply list_elem_of_fmap in Ha as (r' & -> & Hr'). apply Hf.
      * intros E'. by eapply cur_apart_word in E'; [|exact Hap|by right].
      * rewrite Forall_forall in Hapart. apply not_eq_sym, nodes_apart_next. auto.
    + intros x Hx Hxf. apply Hf; [done|]. apply Hxf. left.
  - assert (cur_apart (AtNode r.1) free) as Hap' by done.
    assert (cur_ok m (AtNode r.1)) as Hcur' by (intros ? [= <-]; eauto).
    specialize (IH fuel self m (AtNode r.1) (opt_of_word w) Hok Hst Hdis Hcur' Hap' Hgr
      Hch' ltac:(lia)).
    destruct (Spec.first_fit free sz al) as [[[before [r0 st]] after]|]; [|done].
    destruct IH as (s' & m' & p' & E & G & C & Hs & Hf & Hd).
    specialize (Hs ltac:(done)) as ->.
    exists self, m', (Some r.1). split_and!; [done| | |done| |done].
    + eapply get_next_frame; [done|]. intros x Hx. apply Hf.
      * simpl. congruence.
      * intros r' Hr'. eapply cur_apart_word; [exact Hap|by right|done].
    + apply get_next_AtNode in G as (w' & Hw' & ->). simpl. split_and!; [done..|]. eauto.
    + intros x Hx Hxf. apply Hf.
      * simpl. intros [= <-]. by apply (Hxf r); [left|].
      * intros r' Hr'. apply Hxf. by right.
Qed.

End pointer_proofs.

(** ** The abstract free list keeps its regions apart *)

Lemma fit_facts r sz al st :
  is_power_of_two al = true → Spec.fit r sz al = Some st →
  r.1 ≤ st ∧ (al | st) ∧
  (st + sz = r.1 + r.2 ∨ st + sz + size_of_ListNode ≤ r.1 + r.2).
Proof.
  intros Hp. unfold Spec.fit. case_bool_decide as Hx; [|done]. intros [= <-].
  destruct (align_up_remainder_spec r.1 al) as [? ?]; [by apply pow2_pos|].
  split_and!; [lia|done|lia].
Qed.

Lemma first_fit_Some free sz al before r st after :
  Spec.first_fit free sz al = Some (before, (r, st), after) →
  free = before ++ r :: after ∧ Spec.fit r sz al = Some st.
Proof.
  revert before. induction free as [|r0 free IH]; intros before; simpl; [done|].
  destruct (Spec.fit r0 sz al) eqn:Hf; [naive_solver|].
  destruct (Spec.first_fit free sz al) as [[[b [r1 s1]] a]|]; [|done].
  intros ?; simplify_eq. destruct (IH b) as [-> ?]; [done|]. done.
Qed.

Lemma first_fit_None free sz al :
  Spec.first_fit free sz al = None ↔ Forall (λ r, Spec.fit r sz al = None) free.
Proof.
  induction free as [|r free IH]; simpl; [split; [constructor|done]|].
  rewrite Forall_cons, <-IH. destruct (Spec.fit r sz al); [split; [done|naive_solver]|].
  destruct (Spec.first_fit free sz al) as [[[??]?]|]; naive_solver.
Qed.

Lemma split_rest_free_ok hs he r st sz :
  free_ok hs he r → r.1 ≤ st → (align_of_ListNode | st) → (align_of_ListNode | sz) →
  0 ≤ sz → (st + sz = r.1 + r.2 ∨ st + sz + size_of_ListNode ≤ r.1 + r.2) →
  Forall (free_ok hs he) (Spec.split_rest r (st + sz)).
Proof.
  intros (? & ? & ? & ?) ????. unfold Spec.split_rest.
  case_bool_decide; constructor; [|constructor]. unfold free_ok; simpl.
  split_and!; [by apply Z.divide_add_r|lia..].
Qed.

Lemma spec_alloc_inv hs he free L sz al st free' :
  is_power_of_two al = true → (align_of_ListNode | al) → (align_of_ListNode | sz) →
  size_of_ListNode ≤ sz →
  Forall (free_ok hs he) free → all_disjoint (free ++ L) →
  Spec.allocate free sz al = (Some st, free') →
  Forall (free_ok hs he) free' ∧ all_disjoint (free' ++ (st, sz) :: L) ∧
  (al | st) ∧ hs ≤ st ∧ st + sz ≤ he.
Proof.
  intros Hp H8 Hsz8 Hsz Hok Hdis. unfold Spec.allocate, size_of_ListNode in *.
  destruct (Spec.first_fit free sz al) as [[[before [r s]] after]|] eqn:Hff; [|done].
  intros [= -> <-]. apply first_fit_Some in Hff as [-> Hfit].
  apply fit_facts in Hfit as (Hge & Hal & Hend); [|done]. unfold size_of_ListNode in *.
  apply Forall_app in Hok as [Hb [Hr Ha]%Forall_cons].
  pose proof Hr as (? & ? & ? & ?). split_and!; [| |done|lia|lia].
  - rewrite !Forall_app. split_and!; [|done..].
    apply split_rest_free_ok; [done..| |done|lia|done]. by transitivity al.
  - assert (Spec.split_rest r (st + sz) ++ before ++ after ++ (st, sz) :: L ≡ₚ
      ((st, sz) :: Spec.split_rest r (st + sz)) ++ (before ++ after ++ L)) as Hperm
      by solve_Permutation.
    rewrite <-!app_assoc, Hperm. apply (all_disjoint_split r).
    + eapply all_disjoint_proper; [|exact Hdis]. solve_Permutation.
    + constructor; [split; simpl; lia|]. unfold Spec.split_rest.
      case_bool_decide; repeat constructor; simpl; lia.
    + unfold Spec.split_rest. case_bool_decide; simpl; [|done].
      split; [|done]. constructor; [|done]. left. simpl. lia.
Qed.

(** ** Refinement: the pointer code implements the abstract free list *)

Section refinement.
Context `{BuildProfile, NodeLayout}.

Lemma frame_out_mapped hs he rs m m' : frame_out rs m m' → mapped hs he m → mapped hs he m'.
Proof. intros [_ Hd] Hm w ???. apply Hd. by apply Hm. Qed.

Lemma frame_out_trans rs m1 m2 m3 :
  frame_out rs m1 m2 → frame_out rs m2 m3 → frame_out rs m1 m3.
Proof. intros [H1 D1] [H2 D2]. split; [intros w Hw; by rewrite H2, H1 | auto]. Qed.

Lemma frame_out_sub r rs m m' r0 :
  sub_region r r0 → r0 ∈ rs → frame_out [r] m m' → frame_out rs m m'.
Proof.
  unfold sub_region. intros Hs Hin [Hf Hd]. split; [|done]. intros w Hw. apply Hf.
  constructor; [|constructor]. rewrite Forall_forall in Hw. specialize (Hw _ Hin). lia.
Qed.

Lemma node_words_mapped hs he m a sz :
  mapped hs he m → free_ok hs he (a, sz) →
  is_Some (m !! (a + size_off)) ∧ is_Some (m !! (a + next_off)).
Proof.
  unfold free_ok, size_of_ListNode, align_of_ListNode. simpl. intros Hm (Hd & ? & ? & ?).
  assert ((8 | a + 8)) by (apply Z.divide_add_r; [done|by exists 1]).
  destruct offsets as [[-> ->]|[-> ->]]; rewrite Z.add_0_r;
    split; apply Hm; unfold word_size; (done || lia).
Qed.

Lemma add_free_region_spec hs he self m free addr sz :
  heap_bounds hs he → mapped hs he m → free_ok hs he (addr, sz) →
  repr self m free → Forall (free_ok hs he) free → Forall (disj (addr, sz)) free →
  ∃ self' m', add_free_region self m addr sz = Done (self', m') ∧
    repr self' m' (Spec.release free addr sz) ∧ frame_out [(addr, sz)] m m'.
Proof.
  intros Hb Hm Hr [Hch Hst] Hfree Hdis.
  destruct (node_words_mapped _ _ _ _ _ Hm Hr) as [Hws Hwn].
  assert (Forall (nodes_apart addr) free) as Hap.
  { apply Forall_forall. intros r' Hr'. rewrite Forall_forall in Hdis, Hfree.
    eapply (disj_nodes_apart hs he (addr, sz)); auto. }
  pose proof Hb as (? & ? & ?). pose proof Hr as (Hd & ? & ? & ?).
  cbn [fst snd] in *. unfold size_of_ListNode in *.
  unfold add_free_region.
  run align_up_aligned by (done || unfold usize_modulus, align_of_ListNode; lia).
  rewrite (bool_decide_eq_true_2 (addr = addr)) by done.
  rewrite (bool_decide_eq_true_2 (sz >= size_of_ListNode)) by (unfold size_of_ListNode; lia).
  cbn [rust_assert]. run. unfold write_node. run write_word_Done by done.
  rewrite write_word_Done by (by apply is_Some_insert_word). run.
  eexists _, _. split_and!; [done|split|split].
  - apply (chain_push next_off).
    + apply chain_insert; [|done]. intros a (r' & -> & Hr')%list_elem_of_fmap.
      rewrite Forall_forall in Hap. by apply not_eq_sym, nodes_apart_size, Hap.
    + cbn. lia.
    + intros (r' & E & Hr')%list_elem_of_fmap. rewrite Forall_forall in Hap.
      specialize (Hap _ Hr'). unfold nodes_apart, size_of_ListNode in Hap.
      cbn in E. lia.
  - constructor.
    + unfold stored. cbn. rewrite lookup_insert_ne by (pose proof offsets; lia).
      by rewrite lookup_insert_eq.
    + apply Forall_forall. intros r' Hr'. rewrite Forall_forall in Hap, Hst.
      specialize (Hap _ Hr'). specialize (Hst _ Hr'). unfold stored in *.
      pose proof (nodes_apart_size _ _ Hap). pose proof (nodes_apart_next _ _ Hap).
      rewrite !lookup_insert_ne; [done|pose proof offsets; lia..].
  - intros w [Hw _]%Forall_cons. cbn in Hw.
    rewrite !lookup_insert_ne; [done|pose proof offsets; lia..].
  - intros w Hw. by do 2 apply is_Some_insert_word.
Qed.

Lemma repr_length self m free : repr self m free → (length free ≤ base.size m)%nat.
Proof. intros [Hc _]. apply chain_length in Hc. by rewrite length_fmap in Hc. Qed.

(** [find_region] finds the first fit and unlinks it; the free list is otherwise
    unchanged. *)
Lemma find_region_spec hs he self m free sz al :
  heap_bounds hs he → is_power_of_two al = true → al ≤ 2 ^ 63 → 0 ≤ sz →
  repr self m free → Forall (free_ok hs he) free → all_disjoint free →
  match Spec.first_fit free sz al with
  | None => find_region self m sz al = Done (None, self, m)
  | Some (before, (r, start), after) =>
      ∃ self' m', find_region self m sz al = Done (Some (r.1, start), self', m') ∧
        repr self' m' (before ++ after) ∧ stored m' r ∧ frame_out free m m'
  end.
Proof.
  intros Hb Hp Hal Hsz [Hch Hst] Hfree Hdis.
  pose proof (repr_length self m free (conj Hch Hst)) as Hlen.
  pose proof (find_region_loop_spec hs he sz al free Hb Hp Hal Hsz (S (base.size m))
    self m AtHead (next (head self)) Hfree Hst Hdis) as Hl.
  specialize (Hl ltac:(by intros ?) I eq_refl Hch ltac:(lia)).
  unfold find_region. destruct (Spec.first_fit free sz al) as [[[before [r st]] after]|] eqn:Hff;
    [|done]. destruct Hl as (self' & m' & p' & E & [= <-] & C & _ & Hf & Hd).
  assert (∀ r', r' ∈ free → stored m' r') as Hst'.
  { intros r1 Hr1. unfold stored. rewrite Hf; [|done|].
    - rewrite Forall_forall in Hst. by apply Hst.
    - intros r2 Hr2. pose proof offsets. destruct (decide (r1 = r2)) as [->|Hne]; [lia|].
      rewrite Forall_forall in Hfree.
      assert (disj r1 r2) as Hd12.
      { apply list_elem_of_split in Hr1 as (l1 & l2 & ->).
        eapply (all_disjoint_elem _ r1 r2 (l1 ++ l2)); [|done|set_solver].
        solve_Permutation. }
      pose proof (disj_nodes_apart _ _ _ _ (Hfree _ Hr1) (Hfree _ Hr2) Hd12) as Ha.
      by destruct (nodes_apart_size _ _ Ha). }
  apply first_fit_Some in Hff as [-> _].
  exists self', m'. split_and!; [done|split; [done|]|apply Hst'; set_solver|split; [|done]].
  - apply Forall_forall. intros r' Hr'. apply Hst'. set_solver.
  - intros w Hw. apply Hf; [done|]. intros r' Hr'. rewrite Forall_forall in Hw, Hfree.
    specialize (Hw _ Hr'). specialize (Hfree _ Hr') as (_ & ? & _).
    unfold size_of_ListNode in *. pose proof offsets. lia.
Qed.

(** [alloc] implements the abstract [Spec.allocate]. *)
Lemma ll_alloc_refines hs he self m free l :
  heap_bounds hs he → mapped hs he m → ll_admits l →
  repr self m free → Forall (free_ok hs he) free → all_disjoint free →
  let '(o, free') := Spec.allocate free (adj_size l) (adj_align l) in
  ∃ self' m', alloc l self m = Done (word_of_opt o, self', m') ∧
    repr self' m' free' ∧ frame_out free m m'.
Proof.
  intros Hb Hm Hl Hrep Hfree Hdis. pose proof Hl as [Hv Hs].
  destruct (adj_align_facts l Hv) as (Hp & H8 & _ & Hge).
  destruct (adj_size_facts l Hv) as (Hsz & _ & Hsz8).
  unfold alloc. run size_align_Done by done.
  pose proof (find_region_spec hs he self m free (adj_size l) (adj_align l) Hb Hp) as Hfr.
  specialize (Hfr ltac:(unfold isize_max in *; destruct Hv; lia)
    ltac:(unfold size_of_ListNode in *; lia) Hrep Hfree Hdis).
  unfold Spec.allocate.
  destruct (Spec.first_fit free (adj_size l) (adj_align l))
    as [[[before [r st]] after]|] eqn:Hff.
  2: { run Hfr. eexists _, _. split_and!; [done..|split; [done|done]]. }
  destruct Hfr as (s1 & m1 & E & Hrep1 & Hst1 & Hfo). run E.
  apply first_fit_Some in Hff as [-> Hfit].
  apply fit_facts in Hfit as (Hst & Hal & Hend); [|done].
  pose proof Hfree as [Hfb [Hr Hfa]%Forall_cons]%Forall_app.
  pose proof Hr as (? & ? & ? & ?). pose proof Hb as (? & ? & ?).
  unfold size_of_ListNode in *.
  assert (checked_add st (adj_size l) = Some (st + adj_size l)) as ->.
  { apply checked_add_Some. split; [done|]. unfold usize_modulus. lia. }
  cbn [expect]. run. run (end_addr_Done hs he m1 r) by done.
  run usize_sub_Done by lia. unfold Spec.split_rest.
  destruct (decide (st + adj_size l < r.1 + r.2)) as [Hlt|Hge'].
  - rewrite !bool_decide_eq_true_2 by lia.
    destruct (add_free_region_spec hs he s1 m1 (before ++ after) (st + adj_size l)
      (r.1 + r.2 - (st + adj_size l))) as (s2 & m2 & E2 & Hrep2 & Hfo2); try done.
    + by eapply frame_out_mapped.
    + unfold free_ok, size_of_ListNode; cbn. split_and!; [|lia..].
      apply Z.divide_add_r; [by transitivity (adj_align l)|done].
    + by apply Forall_app.
    + apply Forall_forall. intros r' Hr'. apply (disj_sub _ r); [split; cbn; lia|].
      eapply (all_disjoint_elem _ _ _ (before ++ after)); [|exact Hdis|done].
      solve_Permutation.
    + run E2. eexists _, _. split_and!; [done..|]. eapply frame_out_trans; [done|].
      refine (frame_out_sub _ _ _ _ r _ _ Hfo2); [split; cbn; lia|set_solver].
  - rewrite !bool_decide_eq_false_2 by lia. eexists _, _. by split_and!.
Qed.

End refinement.

(** ** The contract *)

Section contract.
Context `{BuildProfile, NodeLayout}.

(** The footprint of a block consists of whole words. *)
Lemma footprint_word hs he b x :
  live_ok hs he b → byte_in b x →
  (footprint b).1 ≤ word_addr x ∧ word_addr x + word_size ≤ (footprint b).1 + (footprint b).2.
Proof.
  intros ([Hv _] & Hal & _) [??]. destruct (adj_size_facts _ Hv) as (_ & ? & [s Hs]).
  destruct (adj_align_facts _ Hv) as (_ & Hd & _).
  assert ((8 | b_ptr b)) as [k Hk] by (by etrans). pose proof (word_addr_bound x).
  destruct (word_addr_divide x) as [j Hj]. unfold align_of_ListNode, word_size, footprint in *.
  cbn. lia.
Qed.

Lemma preserved_frame hs he rs live m m' :
  frame_out rs m m' → Forall (live_ok hs he) live →
  (∀ r b, r ∈ rs → b ∈ live → disj r (footprint b)) → preserved live m m'.
Proof.
  intros [Hf _] Hl Hd. apply preserved_words. intros b x Hb Hx. apply Hf.
  rewrite Forall_forall in Hl. pose proof (footprint_word _ _ _ _ (Hl b Hb) Hx).
  apply Forall_forall. intros r Hr. specialize (Hd r b Hr Hb). unfold disj, word_size in *. lia.
Qed.

Lemma all_disjoint_app_elem rs1 rs2 r1 r2 :
  all_disjoint (rs1 ++ rs2) → r1 ∈ rs1 → r2 ∈ rs2 → disj r1 r2.
Proof. intros (_ & _ & Hx)%all_disjoint_app. apply Hx. Qed.

Lemma ll_inv_sound hs he live self m : ll_inv hs he live self m → blocks_ok hs he live.
Proof.
  intros (Hb & _ & free & _ & _ & Hl & Hd). destruct Hb as (? & _).
  apply all_disjoint_app in Hd as (_ & Hd & _). split.
  - eapply Forall_impl; [exact Hl|]. intros b ([Hv _] & Hal & ? & ?).
    destruct (adj_align_facts _ Hv) as (_ & _ & Hdiv & _).
    destruct (adj_size_facts _ Hv) as (? & ? & _).
    unfold block_ok, null. split_and!; [lia|by etrans|lia..].
  - eapply all_disjoint_fmap_sub; [|exact Hd]. eapply Forall_impl; [exact Hl|].
    intros b ([Hv _] & _). destruct (adj_size_facts _ Hv) as (_ & ? & _).
    split; cbn; lia.
Qed.

Lemma ll_inv_alloc hs he live self m l :
  ll_inv hs he live self m → ll_admits l →
  ∃ p self' m', alloc l self m = Done (p, self', m') ∧ preserved live m m' ∧
    if decide (p = null) then ll_inv hs he live self' m'
    else ll_inv hs he (mkBlock p l :: live) self' m'.
Proof.
  intros (Hb & Hm & free & Hrep & Hfree & Hlive & Hdis) Hl.
  pose proof Hdis as (Hdf & _ & Hx)%all_disjoint_app.
  pose proof (ll_alloc_refines hs he self m free l Hb Hm Hl Hrep Hfree Hdf) as Href.
  destruct (Spec.allocate free (adj_size l) (adj_align l)) as [o free'] eqn:Hsa.
  destruct Href as (self' & m' & E & Hrep' & Hfo).
  exists (word_of_opt o), self', m'. split_and!; [done| |].
  { eapply preserved_frame; [done..|]. intros r b Hr Hbl. apply Hx; [done|].
    by apply list_elem_of_fmap_2. }
  assert (mapped hs he m') as Hm' by (by eapply frame_out_mapped).
  pose proof Hl as [Hv _]. destruct (adj_align_facts l Hv) as (Hp & H8 & _).
  destruct (adj_size_facts l Hv) as (Hsz & _ & Hsz8).
  destruct o as [st|]; cbn [word_of_opt default from_option].
  - destruct (spec_alloc_inv hs he free (footprint <$> live) _ _ _ _ Hp H8 Hsz8 Hsz Hfree Hdis Hsa)
      as (Hfree' & Hdis' & Hal & ? & ?). destruct Hb as (? & ? & ?).
    unfold id. rewrite decide_False by (unfold null; lia).
    split_and!; [done..|]. exists free'. split_and!; [done..| |done].
    constructor; [|done]. by split_and!.
  - rewrite decide_True by done. split_and!; [done..|]. exists free'.
    unfold Spec.allocate in Hsa.
    destruct (Spec.first_fit free _ _) as [[[? [??]]?]|]; simplify_eq. by split_and!.
Qed.

Lemma ll_inv_dealloc hs he live self m b :
  ll_inv hs he (b :: live) self m →
  ∃ self' m', dealloc (b_ptr b) (b_layout b) self m = Done (self', m') ∧
    preserved live m m' ∧ ll_inv hs he live self' m'.
Proof.
  intros (Hb & Hm & free & Hrep & Hfree & [Hbl Hlive]%Forall_cons & Hdis).
  rewrite fmap_cons in Hdis. pose proof Hdis as (_ & [Hbd _] & Hx)%all_disjoint_app.
  pose proof Hbl as (Hadm & Hal & ? & ?). pose proof Hadm as [Hv _].
  destruct (adj_align_facts _ Hv) as (Hp & H8 & _).
  destruct (adj_size_facts _ Hv) as (Hsz & _ & Hsz8).
  assert (free_ok hs he (footprint b)) as Hfb.
  { split_and!; cbn [footprint fst snd]; [by transitivity (adj_align (b_layout b))|done..]. }
  unfold dealloc. run size_align_Done by done.
  destruct (add_free_region_spec hs he self m free (b_ptr b) (adj_size (b_layout b)))
    as (self' & m' & E & Hrep' & Hfo); try done.
  { apply Forall_forall. intros r Hr. symmetry. apply Hx; [done|left]. }
  exists self', m'. split_and!; [done| |].
  - eapply preserved_frame; [done..|]. intros r b' ->%list_elem_of_singleton Hb'.
    rewrite Forall_forall in Hbd. apply Hbd. by apply list_elem_of_fmap_2.
  - split_and!; [done|by eapply frame_out_mapped|].
    exists (footprint b :: free). split_and!; [done|by constructor|done|].
    eapply all_disjoint_proper; [|exact Hdis]. solve_Permutation.
Qed.

Lemma ll_inv_write hs he live self m m' b :
  ll_inv hs he live self m → b ∈ live → writes_in b m m' →
  ll_inv hs he live self m'.
Proof.
  intros (Hb & Hm & free & [Hch Hst] & Hfree & Hlive & Hdis) Hbl Hwr.
  pose proof Hwr as (Hw & _). rewrite Forall_forall in Hfree.
  rewrite Forall_forall in Hlive. rewrite Forall_forall in Hst.
  assert (∀ r o, r ∈ free → o = size_off ∨ o = next_off → m' !! (r.1 + o) = m !! (r.1 + o))
    as Hne.
  { intros r o Hr Ho. apply Hw. intros x Hx E.
    assert (disj r (footprint b)) as Hd.
    { eapply all_disjoint_app_elem; [done..|]. by apply list_elem_of_fmap_2. }
    destruct (Hfree r Hr) as (_ & ? & _). pose proof (footprint_word _ _ _ _ (Hlive b Hbl) Hx).
    unfold disj, word_size, size_of_ListNode in *. pose proof offsets. lia. }
  split_and!; [done|by eapply writes_in_mapped|].
  exists free. split_and!; [split|by apply Forall_forall..|done].
  - eapply chain_frame; [|done]. intros a (r & -> & Hr)%list_elem_of_fmap. auto.
  - apply Forall_forall. intros r Hr. unfold stored. rewrite Hne by auto. by apply Hst.
Qed.

Lemma ll_inv_perm hs he self m l1 l2 :
  l1 ≡ₚ l2 → ll_inv hs he l1 self m → ll_inv hs he l2 self m.
Proof.
  intros Hp (? & ? & free & ? & ? & ? & Hd). split_and!; [done..|].
  exists free. split_and!; [done..|by rewrite <-Hp|].
  eapply all_disjoint_proper; [|exact Hd]. by rewrite Hp.
Qed.

(** The linked list allocator fulfils the allocator contract. *)
Global Program Instance linked_list_spec : AllocSpec LinkedListAllocator := {|
  as_inv := ll_inv;
  as_admits := ll_admits;
|}.
Next Obligation. intros hs he a m l1 l2 Hp Hi. by eapply ll_inv_perm. Qed.
Next Obligation. intros. by eapply ll_inv_sound. Qed.
Next Obligation. by intros hs he live a m (_ & ? & _). Qed.
Next Obligation. intros. by apply ll_inv_alloc. Qed.
Next Obligation. intros. by apply ll_inv_dealloc. Qed.
Next Obligation. intros. by eapply ll_inv_write. Qed.

Lemma ll_init_inv m heap_start heap_size :
  (align_of_ListNode | heap_start) → size_of_ListNode ≤ heap_size →
  heap_bounds heap_start (heap_start + heap_size) →
  mapped heap_start (heap_start + heap_size) m →
  ∃ self' m', init new m heap_start heap_size = Done (self', m') ∧
    repr self' m' [(heap_start, heap_size)] ∧
    ll_inv heap_start (heap_start + heap_size) [] self' m'.
Proof.
  intros Hal Hsz Hb Hm.
  assert (free_ok heap_start (heap_start + heap_size) (heap_start, heap_size)) as Hok
    by (split_and!; cbn; (done || lia)).
  destruct (add_free_region_spec heap_start (heap_start + heap_size) new m []
    heap_start heap_size)
    as (self' & m' & E & Hrep & Hfo); [done..| | | |].
  { split; [done | constructor]. }
  { constructor. }
  { constructor. }
  exists self', m'. split_and!; [done..|]. split_and!; [done|by eapply frame_out_mapped|].
  exists [(heap_start, heap_size)]. split_and!; [done|by constructor|by constructor|].
  cbn. split; [constructor|done].
Qed.

End contract.

(** ** Simulation of the abstract free list *)

(** The allocator in memory [m] represents the abstract free list [free]. *)
Definition ll_sim `{NodeLayout} (hs he : Z) (self : LinkedListAllocator) (m : mem)
    (free : list region) : Prop :=
  heap_bounds hs he ∧ mapped hs he m ∧ repr self m free ∧
  Forall (free_ok hs he) free ∧ all_disjoint free.

Definition free_bytes (free : list region) : Z := foldr (λ r n, r.2 + n) 0 free.

Lemma free_bytes_app l1 l2 : free_bytes (l1 ++ l2) = free_bytes l1 + free_bytes l2.
Proof. induction l1; simpl; lia. Qed.

Lemma spec_alloc_bytes free sz al st free' :
  is_power_of_two al = true → Spec.allocate free sz al = (Some st, free') →
  ∃ r, r ∈ free ∧ r.1 ≤ st < r.1 + al ∧ ((al | r.1) → st = r.1) ∧
       free_bytes free' + sz + (st - r.1) = free_bytes free.
Proof.
  intros Hp. unfold Spec.allocate.
  destruct (Spec.first_fit free sz al) as [[[before [r s]] after]|] eqn:Hff; [|done].
  intros [= -> <-]. apply first_fit_Some in Hff as [-> Hfit]. exists r.
  pose proof (fit_facts _ _ _ _ Hp Hfit) as (? & _ & Hend).
  unfold Spec.fit in Hfit. case_bool_decide; [|done]. injection Hfit as Hst.
  destruct (align_up_remainder_spec r.1 al) as [? _]; [by apply pow2_pos|].
  split_and!; [set_solver|lia|lia| |].
  - intros Hd. rewrite <-Hst. unfold align_up_remainder. rewrite bool_decide_eq_true_2; [done|].
    apply Z.mod_divide; [|done]. pose proof (pow2_pos _ Hp). lia.
  - rewrite !free_bytes_app. unfold Spec.split_rest, size_of_ListNode in *.
    case_bool_decide; simpl; lia.
Qed.

Section simulation.
Context `{BuildProfile, NodeLayout}.

Lemma ll_sim_alloc hs he self m free l :
  ll_sim hs he self m free → ll_admits l →
  ∃ self' m', alloc l self m =
    Done (word_of_opt (Spec.allocate free (adj_size l) (adj_align l)).1, self', m') ∧
    ll_sim hs he self' m' (Spec.allocate free (adj_size l) (adj_align l)).2 ∧
    frame_out free m m'.
Proof.
  intros (Hb & Hm & Hr & Hf & Hd) Hl.
  pose proof (ll_alloc_refines hs he self m free l Hb Hm Hl Hr Hf Hd) as Href.
  destruct (Spec.allocate free (adj_size l) (adj_align l)) as [o free'] eqn:Hsa.
  destruct Href as (self' & m' & E & Hr' & Hfo). exists self', m'.
  split_and!; [done| |done]. cbn [snd].
  pose proof Hl as [Hv _]. destruct (adj_align_facts l Hv) as (Hp & H8 & _).
  destruct (adj_size_facts l Hv) as (Hsz & _ & Hsz8).
  assert (Forall (free_ok hs he) free' ∧ all_disjoint free') as [??].
  { destruct o as [st|].
    - destruct (spec_alloc_inv hs he free [] (adj_size l) (adj_align l) st free')
        as (? & Hd' & _); [by rewrite ?app_nil_r..|].
      split; [done|]. by apply all_disjoint_app in Hd' as (? & _).
    - unfold Spec.allocate in Hsa.
      destruct (Spec.first_fit free _ _) as [[[? [??]]?]|]; by simplify_eq. }
  split_and!; [done|by eapply frame_out_mapped|done..].
Qed.

(** C4: the pointer code of [alloc] implements the abstract first-fit free list: it
    always returns the abstract result (null for none), the list in memory afterwards
    represents the abstract list after the split, and only words of free regions
    change. *)
Theorem ll_alloc_simulates hs he self m free l :
  ll_sim hs he self m free → ll_admits l →
  let '(o, free') := Spec.allocate free (adj_size l) (adj_align l) in
  ∃ self' m', alloc l self m = Done (word_of_opt o, self', m') ∧
    ll_sim hs he self' m' free' ∧ frame_out free m m'.
Proof.
  intros Hs Hl. destruct (ll_sim_alloc _ _ _ _ _ _ Hs Hl) as (self' & m' & E & H1 & H2).
  destruct (Spec.allocate free _ _) as [o free']. eauto.
Qed.

(** C24: [dealloc] of a block that is apart from the free regions puts its padded
    extent in front of the free list and changes only words of that block. *)
Theorem ll_dealloc_simulates hs he self m free b :
  ll_sim hs he self m free → live_ok hs he b → Forall (disj (footprint b)) free →
  ∃ self' m', dealloc (b_ptr b) (b_layout b) self m = Done (self', m') ∧
    ll_sim hs he self' m' (Spec.release free (b_ptr b) (adj_size (b_layout b))) ∧
    frame_out [footprint b] m m'.
Proof.
  intros (Hb & Hm & Hr & Hf & Hd) (Hadm & Hal & ? & ?) Hap. pose proof Hadm as [Hv _].
  destruct (adj_align_facts _ Hv) as (_ & H8 & _). destruct (adj_size_facts _ Hv) as (Hsz & _).
  assert (free_ok hs he (footprint b)) as Hfb.
  { split_and!; cbn [footprint fst snd]; [by transitivity (adj_align (b_layout b))|done..]. }
  unfold dealloc. run size_align_Done by done.
  destruct (add_free_region_spec hs he self m free (b_ptr b) (adj_size (b_layout b)))
    as (self' & m' & E & Hr' & Hfo); try done.
  exists self', m'. split_and!; [done| |done].
  split_and!; [done|by eapply frame_out_mapped|done|by constructor|done].
Qed.

(** C21: [find_region] terminates on every well-formed free list.  It answers the first
    region of the list that can hold the request, all earlier ones being unusable,
    and unlinks exactly that one; it answers nothing only when no region fits. *)
Theorem ll_find_region_first_fit hs he self m free sz al :
  ll_sim hs he self m free → is_power_of_two al = true → al ≤ 2 ^ 63 → 0 ≤ sz →
  (Forall (λ r, Spec.fit r sz al = None) free ∧
   find_region self m sz al = Done (None, self, m)) ∨
  (∃ before r after start self' m',
     free = before ++ r :: after ∧ Forall (λ r, Spec.fit r sz al = None) before ∧
     Spec.fit r sz al = Some start ∧
     find_region self m sz al = Done (Some (r.1, start), self', m') ∧
     repr self' m' (before ++ after)).
Proof.
  intros (Hb & Hm & Hr & Hf & Hd) Hp Hal Hsz.
  pose proof (find_region_spec hs he self m free sz al Hb Hp Hal Hsz Hr Hf Hd) as Hs.
  destruct (Spec.first_fit free sz al) as [[[before [r st]] after]|] eqn:Hff.
  - right. destruct Hs as (self' & m' & E & Hr' & _).
    assert (Forall (λ r, Spec.fit r sz al = None) before) as Hbf.
    { clear -Hff. revert before Hff. induction free as [|r0 free IH]; intros before; simpl; [done|].
      destruct (Spec.fit r0 sz al) eqn:Hf0; [intros; by simplify_eq|].
      destruct (Spec.first_fit free sz al) as [[[b [r1 s1]] a]|]; [|done].
      intros ?; simplify_eq. constructor; [done|]. by apply IH. }
    apply first_fit_Some in Hff as [-> Hfit]. exists before, r, after, st, self', m'. done.
  - left. by apply first_fit_None in Hff.
Qed.

(** C7: [init] returns, and from then on, whatever sequence of permitted calls and writes a client
    makes, its blocks from the linked list allocator are aligned, inside the heap and
    pairwise disjoint, and every further call returns: no assertion fails, no access
    leaves the heap and no list walk runs forever. *)
Theorem ll_client_safe hs sz m :
  (8 | hs) → 16 ≤ sz → 0 < hs → hs + sz ≤ 2 ^ 63 → mapped hs (hs + sz) m →
  ∃ a m0, init new m hs sz = Done (a, m0) ∧
    ∀ σ, rtc client_step ([], a, m0) σ → client_safe hs (hs + sz) σ.
Proof.
  intros ???? Hm. destruct (ll_init_inv m hs sz) as (a & m0 & E & _ & Hinv);
    [done|done| |done|].
  { unfold heap_bounds. lia. }
  exists a, m0. split; [done|]. intros σ. by apply client_run_safe.
Qed.

(** [size_align] on every valid layout: it panics exactly when rounding the size up
    to the raised alignment could exceed [isize::MAX], and otherwise returns an
    extent that is large enough for the request and for a list node, and an
    alignment that is a multiple of the requested one and of a node's. *)
Lemma ll_size_align_cases l :
  layout_valid l →
  if bool_decide (l_size l ≤ isize_max - (Z.max (l_align l) 8 - 1))
  then ∃ s a, size_align l = Done (s, a) ∧ l_size l ≤ s ∧ 16 ≤ s ∧ (8 | s) ∧
         (l_align l | a) ∧ (8 | a) ∧ a = Z.max (l_align l) 8
  else size_align l = Panicked "adjusting alignment failed".
Proof.
  intros Hv. destruct (adj_align_facts l Hv) as (Hp & H8 & Ha & _).
  destruct (adj_size_facts l Hv) as (? & ? & ?). case_bool_decide as Hs.
  - exists (adj_size l), (adj_align l). rewrite size_align_Done by (by split).
    by split_and!.
  - unfold size_align, align_to, from_size_align. fold (adj_align l). rewrite Hp.
    by rewrite bool_decide_eq_false_2.
Qed.

(** C33: accounting of the free memory: a successful [alloc] takes the padded size and,
    in addition, the bytes between the start of the chosen region and the aligned
    start of the block; the latter are in no free region afterwards.  For alignments
    up to a node's no byte is lost. *)
Theorem ll_alloc_accounting hs he self m free l p self' m' :
  ll_sim hs he self m free → ll_admits l →
  alloc l self m = Done (p, self', m') → p ≠ null →
  ∃ free' r, ll_sim hs he self' m' free' ∧ r ∈ free ∧ r.1 ≤ p < r.1 + adj_align l ∧
    free_bytes free' + adj_size l + (p - r.1) = free_bytes free ∧
    (l_align l ≤ 8 → p = r.1).
Proof.
  intros Hs Hl Ea Hn. destruct (ll_sim_alloc _ _ _ _ _ _ Hs Hl) as (s1 & m1 & E & Hs1 & _).
  rewrite E in Ea. simplify_eq. destruct Hs as (_ & _ & _ & Hf & _).
  destruct (adj_align_facts l) as (Hp & _); [by destruct Hl|].
  destruct (Spec.allocate free (adj_size l) (adj_align l)) as [[st|] free'] eqn:Hsa; [|done].
  cbn [fst snd word_of_opt default from_option] in *. unfold id in *.
  destruct (spec_alloc_bytes _ _ _ _ _ Hp Hsa) as (r & Hr & ? & Hd & ?).
  exists free', r. split_and!; [done|done|lia|lia|lia|].
  intros H8. apply Hd. unfold adj_align, align_of_ListNode in *. rewrite Z.max_r by lia.
  rewrite Forall_forall in Hf. by destruct (Hf r Hr) as (? & _).
Qed.

(** ** Front padding is lost *)

(** The regions of the free list, read from memory. *)
Fixpoint walk (fuel : nat) (m : mem) (p : option Z) : outcome (list region) :=
  match fuel, p with
  | _, None => Done []
  | O, Some _ => Diverged
  | S fuel', Some a =>
      s ← read_size m a; w ← read_word m (a + next_off);
      rest ← walk fuel' m (opt_of_word w); Done ((a, s) :: rest)
  end.

(** Two blocks are allocated on a fresh heap of 256 bytes and freed again. *)
Definition padding_scenario : outcome (list region) :=
  let small := mkLayout 8 8 in
  let aligned := mkLayout 64 64 in
  '(a, m) ← init new (heap_words 4096 32) 4096 256;
  '(p, a, m) ← alloc small a m;
  '(q, a, m) ← alloc aligned a m;
  '(a, m) ← dealloc q aligned a m;
  '(a, m) ← dealloc p small a m;
  walk 32 m (next (head a)).

End simulation.

(** The bytes in front of an aligned block are lost for good: after both blocks of
    the scenario are freed, 48 of the 256 bytes of the heap are in no free region,
    although nothing is allocated any more. *)
Lemma ll_padding_leaks (P : BuildProfile) (N : NodeLayout) :
  padding_scenario = Done [(4096, 16); (4160, 64); (4224, 128)] ∧
  free_bytes [(4096, 16); (4160, 64); (4224, 128)] = 256 - 48.
Proof.
  split; [|done]. destruct P as [[]], N as [[]]; vm_compute; reflexivity.
Qed.

(** ** Witnesses, on a heap of 256 bytes at 4096 *)

Definition size_first_layout : NodeLayout := {| size_first := true |}.
Definition small_ll : LinkedListAllocator := mkLL (mkNode 0 (Some 4096)).
Definition small_mem : mem := <[4104 := 0]> (<[4096 := 256]> (heap_words 4096 32)).
Definition layout_64 : Layout := mkLayout 64 64.

Lemma small_mapped : mapped 4096 (4096 + 256) (heap_words 4096 32).
Proof. apply (heap_words_mapped 4096 32). by exists 512. Qed.

Lemma small_sim : @ll_sim size_first_layout 4096 4352 small_ll small_mem [(4096, 256)].
Proof.
  split_and!; [unfold heap_bounds; lia|by do 2 apply mapped_insert; apply small_mapped| | |].
  - split; [|constructor; [by vm_compute|constructor]].
    split_and!; [done..|]. exists 0. split; by vm_compute.
  - constructor; [|constructor]. unfold free_ok, size_of_ListNode; simpl.
    split_and!; [by exists 512|lia..].
  - by split.
Qed.

Lemma layout_64_admits : ll_admits layout_64.
Proof. split; [by vm_compute|]. vm_compute. by intros ?. Qed.

Lemma ll_alloc_simulates_witness :
  ∃ self' m',
    @alloc dev_profile size_first_layout layout_64 small_ll small_mem =
      Done (4096, self', m') ∧
    @ll_sim size_first_layout 4096 4352 self' m' [(4160, 192)] ∧
    frame_out [(4096, 256)] small_mem m'.
Proof.
  exact (@ll_alloc_simulates dev_profile size_first_layout 4096 4352 small_ll small_mem
           [(4096, 256)] layout_64 small_sim layout_64_admits).
Defined.

(** The block [4096, 4160) is live, the rest is free. *)
Definition split_ll : LinkedListAllocator := mkLL (mkNode 0 (Some 4160)).
Definition split_mem : mem := <[4168 := 0]> (<[4160 := 192]> small_mem).

Lemma split_sim : @ll_sim size_first_layout 4096 4352 split_ll split_mem [(4160, 192)].
Proof.
  split_and!; [unfold heap_bounds; lia|by do 4 apply mapped_insert; apply small_mapped| | |].
  - split; [|constructor; [by vm_compute|constructor]].
    split_and!; [done..|]. exists 0. split; by vm_compute.
  - constructor; [|constructor]. unfold free_ok, size_of_ListNode; simpl.
    split_and!; [by exists 520|lia..].
  - by split.
Qed.

Lemma ll_dealloc_simulates_witness :
  ∃ self' m',
    @dealloc dev_profile size_first_layout 4096 layout_64 split_ll split_mem =
      Done (self', m') ∧
    @ll_sim size_first_layout 4096 4352 self' m' [(4096, 64); (4160, 192)] ∧
    frame_out [(4096, 64)] split_mem m'.
Proof.
  apply (@ll_dealloc_simulates dev_profile size_first_layout 4096 4352 split_ll split_mem
           [(4160, 192)] (mkBlock 4096 layout_64)).
  - exact split_sim.
  - split; [exact layout_64_admits|]. split; [by exists 64|].
    split; by vm_compute.
  - constructor; [by left|constructor].
Defined.

Lemma ll_find_region_first_fit_witness :
  (Forall (λ r, Spec.fit r 64 64 = None) [(4096, 256)] ∧
   @find_region dev_profile size_first_layout small_ll small_mem 64 64 =
     Done (None, small_ll, small_mem)) ∨
  (∃ before r after start self' m',
     [(4096, 256)] = before ++ r :: after ∧
     Forall (λ r, Spec.fit r 64 64 = None) before ∧ Spec.fit r 64 64 = Some start ∧
     @find_region dev_profile size_first_layout small_ll small_mem 64 64 =
       Done (Some (r.1, start), self', m') ∧
     @repr size_first_layout self' m' (before ++ after)).
Proof.
  apply (@ll_find_region_first_fit dev_profile size_first_layout 4096 4352);
    [exact small_sim|reflexivity|lia|lia].
Defined.

Lemma ll_client_safe_witness :
  @client_safe _ (@linked_list_ops dev_profile size_first_layout)
    (@linked_list_spec dev_profile size_first_layout) 4096 (4096 + 256)
    ([], small_ll, small_mem).
Proof.
  destruct (@ll_client_safe dev_profile size_first_layout 4096 256 (heap_words 4096 32))
    as (a & m0 & E & Hsafe); [by exists 512|lia|lia|lia|exact small_mapped|].
  assert (Done (a, m0) = Done (small_ll, small_mem)) as [= -> ->].
  { rewrite <-E. by vm_compute. }
  apply Hsafe, rtc_refl.
Defined.

Lemma ll_size_align_cases_witness :
  size_align (mkLayout isize_max 1) = Panicked "adjusting alignment failed" ∧
  ∃ s a, size_align (mkLayout 20 4) = Done (s, a) ∧ 20 ≤ s ∧ 16 ≤ s ∧ (8 | s) ∧
    (4 | a) ∧ (8 | a) ∧ a = 8.
Proof.
  split; [exact (ll_size_align_cases (mkLayout isize_max 1) ltac:(by vm_compute))
         |exact (ll_size_align_cases (mkLayout 20 4) ltac:(by vm_compute))].
Defined.

Lemma small_alloc :
  @alloc dev_profile size_first_layout layout_64 small_ll small_mem =
  Done (4096, split_ll, split_mem).
Proof. by vm_compute. Qed.

Lemma ll_alloc_accounting_witness :
  ∃ free' r,
    @ll_sim size_first_layout 4096 4352 split_ll split_mem free' ∧ r ∈ [(4096, 256)] ∧
    r.1 ≤ 4096 < r.1 + adj_align layout_64 ∧
    free_bytes free' + adj_size layout_64 + (4096 - r.1) = free_bytes [(4096, 256)] ∧
    (l_align layout_64 ≤ 8 → 4096 = r.1).
Proof.
  exact (@ll_alloc_accounting dev_profile size_first_layout 4096 4352 small_ll small_mem
           [(4096, 256)] layout_64 4096 split_ll split_mem
           small_sim layout_64_admits small_alloc ltac:(done)).
Defined.
