(* ===== verification/FixedSizeBlock.v ===== *)
(** * The fixed-size block allocator (src/src/allocator/fixed_size_block.rs)

    The kernel's global allocator: nine free lists, one per block size, filled from
    a fallback heap.  The fallback heap is [linked_list_allocator::Heap], a crate
    outside the repository: it is a parameter of the model ([FallbackHeap]) that is
    assumed to fulfil the allocator contract ([FallbackLaws]).  Under that
    assumption the allocator is proved to fulfil the same contract. *)

From stdpp Require Import prelude gmap strings.
From S2P Require Import Prelude Layout Memory GlobalAlloc.

Definition BLOCK_SIZES : list Z := [8; 16; 32; 64; 128; 256; 512; 1024; 2048].

Definition list_index (layout : Layout) : option nat :=
  let required_block_size := Z.max (l_size layout) (l_align layout) in
  position (λ s, bool_decide (s >= required_block_size)) BLOCK_SIZES.

(** A [ListNode] of this allocator is a single word, its [next] pointer. *)
Definition size_of_ListNode : Z := 8.
Definition align_of_ListNode : Z := 8.

(** The interface of [linked_list_allocator::Heap] that the code uses. *)
Class FallbackHeap (Heap : Type) := {
  heap_empty : Heap;
  heap_init : Heap → mem → Z → Z → outcome (Heap * mem);
  allocate_first_fit : Heap → mem → Layout → outcome (option Z * Heap * mem);
  heap_deallocate : Heap → mem → Z → Layout → outcome (Heap * mem);
}.

Record FixedSizeBlockAllocator (Heap : Type) := mkFSB {
  list_heads : list (option Z);
  fallback_allocator : Heap;
}.
Arguments mkFSB {Heap}.
Arguments list_heads {Heap}.
Arguments fallback_allocator {Heap}.

Section operations.
Context `{FallbackHeap Heap}.
Implicit Types (self : FixedSizeBlockAllocator Heap) (m : mem).

Definition new : FixedSizeBlockAllocator Heap :=
  {| list_heads := replicate (length BLOCK_SIZES) None; fallback_allocator := heap_empty |}.

Definition init self (m : mem) (heap_start heap_size : Z)
    : outcome (FixedSizeBlockAllocator Heap * mem) :=
  '(h, m') ← heap_init (fallback_allocator self) m heap_start heap_size;
  Done (mkFSB (list_heads self) h, m').

Definition fallback_alloc self (m : mem) (layout : Layout)
    : outcome (Z * FixedSizeBlockAllocator Heap * mem) :=
  '(r, h, m') ← allocate_first_fit (fallback_allocator self) m layout;
  Done (match r with Some ptr => ptr | None => null end, mkFSB (list_heads self) h, m').

Definition index_out_of_bounds : string := "index out of bounds".

Definition alloc (layout : Layout) self (m : mem)
    : outcome (Z * FixedSizeBlockAllocator Heap * mem) :=
  match list_index layout with
  | Some index =>
      (* list_heads[index].take() *)
      taken ← expect index_out_of_bounds (list_heads self !! index);
      let self1 := mkFSB (<[index := None]> (list_heads self)) (fallback_allocator self) in
      match taken with
      | Some node =>
          (* list_heads[index] = node.next.take() *)
          nxt ← read_word m node;
          m1 ← write_word m node (word_of_opt None);
          Done (node,
                mkFSB (<[index := opt_of_word nxt]> (list_heads self1))
                      (fallback_allocator self1), m1)
      | None =>
          block_size ← expect index_out_of_bounds (BLOCK_SIZES !! index);
          let block_align := block_size in
          layout ← expect "called `Result::unwrap()` on an `Err` value"
                     (from_size_align block_size block_align);
          fallback_alloc self1 m layout
      end
  | None => fallback_alloc self m layout
  end.

Definition dealloc (ptr : Z) (layout : Layout) self (m : mem)
    : outcome (FixedSizeBlockAllocator Heap * mem) :=
  match list_index layout with
  | Some index =>
      (* new_node.next = list_heads[index].take() *)
      taken ← expect index_out_of_bounds (list_heads self !! index);
      let heads1 := <[index := None]> (list_heads self) in
      block_size ← expect index_out_of_bounds (BLOCK_SIZES !! index);
      _ ← rust_assert (bool_decide (size_of_ListNode ≤ block_size))
            "assertion failed: mem::size_of::<ListNode>() <= BLOCK_SIZES[index]";
      _ ← rust_assert (bool_decide (align_of_ListNode ≤ block_size))
            "assertion failed: mem::align_of::<ListNode>() <= BLOCK_SIZES[index]";
      m1 ← write_word m ptr (word_of_opt taken);
      Done (mkFSB (<[index := Some ptr]> heads1) (fallback_allocator self), m1)
  | None =>
      (* NonNull::new(ptr).unwrap() *)
      p ← expect "called `Option::unwrap()` on a `None` value" (opt_of_word ptr);
      '(h, m') ← heap_deallocate (fallback_allocator self) m p layout;
      Done (mkFSB (list_heads self) h, m')
  end.

Global Instance fixed_size_block_ops : AllocOps (FixedSizeBlockAllocator Heap) := {|
  op_alloc := alloc;
  op_dealloc := dealloc;
|}.

(** The fallback heap seen through the [GlobalAlloc] interface. *)
Definition heap_ops : AllocOps Heap := {|
  op_alloc l h m := '(r, h', m') ← allocate_first_fit h m l; Done (word_of_opt r, h', m');
  op_dealloc p l h m := heap_deallocate h m p l;
|}.

End operations.

#[local] Existing Instance heap_ops.

(** What is relied on of the fallback heap: it fulfils the allocator contract, it
    admits every layout whose size can be padded to a machine word, and [init]
    establishes the invariant. *)
Class FallbackLaws (Heap : Type) `{FallbackHeap Heap} := {
  fallback_spec :: AllocSpec Heap;
  fallback_admits l :
    layout_valid l → 0 < l_size l →
    l_size l ≤ isize_max - (Z.max (l_align l) 8 - 1) →
    as_admits (A := Heap) l;
  fallback_init (m : mem) hs sz :
    (8 | hs) → 16 ≤ sz → 0 < hs → hs + sz ≤ 2 ^ 63 →
    mapped hs (hs + sz) m →
    ∃ h m', heap_init heap_empty m hs sz = Done (h, m') ∧ as_inv hs (hs + sz) [] h m';
}.

(** ** Block classes *)

Definition class_layout (i : nat) : Layout :=
  let s := default 0 (BLOCK_SIZES !! i) in mkLayout s s.

Lemma block_sizes_facts i s :
  BLOCK_SIZES !! i = Some s →
  is_power_of_two s = true ∧ 8 ≤ s ≤ 2048 ∧ (8 | s) ∧ class_layout i = mkLayout s s.
Proof.
  intros Hi. unfold class_layout. rewrite Hi. cbn [default from_option].
  unfold id. assert (s ∈ BLOCK_SIZES) as Hs by (by eapply list_elem_of_lookup_2).
  unfold BLOCK_SIZES in Hs. rewrite !elem_of_cons, elem_of_nil in Hs.
  destruct_or!; try done; subst; (split_and!; [done|lia|lia| |done]);
    by apply Z.mod_divide.
Qed.

Lemma list_index_Some l i :
  list_index l = Some i ↔
  ∃ s, BLOCK_SIZES !! i = Some s ∧ Z.max (l_size l) (l_align l) ≤ s ∧
       ∀ j t, (j < i)%nat → BLOCK_SIZES !! j = Some t → t < Z.max (l_size l) (l_align l).
Proof.
  unfold list_index. rewrite position_Some.
  setoid_rewrite bool_decide_eq_true. setoid_rewrite bool_decide_eq_false.
  split; intros (s & Hs & Hge & Hmin); exists s; split_and!; try done; try lia;
    intros j t Hj Ht; specialize (Hmin j t Hj Ht); lia.
Qed.

Lemma list_index_None l :
  list_index l = None ↔ 2048 < Z.max (l_size l) (l_align l).
Proof.
  unfold list_index. rewrite position_None. split.
  - intros Hf. rewrite Forall_forall in Hf. specialize (Hf 2048).
    rewrite bool_decide_eq_false in Hf. unfold BLOCK_SIZES in Hf.
    assert (2048 ∈ [8; 16; 32; 64; 128; 256; 512; 1024; 2048]) as Hin by set_solver.
    specialize (Hf Hin). lia.
  - intros Hlt. apply Forall_forall. intros s Hs. apply bool_decide_eq_false.
    apply list_elem_of_lookup in Hs as [i Hi]. apply block_sizes_facts in Hi. lia.
Qed.

(** ** Invariant

    Every block of a free list, and every block of the client, is a live block of
    the fallback heap, with the layout it was requested with there. *)

(** The block of the fallback heap behind a block of the client. *)
Definition fb_block (b : block) : block :=
  match list_index (b_layout b) with
  | Some i => mkBlock (b_ptr b) (class_layout i)
  | None => b
  end.

Definition class_block (i : nat) (p : Z) : block := mkBlock p (class_layout i).

(** The free blocks of all classes, from class [i] on. *)
Fixpoint free_blocks (i : nat) (frees : list (list Z)) : list block :=
  match frees with
  | [] => []
  | l :: frees' => (class_block i <$> l) ++ free_blocks (S i) frees'
  end.

Definition fsb_admits (l : Layout) : Prop :=
  layout_valid l ∧ 0 < l_size l ∧ l_size l ≤ isize_max - (Z.max (l_align l) 8 - 1).

Definition chains (m : mem) (heads : list (option Z)) (frees : list (list Z)) : Prop :=
  Forall2 (chain 0 m) heads frees.

Definition fsb_inv `{FallbackLaws Heap} (hs he : Z) (live : list block)
    (self : FixedSizeBlockAllocator Heap) (m : mem) : Prop :=
  ∃ frees, length frees = length BLOCK_SIZES ∧ chains m (list_heads self) frees ∧
    Forall (λ b, fsb_admits (b_layout b)) live ∧
    as_inv hs he (free_blocks 0 frees ++ (fb_block <$> live)) (fallback_allocator self) m.

Lemma free_blocks_insert k frees i l l' :
  frees !! i = Some l →
  ∃ rest, free_blocks k frees ≡ₚ (class_block (k + i) <$> l) ++ rest ∧
          free_blocks k (<[i := l']> frees) ≡ₚ (class_block (k + i) <$> l') ++ rest.
Proof.
  revert k i. induction frees as [|l0 frees IH]; intros k [|i] Hi; simplify_eq/=.
  - rewrite Nat.add_0_r. eauto.
  - destruct (IH (S k) i Hi) as (rest & H1 & H2).
    exists ((class_block k <$> l0) ++ rest).
    replace (k + S i)%nat with (S k + i)%nat by lia. split.
    + rewrite H1. solve_Permutation.
    + rewrite H2. solve_Permutation.
Qed.

Lemma elem_of_free_blocks k frees b :
  b ∈ free_blocks k frees ↔
  ∃ i l p, frees !! i = Some l ∧ p ∈ l ∧ b = class_block (k + i) p.
Proof.
  revert k. induction frees as [|l frees IH]; intros k; simpl.
  { split; [by intros ?%elem_of_nil | by intros (? & ? & ? & ? & _)]. }
  rewrite elem_of_app, IH, list_elem_of_fmap. split.
  - intros [(p & -> & Hp)|(i & l' & p & Hi & Hp & ->)].
    + exists O, l, p. by rewrite Nat.add_0_r.
    + exists (S i), l', p. replace (k + S i)%nat with (S k + i)%nat by lia. done.
  - intros ([|i] & l' & p & Hi & Hp & ->); simplify_eq/=.
    + left. exists p. by rewrite Nat.add_0_r.
    + right. exists i, l', p. replace (k + S i)%nat with (S k + i)%nat by lia. done.
Qed.

Lemma chains_lookup m heads frees i p :
  chains m heads frees → heads !! i = Some p →
  ∃ l, frees !! i = Some l ∧ chain 0 m p l.
Proof. intros Hc Hi. by eapply Forall2_lookup_l in Hc. Qed.

Lemma chains_insert m heads frees i p l :
  chains m heads frees → chain 0 m p l → chains m (<[i := p]> heads) (<[i := l]> frees).
Proof. intros. by apply Forall2_insert. Qed.

Lemma chains_frame (m m' : mem) heads frees :
  (∀ b, b ∈ free_blocks 0 frees → m' !! b_ptr b = m !! b_ptr b) →
  chains m heads frees → chains m' heads frees.
Proof.
  unfold chains. rewrite !Forall2_same_length_lookup. intros Hf [Hlen Hc].
  split; [done|]. intros i p l Hp Hl. eapply chain_frame; [|by eapply Hc].
  intros a Ha. rewrite Z.add_0_r. apply (Hf (class_block i a)).
  apply elem_of_free_blocks. exists i, l, a. by split_and!.
Qed.

(** ** The contract *)

Section contract.
Context `{FallbackLaws Heap}.
Implicit Types (self : FixedSizeBlockAllocator Heap) (m : mem) (h : Heap).

Lemma fb_block_facts b :
  fsb_admits (b_layout b) →
  b_ptr (fb_block b) = b_ptr b ∧ l_size (b_layout b) ≤ l_size (b_layout (fb_block b)) ∧
  (l_align (b_layout b) | l_align (b_layout (fb_block b))).
Proof.
  intros ((Hp & _) & _). unfold fb_block. destruct (list_index _) as [i|] eqn:Hi; [|done].
  apply list_index_Some in Hi as (s & Hs & Hge & _).
  apply block_sizes_facts in Hs as (Hps & _ & _ & Hc). cbn [b_ptr b_layout].
  rewrite Hc. cbn [l_size l_align].
  split_and!; [done|lia|]. apply pow2_divide; [done..|lia].
Qed.

Lemma fb_block_byte b x : fsb_admits (b_layout b) → byte_in b x → byte_in (fb_block b) x.
Proof.
  intros Hb [??]. destruct (fb_block_facts b Hb) as (E & ? & _). unfold byte_in. rewrite E. lia.
Qed.

Lemma fb_block_word b w : fsb_admits (b_layout b) → word_in b w → word_in (fb_block b) w.
Proof.
  intros Hb (? & ? & ?). destruct (fb_block_facts b Hb) as (E & ? & _).
  unfold word_in. rewrite E. split_and!; [done|done|lia].
Qed.

Lemma class_block_word hs he i p :
  (i < length BLOCK_SIZES)%nat → block_ok hs he (class_block i p) →
  word_in (class_block i p) p.
Proof.
  intros [s Hs]%lookup_lt_is_Some_2 (_ & Hal & _).
  apply block_sizes_facts in Hs as (_ & ? & ? & Hc). unfold class_block in *.
  unfold word_in, word_size. cbn [b_ptr b_layout] in *. rewrite Hc in Hal |- *.
  cbn [l_size l_align] in *. split_and!; [by transitivity s|done|lia].
Qed.

Lemma preserved_live live L m m' :
  Forall (λ b, fsb_admits (b_layout b)) live →
  preserved (L ++ (fb_block <$> live)) m m' → preserved live m m'.
Proof.
  intros Hl Hp b Hb. rewrite Forall_forall in Hl. specialize (Hl b Hb).
  destruct (Hp (fb_block b)) as [Hw Hx].
  - apply elem_of_app. right. by apply list_elem_of_fmap_2.
  - split; intros; [by apply Hw, fb_block_word|by apply Hx, fb_block_byte].
Qed.

(** The next pointers of the free lists lie in blocks the fallback heap preserves. *)
Lemma chains_preserved hs he L m m' heads frees :
  length frees = length BLOCK_SIZES →
  Forall (block_ok hs he) (free_blocks 0 frees) →
  preserved (free_blocks 0 frees ++ L) m m' →
  chains m heads frees → chains m' heads frees.
Proof.
  intros Hlen Hok Hp. apply chains_frame. intros b Hb.
  apply (Hp b); [apply elem_of_app; by left|].
  rewrite Forall_forall in Hok. specialize (Hok b Hb).
  apply elem_of_free_blocks in Hb as (i & l & p & Hi & Hpl & ->).
  eapply class_block_word; [|done]. rewrite <-Hlen. by eapply lookup_lt_Some.
Qed.

(** A write in a block that is in no free list leaves the lists alone. *)
Lemma chains_write hs he b L h m m' heads frees :
  length frees = length BLOCK_SIZES →
  as_inv hs he (b :: free_blocks 0 frees ++ L) h m → writes_in b m m' →
  chains m heads frees → chains m' heads frees.
Proof.
  intros Hlen Hinv Hw. apply as_sound in Hinv as Hok.
  apply (chains_preserved hs he L); [done| |by eapply writes_in_preserved].
  by destruct Hok as [[_ [? _]%Forall_app]%Forall_cons _].
Qed.

Lemma fsb_inv_sound hs he live self m : fsb_inv hs he live self m → blocks_ok hs he live.
Proof.
  intros (frees & _ & _ & Hl & Hinv). apply as_sound in Hinv as [Hf Hd].
  apply Forall_app in Hf as [_ Hf]. rewrite fmap_app in Hd.
  apply all_disjoint_app in Hd as (_ & Hd & _). split.
  - rewrite Forall_fmap, Forall_forall in Hf. rewrite Forall_forall in Hl.
    apply Forall_forall. intros b Hb. destruct (Hf b Hb) as (H1 & H2 & H3 & H4).
    destruct (fb_block_facts b (Hl b Hb)) as (E & ? & ?). unfold compose in *.
    rewrite E in H1, H2, H3, H4. split_and!; [done|by etrans|done|lia].
  - rewrite <-list_fmap_compose in Hd. eapply all_disjoint_fmap_sub; [|exact Hd].
    eapply Forall_impl; [exact Hl|]. intros b Hb.
    destruct (fb_block_facts b Hb) as (E & ? & _). unfold compose, block_region.
    split; cbn; rewrite E; lia.
Qed.

(** Allocation from the fallback heap. *)
Lemma fallback_alloc_spec hs he live self m frees l l' :
  length frees = length BLOCK_SIZES → chains m (list_heads self) frees →
  Forall (λ b, fsb_admits (b_layout b)) live → fsb_admits l →
  as_inv hs he (free_blocks 0 frees ++ (fb_block <$> live)) (fallback_allocator self) m →
  as_admits (A := Heap) l' → (∀ p, fb_block (mkBlock p l) = mkBlock p l') →
  ∃ p self' m', fallback_alloc self m l' = Done (p, self', m') ∧ preserved live m m' ∧
    if decide (p = null) then fsb_inv hs he live self' m'
    else fsb_inv hs he (mkBlock p l :: live) self' m'.
Proof.
  intros Hlen Hch Hlive Hl Hinv Hadm Hfb.
  destruct (as_alloc _ _ _ _ _ _ Hinv Hadm) as (p & h' & m' & E & Hpr & Hi).
  simpl in E. unfold fallback_alloc.
  destruct (allocate_first_fit (fallback_allocator self) m l') as [[[r h1] m1]| | |] eqn:Ea;
    simplify_eq/=.
  exists (word_of_opt r), (mkFSB (list_heads self) h'), m'. split_and!.
  - destruct r; done.
  - by eapply preserved_live.
  - assert (chains m' (list_heads self) frees) as Hch'.
    { eapply chains_preserved; [done| |done..].
      by apply as_sound in Hinv as [[? _]%Forall_app _]. }
    case_decide.
    + exists frees. by split_and!.
    + exists frees. split_and!; [done..|by constructor|]. cbn [list_heads fallback_allocator].
      rewrite fmap_cons, Hfb. eapply as_perm; [|exact Hi]. solve_Permutation.
Qed.

Lemma class_layout_admits i s :
  BLOCK_SIZES !! i = Some s →
  from_size_align s s = Some (class_layout i) ∧ as_admits (A := Heap) (class_layout i).
Proof.
  intros (Hp & ? & ? & ->)%block_sizes_facts. unfold from_size_align.
  assert (s ≤ isize_max - (s - 1)) by (unfold isize_max; lia). rewrite Hp.
  rewrite bool_decide_eq_true_2 by done. split; [done|].
  apply fallback_admits; simpl; [split_and!; simpl; [done|lia|done]|lia|unfold isize_max; lia].
Qed.

Lemma fsb_head_lookup hs he live self m i :
  fsb_inv hs he live self m → (i < length BLOCK_SIZES)%nat →
  ∃ p, list_heads self !! i = Some p.
Proof.
  intros (frees & Hlen & Hch & _) Hi. apply lookup_lt_is_Some_2.
  apply Forall2_length in Hch. lia.
Qed.

(** Popping a block from its free list. *)
Lemma fsb_pop hs he live self m l i node :
  fsb_inv hs he live self m → fsb_admits l → list_index l = Some i →
  list_heads self !! i = Some (Some node) →
  ∃ nxt m1, read_word m node = Done nxt ∧ write_word m node 0 = Done m1 ∧
    preserved live m m1 ∧ node ≠ null ∧
    fsb_inv hs he (mkBlock node l :: live)
      (mkFSB (<[i := opt_of_word nxt]> (<[i := None]> (list_heads self)))
             (fallback_allocator self)) m1.
Proof.
  intros (frees & Hlen & Hch & Hlive & Hinv) Hl Hi Hhead.
  destruct (chains_lookup _ _ _ _ _ Hch Hhead) as ([|a fl] & Hfi & Hc); [done|].
  destruct Hc as ([= <-] & Hn0 & w & Hw & Hc). rewrite Z.add_0_r in Hw.
  assert (i < length BLOCK_SIZES)%nat as Hilt by (rewrite <-Hlen; by eapply lookup_lt_Some).
  destruct (free_blocks_insert 0 frees i (node :: fl) fl Hfi) as (rest & Hp1 & Hp2).
  assert (free_blocks 0 frees ++ (fb_block <$> live) ≡ₚ
    class_block i node :: free_blocks 0 (<[i := fl]> frees) ++ (fb_block <$> live)) as Hperm
    by (rewrite Hp1, Hp2; simpl; solve_Permutation).
  pose proof Hinv as Hinv0. eapply as_perm in Hinv; [|exact Hperm].
  pose proof (as_sound _ _ _ _ _ Hinv) as Hsound. pose proof Hsound as [[Hok _]%Forall_cons _].
  pose proof (class_block_word _ _ _ _ Hilt Hok) as Hword.
  exists w, (<[node := 0]> m). split_and!.
  - by apply read_word_Done.
  - apply write_word_Done. eauto.
  - apply (preserved_live live []); [done|]. apply preserved_insert. intros b x Hb.
    eapply blocks_ok_word_apart; [exact Hsound| |done]. apply elem_of_app. by right.
  - done.
  - exists (<[i := fl]> frees). cbn [list_heads fallback_allocator]. split_and!.
    + by rewrite length_insert.
    + eapply (chains_write hs he); [by rewrite length_insert|done|by apply writes_in_word|].
      rewrite list_insert_insert_eq. by apply chains_insert.
    + by constructor.
    + rewrite fmap_cons. unfold fb_block at 1. cbn [b_layout b_ptr]. rewrite Hi.
      eapply as_write; [eapply as_perm; [|exact Hinv0]| |exact (writes_in_word _ _ _ _ Hword)].
      * rewrite Hperm. unfold class_block. solve_Permutation.
      * set_solver.
Qed.

Lemma fsb_inv_alloc hs he live self m l :
  fsb_inv hs he live self m → fsb_admits l →
  ∃ p self' m', alloc l self m = Done (p, self', m') ∧ preserved live m m' ∧
    if decide (p = null) then fsb_inv hs he live self' m'
    else fsb_inv hs he (mkBlock p l :: live) self' m'.
Proof.
  intros Hinv Hl. unfold alloc. destruct (list_index l) as [i|] eqn:Hi.
  2: { destruct Hinv as (frees & ? & ? & ? & ?).
       apply (fallback_alloc_spec hs he live self m frees l l); try done.
       - by destruct Hl as (? & ? & ?); apply fallback_admits.
       - intros p. unfold fb_block. cbn [b_layout]. by rewrite Hi. }
  pose proof Hi as (s & Hs & _)%list_index_Some.
  destruct (fsb_head_lookup hs he live self m i Hinv) as [o Ho]; [by eapply lookup_lt_Some|].
  rewrite Ho. cbn [expect]. run. destruct o as [node|].
  - destruct (fsb_pop _ _ _ _ _ _ _ _ Hinv Hl Hi Ho) as (w & m1 & Er & Ew & ? & ? & ?).
    run Er. cbn [word_of_opt default]. run Ew.
    eexists _, _, _. split_and!; [done..|]. by rewrite decide_False.
  - destruct (class_layout_admits i s Hs) as [Ef Hadm].
    rewrite Hs. cbn [expect]. run. rewrite Ef. cbn [expect]. run.
    destruct Hinv as (frees & ? & Hch & ? & ?).
    apply (fallback_alloc_spec hs he live _ m frees l (class_layout i)); try done.
    + cbn [list_heads]. by rewrite list_insert_id.
    + intros p. unfold fb_block. cbn [b_layout b_ptr]. by rewrite Hi.
Qed.

Section dealloc_proofs.
Variables (hs he : Z) (live : list block) (self : FixedSizeBlockAllocator Heap) (m : mem).
Variables (b : block) (frees : list (list Z)).
Hypothesis Hinv : fsb_inv hs he (b :: live) self m.
Hypothesis Hlen : length frees = length BLOCK_SIZES.
Hypothesis Hch : chains m (list_heads self) frees.
Hypothesis Hlive : Forall (λ b, fsb_admits (b_layout b)) live.
Hypothesis Hp0 : b_ptr b ≠ 0.
Hypothesis Hi0 : as_inv hs he (fb_block b :: free_blocks 0 frees ++ (fb_block <$> live))
                   (fallback_allocator self) m.

Abbreviation freed := (∃ self' m', dealloc (b_ptr b) (b_layout b) self m = Done (self', m') ∧
  preserved live m m' ∧ fsb_inv hs he live self' m').

(** A block of a class goes in front of the class's free list. *)
Lemma fsb_inv_dealloc_class i : list_index (b_layout b) = Some i → freed.
Proof.
  intros Hi. unfold dealloc. pose proof Hi0 as Hi1. unfold fb_block at 1 in Hi1. rewrite Hi in *.
  pose proof Hi as (s & Hs & _)%list_index_Some.
  destruct (fsb_head_lookup hs he _ self m i Hinv) as [o Ho]; [by eapply lookup_lt_Some|].
  destruct (chains_lookup _ _ _ _ _ Hch Ho) as (fl & Hfi & Hc).
  destruct (block_sizes_facts _ _ Hs) as (_ & ? & _ & _).
  pose proof (as_sound _ _ _ _ _ Hi1) as Hsound. pose proof Hsound as [[Hok _]%Forall_cons _].
  assert (word_in (class_block i (b_ptr b)) (b_ptr b)) as Hword.
  { eapply class_block_word; [by eapply lookup_lt_Some|exact Hok]. }
  assert (b_ptr b ∉ fl) as Hnot.
  { intros Hin. destruct (word_in_self _ _ Hword) as [Hbyte _].
    eapply (blocks_ok_byte_apart hs he _ _ (class_block i (b_ptr b)));
      [exact Hsound| |exact Hbyte|exact Hbyte].
    apply elem_of_app. left. apply elem_of_free_blocks. by exists i, fl, (b_ptr b). }
  rewrite Ho, Hs. cbn [expect]. run. unfold size_of_ListNode, align_of_ListNode.
  rewrite (bool_decide_eq_true_2 (8 ≤ s)) by lia. cbn [rust_assert]. run.
  assert (is_Some (m !! b_ptr b)) as Hmap.
  { by eapply word_in_mapped; [eapply as_mapped|..]. }
  run write_word_Done by done. eexists _, _. split_and!; [done| |].
  - apply (preserved_live live []); [done|]. apply preserved_insert. intros b' x Hb'.
    eapply blocks_ok_word_apart; [exact Hsound| |done]. apply elem_of_app. by right.
  - exists (<[i := b_ptr b :: fl]> frees). cbn [list_heads fallback_allocator]. split_and!.
    + by rewrite length_insert.
    + rewrite list_insert_insert_eq. apply chains_insert; [by eapply chains_write; [..|apply writes_in_word|]|].
      pose proof (chain_push 0 m o fl (b_ptr b) Hc Hp0 Hnot) as Hpush.
      by rewrite Z.add_0_r in Hpush.
    + done.
    + eapply as_write; [eapply as_perm; [|exact Hi1]| |exact (writes_in_word _ _ _ _ Hword)].
      * destruct (free_blocks_insert 0 frees i fl (b_ptr b :: fl) Hfi) as (rest & -> & ->).
         unfold class_block. simpl. solve_Permutation.
      * apply elem_of_app. left. apply elem_of_free_blocks.
         exists i, (b_ptr b :: fl), (b_ptr b). split_and!; [|left|done].
         apply list_lookup_insert_eq. by eapply lookup_lt_Some.
Qed.

(** A larger block goes back to the fallback heap. *)
Lemma fsb_inv_dealloc_large : list_index (b_layout b) = None → freed.
Proof.
  intros Hi. unfold dealloc. pose proof Hi0 as Hi1. unfold fb_block at 1 in Hi1. rewrite Hi in *.
  rewrite opt_of_word_nonzero by done. cbn [expect]. run.
  destruct (as_dealloc _ _ _ _ _ _ Hi1) as (h' & m' & E & Hpr & Hi2). simpl in E. run E.
  eexists _, _. split_and!; [done|by eapply preserved_live|].
  exists frees. split_and!; [done| |done..]. cbn [list_heads].
  eapply chains_preserved; [done| |exact Hpr|done].
  by apply as_sound in Hi1 as [[_ [? _]%Forall_app]%Forall_cons _].
Qed.

End dealloc_proofs.

Lemma fsb_inv_dealloc hs he live self m b :
  fsb_inv hs he (b :: live) self m →
  ∃ self' m', dealloc (b_ptr b) (b_layout b) self m = Done (self', m') ∧
    preserved live m m' ∧ fsb_inv hs he live self' m'.
Proof.
  intros Hinv. pose proof Hinv as (frees & Hlen & Hch & [Hb Hlive]%Forall_cons & Hi0).
  assert (b_ptr b ≠ 0) as Hp0.
  { apply fsb_inv_sound in Hinv as [[(? & _) _]%Forall_cons _]. done. }
  assert (free_blocks 0 frees ++ (fb_block <$> b :: live) ≡ₚ
          fb_block b :: free_blocks 0 frees ++ (fb_block <$> live)) as Hperm
    by (rewrite fmap_cons; solve_Permutation).
  eapply as_perm in Hi0; [|exact Hperm]. destruct (list_index (b_layout b)) as [i|] eqn:Hi.
  - by eapply fsb_inv_dealloc_class.
  - by eapply fsb_inv_dealloc_large.
Qed.

Lemma fsb_inv_write hs he live self m m' b :
  fsb_inv hs he live self m → b ∈ live → writes_in b m m' →
  fsb_inv hs he live self m'.
Proof.
  intros (frees & Hlen & Hch & Hlive & Hinv) Hb Hw. exists frees.
  assert (writes_in (fb_block b) m m') as Hw'.
  { eapply writes_in_sub; [|exact Hw]. intros x. apply fb_block_byte.
    rewrite Forall_forall in Hlive. by apply Hlive. }
  assert (fb_block b ∈ fb_block <$> live) as Hin by (by apply list_elem_of_fmap_2).
  split_and!; [done| |done|].
  - apply list_elem_of_split in Hin as (l1 & l2 & El).
    eapply (chains_write hs he (fb_block b) (l1 ++ l2)); [done| |done..].
    eapply as_perm; [|exact Hinv]. rewrite El. solve_Permutation.
  - eapply as_write; [done| |done]. apply elem_of_app. by right.
Qed.

Lemma fsb_inv_perm hs he self m l1 l2 :
  l1 ≡ₚ l2 → fsb_inv hs he l1 self m → fsb_inv hs he l2 self m.
Proof.
  intros Hp (frees & ? & ? & Hl & Hinv). exists frees. split_and!; [done..|by rewrite <-Hp|].
  eapply as_perm; [|exact Hinv]. by rewrite Hp.
Qed.

(** The fixed-size block allocator fulfils the allocator contract. *)
Global Program Instance fixed_size_block_spec : AllocSpec (FixedSizeBlockAllocator Heap) := {|
  as_inv := fsb_inv;
  as_admits := fsb_admits;
|}.
Next Obligation. intros hs he a m l1 l2 Hp Hi. by eapply fsb_inv_perm. Qed.
Next Obligation. intros. by eapply fsb_inv_sound. Qed.
Next Obligation. intros hs he live a m (? & _ & _ & _ & Hi). by eapply as_mapped. Qed.
Next Obligation. intros. by apply fsb_inv_alloc. Qed.
Next Obligation. intros. by apply fsb_inv_dealloc. Qed.
Next Obligation. intros. by eapply fsb_inv_write. Qed.

Lemma free_blocks_empty k n : free_blocks k (replicate n []) = [].
Proof. revert k. induction n; intros; simpl; auto. Qed.

Lemma fsb_init_inv m heap_start heap_size :
  (8 | heap_start) → 16 ≤ heap_size → 0 < heap_start → heap_start + heap_size ≤ 2 ^ 63 →
  mapped heap_start (heap_start + heap_size) m →
  ∃ self' m', init (Heap := Heap) new m heap_start heap_size = Done (self', m') ∧
    list_heads self' = replicate (length BLOCK_SIZES) None ∧
    fsb_inv heap_start (heap_start + heap_size) [] self' m'.
Proof.
  intros. destruct (fallback_init m heap_start heap_size) as (h & m' & E & Hi); [done..|].
  exists (mkFSB (replicate (length BLOCK_SIZES) None) h), m'. split_and!.
  - unfold init. cbn [fallback_allocator new]. by run E.
  - done.
  - exists (replicate (length BLOCK_SIZES) []). split_and!; [done| |constructor|].
    + cbn [list_heads]. unfold chains. by apply Forall2_replicate.
    + by rewrite free_blocks_empty.
Qed.

(** ** Properties *)

Lemma mkFSB_eta self : mkFSB (list_heads self) (fallback_allocator self) = self.
Proof. by destruct self. Qed.

(** [dealloc] of a small block, in full. *)
Lemma fsb_dealloc_class hs he live self m b i :
  fsb_inv hs he (b :: live) self m → list_index (b_layout b) = Some i →
  ∃ o, list_heads self !! i = Some o ∧ o ≠ Some 0 ∧ b_ptr b ≠ 0 ∧
    dealloc (b_ptr b) (b_layout b) self m =
      Done (mkFSB (<[i := Some (b_ptr b)]> (list_heads self)) (fallback_allocator self),
            <[b_ptr b := word_of_opt o]> m).
Proof.
  intros Hinv Hi. pose proof Hinv as (frees & Hlen & Hch & Hlive & _).
  apply Forall_cons in Hlive as [Hb _]. pose proof Hi as (s & Hs & Hge & _)%list_index_Some.
  assert (i < length BLOCK_SIZES)%nat as Hilt by (by eapply lookup_lt_Some).
  destruct (fsb_head_lookup hs he _ self m i Hinv Hilt) as [o Ho].
  destruct (fsb_inv_dealloc _ _ _ _ _ _ Hinv) as (self' & m' & E & _).
  apply fsb_inv_sound in Hinv as [[(? & _) _]%Forall_cons _].
  exists o. split_and!; [done| |done|].
  { destruct (chains_lookup _ _ _ _ _ Hch Ho) as ([|a l] & _ & Hc); simpl in Hc; naive_solver. }
  unfold dealloc in E |- *. rewrite Hi, Ho, Hs in E |- *.
  cbn [expect mbind outcome_bind] in E |- *.
  destruct (block_sizes_facts _ _ Hs) as (_ & ? & _ & _).
  unfold size_of_ListNode, align_of_ListNode in E |- *.
  rewrite (bool_decide_eq_true_2 (8 ≤ s)) in E |- * by lia.
  unfold write_word in E |- *. cbn in E |- *.
  destruct (m !! b_ptr b); [|done]. cbn. by rewrite list_insert_insert_eq.
Qed.

(** [alloc] in full: what it returns on each of its three paths. *)
Lemma fsb_alloc_paths hs he live self m l :
  fsb_inv hs he live self m → fsb_admits l →
  match list_index l with
  | None => alloc l self m = fallback_alloc self m l
  | Some i =>
      ∃ o, list_heads self !! i = Some o ∧
      match o with
      | None => alloc l self m = fallback_alloc self m (class_layout i)
      | Some node =>
          ∃ nxt, m !! node = Some nxt ∧
            alloc l self m = Done (node,
              mkFSB (<[i := opt_of_word nxt]> (list_heads self)) (fallback_allocator self),
              <[node := 0]> m)
      end
  end.
Proof.
  intros Hinv Hl. unfold alloc. destruct (list_index l) as [i|] eqn:Hi; [|done].
  pose proof Hi as (s & Hs & _)%list_index_Some.
  destruct (fsb_head_lookup hs he live self m i Hinv) as [o Ho]; [by eapply lookup_lt_Some|].
  exists o. split; [done|]. rewrite Ho. cbn [expect]. run. destruct o as [node|].
  - destruct (fsb_pop _ _ _ _ _ _ _ _ Hinv Hl Hi Ho) as (w & m1 & Er & Ew & _).
    exists w. unfold read_word in *. destruct (m !! node) as [w'|] eqn:Hw; [|done].
    simplify_eq. split; [done|]. run. unfold write_word. rewrite Hw. run.
    cbn [list_heads fallback_allocator]. by rewrite list_insert_insert_eq.
  - destruct (class_layout_admits i s Hs) as [Ef _]. rewrite Hs. cbn [expect]. run.
    rewrite Ef. cbn [expect]. run. by rewrite list_insert_id, mkFSB_eta.
Qed.

(** C1: [init] returns, and from then on, whatever sequence of permitted calls and writes a client
    makes, its blocks from the kernel's global allocator are aligned, inside the heap
    and pairwise disjoint, their contents are left alone, and every further [alloc]
    and [dealloc] returns without a panic or a fault, for every fallback heap that
    fulfils the allocator contract. *)
Theorem fsb_client_safe hs sz m :
  (8 | hs) → 16 ≤ sz → 0 < hs → hs + sz ≤ 2 ^ 63 → mapped hs (hs + sz) m →
  ∃ a m0, init (Heap := Heap) new m hs sz = Done (a, m0) ∧
    ∀ σ, rtc client_step ([], a, m0) σ → client_safe hs (hs + sz) σ.
Proof.
  intros ???? Hm. destruct (fsb_init_inv m hs sz) as (a & m0 & E & _ & Hinv); [done..|].
  exists a, m0. split; [done|]. intros σ. by apply client_run_safe.
Qed.

(** C23: freed blocks are reused last in, first out: after [dealloc] of a block, the next
    [alloc] of any layout of the same class returns that very block and puts the free
    lists back as they were; the fallback heap is not involved. *)
Theorem fsb_dealloc_alloc_reuses hs he live self m b l i :
  fsb_inv hs he (b :: live) self m → fsb_admits l →
  list_index (b_layout b) = Some i → list_index l = Some i →
  ∃ self1 m1 m2,
    dealloc (b_ptr b) (b_layout b) self m = Done (self1, m1) ∧
    alloc l self1 m1 = Done (b_ptr b, self, m2) ∧
    m2 = <[b_ptr b := 0]> m.
Proof.
  intros Hinv Hl Hb Hi.
  destruct (fsb_dealloc_class _ _ _ _ _ _ _ Hinv Hb) as (o & Ho & Ho0 & Hp0 & E).
  destruct (fsb_inv_dealloc _ _ _ _ _ _ Hinv) as (self1 & m1 & E' & _ & Hinv1).
  rewrite E in E'. simplify_eq. pose proof (fsb_alloc_paths _ _ _ _ _ _ Hinv1 Hl) as Ha.
  rewrite Hi in Ha. destruct Ha as (o' & Ho' & Ha). cbn [list_heads fallback_allocator] in *.
  rewrite list_lookup_insert_eq in Ho' by (by eapply lookup_lt_Some). simplify_eq.
  destruct Ha as (nxt & Hn & Ha). rewrite lookup_insert_eq in Hn. simplify_eq.
  eexists _, _, _. split_and!; [done| |done]. rewrite Ha.
  rewrite opt_of_word_of_opt, list_insert_insert_eq, insert_insert_eq by done.
  by rewrite list_insert_id, mkFSB_eta.
Qed.

End contract.

(** C26: [list_index] picks the best class for a request: the smallest block size that
    holds the size and the alignment, whose blocks are therefore suitably aligned and
    less than twice as large as needed (or of the minimum size); it picks none only
    when even the largest class is too small. *)
Theorem list_index_best_fit l :
  layout_valid l →
  let required := Z.max (l_size l) (l_align l) in
  match list_index l with
  | Some i =>
      ∃ s, BLOCK_SIZES !! i = Some s ∧ required ≤ s ∧ (l_align l | s) ∧
           (s = 8 ∨ s < 2 * required) ∧ ∀ t, t ∈ BLOCK_SIZES → required ≤ t → s ≤ t
  | None => ∀ t, t ∈ BLOCK_SIZES → t < required
  end.
Proof.
  intros (Hp & _) required. destruct (list_index l) as [i|] eqn:Hi.
  - apply list_index_Some in Hi as (s & Hs & Hge & Hmin). exists s. fold required in Hge, Hmin.
    destruct (block_sizes_facts _ _ Hs) as (Hps & ? & _ & _).
    split_and!; [done|done|apply pow2_divide; [done..|lia]| |].
    + destruct i as [|i]; [left; by injection Hs|right].
      destruct (lookup_lt_is_Some_2 BLOCK_SIZES i) as [t Ht];
        [apply lookup_lt_Some in Hs; lia|].
      specialize (Hmin i t ltac:(lia) Ht). assert (s = 2 * t); [|lia].
      do 8 (destruct i as [|i]; [by injection Ht as <-; injection Hs as <-|]). done.
    + intros t [j Hj]%list_elem_of_lookup Ht. destruct (decide (j < i)%nat) as [Hlt|Hnl].
      { specialize (Hmin j t Hlt Hj). lia. }
      do 9 (destruct i as [|i]; [do 9 (destruct j as [|j]; [simplify_eq/=; lia|]); done|]).
      done.
  - intros t Ht. apply list_index_None in Hi. apply list_elem_of_lookup in Ht as [j Hj].
    apply block_sizes_facts in Hj as (_ & ? & _). unfold required. lia.
Qed.

Lemma list_index_best_fit_witness :
  ∃ s, BLOCK_SIZES !! 3%nat = Some s ∧ 40 ≤ s ∧ (8 | s) ∧ (s = 8 ∨ s < 2 * 40) ∧
       ∀ t, t ∈ BLOCK_SIZES → 40 ≤ t → s ≤ t.
Proof. exact (list_index_best_fit (mkLayout 40 8) ltac:(by vm_compute)). Defined.
