(* ===== verification/FallbackModel.v ===== *)
(** * An instance of the fallback heap interface

    The laws that the fixed-size block allocator assumes of its fallback heap are
    satisfiable: the repository's own linked list allocator, behind the [Heap]
    interface, fulfils them.  Composing the two gives a concrete allocator on which
    the theorems about the fixed-size block allocator can be evaluated. *)

From stdpp Require Import prelude gmap strings.
From S2P Require Import Prelude Layout Memory GlobalAlloc LinkedList FixedSizeBlock.

Section instance.
Context `{BuildProfile, NodeLayout}.

Definition ll_first_fit (h : LinkedListAllocator) (m : mem) (l : Layout)
    : outcome (option Z * LinkedListAllocator * mem) :=
  '(p, h', m') ← LinkedList.alloc l h m; Done (opt_of_word p, h', m').

Global Instance ll_heap : FallbackHeap LinkedListAllocator := {|
  heap_empty := LinkedList.new;
  heap_init := LinkedList.init;
  allocate_first_fit := ll_first_fit;
  heap_deallocate h m p l := LinkedList.dealloc p l h m;
|}.

Lemma word_of_opt_of_word w : word_of_opt (opt_of_word w) = w.
Proof. unfold opt_of_word. case_bool_decide; by subst. Qed.

Program Definition ll_heap_spec : @AllocSpec LinkedListAllocator heap_ops := {|
  as_inv := ll_inv;
  as_admits := ll_admits;
|}.
Next Obligation. intros hs he a m l1 l2 Hp Hi. by eapply ll_inv_perm. Qed.
Next Obligation. intros. by eapply ll_inv_sound. Qed.
Next Obligation. by intros hs he live a m (_ & ? & _). Qed.
Next Obligation.
  intros hs he live a m l Hi Hl.
  destruct (ll_inv_alloc _ _ _ _ _ _ Hi Hl) as (p & a' & m' & E & Hr).
  exists p, a', m'. split; [|done]. cbn. unfold ll_first_fit. run E.
  by rewrite word_of_opt_of_word.
Qed.
Next Obligation. intros hs he live a m b Hi. by apply ll_inv_dealloc. Qed.
Next Obligation. intros. by eapply ll_inv_write. Qed.

Global Program Instance ll_heap_laws : FallbackLaws LinkedListAllocator := {|
  fallback_spec := ll_heap_spec;
|}.
Next Obligation. intros l Hv _ Hs. by split. Qed.
Next Obligation.
  intros m hs sz ??? Hle Hm.
  destruct (ll_init_inv m hs sz) as (h & m' & E & _ & Hi); try done.
  { unfold heap_bounds. lia. }
  eauto.
Qed.

End instance.

(** ** Witnesses for the properties of the fixed-size block allocator

    A heap of 256 bytes at 4096, and the same heap with one block of 16 bytes live. *)

#[local] Existing Instances dev_profile size_first_layout.

Abbreviation fsb := (FixedSizeBlockAllocator LinkedListAllocator).

Definition fsb0 : fsb := mkFSB (replicate 9 None) small_ll.
Definition layout_16 : Layout := mkLayout 16 8.
Definition fsb1 : fsb := mkFSB (replicate 9 None) (mkLL (mkNode 0 (Some 4112))).
Definition mem1 : mem := <[4120 := 0]> (<[4112 := 240]> small_mem).

Lemma fsb0_init :
  FixedSizeBlock.init (Heap := LinkedListAllocator) FixedSizeBlock.new (heap_words 4096 32) 4096 256
  = Done (fsb0, small_mem).
Proof. by vm_compute. Qed.

Lemma fsb0_alloc : FixedSizeBlock.alloc layout_16 fsb0 small_mem = Done (4096, fsb1, mem1).
Proof. by vm_compute. Qed.

Lemma layout_16_admits : fsb_admits layout_16.
Proof. split; [by vm_compute|]. split; [done|]. vm_compute. by intros ?. Qed.

Lemma fsb0_inv : fsb_inv 4096 (4096 + 256) [] fsb0 small_mem.
Proof.
  destruct (fsb_init_inv (Heap := LinkedListAllocator) (heap_words 4096 32) 4096 256)
    as (a & m & E & _ & Hi); [by exists 512|lia..|exact small_mapped|].
  rewrite fsb0_init in E. by simplify_eq.
Qed.

Lemma fsb1_inv : fsb_inv 4096 (4096 + 256) [mkBlock 4096 layout_16] fsb1 mem1.
Proof.
  destruct (fsb_inv_alloc _ _ _ _ _ _ fsb0_inv layout_16_admits) as (p & a & m & E & _ & Hi).
  rewrite fsb0_alloc in E. by simplify_eq.
Qed.

Lemma fsb_client_safe_witness :
  client_safe 4096 (4096 + 256) ([mkBlock 4096 layout_16], fsb1, mem1).
Proof.
  destruct (fsb_client_safe 4096 256 (heap_words 4096 32)) as (a & m0 & E & Hsafe);
    [by exists 512|lia|lia|lia|exact small_mapped|].
  assert (Done (a, m0) = Done (fsb0, small_mem)) as [= -> ->]
    by (rewrite <-E; exact fsb0_init).
  apply Hsafe. eapply rtc_l; [|apply rtc_refl].
  eapply step_alloc; [exact layout_16_admits|exact fsb0_alloc|done].
Defined.

Lemma fsb_dealloc_alloc_reuses_witness :
  ∃ self1 m1 m2,
    FixedSizeBlock.dealloc 4096 layout_16 fsb1 mem1 = Done (self1, m1) ∧
    FixedSizeBlock.alloc layout_16 self1 m1 = Done (4096, fsb1, m2) ∧
    m2 = <[4096 := 0]> mem1.
Proof.
  exact (fsb_dealloc_alloc_reuses _ _ _ _ _ _ layout_16 1 fsb1_inv layout_16_admits
           eq_refl eq_refl).
Defined.
