(* ===== verification/Vga.v ===== *)
(** * The VGA text buffer (src/src/vga_buffer.rs)

    The writer, its 25 x 80 buffer of screen characters and the loops that scroll
    and clear it, with the bounds checks of Rust's array indexing.  [Terminal] is
    the abstract view: a text is laid out in lines and the screen shows the last
    rows of everything printed. *)

From stdpp Require Import prelude gmap strings.
From S2P Require Import Prelude.

(** ** Colours *)

Inductive Color :=
| Black | Blue | Green | Cyan | Red | Magenta | Brown | LightGray
| DarkGray | LightBlue | LightGreen | LightCyan | LightRed | Pink | Yellow | White.

Global Instance Color_eq_dec : EqDecision Color.
Proof. solve_decision. Defined.

(** [color as u8] *)
Definition color_u8 (c : Color) : Z :=
  match c with
  | Black => 0 | Blue => 1 | Green => 2 | Cyan => 3 | Red => 4 | Magenta => 5
  | Brown => 6 | LightGray => 7 | DarkGray => 8 | LightBlue => 9 | LightGreen => 10
  | LightCyan => 11 | LightRed => 12 | Pink => 13 | Yellow => 14 | White => 15
  end.

(** [ColorCode(u8)] *)
Record ColorCode := mkColorCode { code : Z }.

Global Instance ColorCode_eq_dec : EqDecision ColorCode.
Proof. solve_decision. Defined.

(** [(background as u8) << 4 | (foreground as u8)]; [<<] drops the bits above 8. *)
Definition ColorCode_new (foreground background : Color) : ColorCode :=
  mkColorCode
    (Z.lor (Z.land (Z.shiftl (color_u8 background) 4) 255) (color_u8 foreground)).

(** ** The buffer *)

Record ScreenChar := mkScreenChar { ascii_character : Z; color_code : ColorCode }.

Global Instance ScreenChar_eq_dec : EqDecision ScreenChar.
Proof. solve_decision. Defined.

Definition BUFFER_HEIGHT : nat := 25.
Definition BUFFER_WIDTH : nat := 80.

Record Buffer := mkBuffer { chars : list (list ScreenChar) }.

Definition out_of_bounds : string := "index out of bounds".

(** [buffer.chars[row][col].read()] *)
Definition read_char (b : Buffer) (row col : nat) : outcome ScreenChar :=
  r ← expect out_of_bounds (chars b !! row); expect out_of_bounds (r !! col).

(** [buffer.chars[row][col].write(c)] *)
Definition write_char (b : Buffer) (row col : nat) (c : ScreenChar) : outcome Buffer :=
  r ← expect out_of_bounds (chars b !! row);
  _ ← expect out_of_bounds (r !! col);
  Done (mkBuffer (<[row := <[col := c]> r]> (chars b))).

(** ** The writer *)

Record Writer := mkWriter {
  column_position : Z;
  w_color_code : ColorCode;
  buffer : Buffer;
}.

Definition newline : Z := 10.
Definition space : Z := 32.

Section writer.
Context `{BuildProfile}.

Definition clear_row (self : Writer) (row : nat) : outcome Writer :=
  let blank := mkScreenChar space (w_color_code self) in
  b ← for_each (seq 0 BUFFER_WIDTH) (λ col b, write_char b row col blank) (buffer self);
  Done (mkWriter (column_position self) (w_color_code self) b).

Definition new_line (self : Writer) : outcome Writer :=
  b ← for_each (seq 1 (BUFFER_HEIGHT - 1)) (λ row b,
        for_each (seq 0 BUFFER_WIDTH) (λ col b,
          character ← read_char b row col;
          write_char b (row - 1) col character) b) (buffer self);
  w ← clear_row (mkWriter (column_position self) (w_color_code self) b) (BUFFER_HEIGHT - 1);
  Done (mkWriter 0 (w_color_code w) (buffer w)).

Definition write_byte (self : Writer) (byte : Z) : outcome Writer :=
  if bool_decide (byte = newline) then new_line self
  else
    self ← (if bool_decide (column_position self >= Z.of_nat BUFFER_WIDTH)
            then new_line self else Done self);
    let row := (BUFFER_HEIGHT - 1)%nat in
    let col := Z.to_nat (column_position self) in
    b ← write_char (buffer self) row col (mkScreenChar byte (w_color_code self));
    c ← usize_add (column_position self) 1;
    Done (mkWriter c (w_color_code self) b).

(** Printable ASCII and newline are kept, everything else becomes a square. *)
Definition printable (byte : Z) : bool :=
  bool_decide (32 ≤ byte ≤ 126 ∨ byte = newline).
Definition sanitize (byte : Z) : Z := if printable byte then byte else 254.

Definition write_string (self : Writer) (s : list Z) : outcome Writer :=
  for_each s (λ byte w,
    if printable byte then write_byte w byte else write_byte w 254) self.

(** [fmt::Write::write_str] always returns [Ok]. *)
Definition write_str (self : Writer) (s : list Z) : outcome (Writer * (unit + unit)) :=
  w ← write_string self s; Done (w, inl ()).

(** [write_fmt] hands the pieces of the formatted text to [write_str] one by one and
    stops at the first error. *)
Fixpoint write_fmt (self : Writer) (pieces : list (list Z)) : outcome (Writer * (unit + unit)) :=
  match pieces with
  | [] => Done (self, inl ())
  | piece :: pieces' =>
      '(w, r) ← write_str self piece;
      match r with
      | inl _ => write_fmt w pieces'
      | inr e => Done (w, inr e)
      end
  end.

(** The body of [_print]: [write_fmt(args).unwrap()] on the locked writer. *)
Definition print_body (self : Writer) (args : list (list Z)) : outcome Writer :=
  '(w, r) ← write_fmt self args;
  match r with
  | inl _ => Done w
  | inr _ => Panicked "called `Result::unwrap()` on an `Err` value"
  end.

End writer.

(** The writer that [WRITER] starts with; the buffer is what is on the screen. *)
Definition WRITER (screen : Buffer) : Writer :=
  {| column_position := 0; w_color_code := ColorCode_new Yellow Black; buffer := screen |}.

(** ** Well-formed writers *)

Definition row_wf (r : list ScreenChar) : Prop := length r = BUFFER_WIDTH.
Definition rows_wf (rows : list (list ScreenChar)) : Prop :=
  length rows = BUFFER_HEIGHT ∧ Forall row_wf rows.
Definition writer_wf (w : Writer) : Prop :=
  rows_wf (chars (buffer w)) ∧ 0 ≤ column_position w ≤ Z.of_nat BUFFER_WIDTH.

Global Instance rows_wf_dec rows : Decision (rows_wf rows).
Proof. unfold rows_wf, row_wf. apply _. Defined.

Definition blank_row (c : ColorCode) : list ScreenChar :=
  replicate BUFFER_WIDTH (mkScreenChar space c).

(** ** The loops *)

(** Overwriting the first element after a prefix. *)
Lemma insert_frontier {A} (l1 r : list A) x :
  (length l1 < length r)%nat →
  <[length l1 := x]> (l1 ++ drop (length l1) r) = (l1 ++ [x]) ++ drop (S (length l1)) r.
Proof.
  intros Hlt. destruct (lookup_lt_is_Some_2 r (length l1) Hlt) as [y Hy].
  rewrite (drop_S r y) by done.
  rewrite <-(Nat.add_0_r (length l1)) at 1. rewrite insert_app_r. simpl.
  by rewrite <-app_assoc.
Qed.

Lemma seq_split n m l1 x l2 :
  seq n m = l1 ++ x :: l2 → x = (n + length l1)%nat ∧ (length l1 < m)%nat.
Proof.
  intros E. assert (seq n m !! length l1 = Some x) as Hx.
  { rewrite E, lookup_app_r, Nat.sub_diag by done. done. }
  apply lookup_seq in Hx as [-> ?]. done.
Qed.

Lemma write_char_Done (rows : list (list ScreenChar)) row r col c :
  rows !! row = Some r → (col < length r)%nat →
  write_char (mkBuffer rows) row col c = Done (mkBuffer (<[row := <[col := c]> r]> rows)).
Proof.
  intros Hr [y Hy]%lookup_lt_is_Some_2. unfold write_char. simpl. rewrite Hr. simpl.
  by rewrite Hy.
Qed.

(** Filling a row column by column. *)
Lemma fill_row_spec rows row r (f : nat → ScreenChar) n :
  rows !! row = Some r → n = length r →
  for_each (seq 0 n) (λ col b, write_char b row col (f col)) (mkBuffer rows) =
  Done (mkBuffer (<[row := f <$> seq 0 n]> rows)).
Proof.
  intros Hr Hn.
  destruct (for_each_inv (λ l1 b, b = mkBuffer (<[row := (f <$> l1) ++ drop (length l1) r]> rows))
    (seq 0 n) (λ col b, write_char b row col (f col)) (mkBuffer rows)) as (b & E & Hb).
  - intros l1 col l2 b El ->. apply seq_split in El as [-> Hlt]. simpl plus.
    eexists. split.
    + apply write_char_Done.
      * apply list_lookup_insert_eq. by eapply lookup_lt_Some.
      * rewrite length_app, length_fmap, length_drop. lia.
    + f_equal. rewrite list_insert_insert_eq. f_equal.
      pose proof (insert_frontier (f <$> l1) r (f (length l1))) as Hi.
      rewrite length_fmap in Hi. rewrite Hi by lia.
      rewrite fmap_app, length_app. simpl. by rewrite Nat.add_1_r.
  - f_equal. simpl. by rewrite list_insert_id.
  - rewrite E, Hb. rewrite drop_ge by (rewrite length_seq; lia). by rewrite app_nil_r.
Qed.

Section writer_proofs.
Context `{BuildProfile}.
Implicit Types (w : Writer).

Lemma clear_row_spec w row :
  rows_wf (chars (buffer w)) → (row < BUFFER_HEIGHT)%nat →
  clear_row w row = Done (mkWriter (column_position w) (w_color_code w)
    (mkBuffer (<[row := blank_row (w_color_code w)]> (chars (buffer w))))).
Proof.
  intros [Hlen Hf] Hrow. rewrite <-Hlen in Hrow.
  destruct (lookup_lt_is_Some_2 _ _ Hrow) as [r Hr].
  assert (length r = BUFFER_WIDTH) as Hrl by (by eapply Forall_lookup_1 in Hf).
  unfold clear_row. destruct (buffer w) as [rows]. cbn [chars] in *.
  rewrite (fill_row_spec rows row r (λ _, mkScreenChar space (w_color_code w))) by done.
  by run.
Qed.

(** Copying a row up column by column. *)
Lemma copy_row_spec rows k r0 r :
  rows !! k = Some r0 → rows !! S k = Some r → row_wf r0 → row_wf r →
  for_each (seq 0 BUFFER_WIDTH) (λ col b,
    character ← read_char b (S k) col; write_char b (S k - 1) col character)
    (mkBuffer rows) = Done (mkBuffer (<[k := r]> rows)).
Proof.
  intros H0 H1 Hl0 Hl1. unfold row_wf in *. replace (S k - 1)%nat with k by lia.
  destruct (for_each_inv (λ l1 b, b = mkBuffer (<[k := take (length l1) r ++ drop (length l1) r0]> rows))
    (seq 0 BUFFER_WIDTH) (λ col b,
      character ← read_char b (S k) col; write_char b k col character) (mkBuffer rows))
    as (b & E & Hb).
  - intros l1 col l2 b El ->. apply seq_split in El as [-> Hlt]. simpl plus.
    destruct (lookup_lt_is_Some_2 r (length l1)) as [c Hc]; [lia|].
    unfold read_char. cbn [chars]. rewrite list_lookup_insert_ne by lia.
    rewrite H1. cbn [expect]. run. rewrite Hc. cbn [expect]. run.
    assert (length (take (length l1) r) = length l1) as Htl by (rewrite length_take; lia).
    eexists. split.
    + apply write_char_Done.
      * apply list_lookup_insert_eq. by eapply lookup_lt_Some.
      * rewrite length_app, length_drop. lia.
    + f_equal. rewrite list_insert_insert_eq. f_equal.
      pose proof (insert_frontier (take (length l1) r) r0 c) as Hi.
      rewrite Htl in Hi. rewrite Hi by lia. rewrite length_app. simpl length.
      rewrite Nat.add_1_r. by rewrite <-take_S_r.
  - f_equal. simpl. by rewrite list_insert_id.
  - rewrite E, Hb. rewrite length_seq, take_ge, drop_ge, app_nil_r by lia. done.
Qed.

(** Scrolling moves every row one up and leaves a blank last row. *)
Lemma new_line_spec w :
  rows_wf (chars (buffer w)) →
  new_line w = Done (mkWriter 0 (w_color_code w)
    (mkBuffer (tail (chars (buffer w)) ++ [blank_row (w_color_code w)]))).
Proof.
  intros [Hlen Hf]. unfold new_line. destruct (buffer w) as [rows] eqn:Eb. cbn [chars] in *.
  set (body := λ (row : nat) (b : Buffer), for_each (seq 0 BUFFER_WIDTH) (λ col b,
      character ← read_char b row col; write_char b (row - 1) col character) b).
  destruct (for_each_inv (λ l1 b,
      b = mkBuffer (take (length l1) (tail rows) ++ drop (length l1) rows))
    (seq 1 (BUFFER_HEIGHT - 1)) body (mkBuffer rows)) as (b & E & Hb).
  - intros l1 row l2 b El ->. apply seq_split in El as [-> Hlt].
    unfold BUFFER_HEIGHT in *. set (k := length l1) in *.
    destruct (lookup_lt_is_Some_2 rows k) as [r0 Hr0]; [lia|].
    destruct (lookup_lt_is_Some_2 rows (S k)) as [r Hr]; [lia|].
    assert (length (take k (tail rows)) = k) as Htl.
    { rewrite length_take. destruct rows; simpl in *; lia. }
    unfold body. simpl plus. eexists. split.
    + apply (copy_row_spec _ k r0 r).
      * rewrite lookup_app_r, Htl, Nat.sub_diag by lia. by rewrite lookup_drop, Nat.add_0_r.
      * rewrite lookup_app_r, Htl by lia. rewrite lookup_drop.
        by replace (k + (S k - k))%nat with (S k) by lia.
      * by eapply Forall_lookup_1 in Hf.
      * by eapply Forall_lookup_1 in Hf.
    + f_equal. pose proof (insert_frontier (take k (tail rows)) rows r) as Hi.
      rewrite Htl in Hi. rewrite Hi by lia. rewrite length_app. simpl length. fold k.
      rewrite Nat.add_1_r. rewrite <-take_S_r; [done|].
      rewrite lookup_tail. done.
  - done.
  - subst b. run E.
    rewrite length_seq. rewrite clear_row_spec; cbn [buffer chars w_color_code column_position].
    + run. do 3 f_equal. cbn [buffer chars]. unfold BUFFER_HEIGHT in *.
      destruct rows as [|r0 rows]; [done|]. cbn [tail]. simpl in Hlen. injection Hlen as Hlen.
      rewrite take_ge by lia.
      rewrite (insert_app_r_alt rows) by lia.
      f_equal. rewrite Hlen. change (25 - 1 - 24)%nat with 0%nat.
      destruct (drop (25 - 1) (r0 :: rows)) as [|x [|y l]] eqn:Hd;
        apply (f_equal length) in Hd; rewrite length_drop in Hd;
        rewrite ?length_cons, ?Hlen in Hd; simpl in Hd; (done || lia).
    + split.
      * assert (length (tail rows) = 24)%nat as Ht
          by (unfold BUFFER_HEIGHT in *; destruct rows; simpl in *; lia).
        rewrite length_app, length_take, length_drop, Ht, Hlen. done.
      * apply Forall_app. split; [apply Forall_take|by apply Forall_drop].
        destruct rows; [done|]. by apply Forall_cons in Hf as [_ ?].
    + unfold BUFFER_HEIGHT. lia.
Qed.

End writer_proofs.

(** ** The abstract terminal *)
Module Terminal.

Abbreviation line := (list Z).

(** Printing a byte: a newline ends the line, and so does a byte that no longer fits
    (the wrap happens only when the next byte arrives). *)
Definition feed (st : list line * line) (b : Z) : list line * line :=
  if bool_decide (b = newline) then (st.1 ++ [st.2], [])
  else if bool_decide (BUFFER_WIDTH ≤ length st.2)%nat then (st.1 ++ [st.2], [b])
  else (st.1, st.2 ++ [b]).

Definition feed_all (s : list Z) (st : list line * line) : list line * line :=
  fold_left feed s st.

(** Declarative layout: split the text at the newlines, then cut each line into
    pieces of the screen's width. *)
Fixpoint split_lines (s : list Z) : list line :=
  match s with
  | [] => [[]]
  | b :: s' =>
      if bool_decide (b = newline) then [] :: split_lines s'
      else match split_lines s' with
           | l :: ls => (b :: l) :: ls
           | [] => [[b]]
           end
  end.

Fixpoint chunks_fuel (fuel : nat) (l : line) : list line :=
  match fuel with
  | O => [l]
  | S fuel' =>
      if bool_decide (length l ≤ BUFFER_WIDTH)%nat then [l]
      else take BUFFER_WIDTH l :: chunks_fuel fuel' (drop BUFFER_WIDTH l)
  end.
Definition chunks (l : line) : list line := chunks_fuel (length l) l.

Definition layout (s : list Z) : list line := split_lines s ≫= chunks.

(** A line as it appears on the screen. *)
Definition pad (c : ColorCode) (l : line) : list ScreenChar :=
  ((λ b, mkScreenChar b c) <$> l) ++
  replicate (BUFFER_WIDTH - length l) (mkScreenChar space c).

(** The last rows of what was on the screen followed by what was printed. *)
Definition screen (base : list (list ScreenChar)) (c : ColorCode) (ls : list line)
    : list (list ScreenChar) :=
  let rows := base ++ (pad c <$> ls) in drop (length rows - BUFFER_HEIGHT) rows.

End Terminal.
Import Terminal.

(** ** The writer implements the terminal *)

(** [base] are the 24 rows above the line being printed when printing began. *)
Definition sim (base : list (list ScreenChar)) (w : Writer) (st : list line * line) : Prop :=
  length base = (BUFFER_HEIGHT - 1)%nat ∧ Forall row_wf base ∧
  Forall (λ l, length l ≤ BUFFER_WIDTH)%nat st.1 ∧
  (length st.2 ≤ BUFFER_WIDTH)%nat ∧
  column_position w = Z.of_nat (length st.2) ∧
  chars (buffer w) =
    drop (length st.1) (base ++ (pad (w_color_code w) <$> st.1)) ++
    [pad (w_color_code w) st.2].

Lemma pad_wf c l : (length l ≤ BUFFER_WIDTH)%nat → row_wf (pad c l).
Proof.
  intros. unfold row_wf, pad. rewrite length_app, length_fmap, length_replicate. lia.
Qed.

Lemma pad_write c l b :
  (length l < BUFFER_WIDTH)%nat →
  <[length l := mkScreenChar b c]> (pad c l) = pad c (l ++ [b]).
Proof.
  intros Hl. unfold pad. rewrite <-(length_fmap (λ b, mkScreenChar b c) l) at 1.
  rewrite <-(Nat.add_0_r (length (_ <$> l))). rewrite insert_app_r.
  destruct (BUFFER_WIDTH - length l)%nat as [|n] eqn:E; [lia|]. simpl.
  rewrite fmap_app, <-app_assoc, length_app. simpl. do 3 f_equal. lia.
Qed.

Lemma sim_rows_wf base w st : sim base w st → rows_wf (chars (buffer w)).
Proof.
  intros (Hb & Hbf & Hf & Hc & _ & ->). split.
  - rewrite length_app, length_drop, length_app, length_fmap. simpl.
    unfold BUFFER_HEIGHT in *. lia.
  - apply Forall_app. split; [apply Forall_drop, Forall_app; split; [done|]|].
    + rewrite Forall_fmap. eapply Forall_impl; [exact Hf|]. intros. by apply pad_wf.
    + constructor; [by apply pad_wf|constructor].
Qed.

Lemma sim_screen base w st :
  sim base w st → chars (buffer w) = screen base (w_color_code w) (st.1 ++ [st.2]).
Proof.
  intros (Hb & _ & _ & _ & _ & ->). unfold screen.
  rewrite fmap_app, !length_app, !length_fmap, Hb. simpl length.
  unfold BUFFER_HEIGHT. replace (_ + _ - 25)%nat with (length st.1) by lia.
  rewrite (app_assoc base), (drop_app_le (base ++ _)); [done|].
  rewrite length_app, length_fmap. lia.
Qed.

Section sim_proofs.
Context `{BuildProfile}.

Lemma sim_new_line base w st :
  sim base w st →
  ∃ w', new_line w = Done w' ∧ sim base w' (st.1 ++ [st.2], []) ∧
        w_color_code w' = w_color_code w.
Proof.
  intros Hs. pose proof (sim_rows_wf _ _ _ Hs) as Hwf.
  destruct Hs as (Hb & Hbf & Hf & Hc & Hcol & Hch).
  eexists. split; [by apply new_line_spec|]. split; [|done]. split_and!; simpl; try done.
  - apply Forall_app. split; [done|]. by constructor.
  - lia.
  - rewrite Hch, fmap_app, length_app. simpl length. simpl fmap.
    set (X := base ++ _). rewrite app_assoc. fold X.
    assert (length st.1 < length X)%nat as HX.
    { unfold X. rewrite length_app, length_fmap. unfold BUFFER_HEIGHT in *. lia. }
    rewrite Nat.add_1_r, drop_app_le by lia.
    destruct (lookup_lt_is_Some_2 X (length st.1) HX) as [y Hy].
    rewrite (drop_S X y) by done. done.
Qed.

Lemma sim_put base w st b :
  sim base w st → b ≠ newline → (length st.2 < BUFFER_WIDTH)%nat →
  ∃ w', write_byte w b = Done w' ∧ sim base w' (st.1, st.2 ++ [b]) ∧
        w_color_code w' = w_color_code w.
Proof.
  intros Hs Hnl Hlt. pose proof (sim_rows_wf _ _ _ Hs) as Hwf.
  destruct Hs as (Hb & Hbf & Hf & Hc & Hcol & Hch).
  unfold write_byte. rewrite bool_decide_eq_false_2 by done.
  rewrite bool_decide_eq_false_2 by lia. run. rewrite Hcol, Nat2Z.id.
  set (Y := drop _ _) in Hch.
  assert (length Y = 24)%nat as HY.
  { unfold Y. rewrite length_drop, length_app, length_fmap. unfold BUFFER_HEIGHT in *. lia. }
  destruct (buffer w) as [rows] eqn:Eb. cbn [chars] in *. subst rows.
  rewrite (write_char_Done _ _ (pad (w_color_code w) st.2)).
  2: { unfold BUFFER_HEIGHT. rewrite lookup_app_r, HY by lia. done. }
  2: { rewrite pad_wf; lia. }
  run. rewrite usize_add_Done by (unfold BUFFER_WIDTH, usize_modulus in *; lia). run.
  eexists. split; [done|]. split; [|done]. split_and!; simpl; try done.
  - rewrite length_app. simpl. lia.
  - rewrite length_app. simpl. lia.
  - fold Y. rewrite pad_write by done.
    rewrite insert_app_r_alt, HY by (unfold BUFFER_HEIGHT; lia). done.
Qed.

Lemma sim_write_byte base w st b :
  sim base w st →
  ∃ w', write_byte w b = Done w' ∧ sim base w' (feed st b) ∧ w_color_code w' = w_color_code w.
Proof.
  intros Hs. unfold feed. case_bool_decide as Hnl.
  { unfold write_byte. rewrite bool_decide_eq_true_2 by done. by apply sim_new_line. }
  case_bool_decide as Hfull; [|by apply sim_put; [..|lia]].
  destruct (sim_new_line base w st Hs) as (w1 & E1 & Hs1 & Hc1).
  destruct (sim_put base w1 _ b Hs1 Hnl) as (w2 & E2 & Hs2 & Hc2); [simpl; unfold BUFFER_WIDTH; lia|].
  exists w2. split_and!; [|done|congruence]. rewrite <-E2. unfold write_byte.
  rewrite bool_decide_eq_false_2 by done.
  destruct Hs as (_ & _ & _ & _ & Hcol & _). destruct Hs1 as (_ & _ & _ & _ & Hcol1 & _).
  rewrite bool_decide_eq_true_2 by lia.
  rewrite (bool_decide_eq_false_2 (column_position w1 >= _))
    by (rewrite Hcol1; simpl; unfold BUFFER_WIDTH; lia).
  by run E1.
Qed.

Lemma write_string_step w b :
  (if printable b then write_byte w b else write_byte w 254) = write_byte w (sanitize b).
Proof. unfold sanitize. by destruct (printable b). Qed.

Lemma sim_write_string base w st s :
  sim base w st →
  ∃ w', write_string w s = Done w' ∧ sim base w' (feed_all (sanitize <$> s) st) ∧
        w_color_code w' = w_color_code w.
Proof.
  revert w st. induction s as [|b s IH]; intros w st Hs; [eauto|].
  destruct (sim_write_byte base w st (sanitize b) Hs) as (w1 & E1 & Hs1 & Hc1).
  destruct (IH w1 _ Hs1) as (w2 & E2 & Hs2 & Hc2).
  exists w2. split_and!; [|done|congruence].
  unfold write_string in *. cbn [for_each]. rewrite write_string_step. by run E1.
Qed.

(** Any well-formed writer accepts any byte. *)
Lemma write_byte_wf w b :
  writer_wf w →
  ∃ w', write_byte w b = Done w' ∧ writer_wf w' ∧ w_color_code w' = w_color_code w.
Proof.
  assert (∀ w, writer_wf w → ∃ w', new_line w = Done w' ∧ writer_wf w' ∧
    column_position w' = 0 ∧ w_color_code w' = w_color_code w) as Hnl.
  { intros w1 [Hr Hc]. eexists. split; [by apply new_line_spec|]. split_and!; [|done..].
    destruct Hr as [Hlen Hf]. split; [split|unfold BUFFER_WIDTH; simpl; lia]; simpl.
    - rewrite length_app. destruct (chars (buffer w1)); simpl in *; [done|].
      unfold BUFFER_HEIGHT in *. lia.
    - apply Forall_app. split; [|by constructor].
      destruct (chars (buffer w1)); [done|]. by apply Forall_cons in Hf as [_ ?]. }
  intros Hwf. unfold write_byte. case_bool_decide.
  { destruct (Hnl w Hwf) as (w' & ? & ? & ? & ?). eauto. }
  assert (∃ w1, (if bool_decide (column_position w >= Z.of_nat BUFFER_WIDTH)
    then new_line w else Done w) = Done w1 ∧ writer_wf w1 ∧
    column_position w1 < Z.of_nat BUFFER_WIDTH ∧ w_color_code w1 = w_color_code w)
    as (w1 & E & [[Hlen Hf] Hcol] & Hlt & Hcc).
  { case_bool_decide.
    - destruct (Hnl w Hwf) as (w' & ? & ? & Hz & ?). exists w'. rewrite Hz. done.
    - exists w. split_and!; [done..|lia|done]. }
  run E. destruct (lookup_lt_is_Some_2 (chars (buffer w1)) (BUFFER_HEIGHT - 1)) as [r Hr].
  { rewrite Hlen. unfold BUFFER_HEIGHT. lia. }
  assert (row_wf r) as Hrw by (by eapply Forall_lookup_1 in Hf).
  destruct (buffer w1) as [rows] eqn:Eb. cbn [chars] in *.
  rewrite (write_char_Done _ _ r) by (done || rewrite Hrw; lia). run.
  rewrite usize_add_Done by (unfold BUFFER_WIDTH, usize_modulus in *; lia). run.
  eexists. split_and!; [done| |done]. split; [split|simpl; lia]; simpl.
  - by rewrite length_insert.
  - apply Forall_insert; [done|]. unfold row_wf. by rewrite length_insert.
Qed.

Lemma write_string_wf w s :
  writer_wf w →
  ∃ w', write_string w s = Done w' ∧ writer_wf w' ∧ w_color_code w' = w_color_code w.
Proof.
  revert w. induction s as [|b s IH]; intros w Hs; [eauto|].
  destruct (write_byte_wf w (sanitize b) Hs) as (w1 & E1 & Hs1 & Hc1).
  destruct (IH w1 Hs1) as (w2 & E2 & Hs2 & Hc2).
  exists w2. split_and!; [|done|congruence].
  unfold write_string in *. cbn [for_each]. rewrite write_string_step. by run E1.
Qed.

(** After a newline the writer is a terminal on an empty line. *)
Lemma sim_after_newline w :
  rows_wf (chars (buffer w)) →
  ∃ w', write_byte w newline = Done w' ∧ sim (tail (chars (buffer w))) w' ([], []) ∧
        w_color_code w' = w_color_code w.
Proof.
  intros [Hlen Hf]. unfold write_byte. rewrite bool_decide_eq_true_2 by done.
  eexists. split; [by apply new_line_spec|]. split; [|done].
  unfold BUFFER_HEIGHT in Hlen. destruct (chars (buffer w)) as [|r rows]; [done|].
  simpl in *. apply Forall_cons in Hf as [_ Hf].
  split_and!; simpl; [unfold BUFFER_HEIGHT; lia|done|constructor|lia|done|].
  by rewrite app_nil_r, drop_0.
Qed.

End sim_proofs.

(** ** The layout of a text *)

Lemma chunks_fuel_enough n m l :
  (length l ≤ n)%nat → (length l ≤ m)%nat → chunks_fuel n l = chunks_fuel m l.
Proof.
  revert m l. induction n as [|n IH]; intros [|m] l Hn Hm; simpl; [done| | |].
  1,2: destruct l; simpl in *; [done|lia].
  case_bool_decide; [done|]. f_equal. unfold BUFFER_WIDTH in *.
  apply IH; rewrite length_drop; lia.
Qed.

Lemma chunks_unfold l :
  chunks l = if bool_decide (length l ≤ BUFFER_WIDTH)%nat then [l]
             else take BUFFER_WIDTH l :: chunks (drop BUFFER_WIDTH l).
Proof.
  unfold chunks. destruct l as [|b l]; [done|]. cbn [length chunks_fuel].
  case_bool_decide; [done|]. f_equal. apply chunks_fuel_enough; [|done].
  rewrite length_drop. simpl in *. unfold BUFFER_WIDTH in *. lia.
Qed.

Lemma chunks_short l : (length l ≤ BUFFER_WIDTH)%nat → chunks l = [l].
Proof. intros. rewrite chunks_unfold. by rewrite bool_decide_eq_true_2. Qed.

Lemma chunks_full l b l' :
  length l = BUFFER_WIDTH → chunks (l ++ b :: l') = l :: chunks (b :: l').
Proof.
  intros Hl. rewrite chunks_unfold. rewrite bool_decide_eq_false_2.
  - rewrite <-Hl at 1 2. by rewrite take_app_length, drop_app_length.
  - rewrite length_app. simpl. lia.
Qed.

Definition layout_from (cur : line) (s : list Z) : list line :=
  match split_lines s with
  | l :: ls => chunks (cur ++ l) ++ (ls ≫= chunks)
  | [] => chunks cur
  end.

Lemma split_lines_ne s : split_lines s ≠ [].
Proof.
  destruct s as [|b s]; simpl; [done|]. case_bool_decide; [done|].
  by destruct (split_lines s).
Qed.

Lemma split_lines_cons b s :
  b ≠ newline → ∃ l ls, split_lines s = l :: ls ∧ split_lines (b :: s) = (b :: l) :: ls.
Proof.
  intros Hb. cbn [split_lines]. rewrite bool_decide_eq_false_2 by done.
  destruct (split_lines s) as [|l ls] eqn:E; [|eauto]. by apply split_lines_ne in E.
Qed.

Lemma feed_all_layout s finished cur :
  (length cur ≤ BUFFER_WIDTH)%nat →
  (feed_all s (finished, cur)).1 ++ [(feed_all s (finished, cur)).2] =
  finished ++ layout_from cur s.
Proof.
  revert finished cur. induction s as [|b s IH]; intros finished cur Hc.
  { unfold layout_from. simpl. rewrite !app_nil_r. by rewrite chunks_short. }
  unfold feed_all in *. cbn [fold_left]. unfold feed at 2 4. cbn [fst snd].
  case_bool_decide as Hb.
  - rewrite IH by (simpl; lia). subst b. rewrite <-app_assoc. f_equal.
    unfold layout_from. cbn [split_lines]. rewrite bool_decide_eq_true_2 by done.
    rewrite app_nil_r, (chunks_short cur) by done. simpl. f_equal.
    destruct (split_lines s) eqn:E; [by apply split_lines_ne in E|done].
  - destruct (split_lines_cons b s Hb) as (l & ls & E1 & E2).
    case_bool_decide as Hfull.
    + rewrite IH by (simpl; unfold BUFFER_WIDTH; lia). rewrite <-app_assoc. f_equal.
      unfold layout_from. rewrite E1, E2. rewrite chunks_full by lia. done.
    + rewrite IH by (rewrite length_app; simpl; lia). f_equal.
      unfold layout_from. rewrite E1, E2. by rewrite <-app_assoc.
Qed.

Lemma feed_all_layout_nil s :
  (feed_all s ([], [])).1 ++ [(feed_all s ([], [])).2] = layout s.
Proof.
  rewrite feed_all_layout by (simpl; lia). unfold layout_from, layout. simpl.
  destruct (split_lines s) eqn:E; [by apply split_lines_ne in E|done].
Qed.

Lemma split_lines_newline s :
  newline ∉ s → split_lines (s ++ [newline]) = [s; []].
Proof.
  induction s as [|b s IH]; intros Hn; [done|]. apply not_elem_of_cons in Hn as [Hb Hn].
  cbn [app split_lines]. rewrite bool_decide_eq_false_2 by congruence. by rewrite IH.
Qed.

(** ** Properties *)

Section properties.
Context `{BuildProfile}.

Lemma for_each_app {A S} (l1 l2 : list A) (body : A → S → outcome S) s :
  for_each (l1 ++ l2) body s = (s' ← for_each l1 body s; for_each l2 body s').
Proof.
  revert s. induction l1 as [|x l1 IH]; intros s; [done|]. cbn [app for_each].
  destruct (body x s); cbn; [apply IH|done..].
Qed.

(** The pieces of a formatted text print like the whole text; no error arises. *)
Lemma print_body_concat w pieces :
  print_body w pieces = write_string w (concat pieces).
Proof.
  assert (∀ w, write_fmt w pieces =
    (w' ← write_string w (concat pieces); Done (w', inl ()))) as E.
  { induction pieces as [|p ps IH]; intros w1; [done|]. cbn [write_fmt concat].
    unfold write_str, write_string. rewrite for_each_app.
    destruct (for_each p _ w1); cbn; [apply IH|done..]. }
  unfold print_body. rewrite E. by destruct (write_string w (concat pieces)).
Qed.

Lemma terminal_after_newline w s :
  rows_wf (chars (buffer w)) →
  ∃ w', write_string w (newline :: s) = Done w' ∧ w_color_code w' = w_color_code w ∧
    chars (buffer w') =
      screen (tail (chars (buffer w))) (w_color_code w) (layout (sanitize <$> s)).
Proof.
  intros Hwf. destruct (sim_after_newline w Hwf) as (w1 & E1 & Hs1 & Hc1).
  destruct (sim_write_string _ _ _ s Hs1) as (w2 & E2 & Hs2 & Hc2).
  exists w2. split_and!; [|congruence|].
  - unfold write_string in *. cbn [for_each]. rewrite write_string_step.
    change (sanitize newline) with newline. by run E1.
  - rewrite (sim_screen _ _ _ Hs2), feed_all_layout_nil. congruence.
Qed.

(** C22: printing never fails: on a well-formed writer [_print] of any text, in any
    pieces, returns without a panic (no index out of bounds, no overflow, no error to
    unwrap), and keeps the writer well formed and its colour. *)
Theorem print_total w pieces :
  writer_wf w →
  ∃ w', print_body w pieces = Done w' ∧ writer_wf w' ∧ w_color_code w' = w_color_code w.
Proof. intros Hwf. rewrite print_body_concat. by apply write_string_wf. Qed.

(** C6: the writer refines the abstract terminal: after a newline and then any text, the
    screen shows the last 25 rows of the earlier rows followed by the text, with
    unprintable bytes as squares, broken at its newlines and at 80 columns. *)
Theorem print_refines_terminal w pieces :
  rows_wf (chars (buffer w)) →
  ∃ w', print_body w ([newline] :: pieces) = Done w' ∧
    chars (buffer w') = screen (tail (chars (buffer w))) (w_color_code w)
                          (layout (sanitize <$> concat pieces)).
Proof.
  intros Hwf. rewrite print_body_concat. cbn [concat app].
  destruct (terminal_after_newline w (concat pieces) Hwf) as (w' & E & _ & Hc). eauto.
Qed.

(** What [test_println_output] checks, for every printable text that fits on a line:
    after printing a newline, the text and a newline, the text is on the last but one row
    of the screen, character by character. *)
Lemma println_shows_text w s :
  rows_wf (chars (buffer w)) → Forall (λ b, 32 ≤ b ≤ 126) s → (length s ≤ BUFFER_WIDTH)%nat →
  ∃ w', print_body w [[newline]; s; [newline]] = Done w' ∧
    ∀ i c, s !! i = Some c →
      read_char (buffer w') (BUFFER_HEIGHT - 2) i = Done (mkScreenChar c (w_color_code w)).
Proof.
  intros Hwf Hs Hlen. rewrite print_body_concat. cbn [concat app]. rewrite ?app_nil_r.
  destruct (terminal_after_newline w (s ++ [newline]) Hwf) as (w' & E & _ & Hc).
  exists w'. split; [done|]. intros i c Hi.
  assert (sanitize <$> s = s) as Hsan.
  { clear -Hs. induction Hs as [|b s Hb Hs IH]; [done|]. rewrite fmap_cons, IH. f_equal.
    unfold sanitize, printable. by rewrite bool_decide_eq_true_2 by lia. }
  assert (newline ∉ s) as Hnn.
  { intros Hin. rewrite Forall_forall in Hs. specialize (Hs _ Hin). unfold newline in Hs. lia. }
  rewrite fmap_app, Hsan in Hc. change (sanitize <$> [newline]) with [newline] in Hc.
  unfold layout in Hc. rewrite split_lines_newline in Hc by done. cbn [mbind list_bind] in Hc.
  rewrite !chunks_short in Hc by (simpl; unfold BUFFER_WIDTH in *; lia).
  unfold screen in Hc. cbn [app fmap list_fmap] in Hc. destruct Hwf as [Hh _].
  set (base := tail (chars (buffer w))) in *.
  assert (length base = 24)%nat as Hbl.
  { unfold base. destruct (chars (buffer w)); simpl in *; unfold BUFFER_HEIGHT in *; lia. }
  rewrite length_app, Hbl in Hc. cbn [length] in Hc. unfold BUFFER_HEIGHT in Hc. simpl in Hc.
  unfold read_char, BUFFER_HEIGHT. rewrite Hc, lookup_drop.
  rewrite lookup_app_r, Hbl by lia. cbn [Nat.sub Nat.add lookup list_lookup expect]. run.
  unfold pad. rewrite lookup_app_l by (rewrite length_fmap; by eapply lookup_lt_Some).
  by rewrite list_lookup_fmap, Hi.
Qed.

(** [new_line] on every well-formed screen: row [i + 1] moves to row [i], the last
    row becomes blank in the writer's colour, and the column is reset. *)
Lemma new_line_scrolls w :
  rows_wf (chars (buffer w)) →
  ∃ w', new_line w = Done w' ∧ column_position w' = 0 ∧ w_color_code w' = w_color_code w ∧
    rows_wf (chars (buffer w')) ∧
    (∀ i, (i < BUFFER_HEIGHT - 1)%nat →
       chars (buffer w') !! i = chars (buffer w) !! S i) ∧
    chars (buffer w') !! (BUFFER_HEIGHT - 1)%nat = Some (blank_row (w_color_code w)).
Proof.
  intros Hwf. pose proof Hwf as [Hlen Hf]. eexists. split; [by apply new_line_spec|].
  cbn [column_position w_color_code buffer chars]. unfold BUFFER_HEIGHT in *.
  destruct (chars (buffer w)) as [|r rows]; [done|]. simpl in Hlen. injection Hlen as Hlen.
  apply Forall_cons in Hf as [_ Hf]. cbn [tail]. split_and!; [done|done|split| |].
  - rewrite length_app, Hlen. done.
  - apply Forall_app. split; [done|]. constructor; [|constructor]. by vm_compute.
  - intros i Hi. rewrite lookup_app_l by lia. done.
  - rewrite lookup_app_r, Hlen by lia. done.
Qed.

End properties.

(** Witnesses, on a screen of blanks. *)
Definition blank_screen : Writer :=
  WRITER (mkBuffer (replicate BUFFER_HEIGHT (blank_row (ColorCode_new White Blue)))).

Lemma blank_screen_wf : writer_wf blank_screen.
Proof.
  split; [split; [done|]|unfold blank_screen, BUFFER_WIDTH; simpl; lia].
  repeat constructor.
Qed.

Lemma print_total_witness :
  ∃ w', @print_body dev_profile blank_screen [[72; 105]; [10; 7]] = Done w' ∧ writer_wf w' ∧
    w_color_code w' = w_color_code blank_screen.
Proof. exact (@print_total dev_profile _ _ blank_screen_wf). Defined.

Lemma print_refines_terminal_witness :
  ∃ w', @print_body dev_profile blank_screen ([newline] :: [[72; 105]]) = Done w' ∧
    chars (buffer w') = screen (tail (chars (buffer blank_screen)))
      (w_color_code blank_screen) (layout (sanitize <$> concat [[72; 105]])).
Proof. exact (@print_refines_terminal dev_profile _ _ (proj1 blank_screen_wf)). Defined.

Lemma new_line_scrolls_witness :
  ∃ w', new_line blank_screen = Done w' ∧ column_position w' = 0 ∧
    w_color_code w' = w_color_code blank_screen ∧ rows_wf (chars (buffer w')) ∧
    (∀ i, (i < BUFFER_HEIGHT - 1)%nat →
       chars (buffer w') !! i = chars (buffer blank_screen) !! S i) ∧
    chars (buffer w') !! (BUFFER_HEIGHT - 1)%nat = Some (blank_row (w_color_code blank_screen)).
Proof. exact (new_line_scrolls _ (proj1 blank_screen_wf)). Defined.
