(* ===== verification/Frames.v ===== *)
(** * Physical frames (src/src/memory.rs)

    The frame allocators of the kernel.  The address types come from the [x86_64]
    crate, outside the repository: [X86Phys] is its interface and [X86PhysLaws] the
    documented behaviour the kernel relies on.  A frame is represented by its start
    address. *)

From stdpp Require Import prelude gmap strings.
From S2P Require Import Prelude Memory.

Definition frame_size : Z := 4096.

(** [PhysAddr::new] and [PhysFrame::containing_address] *)
Class X86Phys := {
  phys_addr_new : Z → outcome Z;
  phys_containing_address : Z → Z;
}.

(** A physical address has at most 52 bits; a frame contains the addresses that
    agree with its start up to the 12 low bits. *)
Class X86PhysLaws `{X86Phys} := {
  phys_addr_new_ok a : 0 ≤ a < 2 ^ 52 → phys_addr_new a = Done a;
  phys_containing_address_spec a :
    0 ≤ a → phys_containing_address a = a - a mod frame_size;
}.

(** [FrameAllocator<Size4KiB>] *)
Class FrameAllocator (F : Type) := {
  allocate_frame : F → outcome (option Z * F);
}.

(** ** The allocator that never has a frame *)

Inductive EmptyFrameAllocator := mkEmptyFrameAllocator.

Definition empty_allocate_frame (self : EmptyFrameAllocator)
    : outcome (option Z * EmptyFrameAllocator) := Done (None, self).

Global Instance empty_frame_allocator : FrameAllocator EmptyFrameAllocator :=
  {| allocate_frame := empty_allocate_frame |}.

(** ** The allocator over the bootloader's memory map *)

Inductive MemoryRegionType := Usable | NotUsable (kind : Z).

Global Instance MemoryRegionType_eq_dec : EqDecision MemoryRegionType.
Proof. solve_decision. Defined.

(** A region of the memory map, with [range.start_addr()] and [range.end_addr()]. *)
Record MemoryRegion := mkRegion {
  start_addr : Z;
  end_addr : Z;
  region_type : MemoryRegionType;
}.

Record BootInfoFrameAllocator := mkBoot {
  memory_map : list MemoryRegion;
  next : Z;
}.

Definition init (memory_map : list MemoryRegion) : BootInfoFrameAllocator :=
  {| memory_map := memory_map; next := 0 |}.

(** [(start..end).step_by(4096)] *)
Definition step_by (lo hi step : Z) : list Z :=
  (λ i, lo + step * i) <$> seqZ 0 ((hi - lo + step - 1) / step).

(** [Iterator::nth] on a mapped iterator: the closure runs on the skipped elements
    too. *)
Fixpoint nth_map {A B} (f : A → outcome B) (l : list A) (n : nat) : outcome (option B) :=
  match l, n with
  | [], _ => Done None
  | x :: _, O => y ← f x; Done (Some y)
  | x :: l', S n' => _ ← f x; nth_map f l' n'
  end.

Definition frame_addresses (self : BootInfoFrameAllocator) : list Z :=
  let regions := memory_map self in
  let usable_regions := filter (λ r, region_type r = Usable) regions in
  usable_regions ≫= λ r, step_by (start_addr r) (end_addr r) 4096.

Section frame_allocator.
Context `{BuildProfile, X86Phys}.

(** [usable_frames().nth(n)]; the last [map] of [usable_frames] is the closure. *)
Definition usable_frames_nth (self : BootInfoFrameAllocator) (n : nat) : outcome (option Z) :=
  nth_map (λ addr, a ← phys_addr_new addr; Done (phys_containing_address a))
    (frame_addresses self) n.

Definition boot_allocate_frame (self : BootInfoFrameAllocator)
    : outcome (option Z * BootInfoFrameAllocator) :=
  frame ← usable_frames_nth self (Z.to_nat (next self));
  n ← usize_add (next self) 1;
  Done (frame, mkBoot (memory_map self) n).

Global Instance boot_frame_allocator : FrameAllocator BootInfoFrameAllocator :=
  {| allocate_frame := boot_allocate_frame |}.

End frame_allocator.

(** [k] allocations in a row. *)
Fixpoint allocate_frames `{FrameAllocator F} (k : nat) (fa : F)
    : outcome (list (option Z) * F) :=
  match k with
  | O => Done ([], fa)
  | S k' =>
      '(o, fa1) ← allocate_frame fa;
      '(os, fa2) ← allocate_frames k' fa1;
      Done (o :: os, fa2)
  end.

(** ** Memory maps the bootloader builds

    Usable regions are page aligned, do not overlap and lie below the 52-bit limit. *)
Definition region_ok (r : MemoryRegion) : Prop :=
  0 ≤ start_addr r ∧ start_addr r ≤ end_addr r ∧ end_addr r ≤ 2 ^ 52 ∧
  (frame_size | start_addr r) ∧ (frame_size | end_addr r).

Definition usable (mm : list MemoryRegion) : list MemoryRegion :=
  filter (λ r, region_type r = Usable) mm.

Definition map_ok (mm : list MemoryRegion) : Prop :=
  Forall region_ok (usable mm) ∧
  all_disjoint ((λ r, (start_addr r, end_addr r - start_addr r)) <$> usable mm).

Lemma elem_of_step_by lo hi a :
  a ∈ step_by lo hi 4096 ↔ ∃ i, 0 ≤ i ∧ a = lo + 4096 * i ∧ a < hi.
Proof.
  unfold step_by. rewrite list_elem_of_fmap. setoid_rewrite elem_of_seqZ.
  split.
  - intros (i & -> & Hi). exists i. split_and!; [lia|done|].
    assert (4096 * i < hi - lo); [|lia].
    pose proof (Z.mul_div_le (hi - lo + 4096 - 1) 4096 ltac:(lia)). lia.
  - intros (i & ? & -> & Hlt). exists i. split; [done|]. split; [done|].
    assert (i + 1 ≤ (hi - lo + 4096 - 1) / 4096); [|lia].
    apply Z.div_le_lower_bound; lia.
Qed.

Lemma NoDup_step_by lo hi : NoDup (step_by lo hi 4096).
Proof. unfold step_by. apply NoDup_fmap_2; [|apply NoDup_seqZ]. intros x y. lia. Qed.

Lemma NoDup_bind_apart {A} (f : A → list Z) (l : list A) :
  Forall (λ x, NoDup (f x)) l →
  ForallOrdPairs (λ x y, ∀ a, a ∈ f x → a ∉ f y) l → NoDup (l ≫= f).
Proof.
  intros Hnd Hp. induction Hp as [|x l Hx Hp IH]; simpl; [constructor|].
  apply Forall_cons in Hnd as [Hnx Hnd]. apply NoDup_app. split_and!; [done| |by apply IH].
  intros a Ha Hin. apply list_elem_of_bind in Hin as (y & Hy & Hyl).
  rewrite Forall_forall in Hx. by eapply Hx.
Qed.

Lemma frame_addresses_facts self a :
  map_ok (memory_map self) → a ∈ frame_addresses self →
  0 ≤ a < 2 ^ 52 ∧ (frame_size | a) ∧
  ∃ r, r ∈ usable (memory_map self) ∧ start_addr r ≤ a ∧ a + frame_size ≤ end_addr r.
Proof.
  intros [Hok _] Ha. unfold frame_addresses in Ha.
  apply list_elem_of_bind in Ha as (r & (i & Hi & -> & Hlt)%elem_of_step_by & Hr).
  rewrite Forall_forall in Hok. destruct (Hok r Hr) as (? & ? & ? & [s Hs] & [e He]).
  unfold frame_size in *. split_and!; [lia|lia|exists (s + i); lia|].
  exists r. split_and!; [done|lia|]. lia.
Qed.

Lemma NoDup_frame_addresses self : map_ok (memory_map self) → NoDup (frame_addresses self).
Proof.
  intros [Hok Hd]. unfold frame_addresses. fold (usable (memory_map self)).
  apply NoDup_bind_apart.
  { apply Forall_forall. intros. apply NoDup_step_by. }
  clear Hok. induction (usable (memory_map self)) as [|r l IH]; constructor.
  - destruct Hd as [Hd _]. rewrite Forall_fmap in Hd. rewrite Forall_forall in Hd.
    apply Forall_forall. intros r' Hr' a Ha Ha'.
    apply elem_of_step_by in Ha as (i & ? & -> & ?), Ha' as (j & ? & ? & ?).
    specialize (Hd r' Hr'). unfold disj in Hd. simpl in Hd. lia.
  - apply IH. by destruct Hd.
Qed.

Section boot_proofs.
Context `{BuildProfile, X86PhysLaws}.

Lemma nth_map_Done {A B} (f : A → outcome B) (g : A → B) l n :
  (∀ x, x ∈ l → f x = Done (g x)) → nth_map f l n = Done (g <$> l !! n).
Proof.
  revert n. induction l as [|x l IH]; intros [|n] Hf; simpl; try done;
    rewrite Hf by left; simpl; [done|]. apply IH. intros. apply Hf. by right.
Qed.

(** The frame with number [next], if there is one. *)
Lemma boot_allocate_frame_spec self :
  map_ok (memory_map self) → 0 ≤ next self < usize_max →
  boot_allocate_frame self =
    Done (frame_addresses self !! Z.to_nat (next self), mkBoot (memory_map self) (next self + 1)).
Proof.
  intros Hok Hn. unfold boot_allocate_frame, usable_frames_nth.
  rewrite (nth_map_Done _ (λ a, a)).
  - run. rewrite usize_add_Done by (unfold usize_max in *; lia). run.
    by destruct (frame_addresses self !! _).
  - intros a Ha. destruct (frame_addresses_facts _ _ Hok Ha) as (? & Hd & _).
    rewrite phys_addr_new_ok by done. run. rewrite phys_containing_address_spec by lia.
    f_equal. apply Z.mod_divide in Hd; [|done]. lia.
Qed.

Lemma allocate_frames_spec k self :
  map_ok (memory_map self) → 0 ≤ next self → next self + Z.of_nat k ≤ usize_max →
  allocate_frames k self =
    Done ((λ i, frame_addresses self !! i) <$> seq (Z.to_nat (next self)) k,
          mkBoot (memory_map self) (next self + Z.of_nat k)).
Proof.
  revert self. induction k as [|k IH]; intros self Hok Hn0 Hk; simpl.
  - do 2 f_equal. destruct self; simpl. f_equal. lia.
  - rewrite boot_allocate_frame_spec by (done || lia). run.
    rewrite IH by (simpl; done || lia). run. simpl.
    replace (Z.to_nat (next self + 1)) with (S (Z.to_nat (next self))) by lia.
    do 3 f_equal. lia.
Qed.

End boot_proofs.

(** ** Properties *)

Section properties.
Context `{BuildProfile, X86PhysLaws}.

Lemma frames_lookup k mm i o :
  ((λ i, frame_addresses (init mm) !! i) <$> seq 0 k) !! i = Some o ↔
  (i < k)%nat ∧ o = frame_addresses (init mm) !! i.
Proof.
  rewrite list_lookup_fmap, fmap_Some. setoid_rewrite lookup_seq. simpl. naive_solver lia.
Qed.

(** A page-aligned address inside a usable region of the memory map. *)
Definition usable_frame (mm : list MemoryRegion) (f : Z) : Prop :=
  (frame_size | f) ∧
  ∃ r, r ∈ mm ∧ region_type r = Usable ∧ start_addr r ≤ f ∧ f + frame_size ≤ end_addr r.

(** The code's iterator goes through exactly these. *)
Lemma elem_of_frame_addresses mm f :
  map_ok mm → f ∈ frame_addresses (init mm) ↔ usable_frame mm f.
Proof.
  intros Hok. split.
  - intros Hf. destruct (frame_addresses_facts (init mm) f Hok Hf) as (_ & ? & r & Hr & ? & ?).
    split; [done|]. exists r. apply list_elem_of_filter in Hr as [? ?]. done.
  - intros ([q Hq] & r & Hr & Hu & Hlo & Hhi). unfold frame_addresses.
    apply list_elem_of_bind. exists r.
    assert (r ∈ usable mm) as Hru by (by apply list_elem_of_filter).
    split; [|done]. apply elem_of_step_by. destruct Hok as [Hf _].
    rewrite Forall_forall in Hf. destruct (Hf r Hru) as (_ & _ & _ & [s Hs] & _).
    unfold frame_size in *. exists (q - s). lia.
Qed.

(** C20: starting from [init], successive calls of [allocate_frame] hand out page-aligned
    frames that lie inside usable regions of the bootloader's memory map, never the
    same frame twice, and answer [None] exactly when every page-aligned frame of every
    usable region has been handed out before. *)
Theorem boot_frames_sound mm k :
  map_ok mm → Z.of_nat k ≤ usize_max →
  ∃ os fa, allocate_frames k (init mm) = Done (os, fa) ∧ length os = k ∧
    (∀ i f, os !! i = Some (Some f) → usable_frame mm f) ∧
    (∀ i j f, os !! i = Some (Some f) → os !! j = Some (Some f) → i = j) ∧
    (∀ i, (i < k)%nat →
       os !! i = Some None ↔ ∀ f, usable_frame mm f → Some f ∈ take i os).
Proof.
  intros Hok Hk. eexists _, _. split; [apply allocate_frames_spec; simpl; done || lia|].
  cbn [next Z.to_nat init]. set (os := (λ i, frame_addresses (init mm) !! i) <$> seq 0 k).
  assert (∀ i f, os !! i = Some (Some f) ↔ (i < k)%nat ∧ frame_addresses (init mm) !! i = Some f)
    as Hos by (intros i f; unfold os; rewrite frames_lookup; naive_solver).
  split_and!.
  - unfold os. by rewrite length_fmap, length_seq.
  - intros i f [_ Hf%list_elem_of_lookup_2]%Hos. by apply elem_of_frame_addresses.
  - intros i j f [_ Hi]%Hos [_ Hj]%Hos.
    eapply NoDup_lookup; [exact (NoDup_frame_addresses (init mm) Hok)|done|done].
  - intros i Hi. split.
    + intros [_ Hn%eq_sym%lookup_ge_None]%frames_lookup f Hf.
      apply elem_of_frame_addresses, list_elem_of_lookup in Hf as [j Hj]; [|done].
      pose proof (lookup_lt_Some _ _ _ Hj). apply list_elem_of_lookup. exists j.
      rewrite lookup_take_lt by lia. apply Hos. split; [lia|done].
    + intros Hall. apply frames_lookup. split; [done|].
      destruct (frame_addresses (init mm) !! i) as [f|] eqn:Hf; [|done].
      assert (usable_frame mm f) as Hu
        by (apply elem_of_frame_addresses; [done|]; by eapply list_elem_of_lookup_2).
      apply Hall, list_elem_of_lookup in Hu as [j Hj].
      apply lookup_take_Some in Hj as [[_ Hj]%Hos Hlt].
      pose proof (NoDup_lookup _ _ _ _ (NoDup_frame_addresses (init mm) Hok) Hf Hj). lia.
Qed.

End properties.

(** ** An instance of the address interface *)

Definition phys_model : X86Phys := {|
  phys_addr_new a := if bool_decide (0 ≤ a < 2 ^ 52) then Done a
                     else Panicked "physical address";
  phys_containing_address a := a - a mod frame_size;
|}.

Lemma phys_model_laws : @X86PhysLaws phys_model.
Proof. split; simpl; [|done]. intros a Ha. by rewrite bool_decide_eq_true_2. Qed.

(** A memory map with a reserved region between two usable ones. *)
Definition sample_map : list MemoryRegion :=
  [mkRegion 0 4096 (NotUsable 2); mkRegion 4096 0xa0000 Usable;
   mkRegion 0xa0000 0x100000 (NotUsable 2); mkRegion 0x100000 0x140000 Usable].

Lemma sample_map_ok : map_ok sample_map.
Proof.
  split.
  - change (usable sample_map) with
      [mkRegion 4096 0xa0000 Usable; mkRegion 0x100000 0x140000 Usable].
    constructor; [|constructor; [|constructor]]; unfold region_ok, frame_size; simpl;
      split_and!; try lia; by apply Z.mod_divide.
  - split; [|by split]. constructor; [|constructor]. left. simpl. lia.
Qed.

Lemma boot_frames_sound_witness :
  ∃ os fa, @allocate_frames _ (@boot_frame_allocator dev_profile phys_model) 240 (init sample_map)
      = Done (os, fa) ∧ length os = 240%nat ∧
    (∀ i f, os !! i = Some (Some f) → usable_frame sample_map f) ∧
    (∀ i j f, os !! i = Some (Some f) → os !! j = Some (Some f) → i = j) ∧
    (∀ i, (i < 240)%nat →
       os !! i = Some None ↔ ∀ f, usable_frame sample_map f → Some f ∈ take i os).
Proof.
  apply (@boot_frames_sound dev_profile phys_model phys_model_laws sample_map 240);
    [exact sample_map_ok|vm_compute; by intros ?].
Defined.

(** The first usable region gives 159 frames, the second one 64. *)
Lemma sample_frames :
  match @allocate_frames _ (@boot_frame_allocator dev_profile phys_model) 224 (init sample_map) with
  | Done (os, _) => (os !! 158%nat, os !! 159%nat, os !! 222%nat, os !! 223%nat)
  | _ => (None, None, None, None)
  end = (Some (Some 0x9f000), Some (Some 0x100000), Some (Some 0x13f000), Some None).
Proof. vm_compute. reflexivity. Qed.
