(* ===== verification/HeapInit.v ===== *)
(** * Creating the kernel heap ([init_heap] of src/src/allocator.rs)

    [init_heap] maps the pages of the heap to fresh physical frames and then hands
    the range to the global allocator.  The page tables are those of the [x86_64]
    crate, outside the repository: [X86Virt] and [Mapper] are its interface, with
    the documented behaviour as laws.  A mapping makes the words of its page
    accessible, so the memory is part of the mapper's state. *)

From stdpp Require Import prelude gmap strings.
From S2P Require Import Prelude Layout Memory GlobalAlloc LinkedList FixedSizeBlock.
From S2P Require Import AsyncLib Locked FallbackModel Frames.

Definition HEAP_START : Z := 0x444444440000.
Definition HEAP_SIZE : Z := 100 * 1024.

Definition page_size : Z := 4096.

(** [VirtAddr::new], [VirtAddr + usize], [VirtAddr - u64],
    [Page::containing_address], [Page::range_inclusive] and the page table flags; a
    page is represented by its start address. *)
Class X86Virt := {
  virt_addr_new : Z → outcome Z;
  virt_add : Z → Z → outcome Z;
  virt_sub : Z → Z → outcome Z;
  page_containing_address : Z → Z;
  page_range_inclusive : Z → Z → list Z;
  flag_PRESENT : Z;
  flag_WRITABLE : Z;
}.

(** Addresses of the lower half are canonical; a page contains the addresses that
    agree with its start up to the 12 low bits. *)
Class X86VirtLaws `{X86Virt} := {
  virt_addr_new_ok a : 0 ≤ a < 2 ^ 47 → virt_addr_new a = Done a;
  virt_add_ok a n : 0 ≤ a → 0 ≤ n → a + n < 2 ^ 47 → virt_add a n = Done (a + n);
  virt_sub_ok a n : 0 ≤ n ≤ a → a < 2 ^ 47 → virt_sub a n = Done (a - n);
  page_containing_address_spec a :
    0 ≤ a < 2 ^ 47 → page_containing_address a = a - a mod page_size;
  page_range_inclusive_spec p q :
    (page_size | p) → (page_size | q) → p ≤ q →
    page_range_inclusive p q = (λ i, p + page_size * i) <$> seqZ 0 ((q - p) / page_size + 1);
}.

(** [Mapper::map_to] with the frame allocator it may draw page-table frames from. *)
Class Mapper (M F : Type) := {
  MapToError : Type;
  FrameAllocationFailed : MapToError;
  map_to : M → F → mem → Z → Z → Z → outcome ((unit + MapToError) * M * F * mem);
}.
Arguments MapToError M F {_}.

Section init_heap.
Context `{AsyncLib, FallbackHeap Heap, X86Virt, FrameAllocator F, Mapper M F}.
Implicit Types (mapper : M) (frame_allocator : F) (m : mem).

Definition heap_page_range : outcome (list Z) :=
  heap_start ← virt_addr_new HEAP_START;
  e ← virt_add heap_start HEAP_SIZE;
  heap_end ← virt_sub e 1;
  let heap_start_page := page_containing_address heap_start in
  let heap_end_page := page_containing_address heap_end in
  Done (page_range_inclusive heap_start_page heap_end_page).

(** The [for page in page_range] loop; [inr] is the early return of [?].  Flushing
    the TLB entry of the new mapping has no effect in the model. *)
Fixpoint map_pages (pages : list Z) mapper frame_allocator m
    : outcome ((unit + MapToError M F) * M * F * mem) :=
  match pages with
  | [] => Done (inl (), mapper, frame_allocator, m)
  | page :: pages' =>
      '(o, fa1) ← allocate_frame frame_allocator;
      match o with
      | None => Done (inr FrameAllocationFailed, mapper, fa1, m)
      | Some frame =>
          let flags := Z.lor flag_PRESENT flag_WRITABLE in
          '(r, mapper1, fa2, m1) ← map_to mapper fa1 m page frame flags;
          match r with
          | inr e => Done (inr e, mapper1, fa2, m1)
          | inl _ => map_pages pages' mapper1 fa2 m1
          end
      end
  end.

(** The static [ALLOCATOR] at its start. *)
Definition ALLOCATOR_init : Locked (FixedSizeBlockAllocator Heap) := Locked_new new.

Definition init_heap (ALLOCATOR : Locked (FixedSizeBlockAllocator Heap))
    mapper frame_allocator m
    : outcome ((unit + MapToError M F) * Locked (FixedSizeBlockAllocator Heap) * M * F * mem) :=
  page_range ← heap_page_range;
  '(r, mapper1, fa1, m1) ← map_pages page_range mapper frame_allocator m;
  match r with
  | inr e => Done (inr e, ALLOCATOR, mapper1, fa1, m1)
  | inl _ =>
      '(_, ALLOCATOR', m2) ←
        with_lock (λ a m, '(a', m') ← FixedSizeBlock.init a m HEAP_START HEAP_SIZE;
                          Done ((), a', m')) ALLOCATOR m1;
      Done (inl (), ALLOCATOR', mapper1, fa1, m2)
  end.

End init_heap.

(** ** Documented behaviour of the mapper

    [translate] is the page table's mapping.  A successful [map_to] adds the one
    mapping and makes the page's words accessible; a failing one maps nothing, though it
    may have created page tables already.  Missing page tables, at most three, get their
    frames from the frame allocator.  No word that was accessible becomes inaccessible. *)
Definition fa_step `{FrameAllocator F} (fa fa' : F) : Prop :=
  ∃ o, allocate_frame fa = Done (o, fa').

Class MapperLaws (M F : Type) `{FrameAllocator F, Mapper M F} := {
  translate : M → Z → option (Z * Z);
  map_to_returns mapper fa m page frame flags :
    ∃ r mapper' fa' m', map_to mapper fa m page frame flags = Done (r, mapper', fa', m') ∧
      ∃ k, (k ≤ 3)%nat ∧ nsteps fa_step k fa fa';
  map_to_Ok (mapper : M) (fa : F) m page frame flags u mapper' fa' m' :
    map_to mapper fa m page frame flags = Done (inl u, mapper', fa', m') →
    translate mapper' page = Some (frame, flags) ∧
    (∀ p, p ≠ page → translate mapper' p = translate mapper p) ∧
    mapped page (page + page_size) m' ∧
    (∀ w, is_Some (m !! w) → is_Some (m' !! w));
  map_to_Err (mapper : M) (fa : F) m page frame flags e mapper' fa' m' :
    map_to mapper fa m page frame flags = Done (inr e, mapper', fa', m') →
    (∀ p, translate mapper' p = translate mapper p) ∧
    (∀ w, is_Some (m !! w) → is_Some (m' !! w));
}.

(** ** The heap's pages *)

Definition heap_pages : list Z := (λ i, HEAP_START + page_size * i) <$> seqZ 0 25.

Lemma heap_page_range_spec `{X86VirtLaws} : heap_page_range = Done heap_pages.
Proof.
  unfold heap_page_range. unfold HEAP_START, HEAP_SIZE.
  run virt_addr_new_ok by done. run virt_add_ok by done. run virt_sub_ok by done.
  rewrite !page_containing_address_spec by done.
  rewrite page_range_inclusive_spec; [done|by apply Z.mod_divide|by apply Z.mod_divide|done].
Qed.

Lemma mapped_pages start n (m : mem) :
  (page_size | start) →
  (∀ i, 0 ≤ i < n → mapped (start + page_size * i) (start + page_size * i + page_size) m) →
  mapped start (start + page_size * n) m.
Proof.
  intros [k Hk] Hm w [j Hj] Hlo Hhi. unfold page_size, word_size in *.
  apply (Hm ((w - start) / 4096)).
  - split; [apply Z.div_pos; lia|]. apply Z.div_lt_upper_bound; lia.
  - by exists j.
  - pose proof (Z.mul_div_le (w - start) 4096). unfold word_size. lia.
  - pose proof (Z.div_mod (w - start) 4096 ltac:(lia)).
    pose proof (Z.mod_pos_bound (w - start) 4096 ltac:(lia)).
    assert ((8 | (w - start) mod 4096)) as [q Hq].
    { exists (j - 512 * k - 512 * ((w - start) / 4096)). lia. }
    unfold word_size. lia.
Qed.

Section proofs.
Context `{BuildProfile, AsyncLaws, X86PhysLaws, X86VirtLaws, FallbackLaws Heap}.
Context `{!Mapper M BootInfoFrameAllocator, !MapperLaws M BootInfoFrameAllocator}.
Implicit Types (mapper : M) (fa : BootInfoFrameAllocator) (m : mem).

Lemma boot_nsteps k fa fa' :
  map_ok (memory_map fa) → 0 ≤ next fa → next fa + Z.of_nat k ≤ usize_max →
  nsteps fa_step k fa fa' →
  memory_map fa' = memory_map fa ∧ next fa' = next fa + Z.of_nat k.
Proof.
  intros Hok Hn0 Hk Hs. revert Hok Hn0 Hk. induction Hs as [fa|k fa1 fa2 fa3 [o Hstep] Hs IH];
    intros Hok Hn0 Hk; [split; [done|lia]|].
  cbn [allocate_frame boot_frame_allocator] in Hstep.
  rewrite boot_allocate_frame_spec in Hstep by (done || lia).
  injection Hstep as _ <-. destruct IH as [E1 E2]; simpl in *; [done|lia..|].
  split; [done|lia].
Qed.

Definition heap_flags : Z := Z.lor flag_PRESENT flag_WRITABLE.

(** What the mapping loop leaves behind: a prefix of the pages is mapped, each to
    its own fresh frame. *)
Definition pages_mapped (pages fs : list Z) (mapper : M) (m : mem) : Prop :=
  Forall2 (λ page f, translate mapper page = Some (f, heap_flags) ∧
                     mapped page (page + page_size) m) pages fs.

Lemma map_pages_spec pages mapper fa m :
  NoDup pages → map_ok (memory_map fa) → 0 ≤ next fa →
  next fa + 4 * Z.of_nat (length pages) ≤ usize_max →
  ∃ r mapper' fa' m' fs,
    map_pages pages mapper fa m = Done (r, mapper', fa', m') ∧
    memory_map fa' = memory_map fa ∧
    fs `sublist_of` drop (Z.to_nat (next fa)) (frame_addresses fa) ∧
    pages_mapped (take (length fs) pages) fs mapper' m' ∧
    (∀ p, p ∉ pages → translate mapper' p = translate mapper p) ∧
    (∀ w, is_Some (m !! w) → is_Some (m' !! w)) ∧
    (r = inl () → length fs = length pages).
Proof.
  revert mapper fa m. induction pages as [|page pages IH];
    intros mapper fa m Hnd Hok Hn0 Hn.
  { eexists _, _, _, _, []. split_and!; try done; [apply sublist_nil_l|constructor]. }
  apply NoDup_cons in Hnd as [Hpage Hnd]. rewrite length_cons in Hn. cbn [map_pages].
  cbn [allocate_frame boot_frame_allocator].
  rewrite boot_allocate_frame_spec by (done || lia). run.
  destruct (frame_addresses fa !! Z.to_nat (next fa)) as [f|] eqn:Hf.
  2: { eexists _, _, _, _, []. split_and!; try done; [apply sublist_nil_l|constructor]. }
  set (fa1 := mkBoot (memory_map fa) (next fa + 1)).
  destruct (map_to_returns mapper fa1 m page f heap_flags)
    as (r & mp1 & fa2 & m1 & E & k & Hk & Hsteps).
  apply boot_nsteps in Hsteps as [Hmm Hnx]; [|done|simpl; lia..]. simpl in Hmm, Hnx.
  unfold heap_flags in E. run E. destruct r as [u|e].
  2: { apply map_to_Err in E as [Ht Hmono].
       eexists _, _, _, _, []. split_and!; try done; [apply sublist_nil_l|constructor]. }
  apply map_to_Ok in E as (Ht & Hto & Hm1 & Hmono).
  destruct (IH mp1 fa2 m1 Hnd) as (r & mp' & fa' & m' & fs & E & Hmm' & Hsub & Hpm & Ho & Hmo & Hr);
    [by rewrite Hmm|lia..|].
  exists r, mp', fa', m', (f :: fs). split_and!; [done|congruence| | | | |].
  - assert (frame_addresses fa2 = frame_addresses fa) as Efa
      by (unfold frame_addresses; by rewrite Hmm).
    rewrite (drop_S _ f) by done. apply sublist_skip. rewrite Efa in Hsub.
    etrans; [exact Hsub|].
    replace (Z.to_nat (next fa2)) with (S (Z.to_nat (next fa)) + k)%nat by lia.
    rewrite <-drop_drop. apply sublist_drop.
  - cbn [length take]. constructor; [|exact Hpm]. split.
    + rewrite Ho by done. exact Ht.
    + intros w ???. apply Hmo. by apply Hm1.
  - intros p Hp. apply not_elem_of_cons in Hp as [? ?]. rewrite Ho by done. by apply Hto.
  - auto.
  - intros Heq. simpl. by rewrite (Hr Heq).
Qed.

Lemma NoDup_heap_pages : NoDup heap_pages.
Proof. unfold heap_pages. apply NoDup_fmap_2; [|apply NoDup_seqZ]. unfold page_size. intros ???. lia. Qed.

Lemma heap_mapped fs mapper m :
  pages_mapped heap_pages fs mapper m → mapped HEAP_START (HEAP_START + HEAP_SIZE) m.
Proof.
  intros Hpm. change HEAP_SIZE with (page_size * 25). apply mapped_pages.
  { by apply Z.mod_divide. }
  intros i Hi. assert (heap_pages !! Z.to_nat i = Some (HEAP_START + page_size * i)) as Hl.
  { unfold heap_pages. rewrite list_lookup_fmap, lookup_seqZ_lt by lia. simpl. do 3 f_equal. lia. }
  eapply Forall2_lookup_l in Hpm as (f & _ & _ & Hm); [|exact Hl]. exact Hm.
Qed.

Lemma init_heap_spec mapper fa m :
  map_ok (memory_map fa) → 0 ≤ next fa → next fa + 100 ≤ usize_max →
  ∃ r a mapper' fa' m' fs,
    init_heap (Heap := Heap) ALLOCATOR_init mapper fa m = Done (r, a, mapper', fa', m') ∧
    NoDup fs ∧ Forall (λ f, f ∈ frame_addresses fa) fs ∧
    Forall2 (λ page f, translate mapper' page = Some (f, heap_flags))
      (take (length fs) heap_pages) fs ∧
    (∀ p, p ∉ heap_pages → translate mapper' p = translate mapper p) ∧
    match r with
    | inl _ => length fs = 25%nat ∧ as_inv HEAP_START (HEAP_START + HEAP_SIZE) [] a m'
    | inr _ => a = ALLOCATOR_init
    end.
Proof.
  intros Hok Hn0 Hn. unfold init_heap. rewrite heap_page_range_spec. run.
  destruct (map_pages_spec heap_pages mapper fa m NoDup_heap_pages Hok Hn0)
    as (r & mp' & fa' & m' & fs & E & Hmm & Hsub & Hpm & Ho & Hmo & Hr); [done|].
  assert (NoDup fs) as Hnd.
  { eapply sublist_NoDup; [|exact Hsub]. eapply sublist_NoDup; [|apply sublist_drop].
    by apply NoDup_frame_addresses. }
  assert (Forall (λ f, f ∈ frame_addresses fa) fs) as Hfr.
  { apply Forall_forall. intros f Hf. eapply elem_of_sublist; [exact Hf|].
    etrans; [exact Hsub|apply sublist_drop]. }
  assert (Forall2 (λ page f, translate mp' page = Some (f, heap_flags))
      (take (length fs) heap_pages) fs) as Htr.
  { eapply Forall2_impl; [exact Hpm|]. by intros ?? [? _]. }
  run E. destruct r as [[]|e].
  2: { eexists _, _, _, _, _, fs. by split_and!. }
  specialize (Hr eq_refl). rewrite Hr, firstn_all in Hpm.
  destruct (fsb_init_inv (Heap := Heap) m' HEAP_START HEAP_SIZE) as (a & m2 & Ei & _ & Hinv).
  { by apply Z.mod_divide. } { done. } { done. } { done. } { by eapply heap_mapped. }
  destruct (with_lock_free (λ a m, '(a', m') ← FixedSizeBlock.init a m HEAP_START HEAP_SIZE;
    Done ((), a', m')) (ALLOCATOR_init (Heap := Heap)) m' () a m2 (Locked_new_free _))
    as (A & El & <- & Hl); [by simpl; rewrite Ei|].
  run El. eexists _, _, _, _, _, fs. by split_and!.
Qed.

End proofs.

(** ** Properties *)

Section properties.
Context `{BuildProfile, AsyncLaws, X86PhysLaws, X86VirtLaws, FallbackLaws Heap}.
Context `{!Mapper M BootInfoFrameAllocator, !MapperLaws M BootInfoFrameAllocator}.

(** C9: [init_heap] with the boot frame allocator always returns.  On success the 25
    pages of the heap are mapped, present and writable, to 25 distinct usable frames,
    and the global allocator manages exactly the heap range with nothing allocated.
    On an error the allocator is still empty.  Its lock is free again.  No other page is remapped. *)
Theorem init_heap_correct (mapper : M) mm m :
  map_ok mm →
  ∃ r a mapper' fa' m' fs,
    init_heap (Heap := Heap) ALLOCATOR_init mapper (Frames.init mm) m = Done (r, a, mapper', fa', m') ∧
    NoDup fs ∧ Forall (λ f, f ∈ frame_addresses (Frames.init mm)) fs ∧
    Forall2 (λ page f, translate mapper' page = Some (f, heap_flags))
      (take (length fs) heap_pages) fs ∧
    (∀ p, p ∉ heap_pages → translate mapper' p = translate mapper p) ∧
    match r with
    | inl _ => length fs = 25%nat ∧ as_inv HEAP_START (HEAP_START + HEAP_SIZE) [] a m'
    | inr _ => a = ALLOCATOR_init
    end.
Proof. intros Hok. by apply init_heap_spec. Qed.

(** C8: the kernel's heap end to end: once [init_heap] has succeeded, every sequence of
    permitted calls to the global allocator is safe on the mapped heap range; in
    particular no call finds the allocator's lock taken. *)
Theorem kernel_heap_safe (mapper mapper' : M) mm m u a fa' m' σ :
  map_ok mm →
  init_heap (Heap := Heap) ALLOCATOR_init mapper (Frames.init mm) m = Done (inl u, a, mapper', fa', m') →
  rtc client_step ([], a, m') σ →
  client_safe HEAP_START (HEAP_START + HEAP_SIZE) σ.
Proof.
  intros Hok Hi Hs.
  destruct (init_heap_spec (Heap := Heap) mapper (Frames.init mm) m)
    as (r & a1 & mp1 & fa1 & m1 & fs & E & _ & _ & _ & _ & Hr); [done..|].
  rewrite E in Hi. simplify_eq. destruct Hr as [_ Hinv].
  eapply client_run_safe; [|exact Hs]. exact Hinv.
Qed.

End properties.

(** ** An instance of the interfaces

    Addresses as numbers and a page table as a finite map from pages to frames and
    flags, without intermediate tables; mapping a page makes its words accessible. *)

Definition virt_check (a : Z) : outcome Z :=
  if bool_decide (0 ≤ a < 2 ^ 47) then Done a else Panicked "virtual address".

Definition virt_model : X86Virt := {|
  virt_addr_new := virt_check;
  virt_add a n := virt_check (a + n);
  virt_sub a n := virt_check (a - n);
  page_containing_address a := a - a mod page_size;
  page_range_inclusive p q := (λ i, p + page_size * i) <$> seqZ 0 ((q - p) / page_size + 1);
  flag_PRESENT := 1;
  flag_WRITABLE := 2;
|}.

Lemma virt_model_laws : @X86VirtLaws virt_model.
Proof.
  assert (∀ a, 0 ≤ a < 2 ^ 47 → virt_check a = Done a) as Hc.
  { intros a Ha. unfold virt_check. by rewrite bool_decide_eq_true_2. }
  split; simpl; intros; try done; apply Hc; lia.
Qed.

Section mapper_model.
Context {F : Type} `{!FrameAllocator F}.

Inductive map_error := OutOfFrames | PageAlreadyMapped.

Abbreviation page_table := (gmap Z (Z * Z)).

(** The words of a page. *)
Definition page_words (page : Z) : mem := heap_words (8 * (page / 8)) 513.

Definition model_map_to (t : page_table) (fa : F) (m : mem) (page frame flags : Z)
    : outcome ((unit + map_error) * page_table * F * mem) :=
  match t !! page with
  | Some _ => Done (inr PageAlreadyMapped, t, fa, m)
  | None => Done (inl (), <[page := (frame, flags)]> t, fa, m ∪ page_words page)
  end.

Definition mapper_model : Mapper page_table F := {|
  MapToError := map_error;
  FrameAllocationFailed := OutOfFrames;
  map_to := model_map_to;
|}.

Program Definition mapper_model_laws : @MapperLaws page_table F _ mapper_model := {|
  translate t page := t !! page;
|}.
Next Obligation.
  intros t fa m page frame flags. simpl. unfold model_map_to.
  destruct (t !! page); eexists _, _, _, _; (split; [done|]); exists O; split; try lia; constructor.
Qed.
Next Obligation.
  intros t fa m page frame flags u t' fa' m'. simpl. unfold model_map_to.
  destruct (t !! page); [done|]. intros; simplify_eq. split_and!.
  - by rewrite lookup_insert_eq.
  - intros p Hp. by rewrite lookup_insert_ne.
  - intros w Hw ? ?. rewrite lookup_union.
    pose proof (heap_words_mapped (8 * (page / 8)) 513 (Z.divide_factor_l _ _) w Hw) as Hm.
    pose proof (Z.div_mod page 8 ltac:(lia)). pose proof (Z.mod_pos_bound page 8 ltac:(lia)).
    unfold page_size, word_size in *. destruct Hm as [v Hv]; [lia|lia|].
    unfold page_words. rewrite Hv. destruct (m !! w); eexists; done.
  - intros w [v Hv]. exists v. by apply lookup_union_Some_l.
Qed.
Next Obligation.
  intros t fa m page frame flags e t' fa' m'. simpl. unfold model_map_to.
  destruct (t !! page); [|done]. intros; by simplify_eq.
Qed.

End mapper_model.

#[local] Existing Instances list_lib list_laws dev_profile size_first_layout phys_model phys_model_laws
  virt_model virt_model_laws mapper_model mapper_model_laws.

Lemma init_heap_correct_witness :
  ∃ r a mapper' fa' m' fs,
    init_heap (Heap := LinkedListAllocator) (M := gmap Z (Z * Z)) ALLOCATOR_init ∅
      (Frames.init sample_map) ∅ = Done (r, a, mapper', fa', m') ∧
    NoDup fs ∧ Forall (λ f, f ∈ frame_addresses (Frames.init sample_map)) fs ∧
    Forall2 (λ page f, translate mapper' page = Some (f, heap_flags))
      (take (length fs) heap_pages) fs ∧
    (∀ p, p ∉ heap_pages → translate mapper' p = translate (∅ : gmap Z (Z * Z)) p) ∧
    match r with
    | inl _ => length fs = 25%nat ∧ as_inv HEAP_START (HEAP_START + HEAP_SIZE) [] a m'
    | inr _ => a = ALLOCATOR_init
    end.
Proof.
  exact (init_heap_correct (Heap := LinkedListAllocator) (M := gmap Z (Z * Z)) ∅
           sample_map ∅ sample_map_ok).
Defined.

(** The run of [init_heap] on the sample memory map succeeds. *)
Definition sample_run :=
  init_heap (Heap := LinkedListAllocator) (M := gmap Z (Z * Z)) ALLOCATOR_init ∅ (Frames.init sample_map) ∅.

Definition is_Ok {A E X Y Z} (r : outcome ((A + E) * X * Y * Z * mem)) : bool :=
  match r with Done (inl _, _, _, _, _) => true | _ => false end.

Lemma sample_run_succeeds : is_Ok sample_run = true.
Proof. vm_compute. reflexivity. Qed.

Lemma kernel_heap_safe_witness :
  ∃ a m', client_safe (A := Locked (FixedSizeBlockAllocator LinkedListAllocator))
            HEAP_START (HEAP_START + HEAP_SIZE) ([], a, m').
Proof.
  pose proof sample_run_succeeds as Hok.
  destruct sample_run as [[[[[[u|e] a] mp] fa] m]| | |] eqn:E; try discriminate Hok.
  exists a, m.
  exact (kernel_heap_safe (Heap := LinkedListAllocator) ∅ mp sample_map ∅ u a fa m _
           sample_map_ok E (rtc_refl _ _)).
Defined.
