(* ===== verification/Access.v ===== *)
(** * Typed accesses to memory

    The loads and stores that compiled code performs on heap memory for the scalar
    types the kernel keeps there: 32-bit integers, which take half a word, and 64-bit
    integers and pointers.  Accesses are naturally aligned, as Rust requires. *)

From stdpp Require Import prelude gmap strings.
From S2P Require Import Prelude Layout Memory.

Inductive scalar := I32 | U64.

Global Instance scalar_eq_dec : EqDecision scalar.
Proof. solve_decision. Defined.

(** [mem::size_of], which is the alignment too. *)
Definition size_of (t : scalar) : Z := match t with I32 => 4 | U64 => 8 end.

Definition in_range (t : scalar) (v : Z) : Prop := 0 ≤ v < 2 ^ (8 * size_of t).

Global Instance in_range_dec t v : Decision (in_range t v).
Proof. unfold in_range. apply _. Defined.

(** The half of a word at byte offset 0 or 4. *)
Definition get_half (w off : Z) : Z := (Z.shiftr w (8 * off)) mod 2 ^ 32.
Definition set_half (w off v : Z) : Z :=
  if bool_decide (off = 0) then Z.shiftl (Z.shiftr w 32) 32 + v
  else Z.shiftl v 32 + w mod 2 ^ 32.

Definition load (t : scalar) (m : mem) (a : Z) : outcome Z :=
  w ← read_word m (word_addr a);
  Done (match t with U64 => w | I32 => get_half w (a mod word_size) end).

Definition store (t : scalar) (m : mem) (a v : Z) : outcome mem :=
  w ← read_word m (word_addr a);
  write_word m (word_addr a)
    (match t with U64 => v | I32 => set_half w (a mod word_size) v end).

(** An aligned access inside a block. *)
Definition scalar_in (t : scalar) (b : block) (a : Z) : Prop :=
  (size_of t | a) ∧ b_ptr b ≤ a ∧ a + size_of t ≤ b_ptr b + l_size (b_layout b).

(** ** Halves and bytes of a word *)

Lemma byte_of_mod w i : 0 ≤ i → byte_of w i = (w / 2 ^ (8 * i)) mod 256.
Proof.
  intros. unfold byte_of. rewrite Z.shiftr_div_pow2 by lia.
  change 255 with (Z.ones 8). by rewrite Z.land_ones.
Qed.

Lemma mod32_bytes x :
  x mod 2 ^ 32 = x mod 256 + 256 * ((x / 2 ^ 8) mod 256 + 256 * ((x / 2 ^ 16) mod 256 +
                 256 * ((x / 2 ^ 24) mod 256))).
Proof.
  change (2 ^ 32) with (256 * (256 * (256 * 256))). rewrite !Z.rem_mul_r by done.
  rewrite !Z.div_div by done. done.
Qed.

Lemma get_half_bytes w off :
  0 ≤ off →
  get_half w off = byte_of w off + 256 * (byte_of w (off + 1) +
    256 * (byte_of w (off + 2) + 256 * byte_of w (off + 3))).
Proof.
  intros. unfold get_half. rewrite Z.shiftr_div_pow2, mod32_bytes, !byte_of_mod by lia.
  rewrite !Z.div_div by (try apply Z.pow_pos_nonneg; lia). rewrite <-!Z.pow_add_r by lia.
  repeat f_equal; lia.
Qed.

Lemma set_half_div w v : 0 ≤ v < 2 ^ 32 → set_half w 0 v / 2 ^ 32 = w / 2 ^ 32.
Proof.
  intros. unfold set_half. rewrite bool_decide_eq_true_2 by done.
  rewrite Z.shiftl_mul_pow2, Z.shiftr_div_pow2 by lia.
  rewrite Z.div_add_l by lia. rewrite (Z.div_small v) by lia. lia.
Qed.

Lemma set_half_low w v : 0 ≤ v < 2 ^ 32 → set_half w 0 v mod 2 ^ 32 = v.
Proof.
  intros. unfold set_half. rewrite bool_decide_eq_true_2 by done.
  rewrite Z.shiftl_mul_pow2 by lia.
  rewrite Z.add_comm, Z.mod_add, Z.mod_small by lia. done.
Qed.

Lemma set_half_high w v : set_half w 4 v / 2 ^ 32 = v ∧ set_half w 4 v mod 2 ^ 32 = w mod 2 ^ 32.
Proof.
  unfold set_half. rewrite bool_decide_eq_false_2 by done. rewrite Z.shiftl_mul_pow2 by lia.
  pose proof (Z.mod_pos_bound w (2 ^ 32)). split.
  - rewrite Z.div_add_l by lia. rewrite (Z.div_small (w mod _)) by lia. lia.
  - rewrite Z.add_comm, Z.mod_add, Z.mod_mod by lia. done.
Qed.

Lemma get_half_low w : get_half w 0 = w mod 2 ^ 32.
Proof. unfold get_half. by rewrite Z.shiftr_0_r. Qed.

Lemma get_half_high w : get_half w 4 = (w / 2 ^ 32) mod 2 ^ 32.
Proof. unfold get_half. by rewrite Z.shiftr_div_pow2. Qed.

Lemma get_set_half w off v :
  off = 0 ∨ off = 4 → 0 ≤ v < 2 ^ 32 → get_half (set_half w off v) off = v.
Proof.
  intros [->| ->] ?; [by rewrite get_half_low, set_half_low|].
  rewrite get_half_high, (proj1 (set_half_high w v)). by apply Z.mod_small.
Qed.

Lemma get_set_half_ne w off off' v :
  off = 0 ∨ off = 4 → off' = 0 ∨ off' = 4 → off ≠ off' → 0 ≤ v < 2 ^ 32 →
  get_half (set_half w off v) off' = get_half w off'.
Proof.
  intros [->| ->] [->| ->] ? ?; try done.
  - by rewrite !get_half_high, set_half_div.
  - by rewrite !get_half_low, (proj2 (set_half_high w v)).
Qed.

(** The bytes outside of the half that is set. *)
Lemma byte_set_half w off v i :
  off = 0 ∨ off = 4 → 0 ≤ v < 2 ^ 32 → 0 ≤ i < 8 → ¬ (off ≤ i < off + 4) →
  byte_of (set_half w off v) i = byte_of w i.
Proof.
  intros Hoff Hv Hi Hn. rewrite !byte_of_mod by lia.
  destruct Hoff as [-> | ->].
  - replace (8 * i) with (32 + 8 * (i - 4)) by lia.
    rewrite Z.pow_add_r, <-!Z.div_div by (try apply Z.pow_pos_nonneg; lia).
    by rewrite set_half_div.
  - assert (∀ x, (x / 2 ^ (8 * i)) mod 256 = ((x mod 2 ^ 32) / 2 ^ (8 * i)) mod 256) as Hx.
    { intros x. rewrite <-!Z.shiftr_div_pow2, <-!(Z.land_ones _ 32) by lia.
      change 256 with (2 ^ 8). rewrite <-!(Z.land_ones _ 8) by lia.
      apply Z.bits_inj'. intros n Hn0. rewrite !Z.land_spec, !Z.shiftr_spec, Z.land_spec by lia.
      destruct (decide (n < 8)) as [H8|H8].
      - rewrite (Z.ones_spec_low 32) by lia. by rewrite andb_true_r.
      - rewrite (Z.ones_spec_high 8) by lia. by rewrite !andb_false_r. }
    rewrite (Hx (set_half w 4 v)), (Hx w). by rewrite (proj2 (set_half_high w v)).
Qed.

(** ** Accesses *)

Lemma aligned_offset t a :
  (size_of t | a) →
  match t with U64 => a mod word_size = 0 | I32 => a mod word_size = 0 ∨ a mod word_size = 4 end.
Proof.
  intros [k ->]. unfold word_size. destruct t; simpl.
  - pose proof (Z.mod_pos_bound (k * 4) 8). pose proof (Z.div_mod (k * 4) 8). lia.
  - by apply Z.mod_mul.
Qed.

(** All bytes of an aligned access lie in the same word. *)
Lemma aligned_byte t a i :
  (size_of t | a) → 0 ≤ i < size_of t →
  word_addr (a + i) = word_addr a ∧ (a + i) mod word_size = a mod word_size + i.
Proof.
  intros Ha Hi. apply aligned_offset in Ha.
  assert ((a + i) mod word_size = a mod word_size + i) as E.
  { rewrite <-Z.add_mod_idemp_l by done. apply Z.mod_small. unfold word_size in *.
    pose proof (Z.mod_pos_bound a 8). destruct t; simpl in Hi; lia. }
  split; [|done]. unfold word_addr. lia.
Qed.

Lemma scalar_in_byte t b a i : scalar_in t b a → 0 ≤ i < size_of t → byte_in b (a + i).
Proof. intros (_ & ? & ?) ?. unfold byte_in. lia. Qed.

Lemma word_addr_aligned a : (8 | a) → word_addr a = a.
Proof.
  intros Ha. unfold word_addr, word_size.
  rewrite (proj2 (Z.mod_divide a 8 ltac:(done)) Ha). lia.
Qed.

Lemma scalar_in_mapped hs he t b m a :
  mapped hs he m → block_ok hs he b → scalar_in t b a → is_Some (m !! word_addr a).
Proof.
  intros Hm Hb Ha. eapply byte_in_mapped; [done..|]. rewrite <-(Z.add_0_r a).
  eapply scalar_in_byte; [done|]. destruct t; simpl; lia.
Qed.

(** Loads depend only on the contents of the block. *)
Lemma load_preserved live b t m m' a :
  preserved live m m' → b ∈ live → scalar_in t b a → load t m' a = load t m a.
Proof.
  intros Hp Hb Ha. destruct (Hp b Hb) as [Hw Hx]. pose proof Ha as (Hal & ? & ?).
  unfold load, read_word. destruct t; simpl in *.
  - assert (∀ i, 0 ≤ i < 4 →
      (λ w, byte_of w (a mod word_size + i)) <$> m' !! word_addr a =
      (λ w, byte_of w (a mod word_size + i)) <$> m !! word_addr a) as Hi.
    { intros i Hi. pose proof (Hx (a + i) (scalar_in_byte I32 _ _ _ Ha Hi)) as E.
      unfold read_byte in E. destruct (aligned_byte I32 a i Hal Hi) as [E1 E2].
      by rewrite E1, E2 in E. }
    pose proof (Hi 0 ltac:(lia)). pose proof (Hi 1 ltac:(lia)).
    pose proof (Hi 2 ltac:(lia)). pose proof (Hi 3 ltac:(lia)). clear Hi.
    pose proof (aligned_offset I32 a Hal) as Hoff. simpl in Hoff.
    destruct (m' !! word_addr a) as [w'|], (m !! word_addr a) as [w|]; simplify_eq/=;
      [|done]. f_equal. rewrite !get_half_bytes by lia.
    rewrite Z.add_0_r in *. congruence.
  - assert (word_addr a = a) as -> by (by apply word_addr_aligned).
    rewrite Hw; [done|]. split_and!; [done..|]. unfold word_size. lia.
Qed.

(** A store writes the block only, and changes what is loaded at its address only. *)
Lemma store_spec hs he t b m a v :
  mapped hs he m → block_ok hs he b → scalar_in t b a → in_range t v →
  ∃ m', store t m a v = Done m' ∧ writes_in b m m' ∧ load t m' a = Done v ∧
    ∀ t' a', (size_of t' | a') → a' + size_of t' ≤ a ∨ a + size_of t ≤ a' →
             load t' m' a' = load t' m a'.
Proof.
  intros Hm Hb Ha Hv. destruct (scalar_in_mapped _ _ _ _ _ _ Hm Hb Ha) as [w Hw].
  pose proof Ha as (Hal & Hlo & Hhi). pose proof (aligned_offset t a Hal) as Hoff.
  unfold store. run (read_word_Done _ _ _ Hw). run write_word_Done by eauto.
  eexists. split; [done|]. split_and!.
  - destruct t.
    + split_and!.
      * intros w' Hn. rewrite lookup_insert_ne; [done|]. apply Hn.
        unfold byte_in. simpl in *. lia.
      * intros w'. apply is_Some_insert_word.
      * intros x Hx. unfold read_byte. destruct (decide (word_addr x = word_addr a)) as [E|E].
        2: by rewrite lookup_insert_ne.
        rewrite E, lookup_insert_eq, Hw. simpl. f_equal.
        apply byte_set_half; [done|exact Hv|apply Z.mod_pos_bound; done|].
        unfold byte_in, word_addr in *. simpl in *. lia.
    + assert (word_addr a = a) as -> by (by apply word_addr_aligned).
      apply writes_in_word. split_and!; done.
  - unfold load, read_word. rewrite lookup_insert_eq. run. f_equal.
    destruct t; [|done]. by apply get_set_half.
  - intros t' a' Ha' Hd. unfold load, read_word.
    destruct (decide (word_addr a' = word_addr a)) as [E|E]; [|by rewrite lookup_insert_ne].
    pose proof (aligned_offset t' a' Ha') as Hoff'.
    rewrite E, lookup_insert_eq, Hw. run. f_equal. unfold word_addr in E.
    destruct t, t'; simpl in *; try lia. apply get_set_half_ne; try done. lia.
Qed.
