(* ===== verification/Paging.v ===== *)
(** * Access to the page tables (src/src/memory.rs)

    [init] and [active_level_4_table]: the physical address of the active level 4 table
    comes from CR3, and since the boot loader maps all of physical memory at an offset,
    the kernel reaches the table through a pointer at that offset.  [OffsetPageTable] is
    the [x86_64] crate's type, outside the repository: a parameter. *)

From stdpp Require Import prelude gmap strings.
From S2P Require Import Prelude Memory HeapInit.

(** [OffsetPageTable::new], from the pointer to the level 4 table and the offset. *)
Class OffsetPageTable (M : Type) := { offset_page_table_new : Z → Z → M }.

Section paging.
Context `{X86Virt, OffsetPageTable M}.

(** [&mut *ptr] for a page table: a reference to a null or misaligned address is
    undefined behaviour, which counts as a fault. *)
Definition page_table_ref (ptr : Z) : outcome Z :=
  if bool_decide (ptr ≠ null ∧ ptr mod page_size = 0) then Done ptr else Faulted.

(** [active_level_4_table]; [cr3] is the frame that [Cr3::read] answers. *)
Definition active_level_4_table (cr3 physical_memory_offset : Z) : outcome Z :=
  let level_4_table_frame := cr3 in
  let phys := level_4_table_frame in
  virt ← virt_add physical_memory_offset phys;
  let page_table_ptr := virt in
  page_table_ref page_table_ptr.

(** [memory::init] *)
Definition memory_init (cr3 physical_memory_offset : Z) : outcome M :=
  level_4_table ← active_level_4_table cr3 physical_memory_offset;
  Done (offset_page_table_new level_4_table physical_memory_offset).

(** What the boot loader promises about the offset, and the CPU about CR3: both are page
    aligned, and the table lies in the lower half of the address space. *)
Definition paging_ok (cr3 offset : Z) : Prop :=
  0 < offset ∧ 0 ≤ cr3 ∧ offset + cr3 < 2 ^ 47 ∧ (page_size | offset) ∧ (page_size | cr3).

Lemma memory_init_spec `{!X86VirtLaws} cr3 offset :
  paging_ok cr3 offset → memory_init cr3 offset = Done (offset_page_table_new (offset + cr3) offset).
Proof.
  intros (Ho & Hc & Hs & Hdo & Hdc). unfold memory_init, active_level_4_table.
  run virt_add_ok by lia. unfold page_table_ref.
  rewrite bool_decide_eq_true_2; [done|]. split; [unfold null; lia|].
  apply Z.mod_divide; [done|]. by apply Z.divide_add_r.
Qed.

End paging.
