(* ===== verification/PageWalk.v ===== *)
(** * Walking and extending the page tables by hand (src/src/memory.rs, src/src/main.rs)

    The prototypes that the source keeps in comments: [translate_addr], which walks the
    four levels of the page tables, and [create_example_mapping] with the experiment of
    [kernel_main] that writes through the new mapping.  The file relates the walk to the
    one of the CPU: the prototype finds the same addresses, except that it panics where
    it meets a huge page, or an ordinary page with the bit set that marks huge pages on
    the upper levels. *)

From stdpp Require Import prelude gmap strings.
From S2P Require Import Prelude Layout Memory Access Frames HeapInit Paging Vga.

(** [FrameError] and the methods of the [x86_64] crate that the code uses: the table
    indices and the page offset of an address, the frame of a page table entry, and the
    sum of a physical address and an offset. *)
Inductive FrameError := FrameNotPresent | HugeFrame.

Class X86PageTable := {
  p4_index : Z → Z;
  p3_index : Z → Z;
  p2_index : Z → Z;
  p1_index : Z → Z;
  page_offset : Z → Z;
  entry_is_unused : Z → bool;
  entry_frame : Z → Z + FrameError;
  phys_add : Z → Z → outcome Z;
}.

(** The bits of an entry that hold the physical address. *)
Definition entry_address (e : Z) : Z := Z.land e 0xffffffffff000.
Definition entry_present (e : Z) : bool := Z.testbit e 0.
Definition entry_huge (e : Z) : bool := Z.testbit e 7.

(** The index into the table of a level, counted from zero at the lowest one. *)
Definition table_index (n : nat) (va : Z) : Z := (va / 2 ^ (12 + 9 * Z.of_nat n)) mod 512.

Class X86PageTableLaws `{X86PageTable} := {
  p4_index_spec va : 0 ≤ va < 2 ^ 47 → p4_index va = table_index 3 va;
  p3_index_spec va : 0 ≤ va < 2 ^ 47 → p3_index va = table_index 2 va;
  p2_index_spec va : 0 ≤ va < 2 ^ 47 → p2_index va = table_index 1 va;
  p1_index_spec va : 0 ≤ va < 2 ^ 47 → p1_index va = table_index 0 va;
  page_offset_spec va : 0 ≤ va < 2 ^ 47 → page_offset va = va mod page_size;
  entry_is_unused_spec e : entry_is_unused e = bool_decide (e = 0);
  entry_frame_spec e :
    entry_frame e = if negb (entry_present e) then inr FrameNotPresent
                    else if entry_huge e then inr HugeFrame else inl (entry_address e);
  phys_add_ok a n : 0 ≤ a → 0 ≤ n → a + n < 2 ^ 52 → phys_add a n = Done (a + n);
}.

Section translate.
Context `{X86Virt, X86PageTable}.
Implicit Types (m : mem).

(** The loop of [translate_addr_inner] over the indices; [None] is the early return. *)
Fixpoint walk_tables m (physical_memory_offset : Z) (table_indexes : list Z) (frame : Z)
    : outcome (option Z) :=
  match table_indexes with
  | [] => Done (Some frame)
  | index :: table_indexes' =>
      virt ← virt_add physical_memory_offset frame;
      let table_ptr := virt in
      table ← page_table_ref table_ptr;
      entry ← read_word m (table + word_size * index);
      match entry_frame entry with
      | inl frame => walk_tables m physical_memory_offset table_indexes' frame
      | inr FrameNotPresent => Done None
      | inr HugeFrame => Panicked "huge pages not supported"
      end
  end.

(** [translate_addr_inner]; [cr3] is the frame that [Cr3::read] answers. *)
Definition translate_addr_inner (cr3 : Z) m (addr physical_memory_offset : Z)
    : outcome (option Z) :=
  let level_4_table_frame := cr3 in
  let table_indexes := [p4_index addr; p3_index addr; p2_index addr; p1_index addr] in
  r ← walk_tables m physical_memory_offset table_indexes level_4_table_frame;
  match r with
  | None => Done None
  | Some frame => pa ← phys_add frame (page_offset addr); Done (Some pa)
  end.

Definition translate_addr (cr3 : Z) m (addr physical_memory_offset : Z) : outcome (option Z) :=
  translate_addr_inner cr3 m addr physical_memory_offset.

End translate.

(** ** A new mapping *)

Section example.
Context `{X86Virt, X86Phys, Mapper M F}.
Variable debug_map_error : MapToError M F → string.
Implicit Types (m : mem).

(** [create_example_mapping]; flushing the TLB entry has no effect in the model. *)
Definition create_example_mapping (page : Z) (mapper : M) (frame_allocator : F) m
    : outcome (M * F * mem) :=
  vga_address ← phys_addr_new 0xb8000;
  let frame := phys_containing_address vga_address in
  let flags := Z.lor flag_PRESENT flag_WRITABLE in
  '(map_to_result, mapper, frame_allocator, m) ← map_to mapper frame_allocator m page frame flags;
  match map_to_result with
  | inl _ => Done (mapper, frame_allocator, m)
  | inr e => Panicked ("map_to failed: " +:+ debug_map_error e)%string
  end.

End example.

Section experiment.
Context `{BuildProfile, X86Virt, X86Phys, !Mapper M BootInfoFrameAllocator, !OffsetPageTable M}.
Variable debug_map_error : MapToError M BootInfoFrameAllocator → string.

(** The experiment of [kernel_main]: map the unused page at address 0 to the frame of the
    screen and write four characters through it. *)
Definition write_through_mapping (cr3 : Z) (memory_map : list MemoryRegion)
    (physical_memory_offset : Z) (m : mem) : outcome (M * mem) :=
  phys_mem_offset ← virt_addr_new physical_memory_offset;
  mapper ← memory_init cr3 phys_mem_offset;
  let frame_allocator := Frames.init memory_map in
  addr ← virt_addr_new 0;
  let page := page_containing_address addr in
  '(mapper, _, m) ← create_example_mapping debug_map_error page mapper frame_allocator m;
  let page_ptr := page in
  m ← store U64 m (page_ptr + 400 * size_of U64) 0xf021f077f065f04e;
  Done (mapper, m).

End experiment.

(** Where the screen keeps a character, in two bytes: [ScreenChar] is [repr(C)]. *)
Definition char_address (row col : Z) : Z := 0xb8000 + 2 * (Z.of_nat BUFFER_WIDTH * row + col).
Definition char_bytes (c : ScreenChar) : list Z := [ascii_character c; code (color_code c)].

(** ** The CPU's walk *)

(** From the table of level [n + 1] at a physical address on: the last entry and the
    physical address that [va] is mapped to.  Entries of the two middle levels can map huge
    pages; in the top level the bit for that is reserved, and setting it is a fault; in the
    lowest level it means something else. *)
Fixpoint cpu_walk (pm : Z → Z) (level : nat) (table va : Z) : option (Z * Z) :=
  match level with
  | O => None
  | S n =>
      let e := pm (table + word_size * table_index n va) in
      let size := 2 ^ (12 + 9 * Z.of_nat n) in
      if negb (entry_present e) then None
      else if bool_decide (n = 3%nat) && entry_huge e then None
      else if bool_decide (n = 0%nat) || entry_huge e
           then Some (e, entry_address e - entry_address e mod size + va mod size)
           else cpu_walk pm n (entry_address e) va
  end.

(** The tables on the way lie in the first [limit] bytes of memory, and no reserved bit
    is set. *)
Fixpoint path_ok (pm : Z → Z) (limit : Z) (level : nat) (table va : Z) : Prop :=
  match level with
  | O => True
  | S n =>
      0 ≤ table ∧ (page_size | table) ∧ table + page_size ≤ limit ∧
      let e := pm (table + word_size * table_index n va) in
      entry_present e = true →
      (n = 3%nat → entry_huge e = false) ∧
      (entry_huge e = false → path_ok pm limit n (entry_address e) va)
  end.

(** The boot loader maps the physical memory, up to [limit], at the offset. *)
Definition physical_memory_mapped (m : mem) (pm : Z → Z) (offset limit : Z) : Prop :=
  0 < offset ∧ (page_size | offset) ∧ offset + limit ≤ 2 ^ 47 ∧
  ∀ a, 0 ≤ a → a + word_size ≤ limit → (word_size | a) → m !! (offset + a) = Some (pm a).

#[export] Instance path_ok_dec pm limit level table va : Decision (path_ok pm limit level table va).
Proof.
  revert table. induction level as [|n IH]; intros table; cbn [path_ok]; [apply _|].
  assert (∀ a, Decision (page_size | a)) as Hd.
  { intros a. destruct (decide (a mod page_size = 0)) as [Ha|Ha]; [left|right];
      by rewrite <-Z.mod_divide in *. }
  apply _.
Defined.

Lemma entry_address_eq e : entry_address e = ((e / page_size) mod 2 ^ 40) * page_size.
Proof.
  unfold entry_address, page_size. change 4096 with (2 ^ 12).
  rewrite <-Z.shiftl_mul_pow2, <-Z.shiftr_div_pow2, <-Z.land_ones by lia.
  change 0xffffffffff000 with (Z.shiftl (Z.ones 40) 12).
  apply Z.bits_inj'. intros i Hi. rewrite !Z.land_spec, !Z.shiftl_spec, Z.land_spec by done.
  destruct (decide (12 ≤ i)).
  - rewrite Z.shiftr_spec by lia. f_equal. f_equal. lia.
  - by rewrite !(Z.testbit_neg_r _ (i - 12)), !andb_false_r by lia.
Qed.

Lemma entry_address_bounds e :
  (page_size | entry_address e) ∧ 0 ≤ entry_address e ≤ 2 ^ 52 - page_size.
Proof.
  rewrite entry_address_eq. split; [apply Z.divide_factor_r|].
  pose proof (Z.mod_pos_bound (e / page_size) (2 ^ 40) ltac:(lia)). unfold page_size in *. lia.
Qed.

Lemma table_index_bound n va : 0 ≤ table_index n va < 512.
Proof. apply Z.mod_pos_bound. lia. Qed.

Section proofs.
Context `{X86VirtLaws, X86PageTableLaws}.
Variables (m : mem) (pm : Z → Z) (offset limit va : Z).
Hypothesis mapped_ok : physical_memory_mapped m pm offset limit.

(** The indices for the levels from [n] down. *)
Definition indexes_from (n : nat) : list Z := (λ k, table_index k va) <$> reverse (seq 0 n).

Lemma indexes_from_S n : indexes_from (S n) = table_index n va :: indexes_from n.
Proof. unfold indexes_from. rewrite seq_S, reverse_app. done. Qed.

(** A table in the mapped memory can be read through the offset. *)
Lemma table_readable table :
  0 ≤ table → (page_size | table) → table + page_size ≤ limit →
  virt_add offset table = Done (offset + table) ∧
  page_table_ref (offset + table) = Done (offset + table) ∧
  offset + table < 2 ^ 47 ∧
  ∀ idx, 0 ≤ idx < 512 →
    read_word m (offset + table + word_size * idx) = Done (pm (table + word_size * idx)).
Proof.
  destruct mapped_ok as (Ho & [k Hk] & Hl & Hm). intros Ht [j Hj] Hlim.
  unfold page_size, word_size in *. split_and!.
  - apply virt_add_ok; lia.
  - unfold page_table_ref, page_size. rewrite bool_decide_eq_true_2; [done|].
    split; [unfold null; lia|]. apply Z.mod_divide; [done|]. exists (k + j). lia.
  - lia.
  - intros idx Hi. rewrite <-Z.add_assoc. apply read_word_Done, Hm; [lia|unfold word_size; lia|].
    exists (512 * j + idx). unfold word_size. lia.
Qed.

(** One step of the loop reads the entry that the CPU reads. *)
Lemma walk_tables_step idx rest table :
  0 ≤ table → (page_size | table) → table + page_size ≤ limit → 0 ≤ idx < 512 →
  walk_tables m offset (idx :: rest) table =
    let e := pm (table + word_size * idx) in
    if negb (entry_present e) then Done None
    else if entry_huge e then Panicked "huge pages not supported"
    else walk_tables m offset rest (entry_address e).
Proof.
  intros Ht Hd Hlim Hi. destruct (table_readable table Ht Hd Hlim) as (Ev & Er & _ & Ew).
  cbn [walk_tables]. run Ev. run Er. run Ew by done. rewrite entry_frame_spec.
  by destruct (entry_present _), (entry_huge _).
Qed.

Lemma walk_tables_spec n table :
  path_ok pm limit (S n) table va →
  walk_tables m offset (indexes_from (S n)) table =
    match cpu_walk pm (S n) table va with
    | None => Done None
    | Some (e, pa) => if entry_huge e then Panicked "huge pages not supported"
                      else Done (Some (pa - va mod page_size))
    end.
Proof.
  revert table. induction n as [|n IH]; intros table (Ht & Hd & Hl & Hp); cbn zeta in Hp;
    rewrite indexes_from_S, walk_tables_step by (done || apply table_index_bound);
    set (e := pm _) in *; cbn [cpu_walk]; fold e; cbn zeta;
    (destruct (entry_present e); [|done]); destruct (Hp eq_refl) as [H3 Hrest]; clear Hp;
    cbn [negb].
  - change (bool_decide (0%nat = 3%nat)) with false. change (bool_decide (0%nat = 0%nat)) with true.
    cbn [andb orb]. destruct (entry_huge e); [done|]. cbn [walk_tables].
    destruct (entry_address_bounds e) as [[q Hq] _].
    change (2 ^ (12 + 9 * Z.of_nat 0)) with page_size.
    assert (entry_address e mod page_size = 0) as -> by (rewrite Hq; by apply Z.mod_mul).
    change (Done (Some (entry_address e)) =
      Done (Some (entry_address e - 0 + va mod page_size - va mod page_size))).
    do 2 f_equal. lia.
  - change (bool_decide (S n = 0%nat)) with false. cbn [orb].
    destruct (entry_huge e) eqn:Hh; [|rewrite andb_false_r; by apply IH, Hrest].
    rewrite bool_decide_eq_false_2 by (intros Hn; by specialize (H3 Hn)). cbn [andb]. by destruct (entry_huge e).
Qed.

End proofs.

Section properties.
Context `{X86VirtLaws, X86PageTableLaws}.

(** C28: [translate_addr] finds what the CPU finds, when the physical memory is mapped at
    the offset that it is given: the same physical address if the last entry of the CPU's
    walk does not have the bit for huge pages, and nothing if the address is not mapped.
    It panics exactly when that bit is set: for huge pages, as intended, and for an
    ordinary page in whose entry the bit has its other meaning. *)
Theorem translate_addr_agrees_with_cpu m pm offset limit cr3 va :
  physical_memory_mapped m pm offset limit → path_ok pm limit 4 cr3 va → 0 ≤ va < 2 ^ 47 →
  translate_addr cr3 m va offset =
    match cpu_walk pm 4 cr3 va with
    | None => Done None
    | Some (e, pa) => if entry_huge e then Panicked "huge pages not supported"
                      else Done (Some pa)
    end.
Proof.
  intros Hm Hp Hva. unfold translate_addr, translate_addr_inner.
  rewrite p4_index_spec, p3_index_spec, p2_index_spec, p1_index_spec, page_offset_spec by done.
  pose proof (walk_tables_spec m pm offset limit va Hm 3 cr3 Hp) as Hw.
  change (indexes_from va 4) with
    [table_index 3 va; table_index 2 va; table_index 1 va; table_index 0 va] in Hw.
  rewrite Hw. assert (∀ n table e pa, cpu_walk pm n table va = Some (e, pa) →
    entry_huge e = false → 0 ≤ pa - va mod page_size ∧ pa < 2 ^ 52) as Hpa.
  { clear - Hva. intros n. induction n as [|n IH]; intros table e pa; [done|]. cbn [cpu_walk].
    set (e0 := pm _). destruct (entry_present e0); [|done]. cbn [negb].
    destruct (_ && _); [done|]. destruct (entry_huge e0) eqn:Hh0.
    - rewrite orb_true_r. intros [= <- <-]. congruence.
    - rewrite orb_false_r. case_bool_decide as Hn; [|apply IH]. intros [= <- <-] _. subst n.
      change (2 ^ (12 + 9 * Z.of_nat 0)) with page_size.
      destruct (entry_address_bounds e0) as [[q Hq] ?].
      assert (entry_address e0 mod page_size = 0) as -> by (rewrite Hq; by apply Z.mod_mul).
      pose proof (Z.mod_pos_bound va page_size ltac:(done)). lia. }
  destruct (cpu_walk pm 4 cr3 va) as [[e pa]|] eqn:E; [|done]. destruct (entry_huge e) eqn:Hh; [done|].
  run. destruct (Hpa _ _ _ _ E Hh). pose proof (Z.mod_pos_bound va page_size ltac:(done)).
  run phys_add_ok by lia. do 2 f_equal. lia.
Qed.

End properties.

Section experiment_properties.
Context `{BuildProfile, X86VirtLaws, X86PhysLaws, !Mapper M BootInfoFrameAllocator}.
Context `{!OffsetPageTable M, !MapperLaws M BootInfoFrameAllocator}.

(** The experiment with a new mapping either panics because [map_to] failed, or ends
    with page 0 mapped to the frame of the screen, writable and without a change to other
    pages, and with the four characters of "New!", black on white, in the bytes of that
    page that are the start of row 20 of the screen. *)
Lemma new_mapping_shows_text debug_map_error cr3 mm offset m :
  paging_ok cr3 offset →
  match write_through_mapping (M := M) debug_map_error cr3 mm offset m with
  | Done (mapper', m') =>
      translate mapper' 0 = Some (0xb8000, heap_flags) ∧
      (∀ p, p ≠ 0 → translate mapper' p =
                    translate (offset_page_table_new (offset + cr3) offset) p) ∧
      ∀ i c, [78; 101; 119; 33] !! i = Some c →
        let x := char_address 20 (Z.of_nat i) - 0xb8000 in
        read_byte m' <$> [x; x + 1] =
          Some <$> char_bytes (mkScreenChar c (ColorCode_new Black White))
  | Panicked msg => ∃ e, msg = ("map_to failed: " +:+ debug_map_error e)%string
  | _ => False
  end.
Proof.
  intros Hp. pose proof Hp as (Ho & ? & ? & ? & ?). unfold write_through_mapping.
  run (virt_addr_new_ok offset) by lia. run memory_init_spec by done.
  run (virt_addr_new_ok 0) by done.
  rewrite page_containing_address_spec by done. change (0 - 0 mod page_size) with 0.
  unfold create_example_mapping. run phys_addr_new_ok by done.
  rewrite phys_containing_address_spec by done. change (0xb8000 - 0xb8000 mod frame_size) with 0xb8000.
  set (mp := offset_page_table_new _ _).
  destruct (map_to_returns mp (Frames.init mm) m 0 0xb8000 (Z.lor flag_PRESENT flag_WRITABLE))
    as (r & mp' & fa' & m1 & E & _).
  run E. destruct r as [u|e]; [|by eexists]. run.
  destruct (map_to_Ok _ _ _ _ _ _ _ _ _ _ E) as (Ht & Hother & Hmapped & _).
  destruct (Hmapped 3200) as [w Hw]; [by apply Z.mod_divide|done|done|].
  unfold store. change (word_addr (0 + 400 * size_of U64)) with 3200.
  run (read_word_Done m1 3200 w Hw). run write_word_Done by eauto.
  split_and!; [done|done|]. intros i c Hi.
  assert (∀ x, word_addr x = 3200 → read_byte (<[3200 := 0xf021f077f065f04e]> m1) x =
    Some (byte_of 0xf021f077f065f04e (x mod word_size))) as Hb.
  { intros x Hx. unfold read_byte. by rewrite Hx, lookup_insert_eq. }
  destruct i as [|[|[|[|i]]]]; cbn in Hi; [injection Hi as <-..|done]; cbn [fmap list_fmap];
    rewrite !Hb by done; done.
Qed.

End experiment_properties.

(** ** Witnesses *)

#[local] Existing Instances dev_profile phys_model phys_model_laws virt_model virt_model_laws
  mapper_model mapper_model_laws.

Definition page_table_model : X86PageTable := {|
  p4_index := table_index 3;
  p3_index := table_index 2;
  p2_index := table_index 1;
  p1_index := table_index 0;
  page_offset va := va mod page_size;
  entry_is_unused e := bool_decide (e = 0);
  entry_frame e := if negb (entry_present e) then inr FrameNotPresent
                   else if entry_huge e then inr HugeFrame else inl (entry_address e);
  phys_add a n := if bool_decide (a + n < 2 ^ 52) then Done (a + n) else Panicked "overflow";
|}.

Lemma page_table_model_laws : @X86PageTableLaws page_table_model.
Proof. split; cbn; try done. intros a n _ _ Hn. by rewrite bool_decide_eq_true_2. Qed.

#[local] Existing Instances page_table_model page_table_model_laws.

(** A single frame at the physical address 0 that is the table of every level, with these
    entries. *)
Definition tables_offset : Z := 0x180000000000.
Definition make_tables (entries : list (Z * Z)) : mem :=
  foldr (λ '(i, e), <[tables_offset + word_size * i := e]>) (heap_words tables_offset 512) entries.
Definition physical_of (m : mem) (a : Z) : Z := default 0 (m !! (tables_offset + a)).

Lemma make_tables_mapped entries :
  physical_memory_mapped (make_tables entries) (physical_of (make_tables entries)) tables_offset 0x1000.
Proof.
  split_and!; [done|by apply Z.mod_divide|done|]. intros a Ha Hl [k Hk].
  assert (mapped tables_offset (tables_offset + 8 * 512) (make_tables entries)) as Hm.
  { induction entries as [|[i e] entries IH]; cbn [make_tables foldr]; [|by apply mapped_insert].
    apply (heap_words_mapped tables_offset 512). by apply Z.mod_divide. }
  destruct (Hm (tables_offset + a)) as [v Hv]; unfold word_size in *.
  - exists (0x30000000000 + k). unfold tables_offset. lia.
  - lia.
  - lia.
  - unfold physical_of. by rewrite Hv.
Qed.

(** Entries 1 to 3 lead back to the frame, entry 4 to the frame 0x5000, entry 5 to a frame
    with the bit that means a huge page elsewhere, and entry 6 to a huge page. *)
Definition sample_tables : mem :=
  make_tables [(1, 3); (2, 3); (3, 3); (4, 0x5003); (5, 0x6081); (6, 0x400083)].
Definition sample_address (p2 p1 offset : Z) : Z :=
  1 * 2 ^ 39 + 2 * 2 ^ 30 + p2 * 2 ^ 21 + p1 * 2 ^ 12 + offset.
Definition sample_physical : Z → Z := physical_of sample_tables.

Lemma sample_tables_mapped :
  physical_memory_mapped sample_tables sample_physical tables_offset 0x1000.
Proof. apply make_tables_mapped. Qed.

Lemma sample_path va :
  va ∈ [sample_address 3 4 8; sample_address 3 5 16; sample_address 6 0 24] →
  path_ok sample_physical 0x1000 4 0 va.
Proof.
  rewrite !elem_of_cons, elem_of_nil.
  intros [->|[->|[->|[]]]]; apply (bool_decide_unpack _); vm_compute; exact I.
Qed.

(** An ordinary page, one with the other bit, and a huge page. *)
Lemma translate_addr_agrees_with_cpu_witness :
  translate_addr 0 sample_tables (sample_address 3 4 8) tables_offset = Done (Some 0x5008) ∧
  translate_addr 0 sample_tables (sample_address 3 5 16) tables_offset =
    Panicked "huge pages not supported" ∧
  translate_addr 0 sample_tables (sample_address 6 0 24) tables_offset =
    Panicked "huge pages not supported" ∧
  cpu_walk sample_physical 4 0 (sample_address 3 5 16) = Some (0x6081, 0x6010).
Proof.
  pose proof (λ va Hva H0, translate_addr_agrees_with_cpu sample_tables sample_physical tables_offset
    0x1000 0 va sample_tables_mapped (sample_path va Hva) H0) as Ht.
  split_and!.
  - rewrite Ht; [vm_compute; reflexivity|left|done].
  - rewrite Ht; [vm_compute; reflexivity|right; left|done].
  - rewrite Ht; [vm_compute; reflexivity|right; right; left|done].
  - vm_compute. reflexivity.
Defined.

Definition example_page_table : OffsetPageTable (gmap Z (Z * Z)) :=
  {| offset_page_table_new _ _ := ∅ |}.
#[local] Existing Instance example_page_table.

Lemma tables_paging_ok : paging_ok 0x1000 tables_offset.
Proof. split_and!; try done; by apply Z.mod_divide. Qed.

Definition show_map_error (_ : MapToError (gmap Z (Z * Z)) BootInfoFrameAllocator) : string :=
  "error".

Definition sample_experiment :=
  write_through_mapping (M := gmap Z (Z * Z)) show_map_error 0x1000 sample_map tables_offset ∅.

Lemma sample_experiment_returns :
  match sample_experiment with Done _ => true | _ => false end = true.
Proof. vm_compute. reflexivity. Qed.

(** The last character, "!". *)
Lemma new_mapping_shows_text_witness :
  ∃ (mapper' : gmap Z (Z * Z)) m', sample_experiment = Done (mapper', m') ∧
    mapper' !! 0 = Some (0xb8000, heap_flags) ∧
    read_byte m' 3206 = Some 33 ∧ read_byte m' 3207 = Some 0xf0.
Proof.
  pose proof (new_mapping_shows_text (M := gmap Z (Z * Z)) show_map_error 0x1000 sample_map
    tables_offset ∅ tables_paging_ok) as Hs.
  fold sample_experiment in Hs. pose proof sample_experiment_returns as Hd.
  destruct sample_experiment as [[mapper' m']|msg| |]; try discriminate Hd.
  destruct Hs as (Ht & _ & Hb). specialize (Hb 3%nat 33 eq_refl). cbn in Hb.
  exists mapper', m'. injection Hb as H1 H2. by split_and!.
Defined.
