(* ===== verification/Collections.v ===== *)
(** * Heap collections: Box, Vec and Rc of the alloc crate

    [kernel_main] (src/src/main.rs) and the heap tests (src/tests/heap_allocation.rs)
    use the collections of Rust's [alloc] crate, which call the global allocator.  The
    file models the operations the kernel uses, on the words of memory, over any
    implementation of the allocator interface, and the allocation error handler of
    src/src/lib.rs.

    The proofs use a small program logic: an [object] is an allocated block with the
    values known to be stored in it, and [hown objs] says that exactly these objects
    are allocated.  Rules for the accesses and calls change one object at a time. *)

From stdpp Require Import prelude gmap strings.
From S2P Require Import Prelude Layout Memory Access GlobalAlloc.

(** ** Programs over the heap *)

Abbreviation heapM A := (stM (A * mem)).

(** [assert_eq!] *)
Definition assert_eq {A} (x y : Z) : heapM A unit := λ s,
  _ ← rust_assert (bool_decide (x = y)) "assertion failed: `(left == right)`"; Done ((), s).

(** How the core library renders a layout for [{:?}], which depends on the compiler. *)
Class DebugLayout := { debug_layout : Layout → string }.

Definition alloc_error `{DebugLayout} (layout : Layout) : string :=
  ("allocation error: " +:+ debug_layout layout)%string.

Record vec := mkVec { vec_ptr : Z; vec_cap : Z; vec_len : Z }.

Section operations.
Context `{DebugLayout} `{AllocOps A}.

Definition h_alloc (l : Layout) : heapM A Z := λ s,
  '(p, a, m) ← op_alloc l s.1 s.2; Done (p, (a, m)).
Definition h_dealloc (p : Z) (l : Layout) : heapM A unit := λ s,
  '(a, m) ← op_dealloc p l s.1 s.2; Done ((), (a, m)).
Definition h_load (t : scalar) (p : Z) : heapM A Z := λ s,
  v ← load t s.2 p; Done (v, s).
Definition h_store (t : scalar) (p v : Z) : heapM A unit := λ s,
  m ← store t s.2 p v; Done ((), (s.1, m)).

(** [alloc_error_handler] *)
Definition alloc_error_handler {R} (layout : Layout) : heapM A R := λ _,
  Panicked (alloc_error layout).

(** Allocation by a collection: a null pointer goes to the error handler. *)
Definition allocate (l : Layout) : heapM A Z :=
  p ← h_alloc l; if bool_decide (p = null) then alloc_error_handler l else mret p.

(** *** Box *)

Definition scalar_layout (t : scalar) : Layout := mkLayout (size_of t) (size_of t).

Definition box_new (t : scalar) (v : Z) : heapM A Z :=
  p ← allocate (scalar_layout t); _ ← h_store t p v; mret p.
Definition box_get (t : scalar) (p : Z) : heapM A Z := h_load t p.
Definition box_drop (t : scalar) (p : Z) : heapM A unit := h_dealloc p (scalar_layout t).

(** *** Vec *)

(** [Layout::array] *)
Definition layout_array (t : scalar) (n : Z) : option Layout :=
  from_size_align (size_of t * n) (size_of t).

Definition array_layout (t : scalar) (n : Z) : Layout := mkLayout (size_of t * n) (size_of t).

(** [copy_nonoverlapping] of [n] elements. *)
Fixpoint copy_nonoverlapping (t : scalar) (src dst : Z) (n : nat) : heapM A unit :=
  match n with
  | O => mret ()
  | S n' =>
      v ← h_load t src; _ ← h_store t dst v;
      copy_nonoverlapping t (src + size_of t) (dst + size_of t) n'
  end.

(** The provided method [GlobalAlloc::realloc]. *)
Definition realloc (t : scalar) (ptr : Z) (layout : Layout) (new_size : Z) : heapM A Z :=
  new_ptr ← h_alloc (mkLayout new_size (l_align layout));
  if bool_decide (new_ptr = null) then mret null
  else
    _ ← copy_nonoverlapping t ptr new_ptr
          (Z.to_nat (Z.min (l_size layout) new_size / size_of t));
    _ ← h_dealloc ptr layout;
    mret new_ptr.

(** [Vec::new]: no allocation, a dangling aligned pointer. *)
Definition vec_new (t : scalar) : vec := mkVec (size_of t) 0 0.

(** [RawVec::grow_amortized]: at least double the capacity, at least four elements. *)
Definition vec_grow (t : scalar) (v : vec) : heapM A vec :=
  let cap := Z.max (Z.max (vec_cap v * 2) (vec_len v + 1)) 4 in
  match layout_array t cap with
  | None => λ _, Panicked "capacity overflow"
  | Some new_layout =>
      ptr ← (if bool_decide (vec_cap v = 0) then h_alloc new_layout
             else realloc t (vec_ptr v) (array_layout t (vec_cap v)) (l_size new_layout));
      if bool_decide (ptr = null) then alloc_error_handler new_layout
      else mret (mkVec ptr cap (vec_len v))
  end.

Definition vec_push (t : scalar) (v : vec) (x : Z) : heapM A vec :=
  v ← (if bool_decide (vec_len v = vec_cap v) then vec_grow t v else mret v);
  _ ← h_store t (vec_ptr v + size_of t * vec_len v) x;
  mret (mkVec (vec_ptr v) (vec_cap v) (vec_len v + 1)).

(** [for x in xs { vec.push(x) }] *)
Fixpoint vec_extend (t : scalar) (v : vec) (xs : list Z) : heapM A vec :=
  match xs with
  | [] => mret v
  | x :: xs' => v ← vec_push t v x; vec_extend t v xs'
  end.

(** [v[i]] *)
Definition vec_get (t : scalar) (v : vec) (i : Z) : heapM A Z :=
  if bool_decide (0 ≤ i < vec_len v) then h_load t (vec_ptr v + size_of t * i)
  else λ _, Panicked "index out of bounds".

(** The elements, as iterating over the vector loads them. *)
Fixpoint vec_iter (t : scalar) (p : Z) (n : nat) : heapM A (list Z) :=
  match n with
  | O => mret []
  | S n' => x ← h_load t p; xs ← vec_iter t (p + size_of t) n'; mret (x :: xs)
  end.
Definition vec_to_list (t : scalar) (v : vec) : heapM A (list Z) :=
  vec_iter t (vec_ptr v) (Z.to_nat (vec_len v)).

Definition vec_drop (t : scalar) (v : vec) : heapM A unit :=
  if bool_decide (vec_cap v = 0) then mret ()
  else h_dealloc (vec_ptr v) (array_layout t (vec_cap v)).

(** [vec![..]]: an allocation of exactly the elements. *)
Fixpoint store_all (t : scalar) (p : Z) (xs : list Z) : heapM A unit :=
  match xs with
  | [] => mret ()
  | x :: xs' => _ ← h_store t p x; store_all t (p + size_of t) xs'
  end.
Definition vec_of (t : scalar) (xs : list Z) : heapM A vec :=
  let n := Z.of_nat (length xs) in
  if bool_decide (n = 0) then mret (vec_new t)
  else
    p ← allocate (array_layout t n);
    _ ← store_all t p xs;
    mret (mkVec p n n).

(** *** Rc of a vector: the two counts, then the vector's fields *)

Definition rc_layout : Layout := mkLayout 40 8.

Definition rc_new (v : vec) : heapM A Z :=
  p ← allocate rc_layout;
  _ ← h_store U64 p 1;
  _ ← h_store U64 (p + 8) 1;
  _ ← h_store U64 (p + 16) (vec_ptr v);
  _ ← h_store U64 (p + 24) (vec_cap v);
  _ ← h_store U64 (p + 32) (vec_len v);
  mret p.

(** [Rc::clone]; a count that would wrap around aborts. *)
Definition rc_clone (p : Z) : heapM A Z :=
  strong ← h_load U64 p;
  if bool_decide (strong + 1 < usize_modulus) then _ ← h_store U64 p (strong + 1); mret p
  else λ _, Panicked "abort".

Definition rc_strong_count (p : Z) : heapM A Z := h_load U64 p.

(** Dropping a reference; the last one drops the vector and frees the block. *)
Definition rc_drop (t : scalar) (p : Z) : heapM A unit :=
  strong ← h_load U64 p;
  _ ← h_store U64 p (strong - 1);
  if bool_decide (strong - 1 = 0) then
    ptr ← h_load U64 (p + 16); cap ← h_load U64 (p + 24); len ← h_load U64 (p + 32);
    _ ← vec_drop t (mkVec ptr cap len);
    weak ← h_load U64 (p + 8);
    _ ← h_store U64 (p + 8) (weak - 1);
    if bool_decide (weak - 1 = 0) then h_dealloc p rc_layout else mret ()
  else mret ().

End operations.

(** ** Objects *)

Record cell := mkCell { c_ty : scalar; c_addr : Z; c_val : Z }.

Definition object : Type := block * list cell.

Definition cell_ok (b : block) (m : mem) (c : cell) : Prop :=
  scalar_in (c_ty c) b (c_addr c) ∧ load (c_ty c) m (c_addr c) = Done (c_val c) ∧
  in_range (c_ty c) (c_val c).

Definition objects_ok (m : mem) (objs : list object) : Prop :=
  Forall (λ o, Forall (cell_ok o.1 m) o.2) objs.

(** The cell does not overlap an access of type [t] at [a]. *)
Definition cell_apart (t : scalar) (a : Z) (c : cell) : Prop :=
  c_addr c + size_of (c_ty c) ≤ a ∨ a + size_of t ≤ c_addr c.

(** The cells of consecutive elements. *)
Fixpoint elem_cells (t : scalar) (p : Z) (xs : list Z) : list cell :=
  match xs with
  | [] => []
  | x :: xs' => mkCell t p x :: elem_cells t (p + size_of t) xs'
  end.

Lemma size_of_pos t : 0 < size_of t.
Proof. by destruct t. Qed.

Lemma elem_cells_app t p xs ys :
  elem_cells t p (xs ++ ys) =
  elem_cells t p xs ++ elem_cells t (p + size_of t * Z.of_nat (length xs)) ys.
Proof.
  revert p. induction xs as [|x xs IH]; intros p; simpl; [by rewrite Z.mul_0_r, Z.add_0_r|].
  f_equal. rewrite IH. do 2 f_equal. lia.
Qed.

Lemma elem_cells_bound t p xs c :
  c ∈ elem_cells t p xs →
  c_ty c = t ∧ p ≤ c_addr c ∧ c_addr c + size_of t ≤ p + size_of t * Z.of_nat (length xs).
Proof.
  revert p. induction xs as [|x xs IH]; intros p; simpl; [by intros ?%elem_of_nil|].
  pose proof (size_of_pos t).
  intros [->|Hc]%elem_of_cons; [simpl; split_and!; [done|lia..]|].
  destruct (IH _ Hc) as (? & ? & ?). split_and!; [done|lia..].
Qed.

Section logic.
Context `{DebugLayout} `{AllocSpec A}.
Variables (hs he : Z) (Err : string → Prop).
Implicit Types (objs : list object) (a : A) (m : mem).

(** Exactly these objects are allocated in the heap [hs, he). *)
Definition hown objs : A * mem → Prop := λ s,
  as_inv hs he objs.*1 s.1 s.2 ∧ objects_ok s.2 objs.

Abbreviation htriple := (htriple (S := A * mem) Err).

Lemma htriple_error {R} P l (Q : R → A * mem → Prop) :
  Err (alloc_error l) → htriple P (alloc_error_handler l) Q.
Proof. by intros HE s Hs. Qed.

(** Allocation errors are possible. *)
Definition may_fail : Prop := ∀ l, Err (alloc_error l).

Lemma hown_perm objs objs' s : objs ≡ₚ objs' → hown objs s → hown objs' s.
Proof.
  intros Hp [Hi Ho]. split; [|by unfold objects_ok; rewrite <-Hp].
  eapply as_perm; [|exact Hi]. by rewrite Hp.
Qed.

Lemma hown_sound objs s : hown objs s → blocks_ok hs he objs.*1.
Proof. intros [Hi _]. by eapply as_sound. Qed.

(** Values may be forgotten. *)
Lemma hown_forget b C C' objs s : C' ⊆ C → hown ((b, C) :: objs) s → hown ((b, C') :: objs) s.
Proof.
  intros Hs [Hi [Hc Ho]%Forall_cons]. split; [done|]. constructor; [|done]. simpl in *.
  rewrite Forall_forall in Hc |- *. auto.
Qed.

Lemma objects_preserved objs m m' :
  preserved objs.*1 m m' → objects_ok m objs → objects_ok m' objs.
Proof.
  intros Hp. unfold objects_ok. rewrite !Forall_forall. intros Ho o Hin.
  specialize (Ho o Hin). rewrite Forall_forall in Ho |- *. intros c Hc.
  destruct (Ho c Hc) as (Hs & Hl & Hr). split_and!; [done| |done].
  rewrite <-Hl. eapply load_preserved; [done| |done]. by apply list_elem_of_fmap_2.
Qed.

(** *** Rules *)

Lemma htriple_alloc objs l :
  as_admits l →
  htriple (hown objs) (h_alloc l) (λ p, λ s,
    p = null ∧ hown objs s ∨ p ≠ null ∧ hown ((mkBlock p l, []) :: objs) s).
Proof.
  intros Hl [a m] [Hi Ho]. simpl in *.
  destruct (as_alloc _ _ _ _ _ _ Hi Hl) as (p & a' & m' & E & Hp & Hinv).
  unfold h_alloc. simpl. rewrite E. run.
  pose proof (objects_preserved _ _ _ Hp Ho) as Ho'.
  case_decide; [left|right]; (split; [done|]); split; try done.
  by constructor.
Qed.

Lemma htriple_allocate objs l :
  may_fail → as_admits l →
  htriple (hown objs) (allocate l) (λ p, λ s, p ≠ null ∧ hown ((mkBlock p l, []) :: objs) s).
Proof.
  intros HE Hl. eapply htriple_bind; [by apply htriple_alloc|]. intros p s Hs. cbv beta.
  case_bool_decide as Hp; [apply (htriple_error (λ _, True) _ _ (HE l) s I)|].
  destruct Hs as [[? _]|[? Hs]]; [done|]. by split.
Qed.

Lemma htriple_dealloc b C objs :
  htriple (hown ((b, C) :: objs)) (h_dealloc (b_ptr b) (b_layout b)) (λ _, hown objs).
Proof.
  intros [a m] [Hi [_ Ho]%Forall_cons]. simpl in *.
  destruct (as_dealloc _ _ _ _ _ _ Hi) as (a' & m' & E & Hp & Hinv).
  unfold h_dealloc. simpl. rewrite E. run. split; [done|]. by eapply objects_preserved.
Qed.

Lemma htriple_load b C objs t p v :
  mkCell t p v ∈ C →
  htriple (hown ((b, C) :: objs)) (h_load t p) (λ r s, r = v ∧ hown ((b, C) :: objs) s).
Proof.
  intros Hin [a m] Hs. pose proof Hs as [_ [Hc _]%Forall_cons]. simpl in *.
  rewrite Forall_forall in Hc. destruct (Hc _ Hin) as (_ & E & _). simpl in E.
  unfold h_load. simpl. rewrite E. run. done.
Qed.

Lemma htriple_store b C C' objs t p v :
  scalar_in t b p → in_range t v → C' ⊆ C → Forall (cell_apart t p) C' →
  htriple (hown ((b, C) :: objs)) (h_store t p v)
    (λ _, hown ((b, mkCell t p v :: C') :: objs)).
Proof.
  intros Hsc Hr Hsub Hap [a m] Hs%(hown_forget b C C' objs _ Hsub).
  pose proof (hown_sound _ _ Hs) as Hok. pose proof Hok as [[Hb _]%Forall_cons _].
  destruct Hs as [Hi [Hc Ho]%Forall_cons]. simpl in *.
  destruct (store_spec hs he t b m p v (as_mapped _ _ _ _ _ Hi) Hb Hsc Hr)
    as (m' & E & Hw & Hl & Hoth).
  unfold h_store. simpl. rewrite E. run. split.
  - simpl. eapply as_write; [done| |done]. left.
  - pose proof (writes_in_preserved _ _ _ _ _ _ Hok Hw) as Hpr.
    constructor; [|by eapply objects_preserved]. simpl. constructor; [by split_and!|].
    rewrite Forall_forall in Hc, Hap |- *. intros c Hin. destruct (Hc c Hin) as (Hci & Hcl & ?).
    split_and!; [done| |done]. simpl. rewrite Hoth; [done|by destruct Hci|by apply Hap].
Qed.

End logic.

(** ** Collections as objects *)

(** The allocator serves every small layout with at most word alignment. *)
Class AdmitsSmall (A : Type) `{AllocSpec A} :=
  admits_small l : layout_valid l → 0 < l_size l ≤ 2 ^ 62 → l_align l ≤ 8 → as_admits l.

Definition box_obj (t : scalar) (p v : Z) : object :=
  (mkBlock p (scalar_layout t), [mkCell t p v]).

Definition vec_block (t : scalar) (v : vec) : block :=
  mkBlock (vec_ptr v) (array_layout t (vec_cap v)).

(** A vector with the elements [xs]: nothing is allocated while it has no capacity. *)
Definition vec_objs (t : scalar) (v : vec) (xs : list Z) : list object :=
  if bool_decide (vec_cap v = 0) then [] else [(vec_block t v, elem_cells t (vec_ptr v) xs)].

Definition vec_ok (t : scalar) (v : vec) (xs : list Z) : Prop :=
  vec_len v = Z.of_nat (length xs) ∧ vec_len v ≤ vec_cap v ∧ Forall (in_range t) xs.

(** The capacity is at most twice what is needed. *)
Definition vec_tight (v : vec) : Prop :=
  vec_cap v = 0 ∨ vec_cap v = 4 ∨ vec_cap v < 2 * vec_len v.

Definition rc_obj (p strong weak : Z) (v : vec) : object :=
  (mkBlock p rc_layout,
   [mkCell U64 p strong; mkCell U64 (p + 8) weak; mkCell U64 (p + 16) (vec_ptr v);
    mkCell U64 (p + 24) (vec_cap v); mkCell U64 (p + 32) (vec_len v)]).

Definition max_cap : Z := 2 ^ 58.

Lemma array_layout_valid t n : 0 < n ≤ 2 * max_cap →
  layout_valid (array_layout t n) ∧ 0 < l_size (array_layout t n) ≤ 2 ^ 62 ∧
  l_align (array_layout t n) ≤ 8 ∧ layout_array t n = Some (array_layout t n).
Proof.
  unfold max_cap, layout_array, from_size_align, array_layout, layout_valid. intros.
  assert (is_power_of_two (size_of t) = true) as -> by (by destruct t).
  rewrite bool_decide_eq_true_2 by (destruct t; cbn [size_of]; unfold isize_max; lia).
  destruct t; cbn [size_of l_size l_align]; split_and!; try done; unfold isize_max; lia.
Qed.

Ltac solve_apart := repeat constructor; unfold cell_apart; simpl; lia.

Section accesses.
Context `{DebugLayout} `{AllocSpec A}.
Variables (hs he : Z) (Err : string → Prop).
Abbreviation hown := (hown hs he).
Abbreviation htriple := (htriple (S := A * mem) Err).
Implicit Types (objs : list object).

(** A store to the element [i] of an array; the known elements lie before it. *)
Lemma htriple_store_elem p t n C objs i x :
  0 ≤ i < n → in_range t x → Forall (λ c, c_addr c + size_of (c_ty c) ≤ p + size_of t * i) C →
  htriple (hown ((mkBlock p (array_layout t n), C) :: objs)) (h_store t (p + size_of t * i) x)
    (λ _, hown ((mkBlock p (array_layout t n), mkCell t (p + size_of t * i) x :: C) :: objs)).
Proof.
  intros Hi Hx HC s Hs. pose proof (hown_sound _ _ _ _ Hs) as [[(_ & Hal & _) _]%Forall_cons _].
  simpl in Hal. pose proof (size_of_pos t).
  eapply (htriple_store hs he Err _ C C); [|done|done| |exact Hs].
  - split_and!; simpl; [|nia..]. apply Z.divide_add_r; [done|apply Z.divide_factor_l].
  - eapply Forall_impl; [exact HC|]. intros c ?. by left.
Qed.

(** Storing the elements of an array one after the other. *)
Lemma htriple_store_all p t n i C objs xs :
  0 ≤ i → i + Z.of_nat (length xs) ≤ n → Forall (in_range t) xs →
  Forall (λ c, c_addr c + size_of (c_ty c) ≤ p + size_of t * i) C →
  htriple (hown ((mkBlock p (array_layout t n), C) :: objs))
    (store_all t (p + size_of t * i) xs)
    (λ _, hown ((mkBlock p (array_layout t n),
                 C ++ elem_cells t (p + size_of t * i) xs) :: objs)).
Proof.
  revert i C. induction xs as [|x xs IH]; intros i C Hi Hn Hxs HC; cbn [store_all elem_cells].
  { rewrite app_nil_r. by apply htriple_ret. }
  apply Forall_cons in Hxs as [Hx Hxs]. rewrite length_cons in Hn. pose proof (size_of_pos t).
  eapply htriple_bind; [apply htriple_store_elem; [lia|done..]|]. intros [].
  replace (p + size_of t * i + size_of t) with (p + size_of t * (i + 1)) by lia.
  eapply htriple_conseq; [intros s Hs; exact Hs| |apply IH; [lia|lia|done|]].
  - intros [] s. apply hown_forget. set_solver.
  - constructor; [simpl; lia|]. eapply Forall_impl; [exact HC|]. intros c ?. simpl in *. nia.
Qed.

(** Copying elements into a fresh array. *)
Lemma htriple_copy src dst t n i C bs Cs objs xs :
  0 ≤ i → i + Z.of_nat (length xs) ≤ n → Forall (in_range t) xs →
  elem_cells t src xs ⊆ Cs →
  Forall (λ c, c_addr c + size_of (c_ty c) ≤ dst + size_of t * i) C →
  htriple (hown ((mkBlock dst (array_layout t n), C) :: (bs, Cs) :: objs))
    (copy_nonoverlapping t src (dst + size_of t * i) (length xs))
    (λ _, hown ((mkBlock dst (array_layout t n),
                 C ++ elem_cells t (dst + size_of t * i) xs) :: (bs, Cs) :: objs)).
Proof.
  revert src i C. induction xs as [|x xs IH]; intros src i C Hi Hn Hxs Hsrc HC;
    cbn [copy_nonoverlapping elem_cells length].
  { rewrite app_nil_r. by apply htriple_ret. }
  apply Forall_cons in Hxs as [Hx Hxs]. rewrite length_cons in Hn. pose proof (size_of_pos t).
  cbn [elem_cells] in Hsrc.
  eapply htriple_bind.
  { eapply htriple_pre; [|apply (htriple_load hs he Err bs Cs
      ((mkBlock dst (array_layout t n), C) :: objs) t src x); set_solver].
    intros s. apply hown_perm. solve_Permutation. }
  intros v. apply htriple_pure. intros ->.
  eapply htriple_bind.
  { eapply htriple_pre; [|apply (htriple_store_elem dst t n C ((bs, Cs) :: objs) i x);
      [lia|done..]]. intros s. apply hown_perm. solve_Permutation. }
  intros [].
  replace (dst + size_of t * i + size_of t) with (dst + size_of t * (i + 1)) by lia.
  eapply htriple_conseq; [intros s Hs; exact Hs| |apply IH; [lia|lia|done|set_solver|]].
  - intros [] s. apply hown_forget. set_solver.
  - constructor; [simpl; lia|]. eapply Forall_impl; [exact HC|]. intros c ?. simpl in *. nia.
Qed.

Lemma htriple_box_init objs t p v :
  in_range t v →
  htriple (hown ((mkBlock p (scalar_layout t), []) :: objs)) (h_store t p v)
    (λ _, hown (box_obj t p v :: objs)).
Proof.
  intros Hv s Hs. pose proof (hown_sound _ _ _ _ Hs) as [[(_ & Hal & _) _]%Forall_cons _].
  eapply (htriple_store hs he Err _ [] []); [|done|done|constructor|exact Hs].
  split_and!; simpl; [done|lia..].
Qed.

Lemma htriple_box_get objs t p v :
  htriple (hown (box_obj t p v :: objs)) (box_get t p) (λ r s,
    r = v ∧ hown (box_obj t p v :: objs) s).
Proof. apply htriple_load. set_solver. Qed.

Lemma htriple_box_drop objs t p v :
  htriple (hown (box_obj t p v :: objs)) (box_drop t p) (λ _, hown objs).
Proof. apply (htriple_dealloc hs he Err (mkBlock p (scalar_layout t))). Qed.

Lemma vec_new_ok t : vec_ok t (vec_new t) [] ∧ vec_tight (vec_new t).
Proof. split; [split_and!; [done|done|constructor]|by left]. Qed.

(** Iterating loads the elements in order. *)
Lemma htriple_vec_iter t p b C xs objs :
  elem_cells t p xs ⊆ C →
  htriple (hown ((b, C) :: objs)) (vec_iter t p (length xs)) (λ r s,
    r = xs ∧ hown ((b, C) :: objs) s).
Proof.
  revert p. induction xs as [|x xs IH]; intros p Hin; cbn [vec_iter length elem_cells] in *.
  { by apply htriple_ret. }
  eapply htriple_bind; [apply (htriple_load _ _ _ _ _ _ _ _ x); set_solver|].
  intros v. apply htriple_pure. intros ->. eapply htriple_bind; [apply IH; set_solver|].
  intros r. apply htriple_pure. intros ->. by apply htriple_ret.
Qed.

Lemma htriple_vec_to_list t v xs objs :
  vec_ok t v xs →
  htriple (hown (vec_objs t v xs ++ objs)) (vec_to_list t v) (λ r s,
    r = xs ∧ hown (vec_objs t v xs ++ objs) s).
Proof.
  intros (Hlen & Hle & _). unfold vec_to_list. rewrite Hlen, Nat2Z.id. unfold vec_objs.
  case_bool_decide as Hz; [|by apply htriple_vec_iter].
  destruct xs; [by apply htriple_ret|simpl in Hlen; lia].
Qed.

Lemma htriple_vec_drop t v xs objs :
  htriple (hown (vec_objs t v xs ++ objs)) (vec_drop t v) (λ _, hown objs).
Proof.
  unfold vec_drop, vec_objs. case_bool_decide; [by apply htriple_ret|].
  apply (htriple_dealloc hs he Err (vec_block t v)).
Qed.

(** The words of the counted block are aligned and inside of it. *)
Lemma rc_word p C objs s o :
  hown ((mkBlock p rc_layout, C) :: objs) s → o ∈ [0; 8; 16; 24; 32] →
  scalar_in U64 (mkBlock p rc_layout) (p + o).
Proof.
  intros Hs Ho. pose proof (hown_sound _ _ _ _ Hs) as [[(_ & Hal & _) _]%Forall_cons _].
  simpl in Hal. split_and!; simpl.
  - apply Z.divide_add_r; [done|]. apply Z.mod_divide; [done|]. set_solver.
  - set_solver by lia.
  - set_solver by lia.
Qed.

Lemma htriple_rc_store p C C' objs o v :
  o ∈ [0; 8; 16; 24; 32] → in_range U64 v → C' ⊆ C → Forall (cell_apart U64 (p + o)) C' →
  htriple (hown ((mkBlock p rc_layout, C) :: objs)) (h_store U64 (p + o) v)
    (λ _, hown ((mkBlock p rc_layout, mkCell U64 (p + o) v :: C') :: objs)).
Proof.
  intros Ho Hv HC Hap s Hs. eapply htriple_store; [by eapply rc_word|done..].
Qed.

(** Replacing the strong count. *)
Lemma htriple_rc_set_strong p n n' w v objs :
  in_range U64 n' →
  htriple (hown (rc_obj p n w v :: objs)) (h_store U64 p n')
    (λ _, hown (rc_obj p n' w v :: objs)).
Proof.
  intros Hn. rewrite <-(Z.add_0_r p) at 2. eapply htriple_conseq; [intros s Hs; exact Hs| |].
  2: { apply (htriple_rc_store p _ (tail (rc_obj p n w v).2)); [set_solver|done|set_solver|].
       solve_apart. }
  intros [] s. by rewrite Z.add_0_r.
Qed.

Lemma htriple_rc_count p n w v objs :
  htriple (hown (rc_obj p n w v :: objs)) (rc_strong_count p) (λ r s,
    r = n ∧ hown (rc_obj p n w v :: objs) s).
Proof. apply htriple_load. set_solver. Qed.

Lemma htriple_rc_clone p n w v objs :
  0 ≤ n < usize_max →
  htriple (hown (rc_obj p n w v :: objs)) (rc_clone p) (λ q s,
    q = p ∧ hown (rc_obj p (n + 1) w v :: objs) s).
Proof.
  intros Hn. unfold rc_clone. eapply htriple_bind; [apply htriple_rc_count|].
  intros r. apply htriple_pure. intros ->. unfold usize_max in Hn.
  rewrite bool_decide_eq_true_2 by lia.
  eapply htriple_bind; [apply htriple_rc_set_strong; unfold usize_modulus in Hn; split; simpl; lia|].
  intros []. by apply htriple_ret.
Qed.

(** Dropping one of several references. *)
Lemma htriple_rc_drop_shared t p n w v objs :
  1 < n < usize_modulus →
  htriple (hown (rc_obj p n w v :: objs)) (rc_drop t p)
    (λ _, hown (rc_obj p (n - 1) w v :: objs)).
Proof.
  intros Hn. unfold rc_drop. eapply htriple_bind; [apply htriple_rc_count|].
  intros r. apply htriple_pure. intros ->.
  eapply htriple_bind; [apply htriple_rc_set_strong; unfold usize_modulus in Hn; split; simpl; lia|].
  intros []. rewrite bool_decide_eq_false_2 by lia. by apply htriple_ret.
Qed.

(** Dropping the last one frees the vector and the block. *)
Lemma htriple_rc_drop_last t p v xs objs :
  htriple (hown (rc_obj p 1 1 v :: vec_objs t v xs ++ objs)) (rc_drop t p) (λ _, hown objs).
Proof.
  unfold rc_drop. eapply htriple_bind; [apply htriple_rc_count|].
  intros r. apply htriple_pure. intros ->.
  eapply htriple_bind; [by apply htriple_rc_set_strong|]. intros [].
  rewrite bool_decide_eq_true_2 by done.
  eapply htriple_bind; [apply (htriple_load _ _ _ _ _ _ _ _ (vec_ptr v)); set_solver|].
  intros ?; apply htriple_pure; intros ->.
  eapply htriple_bind; [apply (htriple_load _ _ _ _ _ _ _ _ (vec_cap v)); set_solver|].
  intros ?; apply htriple_pure; intros ->.
  eapply htriple_bind; [apply (htriple_load _ _ _ _ _ _ _ _ (vec_len v)); set_solver|].
  intros ?; apply htriple_pure; intros ->.
  replace (mkVec (vec_ptr v) (vec_cap v) (vec_len v)) with v by (by destruct v).
  eapply htriple_bind.
  { eapply htriple_pre; [|apply (htriple_vec_drop t v xs (rc_obj p (1 - 1) 1 v :: objs))].
    intros s. apply hown_perm. solve_Permutation. }
  intros []. eapply htriple_bind; [apply (htriple_load _ _ _ _ _ _ _ _ 1); set_solver|].
  intros ?; apply htriple_pure; intros ->. eapply htriple_bind.
  { apply (htriple_rc_store p _ []); [set_solver|done|set_solver|constructor]. }
  intros []. rewrite bool_decide_eq_true_2 by done. apply (htriple_dealloc hs he Err (mkBlock p rc_layout)).
Qed.

End accesses.

(** *** Operations that allocate *)

Section proofs.
Context `{DebugLayout} `{AdmitsSmall A}.
Variables (hs he : Z) (Err : string → Prop).
Hypothesis HE : may_fail Err.
Abbreviation hown := (hown hs he).
Abbreviation htriple := (htriple (S := A * mem) Err).
Implicit Types (objs : list object).

Lemma htriple_allocate_array objs t n :
  0 < n ≤ 2 * max_cap →
  htriple (hown objs) (allocate (array_layout t n)) (λ p s,
    p ≠ null ∧ hown ((mkBlock p (array_layout t n), []) :: objs) s).
Proof.
  intros Hn. destruct (array_layout_valid t n Hn) as (? & ? & ? & _).
  apply htriple_allocate; [done|]. by apply admits_small.
Qed.

Lemma htriple_box_new objs t v :
  in_range t v →
  htriple (hown objs) (box_new t v) (λ p, hown (box_obj t p v :: objs)).
Proof.
  intros Hv. unfold box_new. eapply htriple_bind.
  { apply htriple_allocate; [done|]. apply admits_small; by destruct t. }
  intros p. apply htriple_pure. intros Hp. eapply htriple_bind.
  { by apply htriple_box_init. }
  intros []. by apply htriple_ret.
Qed.

Lemma htriple_realloc t p cap cap' xs objs :
  0 < cap ≤ cap' → cap' ≤ 2 * max_cap → Z.of_nat (length xs) = cap → Forall (in_range t) xs →
  htriple (hown ((mkBlock p (array_layout t cap), elem_cells t p xs) :: objs))
    (realloc t p (array_layout t cap) (l_size (array_layout t cap'))) (λ q s,
    q ≠ null → hown ((mkBlock q (array_layout t cap'), elem_cells t q xs) :: objs) s).
Proof.
  intros Hcap Hmax Hlen Hxs. unfold realloc. pose proof (size_of_pos t).
  destruct (array_layout_valid t cap') as (? & ? & ? & _); [lia|].
  eapply htriple_bind; [apply htriple_alloc; by apply admits_small|]. intros q s Hs. cbv beta.
  case_bool_decide as Hq; [done|]. destruct Hs as [[? _]|[_ Hs]]; [done|].
  revert s Hs. change (htriple (hown ((mkBlock q (array_layout t cap'), []) ::
    (mkBlock p (array_layout t cap), elem_cells t p xs) :: objs))
    (_ ← copy_nonoverlapping t p q
          (Z.to_nat (Z.min (l_size (array_layout t cap)) (l_size (array_layout t cap')) / size_of t));
     _ ← h_dealloc p (array_layout t cap); mret q) (λ q s, q ≠ null →
       hown ((mkBlock q (array_layout t cap'), elem_cells t q xs) :: objs) s)).
  assert (Z.to_nat (Z.min (l_size (array_layout t cap)) (l_size (array_layout t cap')) / size_of t)
          = length xs) as ->.
  { simpl. rewrite Z.min_l by nia. rewrite Z.mul_comm, Z.div_mul by lia. lia. }
  eapply htriple_bind.
  { pose proof (htriple_copy hs he Err p q t cap' 0 [] (mkBlock p (array_layout t cap)) (elem_cells t p xs)
      objs xs) as Hc. rewrite Z.mul_0_r, Z.add_0_r in Hc.
    apply Hc; [lia|lia|done|done|constructor]. }
  intros []. eapply htriple_bind.
  { eapply htriple_pre; [|apply (htriple_dealloc hs he Err (mkBlock p (array_layout t cap))
      (elem_cells t p xs) ((mkBlock q (array_layout t cap'), elem_cells t q xs) :: objs))].
    intros s. apply hown_perm. solve_Permutation. }
  intros []. by apply htriple_ret.
Qed.

Lemma htriple_vec_grow t v xs objs :
  vec_ok t v xs → vec_len v = vec_cap v → vec_cap v ≤ max_cap →
  htriple (hown (vec_objs t v xs ++ objs)) (vec_grow t v) (λ v' s,
    (vec_cap v' = Z.max (vec_cap v * 2) 4 ∧ vec_len v' = vec_len v) ∧
    hown ((vec_block t v', elem_cells t (vec_ptr v') xs) :: objs) s).
Proof.
  intros (Hlen & _ & Hxs) Hfull Hmax. unfold vec_grow.
  set (cap' := Z.max (Z.max (vec_cap v * 2) (vec_len v + 1)) 4).
  assert (cap' = Z.max (vec_cap v * 2) 4) as Hcap' by (unfold cap'; lia).
  destruct (array_layout_valid t cap') as (? & ? & ? & ->); [unfold max_cap in *; lia|].
  eapply (htriple_bind _ _ _ _ (λ q s, q ≠ null →
    hown ((mkBlock q (array_layout t cap'), elem_cells t q xs) :: objs) s)).
  - unfold vec_objs. case_bool_decide as Hz.
    + destruct xs; [|simpl in Hlen; lia]. eapply htriple_conseq; [intros s Hs; exact Hs| |].
      2: { apply htriple_alloc. by apply admits_small. }
      intros q s [[??]|[_ ?]]; done.
    + apply htriple_realloc; [lia|unfold max_cap in *; lia|lia|done].
  - intros q s Hs. cbv beta. case_bool_decide; [apply (htriple_error Err (λ _, True) _ _ (HE _) s I)|].
    split; [done|]. by apply Hs.
Qed.

Lemma htriple_vec_push t v xs x objs :
  vec_ok t v xs → vec_cap v ≤ max_cap → in_range t x → vec_tight v →
  htriple (hown (vec_objs t v xs ++ objs)) (vec_push t v x) (λ v' s,
    (vec_ok t v' (xs ++ [x]) ∧ vec_tight v') ∧ hown (vec_objs t v' (xs ++ [x]) ++ objs) s).
Proof.
  intros (Hlen & Hle & Hxs) Hmax Hx Ht. unfold vec_push.
  eapply (htriple_bind _ _ _ _ (λ v' s, (vec_len v' = vec_len v ∧ vec_len v < vec_cap v' ∧
    (vec_cap v' = 4 ∨ vec_cap v' < 2 * (vec_len v + 1))) ∧
    hown ((vec_block t v', elem_cells t (vec_ptr v') xs) :: objs) s)).
  - case_bool_decide as Hfull.
    + eapply htriple_conseq; [intros s Hs; exact Hs| |apply htriple_vec_grow; [by split_and!|done|done]].
      intros v' s [[Hc Hl] Hs]. split; [split_and!; lia|done].
    + apply htriple_ret. unfold vec_objs, vec_tight in *. rewrite bool_decide_eq_false_2 by lia.
      intros s Hs. split; [split_and!; lia|done].
  - intros v'. apply htriple_pure. intros (Hl & Hlt & Htight). rewrite Hl.
    eapply htriple_bind; [apply htriple_store_elem; [lia|done|]|].
    { apply Forall_forall. intros c Hc. apply elem_cells_bound in Hc as (-> & _ & ?). lia. }
    intros []. apply htriple_ret. intros s Hs. split.
    + split; [|right; simpl; lia]. unfold vec_ok. simpl. rewrite length_app. simpl.
      split_and!; [lia|lia|]. by apply Forall_app_2; [|constructor].
    + unfold vec_objs. simpl. rewrite bool_decide_eq_false_2 by lia. simpl.
      rewrite elem_cells_app. simpl. rewrite <-Hlen. revert Hs. apply hown_forget. set_solver.
Qed.

Lemma htriple_vec_extend t v xs ys objs :
  vec_ok t v xs → Z.of_nat (length xs + length ys) ≤ 2 ^ 57 → Forall (in_range t) ys →
  vec_tight v →
  htriple (hown (vec_objs t v xs ++ objs)) (vec_extend t v ys) (λ v' s,
    (vec_ok t v' (xs ++ ys) ∧ vec_tight v') ∧ hown (vec_objs t v' (xs ++ ys) ++ objs) s).
Proof.
  revert v xs. induction ys as [|y ys IH]; intros v xs Hok Hn Hys Ht; cbn [vec_extend].
  { rewrite app_nil_r. by apply htriple_ret. }
  apply Forall_cons in Hys as [Hy Hys]. rewrite length_cons in Hn.
  eapply htriple_bind; [apply htriple_vec_push; try done|].
  { destruct Hok as (? & ? & _). unfold vec_tight, max_cap in *. lia. }
  intros v'. apply htriple_pure. intros [Hok' Ht'].
  replace (xs ++ y :: ys) with ((xs ++ [y]) ++ ys) by (by rewrite <-app_assoc).
  apply IH; try done. rewrite length_app. simpl. lia.
Qed.

Lemma htriple_vec_of t xs objs :
  Forall (in_range t) xs → Z.of_nat (length xs) ≤ max_cap →
  htriple (hown objs) (vec_of t xs) (λ v s,
    (vec_ok t v xs ∧ vec_cap v = Z.of_nat (length xs)) ∧ hown (vec_objs t v xs ++ objs) s).
Proof.
  intros Hxs Hn. unfold vec_of. case_bool_decide as Hz.
  { destruct xs; [|simpl in Hz; lia]. apply htriple_ret. intros s Hs.
    split; [split; [apply vec_new_ok|done]|done]. }
  eapply htriple_bind; [apply htriple_allocate_array; unfold max_cap in *; lia|].
  intros p. apply htriple_pure. intros Hp. eapply htriple_bind.
  { pose proof (htriple_store_all hs he Err p t (Z.of_nat (length xs)) 0 [] objs xs) as Hs.
    rewrite Z.mul_0_r, Z.add_0_r in Hs. apply Hs; [lia|lia|done|constructor]. }
  intros []. apply htriple_ret. intros s Hs.
  split; [split; [by split_and!|done]|]. unfold vec_objs. cbn [vec_cap vec_ptr].
  by rewrite bool_decide_eq_false_2.
Qed.

Lemma htriple_rc_new v objs :
  in_range U64 (vec_ptr v) → in_range U64 (vec_cap v) → in_range U64 (vec_len v) →
  htriple (hown objs) (rc_new v) (λ p, hown (rc_obj p 1 1 v :: objs)).
Proof.
  intros Hp Hc Hl. unfold rc_new.
  eapply htriple_bind; [apply htriple_allocate; [done|by apply admits_small]|].
  intros p. apply htriple_pure. intros _. eapply htriple_bind.
  { rewrite <-(Z.add_0_r p) at 2. apply (htriple_rc_store hs he Err _ [] []); [set_solver|done..]. }
  intros []. do 4 (eapply htriple_bind;
    [apply htriple_rc_store; [set_solver|done|reflexivity|solve_apart]|intros []]).
  apply htriple_ret. intros s. rewrite Z.add_0_r. apply hown_forget. set_solver.
Qed.

(** The same for a vector that lives on the heap. *)
Lemma htriple_rc_new_vec t v xs objs :
  0 ≤ hs → he ≤ usize_modulus → vec_ok t v xs → 0 < vec_cap v < usize_modulus →
  htriple (hown (vec_objs t v xs ++ objs)) (rc_new v)
    (λ p, hown (rc_obj p 1 1 v :: vec_objs t v xs ++ objs)).
Proof.
  unfold usize_modulus. intros Hhs Hhe (Hlen & Hle & _) Hcap s Hs.
  apply htriple_rc_new; [|split; simpl; lia..|exact Hs].
  pose proof (hown_sound _ _ _ _ Hs) as [Hb _]. unfold vec_objs in Hb.
  rewrite bool_decide_eq_false_2 in Hb by lia. apply Forall_cons in Hb as [(_ & _ & ? & ?) _].
  simpl in *. pose proof (size_of_pos t). split; simpl; nia.
Qed.

End proofs.
