(* ===== verification/HeapTests.v ===== *)
(** * The heap tests (src/tests/heap_allocation.rs)

    The four tests of the heap, over any global allocator.  Whatever allocator fulfils
    the contract, the tests can only fail by running out of memory; on the kernel's
    fixed-size block allocator the loops do not even do that once their first box
    fits. *)

From stdpp Require Import prelude gmap strings.
From S2P Require Import Prelude Layout Memory Access GlobalAlloc AsyncLib Locked.
From S2P Require Import LinkedList FixedSizeBlock FallbackModel HeapInit Collections.

Section tests.
Context `{BuildProfile, DebugLayout} `{AllocOps A}.

Definition simple_allocation : heapM A unit :=
  heap_value_1 ← box_new I32 41;
  heap_value_2 ← box_new I32 13;
  v1 ← box_get I32 heap_value_1; _ ← assert_eq v1 41;
  v2 ← box_get I32 heap_value_2; _ ← assert_eq v2 13;
  _ ← box_drop I32 heap_value_2;
  box_drop I32 heap_value_1.

(** [iter().sum::<u64>()] *)
Fixpoint sum_u64 (acc : Z) (xs : list Z) : outcome Z :=
  match xs with
  | [] => Done acc
  | x :: xs' => acc ← usize_add acc x; sum_u64 acc xs'
  end.

Definition large_vec : heapM A unit :=
  let n := 1000 in
  vec ← vec_extend U64 (vec_new U64) (seqZ 0 n);
  xs ← vec_to_list U64 vec;
  sum ← (λ s, r ← sum_u64 0 xs; Done (r, s));
  _ ← assert_eq sum ((n - 1) * n / 2);
  vec_drop U64 vec.

(** The body of the loops; the box is dropped at its end. *)
Definition box_iteration (i : Z) : heapM A unit :=
  x ← box_new U64 i;
  v ← box_get U64 x; _ ← assert_eq v i;
  box_drop U64 x.

Fixpoint for_boxes (range : list Z) : heapM A unit :=
  match range with
  | [] => mret ()
  | i :: range' => _ ← box_iteration i; for_boxes range'
  end.

Definition many_boxes : heapM A unit := for_boxes (seqZ 0 HEAP_SIZE).

Definition many_boxes_long_lived : heapM A unit :=
  long_lived ← box_new I32 1;
  _ ← for_boxes (seqZ 0 HEAP_SIZE);
  v ← box_get I32 long_lived; _ ← assert_eq v 1;
  box_drop I32 long_lived.

End tests.

Section proofs.
Context `{BuildProfile, DebugLayout} `{AdmitsSmall A}.
Variables (hs he : Z) (Err : string → Prop).
Abbreviation hown := (hown hs he).
Abbreviation htriple := (htriple (S := A * mem) Err).

Lemma htriple_assert_eq P x y : x = y → htriple P (assert_eq x y) (λ _, P).
Proof.
  intros -> s Hs. unfold assert_eq. rewrite bool_decide_eq_true_2 by done. done.
Qed.

(** The rest of an iteration after its box was allocated. *)
Lemma htriple_iteration_rest objs p i :
  in_range U64 i →
  htriple (hown (box_obj U64 p i :: objs))
    (v ← box_get U64 p; _ ← assert_eq v i; box_drop U64 p) (λ _, hown objs).
Proof.
  intros Hi. eapply htriple_bind; [apply htriple_box_get|]. intros v. apply htriple_pure.
  intros ->. eapply htriple_bind; [by apply htriple_assert_eq|]. intros [].
  apply htriple_box_drop.
Qed.

Hypothesis HE : may_fail Err.

Lemma htriple_box_iteration objs i :
  in_range U64 i → htriple (hown objs) (box_iteration i) (λ _, hown objs).
Proof.
  intros Hi. eapply htriple_bind; [by apply htriple_box_new|]. intros p.
  by apply htriple_iteration_rest.
Qed.

Lemma htriple_for_boxes objs range :
  Forall (in_range U64) range → htriple (hown objs) (for_boxes range) (λ _, hown objs).
Proof.
  induction 1 as [|i range Hi Hrange IH]; cbn [for_boxes]; [by apply htriple_ret|].
  eapply htriple_bind; [by apply htriple_box_iteration|]. by intros [].
Qed.

Lemma heap_size_range : Forall (in_range U64) (seqZ 0 HEAP_SIZE).
Proof.
  apply Forall_forall. intros i Hi%elem_of_seqZ. unfold HEAP_SIZE, in_range in *. simpl. lia.
Qed.

Lemma htriple_simple_allocation objs :
  htriple (hown objs) simple_allocation (λ _, hown objs).
Proof.
  eapply htriple_bind; [by apply htriple_box_new|]. intros p1.
  eapply htriple_bind; [by apply htriple_box_new|]. intros p2.
  eapply htriple_bind.
  { eapply htriple_pre; [|apply (htriple_box_get hs he Err (box_obj I32 p2 13 :: objs) I32 p1 41)].
    intros s. apply hown_perm. solve_Permutation. }
  intros v. apply htriple_pure. intros ->. eapply htriple_bind; [by apply htriple_assert_eq|].
  intros []. eapply htriple_bind.
  { eapply htriple_pre; [|apply (htriple_box_get hs he Err (box_obj I32 p1 41 :: objs) I32 p2 13)].
    intros s. apply hown_perm. solve_Permutation. }
  intros v. apply htriple_pure. intros ->. eapply htriple_bind; [by apply htriple_assert_eq|].
  intros []. eapply htriple_bind; [apply htriple_box_drop|]. intros []. apply htriple_box_drop.
Qed.

Lemma sum_u64_1000 : sum_u64 0 (seqZ 0 1000) = Done 499500.
Proof.
  assert (∀ c, @sum_u64 (Build_BuildProfile c) 0 (seqZ 0 1000) = Done 499500) as Hc
    by (intros c; by vm_compute).
  destruct H as [c]. apply Hc.
Qed.

Lemma htriple_large_vec objs : htriple (hown objs) large_vec (λ _, hown objs).
Proof.
  unfold large_vec. destruct (vec_new_ok U64) as [Hok Ht]. eapply htriple_bind.
  { apply (htriple_vec_extend hs he Err HE U64 (vec_new U64) [] (seqZ 0 1000) objs);
      [done|by vm_compute| |done].
    apply Forall_forall. intros i Hi%elem_of_seqZ. unfold in_range. simpl. lia. }
  intros v. apply htriple_pure. intros [Hv _]. eapply htriple_bind; [by apply htriple_vec_to_list|].
  intros xs. apply htriple_pure. intros ->. cbn [app].
  eapply (htriple_bind _ _ _ _ (λ r s, r = 499500 ∧ hown (vec_objs U64 v (seqZ 0 1000) ++ objs) s)).
  { intros s Hs. rewrite sum_u64_1000. done. }
  intros r. apply htriple_pure. intros ->. eapply htriple_bind; [by apply htriple_assert_eq|].
  intros []. apply htriple_vec_drop.
Qed.

Lemma htriple_long_lived objs : htriple (hown objs) many_boxes_long_lived (λ _, hown objs).
Proof.
  eapply htriple_bind; [by apply htriple_box_new|]. intros p.
  eapply htriple_bind; [apply htriple_for_boxes, heap_size_range|]. intros [].
  eapply htriple_bind; [apply htriple_box_get|]. intros v. apply htriple_pure. intros ->.
  eapply htriple_bind; [by apply htriple_assert_eq|]. intros []. apply htriple_box_drop.
Qed.

Lemma heap_tests_triple test :
  test ∈ [simple_allocation; large_vec; many_boxes; many_boxes_long_lived] →
  ∀ objs, htriple (hown objs) test (λ _, hown objs).
Proof.
  rewrite !elem_of_cons, elem_of_nil. intros [->|[->|[->|[->|[]]]]] objs.
  - apply htriple_simple_allocation.
  - apply htriple_large_vec.
  - apply htriple_for_boxes, heap_size_range.
  - apply htriple_long_lived.
Qed.

End proofs.

(** ** The kernel's allocator *)

Global Instance fsb_admits_small `{FallbackLaws Heap} : AdmitsSmall (FixedSizeBlockAllocator Heap).
Proof. intros l Hv Hs Ha. split_and!; [done|lia|]. unfold isize_max. lia. Qed.

Global Instance locked_admits_small `{AsyncLaws} `{!AllocOps A, !AllocSpec A, !AdmitsSmall A} :
  AdmitsSmall (Locked A).
Proof. intros l. apply (admits_small (A := A)). Qed.

Section fsb.
Context `{BuildProfile, DebugLayout, AsyncLaws, FallbackLaws Heap}.
Variables (hs he : Z) (Err : string → Prop).
Abbreviation hown := (hown (A := Locked (FixedSizeBlockAllocator Heap)) hs he).
Abbreviation htriple := (htriple (S := Locked (FixedSizeBlockAllocator Heap) * mem) Err).

(** The next request for [l] is served. *)
Definition can_alloc (l : Layout) (s : Locked (FixedSizeBlockAllocator Heap) * mem) : Prop :=
  ∃ p s', h_alloc l s = Done (p, s') ∧ p ≠ null.

Lemma htriple_can_alloc objs l :
  fsb_admits l →
  htriple (λ s, hown objs s ∧ can_alloc l s) (h_alloc l) (λ p s,
    p ≠ null ∧ hown ((mkBlock p l, []) :: objs) s).
Proof.
  intros Hl s [Hs (p & s' & E & Hp)].
  pose proof (htriple_alloc (A := Locked (FixedSizeBlockAllocator Heap)) hs he Err objs l Hl _ Hs)
    as Ha. rewrite E in Ha |- *. by destruct Ha as [[? _]|?].
Qed.

(** The free list of the class has a block. *)
Definition class_ready (i : nat) (self : Locked (FixedSizeBlockAllocator Heap)) : Prop :=
  ∃ p, list_heads (inner self) !! i = Some (Some p).

Lemma class_ready_can_alloc objs l i s :
  fsb_admits l → list_index l = Some i → hown objs s → class_ready i s.1 → can_alloc l s.
Proof.
  destruct s as [self m]. intros Hl Hi [[Hlock Hinv] _] [node Hn]. cbn [fst snd] in *.
  pose proof (fsb_alloc_paths _ _ _ _ _ _ Hinv Hl) as Hpath. rewrite Hi in Hpath.
  destruct Hpath as (o & Ho & Hpath). simplify_eq. destruct Hpath as (nxt & _ & E).
  destruct (fsb_pop _ _ _ _ _ _ _ _ Hinv Hl Hi Hn) as (_ & _ & _ & _ & _ & Hnull & _).
  destruct (with_lock_free (FixedSizeBlock.alloc l) self m _ _ _ Hlock E) as (self' & E' & _).
  change (op_alloc l self m = Done (node, self', <[node := 0]> m)) in E'.
  exists node, (self', <[node := 0]> m). split; [|done].
  unfold h_alloc. cbn [fst snd]. by rewrite E'.
Qed.

Lemma htriple_dealloc_ready b C objs i :
  fsb_admits (b_layout b) → list_index (b_layout b) = Some i →
  htriple (hown ((b, C) :: objs)) (h_dealloc (b_ptr b) (b_layout b)) (λ _ s,
    hown objs s ∧ can_alloc (b_layout b) s).
Proof.
  intros Hl Hi [self m] Hs. pose proof (htriple_dealloc (A := Locked (FixedSizeBlockAllocator Heap)) hs he Err b C objs _ Hs) as Hd.
  destruct Hs as [[Hlock Hinv] _]. cbn [fst snd fmap list_fmap] in *.
  destruct (fsb_dealloc_class _ _ _ _ _ _ _ Hinv Hi) as (o & Ho & _ & _ & E).
  set (f := λ (a : FixedSizeBlockAllocator Heap) m, '(a', m') ← FixedSizeBlock.dealloc (b_ptr b) (b_layout b) a m; Done ((), a', m')).
  pose proof (f_equal (λ r, '(a', m') ← r; Done ((), a', m')) E) as Ef.
  destruct (with_lock_free f self m () _ _ Hlock Ef) as (self' & E' & Hin & _).
  assert (op_dealloc (b_ptr b) (b_layout b) self m =
          Done (self', <[b_ptr b := word_of_opt o]> m)) as Eop.
  { change (('(_, self', m') ← with_lock f self m; Done (self', m')) =
      Done (self', <[b_ptr b := word_of_opt o]> m)). by rewrite E'. }
  unfold h_dealloc in *. cbn [fst snd] in *. rewrite Eop in Hd |- *. run. split; [exact Hd|].
  apply (class_ready_can_alloc objs _ i); [done..|]. unfold class_ready. cbn [fst].
  rewrite Hin. exists (b_ptr b). cbn [list_heads]. apply list_lookup_insert_eq.
  by eapply lookup_lt_Some.
Qed.

(** Freeing the box of an iteration makes room for the box of the next one. *)
Lemma htriple_iteration_ready objs i :
  in_range U64 i →
  htriple (λ s, hown objs s ∧ can_alloc (scalar_layout U64) s) (box_iteration i)
    (λ _ s, hown objs s ∧ can_alloc (scalar_layout U64) s).
Proof.
  intros Hi. unfold box_iteration, box_new, allocate.
  eapply (htriple_bind _ _ _ _ (λ p, hown (box_obj U64 p i :: objs))).
  { eapply (htriple_bind _ _ _ _ (λ p, hown ((mkBlock p (scalar_layout U64), []) :: objs))).
    - eapply htriple_bind; [by apply (htriple_can_alloc objs (scalar_layout U64))|].
      intros p. apply htriple_pure. intros Hp. rewrite bool_decide_eq_false_2 by done.
      by apply htriple_ret.
    - intros p. eapply htriple_bind; [by apply htriple_box_init|]. intros []. by apply htriple_ret. }
  intros p. eapply htriple_bind; [apply htriple_box_get|]. intros v. apply htriple_pure.
  intros ->. eapply htriple_bind; [by apply htriple_assert_eq|]. intros [].
  by apply (htriple_dealloc_ready (mkBlock p (scalar_layout U64)) _ _ 0).
Qed.

Lemma htriple_for_boxes_ready objs range :
  Forall (in_range U64) range →
  htriple (λ s, hown objs s ∧ can_alloc (scalar_layout U64) s) (for_boxes range)
    (λ _ s, hown objs s ∧ can_alloc (scalar_layout U64) s).
Proof.
  induction 1 as [|i range Hi Hrange IH]; cbn [for_boxes]; [by apply htriple_ret|].
  eapply htriple_bind; [by apply htriple_iteration_ready|]. by intros [].
Qed.

End fsb.

(** ** Properties *)

Section properties.
Context `{BuildProfile, DebugLayout}.

(** C10: the heap tests over any allocator that fulfils the contract, started with any
    objects allocated: they never fail an assertion, fault or hang.  Either a test
    passes and gives back everything it allocated, leaving the other objects and their
    contents as they were, or it stops in the allocation error handler. *)
Theorem heap_tests_pass `{AdmitsSmall A} hs he objs test (s : A * mem) :
  test ∈ [simple_allocation; large_vec; many_boxes; many_boxes_long_lived] →
  hown hs he objs s →
  match test s with
  | Done (_, s') => hown hs he objs s'
  | Panicked msg => ∃ l, msg = alloc_error l
  | Faulted | Diverged => False
  end.
Proof.
  intros Ht Hs.
  apply (heap_tests_triple hs he (λ msg, ∃ l, msg = alloc_error l) ltac:(by intros l; exists l)
           test Ht objs s Hs).
Qed.

(** C16: on the kernel's allocator the loops of [many_boxes] and [many_boxes_long_lived]
    run through for any number of iterations, whatever else is allocated, as soon as
    their first box fits: each box reuses the memory of the one before. *)
Theorem boxes_reuse_memory `{AsyncLaws, FallbackLaws Heap} hs he objs range
    (s : Locked (FixedSizeBlockAllocator Heap) * mem) :
  Forall (in_range U64) range → hown hs he objs s → can_alloc (scalar_layout U64) s →
  ∃ s', for_boxes range s = Done ((), s') ∧ hown hs he objs s'.
Proof.
  intros Hr Hs Hc.
  pose proof (htriple_for_boxes_ready hs he (λ _, False) objs range Hr s (conj Hs Hc)) as Ht.
  destruct (for_boxes range s) as [[[] s']| | |]; try done. exists s'. by destruct Ht.
Qed.

End properties.

(** ** Witnesses: the heap of 256 bytes of FallbackModel.v *)

#[local] Existing Instances dev_profile size_first_layout list_lib list_laws.

Definition plain_debug : DebugLayout := {| debug_layout _ := "Layout" |}.
#[local] Existing Instance plain_debug.

Definition small_state : Locked fsb * mem := (Locked_new fsb0, small_mem).

Lemma small_state_own : hown 4096 (4096 + 256) [] small_state.
Proof. split; [|constructor]. split; [done|]. exact fsb0_inv. Qed.

Lemma heap_tests_pass_witness :
  match simple_allocation small_state with
  | Done (_, s') => hown 4096 (4096 + 256) [] s'
  | Panicked msg => ∃ l, msg = alloc_error l
  | Faulted | Diverged => False
  end.
Proof.
  apply (heap_tests_pass 4096 (4096 + 256) [] simple_allocation small_state);
    [left|exact small_state_own].
Defined.

(** This test succeeds on the small heap, [large_vec] does not fit. *)
Lemma simple_allocation_runs :
  match simple_allocation small_state, large_vec small_state with
  | Done _, Panicked msg => msg = "allocation error: Layout"
  | _, _ => False
  end.
Proof. by vm_compute. Qed.

Lemma boxes_reuse_memory_witness :
  ∃ s', for_boxes (seqZ 0 300) small_state = Done ((), s') ∧ hown 4096 (4096 + 256) [] s'.
Proof.
  apply (boxes_reuse_memory 4096 (4096 + 256) [] (seqZ 0 300) small_state).
  - apply Forall_forall. intros i Hi%elem_of_seqZ. unfold in_range. simpl. lia.
  - exact small_state_own.
  - eexists _, _. split; [by vm_compute|done].
Defined.
