(* ===== verification/HeapTraffic.v ===== *)
(** * The heap traffic of the libraries

    The executor and its tasks live on the kernel's heap: [Box::pin] allocates the futures,
    [Arc] and [ArrayQueue] the queues and the wakers, [BTreeMap] its nodes.  These
    collections are outside the repository; what they have in common is that they call the
    global allocator as its contract permits.  A [request] is such a call, or a write into
    a block that was obtained before, and [serve] makes the requests of a list on the
    kernel's allocator.  Theorems about programs that use the collections quantify over
    all lists of requests. *)

From stdpp Require Import prelude gmap strings.
From S2P Require Import Prelude Layout Memory Access GlobalAlloc Collections.

(** Blocks are referred to by their position among those that are owned, the youngest
    first; a write is at an offset from the block's start. *)
Inductive request :=
| Allocate (l : Layout)
| Release (n : nat)
| Write (n : nat) (t : scalar) (offset v : Z).

(** A write that stays inside of the block, aligned and in the range of its type. *)
Definition write_fits (b : block) (t : scalar) (offset v : Z) : bool :=
  bool_decide ((b_ptr b + offset) mod size_of t = 0 ∧ 0 ≤ offset ∧
               offset + size_of t ≤ l_size (b_layout b) ∧ in_range t v).

Section traffic.
Context `{DebugLayout} `{AllocOps A}.

(** Make the requests; requests about blocks that are not owned, and writes that do not
    fit, are not made. *)
Fixpoint serve (rs : list request) (owned : list block) : heapM A (list block) :=
  match rs with
  | [] => mret owned
  | Allocate l :: rs' => p ← allocate l; serve rs' (mkBlock p l :: owned)
  | Release n :: rs' =>
      match owned !! n with
      | Some b => _ ← h_dealloc (b_ptr b) (b_layout b); serve rs' (delete n owned)
      | None => serve rs' owned
      end
  | Write n t offset v :: rs' =>
      match owned !! n with
      | Some b =>
          _ ← (if write_fits b t offset v then h_store t (b_ptr b + offset) v else mret ());
          serve rs' owned
      | None => serve rs' owned
      end
  end.

End traffic.

(** The layouts of the blocks that the requests leave allocated. *)
Fixpoint remaining (rs : list request) (ls : list Layout) : list Layout :=
  match rs with
  | [] => ls
  | Allocate l :: rs' => remaining rs' (l :: ls)
  | Release n :: rs' => remaining rs' (delete n ls)
  | Write _ _ _ _ :: rs' => remaining rs' ls
  end.

Lemma delete_out {X} n (l : list X) : l !! n = None → delete n l = l.
Proof.
  revert n. induction l as [|x l IH]; intros [|n] Hn; cbn in *; [done..|]. f_equal. by apply IH.
Qed.

(** A block of which nothing is known but that it is allocated. *)
Definition raw (b : block) : object := (b, []).

Section proofs.
Context `{DebugLayout} `{AllocSpec A}.
Variables (hs he : Z) (Err : string → Prop).
Hypothesis Err_alloc : may_fail Err.

(** The trait's rule for callers: every layout that is asked for is admitted. *)
Definition admitted (r : request) : Prop :=
  match r with Allocate l => as_admits l | _ => True end.

Lemma raw_split n (b : block) owned objs :
  owned !! n = Some b →
  (raw <$> owned) ++ objs ≡ₚ raw b :: (raw <$> delete n owned) ++ objs.
Proof.
  intros Hb. change (raw b :: (raw <$> delete n owned) ++ objs)
    with ((raw <$> b :: delete n owned) ++ objs).
  by apply Permutation_app_tail, fmap_Permutation, delete_Permutation.
Qed.

Lemma htriple_write n b owned objs t offset v :
  owned !! n = Some b →
  htriple Err (hown (A := A) hs he ((raw <$> owned) ++ objs))
    (if write_fits b t offset v then h_store t (b_ptr b + offset) v else mret ())
    (λ _, hown hs he ((raw <$> owned) ++ objs)).
Proof.
  intros Hb. unfold write_fits. case_bool_decide as Hf; [|by apply htriple_ret].
  destruct Hf as (Hal & Hlo & Hhi & Hr). intros s Hs.
  eapply hown_perm in Hs; [|by apply (raw_split n b)].
  assert (scalar_in t b (b_ptr b + offset)) as Hin.
  { split; [|lia]. apply Z.mod_divide; [|done]. pose proof (size_of_pos t). lia. }
  pose proof (htriple_store hs he Err b [] [] ((raw <$> delete n owned) ++ objs) t
    (b_ptr b + offset) v Hin Hr ltac:(done) ltac:(constructor) s Hs) as Hw.
  destruct (h_store t _ v s) as [[[] s']| | |]; try done.
  eapply hown_perm; [symmetry; by apply (raw_split n b)|]. eapply hown_forget; [|exact Hw]. set_solver.
Qed.

(** Whatever the requests, the objects that were there before stay as they are. *)
Lemma htriple_serve rs owned objs :
  Forall admitted rs →
  htriple Err (hown (A := A) hs he ((raw <$> owned) ++ objs)) (serve rs owned) (λ owned' s,
    b_layout <$> owned' = remaining rs (b_layout <$> owned) ∧
    hown hs he ((raw <$> owned') ++ objs) s).
Proof.
  intros Hrs. revert owned. induction Hrs as [|[l|n|n t offset v] rs Hr Hrs IH]; intros owned;
    cbn [serve remaining].
  - by apply htriple_ret.
  - eapply htriple_bind; [by apply htriple_allocate|]. intros p s [_ Hs].
    by apply (IH (mkBlock p l :: owned)).
  - rewrite <-list_fmap_delete. destruct (owned !! n) as [b|] eqn:Hb.
    + apply (htriple_bind Err _ _ _ (λ _, hown hs he ((raw <$> delete n owned) ++ objs)));
        [|by intros []]. intros s Hs. eapply hown_perm in Hs; [|by apply (raw_split n b)].
      by apply (htriple_dealloc hs he Err b []).
    + rewrite delete_out by done. apply IH.
  - destruct (owned !! n) as [b|] eqn:Hb; [|apply IH].
    eapply htriple_bind; [by apply (htriple_write n)|]. intros []. apply IH.
Qed.

End proofs.
