(* ===== verification/Machine.v ===== *)
(** * The machine state shared by the kernel and its interrupt handlers

    The statics of the kernel ([WRITER], [PICS], [SCANCODE_QUEUE], [WAKER]), the task
    queue that the executor shares with its wakers, the CPU's interrupt flag and the
    interrupts still to come, with a state monad over them.

    Interleaving is explicit: [schedule] lists, for the successive points at which
    the running code can be interrupted, the hardware interrupts that arrive there.
    Theorems quantify over all schedules.  Interrupts that arrive while the flag is
    cleared wait in [pending].

    Wakers are reference counted.  A waker of the executor has at most two owners: the
    executor's cache ([cached_wakers] are the ids whose wakers it holds) and [WAKER].
    [freed_wakers] records the wakers whose last reference was dropped inside an
    interrupt handler, which frees their memory there. *)

From stdpp Require Import prelude gmap strings.
From S2P Require Import Prelude Vga AsyncLib.

(** A hardware interrupt; the keyboard's comes with the byte that can be read from
    port 0x60. *)
Inductive irq := TimerIrq | KeyboardIrq (scancode : Z).

Global Instance irq_eq_dec : EqDecision irq.
Proof. solve_decision. Defined.

Record kstate `{AsyncLib} := mkK {
  SCANCODE_QUEUE : OnceCell (ArrayQueue Z);
  WAKER : AtomicWaker;
  task_queue : ArrayQueue TaskId;
  writer : Writer;
  writer_mutex : Mutex;
  pics : ChainedPics;
  pics_mutex : Mutex;
  interrupt_flag : bool;
  pending : list irq;
  schedule : list (list irq);
  cached_wakers : gset TaskId;
  freed_wakers : list TaskId;
}.

Section machine.
Context `{BuildProfile, AsyncLib}.

(** ** The monad *)

Definition K (A : Type) : Type := kstate → outcome (A * kstate).

Global Instance K_ret : MRet K := λ A a s, Done (a, s).
Global Instance K_bind : MBind K := λ A B f m s, '(a, s') ← m s; f a s'.

Definition gets {A} (f : kstate → A) : K A := λ s, Done (f s, s).
Definition modify (f : kstate → kstate) : K unit := λ s, Done ((), f s).
Definition lift {A} (o : outcome A) : K A := λ s, a ← o; Done (a, s).

(** [panic!] and the loop of [hlt] instructions that never returns. *)
Definition kpanic {A} (msg : string) : K A := λ _, Panicked msg.
Definition hlt_loop {A} : K A := λ _, Diverged.

(** ** Updates of one component *)

Definition set_scancode_queue (c : OnceCell (ArrayQueue Z)) (s : kstate) : kstate :=
  mkK _ c (WAKER s) (task_queue s) (writer s) (writer_mutex s) (pics s) (pics_mutex s)
    (interrupt_flag s) (pending s) (schedule s)
    (cached_wakers s) (freed_wakers s).
Definition set_waker (w : AtomicWaker) (s : kstate) : kstate :=
  mkK _ (SCANCODE_QUEUE s) w (task_queue s) (writer s) (writer_mutex s) (pics s)
    (pics_mutex s) (interrupt_flag s) (pending s) (schedule s)
    (cached_wakers s) (freed_wakers s).
Definition set_task_queue (q : ArrayQueue TaskId) (s : kstate) : kstate :=
  mkK _ (SCANCODE_QUEUE s) (WAKER s) q (writer s) (writer_mutex s) (pics s) (pics_mutex s)
    (interrupt_flag s) (pending s) (schedule s)
    (cached_wakers s) (freed_wakers s).
Definition set_writer (w : Writer) (x : Mutex) (s : kstate) : kstate :=
  mkK _ (SCANCODE_QUEUE s) (WAKER s) (task_queue s) w x (pics s) (pics_mutex s)
    (interrupt_flag s) (pending s) (schedule s)
    (cached_wakers s) (freed_wakers s).
Definition set_pics (p : ChainedPics) (x : Mutex) (s : kstate) : kstate :=
  mkK _ (SCANCODE_QUEUE s) (WAKER s) (task_queue s) (writer s) (writer_mutex s) p x
    (interrupt_flag s) (pending s) (schedule s)
    (cached_wakers s) (freed_wakers s).
Definition set_flag (b : bool) (s : kstate) : kstate :=
  mkK _ (SCANCODE_QUEUE s) (WAKER s) (task_queue s) (writer s) (writer_mutex s) (pics s)
    (pics_mutex s) b (pending s) (schedule s) (cached_wakers s) (freed_wakers s).
Definition set_irqs (p : list irq) (l : list (list irq)) (s : kstate) : kstate :=
  mkK _ (SCANCODE_QUEUE s) (WAKER s) (task_queue s) (writer s) (writer_mutex s) (pics s)
    (pics_mutex s) (interrupt_flag s) p l (cached_wakers s) (freed_wakers s).

Definition set_cached (c : gset TaskId) (s : kstate) : kstate :=
  mkK _ (SCANCODE_QUEUE s) (WAKER s) (task_queue s) (writer s) (writer_mutex s) (pics s)
    (pics_mutex s) (interrupt_flag s) (pending s) (schedule s) c (freed_wakers s).
Definition set_freed (l : list TaskId) (s : kstate) : kstate :=
  mkK _ (SCANCODE_QUEUE s) (WAKER s) (task_queue s) (writer s) (writer_mutex s) (pics s)
    (pics_mutex s) (interrupt_flag s) (pending s) (schedule s) (cached_wakers s) l.

(** ** Interrupt flag *)

(** [interrupts::without_interrupts]: run with the flag cleared and set it again
    afterwards if it was set. *)
Definition without_interrupts {A} (f : K A) : K A :=
  saved ← gets interrupt_flag;
  if saved : bool then
    _ ← modify (set_flag false); r ← f; _ ← modify (set_flag true); mret r
  else f.

(** ** Printing *)

(** [WRITER.lock()] and the release of the guard at the end of the statement. *)
Definition writer_lock : K Writer := λ s,
  x ← mutex_lock (writer_mutex s); Done (writer s, set_writer (writer s) x s).
Definition writer_unlock (w : Writer) : K unit :=
  modify (λ s, set_writer w (mutex_unlock (writer_mutex s)) s).

(** [vga_buffer::_print].  [point] stands for the instructions of the critical section:
    what the machine may do while they run, with the lock held.  For code of a task that
    is to take the interrupts that arrive ([vga_print], in Interrupts.v), for code of an
    interrupt handler it is [gated]. *)
Definition vga_print_at (point : K unit) (args : list (list Z)) : K unit :=
  without_interrupts (
    w ← writer_lock;
    _ ← point;
    w' ← lift (print_body w args);
    _ ← point;
    writer_unlock w').

(** An instruction of an interrupt handler: the gates of the descriptor table clear the
    interrupt flag, so that no interrupt is taken.  Handlers do not nest in this model:
    with the flag set this is a fault, which the theorems exclude. *)
Definition gated : K unit := λ s, if interrupt_flag s then Faulted else Done ((), s).

(** The bytes of a string literal. *)
Definition bytes (s : string) : list Z :=
  (λ c, Z.of_nat (Ascii.nat_of_ascii c)) <$> String.list_ascii_of_string s.

(** The string with given bytes. *)
Definition text (l : list Z) : string :=
  String.string_of_list_ascii ((λ b, Ascii.ascii_of_nat (Z.to_nat b)) <$> l).

(** [print!] in a handler, with the pieces of its format or a literal, and [println!] of
    a literal. *)
Definition handler_print : list (list Z) → K unit := vga_print_at gated.
Definition print_str (s : string) : K unit := handler_print [bytes s].
Definition println_str (s : string) : K unit := handler_print [bytes s; [newline]].

(** ** End of interrupt *)

Definition notify_end_of_interrupt (vector : Z) : K unit := λ s,
  x ← mutex_lock (pics_mutex s);
  let p := pics_notify_end_of_interrupt (pics s) vector in
  Done ((), set_pics p (mutex_unlock x) s).

(** ** Waking *)

(** [TaskWaker::wake_task]; the dummy waker's [wake] does nothing. *)
Definition wake (w : Waker) : K unit := λ s,
  match w with
  | TaskWaker task_id =>
      match queue_push (task_queue s) task_id with
      | (inl _, q) => Done ((), set_task_queue q s)
      | (inr _, _) => Panicked "task queue full"
      end
  | DummyWaker => Done ((), s)
  end.

(** Dropping a waker in an interrupt handler: if the executor's cache does not hold it
    as well, this was its last reference.  That it is freed is recorded; what the call of
    [dealloc] in the handler would do to the allocator is left open, since the point of
    the cache is that it is not made ([no_waker_freed_in_handlers]). *)
Definition drop_waker (w : Waker) : K unit := modify (λ s,
  match w with
  | TaskWaker task_id =>
      if decide (task_id ∈ cached_wakers s) then s
      else set_freed (freed_wakers s ++ [task_id]) s
  | DummyWaker => s
  end).

(** [AtomicWaker::wake]: wake the registered waker, if any, which consumes it. *)
Definition atomic_waker_wake : K unit := λ s,
  match waker_take (WAKER s) with
  | (Some w, aw) => (_ ← wake w; drop_waker w) (set_waker aw s)
  | (None, aw) => Done ((), set_waker aw s)
  end.

End machine.

(** ** Locks and the screen *)

Section machine_proofs.
Context `{BuildProfile, AsyncLaws}.
Implicit Types (s : kstate).

(** Outside of a critical section: no lock is held and the screen is well formed. *)
Definition unlocked s : Prop :=
  locked (writer_mutex s) = false ∧ locked (pics_mutex s) = false ∧ writer_wf (writer s).

(** Only the screen changed. *)
Definition same_but_screen s s' : Prop :=
  ∃ w x, s' = set_writer w x s ∧ locked x = false ∧ writer_wf w ∧
         w_color_code w = w_color_code (writer s).

Lemma same_but_screen_unlocked s s' : same_but_screen s s' → unlocked s → unlocked s'.
Proof. intros (w & x & -> & ? & ? & _) (? & ? & ?). by split_and!. Qed.

(** A point of the running code that does nothing while interrupts are disabled. *)
Definition masked_noop (point : K unit) : Prop :=
  ∀ s, interrupt_flag s = false → point s = Done ((), s).

Lemma gated_masked : masked_noop gated.
Proof. intros s Hf. unfold gated. by rewrite Hf. Qed.

(** [without_interrupts] keeps everything that can happen at such points out of the
    critical section of [_print]. *)
Lemma vga_print_at_masked point args s :
  masked_noop point → vga_print_at point args s = vga_print_at (mret ()) args s.
Proof.
  intros Hp. destruct s as [c aw tq wr wm pc pm [] pe sc ch fr];
    unfold vga_print_at, without_interrupts, writer_lock, writer_unlock, modify, gets, lift,
      mret, K_ret, mbind, K_bind; cbn; destruct (mutex_lock wm) as [x| | |]; cbn; try done;
    rewrite Hp by done; cbn; destruct (print_body wr args); cbn; try done; by rewrite Hp by done.
Qed.

(** Printing returns whether or not interrupts are enabled, provided that the lock is
    free; it shows the text and touches nothing else. *)
Lemma vga_print_at_spec point args s :
  masked_noop point → unlocked s →
  ∃ w s', vga_print_at point args s = Done ((), s') ∧ same_but_screen s s' ∧
    writer s' = w ∧ print_body (writer s) args = Done w.
Proof.
  intros Hpt (Hl & Hp & Hwf). rewrite vga_print_at_masked by done.
  destruct (write_string_wf (writer s) (concat args) Hwf) as (w & E & Hw & Hc).
  rewrite <-print_body_concat in E.
  pose proof (mutex_lock_spec (writer_mutex s)) as Hm. rewrite Hl in Hm.
  destruct Hm as (x & Ex & _). exists w.
  exists (set_writer w (mutex_unlock x) s). split_and!; [| |done|done].
  - destruct s as [c aw tq wr wm pc pm [] pe sc ch fr]; cbn in Ex, E;
      unfold vga_print_at, without_interrupts, writer_lock, writer_unlock, modify, gets, lift,
        mret, K_ret, mbind, K_bind; cbn; rewrite Ex; cbn; rewrite E; done.
  - exists w, (mutex_unlock x). split_and!; [done|apply mutex_unlock_spec|done|done].
Qed.

Lemma handler_print_spec args s :
  unlocked s →
  ∃ w s', handler_print args s = Done ((), s') ∧ same_but_screen s s' ∧
    writer s' = w ∧ print_body (writer s) args = Done w.
Proof. apply vga_print_at_spec, gated_masked. Qed.

Lemma notify_spec v s :
  unlocked s →
  ∃ x, notify_end_of_interrupt v s =
    Done ((), set_pics (pics_notify_end_of_interrupt (pics s) v) x s) ∧ locked x = false.
Proof.
  intros (_ & Hl & _). pose proof (mutex_lock_spec (pics_mutex s)) as Hm. rewrite Hl in Hm.
  destruct Hm as (x & Ex & _). exists (mutex_unlock x). split; [|apply mutex_unlock_spec].
  unfold notify_end_of_interrupt. by rewrite Ex.
Qed.

Lemma drop_waker_spec w s : ∃ fr, drop_waker w s = Done ((), set_freed fr s).
Proof.
  unfold drop_waker, modify. destruct w as [k|]; [case_decide|].
  - exists (freed_wakers s). by destruct s.
  - by eexists.
  - exists (freed_wakers s). by destruct s.
Qed.

End machine_proofs.
