(* ===== verification/Interrupts.v ===== *)
(** * Interrupts (src/src/interrupts.rs, [add_scancode] of src/src/task/keyboard.rs)

    The vectors of the interrupt controllers, the interrupt descriptor table, the
    handlers, and the delivery of the interrupts that arrive at a preemption point.
    [view] is what the asynchronous code sees of the machine; the second half proves
    the effect of every interrupt on it, that no handler deadlocks on a lock or panics
    except for a full task queue, and that each interrupt is acknowledged once. *)

From stdpp Require Import prelude gmap strings.
From S2P Require Import Prelude Vga AsyncLib Machine.

Definition PIC_1_OFFSET : Z := 32.
Definition PIC_2_OFFSET : Z := PIC_1_OFFSET + 8.

Inductive InterruptIndex := Timer | Keyboard.

(** [self as u8]: the first discriminant is [PIC_1_OFFSET], the next one follows. *)
Definition as_u8 (i : InterruptIndex) : Z :=
  match i with Timer => PIC_1_OFFSET | Keyboard => PIC_1_OFFSET + 1 end.
Definition as_usize (i : InterruptIndex) : nat := Z.to_nat (as_u8 i).

(** ** The interrupt descriptor table *)

Inductive handler :=
| breakpoint_handler | page_fault_handler | double_fault_handler
| timer_interrupt_handler | keyboard_interrupt_handler.

Global Instance handler_eq_dec : EqDecision handler.
Proof. solve_decision. Defined.

(** An entry: the handler and the index of its stack in the interrupt stack table.  The
    handlers are those above, except in a test with a table of its own. *)
Record idt_entry (Hd : Type) := mkEntry { entry_handler : Hd; stack_index : option Z }.
Arguments mkEntry {Hd}.
Arguments entry_handler {Hd}.
Arguments stack_index {Hd}.

Global Instance idt_entry_eq_dec `{EqDecision Hd} : EqDecision (idt_entry Hd).
Proof. solve_decision. Defined.

Definition DOUBLE_FAULT_IST_INDEX : Z := 0.

(** The vectors of the exceptions, fixed by the CPU. *)
Definition breakpoint_vector : nat := 3.
Definition double_fault_vector : nat := 8.
Definition page_fault_vector : nat := 14.

Definition IDT : gmap nat (idt_entry handler) :=
  let idt := ∅ in
  let idt := <[breakpoint_vector := mkEntry breakpoint_handler None]> idt in
  let idt := <[page_fault_vector := mkEntry page_fault_handler None]> idt in
  let idt := <[double_fault_vector :=
                 mkEntry double_fault_handler (Some DOUBLE_FAULT_IST_INDEX)]> idt in
  let idt := <[as_usize Timer := mkEntry timer_interrupt_handler None]> idt in
  <[as_usize Keyboard := mkEntry keyboard_interrupt_handler None]> idt.

(** The timer is line 0 and the keyboard line 1 of the primary controller. *)
Definition irq_line (i : irq) : Z :=
  match i with TimerIrq => 0 | KeyboardIrq _ => 1 end.
Definition irq_vector (i : irq) : Z := PIC_1_OFFSET + irq_line i.

(** The static [PICS] *)
Definition PICS `{AsyncLib} : ChainedPics * Mutex :=
  (pics_new PIC_1_OFFSET PIC_2_OFFSET, mutex_new).

(** The kernel's statics when it is entered: interrupts are disabled, [irqs] are those
    that will arrive.  There is no task queue before the executor is created; the field
    holds an empty one. *)
Definition boot_state `{AsyncLib} (vga : Buffer) (irqs : list (list irq)) : kstate :=
  mkK _ cell_uninit waker_new (queue_new 100) (WRITER vga) mutex_new PICS.1 PICS.2 false [] irqs
    ∅ [].

Section handlers.
Context `{BuildProfile, AsyncLib}.

(** ** The keyboard's bottom half *)
Definition add_scancode (scancode : Z) : K unit :=
  cell ← gets SCANCODE_QUEUE;
  match cell_try_get cell with
  | Some queue =>
      match queue_push queue scancode with
      | (inr _, _) => println_str "WARNING: scancode queue full; dropping keyboard input"
      | (inl _, queue') =>
          _ ← modify (set_scancode_queue (cell_set cell queue'));
          atomic_waker_wake
      end
  | None => println_str "WARNING: scancode queue uninitialized"
  end.

(** ** The handlers

    [data] is what the handler reads from the hardware: the scancode from port 0x60
    for the keyboard, the accessed address from CR2 for a page fault.  The rendered
    stack frame and error code are arguments. *)
Record interrupt_info := mkInfo {
  data : Z;
  stack_frame : list Z;
  accessed_address : list Z;
  error_code : list Z;
}.

Definition run_handler (h : handler) (info : interrupt_info) : K unit :=
  match h with
  | breakpoint_handler =>
      handler_print [bytes "EXCEPTION: BREAKPOINT"; [newline]; stack_frame info; [newline]]
  | page_fault_handler =>
      _ ← println_str "EXCEPTION: PAGE FAULT";
      _ ← handler_print [bytes "Accessed Address: "; accessed_address info; [newline]];
      _ ← handler_print [bytes "Error Code: "; error_code info; [newline]];
      _ ← handler_print [stack_frame info; [newline]];
      hlt_loop
  | double_fault_handler =>
      kpanic ("EXCEPTION: DOUBLE FAULT" +:+ text [newline] +:+ text (stack_frame info))
  | timer_interrupt_handler =>
      _ ← print_str "."; notify_end_of_interrupt (as_u8 Timer)
  | keyboard_interrupt_handler =>
      let scancode := data info in
      _ ← add_scancode scancode; notify_end_of_interrupt (as_u8 Keyboard)
  end.

(** ** Delivery

    The CPU looks the vector up, clears the interrupt flag, runs the handler and
    restores the flag; a vector without an entry is a double fault. *)
Definition dispatch (vector : Z) (info : interrupt_info) : K unit :=
  let h := match IDT !! Z.to_nat vector with
           | Some e => entry_handler e
           | None => double_fault_handler
           end in
  flag ← gets interrupt_flag;
  _ ← modify (set_flag false);
  _ ← run_handler h info;
  modify (set_flag flag).

Definition irq_info (i : irq) : interrupt_info :=
  mkInfo (match i with TimerIrq => 0 | KeyboardIrq sc => sc end) [] [] [].

Definition deliver (i : irq) : K unit := dispatch (irq_vector i) (irq_info i).

Fixpoint deliver_all (l : list irq) : K unit :=
  match l with
  | [] => mret ()
  | i :: l' => _ ← deliver i; deliver_all l'
  end.

(** A point at which the running code can be interrupted. *)
Definition preempt : K unit := λ s,
  let arrived := pending s ++ default [] (head (schedule s)) in
  let rest := tail (schedule s) in
  if interrupt_flag s then deliver_all arrived (set_irqs [] rest s)
  else Done ((), set_irqs arrived rest s).

(** A point inside of the critical section of [_print]: the interrupts that arrive are
    handled there and then if the flag is set; otherwise they wait for the next point. *)
Definition interruptible : K unit := λ s,
  if interrupt_flag s then preempt s else Done ((), s).

(** [vga_buffer::_print] as the kernel's own code calls it. *)
Definition vga_print : list (list Z) → K unit := vga_print_at interruptible.

(** Code that prints one text after the other, with a preemption point before, between
    and after them. *)
Fixpoint print_each (texts : list (list (list Z))) : K unit :=
  match texts with
  | [] => preempt
  | args :: texts' => _ ← preempt; _ ← vga_print args; print_each texts'
  end.

End handlers.

(** No interrupt is pending or will arrive. *)
Definition quiet `{AsyncLib} (s : kstate) : Prop := pending s = [] ∧ schedule s = [].

(** ** The view of the asynchronous code *)

Record view := mkView {
  v_scancodes : option (list Z);
  v_waker : option Waker;
  v_tasks : list TaskId;
}.

Definition QUEUE_CAPACITY : nat := 100.

(** Waking; [None] is the panic on a full task queue. *)
Definition view_wake (w : option Waker) (ts : list TaskId) : option (list TaskId) :=
  match w with
  | Some (TaskWaker k) =>
      if bool_decide (length ts < QUEUE_CAPACITY)%nat then Some (ts ++ [k]) else None
  | _ => Some ts
  end.

Definition view_irq (i : irq) (v : view) : option view :=
  match i, v_scancodes v with
  | KeyboardIrq sc, Some l =>
      if bool_decide (length l < QUEUE_CAPACITY)%nat then
        ts ← view_wake (v_waker v) (v_tasks v); Some (mkView (Some (l ++ [sc])) None ts)
      else Some v
  | _, _ => Some v
  end.

Fixpoint view_irqs (l : list irq) (v : view) : option view :=
  match l with
  | [] => Some v
  | i :: l' => v' ← view_irq i v; view_irqs l' v'
  end.

Section proofs.
Context `{BuildProfile, AsyncLaws}.
Implicit Types (s : kstate).

Definition get_view s : view :=
  mkView (elems <$> cell_try_get (SCANCODE_QUEUE s)) (registered (WAKER s))
    (elems (task_queue s)).

Definition caps_ok s : Prop :=
  capacity (task_queue s) = QUEUE_CAPACITY ∧
  ∀ q, cell_try_get (SCANCODE_QUEUE s) = Some q → capacity q = QUEUE_CAPACITY.

Definition machine_ok s : Prop := unlocked s ∧ caps_ok s.

(** The parts of the state that no interrupt handler changes. *)
Definition same_control s s' : Prop :=
  interrupt_flag s' = interrupt_flag s ∧ pending s' = pending s ∧ schedule s' = schedule s.

Lemma same_but_screen_ok s s' :
  same_but_screen s s' → machine_ok s →
  machine_ok s' ∧ get_view s' = get_view s ∧ same_control s s' ∧ pics s' = pics s.
Proof.
  intros Hsb [Hu Hc]. pose proof (same_but_screen_unlocked _ _ Hsb Hu).
  destruct Hsb as (w & x & -> & _). by split_and!.
Qed.

Lemma interruptible_masked : masked_noop interruptible.
Proof. intros s Hf. unfold interruptible. by rewrite Hf. Qed.

Lemma vga_print_spec args s :
  unlocked s →
  ∃ w s', vga_print args s = Done ((), s') ∧ same_but_screen s s' ∧
    writer s' = w ∧ print_body (writer s) args = Done w.
Proof. apply vga_print_at_spec, interruptible_masked. Qed.

Lemma println_ok t s :
  machine_ok s →
  ∃ s', println_str t s = Done ((), s') ∧
    machine_ok s' ∧ get_view s' = get_view s ∧ same_control s s' ∧ pics s' = pics s.
Proof.
  intros Hok. destruct (handler_print_spec [bytes t; [newline]] s (proj1 Hok))
    as (w & s' & E & Hsb & _).
  exists s'. split; [exact E|]. by apply same_but_screen_ok.
Qed.

Lemma add_scancode_spec sc s :
  machine_ok s →
  match view_irq (KeyboardIrq sc) (get_view s) with
  | Some v => ∃ s', add_scancode sc s = Done ((), s') ∧ machine_ok s' ∧ get_view s' = v ∧
                    same_control s s' ∧ pics s' = pics s
  | None => add_scancode sc s = Panicked "task queue full"
  end.
Proof.
  intros Hok. pose proof Hok as [Hu [Ht Hs]].
  unfold add_scancode, gets, mbind, K_bind. cbn.
  destruct (cell_try_get (SCANCODE_QUEUE s)) as [q|] eqn:Hq; cbn.
  2: { destruct (println_ok "WARNING: scancode queue uninitialized" s Hok)
         as (s' & E & ? & Hv & ? & ?). exists s'. split_and!; [done..| |done|done].
       rewrite Hv. unfold get_view. by rewrite Hq. }
  specialize (Hs q eq_refl). pose proof (queue_push_spec q sc) as Hp. rewrite Hs in Hp.
  case_bool_decide as Hlt.
  2: { rewrite Hp.
       destruct (println_ok "WARNING: scancode queue full; dropping keyboard input" s Hok)
         as (s' & E & ? & Hv & ? & ?). exists s'. split_and!; [done..| |done|done].
       rewrite Hv. unfold get_view. by rewrite Hq. }
  destruct Hp as (q' & -> & He & Hcap). cbn. unfold atomic_waker_wake. cbn.
  destruct (waker_take_spec (WAKER s)) as (aw & -> & Haw).
  set (s1 := set_waker aw (set_scancode_queue (cell_set (SCANCODE_QUEUE s) q') s)).
  assert (cell_try_get (cell_set (SCANCODE_QUEUE s) q') = Some q') as Hget
    by (by eapply cell_set_spec).
  assert (machine_ok s1) as Hok1.
  { split; [exact Hu|]. split; [exact Ht|]. cbn. rewrite Hget. intros ? [= <-]. congruence. }
  destruct (registered (WAKER s)) as [[k|]|]; cbn.
  - pose proof (queue_push_spec (task_queue s) k) as Hpt. rewrite Ht in Hpt.
    case_bool_decide as Hlt2; cbn.
    + destruct Hpt as (tq & Ep & Hte & Htc). set (s2 := set_task_queue tq s1).
      destruct (drop_waker_spec (TaskWaker k) s2) as (fr & Ed). exists (set_freed fr s2).
      split_and!; [| |unfold get_view; cbn; rewrite Hget, Haw, Hte; cbn; by rewrite He
                   |by split_and!|done].
      * unfold mbind, K_bind, wake. cbn. rewrite Ep. cbn. exact Ed.
      * split; [exact Hu|]. split; [by cbn; rewrite Htc|]. apply Hok1.
    + unfold mbind, K_bind, wake. cbn. by rewrite Hpt.
  - eexists. split; [done|]. split_and!; [done| |by split_and!|done].
    unfold get_view. cbn. rewrite Hget, Haw. cbn. by rewrite He.
  - eexists. split; [done|]. split_and!; [done| |by split_and!|done].
    unfold get_view. cbn. rewrite Hget, Haw. cbn. by rewrite He.
Qed.

Lemma bind_K_Done {A B} (m : K A) (f : A → K B) s a s' :
  m s = Done (a, s') → (m ≫= f) s = f a s'.
Proof. intros E. unfold mbind, K_bind. by rewrite E. Qed.

Lemma bind_K_Panicked {A B} (m : K A) (f : A → K B) s msg :
  m s = Panicked msg → (m ≫= f) s = Panicked msg.
Proof. intros E. unfold mbind, K_bind. by rewrite E. Qed.

Lemma notify_ok v s :
  machine_ok s →
  ∃ s', notify_end_of_interrupt v s = Done ((), s') ∧ machine_ok s' ∧
    get_view s' = get_view s ∧ same_control s s' ∧
    acknowledged (pics s') = acknowledged (pics s) ++ [v].
Proof.
  intros [Hu Hc]. destruct (notify_spec v s Hu) as (x & E & Hx).
  eexists. split; [exact E|]. destruct Hu as (? & _ & ?).
  split_and!; [split; [by split_and!|done]|done|by split_and!|]. cbn. apply pics_notify_spec.
Qed.

Lemma irq_entry i :
  IDT !! Z.to_nat (irq_vector i) =
  Some (mkEntry (match i with TimerIrq => timer_interrupt_handler
                 | KeyboardIrq _ => keyboard_interrupt_handler end) None).
Proof. by destruct i. Qed.

(** The handler of a hardware interrupt. *)
Lemma irq_handler_spec i s :
  machine_ok s →
  let h := match i with TimerIrq => timer_interrupt_handler
           | KeyboardIrq _ => keyboard_interrupt_handler end in
  match view_irq i (get_view s) with
  | Some v =>
      ∃ s', run_handler h (irq_info i) s = Done ((), s') ∧ machine_ok s' ∧ get_view s' = v ∧
        same_control s s' ∧ acknowledged (pics s') = acknowledged (pics s) ++ [irq_vector i]
  | None => run_handler h (irq_info i) s = Panicked "task queue full"
  end.
Proof.
  intros Hok. destruct i as [|sc].
  - destruct (handler_print_spec [bytes "."] s (proj1 Hok)) as (w & s1 & E1 & Hsb & _).
    destruct (same_but_screen_ok _ _ Hsb Hok) as (Hok1 & Hv1 & (? & ? & ?) & Hp1).
    destruct (notify_ok (as_u8 Timer) s1 Hok1) as (s2 & E2 & Hok2 & Hv2 & (? & ? & ?) & Ha).
    cbn [view_irq]. exists s2. split_and!; [|done|congruence|split_and!; congruence|].
    + unfold run_handler. erewrite bind_K_Done by exact E1. exact E2.
    + by rewrite Ha, Hp1.
  - pose proof (add_scancode_spec sc s Hok) as Hadd.
    destruct (view_irq (KeyboardIrq sc) (get_view s)) as [v|].
    + destruct Hadd as (s1 & E1 & Hok1 & Hv1 & (? & ? & ?) & Hp1).
      destruct (notify_ok (as_u8 Keyboard) s1 Hok1) as (s2 & E2 & Hok2 & Hv2 & (? & ? & ?) & Ha).
      exists s2. split_and!; [|done|congruence|split_and!; congruence|].
      * unfold run_handler. cbn [irq_info data]. erewrite bind_K_Done by exact E1. exact E2.
      * by rewrite Ha, Hp1.
    + unfold run_handler. cbn [irq_info data]. by apply bind_K_Panicked.
Qed.

Lemma deliver_spec i s :
  machine_ok s →
  match view_irq i (get_view s) with
  | Some v =>
      ∃ s', deliver i s = Done ((), s') ∧ machine_ok s' ∧ get_view s' = v ∧
        same_control s s' ∧ acknowledged (pics s') = acknowledged (pics s) ++ [irq_vector i]
  | None => deliver i s = Panicked "task queue full"
  end.
Proof.
  intros Hok. pose proof (irq_handler_spec i (set_flag false s) Hok) as Hh. cbv zeta in Hh.
  change (get_view (set_flag false s)) with (get_view s) in Hh.
  unfold deliver, dispatch. rewrite irq_entry. cbn [entry_handler].
  rewrite (bind_K_Done (gets interrupt_flag) _ s (interrupt_flag s) s) by done.
  rewrite (bind_K_Done (modify (set_flag false)) _ s () (set_flag false s)) by done.
  destruct (view_irq i (get_view s)) as [v|].
  - destruct Hh as (s1 & E & Hok1 & Hv & (? & ? & ?) & Ha).
    erewrite bind_K_Done by exact E.
    exists (set_flag (interrupt_flag s) s1). by split_and!.
  - by apply bind_K_Panicked.
Qed.

Lemma deliver_all_spec l s :
  machine_ok s →
  match view_irqs l (get_view s) with
  | Some v =>
      ∃ s', deliver_all l s = Done ((), s') ∧ machine_ok s' ∧ get_view s' = v ∧
        same_control s s' ∧
        acknowledged (pics s') = acknowledged (pics s) ++ (irq_vector <$> l)
  | None => deliver_all l s = Panicked "task queue full"
  end.
Proof.
  revert s. induction l as [|i l IH]; intros s Hok; cbn [view_irqs deliver_all].
  { exists s. split_and!; try done. by rewrite app_nil_r. }
  pose proof (deliver_spec i s Hok) as Hd.
  destruct (view_irq i (get_view s)) as [v|] eqn:Hv; cbn.
  - destruct Hd as (s1 & E & Hok1 & Hv1 & (? & ? & ?) & Ha).
    specialize (IH s1 Hok1). rewrite Hv1 in IH. destruct (view_irqs l v) as [v'|].
    + destruct IH as (s2 & E2 & ? & ? & (? & ? & ?) & Ha2). exists s2.
      split_and!; [|done|done|split_and!; congruence|].
      * by erewrite bind_K_Done by exact E.
      * rewrite Ha2, Ha, <-app_assoc. done.
    + by erewrite bind_K_Done by exact E.
  - by apply bind_K_Panicked.
Qed.

Lemma preempt_quiet s : quiet s → preempt s = Done ((), s).
Proof.
  intros [Hp Hs]. unfold preempt. rewrite Hp, Hs. destruct s as [? ? ? ? ? ? ? [] ? ? ? ?];
    cbn in *; by subst.
Qed.

(** The interrupts that take effect at the next preemption point. *)
Definition arrivals s : list irq :=
  if interrupt_flag s then pending s ++ default [] (head (schedule s)) else [].

Definition still_pending s : list irq :=
  if interrupt_flag s then [] else pending s ++ default [] (head (schedule s)).

Lemma preempt_spec s :
  machine_ok s →
  match view_irqs (arrivals s) (get_view s) with
  | Some v =>
      ∃ s', preempt s = Done ((), s') ∧ machine_ok s' ∧ get_view s' = v ∧
        interrupt_flag s' = interrupt_flag s ∧ pending s' = still_pending s ∧
        schedule s' = tail (schedule s) ∧
        acknowledged (pics s') = acknowledged (pics s) ++ (irq_vector <$> arrivals s)
  | None => preempt s = Panicked "task queue full"
  end.
Proof.
  intros Hok. unfold preempt, arrivals, still_pending. destruct (interrupt_flag s) eqn:Hf.
  - set (s1 := set_irqs [] (tail (schedule s)) s).
    pose proof (deliver_all_spec (pending s ++ default [] (head (schedule s))) s1 Hok) as Hd.
    change (get_view s1) with (get_view s) in Hd.
    destruct (view_irqs _ (get_view s)) as [v|]; [|done].
    destruct Hd as (s' & E & ? & ? & (Hfl & Hpe & Hsc) & ?). exists s'.
    split_and!; try done. by rewrite Hfl.
  - cbn. eexists. split; [done|]. split_and!; try done. by rewrite app_nil_r.
Qed.

(** The interrupts that arrive at the next [n] preemption points, after those that wait. *)
Definition due n (s : kstate) : list irq := pending s ++ concat (take n (schedule s)).

(** The same, in terms of the interrupts that are due. *)
Lemma preempt_due s :
  machine_ok s →
  match preempt s with
  | Done (_, s') =>
      let arrived := due 1 s in
      machine_ok s' ∧ interrupt_flag s' = interrupt_flag s ∧
      schedule s' = drop 1 (schedule s) ∧
      pending s' = (if interrupt_flag s then [] else arrived) ∧
      acknowledged (pics s') =
        acknowledged (pics s) ++ (if interrupt_flag s then irq_vector <$> arrived else [])
  | Panicked msg => msg = "task queue full"
  | _ => False
  end.
Proof.
  intros Hok. pose proof (preempt_spec s Hok) as Hp.
  destruct (view_irqs (arrivals s) (get_view s)) as [v|]; [|by rewrite Hp].
  destruct Hp as (s' & E & ? & _ & ? & Hpe & Hs & Ha). rewrite E. cbn.
  unfold due, arrivals, still_pending in *. rewrite Hpe, Hs, Ha.
  assert (concat (take 1 (schedule s)) = default [] (head (schedule s))) as ->.
  { destruct (schedule s); cbn; by rewrite ?app_nil_r. }
  split_and!; [done|done|by destruct (schedule s)|done|].
  by destruct (interrupt_flag s).
Qed.

End proofs.

(** ** Properties *)

Section properties.
Context `{BuildProfile, AsyncLaws}.

(** C13: code that prints any texts is interrupted at any points of its execution, between,
    before and after them as well as while it holds the screen's lock, by any
    interrupts, whose handlers print as well.  It never deadlocks on the screen's or
    the interrupt controllers' lock and never faults: the only failure is the panic on a
    full task queue.  Afterwards the locks are free again, the interrupt flag is what it
    was, and if it is set, every interrupt that arrived was acknowledged exactly once, in
    order and with its own vector; if not, they all wait. *)
Theorem interrupts_never_deadlock (texts : list (list (list Z))) (s : kstate) :
  machine_ok s →
  match print_each texts s with
  | Done (_, s') =>
      let arrived := due (S (length texts)) s in
      machine_ok s' ∧ interrupt_flag s' = interrupt_flag s ∧
      schedule s' = drop (S (length texts)) (schedule s) ∧
      pending s' = (if interrupt_flag s then [] else arrived) ∧
      acknowledged (pics s') =
        acknowledged (pics s) ++ (if interrupt_flag s then irq_vector <$> arrived else [])
  | Panicked msg => msg = "task queue full"
  | _ => False
  end.
Proof.
  revert s. induction texts as [|args texts IH]; intros s Hok; cbn [print_each length].
  - pose proof (preempt_due s Hok) as Hp. destruct (preempt s) as [[[] s']| | |]; done.
  - pose proof (preempt_due s Hok) as Hp. unfold mbind at 1, K_bind at 1.
    destruct (preempt s) as [[[] s1]|msg| |]; cbn; [|done..].
    destruct Hp as (Hok1 & Hf1 & Hs1 & Hp1 & Ha1).
    destruct (vga_print_spec args s1 (proj1 Hok1)) as (w & s2 & E2 & Hsb & _).
    destruct (same_but_screen_ok _ _ Hsb Hok1) as (Hok2 & _ & (Hf2 & Hp2 & Hs2) & Hpic).
    rewrite (bind_K_Done _ _ _ _ _ E2). specialize (IH s2 Hok2).
    destruct (print_each texts s2) as [[[] s3]| | |]; [|done..].
    destruct IH as (? & Hf3 & Hs3 & Hp3 & Ha3). unfold due in *.
    rewrite Hf3, Hs3, Hp3, Ha3, Hpic, Ha1, Hf2, Hs2, Hp2, Hf1, Hs1, Hp1.
    split_and!; [done|done|..]; destruct (schedule s) as [|b l];
      destruct (interrupt_flag s); cbn; rewrite ?drop_nil, ?take_nil, ?app_nil_r, <-?app_assoc;
      rewrite ?fmap_app, <-?app_assoc; done.
Qed.

(** [add_scancode] on every path, as it changes the queues: without a queue, or with
    a full one, only a warning is printed; otherwise the scancode is queued last and
    the registered waker, if any, is taken and its task queued; it fails only when
    that task queue is full. *)
Lemma add_scancode_functional sc (s : kstate) :
  machine_ok s →
  match view_irq (KeyboardIrq sc) (get_view s) with
  | Some v => ∃ s', add_scancode sc s = Done ((), s') ∧ machine_ok s' ∧ get_view s' = v
  | None => add_scancode sc s = Panicked "task queue full"
  end.
Proof.
  intros Hok. pose proof (add_scancode_spec sc s Hok) as Ha.
  destruct (view_irq _ _) as [v|]; [|done]. destruct Ha as (s' & ? & ? & ? & _). eauto.
Qed.

End properties.

(** ** Witnesses *)

#[local] Existing Instances dev_profile list_lib list_laws.

(** A machine at rest. *)
Definition idle_machine : kstate :=
  mkK _ None None (100%nat, []) (Vga.blank_screen) false PICS.1 PICS.2 true [] [] ∅ [].

(** A key press arrives while a task waits for it. *)
Definition key_machine : kstate :=
  mkK _ (Some (100%nat, [])) (Some (TaskWaker (mkTaskId 1))) (100%nat, []) Vga.blank_screen
    false PICS.1 PICS.2 true [] [[KeyboardIrq 30; TimerIrq]] {[ mkTaskId 1 ]} [].

Lemma key_machine_ok : machine_ok key_machine.
Proof.
  split; [split_and!; [done|done|exact blank_screen_wf]|]. split; [done|]. by intros q [= <-].
Qed.

Lemma idle_machine_ok : machine_ok idle_machine.
Proof. split; [split_and!; [done|done|exact blank_screen_wf]|]. by split. Qed.

Lemma interrupts_never_deadlock_witness :
  match print_each [[bytes "ok"]; [bytes "."]] key_machine with
  | Done (_, s') =>
      machine_ok s' ∧ interrupt_flag s' = true ∧ schedule s' = [] ∧ pending s' = [] ∧
      acknowledged (pics s') = [] ++ [33; 32]
  | Panicked msg => msg = "task queue full"
  | _ => False
  end.
Proof.
  pose proof (interrupts_never_deadlock [[bytes "ok"]; [bytes "."]] key_machine key_machine_ok)
    as Hw.
  destruct (print_each [[bytes "ok"]; [bytes "."]] key_machine) as [[[] s']| | |]; exact Hw.
Defined.

Lemma add_scancode_functional_witness :
  ∃ s', add_scancode 30 key_machine = Done ((), s') ∧ machine_ok s' ∧
    get_view s' = mkView (Some [30]) None [mkTaskId 1].
Proof. exact (add_scancode_functional 30 key_machine key_machine_ok). Defined.
