(* ===== verification/Hoare.v ===== *)
(** * Reasoning about code that interrupts can preempt

    A small program logic for the monad of Machine.v.  [triple safe P m Q] says that
    from a state with [P] the code [m] returns in a state with [Q], for every
    schedule of interrupts; the only other outcome is the panic on a full task queue,
    and that is excluded when [safe] holds.

    [inv safe L R t P] is the assertion used throughout: the machine is in order, the
    task ids [L] are queued, the scancodes [R] are what is left of the input (queued or
    still to come), [t] bounds the work that is left (queued task ids and interrupts to
    come), and the view satisfies [P].  Assertions on the view that are [stable] under
    interrupts survive preemption. *)

From stdpp Require Import prelude gmap strings.
From S2P Require Import Prelude Vga AsyncLib Machine Interrupts.

(** ** Interrupts still to come *)

Fixpoint keys (l : list irq) : nat :=
  match l with
  | [] => O
  | TimerIrq :: l' => keys l'
  | KeyboardIrq _ :: l' => S (keys l')
  end.

Lemma keys_app l1 l2 : keys (l1 ++ l2) = (keys l1 + keys l2)%nat.
Proof. induction l1 as [|[|sc] l1 IH]; simpl; lia. Qed.

Lemma keys_cons i l : keys (i :: l) = (keys [i] + keys l)%nat.
Proof. by destruct i. Qed.

Lemma keys_le l : (keys l ≤ length l)%nat.
Proof. induction l as [|[|sc] l IH]; simpl; lia. Qed.

(** The scancodes that the keyboard interrupts of a list deliver. *)
Fixpoint scancodes (l : list irq) : list Z :=
  match l with
  | [] => []
  | TimerIrq :: l' => scancodes l'
  | KeyboardIrq sc :: l' => sc :: scancodes l'
  end.

Lemma scancodes_app l1 l2 : scancodes (l1 ++ l2) = scancodes l1 ++ scancodes l2.
Proof. induction l1 as [|[|sc] l1 IH]; simpl; congruence. Qed.

Lemma length_scancodes l : length (scancodes l) = keys l.
Proof. induction l as [|[|sc] l IH]; simpl; congruence. Qed.

Definition n_scancodes (v : view) : nat := length (default [] (v_scancodes v)).

(** Assertions about the view that interrupts cannot invalidate. *)
Definition stable (P : view → Prop) : Prop :=
  ∀ i v v', P v → view_irq i v = Some v' → P v'.

Lemma view_irqs_stable P l v v' : stable P → P v → view_irqs l v = Some v' → P v'.
Proof.
  intros HP. revert v. induction l as [|i l IH]; intros v Hv; simpl; [by intros [= <-]|].
  destruct (view_irq i v) as [v1|] eqn:E; [|done]. apply IH. by eapply HP.
Qed.

(** Each keyboard interrupt adds at most one scancode and one task id. *)
Lemma view_irq_grows i v v' :
  view_irq i v = Some v' →
  (n_scancodes v' ≤ n_scancodes v + keys [i])%nat ∧
  (length (v_tasks v') ≤ length (v_tasks v) + keys [i])%nat.
Proof.
  unfold view_irq, n_scancodes. destruct i as [|sc]; simpl; [intros [= <-]; lia|].
  destruct (v_scancodes v) as [l|] eqn:El; [|intros [= <-]; rewrite El; simpl; lia].
  case_bool_decide; [|intros [= <-]; rewrite El; simpl; lia].
  unfold view_wake. destruct (v_waker v) as [[k|]|]; simpl.
  - case_bool_decide; simpl; [|done]. intros [= <-]. simpl. rewrite !length_app. simpl. lia.
  - intros [= <-]. simpl. rewrite length_app. simpl. lia.
  - intros [= <-]. simpl. rewrite length_app. simpl. lia.
Qed.

Lemma view_irqs_grows l v v' :
  view_irqs l v = Some v' →
  (n_scancodes v' ≤ n_scancodes v + keys l)%nat ∧
  (length (v_tasks v') ≤ length (v_tasks v) + keys l)%nat.
Proof.
  revert v. induction l as [|i l IH]; intros v; cbn [view_irqs]; [intros [= <-]; lia|].
  destruct (view_irq i v) as [v1|] eqn:E; [|done]. intros Hv. rewrite keys_cons.
  apply view_irq_grows in E. apply IH in Hv. lia.
Qed.

(** An existing queue receives the scancodes in order; those that do not fit are
    dropped. *)
Lemma view_irqs_queue l v v' q :
  view_irqs l v = Some v' → v_scancodes v = Some q →
  ∃ acc, v_scancodes v' = Some (q ++ acc) ∧ acc `sublist_of` scancodes l ∧
    ((length q + keys l ≤ QUEUE_CAPACITY)%nat → acc = scancodes l).
Proof.
  revert v q. induction l as [|i l IH]; intros v q; cbn [view_irqs].
  { intros [= <-] ->. exists []. by rewrite app_nil_r. }
  destruct (view_irq i v) as [v1|] eqn:E; [|done]. intros Hv Hq.
  unfold view_irq in E. destruct i as [|sc]; [by injection E as <-; apply (IH v)|].
  rewrite Hq in E. case_bool_decide as Hlt.
  - destruct (view_wake _ _) as [ts|]; [|done]. injection E as <-.
    destruct (IH _ (q ++ [sc]) Hv eq_refl) as (acc & Ha & Hs & He). exists (sc :: acc).
    rewrite <-app_assoc in Ha. split_and!; [done|by apply sublist_skip|].
    intros Hl. cbn [scancodes]. f_equal. apply He. rewrite length_app. simpl in *. lia.
  - injection E as <-. destruct (IH v q Hv Hq) as (acc & Ha & Hs & He). exists acc.
    split_and!; [done|by apply sublist_cons|]. simpl. lia.
Qed.

Lemma view_irqs_no_queue l v v' :
  view_irqs l v = Some v' → v_scancodes v = None → v_scancodes v' = None.
Proof.
  intros Hv Hn. eapply (view_irqs_stable (λ v, v_scancodes v = None)); [|exact Hn|exact Hv].
  intros i u u' Hu. unfold view_irq. rewrite Hu. by destruct i; intros [= <-].
Qed.

(** Interrupts only add to the task queue. *)
Lemma view_irqs_tasks l v v' : view_irqs l v = Some v' → v_tasks v ⊆ v_tasks v'.
Proof.
  intros Hv. eapply (view_irqs_stable (λ u, v_tasks v ⊆ v_tasks u)); [|done|exact Hv].
  clear. intros i u u' Hu. unfold view_irq. destruct i as [|sc]; [by intros [= <-]|].
  destruct (v_scancodes u); [|by intros [= <-]]. case_bool_decide; [|by intros [= <-]].
  unfold view_wake. destruct (v_waker u) as [[k|]|]; simpl; [|by intros [= <-]..].
  case_bool_decide; simpl; [|done]. intros [= <-]. simpl. set_solver.
Qed.

(** With room for one id per keyboard interrupt the task queue does not overflow. *)
Lemma view_irqs_safe l v :
  (length (v_tasks v) + keys l ≤ QUEUE_CAPACITY)%nat → is_Some (view_irqs l v).
Proof.
  revert v. induction l as [|i l IH]; intros v Hb; cbn [view_irqs]; [eauto|].
  rewrite keys_cons in Hb.
  assert (is_Some (view_irq i v)) as [v1 E].
  { unfold view_irq. destruct i as [|sc]; [eauto|]. destruct (v_scancodes v); [|eauto].
    case_bool_decide; [|eauto]. unfold view_wake. simpl in Hb.
    destruct (v_waker v) as [[k|]|]; simpl; [|eauto..].
    rewrite bool_decide_eq_true_2 by lia. simpl. eauto. }
  rewrite E. simpl. apply IH. apply view_irq_grows in E. lia.
Qed.

Section hoare.
Context `{BuildProfile, AsyncLaws}.
Implicit Types (s : kstate).

Definition future_irqs s : list irq := pending s ++ concat (schedule s).

(** Scancodes queued or still to come. *)
Definition load s : nat := (n_scancodes (get_view s) + keys (future_irqs s))%nat.

(** The input that is left: the queued scancodes and those still to come. *)
Definition input_left s : list Z :=
  default [] (v_scancodes (get_view s)) ++ scancodes (future_irqs s).

Lemma length_input_left s : length (input_left s) = load s.
Proof. unfold input_left, load, n_scancodes. by rewrite length_app, length_scancodes. Qed.

(** Task ids queued, and at most one more for each keyboard interrupt to come. *)
Definition budget s : nat := (length (v_tasks (get_view s)) + keys (future_irqs s))%nat.

(** The work that is left: an interrupt weighs more than the task id it may queue. *)
Definition work s : nat :=
  (length (v_tasks (get_view s)) + 2 * length (future_irqs s))%nat.

Section triple.
Variable safe : Prop.

Definition triple {A} (P : kstate → Prop) (m : K A) (Q : A → kstate → Prop) : Prop :=
  ∀ s, P s → match m s with
             | Done (a, s') => Q a s'
             | Panicked msg => msg = "task queue full" ∧ ¬ safe
             | Faulted | Diverged => False
             end.

Lemma triple_ret {A} (P : kstate → Prop) (a : A) (Q : A → kstate → Prop) :
  (∀ s, P s → Q a s) → triple P (mret a) Q.
Proof. intros HPQ s HP. by apply HPQ. Qed.

Lemma triple_bind {A B} P (m : K A) (f : A → K B) (R : A → kstate → Prop) Q :
  triple P m R → (∀ a, triple (R a) (f a) Q) → triple P (m ≫= f) Q.
Proof.
  intros Hm Hf s HP. specialize (Hm s HP). unfold mbind, K_bind.
  destruct (m s) as [[a s']| | |]; cbn; [by apply Hf|done..].
Qed.

Lemma triple_conseq {A} (P P' : kstate → Prop) (m : K A) (Q Q' : A → kstate → Prop) :
  (∀ s, P s → P' s) → (∀ a s, Q' a s → Q a s) → triple P' m Q' → triple P m Q.
Proof.
  intros HP HQ Hm s Hs. specialize (Hm s (HP s Hs)).
  destruct (m s) as [[a s']| | |]; auto.
Qed.

Lemma triple_pre {A} (P P' : kstate → Prop) (m : K A) Q :
  (∀ s, P s → P' s) → triple P' m Q → triple P m Q.
Proof. intros HP. by apply triple_conseq. Qed.

Lemma triple_exists {A X} (P : X → kstate → Prop) (m : K A) Q :
  (∀ x, triple (P x) m Q) → triple (λ s, ∃ x, P x s) m Q.
Proof. intros Hm s [x Hx]. by apply (Hm x). Qed.

Lemma triple_pure {A} (φ : Prop) P (m : K A) Q :
  (φ → triple P m Q) → triple (λ s, φ ∧ P s) m Q.
Proof. intros Hm s [Hφ HP]. by apply Hm. Qed.

(** The input that is left is [R], up to scancodes that did not fit into the queue; in
    a [safe] run there are none.  Before the queue exists the first ones are lost. *)
Definition input_ok (R : list Z) s : Prop :=
  (safe → (length R ≤ QUEUE_CAPACITY)%nat) ∧
  match v_scancodes (get_view s) with
  | Some _ => input_left s `sublist_of` R ∧ (safe → input_left s = R)
  | None => input_left s `suffix_of` R
  end.

Lemma input_ok_self s :
  (safe → (length (input_left s) ≤ QUEUE_CAPACITY)%nat) → input_ok (input_left s) s.
Proof. intros Hs. split; [done|]. by case_match. Qed.

Lemma input_ok_sublist R s : input_ok R s → input_left s `sublist_of` R.
Proof.
  intros [_ Hr]. case_match; [by destruct Hr|]. destruct Hr as [l ->].
  by apply sublist_inserts_l.
Qed.

Lemma input_ok_load R s : input_ok R s → (load s ≤ length R)%nat.
Proof. intros Hr. rewrite <-length_input_left. by apply sublist_length, input_ok_sublist. Qed.

(** The assertion on states; [L] are task ids known to be queued. *)
Definition inv (L : list TaskId) (R : list Z) (t : nat) (P : view → Prop) s : Prop :=
  machine_ok s ∧ (safe → (budget s ≤ QUEUE_CAPACITY)%nat) ∧
  input_ok R s ∧ (work s ≤ t)%nat ∧ L ⊆ v_tasks (get_view s) ∧ P (get_view s).

Lemma inv_weaken L R t t' (P P' : view → Prop) s :
  (t ≤ t')%nat → (∀ v, P v → P' v) → inv L R t P s → inv L R t' P' s.
Proof. intros ? HP (? & ? & ? & ? & ? & ?). split_and!; auto; lia. Qed.

(** Nothing relevant but the screen changed. *)
Lemma inv_same L R t P s s' :
  machine_ok s' → get_view s' = get_view s → same_control s s' → inv L R t P s → inv L R t P s'.
Proof.
  intros Hok Hv (_ & Hp & Hs) (_ & Hb & Hl & Ht & HL & HP).
  unfold inv, budget, input_ok, input_left, work in *.
  unfold future_irqs in *. rewrite Hv, Hp, Hs. exact (conj Hok (conj Hb (conj Hl (conj Ht (conj HL HP))))).
Qed.

(** What a preemption point does to the measures. *)
Lemma preempt_step s :
  machine_ok s → (safe → (budget s ≤ QUEUE_CAPACITY)%nat) →
  match preempt s with
  | Done (_, s') =>
      machine_ok s' ∧ view_irqs (arrivals s) (get_view s) = Some (get_view s') ∧
      interrupt_flag s' = interrupt_flag s ∧
      (budget s' ≤ budget s)%nat ∧ (∀ R, input_ok R s → input_ok R s') ∧
      (work s' + length (arrivals s) ≤ work s)%nat
  | Panicked msg => msg = "task queue full" ∧ ¬ safe
  | _ => False
  end.
Proof.
  intros Hok Hsafe. pose proof (preempt_spec s Hok) as Hp.
  assert (future_irqs s = arrivals s ++ still_pending s ++ concat (tail (schedule s))) as Hfi.
  { unfold future_irqs, arrivals, still_pending.
    destruct (interrupt_flag s), (schedule s) as [|b l]; simpl;
      rewrite ?app_nil_r, <-?app_assoc; done. }
  destruct (view_irqs (arrivals s) (get_view s)) as [v|] eqn:Hv.
  - destruct Hp as (s' & E & Hok' & Hv' & Hfl & Hpe & Hsc & _). rewrite E.
    pose proof (view_irqs_grows _ _ _ Hv) as [Hg1 Hg2].
    assert (future_irqs s' = still_pending s ++ concat (tail (schedule s))) as Hfi'
      by (unfold future_irqs; congruence).
    pose proof (keys_le (arrivals s)).
    assert (∀ R, input_ok R s → input_ok R s') as Hin.
    { intros R HR. pose proof (input_ok_load _ _ HR) as Hload. destruct HR as [Hcap HR].
      split; [done|]. rewrite Hv'. unfold input_left, load, n_scancodes in *.
      rewrite Hfi, Hfi', Hv' in *. rewrite !scancodes_app in *. rewrite keys_app in Hload.
      destruct (v_scancodes (get_view s)) as [q|] eqn:Hq.
      - destruct (view_irqs_queue _ _ _ _ Hv Hq) as (acc & -> & Hsub & Hex). cbn in *.
        destruct HR as [HR1 HR2]. split.
        + rewrite <-app_assoc. etrans; [|exact HR1].
          apply sublist_app; [done|]. by apply sublist_app.
        + intros Hs. rewrite <-(HR2 Hs), <-app_assoc. rewrite Hex; [done|].
          specialize (Hcap Hs). lia.
      - rewrite (view_irqs_no_queue _ _ _ Hv Hq). cbn in *.
        etrans; [|exact HR]. by eexists. }
    unfold budget, work. rewrite Hfi, Hfi', Hv'.
    rewrite !(keys_app (arrivals s)), (length_app (arrivals s)).
    split_and!; [done|done|done|lia|done|lia].
  - rewrite Hp. split; [done|]. intros Hs. specialize (Hsafe Hs).
    destruct (view_irqs_safe (arrivals s) (get_view s)) as [? E]; [|congruence].
    unfold budget in Hsafe. rewrite Hfi, keys_app in Hsafe. lia.
Qed.

Lemma triple_preempt L R t P :
  stable P → triple (inv L R t P) preempt (λ _, inv L R t P).
Proof.
  intros HP s (Hok & Hsafe & Hl & Ht & HL & Hv). pose proof (preempt_step s Hok Hsafe) as Hp.
  destruct (preempt s) as [[[] s']| | |]; [|done..].
  destruct Hp as (? & Hvi & _ & ? & Hin & ?). split_and!; [done| |by apply Hin|lia| |].
  - intros Hs. specialize (Hsafe Hs). lia.
  - etrans; [exact HL|]. by eapply view_irqs_tasks.
  - by eapply view_irqs_stable.
Qed.

Lemma triple_print L R t P args :
  triple (inv L R t P) (vga_print args) (λ _, inv L R t P).
Proof.
  intros s Hi. pose proof Hi as (Hok & _).
  destruct (vga_print_spec args s (proj1 Hok)) as (w & s' & E & Hsb & _). rewrite E.
  destruct (same_but_screen_ok _ _ Hsb Hok) as (? & ? & ? & _). by eapply inv_same.
Qed.

End triple.
End hoare.
