(* ===== verification/Keyboard.v ===== *)
(** * The keyboard task (src/src/task/keyboard.rs)

    The stream of scancodes that the interrupt handler fills, and the task that
    decodes and prints them.  Between any two accesses to the shared statics the code
    can be preempted.  [pc_keyboard], the crate that decodes scancodes, is outside the
    repository and a parameter.

    The file proves that a suspended task never misses a wake-up ([waiting]), that it
    takes the scancodes in the order in which they come, and that polling it ends. *)

From stdpp Require Import prelude gmap strings.
From S2P Require Import Prelude Vga AsyncLib Machine Interrupts Hoare.

(** The decoder: [add_byte] answers an error, or maybe a key event; a key event may
    stand for a key.  A decoded key comes with the text that is printed for it. *)
Inductive DecodedKey := Unicode (character : list Z) | RawKey (key : list Z).

Class PcKeyboard := {
  Kbd : Type;
  KeyEvent : Type;
  kbd_new : Kbd;
  add_byte : Kbd → Z → option (option KeyEvent) * Kbd;
  process_keyevent : Kbd → KeyEvent → option DecodedKey * Kbd;
}.

Section stream.
Context `{BuildProfile, AsyncLib}.

(** [ScancodeStream::new] *)
Definition ScancodeStream_new : K unit := λ s,
  match cell_try_init_once (SCANCODE_QUEUE s) (λ _, queue_new 100) with
  | (Some _, c) => Done ((), set_scancode_queue c s)
  | (None, _) => Panicked "ScancodeStream::new should only be called once"
  end.

(** [queue.pop()] through the reference in the cell. *)
Definition pop_scancode : K (option Z) := λ s,
  match cell_try_get (SCANCODE_QUEUE s) with
  | None => Panicked "not initialized"
  | Some queue =>
      let '(o, queue') := queue_pop queue in
      Done (o, set_scancode_queue (cell_set (SCANCODE_QUEUE s) queue') s)
  end.

Definition register_waker (w : Waker) : K unit :=
  modify (λ s, set_waker (waker_register (WAKER s) w) s).

Definition take_waker : K unit :=
  modify (λ s, set_waker (waker_take (WAKER s)).2 s).

(** [ScancodeStream::poll_next], with [cx.waker()] as argument. *)
Definition poll_next (waker : Waker) : K (Poll (option Z)) :=
  _ ← preempt;
  first ← pop_scancode;
  match first with
  | Some scancode => mret (Ready (Some scancode))
  | None =>
      _ ← preempt;
      _ ← register_waker waker;
      _ ← preempt;
      second ← pop_scancode;
      match second with
      | Some scancode =>
          _ ← preempt;
          _ ← take_waker;
          mret (Ready (Some scancode))
      | None => mret Pending
      end
  end.

Context `{PcKeyboard}.

(** The body of the [while let] loop. *)
Definition handle_scancode (keyboard : Kbd) (scancode : Z) : K Kbd :=
  let '(r, keyboard) := add_byte keyboard scancode in
  match r with
  | Some (Some key_event) =>
      let '(k, keyboard) := process_keyevent keyboard key_event in
      match k with
      | Some (Unicode character) => _ ← preempt; _ ← vga_print [character]; mret keyboard
      | Some (RawKey key) => _ ← preempt; _ ← vga_print [key]; mret keyboard
      | None => mret keyboard
      end
  | _ => mret keyboard
  end.

(** The state machine that the compiler makes of [print_keypresses]: not started,
    suspended at the [await] with the decoder's state, or finished. *)
Inductive keypress_future := KpStart | KpAwait (keyboard : Kbd) | KpDone.

Fixpoint keypress_loop (fuel : nat) (waker : Waker) (keyboard : Kbd)
    : K (Poll unit * keypress_future) :=
  match fuel with
  | O => λ _, Diverged
  | S fuel' =>
      p ← poll_next waker;
      match p with
      | Pending => mret (Pending, KpAwait keyboard)
      | Ready None => mret (Ready (), KpDone)
      | Ready (Some scancode) =>
          keyboard' ← handle_scancode keyboard scancode;
          keypress_loop fuel' waker keyboard'
      end
  end.

Definition poll_keypresses (fuel : nat) (f : keypress_future) (waker : Waker)
    : K (Poll unit * keypress_future) :=
  match f with
  | KpStart =>
      _ ← preempt;
      _ ← ScancodeStream_new;
      keypress_loop fuel waker kbd_new
  | KpAwait keyboard => keypress_loop fuel waker keyboard
  | KpDone => kpanic "`async fn` resumed after completion"
  end.

End stream.

(** ** The invariant of the keyboard task *)

(** While the task runs: its queue exists, and nobody else's waker is registered. *)
Definition running (k : TaskId) (v : view) : Prop :=
  (∃ l, v_scancodes v = Some l) ∧
  (v_waker v = None ∨ v_waker v = Some (TaskWaker k)).

(** While the task is suspended: it will be woken, and if there is input it has been
    woken already. *)
Definition waiting (k : TaskId) (v : view) : Prop :=
  running k v ∧
  (v_waker v = None → k ∈ v_tasks v) ∧
  (v_scancodes v ≠ Some [] → k ∈ v_tasks v).

(** Freshly suspended. *)
Definition registered_idle (k : TaskId) (v : view) : Prop :=
  v_scancodes v = Some [] ∧ v_waker v = Some (TaskWaker k).

Lemma view_irq_key sc l v v' :
  v_scancodes v = Some l → view_irq (KeyboardIrq sc) v = Some v' →
  (v' = v ∧ (QUEUE_CAPACITY ≤ length l)%nat) ∨
  (∃ ts, view_wake (v_waker v) (v_tasks v) = Some ts ∧
         v' = mkView (Some (l ++ [sc])) None ts).
Proof.
  intros El. unfold view_irq. rewrite El. case_bool_decide.
  - destruct (view_wake _ _) as [ts|] eqn:E; simpl; [|done]. intros [= <-]. right. eauto.
  - intros [= <-]. left. split; [done|lia].
Qed.

Lemma running_stable k : stable (running k).
Proof.
  intros i v v' [[l El] Hw] Hv. destruct i as [|sc]; [by injection Hv as <-; split; eauto|].
  destruct (view_irq_key _ _ _ _ El Hv) as [[-> _]|(ts & _ & ->)]; split; simpl; eauto.
Qed.

Lemma waiting_stable k : stable (waiting k).
Proof.
  intros i v v' (Hr & Hn & Hs) Hv. pose proof (running_stable k i v v' Hr Hv) as Hr'.
  destruct i as [|sc]; [by injection Hv as <-|]. destruct Hr as [[l El] Hw].
  destruct (view_irq_key _ _ _ _ El Hv) as [[-> _]|(ts & Hts & ->)]; [by split_and!|].
  assert (k ∈ ts) as Hk.
  { destruct Hw as [Hw|Hw]; rewrite Hw in Hts; simpl in Hts; [injection Hts as <-; auto|].
    case_bool_decide; [|done]. injection Hts as <-. set_solver. }
  by split_and!.
Qed.

Lemma registered_idle_waiting k v : registered_idle k v → waiting k v.
Proof. intros [El Hw]. split; [split; eauto|]. split; [congruence|done]. Qed.

(** After registering, the task is either still registered or has been woken, and a
    queue that is empty received nothing. *)
Definition registered_or_woken (k : TaskId) (v : view) : Prop :=
  running k v ∧ (v_scancodes v = Some [] → v_waker v = Some (TaskWaker k)).

Lemma registered_or_woken_stable k : stable (registered_or_woken k).
Proof.
  intros i v v' [Hr Hs] Hv. split; [by eapply running_stable|].
  destruct i as [|sc]; [by injection Hv as <-|]. destruct Hr as [[l El] _].
  destruct (view_irq_key _ _ _ _ El Hv) as [[-> _]|(ts & _ & ->)]; [done|].
  simpl. intros [= E]. by destruct l.
Qed.

(** Before the task is started for the first time. *)
Definition unstarted (v : view) : Prop := v_scancodes v = None ∧ v_waker v = None.

Lemma unstarted_stable : stable unstarted.
Proof.
  intros i v v' [Hs Hw]. unfold view_irq. rewrite Hs. destruct i; by intros [= <-].
Qed.

#[export] Hint Resolve running_stable waiting_stable registered_or_woken_stable
  unstarted_stable : kernel.

(** ** What the decoder makes of the input *)

Section decoder.
Context `{PcKeyboard}.

(** The decoder's state after one scancode, and the text that is printed for it. *)
Definition decode (kb : Kbd) (sc : Z) : Kbd * list (list Z) :=
  match add_byte kb sc with
  | (Some (Some e), kb1) =>
      match process_keyevent kb1 e with
      | (Some (Unicode c), kb2) => (kb2, [c])
      | (Some (RawKey c), kb2) => (kb2, [c])
      | (None, kb2) => (kb2, [])
      end
  | (_, kb1) => (kb1, [])
  end.

Fixpoint decode_all (kb : Kbd) (l : list Z) : Kbd * list (list Z) :=
  match l with
  | [] => (kb, [])
  | sc :: l' =>
      let '(kb1, out) := decode kb sc in
      let '(kb2, out') := decode_all kb1 l' in (kb2, out ++ out')
  end.

Lemma decode_all_app kb l1 l2 :
  (decode_all kb (l1 ++ l2)).1 = (decode_all (decode_all kb l1).1 l2).1.
Proof.
  revert kb. induction l1 as [|sc l1 IH]; intros kb; [done|]. cbn [app decode_all].
  destruct (decode kb sc) as [kb1 out]. specialize (IH kb1).
  destruct (decode_all kb1 (l1 ++ l2)), (decode_all kb1 l1). exact IH.
Qed.

Lemma decode_all_cons kb sc l : (decode_all kb (sc :: l)).1 = (decode_all (decode kb sc).1 l).1.
Proof.
  cbn [decode_all]. destruct (decode kb sc) as [kb1 out]. cbn. by destruct (decode_all kb1 l).
Qed.

End decoder.

(** Of the input [R] the scancodes [handled] were handled and [R'] is left; the rest did
    not fit into the queue, which does not happen when [safe] holds. *)
Definition consumed (safe : Prop) (R handled R' : list Z) : Prop :=
  (handled ++ R') `sublist_of` R ∧ (safe → R = handled ++ R').

Lemma consumed_nil safe R : consumed safe R [] R.
Proof. by split. Qed.

Lemma consumed_trans safe R h1 R1 h2 R2 :
  consumed safe R h1 R1 → consumed safe R1 h2 R2 → consumed safe R (h1 ++ h2) R2.
Proof.
  intros [S1 E1] [S2 E2]. split.
  - rewrite <-app_assoc. etrans; [|exact S1]. by apply sublist_app.
  - intros Hs. rewrite (E1 Hs), (E2 Hs). by rewrite app_assoc.
Qed.

Lemma consumed_length safe R h R' : consumed safe R h R' → (length h + length R' ≤ length R)%nat.
Proof. intros [Hs _]. apply sublist_length in Hs. by rewrite length_app in Hs. Qed.

Section proofs.
Context `{BuildProfile, AsyncLaws}.
Variables (safe : Prop) (L : list TaskId).
Abbreviation triple := (triple safe).
Abbreviation inv := (inv safe L).

Lemma triple_pop_scancode R t k (P : view → Prop) :
  (∀ v, P v → running k v) →
  triple (inv R t P) pop_scancode (λ o s,
    match o with
    | None => inv R t (λ v, P v ∧ v_scancodes v = Some []) s
    | Some sc => ∃ R', consumed safe R [sc] R' ∧ inv R' t (running k) s
    end).
Proof.
  intros HP s (Hok & Hb & Hl & Hw & HL & HPv). pose proof Hok as (Hu & Ht & Hc).
  pose proof (HP _ HPv) as [[l El] Hwk].
  unfold pop_scancode. unfold get_view in El. cbn in El.
  destruct (cell_try_get (SCANCODE_QUEUE s)) as [q|] eqn:Hq; [|done]. injection El as El.
  pose proof (queue_pop_spec q) as Hp. rewrite El in Hp. destruct l as [|sc l].
  - rewrite Hp. pose proof (cell_set_spec _ _ q Hq) as Hset.
    set (s' := set_scancode_queue _ s).
    assert (get_view s' = get_view s) as Hv.
    { unfold get_view. cbn. by rewrite Hset, Hq. }
    assert (machine_ok s') as Hok'.
    { split; [exact Hu|]. split; [exact Ht|]. cbn. rewrite Hset. intros ? [= <-]. by apply Hc. }
    apply (inv_same safe L R t _ s); [done|done|by split_and!|].
    split; [done|]. split; [done|]. split; [done|]. split; [done|]. split; [done|].
    split; [done|]. unfold get_view. cbn. by rewrite Hq, <-El.
  - destruct Hp as (q' & -> & He & Hcap0). pose proof (cell_set_spec _ _ q' Hq) as Hset.
    set (s' := set_scancode_queue _ s).
    assert (get_view s' = mkView (Some l) (v_waker (get_view s)) (v_tasks (get_view s))) as Hv.
    { unfold get_view. cbn. rewrite Hset. cbn. by rewrite He. }
    assert (v_scancodes (get_view s) = Some (sc :: l)) as Hvs.
    { unfold get_view. cbn. by rewrite Hq, <-El. }
    assert (input_left s = sc :: input_left s') as Hls.
    { unfold input_left. by rewrite Hv, Hvs. }
    pose proof Hl as [Hcap Hin]. rewrite Hvs, Hls in Hin. destruct Hin as [Hsub Hex].
    exists (input_left s'). split; [by split; [|intros Hs; symmetry; apply Hex]|].
    split; [|split; [done|]; split; [|split; [done|]; split; [by rewrite Hv|]]].
    + split; [exact Hu|]. split; [exact Ht|]. cbn. rewrite Hset. intros ? [= <-].
      rewrite Hcap0. by apply Hc.
    + apply input_ok_self. intros Hs. specialize (Hcap Hs). apply sublist_length in Hsub.
      simpl in Hsub. lia.
    + rewrite Hv. split; [eauto|exact Hwk].
Qed.

Lemma triple_register R t k :
  triple (inv R t (running k)) (register_waker (TaskWaker k))
    (λ _, inv R t (registered_or_woken k)).
Proof.
  intros s ((Hu & Ht & Hc) & Hb & Hl & Hw & HL & [Hs _]). cbn.
  assert (get_view (set_waker (waker_register (WAKER s) (TaskWaker k)) s) =
    mkView (v_scancodes (get_view s)) (Some (TaskWaker k)) (v_tasks (get_view s))) as Hv.
  { unfold get_view. cbn. by rewrite waker_register_spec. }
  split; [done|]. split; [done|]. split; [exact Hl|]. split; [done|]. split; [done|]. rewrite Hv. split; [split|]; cbn; auto.
Qed.

Lemma triple_take R t k :
  triple (inv R t (running k)) take_waker (λ _, inv R t (running k)).
Proof.
  intros s ((Hu & Ht & Hc) & Hb & Hl & Hw & HL & [Hs _]). cbn.
  destruct (waker_take_spec (WAKER s)) as (aw & E & Haw). rewrite E. cbn.
  split; [done|]. split; [done|]. split; [exact Hl|]. split; [done|]. split; [done|].
  split; [exact Hs|]. left. exact Haw.
Qed.

(** [poll_next] answers a scancode, which leaves the queue, or suspends with the waker
    registered and the queue empty. *)
Lemma triple_poll_next R t k :
  triple (inv R t (running k)) (poll_next (TaskWaker k)) (λ p s,
    match p with
    | Ready (Some sc) => ∃ R', consumed safe R [sc] R' ∧ inv R' t (running k) s
    | Ready None => False
    | Pending => inv R t (registered_idle k) s
    end).
Proof.
  unfold poll_next. eapply triple_bind; [apply triple_preempt; auto with kernel|intros []].
  eapply triple_bind; [by apply (triple_pop_scancode R t k)|]. intros [sc|].
  { by apply triple_ret. }
  eapply triple_bind.
  { eapply triple_conseq; [| |apply (triple_preempt safe L R t (running k)); auto with kernel].
    - intros s. apply inv_weaken; [done|]. by intros v [? _].
    - by intros. }
  intros []. eapply triple_bind; [apply triple_register|intros []].
  eapply triple_bind; [apply triple_preempt; auto with kernel|intros []].
  eapply triple_bind; [apply (triple_pop_scancode R t k); by intros v [? _]|]. intros [sc|].
  - apply triple_exists. intros R'. apply triple_pure. intros HR. eapply triple_bind; [apply triple_preempt; auto with kernel|].
    intros []. eapply triple_bind; [apply triple_take|]. intros []. apply triple_ret. eauto.
  - apply triple_ret. intros s. apply inv_weaken; [done|].
    intros v [[_ Hw] Hs]. split; auto.
Qed.

Context `{PcKeyboard}.

Lemma triple_handle_scancode R t k kb sc :
  triple (inv R t (running k)) (handle_scancode kb sc) (λ kb' s,
    kb' = (decode kb sc).1 ∧ inv R t (running k) s).
Proof.
  unfold handle_scancode, decode. destruct (add_byte kb sc) as [[[e|]|] kb1];
    [|by apply triple_ret..].
  destruct (process_keyevent kb1 e) as [[[c|c]|] kb2]; [| |by apply triple_ret].
  all: eapply triple_bind; [apply triple_preempt; auto with kernel|intros []];
    eapply triple_bind; [apply triple_print|intros []; by apply triple_ret].
Qed.

(** The loop of the task ends once the scancodes that are queued or arrive while it
    runs are used up. *)
Lemma triple_keypress_loop fuel R t k kb :
  (length R < fuel)%nat →
  triple (inv R t (running k)) (keypress_loop fuel (TaskWaker k) kb) (λ r s,
    ∃ handled R', r = (Pending, KpAwait (decode_all kb handled).1) ∧
      consumed safe R handled R' ∧ inv R' t (registered_idle k) s).
Proof.
  revert R kb. induction fuel as [|fuel IH]; intros R kb Hf; [lia|]. cbn [keypress_loop].
  eapply triple_bind; [apply triple_poll_next|]. intros [[sc|]|].
  - apply triple_exists. intros R1. apply triple_pure. intros HR1.
    eapply triple_bind; [apply triple_handle_scancode|]. intros kb'.
    apply triple_pure. intros ->. pose proof (consumed_length _ _ _ _ HR1) as Hlen. simpl in Hlen.
    eapply triple_conseq; [by intros s Hs; exact Hs| |apply (IH R1); lia].
    intros r s (h & R' & -> & HR & Hi). exists (sc :: h), R'.
    split_and!; [by rewrite decode_all_cons|by apply (consumed_trans safe R [sc] R1 h R')|done].
  - by intros s.
  - apply triple_ret. intros s Hi. exists [], R. split_and!; [done|apply consumed_nil|done].
Qed.

(** The queue is created: from now on no input is lost. *)
Lemma triple_stream_new R t k :
  triple (inv R t unstarted) ScancodeStream_new (λ _ s,
    ∃ R', R' `suffix_of` R ∧ inv R' t (running k) s).
Proof.
  intros s ((Hu & Ht & Hc) & Hb & Hl & Hw & HL & [Hs Hwk]). unfold ScancodeStream_new. pose proof Hs as Hvn.
  pose proof (cell_try_init_once_spec (SCANCODE_QUEUE s) (λ _, queue_new 100)) as Hi.
  unfold get_view in Hs. cbn in Hs.
  destruct (cell_try_get (SCANCODE_QUEUE s)) as [q|] eqn:Hq; [done|].
  destruct Hi as (c & -> & Hc'). destruct (queue_new_spec (A := Z) 100) as [He Hcap].
  set (s' := set_scancode_queue c s).
  assert (get_view s' = mkView (Some []) (v_waker (get_view s)) (v_tasks (get_view s))) as Hv.
  { unfold get_view. cbn. rewrite Hc'. cbn. by rewrite He. }
  assert (input_left s' = input_left s) as Hin.
  { unfold input_left. rewrite Hv. unfold get_view. cbn. by rewrite Hq. }
  exists (input_left s'). split; [|split; [|split; [exact Hb|]; split; [|split; [exact Hw|]; split]]].
  - rewrite Hin. destruct Hl as [_ Hl]. by rewrite Hvn in Hl.
  - split; [exact Hu|]. split; [exact Ht|]. cbn. rewrite Hc'. by intros ? [= <-].
  - apply input_ok_self. intros Hsafe. rewrite Hin, length_input_left.
    pose proof (input_ok_load _ _ _ Hl). destruct Hl as [Hcap0 _]. specialize (Hcap0 Hsafe). lia.
  - by rewrite Hv.
  - rewrite Hv. split; [by eexists|]. left. exact Hwk.
Qed.

(** The state the keyboard task must find when it is polled. *)
Definition keypress_ready (k : TaskId) (f : keypress_future) (v : view) : Prop :=
  match f with
  | KpStart => unstarted v
  | KpAwait _ => running k v
  | KpDone => False
  end.

(** The decoder's state in a future. *)
Definition kp_decoder (f : keypress_future) : Kbd :=
  match f with KpAwait kb => kb | _ => kbd_new end.

(** Like [consumed], but the input that came before the task was started is lost. *)
Definition kp_consumed (f : keypress_future) (R handled R' : list Z) : Prop :=
  ∃ lost R0, R = lost ++ R0 ∧ consumed safe R0 handled R' ∧ (f ≠ KpStart → lost = []).

Lemma triple_poll_keypresses fuel R t k f :
  (length R < fuel)%nat →
  triple (inv R t (keypress_ready k f)) (poll_keypresses fuel f (TaskWaker k)) (λ r s,
    ∃ handled R', r = (Pending, KpAwait (decode_all (kp_decoder f) handled).1) ∧
      kp_consumed f R handled R' ∧ inv R' t (registered_idle k) s).
Proof.
  intros Hf. destruct f as [|kb|]; cbn [poll_keypresses keypress_ready].
  - eapply triple_bind; [apply triple_preempt; auto with kernel|intros []].
    eapply triple_bind; [apply triple_stream_new|intros []].
    apply triple_exists. intros R0. apply triple_pure. intros [lost ->].
    rewrite length_app in Hf.
    eapply triple_conseq; [done| |apply (triple_keypress_loop fuel R0 t k kbd_new); lia].
    intros r s (h & R' & -> & Hc & Hi). exists h, R'. split_and!; [done| |done].
    by exists lost, R0.
  - eapply triple_conseq; [done| |by apply (triple_keypress_loop fuel R t k kb)].
    intros r s (h & R' & -> & Hc & Hi). exists h, R'. split_and!; [done| |done].
    by exists [], R.
  - by intros s (_ & _ & _ & _ & _ & []).
Qed.

End proofs.

(** ** What the task does with its input *)

Section decoding.
Context `{BuildProfile, AsyncLaws, PcKeyboard}.

Lemma print_body_app w l1 l2 w1 :
  print_body w l1 = Done w1 → print_body w (l1 ++ l2) = print_body w1 l2.
Proof.
  rewrite !print_body_concat, concat_app. unfold write_string. rewrite for_each_app.
  by intros ->.
Qed.

(** Without interrupts, handling a scancode is decoding and printing. *)
Lemma handle_scancode_quiet kb sc s :
  machine_ok s → quiet s →
  ∃ s', handle_scancode kb sc s = Done ((decode kb sc).1, s') ∧ machine_ok s' ∧ quiet s' ∧
    get_view s' = get_view s ∧ print_body (writer s) (decode kb sc).2 = Done (writer s').
Proof.
  intros Hok Hq. unfold handle_scancode, decode.
  assert (∀ c (kb2 : Kbd), ∃ s',
    (_ ← preempt; _ ← vga_print [c]; mret kb2) s = Done (kb2, s') ∧ machine_ok s' ∧ quiet s' ∧
    get_view s' = get_view s ∧ print_body (writer s) [c] = Done (writer s')) as Hprint.
  { intros c kb2. rewrite (bind_K_Done preempt _ s () s) by (by apply preempt_quiet).
    destruct (vga_print_spec [c] s (proj1 Hok)) as (w & s' & E & Hsb & <- & Hpb).
    destruct (same_but_screen_ok _ _ Hsb Hok) as (? & ? & (_ & Hp & Hs) & _).
    exists s'. erewrite bind_K_Done by exact E. split_and!; try done.
    unfold quiet. by rewrite Hp, Hs. }
  destruct (add_byte kb sc) as [[[e|]|] kb1]; [|exists s; by split_and!..].
  destruct (process_keyevent kb1 e) as [[[c|c]|] kb2]; [apply Hprint..|].
  exists s. by split_and!.
Qed.

Lemma pop_scancode_quiet s l :
  machine_ok s → v_scancodes (get_view s) = Some l →
  match l with
  | [] => ∃ s', pop_scancode s = Done (None, s') ∧ machine_ok s' ∧
            get_view s' = get_view s ∧ (quiet s → quiet s') ∧ writer s' = writer s
  | sc :: l' => ∃ s', pop_scancode s = Done (Some sc, s') ∧ machine_ok s' ∧
            get_view s' = mkView (Some l') (v_waker (get_view s)) (v_tasks (get_view s)) ∧
            (quiet s → quiet s') ∧ writer s' = writer s
  end.
Proof.
  intros (Hu & Ht & Hc) El. unfold pop_scancode. unfold get_view in El. cbn in El.
  destruct (cell_try_get (SCANCODE_QUEUE s)) as [q|] eqn:Hq; [|done]. injection El as El.
  assert (∀ q', capacity q' = capacity q → elems q' = elems q ∨ True →
    machine_ok (set_scancode_queue (cell_set (SCANCODE_QUEUE s) q') s)) as Hok'.
  { intros q' Hq' _. split; [exact Hu|]. split; [exact Ht|]. cbn.
    rewrite (cell_set_spec _ _ q' Hq). intros ? [= <-]. rewrite Hq'. by apply Hc. }
  pose proof (queue_pop_spec q) as Hp. rewrite El in Hp. destruct l as [|sc l].
  - rewrite Hp. eexists. split_and!; [done|by apply Hok'; auto| |done|done].
    unfold get_view. cbn. by rewrite (cell_set_spec _ _ q Hq), Hq.
  - destruct Hp as (q' & -> & He & Hcap). eexists. split_and!; [done|by apply Hok'; auto| |done|done].
    unfold get_view. cbn. rewrite (cell_set_spec _ _ q' Hq). cbn. by rewrite He.
Qed.

(** [poll_next] when no interrupt arrives. *)
Lemma poll_next_quiet k s l :
  machine_ok s → quiet s → v_scancodes (get_view s) = Some l →
  ∃ s', machine_ok s' ∧ quiet s' ∧ writer s' = writer s ∧
    match l with
    | [] => poll_next (TaskWaker k) s = Done (Pending, s') ∧
            get_view s' = mkView (Some []) (Some (TaskWaker k)) (v_tasks (get_view s))
    | sc :: l' => poll_next (TaskWaker k) s = Done (Ready (Some sc), s') ∧
            get_view s' = mkView (Some l') (v_waker (get_view s)) (v_tasks (get_view s))
    end.
Proof.
  intros Hok Hq El. unfold poll_next.
  rewrite (bind_K_Done preempt _ s () s) by (by apply preempt_quiet).
  pose proof (pop_scancode_quiet s l Hok El) as Hp. destruct l as [|sc l].
  2: { destruct Hp as (s' & E & ? & ? & Hq' & ?). exists s'. erewrite bind_K_Done by exact E.
       split_and!; auto. }
  destruct Hp as (s1 & E1 & Hok1 & Hv1 & Hq1 & Hw1). specialize (Hq1 Hq).
  erewrite bind_K_Done by exact E1. cbn beta iota.
  rewrite (bind_K_Done preempt _ s1 () s1) by (by apply preempt_quiet).
  set (s2 := set_waker (waker_register (WAKER s1) (TaskWaker k)) s1).
  rewrite (bind_K_Done _ _ s1 () s2) by done.
  assert (get_view s2 = mkView (Some []) (Some (TaskWaker k)) (v_tasks (get_view s))) as Hv2.
  { rewrite <-El, <-Hv1. unfold get_view. cbn. by rewrite waker_register_spec. }
  rewrite (bind_K_Done preempt _ s2 () s2) by (by apply preempt_quiet).
  pose proof (pop_scancode_quiet s2 [] Hok1) as (s3 & E3 & Hok3 & Hv3 & Hq3 & Hw3).
  { by rewrite Hv2. }
  erewrite bind_K_Done by exact E3. exists s3. split_and!; [done|by apply Hq3|by rewrite Hw3|done|].
  by rewrite Hv3.
Qed.

Lemma keypress_loop_quiet k l fuel kb s :
  machine_ok s → quiet s → v_scancodes (get_view s) = Some l → (length l < fuel)%nat →
  ∃ s', keypress_loop fuel (TaskWaker k) kb s =
          Done ((Pending, KpAwait (decode_all kb l).1), s') ∧
    machine_ok s' ∧ quiet s' ∧
    get_view s' = mkView (Some []) (Some (TaskWaker k)) (v_tasks (get_view s)) ∧
    print_body (writer s) (decode_all kb l).2 = Done (writer s').
Proof.
  revert l kb s. induction fuel as [|fuel IH]; intros l kb s Hok Hq El Hf; [lia|].
  cbn [keypress_loop]. destruct (poll_next_quiet k s l Hok Hq El) as (s1 & Hok1 & Hq1 & Hw1 & E).
  destruct l as [|sc l]; destruct E as [E Hv]; erewrite bind_K_Done by exact E.
  { exists s1. split_and!; [done..|]. by rewrite Hw1. }
  destruct (handle_scancode_quiet kb sc s1 Hok1 Hq1) as (s2 & E2 & Hok2 & Hq2 & Hv2 & Hp2).
  erewrite bind_K_Done by exact E2. simpl in Hf.
  destruct (IH l (decode kb sc).1 s2 Hok2 Hq2) as (s3 & E3 & ? & ? & Hv3 & Hp3);
    [by rewrite Hv2, Hv|lia|].
  exists s3. cbn [decode_all]. destruct (decode kb sc) as [kb1 out]. cbn [fst snd] in *.
  destruct (decode_all kb1 l) as [kb2 out']. cbn [fst snd] in *.
  split_and!; [done..| |].
  - by rewrite Hv3, Hv2, Hv.
  - rewrite Hw1 in Hp2. by rewrite (print_body_app _ _ _ _ Hp2).
Qed.

(** ** Properties *)

(** The queues have room for all interrupts that are still to come. *)
Definition poll_safe s : Prop :=
  (budget s ≤ QUEUE_CAPACITY)%nat ∧ (load s ≤ QUEUE_CAPACITY)%nat.

(** C12: [poll_next] under any interleaving with interrupts.  It never reports the end of
    the stream.  When it answers a scancode, the scancode and what is then left of the
    input are the input before, in its order, up to scancodes that did not fit into a
    full queue; if the queues have room for all interrupts to come, it is the next one of
    the input and nothing is lost.  When it suspends, the queue is empty and the task's
    waker is registered, so that the next key press wakes it.  The only failure is the
    panic on a full task queue, and that only if the queues do not have such room. *)
Theorem poll_next_contract k s :
  machine_ok s → running k (get_view s) →
  match poll_next (TaskWaker k) s with
  | Done (Ready (Some sc), s') =>
      running k (get_view s') ∧ (sc :: input_left s') `sublist_of` input_left s ∧
      (poll_safe s → input_left s = sc :: input_left s')
  | Done (Ready None, _) => False
  | Done (Pending, s') => registered_idle k (get_view s')
  | Panicked msg => msg = "task queue full" ∧ ¬ poll_safe s
  | _ => False
  end.
Proof.
  intros Hok Hr.
  assert (Hoare.inv (poll_safe s) [] (input_left s) (work s) (running k) s) as Hi.
  { split; [done|]. split; [by intros [? _]|]. split; [|by split_and!; [|set_solver|]].
    apply input_ok_self. rewrite length_input_left. by intros [_ ?]. }
  pose proof (triple_poll_next (poll_safe s) [] (input_left s) (work s) k s Hi) as Ht.
  destruct (poll_next (TaskWaker k) s) as [[[[sc|]|] s']|msg| |]; try done.
  - destruct Ht as (R' & [Hsub Hex] & _ & _ & Hin & _ & _ & Hrun). split; [done|].
    pose proof Hrun as [[l El] _]. pose proof (input_ok_sublist _ _ _ Hin) as Hs'. split.
    + etrans; [|exact Hsub]. by apply sublist_skip.
    + intros Hs. rewrite (Hex Hs). cbn. f_equal. destruct Hin as [_ Hin]. rewrite El in Hin.
      destruct Hin as [_ Hin]. symmetry. by apply Hin.
  - by destruct Ht as (_ & _ & _ & _ & _ & ?).
Qed.

(** Polling the keyboard task when no interrupt arrives handles all queued scancodes
    in the order they were queued: the decoder sees exactly them, the screen shows the
    decoded text, and the task suspends with its waker registered and an empty queue. *)
Lemma keypresses_handled_in_order k l kb s :
  machine_ok s → quiet s → v_scancodes (get_view s) = Some l →
  ∃ s', poll_keypresses (S (length l)) (KpAwait kb) (TaskWaker k) s =
          Done ((Pending, KpAwait (decode_all kb l).1), s') ∧
    registered_idle k (get_view s') ∧ v_tasks (get_view s') = v_tasks (get_view s) ∧
    print_body (writer s) (decode_all kb l).2 = Done (writer s').
Proof.
  intros Hok Hq El. destruct (keypress_loop_quiet k l (S (length l)) kb s) as
    (s' & E & _ & _ & Hv & Hp); [done..|lia|].
  exists s'. rewrite Hv. by split_and!.
Qed.

End decoding.

(** ** Witnesses: a decoder that echoes every scancode *)

#[local] Existing Instances dev_profile list_lib list_laws.

Definition echo_keyboard : PcKeyboard := {|
  Kbd := list Z;
  KeyEvent := Z;
  kbd_new := [];
  add_byte kb sc := (Some (Some sc), kb ++ [sc]);
  process_keyevent kb e := (Some (Unicode [e]), kb);
|}.
#[local] Existing Instance echo_keyboard.

(** Two scancodes are queued, no interrupt arrives. *)
Definition input_machine : kstate :=
  set_scancode_queue (Some (100%nat, [65; 66])) idle_machine.

Lemma input_machine_ok : machine_ok input_machine.
Proof. split; [exact (proj1 idle_machine_ok)|]. split; [done|]. by intros q [= <-]. Qed.

Lemma poll_next_contract_witness :
  match poll_next (TaskWaker (mkTaskId 1)) key_machine with
  | Done (Ready (Some sc), s') =>
      running (mkTaskId 1) (get_view s') ∧
      (sc :: input_left s') `sublist_of` input_left key_machine ∧
      (poll_safe key_machine → input_left key_machine = sc :: input_left s')
  | Done (Ready None, _) => False
  | Done (Pending, s') => registered_idle (mkTaskId 1) (get_view s')
  | Panicked msg => msg = "task queue full" ∧ ¬ poll_safe key_machine
  | _ => False
  end.
Proof.
  apply (poll_next_contract (mkTaskId 1) key_machine key_machine_ok).
  split; [by eexists|by right].
Defined.

Lemma keypresses_handled_in_order_witness :
  ∃ s', poll_keypresses 3 (KpAwait []) (TaskWaker (mkTaskId 1)) input_machine =
          Done ((Pending, KpAwait [65; 66]), s') ∧
    registered_idle (mkTaskId 1) (get_view s') ∧ v_tasks (get_view s') = [] ∧
    print_body (writer input_machine) [[65]; [66]] = Done (writer s').
Proof.
  exact (keypresses_handled_in_order (mkTaskId 1) [65; 66] [] input_machine input_machine_ok
           (conj eq_refl eq_refl) eq_refl).
Defined.
