(* ===== verification/Task.v ===== *)
(** * Tasks and the simple executor (src/src/task/mod.rs, src/src/task/simple_executor.rs)

    A task is an id and a future.  Futures are trait objects: the model is
    parametric in their type and in how polling them acts on the machine.  The simple
    executor polls its tasks round robin until all are done. *)

From stdpp Require Import prelude gmap strings.
From S2P Require Import Prelude Vga AsyncLib Machine Interrupts Hoare.

(** [TaskId::new]: [fetch_add] on the static [NEXT_ID] wraps around at 64 bits. *)
Definition TaskId_new (NEXT_ID : Z) : TaskId * Z :=
  (mkTaskId NEXT_ID, (NEXT_ID + 1) mod usize_modulus).

(** [n] ids in a row. *)
Fixpoint new_ids (n : nat) (NEXT_ID : Z) : list TaskId * Z :=
  match n with
  | O => ([], NEXT_ID)
  | S n' =>
      let '(id, next) := TaskId_new NEXT_ID in
      let '(ids, next') := new_ids n' next in (id :: ids, next')
  end.

(** [dyn Future<Output = ()>]: a poll may act on the machine and changes the future. *)
Class Future `{AsyncLib} (F : Type) := {
  poll_future : F → Waker → K (Poll unit * F);
}.

Record Task (F : Type) := mkTask { id : TaskId; future : F }.
Arguments mkTask {F}.
Arguments id {F}.
Arguments future {F}.

Section tasks.
Context `{BuildProfile, AsyncLib} `{!Future F}.

(** [Task::new] *)
Definition Task_new (NEXT_ID : Z) (f : F) : Task F * Z :=
  let '(i, next) := TaskId_new NEXT_ID in (mkTask i f, next).

(** [Task::poll]; the future is changed in place. *)
Definition poll (self : Task F) (context : Waker) : K (Poll unit * Task F) :=
  '(p, f) ← poll_future (future self) context; mret (p, mkTask (id self) f).

(** ** The simple executor *)

Record SimpleExecutor := mkSimple { simple_queue : list (Task F) }.

Definition SimpleExecutor_new : SimpleExecutor := {| simple_queue := [] |}.

Definition simple_spawn (self : SimpleExecutor) (task : Task F) : SimpleExecutor :=
  mkSimple (simple_queue self ++ [task]).

Definition dummy_waker : Waker := DummyWaker.

(** The [while let] loop of [run]. *)
Fixpoint simple_run (fuel : nat) (self : SimpleExecutor) : K SimpleExecutor :=
  match fuel with
  | O => λ _, Diverged
  | S fuel' =>
      match simple_queue self with
      | [] => mret self
      | task :: rest =>
          let self := mkSimple rest in
          let waker := dummy_waker in
          '(p, task) ← poll task waker;
          match p with
          | Ready _ => simple_run fuel' self
          | Pending => simple_run fuel' (mkSimple (simple_queue self ++ [task]))
          end
      end
  end.

End tasks.
Arguments SimpleExecutor F : clear implicits.

(** ** Ids *)

Lemma new_ids_spec n next :
  0 ≤ next → next + Z.of_nat n ≤ usize_modulus →
  (new_ids n next).1 = (λ i, mkTaskId (next + Z.of_nat i)) <$> seq 0 n.
Proof.
  revert next. induction n as [|n IH]; intros next Hn0 Hn; [done|]. simpl.
  destruct (decide (n = O)) as [->|].
  { simpl. by rewrite Z.add_0_r. }
  rewrite (Z.mod_small (next + 1)) by lia. specialize (IH (next + 1)).
  destruct (new_ids n (next + 1)) as [ids next']. simpl in *.
  rewrite IH by lia. rewrite Z.add_0_r. f_equal. rewrite <-fmap_S_seq, <-list_fmap_compose.
  apply list_fmap_ext. intros _ i _. simpl. f_equal. lia.
Qed.

(** Ids are unique: any number of tasks up to the range of the 64-bit counter get
    pairwise different ids, starting from the static's initial value. *)
Lemma task_ids_unique n :
  Z.of_nat n ≤ usize_modulus → NoDup (new_ids n 0).1 ∧ length (new_ids n 0).1 = n.
Proof.
  intros Hn. rewrite new_ids_spec by lia. split; [|by rewrite length_fmap, length_seq].
  apply NoDup_fmap_2; [|apply NoDup_seq]. intros i j [= E]. lia.
Qed.

Lemma task_ids_unique_witness : NoDup (new_ids 5 0).1 ∧ length (new_ids 5 0).1 = 5%nat.
Proof. apply (task_ids_unique 5). vm_compute. by intros ?. Defined.
