(* ===== verification/Console.v ===== *)
(** * What the kernel shows on the screen, and what becomes of each key press

    An abstract account of a run as a list of events: the interrupts in the order in which
    they were handled, each key press with its fate, and what the program did between
    them.  [replay] is the abstract machine that says which accounts are possible: a key
    press is queued if there is room, dropped with a warning if not, and ignored with a
    warning before the queue exists.  [between] relates two states of the kernel by such
    an account, which also explains the screen exactly; [emits] is the partial-correctness
    judgement that every run of a program that returns has one.

    Accounts compose, so that each piece of the kernel is described by what the program
    itself does ([program]), and the interrupts take care of themselves. *)

From stdpp Require Import prelude gmap strings.
From S2P Require Import Prelude Vga AsyncLib Machine Interrupts Hoare Keyboard.

(** ** Accounts *)

(** What becomes of a key press. *)
Inductive fate := Ignored | Dropped | Queued.

(** What the program does: it prints, creates the scancode queue, takes from it. *)
Inductive output := Text (args : list (list Z)) | Start | Take (scancode : Z).

Inductive event := Tick | Key (scancode : Z) (f : fate) | Program (o : output).

Implicit Types (tr : list event) (l : list output).

(** The text that an event leaves on the screen. *)
Definition shown_text (e : event) : list (list Z) :=
  match e with
  | Tick => [bytes "."]
  | Key _ Ignored => [bytes "WARNING: scancode queue uninitialized"; [newline]]
  | Key _ Dropped =>
      [bytes "WARNING: scancode queue full; dropping keyboard input"; [newline]]
  | Program (Text args) => args
  | _ => []
  end.

Definition event_irq (e : event) : option irq :=
  match e with Tick => Some TimerIrq | Key sc _ => Some (KeyboardIrq sc) | Program _ => None end.
Definition event_output (e : event) : option output :=
  match e with Program o => Some o | _ => None end.
Definition event_queued (e : event) : option Z :=
  match e with Key sc Queued => Some sc | _ => None end.
Definition output_taken (o : output) : option Z :=
  match o with Take sc => Some sc | _ => None end.

Definition arrived tr : list irq := omap event_irq tr.
Definition program tr : list output := omap event_output tr.
Definition queued tr : list Z := omap event_queued tr.
Definition taken l : list Z := omap output_taken l.

(** The abstract machine: the scancode queue with its capacity, once it exists.  [None]
    means that the event cannot happen. *)
Definition replay_event (e : event) (q : option (nat * list Z)) : option (option (nat * list Z)) :=
  match e, q with
  | Key _ Ignored, None => Some None
  | Key _ Dropped, Some (c, sl) => if bool_decide (length sl < c)%nat then None else Some q
  | Key sc Queued, Some (c, sl) =>
      if bool_decide (length sl < c)%nat then Some (Some (c, sl ++ [sc])) else None
  | Program Start, None => Some (Some (QUEUE_CAPACITY, []))
  | Program (Take sc), Some (c, sc' :: sl) =>
      if bool_decide (sc = sc') then Some (Some (c, sl)) else None
  | Tick, _ | Program (Text _), _ => Some q
  | _, _ => None
  end.

Fixpoint replay tr (q : option (nat * list Z)) : option (option (nat * list Z)) :=
  match tr with
  | [] => Some q
  | e :: tr' => q' ← replay_event e q; replay tr' q'
  end.

Lemma replay_app tr1 tr2 q q1 :
  replay tr1 q = Some q1 → replay (tr1 ++ tr2) q = replay tr2 q1.
Proof.
  revert q. induction tr1 as [|e tr1 IH]; intros q; cbn [replay app]; [by intros [= ->]|].
  destruct (replay_event e q) as [q'|]; [apply IH|done].
Qed.

(** *** What the abstract machine guarantees *)

Definition contents (q : option (nat * list Z)) : list Z := from_option snd [] q.

(** Case analysis on a step of the abstract machine. *)
Ltac replay_step E :=
  match type of E with
  | replay_event ?e ?q = Some _ =>
      destruct e as [|? []|[?| |?]], q as [[? [|? ?]]|]; cbn in E;
        try case_bool_decide; simplify_eq
  end.

(** Key presses that were queued are taken in their order, and none twice. *)
Lemma replay_fifo tr q q' :
  replay tr q = Some q' → contents q ++ queued tr = taken (program tr) ++ contents q'.
Proof.
  revert q. induction tr as [|e tr IH]; intros q; cbn [replay].
  { intros [= ->]. by rewrite app_nil_r. }
  destruct (replay_event e q) as [q1|] eqn:E; [|done]. intros Hr. specialize (IH _ Hr).
  unfold queued, program, taken in *. replay_step E; cbn in *; rewrite ?IH; try done.
  all: rewrite <-?IH, <-?app_assoc; done.
Qed.

(** A key press is dropped only when as many others are queued as the queue holds. *)
Lemma replay_dropped tr q q' sc c :
  replay tr q = Some q' → Key sc Dropped ∈ tr → (∀ p, q = Some p → p.1 = c) →
  (q = None → c = QUEUE_CAPACITY) → (c ≤ length (contents q ++ queued tr))%nat.
Proof.
  revert q. induction tr as [|e tr IH]; intros q; cbn [replay]; [by intros _ ?%elem_of_nil|].
  destruct (replay_event e q) as [q1|] eqn:E; [|done]. intros Hr Hin Hc Hn.
  apply elem_of_cons in Hin as [<-|Hin].
  { destruct q as [[c' sl]|]; [|done]. cbn in E. case_bool_decide; [done|].
    specialize (Hc _ eq_refl). cbn in *. rewrite length_app. lia. }
  specialize (IH _ Hr Hin). unfold queued in *. clear Hr Hin.
  replay_step E; cbn in *; try (specialize (Hc _ eq_refl); cbn in Hc); try by apply IH.
  all: rewrite ?Hn in * by done.
  all: try (rewrite <-app_assoc in IH; cbn in IH).
  all: etrans; [apply IH; [by intros p [= <-]|done]|cbn; rewrite ?length_app; cbn; lia].
Qed.

Lemma dropped_not_queued tr sc :
  Key sc Dropped ∈ tr → (length (queued tr) < keys (arrived tr))%nat.
Proof.
  assert (∀ tr, (length (queued tr) ≤ keys (arrived tr))%nat) as Hle.
  { clear. induction tr as [|[|? []|] tr IH]; unfold queued, arrived in *; cbn in *; lia. }
  induction tr as [|e tr IH]; [by intros ?%elem_of_nil|]. rewrite elem_of_cons.
  intros [<-|Hin]; [specialize (Hle tr)|specialize (IH Hin); destruct e as [|? []|]];
    unfold queued, arrived in *; cbn in *; lia.
Qed.

(** No key press is dropped unless more come than the queue holds. *)
Lemma none_dropped tr q' sc :
  replay tr None = Some q' → (keys (arrived tr) ≤ QUEUE_CAPACITY)%nat → Key sc Dropped ∉ tr.
Proof.
  intros Hr Hk Hd. pose proof (dropped_not_queued tr sc Hd).
  pose proof (replay_dropped tr None q' sc QUEUE_CAPACITY Hr Hd ltac:(done) ltac:(done)) as Hl.
  cbn in Hl. lia.
Qed.

(** The queue keeps the capacity it was created with. *)
Lemma replay_capacity tr q p :
  replay tr q = Some (Some p) → (∀ p', q = Some p' → p'.1 = QUEUE_CAPACITY) →
  p.1 = QUEUE_CAPACITY.
Proof.
  revert q. induction tr as [|e tr IH]; intros q; cbn [replay]; [intros [= ->]; by intros H; apply H|].
  destruct (replay_event e q) as [q1|] eqn:E; [|done]. intros Hr Hq. apply (IH _ Hr).
  intros p' ->. replay_step E; try by apply Hq. all: first [done|by specialize (Hq _ eq_refl)].
Qed.

(** A key press is ignored only before the queue exists. *)
Lemma replay_ignored tr1 tr2 q q' sc :
  replay (tr1 ++ Key sc Ignored :: tr2) q = Some q' → Start ∉ program tr1.
Proof.
  revert q. induction tr1 as [|e tr1 IH]; intros q; cbn [replay app]; [set_solver|].
  destruct (replay_event e q) as [q1|] eqn:E; [|done]. intros Hr. specialize (IH _ Hr).
  assert (∀ tr p, replay (tr ++ Key sc Ignored :: tr2) (Some p) ≠ Some q') as Hsome.
  { clear. intros tr. induction tr as [|e tr IH]; intros [c sl]; [done|]. cbn [replay app].
    destruct (replay_event e _) as [q1|] eqn:E; [|done]. cbn.
    destruct e as [|k []|[args| |k]]; cbn in E; try case_bool_decide; simplify_eq; try apply IH.
    destruct sl; [done|]. case_bool_decide; simplify_eq. apply IH. }
  destruct e as [|k f|[args| |k]]; cbn; try exact IH.
  - rewrite elem_of_cons. by intros [?|?].
  - destruct q as [[c sl]|]; [done|]. cbn in E. simplify_eq. by apply Hsome in Hr.
  - rewrite elem_of_cons. by intros [?|?].
Qed.

(** ** Runs and their accounts *)

Section runs.
Context `{BuildProfile, AsyncLaws}.
Implicit Types (s : kstate).

Definition queue_of s : option (nat * list Z) :=
  (λ q, (capacity q, elems q)) <$> cell_try_get (SCANCODE_QUEUE s).

(** The account explains the screen, the interrupts that are no longer to come, and the
    scancode queue. *)
Definition between s tr s' : Prop :=
  print_body (writer s) (tr ≫= shown_text) = Done (writer s') ∧
  future_irqs s = arrived tr ++ future_irqs s' ∧
  replay tr (queue_of s) = Some (queue_of s').

Lemma between_refl s : between s [] s.
Proof. by split_and!. Qed.

Lemma between_trans s1 tr1 s2 tr2 s3 :
  between s1 tr1 s2 → between s2 tr2 s3 → between s1 (tr1 ++ tr2) s3.
Proof.
  intros (Hp1 & Hi1 & Hr1) (Hp2 & Hi2 & Hr2). split_and!.
  - rewrite bind_app. by rewrite (print_body_app _ _ _ _ Hp1).
  - unfold arrived. rewrite omap_app, <-app_assoc. unfold arrived in *. congruence.
  - by rewrite (replay_app _ _ _ _ Hr1).
Qed.

(** Nothing that the account is about changed. *)
Definition silent s s' : Prop :=
  writer s' = writer s ∧ future_irqs s' = future_irqs s ∧ queue_of s' = queue_of s.

Lemma silent_between s s' : silent s s' → between s [] s'.
Proof. intros (Hw & Hf & Hq). split_and!; cbn; congruence. Qed.

(** Every run of [m] that returns has an account in which the program itself does what
    [Φ] says; [proj] is the part of the state that the account is about. *)
Definition emits {W A} (proj : W → kstate) (m : stM W A) (Φ : A → list output → Prop) : Prop :=
  ∀ w a w', m w = Done (a, w') →
    ∃ tr, between (proj w) tr (proj w') ∧ Φ a (program tr).

Section rules.
Context {W : Type} (proj : W → kstate).

Lemma emits_conseq {A} (m : stM W A) (Φ Ψ : A → list output → Prop) :
  emits proj m Φ → (∀ a l, Φ a l → Ψ a l) → emits proj m Ψ.
Proof. intros Hm HΨ w a w' E. destruct (Hm _ _ _ E) as (tr & ? & ?). eauto. Qed.

Lemma emits_ret {A} (a : A) (Φ : A → list output → Prop) : Φ a [] → emits proj (mret a) Φ.
Proof. intros Ha w b w' [= <- <-]. exists []. split; [apply between_refl|done]. Qed.

Lemma emits_bind {A B} (m : stM W A) (f : A → stM W B) Φ Ψ :
  emits proj m Φ →
  (∀ a l1, Φ a l1 → emits proj (f a) (λ b l2, Ψ b (l1 ++ l2))) →
  emits proj (m ≫= f) Ψ.
Proof.
  intros Hm Hf w b w'. unfold mbind, stM_bind. destruct (m w) as [[a w1]| | |] eqn:E; [|done..].
  cbn. intros Ef. destruct (Hm _ _ _ E) as (tr1 & Hb1 & Ha).
  destruct (Hf a _ Ha _ _ _ Ef) as (tr2 & Hb2 & Hb). exists (tr1 ++ tr2).
  split; [by eapply between_trans|]. unfold program in *. by rewrite omap_app.
Qed.

(** A piece that does nothing itself. *)
Lemma emits_seq {A B} (m : stM W A) (f : A → stM W B) Ψ :
  emits proj m (λ _ l, l = []) → (∀ a, emits proj (f a) Ψ) → emits proj (m ≫= f) Ψ.
Proof. intros Hm Hf. eapply emits_bind; [exact Hm|]. intros a l ->. apply Hf. Qed.

Lemma emits_panic {A} msg Φ : emits (A := A) proj (λ _, Panicked msg) Φ.
Proof. done. Qed.

Lemma emits_diverged {A} Φ : emits (A := A) proj (λ _, Diverged) Φ.
Proof. done. Qed.

Lemma emits_silent {A} (m : stM W A) (Φ : A → list output → Prop) :
  (∀ w a w', m w = Done (a, w') → silent (proj w) (proj w') ∧ Φ a []) → emits proj m Φ.
Proof.
  intros Hm w a w' E. destruct (Hm _ _ _ E) as [Hs Ha]. exists [].
  split; [by apply silent_between|done].
Qed.

End rules.

(** The same rules for the monad of the machine. *)
Abbreviation emitsK := (emits (λ s, s)).

Lemma emitsK_bind {A B} (m : K A) (f : A → K B) Φ Ψ :
  emitsK m Φ → (∀ a l1, Φ a l1 → emitsK (f a) (λ b l2, Ψ b (l1 ++ l2))) →
  emitsK (m ≫= f) Ψ.
Proof. exact (emits_bind (λ s, s) m f Φ Ψ). Qed.

Lemma emitsK_seq {A B} (m : K A) (f : A → K B) Ψ :
  emitsK m (λ _ l, l = []) → (∀ a, emitsK (f a) Ψ) → emitsK (m ≫= f) Ψ.
Proof. exact (emits_seq (λ s, s) m f Ψ). Qed.

Lemma emitsK_ret {A} (a : A) (Φ : A → list output → Prop) : Φ a [] → emitsK (mret a : K A) Φ.
Proof. exact (emits_ret (λ s, s) a Φ). Qed.

(** The rest of the code only computes the result. *)
Lemma emitsK_map {A B} (m : K A) (f : A → K B) (Φ : A → list output → Prop) Ψ :
  emitsK m Φ → (∀ a l, Φ a l → ∃ b, f a = mret b ∧ Ψ b l) → emitsK (m ≫= f) Ψ.
Proof.
  intros Hm Hf. eapply emitsK_bind; [exact Hm|]. intros a l Ha.
  destruct (Hf a l Ha) as (b & -> & Hb). apply emitsK_ret. by rewrite app_nil_r.
Qed.

Lemma emits_modify f :
  (∀ s, silent s (f s)) → emitsK (modify f) (λ _ l, l = []).
Proof. intros Hf. apply emits_silent. intros s a s' [= <- <-]. by split; [apply Hf|]. Qed.

(** *** Printing *)

Lemma vga_print_done point args s s' :
  masked_noop point → vga_print_at point args s = Done ((), s') →
  print_body (writer s) args = Done (writer s') ∧ SCANCODE_QUEUE s' = SCANCODE_QUEUE s ∧
  pending s' = pending s ∧ schedule s' = schedule s.
Proof.
  intros Hpt. rewrite vga_print_at_masked by done.
  destruct s as [c aw tq wr wm pc pm [] pe sc ch fr];
    unfold vga_print_at, without_interrupts, writer_lock, writer_unlock, modify, gets, lift,
      mbind, K_bind, mret, K_ret; cbn;
    (destruct (mutex_lock wm) as [x| | |]; cbn; [|done..]);
    (destruct (print_body wr args) as [w| | |]; cbn; [|done..]);
    by intros [= <-].
Qed.

(** What a piece of a handler does to the state, and how that is accounted for. *)
Definition accounted s (e : list event) s' : Prop :=
  print_body (writer s) (e ≫= shown_text) = Done (writer s') ∧
  replay e (queue_of s) = Some (queue_of s') ∧
  pending s' = pending s ∧ schedule s' = schedule s.

Lemma accounted_print point args s s' e :
  masked_noop point → vga_print_at point args s = Done ((), s') → e ≫= shown_text = args →
  replay e (queue_of s) = Some (queue_of s) → accounted s e s'.
Proof.
  intros Hpt (Hp & Hc & Hpe & Hsc)%vga_print_done He Hr; [|done]. split_and!; [by rewrite He| |done|done].
  unfold queue_of at 2. by rewrite Hc.
Qed.

Lemma emits_print args : emitsK (vga_print args) (λ _ l, l = [Text args]).
Proof.
  intros s [] s' E. exists [Program (Text args)]. split; [|done].
  destruct (accounted_print interruptible args s s' [Program (Text args)])
    as (Hp & Hr & Hpe & Hsc); [apply interruptible_masked|exact E|cbn; by rewrite app_nil_r|done|].
  split_and!; [done| |done]. unfold future_irqs. cbn. congruence.
Qed.

(** *** Interrupts *)

Lemma cell_set_queue s q q' :
  cell_try_get (SCANCODE_QUEUE s) = Some q →
  queue_of (set_scancode_queue (cell_set (SCANCODE_QUEUE s) q') s) = Some (capacity q', elems q').
Proof. intros Hq. unfold queue_of. cbn. by rewrite (cell_set_spec _ _ q' Hq). Qed.

Lemma atomic_waker_wake_done s s' :
  atomic_waker_wake s = Done ((), s') →
  writer s' = writer s ∧ SCANCODE_QUEUE s' = SCANCODE_QUEUE s ∧
  pending s' = pending s ∧ schedule s' = schedule s.
Proof.
  unfold atomic_waker_wake. destruct (waker_take (WAKER s)) as [[[k|]|] aw];
    [|by intros [= <-]..].
  unfold mbind, K_bind, wake. cbn. destruct (queue_push _ _) as [[] tq]; [|done].
  run. edestruct drop_waker_spec as [fr ->]. by intros [= <-].
Qed.

Lemma add_scancode_accounted sc s s' :
  add_scancode sc s = Done ((), s') → ∃ f, accounted s [Key sc f] s'.
Proof.
  unfold add_scancode, gets, mbind, K_bind. cbn.
  destruct (cell_try_get (SCANCODE_QUEUE s)) as [q|] eqn:Hq.
  2: { intros E. exists Ignored. eapply accounted_print; [apply gated_masked|exact E|done|].
       unfold queue_of. by rewrite Hq. }
  pose proof (queue_push_spec q sc) as Hp. case_bool_decide as Hlt.
  - destruct Hp as (q' & -> & He & Hc). cbn. intros E. exists Queued.
    apply atomic_waker_wake_done in E as (Hw & Hs & Hpe & Hsc). cbn in *.
    split_and!; [cbn; by rewrite Hw| |done|done].
    assert (queue_of s' = Some (capacity q', elems q')) as ->
      by (unfold queue_of; rewrite Hs, (cell_set_spec _ _ q' Hq); done).
    unfold queue_of. rewrite Hq. cbn. by rewrite bool_decide_eq_true_2, He, Hc.
  - rewrite Hp. intros E. exists Dropped. eapply accounted_print; [apply gated_masked|exact E|done|].
    unfold queue_of. rewrite Hq. cbn. by rewrite bool_decide_eq_false_2.
Qed.

Lemma notify_done v s s' :
  notify_end_of_interrupt v s = Done ((), s') →
  writer s' = writer s ∧ SCANCODE_QUEUE s' = SCANCODE_QUEUE s ∧
  pending s' = pending s ∧ schedule s' = schedule s.
Proof.
  unfold notify_end_of_interrupt. destruct (mutex_lock _); [|done..]. by intros [= <-].
Qed.

(** Handling an interrupt is one event. *)
Lemma deliver_accounted i s s' :
  deliver i s = Done ((), s') → ∃ e, event_irq e = Some i ∧ event_output e = None ∧
    accounted s [e] s'.
Proof.
  unfold deliver, dispatch. rewrite irq_entry. cbn [entry_handler].
  unfold gets, modify, mbind, K_bind. cbn. set (s0 := set_flag false s).
  assert (∀ v (m : K unit) e,
    (∀ s1, m s0 = Done ((), s1) → accounted s0 [e] s1) →
    ('(_, s2) ← ('(_, s1) ← m s0; notify_end_of_interrupt v s1);
     Done ((), set_flag (interrupt_flag s) s2)) = Done ((), s') → accounted s [e] s') as Hrun.
  { intros v m e Hm. destruct (m s0) as [[[] s1]| | |] eqn:E; [|done..]. cbn.
    destruct (notify_end_of_interrupt v s1) as [[[] s2]| | |] eqn:E2; [|done..]. cbn.
    intros [= <-]. destruct (Hm s1 eq_refl) as (Hp & Hr & Hpe & Hsc).
    apply notify_done in E2 as (Hw & Hs & Hpe2 & Hsc2).
    cbn in *. split_and!; cbn; [by rewrite Hw| |congruence|congruence].
    replace (queue_of (set_flag _ s2)) with (queue_of s1); [exact Hr|].
    unfold queue_of. cbn. by rewrite Hs. }
  destruct i as [|sc]; cbn [run_handler irq_info data].
  - intros E. exists Tick. split_and!; [done|done|]. eapply Hrun; [|exact E].
    intros s1 Es. by eapply accounted_print; [apply gated_masked|..].
  - destruct (add_scancode sc s0) as [[[] s1]| | |] eqn:Ea.
    2-4: unfold mbind, K_bind; rewrite Ea; done.
    intros E. destruct (add_scancode_accounted _ _ _ Ea) as [f Hf]. exists (Key sc f).
    split_and!; [done|done|]. apply (Hrun (as_u8 Keyboard) (add_scancode sc)); [|exact E].
    intros s1' Ea'. rewrite Ea in Ea'. by injection Ea' as <-.
Qed.

Lemma deliver_all_accounted irqs s s' :
  deliver_all irqs s = Done ((), s') →
  ∃ tr, arrived tr = irqs ∧ program tr = [] ∧ accounted s tr s'.
Proof.
  revert s. induction irqs as [|i irqs IH]; intros s; cbn [deliver_all].
  { intros [= <-]. exists []. by split_and!. }
  unfold mbind, K_bind. destruct (deliver i s) as [[[] s1]| | |] eqn:E; [|done..]. cbn.
  intros E2. destruct (deliver_accounted _ _ _ E) as (e & Hi & Ho & Hp & Hr & Hpe & Hsc).
  destruct (IH _ E2) as (tr & Ha & Hpr & Hp2 & Hr2 & Hpe2 & Hsc2).
  exists (e :: tr). unfold arrived, program. cbn. rewrite Hi, Ho. split_and!; [|done|].
  { f_equal. exact Ha. }
  cbn [mbind list_bind] in Hp. rewrite app_nil_r in Hp. split_and!; [|..|congruence|congruence].
  - rewrite bind_cons. by rewrite (print_body_app _ _ _ _ Hp).
  - change (e :: tr) with ([e] ++ tr). by rewrite (replay_app _ _ _ _ Hr).
Qed.

(** A preemption point handles the interrupts that arrive there. *)
Lemma emits_preempt : emitsK preempt (λ _ l, l = []).
Proof.
  intros s [] s'. unfold preempt. set (now := pending s ++ default [] (head (schedule s))).
  assert (future_irqs s = now ++ concat (tail (schedule s))) as Hf.
  { unfold future_irqs, now. destruct (schedule s) as [|b l]; simpl; rewrite ?app_nil_r, ?app_assoc; done. }
  destruct (interrupt_flag s).
  - intros E. destruct (deliver_all_accounted _ _ _ E) as (tr & Ha & Hpr & Hp & Hr & Hpe & Hsc).
    exists tr. split; [|done]. split_and!; [done| |done].
    unfold future_irqs at 2. rewrite Hpe, Hsc, Ha. exact Hf.
  - intros [= <-]. exists []. split; [|done]. by split_and!.
Qed.

End runs.
