(* ===== verification/Executor.v ===== *)
(** * The executor (src/src/task/executor.rs)

    Tasks by id, a cache of their wakers, and the queue of woken ids, which lives in
    the machine state because the wakers in interrupt handlers push to it.  The
    executor is generic in the futures; the first half of the proofs holds for all of
    them. *)

From stdpp Require Import prelude gmap strings.
From S2P Require Import Prelude Vga AsyncLib Machine Interrupts Hoare Task.

Record Executor (F : Type) := mkExecutor {
  tasks : gmap TaskId (Task F);
  waker_cache : gmap TaskId Waker;
}.
Arguments mkExecutor {F}.
Arguments tasks {F}.
Arguments waker_cache {F}.

Section executor.
Context `{BuildProfile, AsyncLib} `{!Future F}.
Implicit Types (self : Executor F).

(** [Executor::new]; the queue is shared through an [Arc]. *)
Definition Executor_new : K (Executor F) :=
  _ ← modify (set_task_queue (queue_new 100));
  mret {| tasks := ∅; waker_cache := ∅ |}.

Definition push_task (task_id : TaskId) (msg : string) : K unit := λ s,
  match queue_push (task_queue s) task_id with
  | (inl _, q) => Done ((), set_task_queue q s)
  | (inr _, _) => Panicked msg
  end.

Definition pop_task : K (option TaskId) := λ s,
  let '(o, q) := queue_pop (task_queue s) in Done (o, set_task_queue q s).

Definition spawn (self : Executor F) (task : Task F) : K (Executor F) :=
  let task_id := id task in
  let old := tasks self !! id task in
  let self := mkExecutor (<[id task := task]> (tasks self)) (waker_cache self) in
  match old with
  | Some _ => kpanic "task with same ID already in tasks"
  | None => _ ← preempt; _ ← push_task task_id "queue full"; mret self
  end.

(** The cache's references to wakers: [or_insert_with] and [remove]. *)
Definition hold_waker (task_id : TaskId) : K unit :=
  modify (λ s, set_cached ({[ task_id ]} ∪ cached_wakers s) s).
Definition release_waker (task_id : TaskId) : K unit :=
  modify (λ s, set_cached (cached_wakers s ∖ {[ task_id ]}) s).

(** The [while let] loop of [run_ready_tasks]. *)
Fixpoint run_ready_tasks (fuel : nat) (self : Executor F) : K (Executor F) :=
  match fuel with
  | O => λ _, Diverged
  | S fuel' =>
      _ ← preempt;
      popped ← pop_task;
      match popped with
      | None => mret self
      | Some task_id =>
          match tasks self !! task_id with
          | None => run_ready_tasks fuel' self
          | Some task =>
              let waker := default (TaskWaker task_id) (waker_cache self !! task_id) in
              let cache := <[task_id := waker]> (waker_cache self) in
              _ ← hold_waker task_id;
              '(p, task') ← poll task waker;
              match p with
              | Ready _ =>
                  _ ← release_waker task_id;
                  run_ready_tasks fuel'
                    (mkExecutor (delete task_id (tasks self)) (delete task_id cache))
              | Pending =>
                  run_ready_tasks fuel'
                    (mkExecutor (<[task_id := task']> (tasks self)) cache)
              end
          end
      end
  end.

(** One iteration of that loop, for the step relation of the main loop: the executor with
    which the loop goes on, or with which it ends ([run_ready_unfold]). *)
Definition ready_iteration (self : Executor F) : K (Executor F + Executor F) :=
  _ ← preempt;
  popped ← pop_task;
  match popped with
  | None => mret (inr self)
  | Some task_id =>
      match tasks self !! task_id with
      | None => mret (inl self)
      | Some task =>
          let waker := default (TaskWaker task_id) (waker_cache self !! task_id) in
          let cache := <[task_id := waker]> (waker_cache self) in
          _ ← hold_waker task_id;
          '(p, task') ← poll task waker;
          match p with
          | Ready _ =>
              _ ← release_waker task_id;
              mret (inl (mkExecutor (delete task_id (tasks self)) (delete task_id cache)))
          | Pending =>
              mret (inl (mkExecutor (<[task_id := task']> (tasks self)) cache))
          end
      end
  end.

(** ** Sleeping *)

(** The test of [sleep_if_idle], with interrupts disabled. *)
Definition sleep_check : K bool :=
  _ ← preempt;
  _ ← modify (set_flag false);
  _ ← preempt;
  gets (λ s, queue_is_empty (task_queue s)).

(** The CPU sleeps through the points at which nothing arrives. *)
Fixpoint skip_idle (l : list (list irq)) : list (list irq) :=
  match l with
  | [] :: l' => skip_idle l'
  | _ => l
  end.

(** [hlt]: wait for the next interrupt; [false] when none will ever arrive, so that the
    CPU sleeps for good. *)
Definition hlt : K bool := λ s,
  let l := if bool_decide (pending s = []) then skip_idle (schedule s) else schedule s in
  if bool_decide (pending s = [] ∧ l = []) then Done (false, set_irqs [] [] s)
  else (_ ← preempt; mret true) (set_irqs (pending s) l s).

(** [enable_and_hlt]: no interrupt is delivered between the two instructions. *)
Definition enable_and_hlt : K bool := _ ← modify (set_flag true); hlt.

Definition sleep_if_idle : K bool :=
  empty ← sleep_check;
  if empty : bool then enable_and_hlt
  else _ ← modify (set_flag true); mret true.

(** The [loop] of [run]; it ends in the model only when the CPU sleeps for good. *)
Fixpoint run (fuel : nat) (self : Executor F) : K (Executor F) :=
  match fuel with
  | O => λ _, Diverged
  | S fuel' =>
      self ← run_ready_tasks fuel self;
      awake ← sleep_if_idle;
      if awake : bool then run fuel' self else mret self
  end.

End executor.

(** ** Invariant, for all futures *)

(** Tasks are stored under their ids, and a cached waker belongs to a task that still
    exists. *)
Definition exec_inv {F} (self : Executor F) : Prop :=
  (∀ i t, tasks self !! i = Some t → id t = i) ∧
  (∀ i w, waker_cache self !! i = Some w → w = TaskWaker i ∧ is_Some (tasks self !! i)).

Section proofs.
Context `{BuildProfile, AsyncLaws} `{!Future F}.
Implicit Types (self : Executor F).

Lemma poll_id (t t' : Task F) w s p s' : poll t w s = Done (p, t', s') → id t' = id t.
Proof.
  unfold poll, mbind, K_bind. destruct (poll_future (future t) w s) as [[[p0 f] s0]| | |]; cbn;
    [|done..]. by intros [= <- <- <-].
Qed.

(** The loop is the repetition of its iterations. *)
Lemma run_ready_unfold fuel self s :
  run_ready_tasks (S fuel) self s =
  (r ← ready_iteration self;
   match r with inl self' => run_ready_tasks fuel self' | inr self' => mret self' end) s.
Proof.
  cbn [run_ready_tasks]. unfold ready_iteration, mbind, K_bind, mret, K_ret.
  destruct (preempt s) as [[[] s1]| | |]; cbn; [|done..].
  destruct (pop_task s1) as [[[i|] s2]| | |]; cbn; [|done..].
  destruct (tasks self !! i) as [t|]; cbn; [|done].
  destruct (poll t _ _) as [[[[[]|] t'] s3]| | |]; done.
Qed.

Lemma cached_waker self i :
  exec_inv self → default (TaskWaker i) (waker_cache self !! i) = TaskWaker i.
Proof. intros [_ Hw]. destruct (waker_cache self !! i) eqn:E; [|done]. by apply Hw in E as [-> _]. Qed.

Lemma exec_inv_finish self i w :
  exec_inv self →
  exec_inv (mkExecutor (delete i (tasks self)) (delete i (<[i := w]> (waker_cache self)))).
Proof.
  intros [Ht Hw]. split; cbn.
  - intros j t [_ Hj]%lookup_delete_Some. by apply Ht.
  - intros j v Hj. rewrite delete_insert_eq in Hj. apply lookup_delete_Some in Hj as [? Hj].
    rewrite lookup_delete_ne by done. by apply Hw.
Qed.

Lemma exec_inv_keep self i t :
  exec_inv self → id t = i → is_Some (tasks self !! i) →
  exec_inv (mkExecutor (<[i := t]> (tasks self))
    (<[i := default (TaskWaker i) (waker_cache self !! i)]> (waker_cache self))).
Proof.
  intros [Ht Hw] Hid Hi. split; cbn.
  - intros j t'. rewrite lookup_insert_Some. naive_solver.
  - intros j v. rewrite lookup_insert_Some. intros [[<- <-]|[Hne Hj]].
    + rewrite lookup_insert_eq. split; [by apply cached_waker|done].
    + rewrite lookup_insert_ne by done. by apply Hw.
Qed.

(** When the loop of [run_ready_tasks] ends, the task queue was found empty. *)
Lemma run_ready_tasks_inv fuel self s self' s' :
  exec_inv self → run_ready_tasks fuel self s = Done (self', s') →
  exec_inv self' ∧ elems (task_queue s') = [] ∧ dom (tasks self') ⊆ dom (tasks self).
Proof.
  revert self s. induction fuel as [|fuel IH]; intros self s Hinv; [done|].
  cbn [run_ready_tasks]. unfold mbind at 1, K_bind at 1.
  destruct (preempt s) as [[[] s1]| | |]; [|done..]. cbn [mbind outcome_bind].
  unfold mbind at 1, K_bind at 1. unfold pop_task at 1.
  pose proof (queue_pop_spec (task_queue s1)) as Hp.
  destruct (elems (task_queue s1)) as [|i l] eqn:He.
  { rewrite Hp. cbn. intros [= <- <-]. split_and!; [done| |done]. done. }
  destruct Hp as (q & -> & Hq & _). cbn [mbind outcome_bind].
  destruct (tasks self !! i) as [task|] eqn:Ht; [|by apply IH].
  set (s1' := set_task_queue q s1).
  rewrite (bind_K_Done (hold_waker i) _ s1' () (set_cached ({[ i ]} ∪ cached_wakers s1') s1')) by done.
  unfold mbind at 1, K_bind at 1.
  destruct (poll task _ _) as [[[p t'] s2]| | |] eqn:Epoll; [|done..].
  cbn [mbind outcome_bind]. apply poll_id in Epoll.
  destruct p as [[]|]; [rewrite (bind_K_Done (release_waker i) _ s2 ()
    (set_cached (cached_wakers s2 ∖ {[ i ]}) s2)) by done|];
    intros E; apply IH in E as (? & ? & Hd).
  - split_and!; [done..|]. cbn in Hd. rewrite dom_delete_L in Hd. set_solver.
  - by apply exec_inv_finish.
  - split_and!; [done..|]. cbn in Hd. rewrite dom_insert_L in Hd.
    assert (i ∈ dom (tasks self)) by (by apply elem_of_dom). set_solver.
  - apply exec_inv_keep; [done| |by eexists]. rewrite Epoll. by apply Hinv.
Qed.

(** ** Properties *)

(** [spawn] on every path, when no interrupt arrives meanwhile: it panics for a
    duplicate id, it panics when the task queue is full, and otherwise stores the task
    and queues its id last, keeping the executor's invariant. *)
Lemma spawn_cases self t s :
  quiet s →
  match tasks self !! id t with
  | Some _ => spawn self t s = Panicked "task with same ID already in tasks"
  | None =>
      if bool_decide (length (elems (task_queue s)) < capacity (task_queue s))%nat then
        ∃ s', spawn self t s =
            Done (mkExecutor (<[id t := t]> (tasks self)) (waker_cache self), s') ∧
          elems (task_queue s') = elems (task_queue s) ++ [id t] ∧
          (exec_inv self →
           exec_inv (mkExecutor (<[id t := t]> (tasks self)) (waker_cache self)))
      else spawn self t s = Panicked "queue full"
  end.
Proof.
  intros Hq. unfold spawn. destruct (tasks self !! id t) as [t'|] eqn:Ht; [done|].
  rewrite (bind_K_Done preempt _ s () s) by (by apply preempt_quiet).
  pose proof (queue_push_spec (task_queue s) (id t)) as Hp. case_bool_decide.
  - destruct Hp as (q & Ep & He & _). exists (set_task_queue q s).
    rewrite (bind_K_Done _ _ s () (set_task_queue q s)) by (unfold push_task; by rewrite Ep).
    split_and!; [done|done|]. intros [Hi Hw]. split; cbn.
    + intros i u. rewrite lookup_insert_Some. naive_solver.
    + intros i w [-> ?]%Hw. split; [done|]. rewrite lookup_insert. by case_decide.
  - apply bind_K_Panicked. unfold push_task. by rewrite Hp.
Qed.

(** Wake-ups of tasks that no longer exist are ignored: if all queued ids are stale,
    [run_ready_tasks] empties the queue in one pass and leaves the executor alone. *)
Lemma stale_wakeups_ignored fuel self s :
  quiet s → Forall (λ i, tasks self !! i = None) (elems (task_queue s)) →
  (length (elems (task_queue s)) < fuel)%nat →
  ∃ q, run_ready_tasks fuel self s = Done (self, set_task_queue q s) ∧ elems q = [].
Proof.
  revert s. induction fuel as [|fuel IH]; intros s Hq Hst Hf; [lia|].
  cbn [run_ready_tasks]. rewrite (bind_K_Done preempt _ s () s) by (by apply preempt_quiet).
  pose proof (queue_pop_spec (task_queue s)) as Hp.
  destruct (elems (task_queue s)) as [|i l] eqn:He.
  - exists (task_queue s). split; [|done].
    rewrite (bind_K_Done pop_task _ s None (set_task_queue (task_queue s) s))
      by (unfold pop_task; by rewrite Hp). done.
  - destruct Hp as (q & Ep & Hqe & _). apply Forall_cons in Hst as [Hi Hst].
    rewrite (bind_K_Done pop_task _ s (Some i) (set_task_queue q s))
      by (unfold pop_task; by rewrite Ep).
    rewrite Hi. simpl in Hf.
    destruct (IH (set_task_queue q s)) as (q' & E & He'); [done|cbn; by rewrite Hqe| |].
    { cbn. rewrite Hqe. lia. }
    exists q'. split; [|done]. rewrite E. done.
Qed.

End proofs.

(** ** Witnesses *)

#[local] Existing Instances dev_profile list_lib list_laws.

(** Futures that are ready at once. *)
#[local] Instance ready_future : Future unit := {| poll_future f _ := mret (Ready (), f) |}.

Definition one_task : Executor unit :=
  mkExecutor {[ mkTaskId 0 := mkTask (mkTaskId 0) () ]} ∅.

Definition with_queue (ids : list TaskId) : kstate := set_task_queue (100%nat, ids) idle_machine.

Lemma spawn_cases_witness :
  spawn one_task (mkTask (mkTaskId 0) ()) (with_queue []) =
    Panicked "task with same ID already in tasks" ∧
  spawn one_task (mkTask (mkTaskId 1) ()) (with_queue (replicate 100 (mkTaskId 0))) =
    Panicked "queue full".
Proof.
  split.
  - exact (spawn_cases one_task (mkTask (mkTaskId 0) ()) (with_queue []) (conj eq_refl eq_refl)).
  - exact (spawn_cases one_task (mkTask (mkTaskId 1) ()) (with_queue (replicate 100 (mkTaskId 0)))
             (conj eq_refl eq_refl)).
Defined.

Lemma stale_wakeups_ignored_witness :
  ∃ q, run_ready_tasks 3 one_task (with_queue [mkTaskId 5; mkTaskId 6]) =
         Done (one_task, set_task_queue q (with_queue [mkTaskId 5; mkTaskId 6])) ∧ elems q = [].
Proof.
  apply (stale_wakeups_ignored 3 one_task (with_queue [mkTaskId 5; mkTaskId 6])).
  - by split.
  - repeat constructor.
  - simpl. lia.
Defined.
