(* ===== verification/Cooperative.v ===== *)
(** * Cooperative tasks: the two executors agree

    A cooperative future does a piece of work and then either is done or asks to be
    polled again.  For such futures, with no interrupts, the executor with wakers
    (src/src/task/executor.rs) polls the same tasks in the same order as the simple
    executor (src/src/task/simple_executor.rs): the two leave the same machine behind,
    and both stop when every task is done. *)

From stdpp Require Import prelude gmap strings.
From S2P Require Import Prelude Vga AsyncLib Machine Interrupts Hoare Task Executor.

(** The machine state with the executor's part of it: the task queue and the references
    to wakers. *)
Definition with_executor `{AsyncLib} (q : ArrayQueue TaskId) (c : gset TaskId) (s : kstate) : kstate :=
  set_cached c (set_task_queue q s).

(** [body] is one piece of work, [true] when the future is done after it; it does not
    touch the executor's part of the state. *)
Class Cooperative `{AsyncLib} (F : Type) `{!Future F} := {
  body : F → K (bool * F);
  poll_body f w :
    poll_future f w =
    ('(b, f') ← body f;
     if b : bool then mret (Ready (), f') else _ ← wake w; mret (Pending, f'));
  body_executor f q c s :
    body f (with_executor q c s) = ('(r, s') ← body f s; Done (r, with_executor q c s'));
  body_quiet f s r s' : quiet s → body f s = Done (r, s') → quiet s';
}.

Section cooperative.
Context `{BuildProfile, AsyncLaws} `{!Future F, !Cooperative F}.
Implicit Types (ts : list (Task F)) (ex : Executor F) (s : kstate).

(** Polling a cooperative task under the two kinds of wakers. *)
Lemma poll_dummy (t : Task F) s :
  poll t DummyWaker s =
  ('(b, f, s') ← body (future t) s;
   Done ((if b : bool then Ready () else Pending, mkTask (id t) f), s')).
Proof.
  unfold poll. rewrite poll_body. unfold mbind, K_bind.
  destruct (body (future t) s) as [[[[] f] s']| | |]; done.
Qed.

Lemma poll_task_waker (t : Task F) k q c s :
  (length (elems q) < capacity q)%nat →
  ∃ q', elems q' = elems q ++ [k] ∧ capacity q' = capacity q ∧
  poll t (TaskWaker k) (with_executor q c s) =
  ('(b, f, s') ← body (future t) s;
   Done ((if b : bool then Ready () else Pending, mkTask (id t) f),
         with_executor (if b then q else q') c s')).
Proof.
  intros Hlt. pose proof (queue_push_spec q k) as Hp.
  rewrite bool_decide_eq_true_2 in Hp by done. destruct Hp as (q' & Ep & He & Hc).
  exists q'. split_and!; [done..|]. unfold poll. rewrite poll_body.
  unfold mbind, K_bind. rewrite body_executor.
  destruct (body (future t) s) as [[[[] f] s']| | |]; cbn; [done| |done..].
  by rewrite Ep.
Qed.

(** The executor holds exactly the tasks [ts] and all of them are queued, in order. *)
Definition matches ex (q : ArrayQueue TaskId) ts : Prop :=
  exec_inv ex ∧ NoDup (id <$> ts) ∧
  (∀ i t, tasks ex !! i = Some t ↔ t ∈ ts ∧ id t = i) ∧
  elems q = id <$> ts ∧ capacity q = QUEUE_CAPACITY ∧ (length ts ≤ QUEUE_CAPACITY)%nat.

Lemma matches_waker ex q ts i :
  matches ex q ts → default (TaskWaker i) (waker_cache ex !! i) = TaskWaker i.
Proof. intros [Hinv _]. by apply cached_waker. Qed.

Lemma matches_finish ex q q' t ts w :
  matches ex q (t :: ts) → elems q' = id <$> ts → capacity q' = capacity q →
  matches (mkExecutor (delete (id t) (tasks ex)) (delete (id t) (<[id t := w]> (waker_cache ex))))
    q' ts.
Proof.
  intros (He & Hnd & Hm & _ & Hc & Hl) Hq' Hc'. simpl in Hnd, Hl.
  apply NoDup_cons in Hnd as [Hni Hnd].
  split_and!; [by apply exec_inv_finish|done| |done|congruence|lia].
  intros i u. cbn. rewrite lookup_delete_Some, Hm, elem_of_cons. split.
  - intros (Hne & [->|Hu] & <-); [done|]. done.
  - intros [Hu <-]. split_and!; [|by right|done]. intros E. apply Hni. rewrite E.
    by apply list_elem_of_fmap_2.
Qed.

Lemma matches_again ex q q' t t' ts :
  matches ex q (t :: ts) → id t' = id t → elems q' = (id <$> ts) ++ [id t] →
  capacity q' = capacity q →
  matches (mkExecutor (<[id t := t']> (tasks ex))
     (<[id t := default (TaskWaker (id t)) (waker_cache ex !! id t)]> (waker_cache ex)))
    q' (ts ++ [t']).
Proof.
  intros (He & Hnd & Hm & _ & Hc & Hl) Hid Hq' Hc'. simpl in Hnd, Hl.
  apply NoDup_cons in Hnd as [Hni Hnd].
  split_and!.
  - apply exec_inv_keep; [done..|]. exists t. apply Hm. split; [left|done].
  - rewrite fmap_app, Permutation_app_comm. simpl. rewrite Hid. by constructor.
  - intros i u. cbn. rewrite lookup_insert_Some, Hm, elem_of_cons, elem_of_app,
      list_elem_of_singleton. split.
    + intros [[<- <-]|(Hne & [->|Hu] & <-)]; [auto|done|auto].
    + intros [[Hu| ->] <-]; [right|left; auto]. split_and!; [|by right|done].
      intros E. apply Hni. rewrite E. by apply list_elem_of_fmap_2.
  - by rewrite fmap_app, Hq', <-Hid.
  - congruence.
  - rewrite length_app. simpl. lia.
Qed.

(** The executors agree step by step. *)
Lemma executors_agree fuel ts ex q c s se s' :
  quiet s → matches ex q ts →
  simple_run fuel (mkSimple ts) s = Done (se, s') →
  ∃ ex' q' c', run_ready_tasks fuel ex (with_executor q c s) =
                 Done (ex', with_executor q' c' s') ∧
    tasks ex' = ∅ ∧ waker_cache ex' = ∅ ∧ elems q' = [] ∧ simple_queue se = [].
Proof.
  revert ts ex q c s. induction fuel as [|fuel IH]; intros ts ex q c s Hq Hm; [done|].
  cbn [simple_run run_ready_tasks simple_queue].
  rewrite (bind_K_Done preempt _ _ () (with_executor q c s)) by (by apply preempt_quiet).
  pose proof Hm as (He & Hnd & Htasks & Hel & Hc & Hl).
  pose proof (queue_pop_spec q) as Hp. rewrite Hel in Hp. destruct ts as [|t ts].
  - rewrite (bind_K_Done pop_task _ _ None (with_executor q c s))
      by (unfold pop_task; cbn; by rewrite Hp).
    intros [= <- <-]. exists ex, q, c. split_and!; [done| | |done|done].
    + apply map_empty. intros i. apply eq_None_not_Some. intros [u Hu].
      apply Htasks in Hu as [Hu%elem_of_nil _]. done.
    + apply map_empty. intros i. apply eq_None_not_Some. intros [w Hw].
      apply He in Hw as [_ [u Hu]]. apply Htasks in Hu as [Hu%elem_of_nil _]. done.
  - simpl in Hp. destruct Hp as (q1 & Ep & Hq1 & Hc1).
    rewrite (bind_K_Done pop_task _ _ (Some (id t)) (with_executor q1 c s))
      by (unfold pop_task; cbn; by rewrite Ep).
    set (c1 := {[ id t ]} ∪ c).
    assert (tasks ex !! id t = Some t) as -> by (apply Htasks; split; [left|done]).
    pose proof (poll_dummy t s) as Ed. rewrite (matches_waker _ _ _ _ Hm).
    destruct (poll_task_waker t (id t) q1 c1 s) as (q2 & Hq2 & Hc2 & Ew).
    { rewrite Hq1, length_fmap, Hc1, Hc. simpl in Hl. lia. }
    destruct (body (future t) s) as [[[b f] s1]|msg| |] eqn:Eb; cbn [mbind outcome_bind] in Ed.
    2-4: by unfold dummy_waker, mbind at 1, K_bind at 1; rewrite Ed.
    apply body_quiet in Eb; [|done]. cbn [mbind outcome_bind] in Ew.
    unfold dummy_waker. erewrite bind_K_Done by exact Ed.
    rewrite (bind_K_Done (hold_waker (id t)) _ _ () (with_executor q1 c1 s)) by done.
    erewrite bind_K_Done by exact Ew. destruct b; cbn [simple_queue].
    + intros E. rewrite (bind_K_Done (release_waker (id t)) _ _ ()
        (with_executor q1 (c1 ∖ {[ id t ]}) s1)) by done. eapply IH; [done| |exact E].
      eapply matches_finish; [exact Hm|done|done].
    + intros E. eapply IH; [done| |exact E]. rewrite <-(matches_waker _ _ _ (id t) Hm) at 1.
      eapply (matches_again _ q); [exact Hm|done|by rewrite Hq2, Hq1|congruence].
Qed.

(** ** Spawning *)

Fixpoint spawn_all ex ts : K (Executor F) :=
  match ts with
  | [] => mret ex
  | t :: ts' => ex' ← spawn ex t; spawn_all ex' ts'
  end.

Lemma spawn_matches ex q c ts t s :
  quiet s → matches ex q ts → id t ∉ id <$> ts → (length ts < QUEUE_CAPACITY)%nat →
  ∃ ex' q', spawn ex t (with_executor q c s) = Done (ex', with_executor q' c s) ∧
    matches ex' q' (ts ++ [t]).
Proof.
  intros Hq ([Hid Hw] & Hnd & Hm & He & Hc & Hl) Hni Hlt. unfold spawn.
  assert (tasks ex !! id t = None) as Hnone.
  { apply eq_None_not_Some. intros [u Hu]. apply Hm in Hu as [Hu Hi]. apply Hni. rewrite <-Hi.
    by apply list_elem_of_fmap_2. }
  rewrite Hnone. rewrite (bind_K_Done preempt _ _ () (with_executor q c s))
    by (by apply preempt_quiet).
  pose proof (queue_push_spec q (id t)) as Hp.
  rewrite bool_decide_eq_true_2 in Hp by (rewrite He, length_fmap; lia).
  destruct Hp as (q' & Ep & He' & Hc').
  rewrite (bind_K_Done _ _ _ () (with_executor q' c s)) by (unfold push_task; cbn; by rewrite Ep).
  eexists _, q'. split; [done|]. split_and!; cbn.
  - split; cbn.
    + intros i u. rewrite lookup_insert_Some. naive_solver.
    + intros i w Hi. destruct (Hw i w Hi) as [-> Hs]. split; [done|].
      rewrite lookup_insert. by case_decide.
  - rewrite fmap_app, Permutation_app_comm. by constructor.
  - intros i u. rewrite lookup_insert_Some, Hm, elem_of_app, list_elem_of_singleton. split.
    + intros [[<- <-]|(_ & ? & <-)]; auto.
    + intros [[Hu| ->] <-]; [right|left; auto]. split; [|done]. intros E. apply Hni. rewrite E.
      by apply list_elem_of_fmap_2.
  - by rewrite He', He, fmap_app.
  - congruence.
  - rewrite length_app. simpl. lia.
Qed.

Lemma spawn_all_matches ts ex q c ts0 s :
  quiet s → matches ex q ts0 → NoDup (id <$> ts0 ++ ts) →
  (length (ts0 ++ ts) ≤ QUEUE_CAPACITY)%nat →
  ∃ ex' q', spawn_all ex ts (with_executor q c s) = Done (ex', with_executor q' c s) ∧
    matches ex' q' (ts0 ++ ts).
Proof.
  revert ex q ts0. induction ts as [|t ts IH]; intros ex q ts0 Hq Hm Hnd Hl; cbn [spawn_all].
  { rewrite app_nil_r. eauto. }
  destruct (spawn_matches ex q c ts0 t s Hq Hm) as (ex1 & q1 & E1 & Hm1).
  { rewrite fmap_app in Hnd. apply NoDup_app in Hnd as (_ & Hx & _). intros Hin.
    apply (Hx _ Hin). by left. }
  { rewrite length_app in Hl. simpl in Hl. lia. }
  erewrite bind_K_Done by exact E1.
  assert (ts0 ++ t :: ts = (ts0 ++ [t]) ++ ts) as Ets by (by rewrite <-app_assoc).
  rewrite Ets in Hnd, Hl |- *. by apply IH.
Qed.

Lemma new_matches q :
  elems q = [] → capacity q = QUEUE_CAPACITY → matches (mkExecutor ∅ ∅) q [].
Proof.
  intros He Hc. split_and!; [split; intros ??; cbn; by rewrite lookup_empty|by apply NoDup_nil| |done|done|simpl; lia].
  intros i t. cbn. rewrite lookup_empty. split; [done|]. by intros [?%elem_of_nil _].
Qed.

Lemma foldl_simple_spawn ts ts0 :
  foldl simple_spawn (mkSimple ts0) ts = mkSimple (ts0 ++ ts).
Proof.
  revert ts0. induction ts as [|t ts IH]; intros ts0; [by rewrite app_nil_r|].
  simpl. unfold simple_spawn at 2. rewrite IH. simpl. by rewrite <-app_assoc.
Qed.

(** ** Properties *)

(** The polls that are left, when a poll that is not the last one decreases [steps]. *)
Fixpoint total_steps (steps : F → nat) ts : nat :=
  match ts with
  | [] => O
  | t :: ts' => (S (steps (future t)) + total_steps steps ts')%nat
  end.

Lemma total_steps_app steps ts1 ts2 :
  total_steps steps (ts1 ++ ts2) = (total_steps steps ts1 + total_steps steps ts2)%nat.
Proof. induction ts1; simpl; lia. Qed.

Lemma simple_run_returns steps fuel ts s :
  (∀ f s, quiet s → ∃ b f' s', body f s = Done ((b, f'), s') ∧
     (b = false → (steps f' < steps f)%nat)) →
  quiet s → (total_steps steps ts < fuel)%nat →
  ∃ s', simple_run fuel (mkSimple ts) s = Done (mkSimple [], s').
Proof.
  intros Hb. revert ts s. induction fuel as [|fuel IH]; intros ts s Hq Hf; [lia|].
  cbn [simple_run simple_queue]. destruct ts as [|t ts]; [by eexists|]. simpl in Hf.
  destruct (Hb (future t) s Hq) as (b & f & s1 & E & Hlt).
  pose proof (body_quiet _ _ _ _ Hq E) as Hq1.
  assert (poll t dummy_waker s =
    Done ((if b then Ready () else Pending, mkTask (id t) f), s1)) as Ep.
  { unfold dummy_waker. rewrite poll_dummy, E. done. }
  erewrite bind_K_Done by exact Ep. destruct b; cbn [simple_queue].
  - apply IH; [done|lia].
  - apply IH; [done|]. rewrite total_steps_app. simpl. specialize (Hlt eq_refl). lia.
Qed.

(** C37: the simple executor's [run] ends with an empty queue whenever every task needs
    only finitely many polls, after at most as many polls as the tasks need in total. *)
Theorem simple_executor_terminates steps ts s :
  (∀ f s, quiet s → ∃ b f' s', body f s = Done ((b, f'), s') ∧
     (b = false → (steps f' < steps f)%nat)) →
  quiet s →
  ∃ s', simple_run (S (total_steps steps ts)) (foldl simple_spawn SimpleExecutor_new ts) s =
        Done (mkSimple [], s').
Proof.
  intros Hb Hq. unfold SimpleExecutor_new. rewrite foldl_simple_spawn. cbn [app].
  apply (simple_run_returns steps); [done|done|lia].
Qed.

(** C17: the executor with wakers is equivalent to the simple executor on cooperative
    tasks: spawning the same at most 100 tasks and running until none is ready leaves
    the same machine behind (the screen and everything else but the executor's own part of
    it), with no task, no cached waker and no queued id left over. *)
Theorem executors_equivalent fuel ts s se s' :
  quiet s → NoDup (id <$> ts) → (length ts ≤ QUEUE_CAPACITY)%nat →
  simple_run fuel (foldl simple_spawn SimpleExecutor_new ts) s = Done (se, s') →
  ∃ ex' q' c, (ex ← Executor_new; ex ← spawn_all ex ts; run_ready_tasks fuel ex) s =
                Done (ex', with_executor q' c s') ∧
    tasks ex' = ∅ ∧ waker_cache ex' = ∅ ∧ elems q' = [] ∧ simple_queue se = [].
Proof.
  intros Hq Hnd Hl Hs. unfold SimpleExecutor_new in Hs. rewrite foldl_simple_spawn in Hs.
  destruct (queue_new_spec (A := TaskId) 100) as [He Hc].
  destruct (spawn_all_matches ts (mkExecutor ∅ ∅) (queue_new 100) (cached_wakers s) [] s) as (ex & q & E & Hm);
    [done|by apply new_matches|done..|].
  destruct (executors_agree fuel ts ex q (cached_wakers s) s se s' Hq Hm Hs) as (ex' & q' & c & E' & Hr).
  exists ex', q', c. split; [|done].
  rewrite (bind_K_Done Executor_new _ s (mkExecutor ∅ ∅)
    (with_executor (queue_new 100) (cached_wakers s) s)) by (by destruct s).
  erewrite bind_K_Done by exact E. exact E'.
Qed.

End cooperative.

(** ** Witnesses: tasks that yield a number of times *)

#[local] Existing Instances dev_profile list_lib list_laws.

Definition countdown_body (n : nat) : K (bool * nat) :=
  match n with O => mret (true, O) | S n' => mret (false, n') end.

#[local] Instance countdown_future : Future nat := {|
  poll_future n w :=
    '(b, n') ← countdown_body n;
    if b : bool then mret (Ready (), n') else _ ← wake w; mret (Pending, n');
|}.

#[local] Program Instance countdown_cooperative : Cooperative nat := {|
  body := countdown_body;
|}.
Next Obligation. done. Qed.
Next Obligation. by intros [|n] q c s. Qed.
Next Obligation. by intros [|n] s r s' ? [= <- <-]. Qed.

Definition countdown_tasks : list (Task nat) :=
  [mkTask (mkTaskId 0) 2%nat; mkTask (mkTaskId 1) 0%nat; mkTask (mkTaskId 2) 1%nat].

Lemma countdown_steps (f : nat) (s : kstate) :
  quiet s → ∃ b f' s', body f s = Done ((b, f'), s') ∧ (b = false → (f' < f)%nat).
Proof. intros _. destruct f as [|n]; eexists _, _, _; split; try done. intros _. lia. Qed.

Lemma simple_executor_terminates_witness :
  ∃ s', simple_run 7 (foldl simple_spawn SimpleExecutor_new countdown_tasks) idle_machine =
        Done (mkSimple [], s').
Proof.
  exact (simple_executor_terminates (λ n, n) countdown_tasks idle_machine countdown_steps
           (conj eq_refl eq_refl)).
Defined.

Lemma executors_equivalent_witness :
  ∃ ex' q' c, (ex ← Executor_new; ex ← spawn_all ex countdown_tasks; run_ready_tasks 7 ex)
                idle_machine = Done (ex', with_executor q' c idle_machine) ∧
    tasks ex' = ∅ ∧ waker_cache ex' = ∅ ∧ elems q' = [] ∧
    simple_queue (F := nat) (mkSimple []) = [].
Proof.
  apply (executors_equivalent 7 countdown_tasks idle_machine (mkSimple []) idle_machine).
  - by split.
  - by apply (bool_decide_unpack _); vm_compute.
  - simpl. unfold QUEUE_CAPACITY. lia.
  - reflexivity.
Defined.
