(* ===== verification/Scheduler.v ===== *)
(** * The kernel's tasks under the executor

    The futures that src/src/main.rs spawns, [example_task] and the keyboard task, and
    the executor's main loop running them while interrupts arrive at any point.  The
    theorems hold for every schedule of interrupts: no wake-up is lost, the CPU is put
    to sleep only when there is nothing to do, every key press that was queued is
    handled, and the loop ends only in that sleep. *)

From stdpp Require Import prelude gmap strings pretty.
From S2P Require Import Prelude Vga AsyncLib Machine Interrupts Hoare Keyboard Task Executor.

Section futures.
Context `{BuildProfile, AsyncLib, PcKeyboard}.

(** [async_number().await] is ready at once. *)
Definition async_number : Z := 89.

Inductive example_future := ExStart | ExDone.

Definition poll_example (f : example_future) : K (Poll unit * example_future) :=
  match f with
  | ExStart =>
      let number := async_number in
      _ ← preempt;
      _ ← vga_print [bytes "async number: "; bytes (pretty number); [newline]];
      mret (Ready (), ExDone)
  | ExDone => kpanic "`async fn` resumed after completion"
  end.

Inductive kernel_future :=
| ExampleTask (f : example_future)
| KeyTask (f : keypress_future).

(** [fuel] bounds the loop of the keyboard task. *)
Definition poll_kernel (fuel : nat) (f : kernel_future) (w : Waker)
    : K (Poll unit * kernel_future) :=
  match f with
  | ExampleTask f => '(p, f') ← poll_example f; mret (p, ExampleTask f')
  | KeyTask f => '(p, f') ← poll_keypresses fuel f w; mret (p, KeyTask f')
  end.

Definition kernel_futures (fuel : nat) : Future kernel_future :=
  {| poll_future := poll_kernel fuel |}.

(** The end of [kernel_main]: create the executor, spawn both tasks, run.  [NEXT_ID]
    starts at 0; the fuels bound the loops of the keyboard task and the executor. *)
Definition kernel_tasks (kfuel fuel : nat) : K (Executor kernel_future) :=
  executor ← Executor_new;
  let '(example, NEXT_ID) := Task_new 0 (ExampleTask ExStart) in
  executor ← spawn executor example;
  let '(keypresses, NEXT_ID) := Task_new NEXT_ID (KeyTask KpStart) in
  executor ← spawn executor keypresses;
  run (Future0 := kernel_futures kfuel) fuel executor.

End futures.

(** The keyboard task, suspended or not started, will be polled when it has work. *)
Definition pending_ok `{PcKeyboard} (k : TaskId) (f : keypress_future) (v : view) : Prop :=
  match f with
  | KpStart => unstarted v ∧ k ∈ v_tasks v
  | KpAwait _ => waiting k v
  | KpDone => False
  end.

Section proofs.
Context `{BuildProfile, AsyncLaws, PcKeyboard}.
Variables (safe : Prop) (k : TaskId).
Abbreviation triple := (triple safe).
Abbreviation inv := (inv safe).
Implicit Types (ex : Executor kernel_future).

Lemma pending_ok_stable f : stable (pending_ok k f).
Proof.
  destruct f as [|kb|]; simpl; [|apply waiting_stable|by intros ???].
  intros i v v' [Hu Hk] Hv. split; [by eapply unstarted_stable|].
  pose proof (view_irqs_tasks [i] v v') as Ht. simpl in Ht. rewrite Hv in Ht. by apply Ht.
Qed.

Lemma pending_ok_ready f v : pending_ok k f v → keypress_ready k f v.
Proof. destruct f as [|kb|]; simpl; [by intros [? _]|by intros [? _]|done]. Qed.

(** Removing another task's id from the queue. *)
Lemma pending_ok_pop f v i :
  i ≠ k → pending_ok k f (mkView (v_scancodes v) (v_waker v) (i :: v_tasks v)) →
  pending_ok k f v.
Proof.
  intros Hne. assert (k ∈ i :: v_tasks v → k ∈ v_tasks v) as Hk.
  { rewrite elem_of_cons. naive_solver. }
  destruct f as [|kb|]; simpl; [| |done].
  - intros [? ?]. split; [done|auto].
  - intros (Hr & Hw & Hs). split; [exact Hr|]. split; auto.
Qed.

(** The ids of the other tasks. *)
Definition others ex : list TaskId := (map_to_list (delete k (tasks ex))).*1.

Lemma elem_of_others ex i : i ∈ others ex ↔ i ≠ k ∧ is_Some (tasks ex !! i).
Proof.
  unfold others. rewrite list_elem_of_fmap. split.
  - intros ([j t] & -> & Hj). apply elem_of_map_to_list, lookup_delete_Some in Hj as [? ?].
    simpl. eauto.
  - intros (Hne & t & Ht). exists (i, t). split; [done|].
    apply elem_of_map_to_list, lookup_delete_Some. eauto.
Qed.

(** The keyboard task is in state [f]; the others have not run yet. *)
Definition exec_ok ex (f : keypress_future) : Prop :=
  exec_inv ex ∧ tasks ex !! k = Some (mkTask k (KeyTask f)) ∧
  ∀ i t, tasks ex !! i = Some t → i ≠ k → future t = ExampleTask ExStart.

Lemma inv_sub L L' R t P s : L' ⊆ L → inv L R t P s → inv L' R t P s.
Proof. intros HL (? & ? & ? & ? & HL' & ?). do 4 (split; [done|]). split; [by etrans|done]. Qed.

Lemma triple_pop_task L R t P :
  triple (inv L R t P) pop_task (λ o s,
    match o with
    | None => inv L R t (λ v, P v ∧ v_tasks v = []) s
    | Some i => (1 ≤ t)%nat ∧ inv (filter (λ j, j ≠ i) L) R (t - 1)
        (λ v, P (mkView (v_scancodes v) (v_waker v) (i :: v_tasks v))) s
    end).
Proof.
  intros s ((Hu & Ht & Hc) & Hb & Hl & Hw & HL & HP). unfold pop_task.
  pose proof (queue_pop_spec (task_queue s)) as Hp.
  destruct (elems (task_queue s)) as [|i l] eqn:He.
  - rewrite Hp. replace (set_task_queue (task_queue s) s) with s by (by destruct s).
    do 5 (split; [done|]). split; [done|exact He].
  - destruct Hp as (q & -> & Hq & Hcap). set (s' := set_task_queue q s).
    assert (get_view s = mkView (v_scancodes (get_view s')) (v_waker (get_view s'))
      (i :: v_tasks (get_view s'))) as Hv.
    { unfold get_view. cbn. by rewrite He, Hq. }
    assert (length (v_tasks (get_view s)) = S (length (v_tasks (get_view s')))) as Hlen
      by (by rewrite Hv).
    unfold work, budget in *. split; [lia|].
    split; [|split; [|split; [|split; [|split]]]].
    + split; [exact Hu|]. split; [cbn; congruence|exact Hc].
    + intros Hs. specialize (Hb Hs). change (future_irqs s') with (future_irqs s).
      unfold budget. change (future_irqs s') with (future_irqs s). lia.
    + exact Hl.
    + unfold work. change (future_irqs s') with (future_irqs s). lia.
    + intros j [Hj HjL]%list_elem_of_filter. apply HL in HjL. rewrite Hv in HjL. cbn in HjL.
      apply elem_of_cons in HjL as [->|?]; done.
    + by rewrite <-Hv.
Qed.

Lemma triple_poll_example L R t P :
  stable P →
  triple (inv L R t P) (poll_example ExStart) (λ r s, r = (Ready (), ExDone) ∧ inv L R t P s).
Proof.
  intros HP. unfold poll_example.
  eapply triple_bind; [by apply triple_preempt|intros []].
  eapply triple_bind; [apply triple_print|intros []]. by apply triple_ret.
Qed.

(** Polling the keyboard task: it handled [h] of the input [R], and [R'] is left. *)
Definition polled (f f' : keypress_future) (R h R' : list Z) : Prop :=
  (∃ kb, f' = KpAwait kb) ∧ kp_decoder f' = (decode_all (kp_decoder f) h).1 ∧
  kp_consumed safe f R h R'.

(** The same over any number of polls, maybe none. *)
Definition progress (f f' : keypress_future) (R h R' : list Z) : Prop :=
  (f' = f ∧ h = [] ∧ R' = R) ∨ polled f f' R h R'.

Lemma progress_refl f R : progress f f R [] R.
Proof. by left. Qed.

Lemma polled_length f f' R h R' : polled f f' R h R' → (length R' ≤ length R)%nat.
Proof.
  intros (_ & _ & lost & R0 & -> & Hc%consumed_length & _). rewrite length_app. lia.
Qed.

Lemma progress_length f f' R h R' : progress f f' R h R' → (length R' ≤ length R)%nat.
Proof. intros [(_ & _ & ->)|?]; [done|by eapply polled_length]. Qed.

Lemma progress_trans f f1 f2 R h1 R1 h2 R2 :
  progress f f1 R h1 R1 → progress f1 f2 R1 h2 R2 → progress f f2 R (h1 ++ h2) R2.
Proof.
  intros [(-> & -> & ->)|Hp]; [done|].
  intros [(-> & -> & ->)|((kb & ->) & Hd2 & lost2 & R0' & -> & Hc2 & Hl2)].
  { rewrite app_nil_r. by right. }
  destruct Hp as ((kb1 & ->) & Hd1 & lost1 & R0 & -> & Hc1 & Hl1).
  rewrite (Hl2 ltac:(done)) in *. right. split_and!; [by eexists| |].
  - rewrite Hd2, decode_all_app, <-Hd1. done.
  - exists lost1, R0. split_and!; [done|by eapply consumed_trans|done].
Qed.

Variable kfuel : nat.
#[local] Instance kernel_future_inst : Future kernel_future := kernel_futures kfuel.

Lemma triple_poll_key L R t f :
  (length R < kfuel)%nat →
  triple (inv L R t (keypress_ready k f)) (poll (mkTask k (KeyTask f)) (TaskWaker k)) (λ r s,
    ∃ f' h R', r = (Pending, mkTask k (KeyTask f')) ∧ polled f f' R h R' ∧
      inv L R' t (registered_idle k) s).
Proof.
  intros Hn. unfold poll. cbn [poll_future kernel_future_inst kernel_futures future poll_kernel].
  eapply triple_bind.
  { eapply triple_bind; [by apply (triple_poll_keypresses safe L kfuel R t k f)|].
    intros [p f']. apply (triple_ret safe _ (p, KeyTask f') (λ r s, ∃ f' h R',
      r = (Pending, KeyTask f') ∧ polled f f' R h R' ∧ inv L R' t (registered_idle k) s)).
    intros s (h & R' & [= -> ->] & Hc & Hi). eexists _, h, R'. split_and!; [done| |done].
    split; [by eexists|]. by split. }
  intros [p f']. apply triple_ret. intros s (f1 & h & R' & [= -> ->] & Hc & Hi). eauto 10.
Qed.

Lemma triple_poll_ex L R t P i w :
  stable P →
  triple (inv L R t P) (poll (mkTask i (ExampleTask ExStart)) w) (λ r s,
    r.1 = Ready () ∧ inv L R t P s).
Proof.
  intros HP. unfold poll. cbn [poll_future kernel_future_inst kernel_futures future poll_kernel].
  eapply triple_bind.
  { eapply triple_bind; [by apply (triple_poll_example L R t P)|].
    intros [p f']. apply (triple_ret safe _ (p, ExampleTask f')
      (λ r s, r.1 = Ready () ∧ inv L R t P s)). by intros s [[= -> _] ?]. }
  intros [p f']. apply triple_ret. by intros s [? ?].
Qed.

(** The references to wakers are not part of the view. *)
Lemma triple_set_cached L R t P (f : kstate → gset TaskId) :
  triple (inv L R t P) (modify (λ s, set_cached (f s) s)) (λ _, inv L R t P).
Proof. intros s Hs. eapply inv_same; [apply Hs|done|done|exact Hs]. Qed.

(** The executor after a round of the loop, and the other tasks that are left in it. *)
Lemma exec_ok_keep ex f kb :
  exec_ok ex f →
  let ex1 := mkExecutor (<[k := mkTask k (KeyTask (KpAwait kb))]> (tasks ex))
               (<[k := TaskWaker k]> (waker_cache ex)) in
  exec_ok ex1 (KpAwait kb) ∧ others ex1 ⊆ filter (λ j, j ≠ k) (others ex).
Proof.
  intros (Hinv & Hk & Ho). cbv zeta. split; [split_and!|].
  - pose proof (exec_inv_keep ex k (mkTask k (KeyTask (KpAwait kb))) Hinv eq_refl) as Hkeep.
    rewrite cached_waker in Hkeep by done. apply Hkeep. by eexists.
  - apply lookup_insert_eq.
  - intros j u Hj Hjk. cbn in Hj. rewrite lookup_insert_ne in Hj by done. by eapply Ho.
  - intros j Hj. apply elem_of_others in Hj as [Hjk [u Hu]]. apply list_elem_of_filter.
    split; [done|]. apply elem_of_others. split; [done|]. cbn in Hu.
    rewrite lookup_insert_ne in Hu by done. eauto.
Qed.

Lemma exec_ok_finish ex f i w :
  i ≠ k → exec_ok ex f →
  let ex1 := mkExecutor (delete i (tasks ex)) (delete i (<[i := w]> (waker_cache ex))) in
  exec_ok ex1 f ∧ others ex1 ⊆ filter (λ j, j ≠ i) (others ex).
Proof.
  intros Hne (Hinv & Hk & Ho). cbv zeta. split; [split_and!|].
  - by apply exec_inv_finish.
  - cbn. by rewrite lookup_delete_ne.
  - intros j u Hj Hjk. cbn in Hj. apply lookup_delete_Some in Hj as [_ Hj]. by eapply Ho.
  - intros j Hj. apply elem_of_others in Hj as [Hjk [u Hu]].
    cbn in Hu. apply lookup_delete_Some in Hu as [? Hu].
    apply list_elem_of_filter. split; [done|]. apply elem_of_others. eauto.
Qed.

Lemma others_missing ex i : tasks ex !! i = None → others ex ⊆ filter (λ j, j ≠ i) (others ex).
Proof.
  intros Hi j Hj. apply list_elem_of_filter. split; [|done]. intros ->.
  apply elem_of_others in Hj as [_ [u Hu]]. congruence.
Qed.

(** What [run_ready_tasks] establishes from a state of the keyboard task on. *)
Definition ran_ready (f : keypress_future) (R : list Z) (t : nat) ex' s : Prop :=
  ∃ f' h R', exec_ok ex' f' ∧ progress f f' R h R' ∧
    inv (others ex') R' t (λ v, pending_ok k f' v ∧ v_tasks v = []) s.

(** What an iteration of [run_ready_tasks] establishes: it goes on with less work left, or
    ends with an empty task queue. *)
Definition iterated ex (f : keypress_future) (R : list Z) (t : nat)
    (r : Executor kernel_future + Executor kernel_future) s : Prop :=
  match r with
  | inl ex' => ∃ f' h R', exec_ok ex' f' ∧ progress f f' R h R' ∧ (1 ≤ t)%nat ∧
      inv (others ex') R' (t - 1) (pending_ok k f') s
  | inr ex' => ex' = ex ∧ inv (others ex) R t (λ v, pending_ok k f v ∧ v_tasks v = []) s
  end.

Lemma triple_iteration ex f R t :
  (length R < kfuel)%nat → exec_ok ex f →
  triple (inv (others ex) R t (pending_ok k f)) (ready_iteration ex) (iterated ex f R t).
Proof.
  intros Hn Hex. unfold ready_iteration.
  eapply triple_bind; [apply triple_preempt, pending_ok_stable|intros []].
  eapply triple_bind; [apply triple_pop_task|]. intros [i|]; [|by apply triple_ret].
  apply triple_pure. intros Ht1. pose proof Hex as (Hinv & Hk & Ho).
  destruct (decide (i = k)) as [->|Hne]; [|destruct (tasks ex !! i) as [[ti tf]|] eqn:Hi].
  - rewrite Hk, cached_waker by done.
    eapply triple_bind; [apply triple_set_cached|intros []]. eapply triple_bind.
    { eapply triple_pre; [|by apply (triple_poll_key (filter (λ j, j ≠ k) (others ex)) R (t - 1) f)].
      intros s. apply inv_weaken; [done|]. intros v Hv%pending_ok_ready.
      by destruct f as [|kb|]. }
    intros r. apply triple_exists. intros f1. apply triple_exists. intros h1.
    apply triple_exists. intros R1. apply triple_pure. intros ->. apply triple_pure. intros Hp.
    pose proof Hp as ((kb & ->) & _ & _). destruct (exec_ok_keep ex f kb Hex) as [Hex1 Hsub].
    apply triple_ret. intros s Hs. exists (KpAwait kb), h1, R1.
    split_and!; [done|by right|done|]. eapply inv_sub; [exact Hsub|].
    eapply inv_weaken; [done| |exact Hs]. intros v Hv. by apply registered_idle_waiting.
  - pose proof (Ho _ _ Hi Hne) as Etf. simpl in Etf. subst tf.
    eapply triple_bind; [apply triple_set_cached|intros []]. eapply triple_bind.
    { eapply triple_pre; [|apply (triple_poll_ex (filter (λ j, j ≠ i) (others ex)) R (t - 1)
         (pending_ok k f)); apply pending_ok_stable].
      intros s. apply inv_weaken; [done|]. intros v. by apply pending_ok_pop. }
    intros [p t']. apply triple_pure. intros Ep. simpl in Ep. subst p.
    eapply triple_bind; [apply triple_set_cached|intros []].
    destruct (exec_ok_finish ex f i (default (TaskWaker i) (waker_cache ex !! i)) Hne Hex)
      as [Hex1 Hsub].
    apply triple_ret. intros s Hs. exists f, [], R.
    split_and!; [done|apply progress_refl|done|by eapply inv_sub].
  - apply triple_ret. intros s Hs. exists f, [], R. split_and!; [done|apply progress_refl|done|].
    eapply inv_sub; [by apply (others_missing ex i)|].
    eapply inv_weaken; [done| |exact Hs]. intros v. by apply pending_ok_pop.
Qed.

(** [run_ready_tasks] returns with an empty task queue; the keyboard task then waits
    with its waker registered and no input left. *)
Lemma triple_run_ready fuel ex f R t :
  (t < fuel)%nat → (length R < kfuel)%nat → exec_ok ex f →
  triple (inv (others ex) R t (pending_ok k f)) (run_ready_tasks fuel ex) (ran_ready f R t).
Proof.
  revert ex f R t. induction fuel as [|fuel IH]; intros ex f R t Hf Hn Hex s Hs; [lia|].
  rewrite run_ready_unfold. revert s Hs.
  eapply triple_bind; [by apply triple_iteration|]. intros [ex1|ex1]; unfold iterated.
  - apply triple_exists. intros f1. apply triple_exists. intros h1. apply triple_exists.
    intros R1. apply triple_pure. intros Hex1. apply triple_pure. intros Hp1.
    apply triple_pure. intros Ht. pose proof (progress_length _ _ _ _ _ Hp1).
    eapply triple_conseq; [done| |apply (IH ex1 f1 R1 (t - 1)%nat); [lia|lia|done]].
    intros ex' s (f' & h & R' & ? & Hp2 & Hi). exists f', (h1 ++ h), R'.
    split_and!; [done|by eapply progress_trans|]. eapply inv_weaken; [..|exact Hi]; [lia|done].
  - apply triple_pure. intros ->. apply triple_ret. intros s Hs. exists f, [], R.
    by split_and!; [|apply progress_refl|].
Qed.

(** ** Going to sleep *)

Lemma idle_view f v : pending_ok k f v → v_tasks v = [] → registered_idle k v.
Proof.
  intros Hp Ht. destruct f as [|kb|]; simpl in Hp; [|destruct Hp as ((_ & Hw) & Hn & Hs)|done].
  - destruct Hp as [_ Hk]. rewrite Ht in Hk. by apply elem_of_nil in Hk.
  - rewrite Ht in Hn, Hs. split.
    + destruct (decide (v_scancodes v = Some [])) as [|Hne]; [done|].
      by apply Hs, elem_of_nil in Hne.
    + destruct Hw as [Hw|Hw]; [|done]. by apply Hn, elem_of_nil in Hw.
Qed.

(** The test of [sleep_if_idle]; a non-empty queue means that an interrupt came. *)
Lemma triple_sleep_check L R t P :
  stable P →
  triple (inv L R t (λ v, P v ∧ v_tasks v = [])) sleep_check (λ b s,
    if b : bool then inv L R t (λ v, P v ∧ v_tasks v = []) s
    else (1 ≤ t)%nat ∧ inv L R (t - 1) P s).
Proof.
  intros HP s (Hok & Hsafe & Hl & Ht & HL & HPv & Hnil). unfold sleep_check.
  pose proof (preempt_step safe s Hok Hsafe) as H3. unfold mbind at 1, K_bind at 1.
  destruct (preempt s) as [[[] s1]| | |]; [|done..]. cbn [mbind outcome_bind].
  destruct H3 as (Hok1 & Hv1 & _ & Hb1 & Hl1 & Hw1).
  set (s1' := set_flag false s1).
  assert (safe → (budget s1' ≤ QUEUE_CAPACITY)%nat) as Hsafe1.
  { intros Hs. specialize (Hsafe Hs). change (budget s1') with (budget s1). lia. }
  pose proof (preempt_step safe s1' Hok1 Hsafe1) as H4.
  rewrite (bind_K_Done (modify _) _ s1 () s1') by done.
  unfold mbind at 1, K_bind at 1.
  destruct (preempt s1') as [[[] s2]| | |]; [|done..]. cbn.
  destruct H4 as (Hok2 & Hv2 & _ & Hb2 & Hl2 & Hw2).
  change (view_irqs (arrivals s1') (get_view s1')) with (Some (get_view s1)) in Hv2.
  apply (inj Some) in Hv2.
  change (budget s1') with (budget s1) in Hb2.
  change (work s1') with (work s1) in Hw2.
  assert (P (get_view s2)) as HP2 by (rewrite <-Hv2; by eapply view_irqs_stable).
  assert (L ⊆ v_tasks (get_view s2)) as HL2.
  { rewrite <-Hv2. etrans; [exact HL|]. by eapply view_irqs_tasks. }
  assert (safe → (budget s2 ≤ QUEUE_CAPACITY)%nat) as Hsafe2.
  { intros Hs. specialize (Hsafe1 Hs). change (budget s1') with (budget s1) in Hsafe1. lia. }
  rewrite queue_is_empty_spec. case_bool_decide as He.
  - do 2 (split; [done|]). split; [by apply Hl2, Hl1|]. split; [lia|]. split; [done|].
    split; [done|]. by apply nil_length_inv in He.
  - assert (arrivals s ≠ []) as Ha.
    { intros Ha. rewrite Ha in Hv1. cbn [view_irqs] in Hv1. apply (inj Some) in Hv1. apply He.
      change (elems (task_queue s2)) with (v_tasks (get_view s2)).
      by rewrite <-Hv2, <-Hv1, Hnil. }
    destruct (arrivals s); [done|]. simpl in Hw1.
    split; [lia|]. do 2 (split; [done|]). split; [by apply Hl2, Hl1|]. by split; [lia|].
Qed.

Lemma concat_skip_idle l : concat (skip_idle l) = concat l.
Proof. induction l as [|[|i b] l IH]; simpl; [done|exact IH|done]. Qed.

Lemma skip_idle_head l b l' : skip_idle l = b :: l' → b ≠ [].
Proof. induction l as [|[|i c] l IH]; simpl; [done|exact IH|]. by intros [= <- _]. Qed.

(** [enable_and_hlt] sleeps for good only when no interrupt will arrive. *)
Lemma triple_enable_and_hlt L R t (P0 P : view → Prop) :
  stable P → (∀ v, P0 v → P v) →
  triple (inv L R t P0) enable_and_hlt (λ b s,
    if b : bool then (1 ≤ t)%nat ∧ inv L R (t - 1) P s
    else inv L R t P0 s ∧ future_irqs s = []).
Proof.
  intros HP HP0 s (Hok & Hsafe & Hl & Ht & HL & HPv). unfold enable_and_hlt.
  rewrite (bind_K_Done (modify _) _ s () (set_flag true s)) by done.
  unfold hlt. cbn [pending schedule set_flag].
  set (l := if bool_decide (pending s = []) then skip_idle (schedule s) else schedule s).
  assert (concat l = concat (schedule s)) as Hcl.
  { unfold l. case_bool_decide; [apply concat_skip_idle|done]. }
  set (s1 := set_irqs (pending s) l (set_flag true s)).
  assert (future_irqs s1 = future_irqs s) as Hfi by (unfold future_irqs; cbn; by rewrite Hcl).
  case_bool_decide as Hn.
  - destruct Hn as [Hp Hnil].
    assert (future_irqs s = []) as Hf0.
    { unfold future_irqs. by rewrite Hp, <-Hcl, Hnil. }
    split; [|done]. unfold inv, Hoare.inv, budget, input_ok, input_left, work in *.
    rewrite Hf0 in *. exact (conj Hok (conj Hsafe (conj Hl (conj Ht (conj HL HPv))))).
  - assert (arrivals s1 ≠ []) as Ha.
    { unfold arrivals. cbn. intros [Hp Hh]%app_nil. apply Hn. split; [done|].
      unfold l in *. rewrite bool_decide_eq_true_2 in * by done.
      destruct (skip_idle (schedule s)) as [|b l'] eqn:El; [done|].
      apply skip_idle_head in El. simpl in Hh. congruence. }
    assert (safe → (budget s1 ≤ QUEUE_CAPACITY)%nat) as Hsafe1.
    { unfold budget in *. by rewrite Hfi. }
    pose proof (preempt_step safe s1 Hok Hsafe1) as H3. unfold mbind at 1, K_bind at 1.
    destruct (preempt s1) as [[[] s2]| | |]; [|done..]. cbn.
    destruct H3 as (Hok2 & Hv2 & _ & Hb2 & Hl2 & Hw2).
    assert (work s1 = work s) as Ew by (unfold work; by rewrite Hfi).
    assert (input_ok safe R s1) as Hl1.
    { unfold input_ok, input_left in *. rewrite Hfi. exact Hl. }
    destruct (arrivals s1); [done|]. simpl in Hw2.
    split; [lia|]. split; [done|]. split; [|split; [by apply Hl2|split; [lia|split]]].
    + intros Hs. specialize (Hsafe1 Hs). lia.
    + etrans; [exact HL|]. exact (view_irqs_tasks _ _ _ Hv2).
    + eapply view_irqs_stable; [exact HP|exact (HP0 _ HPv)|exact Hv2].
Qed.

Lemma triple_sleep_if_idle L R t f :
  triple (inv L R t (λ v, pending_ok k f v ∧ v_tasks v = [])) sleep_if_idle (λ b s,
    if b : bool then (1 ≤ t)%nat ∧ inv L R (t - 1) (pending_ok k f) s
    else inv L R t (λ v, pending_ok k f v ∧ v_tasks v = []) s ∧ future_irqs s = []).
Proof.
  unfold sleep_if_idle. eapply triple_bind; [apply triple_sleep_check, pending_ok_stable|].
  intros [].
  - apply triple_enable_and_hlt; [apply pending_ok_stable|]. by intros v [? _].
  - by intros s Hs.
Qed.

(** ** The main loop *)

Lemma triple_run fuel ex f R t :
  (t < fuel)%nat → (length R < kfuel)%nat → exec_ok ex f →
  triple (inv (others ex) R t (pending_ok k f)) (run fuel ex) (λ ex' s,
    ∃ f' h R', exec_ok ex' f' ∧ progress f f' R h R' ∧ future_irqs s = [] ∧
      inv (others ex') R' t (λ v, pending_ok k f' v ∧ v_tasks v = []) s).
Proof.
  revert ex f R t. induction fuel as [|fuel IH]; intros ex f R t Hf Hn Hex; [lia|].
  cbn [run]. eapply triple_bind; [by apply triple_run_ready|]. intros ex1.
  apply triple_exists. intros f1. apply triple_exists. intros h1. apply triple_exists. intros R1.
  apply triple_pure. intros Hex1. apply triple_pure. intros Hp1.
  pose proof (progress_length _ _ _ _ _ Hp1).
  eapply triple_bind; [apply triple_sleep_if_idle|]. intros [].
  - apply triple_pure. intros Ht.
    eapply triple_conseq; [done| |apply (IH ex1 f1 R1 (t - 1)%nat); [lia|lia|done]].
    intros ex2 s (f2 & h2 & R2 & ? & Hp2 & ? & ?). exists f2, (h1 ++ h2), R2.
    split_and!; [done|by eapply progress_trans|done|].
    eapply inv_weaken; [..|done]; [lia|done].
  - apply triple_ret. intros s [? ?]. eauto 10.
Qed.

End proofs.

(** ** Properties *)

Section properties.
Context `{BuildProfile, AsyncLaws, PcKeyboard}.

Lemma boot_state_ok vga irqs : rows_wf (chars vga) → machine_ok (boot_state vga irqs).
Proof.
  intros Hv. split; [split_and!|split].
  - apply mutex_new_spec.
  - apply mutex_new_spec.
  - split; [exact Hv|]. unfold WRITER, BUFFER_WIDTH. simpl. lia.
  - apply queue_new_spec.
  - cbn. by rewrite cell_uninit_spec.
Qed.

Lemma boot_state_unstarted vga irqs : unstarted (get_view (boot_state vga irqs)).
Proof.
  split; unfold get_view; cbn; [by rewrite cell_uninit_spec|apply waker_new_spec].
Qed.

(** Nothing but the screen and the interrupts to come changed, while the keyboard task
    has not started; the scancodes that came are lost. *)
Definition idled s s' : Prop :=
  machine_ok s' ∧ get_view s' = get_view s ∧
  (length (future_irqs s') ≤ length (future_irqs s))%nat ∧
  scancodes (future_irqs s') `suffix_of` scancodes (future_irqs s).

Lemma idled_keys s s' :
  idled s s' → (keys (future_irqs s') ≤ keys (future_irqs s))%nat.
Proof. intros (_ & _ & _ & Hs). rewrite <-!length_scancodes. by apply suffix_length. Qed.

Lemma preempt_unstarted s :
  machine_ok s → unstarted (get_view s) → ∃ s', preempt s = Done ((), s') ∧ idled s s'.
Proof.
  intros Hok Hu. pose proof (preempt_step False s Hok ltac:(done)) as Hp.
  pose proof (preempt_spec s Hok) as Hs.
  assert (∀ l, view_irqs l (get_view s) = Some (get_view s)) as Hv.
  { intros l. induction l as [|i l IH]; [done|]. cbn [view_irqs].
    assert (view_irq i (get_view s) = Some (get_view s)) as ->; [|exact IH].
    unfold view_irq. destruct Hu as [-> _]. by destruct i. }
  rewrite Hv in Hs. destruct Hs as (s' & E & Hok' & Hv' & _). rewrite E in Hp.
  destruct Hp as (_ & _ & _ & _ & Hin & Hw). exists s'. split; [done|].
  specialize (Hin (input_left s) (input_ok_self False s ltac:(done))).
  destruct Hin as [_ Hin]. unfold work, input_left in *. rewrite Hv' in *.
  destruct Hu as [Hu _]. rewrite Hu in Hin. split_and!; [done|done|lia|exact Hin].
Qed.

(** Spawning before the keyboard task has started. *)
Lemma spawn_unstarted (ex : Executor kernel_future) t s :
  machine_ok s → unstarted (get_view s) → tasks ex !! id t = None →
  (length (v_tasks (get_view s)) < QUEUE_CAPACITY)%nat →
  ∃ s', spawn ex t s = Done (mkExecutor (<[id t := t]> (tasks ex)) (waker_cache ex), s') ∧
    machine_ok s' ∧
    get_view s' = mkView None None (v_tasks (get_view s) ++ [id t]) ∧
    (length (future_irqs s') ≤ length (future_irqs s))%nat ∧
    scancodes (future_irqs s') `suffix_of` scancodes (future_irqs s).
Proof.
  intros Hok Hu Hn Hlt. unfold spawn. rewrite Hn.
  destruct (preempt_unstarted s Hok Hu) as (s1 & E1 & Hok1 & Hv1 & ? & ?).
  erewrite bind_K_Done by exact E1. destruct Hok1 as (Hu1 & Ht1 & Hc1).
  pose proof (queue_push_spec (task_queue s1) (id t)) as Hp. rewrite Ht1 in Hp.
  change (elems (task_queue s1)) with (v_tasks (get_view s1)) in Hp.
  rewrite Hv1, bool_decide_eq_true_2 in Hp by done. destruct Hp as (q & Ep & He & Hc).
  exists (set_task_queue q s1). split_and!; [|split; [exact Hu1|by split]| |done|done].
  - rewrite (bind_K_Done _ _ s1 () (set_task_queue q s1)); [done|].
    unfold push_task. by rewrite Ep.
  - destruct Hu as [Hs Hw]. unfold get_view in *. cbn in *. rewrite He.
    injection Hv1 as Hv1s Hv1w Hv1t. by rewrite Hv1s, Hv1w, Hs, Hw.
Qed.

(** With an empty task queue only the keyboard task is left. *)
Lemma only_keyboard_left k (ex : Executor kernel_future) f v :
  exec_ok k ex f → others k ex ⊆ v_tasks v → pending_ok k f v → v_tasks v = [] →
  ∃ kb, tasks ex = {[ k := mkTask k (KeyTask (KpAwait kb)) ]}.
Proof.
  intros (_ & Hk & _) Hoth Hpo Hnil. pose proof (idle_view k f _ Hpo Hnil) as [Hs' _].
  assert (∃ kb, f = KpAwait kb) as [kb ->].
  { destruct f as [|kb|]; [|by eexists|done]. destruct Hpo as [[Hs _] _]. congruence. }
  exists kb. apply map_eq. intros i. destruct (decide (i = k)) as [->|Hne].
  - by rewrite lookup_singleton_eq.
  - rewrite lookup_singleton_ne by done. apply eq_None_not_Some. intros Hi'.
    assert (i ∈ others k ex) as Hio by (by apply elem_of_others).
    apply Hoth in Hio. rewrite Hnil in Hio. by apply elem_of_nil in Hio.
Qed.

(** How a run of the main loop ends, when the scancodes [input] were to come: asleep
    with nothing left to do, or by a panic for which the key presses must outnumber the
    free places of the task queue.  The decoder has seen the scancodes in the order in
    which they came, all of them from some point on if the queue has room for them. *)
Definition quiesced (input : list Z) (r : outcome (Executor kernel_future * kstate)) : Prop :=
  match r with
  | Done (ex, s') =>
      (∃ handled, tasks ex = {[ mkTaskId 1 := mkTask (mkTaskId 1)
                                  (KeyTask (KpAwait (decode_all kbd_new handled).1)) ]} ∧
         handled `sublist_of` input ∧
         ((2 + length input ≤ QUEUE_CAPACITY)%nat → handled `suffix_of` input)) ∧
      registered_idle (mkTaskId 1) (get_view s') ∧ v_tasks (get_view s') = [] ∧
      future_irqs s' = []
  | Panicked msg => msg = "task queue full" ∧ (QUEUE_CAPACITY < 2 + length input)%nat
  | _ => False
  end.

Definition spawned_executor : Executor kernel_future :=
  mkExecutor (<[mkTaskId 1 := mkTask (mkTaskId 1) (KeyTask KpStart)]>
               (<[mkTaskId 0 := mkTask (mkTaskId 0) (ExampleTask ExStart)]> ∅)) ∅.

Lemma spawned_ok : exec_ok (mkTaskId 1) spawned_executor KpStart.
Proof.
  split_and!; [split| |]; unfold spawned_executor; cbn [tasks waker_cache].
  - intros i t. rewrite !lookup_insert_Some, lookup_empty. naive_solver.
  - intros i w. by rewrite lookup_empty.
  - done.
  - intros i t. rewrite !lookup_insert_Some, lookup_empty. naive_solver.
Qed.

(** Creating and spawning the tasks. *)
Definition spawn_tasks : K (Executor kernel_future) :=
  executor ← Executor_new;
  executor ← spawn executor (mkTask (mkTaskId 0) (ExampleTask ExStart));
  spawn executor (mkTask (mkTaskId 1) (KeyTask KpStart)).

Lemma kernel_tasks_split kfuel fuel s :
  kernel_tasks kfuel fuel s =
  (executor ← spawn_tasks; run (Future0 := kernel_futures kfuel) fuel executor) s.
Proof.
  unfold kernel_tasks, spawn_tasks. unfold mbind, K_bind. cbn [Executor_new].
  destruct (Executor_new s) as [[ex s1]| | |]; [|done..]. run. cbn [Task_new TaskId_new].
  destruct (spawn ex _ s1) as [[ex2 s2]| | |]; [|done..]. run.
  change ((0 + 1) mod usize_modulus) with 1.
  destruct (spawn ex2 _ s2) as [[ex3 s3]| | |]; done.
Qed.

(** The state in which the main loop starts. *)
Lemma spawn_tasks_spec s :
  machine_ok s → unstarted (get_view s) →
  ∃ s', spawn_tasks s = Done (spawned_executor, s') ∧
    machine_ok s' ∧ get_view s' = mkView None None [mkTaskId 0; mkTaskId 1] ∧
    (length (future_irqs s') ≤ length (future_irqs s))%nat ∧
    scancodes (future_irqs s') `suffix_of` scancodes (future_irqs s).
Proof.
  intros Hok Hu. unfold spawn_tasks. set (s0 := set_task_queue (queue_new 100) s).
  rewrite (bind_K_Done Executor_new _ s (mkExecutor ∅ ∅) s0) by done.
  destruct (queue_new_spec (A := TaskId) 100) as [He Hc].
  assert (machine_ok s0) as Hok0.
  { destruct Hok as (Hul & _ & Hcs). split; [exact Hul|]. by split. }
  assert (v_tasks (get_view s0) = []) as Hnil by exact He.
  set (t0 := mkTask (mkTaskId 0) (ExampleTask ExStart)).
  destruct (spawn_unstarted (mkExecutor ∅ ∅) t0 s0) as (s1 & E1 & Hok1 & Hv1 & Hi1 & Hk1);
    [done|done|apply lookup_empty|rewrite Hnil; unfold QUEUE_CAPACITY; simpl; lia|].
  erewrite bind_K_Done by exact E1. rewrite Hnil in Hv1.
  set (t1 := mkTask (mkTaskId 1) (KeyTask KpStart)).
  destruct (spawn_unstarted (mkExecutor (<[id t0 := t0]> ∅) ∅) t1 s1)
    as (s2 & E2 & Hok2 & Hv2 & Hi2 & Hk2);
    [done|by rewrite Hv1|done|rewrite Hv1; unfold QUEUE_CAPACITY; simpl; lia|].
  rewrite Hv1 in Hv2. change (future_irqs s0) with (future_irqs s) in *.
  exists s2. split_and!; [done|done|done|lia|by etrans].
Qed.

Lemma kernel_tasks_spawned kfuel fuel s :
  machine_ok s → unstarted (get_view s) →
  ∃ s', kernel_tasks kfuel fuel s =
          run (Future0 := kernel_futures kfuel) fuel spawned_executor s' ∧
    machine_ok s' ∧ get_view s' = mkView None None [mkTaskId 0; mkTaskId 1] ∧
    (length (future_irqs s') ≤ length (future_irqs s))%nat ∧
    scancodes (future_irqs s') `suffix_of` scancodes (future_irqs s).
Proof.
  intros Hok Hu. destruct (spawn_tasks_spec s Hok Hu) as (s' & E & Hs'). exists s'.
  rewrite kernel_tasks_split. by erewrite bind_K_Done by exact E.
Qed.

Lemma spawned_inv s s' (safe : Prop) :
  (safe → (2 + keys (future_irqs s) ≤ QUEUE_CAPACITY)%nat) →
  machine_ok s' → get_view s' = mkView None None [mkTaskId 0; mkTaskId 1] →
  (length (future_irqs s') ≤ length (future_irqs s))%nat →
  scancodes (future_irqs s') `suffix_of` scancodes (future_irqs s) →
  Hoare.inv safe (others (mkTaskId 1) spawned_executor) (scancodes (future_irqs s))
    (2 + 2 * length (future_irqs s)) (pending_ok (mkTaskId 1) KpStart) s'.
Proof.
  intros Hsafe Hok Hv Hi Hk. pose proof (suffix_length _ _ Hk) as Hlen.
  rewrite !length_scancodes in Hlen.
  unfold Hoare.inv, budget, input_ok, input_left, work. rewrite Hv, length_scancodes. cbn.
  split_and!; try done.
  - intros Hs. specialize (Hsafe Hs). lia.
  - intros Hs. specialize (Hsafe Hs). lia.
  - lia.
  - intros i Hin. apply elem_of_others in Hin as [Hne [t Ht]]. cbn in Ht.
    rewrite !lookup_insert_Some, lookup_empty in Ht.
    destruct Ht as [[<- _]|[_ [[<- _]|[_ ?]]]]; [done|set_solver|done].
  - set_solver.
Qed.

Lemma kernel_tasks_run kfuel fuel s :
  machine_ok s → unstarted (get_view s) →
  (keys (future_irqs s) < kfuel)%nat → (2 + 2 * length (future_irqs s) < fuel)%nat →
  quiesced (scancodes (future_irqs s)) (kernel_tasks kfuel fuel s).
Proof.
  intros Hok Hu Hkf Hf. set (input := scancodes (future_irqs s)).
  assert (length input = keys (future_irqs s)) as Hlen by apply length_scancodes.
  set (safe := (2 + length input ≤ QUEUE_CAPACITY)%nat).
  destruct (kernel_tasks_spawned kfuel fuel s Hok Hu) as (s' & -> & Hok' & Hv & Hi & Hk).
  pose proof (triple_run safe (mkTaskId 1) kfuel fuel spawned_executor KpStart input
    (2 + 2 * length (future_irqs s)) ltac:(lia) ltac:(lia) spawned_ok s'
    (spawned_inv s s' safe ltac:(unfold safe; lia) Hok' Hv Hi Hk)) as Ht.
  unfold kernel_future_inst in Ht.
  destruct (run fuel spawned_executor s') as [[ex s1]|msg| |];
    [|destruct Ht as [? Hns]; split; [done|unfold safe in Hns; lia]|done..].
  destruct Ht as (f & h & R & Hex & Hp & Hfi & (_ & _ & Hin & _ & Hoth & Hpo & Hemp)).
  pose proof (idle_view (mkTaskId 1) f _ Hpo Hemp) as Hidle. split; [|done].
  destruct (only_keyboard_left _ _ _ _ Hex Hoth Hpo Hemp) as [kb Hkb].
  assert (f = KpAwait kb) as ->.
  { destruct Hex as (_ & Hl & _). rewrite Hkb, lookup_singleton_eq in Hl. by injection Hl. }
  destruct Hp as [(? & _)|(_ & Hd & lost & R0 & Hin0 & [Hsub Hex0] & _)]; [done|].
  cbn in Hd. subst kb. exists h. split_and!; [done| |].
  - rewrite Hin0. transitivity R0; [|by apply sublist_inserts_l].
    transitivity (h ++ R); [by apply sublist_inserts_r|exact Hsub].
  - intros Hs. destruct Hin as [_ Hin]. destruct Hidle as [Hq _]. rewrite Hq in Hin.
    destruct Hin as [_ Hin]. specialize (Hin Hs). unfold input_left in Hin.
    rewrite Hq, Hfi in Hin. cbn in Hin. rewrite Hin0, (Hex0 Hs), <-Hin, app_nil_r. by eexists.
Qed.

(** C5: the kernel's tasks from their creation on, under every schedule of interrupts:
    spawning them succeeds, and the executor's main loop runs until the CPU sleeps for
    good, which happens only when no interrupt is left to come, the example task has
    finished, all input has been handled, no task is queued, and the keyboard task
    waits with its waker registered.  Its decoder has seen the key presses in the order
    in which they were made: if the queues have room for them it missed none but those
    made before the task was started.  The only failure is a full task queue, and that
    takes more keyboard interrupts than the queue has room for beside the two tasks. *)
Theorem kernel_tasks_quiesce kfuel fuel s :
  machine_ok s → unstarted (get_view s) →
  (keys (future_irqs s) < kfuel)%nat → (2 + 2 * length (future_irqs s) < fuel)%nat →
  quiesced (scancodes (future_irqs s)) (kernel_tasks kfuel fuel s).
Proof. apply kernel_tasks_run. Qed.





End properties.

(** ** Witnesses and the race *)

#[local] Existing Instances dev_profile list_lib list_laws echo_keyboard.

Definition key_id : TaskId := mkTaskId 1.

(** Keys are pressed while the tasks run. *)
Definition boot_machine : kstate :=
  mkK _ None None (100%nat, []) Vga.blank_screen false PICS.1 PICS.2 true []
    [[TimerIrq]; []; [KeyboardIrq 30]; []; []; []; [KeyboardIrq 31]; [TimerIrq]; [KeyboardIrq 32]]
    ∅ [].

Lemma boot_machine_ok : machine_ok boot_machine.
Proof. split; [split_and!; [done|done|exact blank_screen_wf]|]. by split. Qed.

Lemma boot_machine_unstarted : unstarted (get_view boot_machine).
Proof. by split. Qed.

Lemma kernel_tasks_quiesce_witness :
  quiesced [30; 31; 32] (kernel_tasks 4 13 boot_machine).
Proof.
  exact (kernel_tasks_quiesce 4 13 boot_machine boot_machine_ok boot_machine_unstarted
           ltac:(vm_compute; lia) ltac:(vm_compute; lia)).
Defined.

(** In this run the key pressed before the keyboard task is started is lost. *)
Lemma boot_machine_run :
  match kernel_tasks 4 13 boot_machine with
  | Done (ex, _) => future <$> tasks ex !! key_id
  | _ => None
  end = Some (KeyTask (KpAwait [31; 32])).
Proof. by vm_compute. Qed.

