(* ===== verification/MainLoop.v ===== *)
(** * The executor's main loop as a transition system

    [kernel_tasks_quiesce] bounds the runs in which finitely many interrupts arrive.  Here
    the main loop of src/src/task/executor.rs is a step relation on the executor and the
    machine, one step per iteration of [run_ready_tasks] or return from [sleep_if_idle],
    in which new interrupts can arrive without end.  The runs of the code are sequences of
    these steps ([run_ready_steps], [run_steps]).  The invariant of all reachable
    states says that no wake-up is lost; it is proved by induction on the steps from the
    iteration's triple in Scheduler.v. *)

From stdpp Require Import prelude gmap strings relations.
From S2P Require Import Prelude Vga AsyncLib Machine Interrupts Hoare Keyboard Task Executor.
From S2P Require Import Scheduler.

Section system.
Context `{BuildProfile, AsyncLaws, PcKeyboard}.
Implicit Types (ex : Executor kernel_future) (s : kstate).

(** The keyboard task is the second task that is created. *)
Definition keyboard_id : TaskId := mkTaskId 1.

(** A step of the loop in [Executor::run]: an iteration of [run_ready_tasks] that goes on,
    or one that finds the queue empty followed by [sleep_if_idle], or new interrupts are
    on their way.  The fuel of the keyboard task's loop covers the input there is. *)
Inductive main_step : Executor kernel_future * kstate → Executor kernel_future * kstate → Prop :=
| step_task kfuel ex s ex' s' :
    (load s < kfuel)%nat →
    ready_iteration (Future0 := kernel_futures kfuel) ex s = Done (inl ex', s') →
    main_step (ex, s) (ex', s')
| step_sleep kfuel ex s ex' s1 s' :
    (load s < kfuel)%nat →
    ready_iteration (Future0 := kernel_futures kfuel) ex s = Done (inr ex', s1) →
    sleep_if_idle s1 = Done (true, s') →
    main_step (ex, s) (ex', s')
| step_arrive ex s batches :
    main_step (ex, s) (ex, set_irqs (pending s) (schedule s ++ batches) s).

(** No wake-up is lost: the keyboard task exists; as long as it has not run its id is
    queued; afterwards, if a scancode is queued or its waker is not registered, its id is
    queued as well.  The id of every other task that is left is queued. *)
Definition no_wakeup_missing ex s : Prop :=
  machine_ok s ∧ exec_inv ex ∧
  (∃ f, tasks ex !! keyboard_id = Some (mkTask keyboard_id (KeyTask f)) ∧
    pending_ok keyboard_id f (get_view s)) ∧
  (∀ i t, tasks ex !! i = Some t → i ≠ keyboard_id → i ∈ v_tasks (get_view s)).

(** What the loop does next: it makes another step, or sleeps for good because no
    interrupt is left, with the keyboard task registered; it fails only with the panic
    on a full task queue. *)
Definition goes_on kfuel ex s : Prop :=
  match ready_iteration (Future0 := kernel_futures kfuel) ex s with
  | Done (inl _, _) => True
  | Done (inr _, s1) =>
      match sleep_if_idle s1 with
      | Done (true, _) => True
      | Done (false, s2) =>
          future_irqs s2 = [] ∧ registered_idle keyboard_id (get_view s2)
      | Panicked msg => msg = "task queue full"
      | _ => False
      end
  | Panicked msg => msg = "task queue full"
  | _ => False
  end.

(** The invariant, with the state of the keyboard task. *)
Definition loop_inv ex s : Prop :=
  machine_ok s ∧ others keyboard_id ex ⊆ v_tasks (get_view s) ∧
  ∃ f, exec_ok keyboard_id ex f ∧ pending_ok keyboard_id f (get_view s).

Lemma loop_inv_start ex s f :
  machine_ok s → others keyboard_id ex ⊆ v_tasks (get_view s) →
  pending_ok keyboard_id f (get_view s) →
  inv False (others keyboard_id ex) (input_left s) (work s) (pending_ok keyboard_id f) s.
Proof. intros. split_and!; try done. by apply input_ok_self. Qed.

Lemma loop_inv_end ex f L R t P s :
  exec_ok keyboard_id ex f → others keyboard_id ex ⊆ L →
  (∀ v, P v → pending_ok keyboard_id f v) → inv False L R t P s →
  loop_inv ex s ∧ (load s ≤ length R)%nat.
Proof.
  intros Hex HL HP (Hok & _ & Hin & _ & HLs & HPs).
  split; [|by eapply input_ok_load]. split; [done|]. split; [by etrans|]. eauto.
Qed.

(** An iteration and the sleep after it, from a state with the invariant; the input that
    is left does not grow. *)
Lemma loop_inv_step kfuel ex s :
  loop_inv ex s → (load s < kfuel)%nat →
  match ready_iteration (Future0 := kernel_futures kfuel) ex s with
  | Done (inl ex', s') => loop_inv ex' s' ∧ (load s' ≤ load s)%nat
  | Done (inr ex', s1) =>
      match sleep_if_idle s1 with
      | Done (true, s') => loop_inv ex' s' ∧ (load s' ≤ load s)%nat
      | Done (false, s2) =>
          future_irqs s2 = [] ∧ registered_idle keyboard_id (get_view s2)
      | Panicked msg => msg = "task queue full"
      | _ => False
      end
  | Panicked msg => msg = "task queue full"
  | _ => False
  end.
Proof.
  intros (Hok & HL & f & Hex & Hp) Hk. rewrite <-length_input_left in Hk.
  pose proof (triple_iteration False keyboard_id kfuel ex f (input_left s) (work s) Hk Hex s
    (loop_inv_start ex s f Hok HL Hp)) as Ht.
  unfold kernel_future_inst in Ht.
  destruct (ready_iteration ex s) as [[[ex'|ex'] s1]|msg| |]; [| |by destruct Ht|done..].
  - destruct Ht as (f' & h & R' & Hex' & Hp' & _ & Hi). rewrite <-(length_input_left s).
    destruct (loop_inv_end ex' f' _ R' _ _ s1 Hex' ltac:(done) ltac:(done) Hi).
    apply progress_length in Hp'. split; [done|lia].
  - destruct Ht as [-> Hi].
    pose proof (triple_sleep_if_idle False keyboard_id _ _ _ f s1 Hi) as Hs.
    destruct (sleep_if_idle s1) as [[[] s2]|msg| |]; [| |by destruct Hs|done..].
    + destruct Hs as [_ Hi2]. rewrite <-(length_input_left s).
      by eapply loop_inv_end; [exact Hex| | |exact Hi2].
    + destruct Hs as [(_ & _ & _ & _ & _ & Hpo & Hnil) Hf]. split; [done|].
      by eapply idle_view.
Qed.

Lemma main_step_inv c c' : main_step c c' → loop_inv c.1 c.2 → loop_inv c'.1 c'.2.
Proof.
  intros Hs Hi. destruct Hs as [kfuel ex s ex' s' Hk E|kfuel ex s ex' s1 s' Hk E E2|ex s b];
    cbn in *.
  - pose proof (loop_inv_step kfuel ex s Hi Hk) as Hc. rewrite E in Hc. by destruct Hc.
  - pose proof (loop_inv_step kfuel ex s Hi Hk) as Hc. rewrite E, E2 in Hc. by destruct Hc.
  - exact Hi.
Qed.

Lemma reachable_inv c c' : rtc main_step c c' → loop_inv c.1 c.2 → loop_inv c'.1 c'.2.
Proof. induction 1; eauto using main_step_inv. Qed.

(** The runs of the code are sequences of these steps: [run_ready_tasks] up to the iteration
    that finds the queue empty, and [run] up to the sleep from which nothing wakes it. *)
Lemma run_ready_steps kfuel fuel ex s ex' s' :
  loop_inv ex s → (load s < kfuel)%nat →
  run_ready_tasks (Future0 := kernel_futures kfuel) fuel ex s = Done (ex', s') →
  ∃ ex1 s1, rtc main_step (ex, s) (ex1, s1) ∧ loop_inv ex1 s1 ∧ (load s1 < kfuel)%nat ∧
    ready_iteration (Future0 := kernel_futures kfuel) ex1 s1 = Done (inr ex', s').
Proof.
  revert ex s. induction fuel as [|fuel IH]; intros ex s Hi Hk; [done|].
  rewrite run_ready_unfold. pose proof (loop_inv_step kfuel ex s Hi Hk) as Hc.
  unfold mbind at 1, K_bind at 1.
  destruct (ready_iteration ex s) as [[[ex1|ex1] s1]| | |] eqn:E; [|..|done|done|done].
  - destruct Hc as [Hi1 Hl]. cbn. intros Er.
    destruct (IH ex1 s1 Hi1 ltac:(lia) Er) as (ex2 & s2 & Hr & ? & ? & ?). exists ex2, s2.
    split_and!; [|done..]. eapply rtc_l; [by eapply step_task|exact Hr].
  - cbn. intros [= <- <-]. exists ex, s. by split_and!.
Qed.

Lemma run_steps kfuel fuel ex s ex' s' :
  loop_inv ex s → (load s < kfuel)%nat →
  run (Future0 := kernel_futures kfuel) fuel ex s = Done (ex', s') →
  ∃ ex1 s1 s2, rtc main_step (ex, s) (ex1, s1) ∧
    ready_iteration (Future0 := kernel_futures kfuel) ex1 s1 = Done (inr ex', s2) ∧
    sleep_if_idle s2 = Done (false, s').
Proof.
  revert ex s. induction fuel as [|fuel IH]; intros ex s Hi Hk; [done|].
  cbn [run]. unfold mbind at 1, K_bind at 1.
  destruct (run_ready_tasks (S fuel) ex s) as [[ex1 s1]| | |] eqn:E1; [|done..]. cbn [mbind outcome_bind].
  destruct (run_ready_steps _ _ _ _ _ _ Hi Hk E1) as (ex0 & s0 & Hr & Hi0 & Hk0 & E).
  pose proof (loop_inv_step kfuel ex0 s0 Hi0 Hk0) as Hc. rewrite E in Hc.
  unfold mbind at 1, K_bind at 1.
  destruct (sleep_if_idle s1) as [[[] s2]| | |] eqn:E2; [|..|done|done|done]; cbn.
  - destruct Hc as [Hi2 Hl]. intros Er.
    destruct (IH ex1 s2 Hi2 ltac:(lia) Er) as (ex3 & s3 & s4 & Hr' & ? & ?).
    exists ex3, s3, s4. split_and!; [|done..]. etrans; [exact Hr|].
    eapply rtc_l; [by eapply step_sleep|exact Hr'].
  - intros [= <- <-]. by exists ex0, s0, s1.
Qed.

Lemma spawned_loop_inv s ex0 s0 :
  machine_ok s → unstarted (get_view s) → spawn_tasks s = Done (ex0, s0) → loop_inv ex0 s0.
Proof.
  intros Hok Hu E. destruct (spawn_tasks_spec s Hok Hu) as (s' & E' & Hok' & Hv & Hi & Hk).
  rewrite E in E'. injection E' as -> ->.
  destruct (spawned_inv s s' False ltac:(done) Hok' Hv Hi Hk) as (_ & _ & _ & _ & HL & Hp).
  split; [done|]. split; [done|]. exists KpStart. split; [apply spawned_ok|done].
Qed.

(** C25: the executor's main loop from the creation of the kernel's tasks on, however many
    interrupts arrive and when: in every reachable state no wake-up is missing, that is,
    the keyboard task's id is queued whenever a scancode is waiting, its waker is not
    registered or it has not run yet, and so is the id of every other task that is left;
    and the loop makes another step or sleeps for good because no interrupt is left, with
    the keyboard task's waker registered and no input waiting.  It never deadlocks or
    faults, and panics only on a full task queue. *)
Theorem no_lost_wakeup s ex0 s0 ex' s' :
  machine_ok s → unstarted (get_view s) → spawn_tasks s = Done (ex0, s0) →
  rtc main_step (ex0, s0) (ex', s') →
  no_wakeup_missing ex' s' ∧ ∀ kfuel, (load s' < kfuel)%nat → goes_on kfuel ex' s'.
Proof.
  intros Hok Hu E Hr. pose proof (reachable_inv _ _ Hr (spawned_loop_inv _ _ _ Hok Hu E)) as Hi.
  cbn in Hi. split.
  - destruct Hi as (Hok' & HL & f & (Hinv & Hk & _) & Hp). split_and!; [done|done|eauto|].
    intros i t Ht Hne. apply HL, elem_of_others. eauto.
  - intros kfuel Hk. pose proof (loop_inv_step kfuel ex' s' Hi Hk) as Hc. unfold goes_on.
    destruct (ready_iteration ex' s') as [[[ex1|ex1] s1]| | |]; try done.
    by destruct (sleep_if_idle s1) as [[[] s2]| | |].
Qed.

End system.

(** ** Witness: a key press is announced after the tasks were spawned *)

#[local] Existing Instances dev_profile list_lib list_laws echo_keyboard.

Definition spawned_machine : kstate :=
  set_task_queue (100%nat, [mkTaskId 0; mkTaskId 1]) idle_machine.

Definition announced_machine : kstate := set_irqs [] [[KeyboardIrq 30]] spawned_machine.

(** The first iteration runs the example task after handling the key press. *)
Definition first_iteration : Executor kernel_future * kstate :=
  match ready_iteration (Future0 := kernel_futures 2) spawned_executor announced_machine with
  | Done (inl ex, s) => (ex, s)
  | _ => (spawned_executor, announced_machine)
  end.

Lemma no_lost_wakeup_witness :
  no_wakeup_missing first_iteration.1 first_iteration.2 ∧
  ∀ kfuel, (load first_iteration.2 < kfuel)%nat →
    goes_on kfuel first_iteration.1 first_iteration.2.
Proof.
  apply (no_lost_wakeup idle_machine spawned_executor spawned_machine);
    [exact idle_machine_ok|by split|vm_compute; reflexivity|].
  eapply rtc_l; [apply (step_arrive spawned_executor spawned_machine [[KeyboardIrq 30]])|].
  eapply rtc_l; [|apply rtc_refl].
  apply (step_task 2); [vm_compute; lia|vm_compute; reflexivity].
Defined.
