(* ===== verification/Race.v ===== *)
(** * The limit of the wake-up protocol

    [poll_next] of src/src/task/keyboard.rs registers the waker before it looks at the
    scancode queue a second time.  A key press between the two finds the waker registered
    and queues the task's id, although the task goes on running; the ids are consumed only
    when the task suspends.  This file follows such a run exactly, one key press in that
    window in each round of the task's loop, and says how many key presses the task queue
    survives. *)

From stdpp Require Import prelude gmap strings.
From S2P Require Import Prelude Vga AsyncLib Machine Interrupts Hoare Keyboard Task Executor.
From S2P Require Import Scheduler.

Section race.
Context `{BuildProfile, AsyncLaws, PcKeyboard}.
Implicit Types (s : kstate) (v : view).

(** What arrives at the preemption points of the keyboard task, from a state of its decoder
    on: before the first look at the queue, before [register], in the window, before the
    registered waker is taken out again, and before the decoded key is printed. *)
Fixpoint race_schedule (kb : Kbd) (presses : list Z) : list (list irq) :=
  match presses with
  | [] => []
  | sc :: presses' =>
      let '(kb', out) := decode kb sc in
      [[]; []; [KeyboardIrq sc]; []] ++ ((λ _, []) <$> out) ++ race_schedule kb' presses'
  end.

(** The exact state that matters: what the tasks see, and the interrupts to come. *)
Definition at_point v (sched : list (list irq)) s : Prop :=
  machine_ok s ∧ get_view s = v ∧ interrupt_flag s = true ∧ pending s = [] ∧ schedule s = sched.

(** The program returns, and how. *)
Definition leads {A} (P : kstate → Prop) (m : K A) (Q : A → kstate → Prop) : Prop :=
  ∀ s, P s → ∃ a s', m s = Done (a, s') ∧ Q a s'.

Lemma leads_ret {A} P (a : A) (Q : A → kstate → Prop) :
  (∀ s, P s → Q a s) → leads P (mret a) Q.
Proof. intros HP s Hs. exists a, s. split; [done|by apply HP]. Qed.

Lemma leads_bind {A B} P (m : K A) (f : A → K B) R Q :
  leads P m R → (∀ a, leads (R a) (f a) Q) → leads P (m ≫= f) Q.
Proof.
  intros Hm Hf s Hs. destruct (Hm s Hs) as (a & s1 & E & HR).
  rewrite (bind_K_Done _ _ _ _ _ E). by apply Hf.
Qed.

(** ** The steps of the task *)

Lemma leads_preempt v v' l sched :
  view_irqs l v = Some v' →
  leads (at_point v (l :: sched)) preempt (λ _, at_point v' sched).
Proof.
  intros Hv s (Hok & Hvs & Hf & Hp & Hs). pose proof (preempt_spec s Hok) as Hpre.
  unfold arrivals, still_pending in Hpre. rewrite Hf, Hp, Hs, Hvs in Hpre. cbn in Hpre.
  rewrite Hv in Hpre. destruct Hpre as (s' & E & ? & ? & ? & ? & ? & _).
  exists (), s'. split; [done|]. split_and!; congruence.
Qed.

(** No interrupt arrives at the next preemption point. *)
Definition clear (sched sched' : list (list irq)) : Prop :=
  sched = [] :: sched' ∨ sched = [] ∧ sched' = [].

Lemma leads_preempt_clear v sched sched' :
  clear sched sched' → leads (at_point v sched) preempt (λ _, at_point v sched').
Proof.
  intros [->|[-> ->]]; [by apply leads_preempt|].
  intros s (Hok & Hvs & Hf & Hp & Hs). exists (), s. by rewrite preempt_quiet.
Qed.

Lemma clear_cons sched : clear ([] :: sched) sched.
Proof. by left. Qed.
Lemma clear_nil : clear [] [].
Proof. by right. Qed.

Lemma leads_pop v sched l :
  v_scancodes v = Some l →
  leads (at_point v sched) pop_scancode (λ o s,
    o = head l ∧ at_point (mkView (Some (tail l)) (v_waker v) (v_tasks v)) sched s).
Proof.
  intros Hl s (Hok & <- & Hf & Hp & Hs). destruct Hok as (Hu & Ht & Hc).
  unfold pop_scancode. unfold get_view in Hl. cbn in Hl.
  destruct (cell_try_get (SCANCODE_QUEUE s)) as [q|] eqn:Hq; [|done]. injection Hl as Hl.
  assert (∃ q', queue_pop q = (head l, q') ∧ elems q' = tail l ∧ capacity q' = capacity q)
    as (q' & -> & He & Hcap).
  { pose proof (queue_pop_spec q) as Hpop. rewrite Hl in Hpop. destruct l as [|sc l]; [|done].
    by exists q. }
  pose proof (cell_set_spec _ _ q' Hq) as Hset. eexists _, _. split; [done|]. split; [done|].
  split_and!; [split; [exact Hu|]; split; [exact Ht|]| |done..].
  - cbn. rewrite Hset. intros ? [= <-]. rewrite Hcap. by apply Hc.
  - unfold get_view. cbn. rewrite Hset. cbn. by rewrite He.
Qed.

Lemma leads_register v sched w :
  leads (at_point v sched) (register_waker w)
    (λ _, at_point (mkView (v_scancodes v) (Some w) (v_tasks v)) sched).
Proof.
  intros s (Hok & <- & Hf & Hp & Hs). eexists _, _. split; [done|]. split_and!; try done.
  unfold get_view. cbn. by rewrite waker_register_spec.
Qed.

Lemma leads_take v sched :
  leads (at_point v sched) take_waker
    (λ _, at_point (mkView (v_scancodes v) None (v_tasks v)) sched).
Proof.
  intros s (Hok & <- & Hf & Hp & Hs). destruct (waker_take_spec (WAKER s)) as (aw & E & Haw).
  eexists _, _. split; [done|]. rewrite E. split_and!; try done.
  unfold get_view. cbn. by rewrite Haw.
Qed.

Lemma leads_print v sched args :
  leads (at_point v sched) (vga_print args) (λ _, at_point v sched).
Proof.
  intros s (Hok & <- & Hf & Hp & Hs).
  destruct (vga_print_spec args s (proj1 Hok)) as (w & s' & E & Hsb & _).
  destruct (same_but_screen_ok _ _ Hsb Hok) as (? & ? & (? & ? & ?) & _).
  exists (), s'. split; [done|]. split_and!; congruence.
Qed.

Lemma leads_handle v sched kb sc :
  leads (at_point v (((λ _, []) <$> (decode kb sc).2) ++ sched)) (handle_scancode kb sc)
    (λ kb' s, kb' = (decode kb sc).1 ∧ at_point v sched s).
Proof.
  unfold handle_scancode, decode. destruct (add_byte kb sc) as [[[e|]|] kb1];
    [|by apply leads_ret..].
  destruct (process_keyevent kb1 e) as [[[c|c]|] kb2]; [| |by apply leads_ret].
  all: eapply leads_bind; [apply leads_preempt_clear, clear_cons|intros []];
    eapply leads_bind; [apply leads_print|intros []]; by apply leads_ret.
Qed.

(** ** A round of the loop *)

Definition racing (w : option Waker) (ts : list TaskId) : view := mkView (Some []) w ts.

(** Up to the window: the queue is empty, and the waker is registered. *)
Lemma to_window w ts sched sched1 sched2 k s :
  clear sched sched1 → clear sched1 sched2 → at_point (racing w ts) sched s →
  ∃ s', at_point (racing (Some (TaskWaker k)) ts) sched2 s' ∧
    poll_next (TaskWaker k) s =
    (_ ← preempt; second ← pop_scancode;
     match second with
     | Some scancode => _ ← preempt; _ ← take_waker; mret (Ready (Some scancode))
     | None => mret Pending
     end) s'.
Proof.
  intros Hc1 Hc2 Hs. destruct (leads_preempt_clear _ _ _ Hc1 s Hs) as ([] & s1 & E1 & Hs1).
  destruct (leads_pop (racing w ts) _ [] eq_refl s1 Hs1) as (o & s2 & E2 & -> & Hs2).
  destruct (leads_preempt_clear _ _ _ Hc2 s2 Hs2) as ([] & s3 & E3 & Hs3).
  destruct (leads_register _ _ (TaskWaker k) s3 Hs3) as ([] & s4 & E4 & Hs4).
  exists s4. split; [exact Hs4|]. unfold poll_next.
  rewrite (bind_K_Done _ _ _ _ _ E1), (bind_K_Done _ _ _ _ _ E2). cbn [head].
  by rewrite (bind_K_Done _ _ _ _ _ E3), (bind_K_Done _ _ _ _ _ E4).
Qed.

(** What a key press in the window does to the view. *)
Lemma racing_key ts k sc :
  view_irqs [KeyboardIrq sc] (racing (Some (TaskWaker k)) ts) =
  if bool_decide (length ts < QUEUE_CAPACITY)%nat
  then Some (mkView (Some [sc]) None (ts ++ [k])) else None.
Proof.
  cbn. rewrite (bool_decide_eq_true_2 (0 < QUEUE_CAPACITY)%nat) by (unfold QUEUE_CAPACITY; lia).
  by case_bool_decide.
Qed.

(** A key press in the window, while there is room for one more id. *)
Lemma poll_next_raced w ts k sc sched :
  (length ts < QUEUE_CAPACITY)%nat →
  leads (at_point (racing w ts) ([[]; []; [KeyboardIrq sc]; []] ++ sched))
    (poll_next (TaskWaker k))
    (λ p s, p = Ready (Some sc) ∧ at_point (racing None (ts ++ [k])) sched s).
Proof.
  intros Hl s Hs. cbn [app] in Hs.
  destruct (to_window w ts _ _ _ k s (clear_cons _) (clear_cons _) Hs) as (s1 & Hs1 & ->).
  revert s1 Hs1. change (leads (at_point (racing (Some (TaskWaker k)) ts)
    ([KeyboardIrq sc] :: [] :: sched)) (_ ← preempt; second ← pop_scancode;
     match second with
     | Some scancode => _ ← preempt; _ ← take_waker; mret (Ready (Some scancode))
     | None => mret Pending
     end) (λ p s, p = Ready (Some sc) ∧ at_point (racing None (ts ++ [k])) sched s)).
  eapply leads_bind.
  { apply (leads_preempt _ (mkView (Some [sc]) None (ts ++ [k]))).
    by rewrite racing_key, bool_decide_eq_true_2. }
  intros []. eapply leads_bind; [by apply (leads_pop _ _ [sc])|]. intros o s1 [-> Hs1]. cbn [head].
  revert s1 Hs1. eapply (leads_bind (at_point _ _)); [apply leads_preempt_clear, clear_cons|intros []].
  eapply leads_bind; [apply leads_take|intros []]. by apply leads_ret.
Qed.

(** The key press for which there is none. *)
Lemma poll_next_overflows w ts k sc sched s :
  (QUEUE_CAPACITY ≤ length ts)%nat →
  at_point (racing w ts) ([] :: [] :: [KeyboardIrq sc] :: sched) s →
  poll_next (TaskWaker k) s = Panicked "task queue full".
Proof.
  intros Hl Hs.
  destruct (to_window w ts _ _ _ k s (clear_cons _) (clear_cons _) Hs) as (s1 & Hs1 & ->).
  apply bind_K_Panicked. destruct Hs1 as (Hok & Hv & Hf & Hp & Hsc).
  pose proof (preempt_spec s1 Hok) as Hpre. unfold arrivals in Hpre.
  rewrite Hf, Hp, Hsc, Hv in Hpre.
  change ([] ++ default [] (head ([KeyboardIrq sc] :: sched))) with [KeyboardIrq sc] in Hpre.
  by rewrite racing_key, bool_decide_eq_false_2 in Hpre by lia.
Qed.

(** Without a key press the task suspends. *)
Lemma poll_next_suspends w ts k :
  leads (at_point (racing w ts) []) (poll_next (TaskWaker k))
    (λ p s, p = Pending ∧ at_point (racing (Some (TaskWaker k)) ts) [] s).
Proof.
  intros s Hs. destruct (to_window w ts _ _ _ k s clear_nil clear_nil Hs) as (s1 & Hs1 & ->).
  destruct (leads_preempt_clear _ _ _ clear_nil s1 Hs1) as ([] & s2 & E2 & Hs2).
  destruct (leads_pop (racing (Some (TaskWaker k)) ts) _ [] eq_refl s2 Hs2) as (o & s3 & E3 & -> & Hs3).
  exists Pending, s3. rewrite (bind_K_Done _ _ _ _ _ E2), (bind_K_Done _ _ _ _ _ E3). by split.
Qed.

(** ** The task *)

(** How many ids the key presses leave in the task queue. *)
Definition woken (ts : list TaskId) (k : TaskId) (presses : list Z) : list TaskId :=
  ts ++ replicate (length presses) k.

Lemma keypress_loop_suspends fuel w ts k kb :
  (0 < fuel)%nat →
  leads (at_point (racing w ts) []) (keypress_loop fuel (TaskWaker k) kb) (λ r s,
    r = (Pending, KpAwait kb) ∧ at_point (racing (Some (TaskWaker k)) ts) [] s).
Proof.
  intros Hf s Hs. destruct fuel as [|fuel]; [lia|]. cbn [keypress_loop].
  destruct (poll_next_suspends w ts k s Hs) as (p & s1 & E & -> & Hs1).
  rewrite (bind_K_Done _ _ _ _ _ E). by eexists _, s1.
Qed.

Lemma keypress_loop_raced fuel w ts k kb presses s :
  (length ts ≤ QUEUE_CAPACITY)%nat → (length presses < fuel)%nat →
  at_point (racing w ts) (race_schedule kb presses) s →
  match keypress_loop fuel (TaskWaker k) kb s with
  | Done (r, s') =>
      (length ts + length presses ≤ QUEUE_CAPACITY)%nat ∧
      r = (Pending, KpAwait (decode_all kb presses).1) ∧
      at_point (racing (Some (TaskWaker k)) (woken ts k presses)) [] s'
  | Panicked msg =>
      msg = "task queue full" ∧ (QUEUE_CAPACITY < length ts + length presses)%nat
  | Faulted | Diverged => False
  end.
Proof.
  revert fuel w ts kb s. induction presses as [|sc presses IH]; intros fuel w ts kb s Ht Hf Hs;
    [|destruct fuel as [|fuel]; [cbn in Hf; lia|]; cbn [keypress_loop]].
  { destruct (keypress_loop_suspends fuel w ts k kb Hf s Hs) as (r & s1 & -> & -> & Hs1).
    unfold woken. cbn [replicate length]. rewrite app_nil_r, Nat.add_0_r. by split_and!. }
  cbn [race_schedule length] in *. destruct (decode kb sc) as [kb' out] eqn:Ed.
  destruct (decide (length ts < QUEUE_CAPACITY)%nat) as [Hlt|Hge].
  - destruct (poll_next_raced w ts k sc _ Hlt s Hs) as (p & s1 & E1 & -> & Hs1).
    rewrite (bind_K_Done _ _ _ _ _ E1). replace out with (decode kb sc).2 in Hs1 by (by rewrite Ed).
    destruct (leads_handle _ _ kb sc s1 Hs1) as (kb1 & s2 & E2 & -> & Hs2).
    rewrite (bind_K_Done _ _ _ _ _ E2), Ed. cbn [fst].
    specialize (IH fuel None (ts ++ [k]) kb' s2). rewrite length_app in IH. cbn [length] in IH.
    specialize (IH ltac:(lia) ltac:(lia) Hs2).
    destruct (keypress_loop fuel (TaskWaker k) kb' s2) as [[r s']|msg| |]; [|..|done|done].
    + destruct IH as (? & -> & Hs'). rewrite decode_all_cons, Ed. cbn [fst].
      split_and!; [lia|done|]. unfold woken in *. by rewrite <-app_assoc in Hs'.
    + destruct IH as [-> ?]. split; [done|lia].
  - erewrite bind_K_Panicked by (eapply (poll_next_overflows w ts k sc); [lia|exact Hs]).
    split; [done|lia].
Qed.

(** ** The executor *)

Variable kfuel : nat.
#[local] Instance race_futures : Future kernel_future := kernel_futures kfuel.
Implicit Types (ex : Executor kernel_future).

Lemma leads_pop_task v sched :
  leads (at_point v sched) pop_task (λ o s,
    o = head (v_tasks v) ∧
    at_point (mkView (v_scancodes v) (v_waker v) (tail (v_tasks v))) sched s).
Proof.
  intros s (Hok & <- & Hf & Hp & Hs). destruct Hok as (Hu & Ht & Hc). unfold pop_task.
  pose proof (queue_pop_spec (task_queue s)) as Hpop. unfold at_point, get_view. cbn.
  destruct (elems (task_queue s)) as [|j l] eqn:He.
  - rewrite Hpop. eexists _, _. split; [done|]. split; [done|].
    split_and!; try done. unfold get_view. cbn. by rewrite He.
  - destruct Hpop as (q & -> & Hq & Hcap). eexists _, _. split; [done|]. split; [done|].
    split_and!; [split; [exact Hu|]; split; [cbn; congruence|exact Hc]| |done..].
    unfold get_view. cbn. by rewrite Hq.
Qed.

(** The executor with the keyboard task suspended at its [await]. *)
Definition key_waits ex (k : TaskId) (kb : Kbd) : Prop :=
  exec_inv ex ∧ tasks ex !! k = Some (mkTask k (KeyTask (KpAwait kb))).

Lemma key_waits_update ex k kb kb' :
  key_waits ex k kb →
  key_waits (mkExecutor (<[k := mkTask k (KeyTask (KpAwait kb'))]> (tasks ex))
               (<[k := TaskWaker k]> (waker_cache ex))) k kb'.
Proof.
  intros [Hinv Hk]. split; [|cbn; by rewrite lookup_insert_eq].
  pose proof (exec_inv_keep ex k (mkTask k (KeyTask (KpAwait kb'))) Hinv eq_refl
    ltac:(by eexists)) as Hkeep. by rewrite cached_waker in Hkeep.
Qed.

(** A round of the executor's loop that polls the keyboard task. *)
Lemma run_ready_round fuel ex k kb w ts sched sched' s :
  key_waits ex k kb → clear sched sched' → at_point (racing w (k :: ts)) sched s →
  ∃ s1, at_point (racing w ts) sched' s1 ∧
    run_ready_tasks (S fuel) ex s =
    match keypress_loop kfuel (TaskWaker k) kb s1 with
    | Done (Pending, f, s') =>
        run_ready_tasks fuel
          (mkExecutor (<[k := mkTask k (KeyTask f)]> (tasks ex))
             (<[k := TaskWaker k]> (waker_cache ex))) s'
    | Done (Ready _, f, s') =>
        (_ ← release_waker k;
         run_ready_tasks fuel (mkExecutor (delete k (tasks ex))
           (delete k (<[k := TaskWaker k]> (waker_cache ex))))) s'
    | Panicked msg => Panicked msg
    | Faulted => Faulted
    | Diverged => Diverged
    end.
Proof.
  intros [Hinv Hk] Hc Hs.
  destruct (leads_preempt_clear _ _ _ Hc s Hs) as ([] & s1 & E1 & Hs1).
  destruct (leads_pop_task _ _ s1 Hs1) as (o & s2 & E2 & -> & Hs2). cbn in E2, Hs2.
  exists (set_cached ({[ k ]} ∪ cached_wakers s2) s2). split.
  { destruct Hs2 as (? & ? & ? & ? & ?). by split_and!. }
  cbn [run_ready_tasks]. rewrite (bind_K_Done _ _ _ _ _ E1), (bind_K_Done _ _ _ _ _ E2), Hk.
  cbv zeta. rewrite cached_waker by done.
  rewrite (bind_K_Done (hold_waker k) _ s2 () (set_cached ({[ k ]} ∪ cached_wakers s2) s2)) by done.
  unfold poll. cbn [poll_future race_futures kernel_futures poll_kernel poll_keypresses future id].
  unfold mbind, K_bind. destruct (keypress_loop _ _ _ _) as [[[[[]|] f] s']| | |]; done.
Qed.

(** Once no interrupt is left, the queued ids are consumed one by one. *)
Lemma run_ready_drains n fuel ex k kb w s :
  (0 < kfuel)%nat → (n < fuel)%nat → key_waits ex k kb →
  at_point (racing w (replicate n k)) [] s →
  ∃ ex' s', run_ready_tasks fuel ex s = Done (ex', s') ∧ key_waits ex' k kb ∧
    at_point (racing (if decide (n = 0%nat) then w else Some (TaskWaker k)) []) [] s'.
Proof.
  revert fuel ex w s. induction n as [|n IH]; intros fuel ex w s Hkf Hf Hex Hs;
    (destruct fuel as [|fuel]; [lia|]).
  { destruct (leads_preempt_clear _ _ _ clear_nil s Hs) as ([] & s1 & E1 & Hs1).
    destruct (leads_pop_task _ _ s1 Hs1) as (o & s2 & E2 & -> & Hs2).
    exists ex, s2. cbn [run_ready_tasks].
    rewrite (bind_K_Done _ _ _ _ _ E1), (bind_K_Done _ _ _ _ _ E2). by split_and!. }
  cbn [replicate] in Hs.
  destruct (run_ready_round fuel ex k kb w _ _ _ s Hex clear_nil Hs) as (s1 & Hs1 & ->).
  destruct (keypress_loop_suspends kfuel w (replicate n k) k kb Hkf s1 Hs1)
    as (r & s2 & -> & -> & Hs2).
  destruct (IH fuel _ (Some (TaskWaker k)) s2 Hkf ltac:(lia)
    (key_waits_update ex k kb kb Hex) Hs2) as (ex' & s' & E & Hex' & Hs').
  exists ex', s'. split_and!; [exact E|done|]. by destruct (decide (n = 0%nat)).
Qed.

End race.

(** ** Properties *)

Section properties.
Context `{BuildProfile, AsyncLaws, PcKeyboard}.

(** C34: the limit of the wake-up protocol, exactly.  The keyboard task has been woken with
    an empty scancode queue, and in each round of its loop a key is pressed between
    [WAKER.register] and the second [queue.pop].  Each of these presses queues the task's id
    once more although the task goes on running, and the ids are not consumed before it
    suspends.  So up to 100 such presses are handled and the executor becomes idle again
    with the waker registered; the next one finds the task queue full, and the interrupt
    handler panics. *)
Theorem wakeup_race_overflows kfuel fuel ex k kb w presses s :
  key_waits ex k kb → at_point (racing w [k]) ([] :: race_schedule kb presses) s →
  (length presses < kfuel)%nat → (1 + length presses < fuel)%nat →
  match run_ready_tasks (Future0 := kernel_futures kfuel) fuel ex s with
  | Done (ex', s') =>
      (length presses ≤ QUEUE_CAPACITY)%nat ∧ key_waits ex' k (decode_all kb presses).1 ∧
      get_view s' = mkView (Some []) (Some (TaskWaker k)) []
  | Panicked msg => msg = "task queue full" ∧ (QUEUE_CAPACITY < length presses)%nat
  | Faulted | Diverged => False
  end.
Proof.
  intros Hex Hs Hkf Hf. destruct fuel as [|fuel]; [lia|].
  change (kernel_futures kfuel) with (race_futures kfuel).
  destruct (run_ready_round kfuel fuel ex k kb w [] _ _ s Hex (clear_cons _) Hs) as (s1 & Hs1 & ->).
  pose proof (keypress_loop_raced kfuel w [] k kb presses s1 ltac:(cbn; lia) Hkf Hs1) as Hl.
  cbn [length] in Hl.
  destruct (keypress_loop kfuel (TaskWaker k) kb s1) as [[r s2]|msg| |]; [|done..].
  destruct Hl as (Hn & -> & Hs2). unfold woken in Hs2. cbn [app] in Hs2.
  destruct (run_ready_drains kfuel (length presses) fuel _ k _ _ s2 ltac:(lia) ltac:(lia)
    (key_waits_update ex k kb (decode_all kb presses).1 Hex) Hs2) as (ex' & s' & -> & Hex' & Hs').
  split_and!; [done|done|]. destruct Hs' as (_ & -> & _). by case_decide.
Qed.

End properties.

(** ** Witness *)

#[local] Existing Instances dev_profile list_lib list_laws echo_keyboard.

Definition race_machine (presses : list Z) : kstate :=
  mkK _ (Some (100%nat, [])) None (100%nat, [key_id]) Vga.blank_screen false PICS.1 PICS.2 true []
    ([] :: race_schedule kbd_new presses) {[ key_id ]} [].

Definition key_executor : Executor kernel_future :=
  mkExecutor {[ key_id := mkTask key_id (KeyTask (KpAwait kbd_new)) ]} ∅.

Lemma race_machine_start presses :
  at_point (racing None [key_id]) ([] :: race_schedule kbd_new presses) (race_machine presses).
Proof.
  split_and!; try done. split; [split_and!; [done|done|exact blank_screen_wf]|].
  split; [done|]. by intros q [= <-].
Qed.

Lemma key_executor_waits : key_waits key_executor key_id kbd_new.
Proof.
  split; [split|reflexivity]; [|by intros i w; cbn; rewrite lookup_empty].
  intros i t. unfold key_executor. cbn [tasks]. rewrite lookup_singleton_Some. by intros [<- <-].
Qed.

(** How a run ended: [None] for a normal return. *)
Definition failure {A} (o : outcome A) : option string :=
  match o with
  | Done _ => None
  | Panicked msg => Some msg
  | Faulted => Some "fault"
  | Diverged => Some "out of fuel"
  end.

(** The run with a hundred key presses returns, one more brings the kernel down. *)
Lemma wakeup_race_overflows_witness :
  let go n := run_ready_tasks (Future0 := kernel_futures 200) 200 key_executor
                (race_machine (replicate n 65)) in
  failure (go 100%nat) = None ∧ failure (go 101%nat) = Some "task queue full".
Proof.
  pose proof (λ n Hk Hf, wakeup_race_overflows 200 200 key_executor key_id kbd_new None
    (replicate n 65) _ key_executor_waits (race_machine_start _) Hk Hf) as Ho.
  assert (∀ n : nat, (n < 199)%nat →
    (length (replicate n 65) < 200)%nat ∧ (1 + length (replicate n 65) < 200)%nat) as Hn
    by (intros n; rewrite length_replicate; lia).
  destruct (Hn 100%nat ltac:(lia)) as [Hk Hf], (Hn 101%nat ltac:(lia)) as [Hk' Hf'].
  specialize (Ho 100%nat Hk Hf) as H100. specialize (Ho 101%nat Hk' Hf') as H101.
  rewrite length_replicate in H100, H101. unfold QUEUE_CAPACITY in H100, H101. cbv zeta. split.
  - clear H101. destruct (run_ready_tasks _ _ _) as [[ex' s']|msg| |]; [done|lia|done..].
  - clear H100. destruct (run_ready_tasks _ _ _) as [[ex' s']|msg| |]; [lia| |done..].
    by destruct H101 as [-> _].
Defined.
