(* ===== verification/WakerRefs.v ===== *)
(** * The reference counts of wakers

    src/src/task/executor.rs gives two reasons for [waker_cache]; the second is that
    reference-counted wakers must not be freed inside interrupt handlers, where taking the
    allocator's lock could deadlock.  This file says what that takes: a waker is freed in
    a handler exactly if the handler takes it from [WAKER] when the cache no longer holds
    it.  Futures that are not registered any more when they finish ([KeepsWakers]) keep
    the promise under every schedule of interrupts, and the kernel's tasks are such
    futures; a future that finishes while its waker is registered breaks it. *)

From stdpp Require Import prelude gmap strings.
From S2P Require Import Prelude Vga AsyncLib Machine Interrupts Hoare Keyboard Task Executor.
From S2P Require Import Scheduler.

Section refs.
Context `{BuildProfile, AsyncLaws}.
Implicit Types (s : kstate).

Definition is_registered s (k : TaskId) : Prop := registered (WAKER s) = Some (TaskWaker k).

(** No handler has freed a waker, and none would now: the cache holds the registered one. *)
Definition refs_ok s : Prop :=
  freed_wakers s = [] ∧ ∀ k, is_registered s k → k ∈ cached_wakers s.

(** Code that leaves the cache alone and registers nothing. *)
Definition refs_step s s' : Prop :=
  cached_wakers s' = cached_wakers s ∧
  (registered (WAKER s') = registered (WAKER s) ∨ registered (WAKER s') = None) ∧
  (refs_ok s → freed_wakers s' = []).

Lemma refs_step_refl s : refs_step s s.
Proof. split_and!; [done|by left|by intros [? _]]. Qed.

Lemma refs_step_registered s s' k : refs_step s s' → is_registered s' k → is_registered s k.
Proof. unfold is_registered. intros (_ & [-> | ->] & _); done. Qed.

Lemma refs_step_ok s s' : refs_step s s' → refs_ok s → refs_ok s'.
Proof.
  intros Hs [Hf Hr]. pose proof Hs as (Hc & _ & Hfr). split; [by apply Hfr|].
  intros k Hk. rewrite Hc. by eapply Hr, refs_step_registered.
Qed.

Lemma refs_step_trans s1 s2 s3 : refs_step s1 s2 → refs_step s2 s3 → refs_step s1 s3.
Proof.
  intros H12 H23. pose proof H12 as (Hc & Hr & Hf). pose proof H23 as (Hc' & Hr' & Hf').
  split_and!; [congruence| |].
  - destruct Hr' as [-> | ->]; [done|by right].
  - intros Hok. apply Hf'. by eapply refs_step_ok.
Qed.

(** Every run of the program that returns is such a step. *)
Definition steps {A} (m : K A) : Prop := ∀ s a s', m s = Done (a, s') → refs_step s s'.

Lemma steps_ret {A} (a : A) : steps (mret a).
Proof. intros s b s' [= <- <-]. apply refs_step_refl. Qed.

Lemma steps_bind {A B} (m : K A) (f : A → K B) :
  steps m → (∀ a, steps (f a)) → steps (m ≫= f).
Proof.
  intros Hm Hf s b s'. unfold mbind, K_bind. destruct (m s) as [[a s1]| | |] eqn:E; [|done..].
  cbn. intros Ef. eapply refs_step_trans; [by eapply Hm|by eapply Hf].
Qed.

Lemma steps_modify f : (∀ s, refs_step s (f s)) → steps (modify f).
Proof. intros Hf s a s' [= <- <-]. apply Hf. Qed.

Lemma steps_gets {A} (f : kstate → A) : steps (gets f).
Proof. intros s a s' [= <- <-]. apply refs_step_refl. Qed.

Lemma steps_lift {A} (o : outcome A) : steps (lift o).
Proof. intros s a s'. unfold lift. destruct o; [|done..]. cbn. intros [= <- <-]. apply refs_step_refl. Qed.

Lemma steps_panic {A} msg : steps (kpanic (A := A) msg).
Proof. done. Qed.

Lemma steps_hlt_loop {A} : steps (hlt_loop (A := A)).
Proof. done. Qed.

(** An update of the other parts of the state. *)
Lemma refs_step_same s s' :
  cached_wakers s' = cached_wakers s → WAKER s' = WAKER s → freed_wakers s' = freed_wakers s →
  refs_step s s'.
Proof. intros Hc Hw Hf. split_and!; [done|left; by rewrite Hw|intros [? _]; congruence]. Qed.

#[local] Hint Resolve steps_ret steps_gets steps_lift steps_panic steps_hlt_loop : kernel.
#[local] Hint Extern 1 (steps (modify _)) => apply steps_modify; intros ?; by apply refs_step_same : kernel.
#[local] Hint Extern 2 (steps (_ ≫= _)) => apply steps_bind; [|intros ?] : kernel.

Lemma steps_writer_lock : steps writer_lock.
Proof.
  intros s a s'. unfold writer_lock. destruct (mutex_lock _); [|done..].
  intros [= <- <-]. by apply refs_step_same.
Qed.
#[local] Hint Resolve steps_writer_lock : kernel.

Lemma steps_vga_print_at point args : steps point → steps (vga_print_at point args).
Proof.
  intros Hp. unfold vga_print_at, without_interrupts, writer_unlock.
  apply steps_bind; [apply steps_gets|]. intros []; auto 12 with kernel.
Qed.

Lemma steps_handler_print args : steps (handler_print args).
Proof.
  apply steps_vga_print_at. intros s a s'. unfold gated. destruct (interrupt_flag s); [done|].
  intros [= <- <-]. apply refs_step_refl.
Qed.
#[local] Hint Resolve steps_handler_print : kernel.

Lemma steps_notify v : steps (notify_end_of_interrupt v).
Proof.
  intros s a s'. unfold notify_end_of_interrupt. destruct (mutex_lock _); [|done..].
  intros [= <- <-]. by apply refs_step_same.
Qed.
#[local] Hint Resolve steps_notify : kernel.

Lemma steps_wake w : steps (wake w).
Proof.
  intros s a s'. unfold wake. destruct w; [|intros [= <- <-]; apply refs_step_refl].
  destruct (queue_push _ _) as [[]]; [|done]. intros [= <- <-]. by apply refs_step_same.
Qed.

(** The handler takes the waker: while the cache holds it too, nothing is freed. *)
Lemma steps_atomic_wake : steps atomic_waker_wake.
Proof.
  intros s a s'. unfold atomic_waker_wake.
  destruct (waker_take_spec (WAKER s)) as (aw & -> & Haw). set (s1 := set_waker aw s).
  assert (registered (WAKER s1) = None) as Hn by exact Haw.
  destruct (registered (WAKER s)) as [w|] eqn:Hr.
  2: { intros [= <- <-]. split_and!; [done|by right|by intros [? _]]. }
  unfold mbind, K_bind. destruct (wake w s1) as [[[] s2]| | |] eqn:Ew; [|done..]. cbn.
  pose proof (steps_wake w s1 () s2 Ew) as (Hc2 & Hr2 & _).
  assert (registered (WAKER s2) = None) as Hn2 by (destruct Hr2 as [-> | ->]; done).
  assert (freed_wakers s2 = freed_wakers s) as Hf2.
  { unfold wake in Ew. destruct w; [|by injection Ew as <-].
    destruct (queue_push _ _) as [[]]; [|done]. by injection Ew as <-. }
  intros [= <- <-]. destruct w as [k|].
  - case_decide as Hk.
    + split_and!; [exact Hc2|by right|intros [? _]; congruence].
    + split_and!; [exact Hc2|by right|]. intros [_ Hreg]. destruct Hk. rewrite Hc2.
      by apply Hreg.
  - split_and!; [exact Hc2|by right|intros [? _]; congruence].
Qed.
#[local] Hint Resolve steps_atomic_wake : kernel.

Lemma steps_add_scancode sc : steps (add_scancode sc).
Proof.
  unfold add_scancode. apply steps_bind; [apply steps_gets|]. intros cell.
  destruct (cell_try_get cell) as [q|]; [|unfold println_str; auto with kernel].
  destruct (queue_push q sc) as [[] q']; [|unfold println_str; auto with kernel].
  auto with kernel.
Qed.
#[local] Hint Resolve steps_add_scancode : kernel.

Lemma steps_handler h info : steps (run_handler h info).
Proof. destruct h; cbn [run_handler]; unfold println_str, print_str; auto 10 with kernel. Qed.
#[local] Hint Resolve steps_handler : kernel.

Lemma steps_deliver_all l : steps (deliver_all l).
Proof.
  induction l as [|i l IH]; cbn [deliver_all]; [apply steps_ret|].
  apply steps_bind; [|by intros []]. unfold deliver, dispatch. auto 10 with kernel.
Qed.

(** No preemption point frees a waker, registers one or changes the cache. *)
Lemma steps_preempt : steps preempt.
Proof.
  intros s a s'. unfold preempt. destruct (interrupt_flag s).
  - intros E. apply steps_deliver_all in E. eapply refs_step_trans; [|exact E].
    by apply refs_step_same.
  - intros [= <- <-]. by apply refs_step_same.
Qed.

Lemma steps_vga_print args : steps (vga_print args).
Proof.
  apply steps_vga_print_at. intros s a s'. unfold interruptible.
  destruct (interrupt_flag s); [apply steps_preempt|]. intros [= <- <-]. apply refs_step_refl.
Qed.

End refs.

#[export] Hint Resolve steps_ret steps_gets steps_lift steps_panic steps_hlt_loop steps_vga_print
  steps_preempt : kernel.
#[export] Hint Extern 1 (steps (modify _)) =>
  apply steps_modify; intros ?; by apply refs_step_same : kernel.
#[export] Hint Extern 2 (steps (_ ≫= _)) => apply steps_bind; [|intros ?] : kernel.

(** ** What a future promises about its waker *)

Section futures.
Context `{BuildProfile, AsyncLaws}.
Implicit Types (s : kstate) (R : TaskId → Prop) (C : gset TaskId).

(** Partial correctness: what holds when the program returns. *)
Definition ptriple {A} (P : kstate → Prop) (m : K A) (Q : A → kstate → Prop) : Prop :=
  ∀ s a s', P s → m s = Done (a, s') → Q a s'.

Lemma ptriple_ret {A} (P : kstate → Prop) (a : A) (Q : A → kstate → Prop) :
  (∀ s, P s → Q a s) → ptriple P (mret a) Q.
Proof. intros HP s b s' Hs [= <- <-]. by apply HP. Qed.

Lemma ptriple_bind {A B} P (m : K A) (f : A → K B) M Q :
  ptriple P m M → (∀ a, ptriple (M a) (f a) Q) → ptriple P (m ≫= f) Q.
Proof.
  intros Hm Hf s b s' Hs. unfold mbind, K_bind. destruct (m s) as [[a s1]| | |] eqn:E; [|done..].
  cbn. intros Ef. eapply Hf; [by eapply Hm|exact Ef].
Qed.

Lemma ptriple_conseq {A} (P P' : kstate → Prop) (m : K A) (Q Q' : A → kstate → Prop) :
  (∀ s, P s → P' s) → (∀ a s, Q' a s → Q a s) → ptriple P' m Q' → ptriple P m Q.
Proof. intros HP HQ Hm s a s' Hs E. by eapply HQ, Hm; [apply HP|]. Qed.

(** While the task [k] is polled, the cache [C] holds its waker, and only its own and those
    of [R] may be registered. *)
Definition polling C (k : TaskId) (R : TaskId → Prop) s : Prop :=
  refs_ok s ∧ (cached_wakers s = C ∧ k ∈ C) ∧ ∀ j, is_registered s j → j = k ∨ R j.

Lemma polling_step {A} C k R (m : K A) : steps m → ptriple (polling C k R) m (λ _, polling C k R).
Proof.
  intros Hm s a s' (Hok & Hk & HR) E. apply Hm in E. split_and!; [by eapply refs_step_ok|..].
  - destruct E as [-> _]. apply Hk.
  - apply Hk.
  - intros j Hj. by eapply HR, refs_step_registered.
Qed.

(** [registers f] says that the waker of a task with this future may be registered.
    Polling keeps the bookkeeping right, and a task that finishes is not registered. *)
Class KeepsWakers (F : Type) `{!Future F} := {
  registers : F → Prop;
  poll_keeps f C k R :
    ptriple (λ s, refs_ok s ∧ (cached_wakers s = C ∧ k ∈ C) ∧
                  ∀ j, is_registered s j → (j = k ∧ registers f) ∨ (j ≠ k ∧ R j))
      (poll_future f (TaskWaker k))
      (λ '(p, f') s, refs_ok s ∧ cached_wakers s = C ∧
         ∀ j, is_registered s j → (j = k ∧ p = Pending ∧ registers f') ∨ (j ≠ k ∧ R j));
}.

Context `{!Future F, !KeepsWakers F}.
Implicit Types (ex : Executor F).

(** The references are those of the executor's cache, and a registered waker belongs to a
    task that still exists and may be registered. *)
Definition exec_refs ex s : Prop :=
  refs_ok s ∧ cached_wakers s = dom (waker_cache ex) ∧
  ∀ j, is_registered s j → ∃ t, tasks ex !! j = Some t ∧ registers (future t).

Lemma exec_refs_step {A} ex (m : K A) : steps m → ptriple (exec_refs ex) m (λ _, exec_refs ex).
Proof.
  intros Hm s a s' (Hok & Hc & HR) E. apply Hm in E. split; [by eapply refs_step_ok|].
  split; [by destruct E as [-> _]|]. intros j Hj. by eapply HR, refs_step_registered.
Qed.

(** Polling the task [i], with the updates of the cache around it. *)
Lemma poll_task_refs ex i t :
  exec_inv ex → tasks ex !! i = Some t →
  ptriple (exec_refs ex)
    (_ ← hold_waker i; '(p, t') ← poll t (TaskWaker i);
     match p with
     | Ready _ => _ ← release_waker i; mret (p, t')
     | Pending => mret (p, t')
     end)
    (λ '(p, t') s,
       let cache := <[i := TaskWaker i]> (waker_cache ex) in
       exec_refs (match p with
                  | Ready _ => mkExecutor (delete i (tasks ex)) (delete i cache)
                  | Pending => mkExecutor (<[i := t']> (tasks ex)) cache
                  end) s).
Proof.
  intros Hinv Ht s [p t'] s' ([Hf Hc] & Hd & HR).
  set (s1 := set_cached ({[ i ]} ∪ cached_wakers s) s).
  rewrite (bind_K_Done (hold_waker i) _ s () s1) by done.
  unfold poll, mbind, K_bind.
  destruct (poll_future (future t) (TaskWaker i) s1) as [[[p1 f1] s2]| | |] eqn:E; [|done..].
  apply (poll_keeps _ ({[ i ]} ∪ cached_wakers s) i
           (λ j, ∃ u, tasks ex !! j = Some u ∧ registers (future u))) in E.
  2: { split; [split; [exact Hf|]|split; [split; [done|set_solver]|]].
       - intros k Hk. change (k ∈ {[ i ]} ∪ cached_wakers s). apply elem_of_union_r. by apply Hc.
       - intros j Hj. destruct (HR j Hj) as (u & Hu & Hru). destruct (decide (j = i)) as [->|];
           [left|right; eauto]. by simplify_eq. }
  destruct E as ([Hf2 Hc2] & Hd2 & HR2). rewrite Hd in Hd2. destruct p1 as [[]|]; cbn.
  - intros [= <- _ <-]. split; [split; [exact Hf2|]|split]; cbn.
    + intros k Hk. change (k ∈ cached_wakers s2 ∖ {[ i ]}). apply elem_of_difference.
      split; [by apply Hc2|]. destruct (HR2 k Hk) as [(_ & ? & _)|[? _]]; [done|]. set_solver.
    + by rewrite Hd2, dom_delete_L, dom_insert_L.
    + intros j Hj. destruct (HR2 j Hj) as [(_ & ? & _)|[Hne (u & Hu & Hru)]]; [done|].
      exists u. by rewrite lookup_delete_ne.
  - intros [= <- <- <-]. split; [by split|]. cbn. split; [by rewrite dom_insert_L|]. intros j Hj.
    destruct (HR2 j Hj) as [(-> & _ & Hr)|[Hne (u & Hu & Hru)]].
    + eexists. split; [apply lookup_insert_eq|done].
    + exists u. by rewrite lookup_insert_ne.
Qed.

Lemma run_ready_tasks_refs fuel ex :
  exec_inv ex → ptriple (exec_refs ex) (run_ready_tasks fuel ex) exec_refs.
Proof.
  revert ex. induction fuel as [|fuel IH]; intros ex Hinv; [done|]. cbn [run_ready_tasks].
  eapply ptriple_bind; [apply exec_refs_step, steps_preempt|intros []].
  eapply ptriple_bind.
  { apply exec_refs_step. intros s a s'. unfold pop_task.
    destruct (queue_pop _). intros [= <- <-]. by apply refs_step_same. }
  intros [i|]; [|by apply ptriple_ret].
  destruct (tasks ex !! i) as [t|] eqn:Ht; [|by apply IH].
  cbv zeta. rewrite cached_waker by done. intros s ex' s' Hs E.
  pose proof (poll_task_refs ex i t Hinv Ht s) as Hp.
  unfold mbind, K_bind in E, Hp. cbn in E, Hp.
  destruct (poll t (TaskWaker i) _) as [[[p t'] s2]| | |] eqn:Ep; [|done..]. cbn in E, Hp.
  apply poll_id in Ep as Hid. destruct p as [[]|]; cbn in E, Hp.
  - refine (IH _ _ _ _ _ _ E); [by apply exec_inv_finish|exact (Hp _ _ Hs eq_refl)].
  - refine (IH _ _ _ _ _ _ E); [|exact (Hp _ _ Hs eq_refl)].
    pose proof (exec_inv_keep ex i t' Hinv) as Hk. rewrite cached_waker in Hk by done.
    apply Hk; [|by eexists]. rewrite Hid. by apply Hinv.
Qed.

Lemma steps_sleep_if_idle : steps sleep_if_idle.
Proof.
  unfold sleep_if_idle, sleep_check, enable_and_hlt.
  assert (steps hlt) as Hh.
  { intros s a s'. unfold hlt. case_bool_decide.
    - intros [= <- <-]. by apply refs_step_same.
    - set (s1 := set_irqs _ _ s). intros E. apply (refs_step_trans _ s1); [by apply refs_step_same|].
      refine (steps_bind preempt (λ _, mret true) steps_preempt _ _ _ _ E).
      intros. apply steps_ret. }
  apply steps_bind; [auto 10 with kernel|]. intros []; auto 10 with kernel.
Qed.

(** The whole main loop. *)
Lemma run_refs fuel ex :
  exec_inv ex → ptriple (exec_refs ex) (run fuel ex) (λ ex' s, exec_inv ex' ∧ exec_refs ex' s).
Proof.
  revert ex. induction fuel as [|fuel IH]; intros ex Hinv; [done|]. cbn [run].
  eapply (ptriple_bind _ _ _ (λ ex' s, exec_inv ex' ∧ exec_refs ex' s)).
  { intros s ex' s' Hs E. split; [by eapply run_ready_tasks_inv|].
    by eapply run_ready_tasks_refs. }
  intros ex'. intros s ex2 s' [Hinv' Hs].
  revert s ex2 s' Hs. change (ptriple (exec_refs ex')
    (awake ← sleep_if_idle; if awake : bool then run fuel ex' else mret ex')
    (λ ex' s, exec_inv ex' ∧ exec_refs ex' s)).
  eapply ptriple_bind; [apply exec_refs_step, steps_sleep_if_idle|].
  intros []; [by apply IH|by apply ptriple_ret].
Qed.

Lemma steps_push_task i msg : steps (push_task i msg).
Proof.
  intros s a s'. unfold push_task. destruct (queue_push _ _) as [[]]; [|done].
  intros [= <- <-]. by apply refs_step_same.
Qed.

Lemma spawn_refs ex t :
  exec_inv ex → ptriple (exec_refs ex) (spawn ex t) (λ ex' s, exec_inv ex' ∧ exec_refs ex' s).
Proof.
  intros Hinv. unfold spawn. destruct (tasks ex !! id t) eqn:Ht; [done|].
  intros s ex' s' (Hok & Hd & HR) E.
  assert (steps (_ ← preempt; _ ← push_task (id t) "queue full";
    mret (mkExecutor (<[id t:=t]> (tasks ex)) (waker_cache ex)))) as Hst.
  { auto 10 using steps_push_task with kernel. }
  pose proof (Hst _ _ _ E) as Hs.
  assert (ex' = mkExecutor (<[id t:=t]> (tasks ex)) (waker_cache ex)) as ->.
  { unfold mbind, K_bind in E. destruct (preempt s) as [[[] s1]| | |]; [|done..]. cbn in E.
    destruct (push_task _ _ s1) as [[[] s2]| | |]; [|done..]. by injection E as <-. }
  split; [|split; [by eapply refs_step_ok|split; [by destruct Hs as [-> _]|]]].
  - destruct Hinv as [Hi Hw]. split; cbn.
    + intros j u. rewrite lookup_insert_Some. naive_solver.
    + intros j w [-> ?]%Hw. split; [done|]. rewrite lookup_insert. by case_decide.
  - intros j Hj. destruct (HR j) as (u & Hu & Hru); [by eapply refs_step_registered|].
    exists u. split; [|done]. cbn. rewrite lookup_insert_ne; [done|]. by intros <-; simplify_eq.
Qed.

End futures.

(** ** The kernel's tasks *)

Section kernel.
Context `{BuildProfile, AsyncLaws, PcKeyboard}.
Implicit Types (s : kstate) (R : TaskId → Prop) (C : gset TaskId).

Lemma steps_pop_scancode : steps pop_scancode.
Proof.
  intros s a s'. unfold pop_scancode. destruct (cell_try_get _); [|done].
  destruct (queue_pop _). intros [= <- <-]. by apply refs_step_same.
Qed.

Lemma polling_register C k R :
  ptriple (polling C k R) (register_waker (TaskWaker k)) (λ _, polling C k R).
Proof.
  intros s a s' ([Hf _] & [<- Hk] & _) [= <- <-].
  assert (∀ j, is_registered (set_waker (waker_register (WAKER s) (TaskWaker k)) s) j → j = k) as Hj.
  { intros j. unfold is_registered. cbn. rewrite waker_register_spec. by intros [= ->]. }
  split; [split; [exact Hf|]|split; [by split|]]; intros j Hr; rewrite (Hj j Hr); [exact Hk|by left].
Qed.

Lemma steps_take_waker : steps take_waker.
Proof.
  apply steps_modify. intros s. destruct (waker_take_spec (WAKER s)) as (aw & E & Haw).
  rewrite E. split_and!; [done|right; exact Haw|by intros [? _]].
Qed.

Lemma polling_poll_next C k R :
  ptriple (polling C k R) (poll_next (TaskWaker k)) (λ p s, p ≠ Ready None ∧ polling C k R s).
Proof.
  unfold poll_next. eapply ptriple_bind; [apply polling_step, steps_preempt|intros []].
  eapply ptriple_bind; [apply polling_step, steps_pop_scancode|].
  assert (∀ p, p ≠ Ready None →
    ptriple (polling C k R) (mret p) (λ p s, p ≠ Ready (A := option Z) None ∧ polling C k R s)) as Hret
    by (intros p Hp; by apply ptriple_ret).
  intros [sc|]; [by apply Hret|].
  eapply ptriple_bind; [apply polling_step, steps_preempt|intros []].
  eapply ptriple_bind; [apply polling_register|intros []].
  eapply ptriple_bind; [apply polling_step, steps_preempt|intros []].
  eapply ptriple_bind; [apply polling_step, steps_pop_scancode|].
  intros [sc|]; [|by apply Hret].
  eapply ptriple_bind; [apply polling_step, steps_preempt|intros []].
  eapply ptriple_bind; [apply polling_step, steps_take_waker|intros []]. by apply Hret.
Qed.

Lemma steps_handle_scancode kb sc : steps (handle_scancode kb sc).
Proof.
  unfold handle_scancode. destruct (add_byte kb sc) as [[[e|]|] kb1]; [|auto with kernel..].
  destruct (process_keyevent kb1 e) as [[[c|c]|] kb2]; auto 10 with kernel.
Qed.

Lemma polling_keypress_loop fuel C k R kb :
  ptriple (polling C k R) (keypress_loop fuel (TaskWaker k) kb) (λ r s,
    r.1 = Pending ∧ polling C k R s).
Proof.
  revert kb. induction fuel as [|fuel IH]; intros kb; [done|]. cbn [keypress_loop].
  eapply ptriple_bind; [apply polling_poll_next|]. intros [[sc|]|].
  - eapply (ptriple_bind _ _ _ (λ _, polling C k R)); [|intros kb'; apply IH].
    eapply ptriple_conseq; [by intros s [_ Hs]|by intros a s Hs; exact Hs|].
    apply polling_step, steps_handle_scancode.
  - by intros s a s' [? _].
  - apply ptriple_ret. by intros s [_ Hs].
Qed.

Lemma polling_poll_keypresses fuel f C k R :
  ptriple (polling C k R) (poll_keypresses fuel f (TaskWaker k)) (λ r s,
    r.1 = Pending ∧ polling C k R s).
Proof.
  destruct f as [|kb|]; cbn [poll_keypresses]; [|apply polling_keypress_loop|done].
  eapply ptriple_bind; [apply polling_step, steps_preempt|intros []].
  eapply ptriple_bind; [apply polling_step|intros []; apply polling_keypress_loop].
  intros s a s'. unfold ScancodeStream_new. destruct (cell_try_init_once _ _) as [[]]; [|done].
  intros [= <- <-]. by apply refs_step_same.
Qed.

Lemma steps_poll_example f : steps (poll_example f).
Proof. destruct f; cbn [poll_example]; auto 10 with kernel. Qed.

(** The keyboard task never finishes, the example task never registers. *)
#[local] Program Instance kernel_keeps_wakers fuel :
    @KeepsWakers _ _ kernel_future (kernel_futures fuel) := {|
  registers f := match f with KeyTask _ => True | ExampleTask _ => False end;
|}.
Next Obligation.
  intros fuel f C k R s [p f'] s' (Hok & Hk & HR). cbn. destruct f as [f|f]; cbn [poll_kernel].
  - intros E. unfold mbind, K_bind in E.
    destruct (poll_example f s) as [[[p1 f1] s1]| | |] eqn:Ep; [|done..]. injection E as <- <- <-.
    apply steps_poll_example in Ep. split; [by eapply refs_step_ok|].
    split; [destruct Ep as [-> _]; apply Hk|]. intros j Hj.
    destruct (HR j) as [[_ []]|?]; [by eapply refs_step_registered|by right].
  - intros E. unfold mbind, K_bind in E.
    destruct (poll_keypresses fuel f (TaskWaker k) s) as [[[p1 f1] s1]| | |] eqn:Ep; [|done..].
    injection E as <- <- <-.
    apply (polling_poll_keypresses fuel f C k (λ j, j ≠ k ∧ R j)) in Ep as [Hpe (Hok' & [? _] & HR')].
    + cbn in Hpe. subst p1. split; [done|]. split; [done|]. intros j Hj.
      destruct (HR' j Hj) as [->|?]; auto.
    + split_and!; [done|apply Hk..|]. intros j Hj. destruct (HR j Hj) as [[-> _]|?]; auto.
Qed.

(** The tasks of the kernel, started with an empty cache and nothing registered: no waker
    is freed in a handler, up to the point where the CPU sleeps for good. *)
Lemma kernel_tasks_refs kfuel fuel :
  ptriple (λ s, refs_ok s ∧ cached_wakers s = ∅ ∧ registered (WAKER s) = None)
    (kernel_tasks kfuel fuel)
    (λ ex s, exec_inv ex ∧ exec_refs (KeepsWakers0 := kernel_keeps_wakers kfuel) ex s).
Proof.
  unfold kernel_tasks. eapply (ptriple_bind _ _ _ (λ ex s, exec_inv ex ∧ exec_refs ex s)).
  { intros s1 ex1 s2 (Hs1 & Hc1 & Hn1) [= <- <-]. split.
    - split; intros j ?; cbn; by rewrite lookup_empty.
    - split; [exact Hs1|]. split.
      { transitivity (∅ : gset TaskId); [exact Hc1|]. symmetry. apply dom_empty_L. }
      unfold is_registered. intros j Hj. cbn in Hj. congruence. }
  intros ex1. cbn [Task_new TaskId_new].
  eapply (ptriple_bind _ _ _ (λ ex s, exec_inv ex ∧ exec_refs ex s)).
  { intros s1 ex2 s2 [Hinv Hs]. exact (spawn_refs _ _ Hinv _ _ _ Hs). }
  intros ex2. eapply (ptriple_bind _ _ _ (λ ex s, exec_inv ex ∧ exec_refs ex s)).
  { intros s1 ex3 s2 [Hinv Hs]. exact (spawn_refs _ _ Hinv _ _ _ Hs). }
  intros ex3 s1 ex4 s2 [Hinv Hs]. exact (run_refs _ _ Hinv _ _ _ Hs).
Qed.

End kernel.

(** ** The limit *)

Section limit.
Context `{BuildProfile, AsyncLaws}.
Implicit Types (s : kstate).

(** The handler takes the last reference. *)
Lemma add_scancode_frees sc s s' k :
  is_registered s k → k ∉ cached_wakers s →
  (∃ q, cell_try_get (SCANCODE_QUEUE s) = Some q ∧ length (elems q) < capacity q)%nat →
  add_scancode sc s = Done ((), s') → freed_wakers s' = freed_wakers s ++ [k].
Proof.
  intros Hr Hk (q & Hq & Hlt). unfold add_scancode, gets, mbind, K_bind. cbn. rewrite Hq.
  pose proof (queue_push_spec q sc) as Hp. rewrite bool_decide_eq_true_2 in Hp by done.
  destruct Hp as (q' & -> & _ & _). cbn. unfold atomic_waker_wake. cbn.
  destruct (waker_take_spec (WAKER s)) as (aw & -> & _). rewrite Hr.
  unfold mbind, K_bind, wake. cbn. destruct (queue_push (task_queue s) k) as [[] tq]; [|done].
  cbn. unfold drop_waker, modify. cbn. case_decide; [done|]. by intros [= <-].
Qed.

Lemma notify_freed v s s' :
  notify_end_of_interrupt v s = Done ((), s') → freed_wakers s' = freed_wakers s.
Proof.
  unfold notify_end_of_interrupt. destruct (mutex_lock _); [|done..]. by intros [= <-].
Qed.

Lemma deliver_key_frees sc s s' k :
  is_registered s k → k ∉ cached_wakers s →
  (∃ q, cell_try_get (SCANCODE_QUEUE s) = Some q ∧ length (elems q) < capacity q)%nat →
  deliver (KeyboardIrq sc) s = Done ((), s') → freed_wakers s' = freed_wakers s ++ [k].
Proof.
  intros Hr Hk Hq. unfold deliver, dispatch. rewrite irq_entry. cbn [entry_handler].
  unfold gets, modify, run_handler, mbind, K_bind. cbn.
  destruct (add_scancode sc (set_flag false s)) as [[[] s1]| | |] eqn:E1; [|done..]. cbn.
  destruct (notify_end_of_interrupt _ s1) as [[[] s2]| | |] eqn:E2; [|done..]. cbn.
  intros [= <-]. cbn. rewrite (notify_freed _ _ _ E2).
  exact (add_scancode_frees sc (set_flag false s) s1 k Hr Hk Hq E1).
Qed.

Context `{!Future F}.
Implicit Types (ex : Executor F).

(** An iteration of [run_ready_tasks] in which a task finishes: the executor forgets the
    task and its waker. *)
Lemma run_ready_finish fuel ex i t t' s s0 s1 s2 :
  exec_inv ex → tasks ex !! i = Some t →
  preempt s = Done ((), s0) → pop_task s0 = Done (Some i, s1) →
  poll t (TaskWaker i) (set_cached ({[ i ]} ∪ cached_wakers s1) s1) = Done (Ready (), t', s2) →
  run_ready_tasks (S fuel) ex s =
    run_ready_tasks fuel
      (mkExecutor (delete i (tasks ex)) (delete i (<[i := TaskWaker i]> (waker_cache ex))))
      (set_cached (cached_wakers s2 ∖ {[ i ]}) s2).
Proof.
  intros Hinv Ht E0 E1 E2. cbn [run_ready_tasks].
  rewrite (bind_K_Done _ _ _ _ _ E0), (bind_K_Done _ _ _ _ _ E1), Ht. cbv zeta.
  rewrite cached_waker by done.
  rewrite (bind_K_Done (hold_waker i) _ s1 () (set_cached ({[ i ]} ∪ cached_wakers s1) s1)) by done.
  rewrite (bind_K_Done _ _ _ _ _ E2).
  by rewrite (bind_K_Done (release_waker i) _ s2 () (set_cached (cached_wakers s2 ∖ {[ i ]}) s2)).
Qed.

(** C35: the cache of the executor does not keep its promise for every task.  In an
    iteration of [run_ready_tasks], for any futures and whatever interrupts came, let the
    task that was popped finish while [WAKER] holds its waker.  Then the executor goes on
    without the task and its cached waker, so that [WAKER] is left as the only owner; if
    the next interrupt is a key press and there is room for its scancode and for the
    task's id, it is handled without an error, and the waker is freed inside its handler. *)
Theorem finished_waker_freed_in_handler fuel ex i t t' l sc s s0 s1 s2 :
  exec_inv ex → tasks ex !! i = Some t →
  preempt s = Done ((), s0) → pop_task s0 = Done (Some i, s1) →
  poll t (TaskWaker i) (set_cached ({[ i ]} ∪ cached_wakers s1) s1) = Done (Ready (), t', s2) →
  machine_ok s2 → is_registered s2 i →
  v_scancodes (get_view s2) = Some l → (length l < QUEUE_CAPACITY)%nat →
  (length (v_tasks (get_view s2)) < QUEUE_CAPACITY)%nat →
  ∃ ex' s3 s4, run_ready_tasks (S fuel) ex s = run_ready_tasks fuel ex' s3 ∧
    tasks ex' = delete i (tasks ex) ∧ get_view s3 = get_view s2 ∧
    freed_wakers s3 = freed_wakers s2 ∧
    deliver (KeyboardIrq sc) s3 = Done ((), s4) ∧ freed_wakers s4 = freed_wakers s3 ++ [i].
Proof.
  intros Hinv Ht E0 E1 E2 Hok Hreg Hsc Hl Hts.
  set (s3 := set_cached (cached_wakers s2 ∖ {[ i ]}) s2).
  pose proof (deliver_spec (KeyboardIrq sc) s3 Hok) as Hd.
  change (get_view s3) with (get_view s2) in Hd. cbn [view_irq] in Hd.
  rewrite Hsc, bool_decide_eq_true_2 in Hd by done.
  change (v_waker (get_view s2)) with (registered (WAKER s2)) in Hd. rewrite Hreg in Hd.
  cbn [view_wake] in Hd. rewrite bool_decide_eq_true_2 in Hd by done. destruct Hd as (s4 & Ed & _).
  eexists _, s3, s4. split_and!; [by eapply run_ready_finish|done|done|done|exact Ed|].
  apply (deliver_key_frees sc s3 s4 i Hreg); [cbn; set_solver| |exact Ed].
  destruct Hok as (_ & _ & Hcs). unfold get_view in Hsc. cbn in *.
  destruct (cell_try_get (SCANCODE_QUEUE s2)) as [q|]; [|done].
  exists q. split; [done|]. rewrite (Hcs q eq_refl). by injection Hsc as ->.
Qed.

End limit.

(** ** Witness *)

#[local] Existing Instances dev_profile list_lib list_laws echo_keyboard.

#[local] Instance register_once : Future unit := {|
  poll_future _ w := _ ← preempt; _ ← register_waker w; mret (Ready (), ());
|}.

Definition finishing_executor : Executor unit :=
  mkExecutor {[ key_id := mkTask key_id () ]} ∅.

Definition finishing_machine (irqs : list (list irq)) : kstate :=
  mkK _ (Some (100%nat, [])) None (100%nat, [key_id]) Vga.blank_screen false PICS.1 PICS.2 true []
    irqs ∅ [].

Lemma finishing_executor_inv : exec_inv finishing_executor.
Proof.
  split; intros i t; unfold finishing_executor; cbn [tasks waker_cache].
  - rewrite lookup_singleton_Some. by intros [<- <-].
  - by rewrite lookup_empty.
Qed.

(** The task's only poll registers its waker and finishes. *)
Definition finishing_polled : kstate :=
  mkK _ (Some (100%nat, [])) (Some (TaskWaker key_id)) (100%nat, []) Vga.blank_screen false
    PICS.1 PICS.2 true [] [] {[ key_id ]} [].

Lemma finished_waker_freed_in_handler_witness :
  ∃ ex' s3 s4, run_ready_tasks 2 finishing_executor (finishing_machine []) =
      run_ready_tasks 1 ex' s3 ∧
    tasks ex' = delete key_id (tasks finishing_executor) ∧
    get_view s3 = get_view finishing_polled ∧ freed_wakers s3 = [] ∧
    deliver (KeyboardIrq 65) s3 = Done ((), s4) ∧ freed_wakers s4 = freed_wakers s3 ++ [key_id].
Proof.
  refine (finished_waker_freed_in_handler 1 finishing_executor key_id (mkTask key_id ())
    (mkTask key_id ()) [] 65 (finishing_machine []) _ _ finishing_polled finishing_executor_inv
    eq_refl eq_refl eq_refl eq_refl _ eq_refl eq_refl ltac:(vm_compute; lia)
    ltac:(vm_compute; lia)).
  split; [split_and!; [done|done|exact blank_screen_wf]|]. split; [done|]. by intros q [= <-].
Defined.

(** The same with a key press that arrives while the executor goes to sleep. *)
Lemma finishing_run :
  match run 10 finishing_executor (finishing_machine [[]; []; []; [KeyboardIrq 65]]) with
  | Done (ex, s') => (freed_wakers s', bool_decide (tasks ex = ∅))
  | _ => ([], false)
  end = ([key_id], true).
Proof. vm_compute. reflexivity. Qed.
