(* ===== verification/Boot.v ===== *)
(** * Bringing up the CPU (src/src/gdt.rs, [init] of src/src/lib.rs)

    The task state segment with the double fault stack, the global descriptor table,
    and the order in which [init] loads them and enables interrupts.  The descriptor
    table type is the [x86_64] crate's, outside the repository: a parameter. *)

From stdpp Require Import prelude gmap strings.
From S2P Require Import Prelude Vga HeapInit AsyncLib Machine Interrupts.

(** The stack addresses of the interrupt stack table; the table has seven entries. *)
Record TaskStateSegment := mkTss { interrupt_stack_table : list Z }.

Definition TaskStateSegment_new : TaskStateSegment := mkTss (replicate 7 0).

(** The segments the kernel puts into its table. *)
Inductive Descriptor := kernel_code_segment | tss_segment (tss : TaskStateSegment).

(** [GlobalDescriptorTable::new], [add_entry], and the segment a selector selects when
    the table is loaded. *)
Class X86Gdt := {
  GlobalDescriptorTable : Type;
  gdt_new : GlobalDescriptorTable;
  add_entry : GlobalDescriptorTable → Descriptor → Z * GlobalDescriptorTable;
  selected : GlobalDescriptorTable → Z → option Descriptor;
}.

(** An added entry is found under the returned selector, earlier ones stay. *)
Class X86GdtLaws `{X86Gdt} := {
  add_entry_new g d : selected (add_entry g d).2 (add_entry g d).1 = Some d;
  add_entry_old g d sel d' : selected g sel = Some d' → selected (add_entry g d).2 sel = Some d';
}.

Definition STACK_SIZE : Z := 4096 * 5.

Record Selectors := mkSelectors { code_selector : Z; tss_selector : Z }.

(** The CPU's registers as far as the kernel sets or reads them; the interrupt flag is
    part of the machine state.  [cr3] is the start of the physical frame of the active
    level 4 page table.  The interrupt table in use names handlers from [Hd]. *)
Record cpu_with `{X86Gdt} (Hd : Type) := mkCpu {
  gdtr : option GlobalDescriptorTable;
  cs : option Z;
  tr : option Z;
  idtr : option (gmap nat (idt_entry Hd));
  cr3 : Z;
}.
Arguments mkCpu {_ Hd}.
Arguments gdtr {_ Hd}.
Arguments cs {_ Hd}.
Arguments tr {_ Hd}.
Arguments idtr {_ Hd}.
Arguments cr3 {_ Hd}.

(** With the kernel's handlers. *)
Abbreviation cpu := (cpu_with handler).

Section boot.
Context `{X86Gdt, X86Virt, AsyncLib} {Hd : Type}.

(** Where the static [STACK] lies. *)
Variable STACK : Z.

Abbreviation booting := (cpu_with Hd * kstate)%type.

Definition on_machine {A} (f : K A) : stM booting A := λ s,
  '(r, k) ← f s.2; Done (r, (s.1, k)).
Definition on_cpu (f : cpu_with Hd → outcome (cpu_with Hd)) : stM booting unit := λ s,
  c ← f s.1; Done ((), (c, s.2)).

(** The static [TSS]. *)
Definition TSS : outcome TaskStateSegment :=
  let tss := TaskStateSegment_new in
  stack_start ← virt_addr_new STACK;
  stack_end ← virt_add stack_start STACK_SIZE;
  Done (mkTss (<[Z.to_nat DOUBLE_FAULT_IST_INDEX := stack_end]> (interrupt_stack_table tss))).

(** The static [GDT]. *)
Definition GDT : outcome (GlobalDescriptorTable * Selectors) :=
  let gdt := gdt_new in
  let '(code_selector, gdt) := add_entry gdt kernel_code_segment in
  tss ← TSS;
  let '(tss_selector, gdt) := add_entry gdt (tss_segment tss) in
  Done (gdt, mkSelectors code_selector tss_selector).

(** [lgdt]; loading a selector into CS or the task register faults unless the table in
    use has a segment of the right kind there. *)
Definition load_gdt : stM booting unit := on_cpu (λ c,
  '(gdt, _) ← GDT; Done (mkCpu (Some gdt) (cs c) (tr c) (idtr c) (cr3 c))).
Definition set_cs : stM booting unit := on_cpu (λ c,
  '(_, selectors) ← GDT;
  let sel := code_selector selectors in
  match g ← gdtr c; selected g sel with
  | Some kernel_code_segment => Done (mkCpu (gdtr c) (Some sel) (tr c) (idtr c) (cr3 c))
  | _ => Faulted
  end).
Definition load_tss : stM booting unit := on_cpu (λ c,
  '(_, selectors) ← GDT;
  let sel := tss_selector selectors in
  match g ← gdtr c; selected g sel with
  | Some (tss_segment _) => Done (mkCpu (gdtr c) (cs c) (Some sel) (idtr c) (cr3 c))
  | _ => Faulted
  end).

(** [gdt::init] *)
Definition gdt_init : list (stM booting unit) := [load_gdt; set_cs; load_tss].

(** [lidt] *)
Definition load_idt (idt : gmap nat (idt_entry Hd)) : stM booting unit := on_cpu (λ c,
  Done (mkCpu (gdtr c) (cs c) (tr c) (Some idt) (cr3 c))).

(** [PICS.lock().initialize()] *)
Definition initialize_pics : stM booting unit := on_machine (λ s,
  x ← mutex_lock (pics_mutex s);
  Done ((), set_pics (pics_initialize (pics s)) (mutex_unlock x) s)).

(** [interrupts::enable()] *)
Definition enable_interrupts : stM booting unit := on_machine (modify (set_flag true)).

Fixpoint run_steps (steps : list (stM booting unit)) : stM booting unit :=
  match steps with
  | [] => mret ()
  | step :: steps' => _ ← step; run_steps steps'
  end.

(** The segments are loaded: the code segment is the kernel's, and the task state segment
    in use has a stack for double faults. *)
Definition segments_loaded (c : cpu_with Hd) : Prop :=
  ∃ g tss cs_sel tr_sel,
    gdtr c = Some g ∧ cs c = Some cs_sel ∧ selected g cs_sel = Some kernel_code_segment ∧
    tr c = Some tr_sel ∧ selected g tr_sel = Some (tss_segment tss) ∧
    interrupt_stack_table tss !! Z.to_nat DOUBLE_FAULT_IST_INDEX = Some (STACK + STACK_SIZE).

(** *** Exceptions

    The stack a handler runs on: that of the interrupted code or one of the table's. *)
Inductive handler_stack := CurrentStack | InterruptStack (top : Z).

Definition current_tss (c : cpu_with Hd) : option TaskStateSegment :=
  g ← gdtr c; sel ← tr c;
  match selected g sel with Some (tss_segment tss) => Some tss | _ => None end.

(** How the CPU enters the handler of a vector; [stack_ok] says whether the current stack
    has room for the stack frame.  Nothing if there is no handler, or no stack for it. *)
Definition enter_handler (c : cpu_with Hd) (stack_ok : bool) (vector : nat)
    : option (Hd * handler_stack) :=
  idt ← idtr c; e ← idt !! vector;
  match stack_index e with
  | Some i =>
      tss ← current_tss c; top ← interrupt_stack_table tss !! Z.to_nat i;
      Some (entry_handler e, InterruptStack top)
  | None => if stack_ok then Some (entry_handler e, CurrentStack) else None
  end.

(** A failure to enter a handler is a double fault; a second one resets the machine. *)
Definition raise_exception (c : cpu_with Hd) (stack_ok : bool) (vector : nat)
    : option (Hd * handler_stack) :=
  match enter_handler c stack_ok vector with
  | Some r => Some r
  | None => enter_handler c stack_ok double_fault_vector
  end.

End boot.

Section init.
Context `{X86Gdt, X86Virt, AsyncLib}.
Variable STACK : Z.

(** [interrupts::init_idt] *)
Definition init_idt : stM (cpu * kstate) unit := load_idt IDT.

(** [init], as the sequence of its steps. *)
Definition init_steps : list (stM (cpu * kstate) unit) :=
  gdt_init STACK ++ [init_idt; initialize_pics; enable_interrupts].

Definition init : stM (cpu * kstate) unit := run_steps init_steps.

(** The CPU can take any interrupt. *)
Definition ready_for_interrupts (c : cpu) : Prop :=
  idtr c = Some IDT ∧ segments_loaded STACK c.

End init.

Section proofs.
Context `{X86GdtLaws, X86VirtLaws, AsyncLaws}.
Variable STACK : Z.
Hypothesis STACK_canonical : 0 ≤ STACK ∧ STACK + STACK_SIZE < 2 ^ 47.

(** The descriptor table holds both segments under the selectors kept with it. *)
Lemma GDT_spec :
  ∃ g sels tss, GDT STACK = Done (g, sels) ∧
    selected g (code_selector sels) = Some kernel_code_segment ∧
    selected g (tss_selector sels) = Some (tss_segment tss) ∧
    interrupt_stack_table tss !! Z.to_nat DOUBLE_FAULT_IST_INDEX = Some (STACK + STACK_SIZE).
Proof.
  unfold STACK_SIZE in *. unfold GDT, TSS. run virt_addr_new_ok by lia.
  unfold STACK_SIZE. run virt_add_ok by lia.
  pose proof (add_entry_new gdt_new kernel_code_segment) as Hcode.
  destruct (add_entry gdt_new kernel_code_segment) as [csel g1]. cbn [fst snd] in Hcode.
  set (tss := mkTss _). pose proof (add_entry_new g1 (tss_segment tss)) as Htss.
  pose proof (add_entry_old g1 (tss_segment tss) csel kernel_code_segment Hcode) as Hcode'.
  run. destruct (add_entry g1 (tss_segment tss)) as [tsel g2].
  exists g2, (mkSelectors csel tsel), tss. by split_and!.
Qed.

(** Loading the segments leaves the interrupt table and the page table alone. *)
Lemma gdt_init_spec {Hd} (c : cpu_with Hd) k :
  ∃ g cs_sel tr_sel,
    let c' := mkCpu (Some g) (Some cs_sel) (Some tr_sel) (idtr c) (cr3 c) in
    run_steps (gdt_init STACK) (c, k) = Done ((), (c', k)) ∧ segments_loaded STACK c'.
Proof.
  destruct GDT_spec as (g & sels & tss & E & Hc & Ht & Hi).
  exists g, (code_selector sels), (tss_selector sels). split; [|exists g, tss; by eexists _, _].
  cbn [gdt_init run_steps]. unfold mbind, stM_bind, load_gdt, set_cs, load_tss, on_cpu.
  repeat (cbn; rewrite ?E, ?Hc, ?Ht). done.
Qed.

(** Entering a handler that has the double fault stack. *)
Lemma enter_on_double_fault_stack {Hd} (c : cpu_with Hd) idt h stack_ok vector :
  segments_loaded STACK c → idtr c = Some idt →
  idt !! vector = Some (mkEntry h (Some DOUBLE_FAULT_IST_INDEX)) →
  enter_handler c stack_ok vector = Some (h, InterruptStack (STACK + STACK_SIZE)).
Proof.
  intros (g & tss & csel & tsel & Hg & _ & _ & Ht & Htss & Hst) Hidt He.
  unfold enter_handler, current_tss. rewrite Hidt, Hg, Ht. cbn. rewrite He, Htss. cbn.
  by rewrite Hst.
Qed.

(** The state after each step. *)
Lemma init_steps_spec c k :
  locked (pics_mutex k) = false →
  ∃ g sels x,
    let c1 := mkCpu (Some g) (cs c) (tr c) (idtr c) (cr3 c) in
    let c2 := mkCpu (Some g) (Some (code_selector sels)) (tr c) (idtr c) (cr3 c) in
    let c3 := mkCpu (Some g) (Some (code_selector sels)) (Some (tss_selector sels)) (idtr c)
                (cr3 c) in
    let c4 := mkCpu (Some g) (Some (code_selector sels)) (Some (tss_selector sels)) (Some IDT)
                (cr3 c) in
    let k5 := set_pics (pics_initialize (pics k)) x k in
    let k6 := set_flag true k5 in
    (∀ n, run_steps (take n (init_steps STACK)) (c, k) =
          Done ((), default (c4, k6)
            ([(c, k); (c1, k); (c2, k); (c3, k); (c4, k); (c4, k5)] !! n))) ∧
    ready_for_interrupts STACK c4 ∧ locked x = false.
Proof.
  intros Hl. destruct GDT_spec as (g & sels & tss & E & Hc & Ht & Hi).
  pose proof (mutex_lock_spec (pics_mutex k)) as Hm. rewrite Hl in Hm.
  destruct Hm as (x & Ex & _). exists g, sels, (mutex_unlock x). cbn zeta.
  split_and!; [|split; [done|]; exists g, tss, (code_selector sels), (tss_selector sels);
                by split_and!|apply mutex_unlock_spec].
  intros n. destruct n as [|[|[|[|[|[|n]]]]]]; cbn [take init_steps gdt_init app run_steps lookup];
    unfold mbind, stM_bind, load_gdt, set_cs, load_tss, init_idt, load_idt, initialize_pics,
      enable_interrupts, on_cpu, on_machine; repeat (cbn; rewrite ?take_nil, ?E, ?Hc, ?Ht, ?Ex); done.
Qed.

(** All that a run of [init] changes beside the CPU. *)
Lemma init_changes b r b' :
  init STACK b = Done (r, b') →
  ∃ x, b'.2 = set_flag true (set_pics (pics_initialize (pics b.2)) x b.2).
Proof.
  assert (∀ (f : cpu → outcome cpu) (b : cpu * kstate) r b',
    on_cpu f b = Done (r, b') → b'.2 = b.2) as Hcpu.
  { intros f b0 r0 b0'. unfold on_cpu. destruct (f b0.1); [|done..]. run. by intros [= <- <-]. }
  unfold init, init_steps, gdt_init. cbn [app run_steps]. unfold mbind, stM_bind.
  destruct (load_gdt _ b) as [[? b1]| | |] eqn:E1; [|done..]. run.
  destruct (set_cs STACK b1) as [[? b2]| | |] eqn:E2; [|done..]. run.
  destruct (load_tss STACK b2) as [[? b3]| | |] eqn:E3; [|done..]. run.
  destruct (init_idt b3) as [[? b4]| | |] eqn:E4; [|done..]. run.
  unfold load_gdt, set_cs, load_tss, init_idt, load_idt in E1, E2, E3, E4.
  apply Hcpu in E1, E2, E3, E4. rewrite <-E1, <-E2, <-E3, <-E4.
  unfold initialize_pics, on_machine. destruct (mutex_lock _) as [x| | |]; [|done..]. run.
  intros [= _ <-]. by eexists.
Qed.

(** C38: [init] brings the CPU up in a safe order: entered with interrupts disabled, each
    of its steps returns, and after every one that leaves interrupts enabled the CPU is
    ready to take any interrupt, including a double fault on its own stack of 20 KiB.  At
    the end interrupts are enabled, the lines of the controllers are placed at the
    vectors 32 and 40, their lock is free and nothing else of the machine has changed. *)
Theorem init_enables_interrupts_last c k :
  interrupt_flag k = false → pics k = PICS.1 → locked (pics_mutex k) = false →
  (∀ n, ∃ c' k', run_steps (take n (init_steps STACK)) (c, k) = Done ((), (c', k')) ∧
                 (interrupt_flag k' = true → ready_for_interrupts STACK c')) ∧
  ∃ c' x, let k' := set_flag true (set_pics (pics_initialize (pics k)) x k) in
    init STACK (c, k) = Done ((), (c', k')) ∧ locked x = false ∧
    remapped (pics k') = Some (PIC_1_OFFSET, PIC_2_OFFSET) ∧
    ready_for_interrupts STACK c' ∧ cr3 c' = cr3 c.
Proof.
  intros Hf Hp Hl. destruct (init_steps_spec c k Hl) as (g & sels & x & Hs & Hr & Hx).
  cbn zeta in *. split.
  - intros n. rewrite (Hs n). destruct (_ !! n) as [[c' k']|] eqn:En; cbn; eexists _, _.
    2: by split.
    split; [done|]. apply list_elem_of_lookup_2 in En. cbn. intros Hft.
    set_unfold in En. naive_solver congruence.
  - eexists _, x. split_and!; [apply (Hs 6%nat)|done| |done|done].
    cbn. rewrite Hp. apply pics_initialize_spec.
Qed.

(** C15: once the CPU is ready for interrupts, no exception or interrupt resets the
    machine.  While the current stack has room, every vector reaches its handler, or the
    double fault handler if it has none.  When the stack has overflowed, every vector,
    in particular the page fault that the overflow raises, reaches the double fault
    handler.  The double fault handler always runs on its own stack, at whose end of
    20 KiB it starts. *)
Theorem stack_overflow_is_handled c stack_ok vector :
  ready_for_interrupts STACK c →
  ∃ h st, raise_exception c stack_ok vector = Some (h, st) ∧
    h = (if stack_ok then
           match IDT !! vector with Some e => entry_handler e | None => double_fault_handler end
         else double_fault_handler) ∧
    st = (if decide (h = double_fault_handler) then InterruptStack (STACK + STACK_SIZE)
          else CurrentStack).
Proof.
  intros [Hidt Hseg].
  assert (∀ vector e, IDT !! vector = Some e →
    enter_handler c stack_ok vector =
      if decide (entry_handler e = double_fault_handler)
      then Some (double_fault_handler, InterruptStack (STACK + STACK_SIZE))
      else if stack_ok then Some (entry_handler e, CurrentStack) else None) as Henter.
  { intros v e He. destruct (decide (e = mkEntry double_fault_handler
      (Some DOUBLE_FAULT_IST_INDEX))) as [->|Hne].
    { cbn. rewrite decide_True by done. by eapply enter_on_double_fault_stack. }
    unfold enter_handler. rewrite Hidt. cbn. rewrite He. cbn.
    unfold IDT in He. rewrite !lookup_insert_Some, lookup_empty in He.
    destruct He as [[_ <-]|[_ [[_ <-]|[_ [[_ <-]|[_ [[_ <-]|[_ [[_ <-]|[_ ?]]]]]]]]]];
      cbn [stack_index entry_handler]; done. }
  assert (IDT !! double_fault_vector =
    Some (mkEntry double_fault_handler (Some DOUBLE_FAULT_IST_INDEX))) as Hdf by done.
  unfold raise_exception. rewrite (Henter _ _ Hdf). cbn [entry_handler].
  destruct (IDT !! vector) as [e|] eqn:He.
  - rewrite (Henter _ _ He). case_decide as Hd.
    + rewrite Hd. eexists _, _. split; [done|]. by destruct stack_ok.
    + destruct stack_ok; eexists _, _; (split; [done|split; [done|]]); by case_decide.
  - unfold enter_handler. rewrite Hidt. cbn. rewrite He. cbn.
    eexists _, _. split; [done|]. by destruct stack_ok.
Qed.

End proofs.

(** ** Witness: a table as a list of entries *)

#[local] Existing Instances list_lib list_laws virt_model virt_model_laws.

Definition list_gdt : X86Gdt := {|
  GlobalDescriptorTable := list Descriptor;
  gdt_new := [];
  add_entry g d := (Z.of_nat (length g), g ++ [d]);
  selected g sel := g !! Z.to_nat sel;
|}.

Lemma list_gdt_laws : @X86GdtLaws list_gdt.
Proof.
  split; cbn.
  - intros g d. by rewrite Nat2Z.id, list_lookup_middle.
  - intros g d sel d' Hs. by apply lookup_app_l_Some.
Qed.

#[local] Existing Instances list_gdt list_gdt_laws.

Definition reset_cpu : cpu := mkCpu None None None None 0x1000.
Definition reset_machine : kstate := boot_state (buffer Vga.blank_screen) [].

Lemma init_enables_interrupts_last_witness :
  (∀ n, ∃ c' k', run_steps (take n (init_steps 0x10000)) (reset_cpu, reset_machine) =
                   Done ((), (c', k')) ∧
                 (interrupt_flag k' = true → ready_for_interrupts 0x10000 c')) ∧
  ∃ c' x,
    let k' := set_flag true (set_pics (pics_initialize (pics reset_machine)) x reset_machine) in
    init 0x10000 (reset_cpu, reset_machine) = Done ((), (c', k')) ∧ locked x = false ∧
    remapped (pics k') = Some (PIC_1_OFFSET, PIC_2_OFFSET) ∧
    ready_for_interrupts 0x10000 c' ∧ cr3 c' = cr3 reset_cpu.
Proof.
  apply (init_enables_interrupts_last 0x10000 ltac:(done) reset_cpu reset_machine); done.
Defined.

Definition ready_cpu : cpu :=
  mkCpu (Some [kernel_code_segment; tss_segment (mkTss (0x15000 :: replicate 6 0))]) (Some 0)
    (Some 1) (Some IDT) 0x1000.

(** A stack overflow on it. *)
Lemma stack_overflow_is_handled_witness :
  ∃ h st, raise_exception ready_cpu false page_fault_vector = Some (h, st) ∧
    h = double_fault_handler ∧
    st = (if decide (h = double_fault_handler) then InterruptStack (0x10000 + STACK_SIZE)
          else CurrentStack).
Proof.
  apply (stack_overflow_is_handled 0x10000 ready_cpu false page_fault_vector).
  split; [done|]. eexists _, _, _, _. split_and!; done.
Defined.
