(* ===== verification/KernelMain.v ===== *)
(** * The kernel's entry point ([kernel_main] of src/src/main.rs)

    [kernel_main] as one run over the whole machine: the greeting, [init], the page
    tables, the heap, the demonstration of the heap collections, and the tasks under the
    executor, with interrupts arriving before every line that is printed and at every
    preemption point of the executor.  The theorem composes the results about the
    components: whatever the schedule of interrupts, the kernel ends up asleep with all
    input handled and its heap objects intact, or panics for one of three reasons.

    The executor, the tasks and the scancode stream keep their own data on the heap too,
    in collections of other crates.  [kernel_main] makes the [requests] of these
    collections to the global allocator, an argument over which the theorems quantify, in
    one place before the tasks run: neither the tasks' code in the repository nor an
    interrupt handler looks at the heap ([no_waker_freed_in_handlers]), so that it makes no
    difference between which interrupts a request is made, except for when the kernel
    panics if one cannot be served. *)

From stdpp Require Import prelude gmap strings pretty.
From S2P Require Import Prelude Layout Memory Access GlobalAlloc AsyncLib Locked.
From S2P Require Import LinkedList FixedSizeBlock FallbackModel Vga Frames HeapInit Paging.
From S2P Require Import Collections HeapTests HeapTraffic Machine Interrupts Hoare Keyboard Task Executor.
From S2P Require Import Scheduler Boot.

(** ** Formatting *)

(** The lower case hexadecimal digits of a [usize], at most sixteen. *)
Fixpoint hex_digits (fuel : nat) (n : Z) (acc : list Z) : list Z :=
  match fuel with
  | O => acc
  | S fuel' =>
      let d := n mod 16 in
      let c := if bool_decide (d < 10) then 48 + d else 87 + d in
      if bool_decide (n / 16 = 0) then c :: acc else hex_digits fuel' (n / 16) (c :: acc)
  end.

(** [{:p}] *)
Definition fmt_pointer (p : Z) : list Z := bytes "0x" ++ hex_digits 16 p [].

(** [{}] of an integer *)
Definition fmt_usize (n : Z) : list Z := bytes (pretty n).

(** [bootloader::BootInfo] *)
Record BootInfo := mkBootInfo { memory_map : list MemoryRegion; physical_memory_offset : Z }.

Section kernel.
Context `{BuildProfile, DebugLayout, AsyncLib, PcKeyboard, X86Gdt, X86Virt, X86Phys}.
Context `{FallbackHeap Heap, !Mapper M BootInfoFrameAllocator, !OffsetPageTable M}.

(** Where the double fault stack lies, and how an error of the mapper is rendered. *)
Variable STACK : Z.
Variable debug_map_error : MapToError M BootInfoFrameAllocator → string.

(** The CPU and the shared state, and the global allocator with the memory. *)
Abbreviation world := (cpu * kstate * (Locked (FixedSizeBlockAllocator Heap) * mem))%type.

Definition on_boot {A} (f : stM (cpu * kstate) A) : stM world A := λ w,
  '(r, b) ← f w.1; Done (r, (b, w.2)).
Definition on_kernel {A} (f : K A) : stM world A := on_boot (on_machine f).
Definition on_heap {A} (f : heapM (Locked (FixedSizeBlockAllocator Heap)) A) : stM world A :=
  λ w, '(r, h) ← f w.2; Done (r, (w.1, h)).
Definition lift_outcome {A} (o : outcome A) : stM world A := λ w, r ← o; Done (r, w).

(** [print!] and [println!], with the pieces of the formatted text. *)
Definition kprint (args : list (list Z)) : stM world unit :=
  on_kernel (_ ← preempt; vga_print args).
Definition kprintln (args : list (list Z)) : stM world unit := kprint (args ++ [[newline]]).

(** The characters written to the screen first; [1.0/3.0] is shown as the shortest
    decimal fraction that reads back as the same number. *)
Definition greeting : stM world unit :=
  _ ← kprint [bytes "H"];
  _ ← kprint [bytes "ello "];
  _ ← kprintln [bytes "Wörld!"];
  kprintln [bytes "The numbers are "; fmt_usize 42; bytes " and "; bytes "0.3333333333333333"].

(** [.expect("heap initialization failed")] *)
Definition heap_init_error (e : MapToError M BootInfoFrameAllocator) : string :=
  ("heap initialization failed: " +:+ debug_map_error e)%string.

(** The mapper, the frame allocator and the heap. *)
Definition setup_heap (boot_info : BootInfo) : stM world unit := λ w,
  phys_mem_offset ← virt_addr_new (physical_memory_offset boot_info);
  mapper ← memory_init (cr3 w.1.1) phys_mem_offset;
  let frame_allocator := Frames.init (memory_map boot_info) in
  '(r, ALLOCATOR, _, _, m) ← init_heap w.2.1 mapper frame_allocator w.2.2;
  match r with
  | inl _ => Done ((), (w.1, (ALLOCATOR, m)))
  | inr e => Panicked (heap_init_error e)
  end.

(** The local variables that live until the end of [kernel_main], and the two reference
    counts that are printed. *)
Record locals := mkLocals {
  heap_value : Z;
  l_vec : vec;
  cloned_reference : Z;
  rc_vec : vec;
  counts : Z * Z;
}.

(** The heap demonstration. *)
Definition heap_demo : stM world locals :=
  heap_value ← on_heap (box_new I32 42);
  _ ← kprintln [bytes "heap_value at "; fmt_pointer heap_value];
  vec ← on_heap (vec_extend I32 (vec_new I32) (seqZ 0 500));
  _ ← kprintln [bytes "vec at "; fmt_pointer (vec_ptr vec)];
  v ← on_heap (vec_of I32 [1; 2; 3]);
  reference_counted ← on_heap (rc_new v);
  cloned_reference ← on_heap (rc_clone reference_counted);
  n ← on_heap (rc_strong_count cloned_reference);
  _ ← kprintln [bytes "current reference count is "; fmt_usize n];
  _ ← on_heap (rc_drop I32 reference_counted);
  n' ← on_heap (rc_strong_count cloned_reference);
  _ ← kprintln [bytes "reference count is "; fmt_usize n'; bytes " now"];
  mret (mkLocals heap_value vec cloned_reference v (n, n')).

(** [kernel_main] in a normal build; the fuels bound the loops of the keyboard task and
    of the executor, [requests] are what the collections in which the executor and the
    tasks are stored ask of the allocator, and the result is what the local variables and
    the executor are when the CPU sleeps for good. *)
Definition kernel_main (kfuel fuel : nat) (boot_info : BootInfo) (requests : list request)
    : stM world (locals * Executor kernel_future) :=
  _ ← greeting;
  _ ← on_boot (Boot.init STACK);
  _ ← setup_heap boot_info;
  vars ← heap_demo;
  _ ← kprintln [bytes "It did not crash!"];
  _ ← on_heap (serve requests []);
  executor ← on_kernel (kernel_tasks kfuel fuel);
  mret (vars, executor).

(** Everything but the run of the tasks. *)
Definition before_tasks (boot_info : BootInfo) (requests : list request) : stM world locals :=
  _ ← greeting;
  _ ← on_boot (Boot.init STACK);
  _ ← setup_heap boot_info;
  vars ← heap_demo;
  _ ← kprintln [bytes "It did not crash!"];
  _ ← on_heap (serve requests []);
  mret vars.

Lemma kernel_main_split kfuel fuel boot_info requests w :
  kernel_main kfuel fuel boot_info requests w =
  (vars ← before_tasks boot_info requests;
   executor ← on_kernel (kernel_tasks kfuel fuel); mret (vars, executor)) w.
Proof.
  unfold kernel_main, before_tasks, mbind, stM_bind.
  destruct (greeting w) as [[? w1]| | |]; [|done..]. run.
  destruct (on_boot (Boot.init STACK) w1) as [[? w2]| | |]; [|done..]. run.
  destruct (setup_heap boot_info w2) as [[? w3]| | |]; [|done..]. run.
  destruct (heap_demo w3) as [[? w4]| | |]; [|done..]. run.
  destruct (kprintln _ w4) as [[? w5]| | |]; [|done..]. run.
  by destruct (on_heap _ w5) as [[? w6]| | |].
Qed.

(** The panic handler of a normal build, with the rendered information. *)
Definition panic (info : list Z) : K unit :=
  _ ← preempt; _ ← vga_print [info; [newline]]; hlt_loop.

End kernel.

(** ** Rules for the pieces of the run *)

Section proofs.
Context `{BuildProfile, DebugLayout, AsyncLaws, PcKeyboard, X86GdtLaws, X86VirtLaws, X86PhysLaws}.
Context `{FallbackLaws Heap, !Mapper M BootInfoFrameAllocator, !OffsetPageTable M}.
Context `{!MapperLaws M BootInfoFrameAllocator}.
Variable STACK : Z.
Variable debug_map_error : MapToError M BootInfoFrameAllocator → string.
Variable s0 : kstate.

Abbreviation heap := (Locked (FixedSizeBlockAllocator Heap) * mem)%type.
Abbreviation world := (cpu * kstate * heap)%type.

Definition heap_end : Z := HEAP_START + HEAP_SIZE.

(** The messages with which a run may panic include those about the heap. *)
Variable Err : string → Prop.
Hypothesis Err_map : ∀ e, Err (heap_init_error debug_map_error e).
Hypothesis Err_alloc : may_fail Err.

Abbreviation htriple := (htriple (S := world) Err).

(** Before the tasks are started: the machine has only printed since [s0]. *)
Definition booting (C : cpu → Prop) (Hp : heap → Prop) (w : world) : Prop :=
  (unstarted (get_view s0) ∧ idled s0 w.1.2) ∧ C w.1.1 ∧ Hp w.2.

Lemma idled_trans (s1 s2 s3 : kstate) : idled s1 s2 → idled s2 s3 → idled s1 s3.
Proof.
  intros (_ & Hv & Hl & Hs) (? & Hv' & Hl' & Hs').
  split_and!; [done|congruence|lia|by etrans].
Qed.

Lemma htriple_kprint C Hp args : htriple (booting C Hp) (kprint args) (λ _, booting C Hp).
Proof.
  intros [[c k] h] ([Hu Hid] & Hc & Hh). cbn [fst snd] in *.
  pose proof Hid as (Hok & Hv & _).
  destruct (preempt_unstarted k Hok ltac:(by rewrite Hv)) as (k1 & E1 & Hid1).
  destruct (vga_print_spec args k1) as (w & k2 & E2 & Hsb & _); [apply Hid1|].
  destruct (same_but_screen_ok k1 k2 Hsb ltac:(apply Hid1)) as (Hok2 & Hv2 & (_ & Hpe & Hsc) & _).
  unfold kprint, on_kernel, on_boot, on_machine. cbn [fst snd].
  rewrite (bind_K_Done _ _ _ _ _ E1), E2. run.
  split; [|done]. split; [done|]. eapply idled_trans; [exact Hid|].
  eapply idled_trans; [exact Hid1|]. unfold idled, future_irqs. cbn [fst snd]. rewrite Hpe, Hsc, Hv2.
  by split_and!.
Qed.

Lemma htriple_kprintln C Hp args : htriple (booting C Hp) (kprintln args) (λ _, booting C Hp).
Proof. apply htriple_kprint. Qed.

Lemma htriple_on_heap {R} C P (f : heapM _ R) Q :
  Prelude.htriple Err P f Q → htriple (booting C P) (on_heap f) (λ r, booting C (Q r)).
Proof.
  intros Hf [[c k] h] (Hk & Hc & Hh). specialize (Hf h Hh). unfold on_heap. cbn [fst snd] in *.
  by destruct (f h) as [[r h']| | |].
Qed.

(** Facts about a result that hold beside the heap. *)
Lemma booting_pure {R} C φ (P : heap → Prop) (f : stM world R) Q :
  (φ → htriple (booting C P) f Q) → htriple (booting C (λ h, φ ∧ P h)) f Q.
Proof. intros Hf w (Hk & Hc & Hφ & HP). by apply (Hf Hφ). Qed.

Lemma htriple_greeting C Hp : htriple (booting C Hp) greeting (λ _, booting C Hp).
Proof.
  repeat (eapply htriple_bind; [apply htriple_kprint|]; intros []). apply htriple_kprintln.
Qed.

Lemma htriple_init c Hp :
  0 ≤ STACK ∧ STACK + STACK_SIZE < 2 ^ 47 →
  htriple (booting (eq c) Hp) (on_boot (Boot.init STACK)) (λ _,
    booting (λ c', ready_for_interrupts STACK c' ∧ cr3 c' = cr3 c) Hp).
Proof.
  intros Hst [[c' k] h] ([Hu Hid] & Hc & Hh). cbn [fst snd] in *. subst c'.
  pose proof Hid as ([(Hlw & Hlp & Hw) Hcaps] & Hv & Hl & Hs).
  destruct (init_steps_spec STACK Hst c k Hlp) as (g & sels & x & Hrun & Hr & Hx).
  cbn zeta in *. specialize (Hrun 6%nat). unfold on_boot. cbn [fst snd].
  change (Boot.init STACK) with (run_steps (take 6 (init_steps STACK))). rewrite Hrun. run.
  split; [|by split_and!]. split; [done|]. by split_and!.
Qed.

Lemma htriple_setup_heap boot_info (c : cpu) :
  map_ok (memory_map boot_info) → paging_ok (cr3 c) (physical_memory_offset boot_info) →
  htriple (booting (λ c', ready_for_interrupts STACK c' ∧ cr3 c' = cr3 c)
             (λ h, h.1 = ALLOCATOR_init))
    (setup_heap debug_map_error boot_info)
    (λ _, booting (ready_for_interrupts STACK) (hown HEAP_START heap_end [])).
Proof.
  intros Hmm Hp [[c' k] [a m]] (Hk & [Hr Hcr] & Hh). cbn [fst snd] in *. subst a.
  unfold setup_heap. cbn [fst snd]. rewrite Hcr. run virt_addr_new_ok by (unfold paging_ok in Hp; lia).
  run memory_init_spec by done.
  destruct (init_heap_spec (Heap := Heap)
    (offset_page_table_new (physical_memory_offset boot_info + cr3 c) (physical_memory_offset boot_info))
    (Frames.init (memory_map boot_info)) m) as (r & a & mp & fa & m' & fs & E & _ & _ & _ & _ & Hres);
    [done..|].
  run E. destruct r as [[]|e]; [|apply Err_map].
  split; [exact Hk|]. split; [exact Hr|]. split; [apply Hres|constructor].
Qed.

(** The objects of the demonstration at its end. *)
Definition demo_objects (vars : locals) : list object :=
  rc_obj (cloned_reference vars) 1 1 (rc_vec vars) :: vec_objs I32 (rc_vec vars) [1; 2; 3] ++
  vec_objs I32 (l_vec vars) (seqZ 0 500) ++ [box_obj I32 (heap_value vars) 42].

Lemma htriple_heap_demo C :
  htriple (booting C (hown HEAP_START heap_end [])) heap_demo (λ vars,
    booting C (λ h, counts vars = (2, 1) ∧ hown HEAP_START heap_end (demo_objects vars) h)).
Proof.
  unfold heap_demo.
  eapply htriple_bind; [apply htriple_on_heap; by apply htriple_box_new|]. intros p.
  eapply htriple_bind; [apply htriple_kprintln|]. intros [].
  destruct (vec_new_ok I32) as [Hok Ht]. eapply htriple_bind.
  { apply htriple_on_heap.
    apply (htriple_vec_extend HEAP_START heap_end Err Err_alloc I32 (vec_new I32) [] (seqZ 0 500)
             [box_obj I32 p 42]); [done|by vm_compute| |done].
    apply Forall_forall. intros i Hi%elem_of_seqZ. unfold in_range. simpl. lia. }
  intros v. apply booting_pure. intros [Hv _]. cbn [app].
  eapply htriple_bind; [apply htriple_kprintln|]. intros [].
  eapply htriple_bind.
  { apply htriple_on_heap. apply (htriple_vec_of HEAP_START heap_end Err Err_alloc I32 [1; 2; 3]);
      [by repeat constructor|by vm_compute]. }
  intros u. apply booting_pure. intros [Hu Hcap]. eapply htriple_bind.
  { apply htriple_on_heap. by apply (htriple_rc_new_vec HEAP_START heap_end Err Err_alloc I32 u
      [1; 2; 3]); [..|rewrite Hcap]. }
  intros rc. eapply htriple_bind.
  { apply htriple_on_heap. by apply htriple_rc_clone. }
  intros cl. apply booting_pure. intros ->. eapply htriple_bind.
  { apply htriple_on_heap. apply htriple_rc_count. }
  intros n. apply booting_pure. intros ->. eapply htriple_bind; [apply htriple_kprintln|].
  intros []. eapply htriple_bind.
  { apply htriple_on_heap. by apply htriple_rc_drop_shared. }
  intros []. eapply htriple_bind.
  { apply htriple_on_heap. apply htriple_rc_count. }
  intros n. apply booting_pure. intros ->. eapply htriple_bind; [apply htriple_kprintln|].
  intros []. apply htriple_ret. intros w (Hk & Hc & Hh).
  split; [exact Hk|]. by split.
Qed.

(** Everything before the tasks: up to the heap, and with the demonstration. *)
Lemma htriple_boot_heap boot_info (c : cpu) :
  0 ≤ STACK ∧ STACK + STACK_SIZE < 2 ^ 47 →
  map_ok (memory_map boot_info) → paging_ok (cr3 c) (physical_memory_offset boot_info) →
  htriple (booting (eq c) (λ h, h.1 = ALLOCATOR_init))
    (_ ← on_boot (Boot.init STACK); setup_heap debug_map_error boot_info)
    (λ _, booting (ready_for_interrupts STACK) (hown HEAP_START heap_end [])).
Proof.
  intros Hst Hmm Hp. eapply htriple_bind; [by apply htriple_init|].
  intros []. by apply htriple_setup_heap.
Qed.

(** The heap when the collections have made their requests: the objects of the
    demonstration, and the blocks that the collections own. *)
Definition heap_at_rest (vars : locals) (requests : list request) (h : heap) : Prop :=
  ∃ blocks, b_layout <$> blocks = remaining requests [] ∧
    hown HEAP_START heap_end ((raw <$> blocks) ++ demo_objects vars) h.

(** The layouts that the collections ask for are valid and not empty, as [GlobalAlloc]
    requires, and can be padded to a word. *)
Definition requests_ok (requests : list request) : Prop :=
  Forall (admitted (A := Locked (FixedSizeBlockAllocator Heap))) requests.

Lemma htriple_before_tasks boot_info requests (c : cpu) :
  requests_ok requests →
  0 ≤ STACK ∧ STACK + STACK_SIZE < 2 ^ 47 →
  map_ok (memory_map boot_info) → paging_ok (cr3 c) (physical_memory_offset boot_info) →
  htriple (booting (eq c) (λ h, h.1 = ALLOCATOR_init))
    (before_tasks STACK debug_map_error boot_info requests)
    (λ vars, booting (ready_for_interrupts STACK)
       (λ h, counts vars = (2, 1) ∧ heap_at_rest vars requests h)).
Proof.
  intros Hrq Hst Hmm Hp. unfold before_tasks.
  eapply htriple_bind; [by apply htriple_greeting|].
  intros []. eapply htriple_bind; [by apply htriple_init|].
  intros []. eapply htriple_bind; [by apply htriple_setup_heap|].
  intros []. eapply htriple_bind; [by apply htriple_heap_demo|].
  intros vars. eapply htriple_bind; [apply htriple_kprintln|].
  intros []. apply booting_pure. intros Hc. eapply htriple_bind.
  { apply htriple_on_heap.
    by apply (htriple_serve HEAP_START heap_end Err Err_alloc requests [] (demo_objects vars)). }
  intros blocks. apply htriple_ret. intros w (Hk & Hr & Hl & Hh).
  split; [exact Hk|]. split; [exact Hr|]. split; [exact Hc|]. by exists blocks.
Qed.

End proofs.

Section tasks.
Context `{BuildProfile, DebugLayout, AsyncLaws, PcKeyboard, X86GdtLaws, X86VirtLaws, X86PhysLaws}.
Context `{FallbackLaws Heap, !Mapper M BootInfoFrameAllocator, !OffsetPageTable M}.
Context `{!MapperLaws M BootInfoFrameAllocator}.
Variable STACK : Z.
Variable debug_map_error : MapToError M BootInfoFrameAllocator → string.
Variable s0 : kstate.

Abbreviation heap := (Locked (FixedSizeBlockAllocator Heap) * mem)%type.
Abbreviation world := (cpu * kstate * heap)%type.

(** How a run from [s0] can end in a panic. *)
Definition heap_error (msg : string) : Prop :=
  (∃ e, msg = heap_init_error debug_map_error e) ∨ (∃ l, msg = alloc_error l).
Definition boot_error (msg : string) : Prop :=
  (∃ e, msg = heap_init_error debug_map_error e) ∨ (∃ l, msg = alloc_error l) ∨
  msg = "task queue full" ∧ (QUEUE_CAPACITY < 2 + length (scancodes (future_irqs s0)))%nat.

Lemma quiesced_suffix input input' r :
  input' `suffix_of` input → quiesced input' r → quiesced input r.
Proof.
  intros Hs. pose proof (suffix_length _ _ Hs). destruct r as [[ex k]|msg| |]; [|..|done|done].
  - intros [(handled & Ht & Hsub & Hsuf) Hq]. split; [|exact Hq]. exists handled.
    split_and!; [done|destruct Hs as [l ->]; by apply sublist_inserts_l|].
    intros Hlen. etrans; [apply Hsuf; lia|exact Hs].
  - intros [? ?]. split; [done|lia].
Qed.

(** The panic handler halts after its message, unless a key press finds the task queue
    full once more before. *)
Lemma panic_halts info s :
  machine_ok s → panic info s = Diverged ∨ panic info s = Panicked "task queue full".
Proof.
  intros Hok. pose proof (preempt_spec s Hok) as Hp. unfold panic.
  destruct (view_irqs (arrivals s) (get_view s)) as [v|].
  - destruct Hp as (s1 & E & Hok1 & _). rewrite (bind_K_Done _ _ _ _ _ E).
    destruct (vga_print_spec [info; [newline]] s1 (proj1 Hok1)) as (w & s2 & E2 & _).
    rewrite (bind_K_Done _ _ _ _ _ E2). by left.
  - right. by apply bind_K_Panicked.
Qed.

(** How [kernel_main] ends when it does not panic. *)
Definition at_rest requests (vars : locals) (ex : Executor kernel_future) (w : world) : Prop :=
  quiesced (scancodes (future_irqs s0)) (Done (ex, w.1.2)) ∧ ready_for_interrupts STACK w.1.1 ∧
  counts vars = (2, 1) ∧ heap_at_rest vars requests w.2.

Lemma htriple_kernel_main kfuel fuel boot_info requests (c : cpu) :
  requests_ok requests → machine_ok s0 → unstarted (get_view s0) →
  0 ≤ STACK ∧ STACK + STACK_SIZE < 2 ^ 47 →
  map_ok (memory_map boot_info) → paging_ok (cr3 c) (physical_memory_offset boot_info) →
  (length (scancodes (future_irqs s0)) < kfuel)%nat →
  (2 + 2 * length (future_irqs s0) < fuel)%nat →
  Prelude.htriple (S := world) boot_error (λ w, w.1 = (c, s0) ∧ w.2.1 = ALLOCATOR_init)
    (kernel_main STACK debug_map_error kfuel fuel boot_info requests)
    (λ r, at_rest requests r.1 r.2).
Proof.
  intros Hrq Hok Hu Hst Hmm Hp Hkf Hf [[c0 k0] h0] [[= -> ->] Ha]. cbn [fst snd] in Ha.
  rewrite kernel_main_split.
  assert (∀ e, boot_error (heap_init_error debug_map_error e)) as Em by (intros e; left; by exists e).
  assert (may_fail boot_error) as Ea by (intros l; right; left; by exists l).
  pose proof (htriple_before_tasks STACK debug_map_error s0 boot_error Em Ea boot_info requests
    c Hrq Hst Hmm Hp (c, s0, h0)) as Hb.
  unfold mbind at 1, stM_bind at 1.
  destruct (before_tasks _ _ _ _ _) as [[vars [[c' k] h]]|msg| |]; [|apply Hb..]; try done;
    try (by split_and!).
  destruct Hb as ([_ Hid] & Hr & Hc & Hh); [by split_and!|]. cbn [fst snd] in *. run.
  pose proof Hid as (Hok' & Hv & Hl & Hs). pose proof (suffix_length _ _ Hs).
  pose proof (kernel_tasks_run kfuel fuel k Hok' ltac:(by rewrite Hv)
    ltac:(rewrite <-length_scancodes; lia) ltac:(lia)) as Hq.
  apply (quiesced_suffix _ _ _ Hs) in Hq.
  unfold mbind, stM_bind, on_kernel, on_boot, on_machine. cbn [fst snd].
  destruct (kernel_tasks kfuel fuel k) as [[ex k']|msg| |]; try done.
  right; right. exact Hq.
Qed.

End tasks.

(** ** Properties *)

Section properties.
Context `{BuildProfile, DebugLayout, AsyncLaws, PcKeyboard, X86GdtLaws, X86VirtLaws, X86PhysLaws}.
Context `{FallbackLaws Heap, !Mapper M BootInfoFrameAllocator, !OffsetPageTable M}.
Context `{!MapperLaws M BootInfoFrameAllocator}.

(** C2: the kernel as a whole, from its entry with interrupts disabled, whatever interrupts
    are going to arrive, whatever is on the screen and in memory, and whatever the
    collections in which the executor and its tasks are stored ask of the allocator.  It
    never faults and never hangs on a lock.  Either it ends asleep with interrupts safe to
    take, all tasks done but the keyboard task, which waits with its waker registered and
    has decoded the key presses in their order; the reference counts printed were 2 and
    1, and exactly the box, the two vectors and the shared vector's counts, with their
    contents, and the blocks that those collections have not given back are allocated on
    the heap.  Or it panics: because the heap could not be mapped, because the heap was
    exhausted, or because more keys were pressed than the task queue holds. *)
Theorem kernel_main_comes_to_rest STACK debug_map_error kfuel fuel boot_info requests (c : cpu)
    vga irqs m :
  let input := scancodes (concat irqs) in
  requests_ok (Heap := Heap) requests → rows_wf (chars vga) → map_ok (memory_map boot_info) →
  paging_ok (cr3 c) (physical_memory_offset boot_info) →
  0 ≤ STACK ∧ STACK + STACK_SIZE < 2 ^ 47 →
  (length input < kfuel)%nat → (2 + 2 * length (concat irqs) < fuel)%nat →
  match kernel_main (Heap := Heap) (M := M) STACK debug_map_error kfuel fuel boot_info requests
          (c, boot_state vga irqs, (ALLOCATOR_init, m)) with
  | Done (vars, executor, (c', s', heap')) =>
      quiesced input (Done (executor, s')) ∧ ready_for_interrupts STACK c' ∧
      counts vars = (2, 1) ∧
      ∃ blocks, b_layout <$> blocks = remaining requests [] ∧
        hown HEAP_START heap_end ((raw <$> blocks) ++ demo_objects vars) heap'
  | Panicked msg =>
      (∃ e, msg = heap_init_error debug_map_error e) ∨ (∃ l, msg = alloc_error l) ∨
      msg = "task queue full" ∧ (QUEUE_CAPACITY < 2 + length input)%nat
  | Faulted | Diverged => False
  end.
Proof.
  intros input Hrq Hv Hmm Hp Hst Hkf Hf.
  pose proof (htriple_kernel_main STACK debug_map_error (boot_state vga irqs) kfuel fuel boot_info
    requests c Hrq (boot_state_ok vga irqs Hv) (boot_state_unstarted vga irqs) Hst Hmm Hp Hkf Hf
    (c, boot_state vga irqs, (ALLOCATOR_init, m)) ltac:(done)) as Hk.
  destruct (kernel_main _ _ _ _ _ _ _) as [[[vars ex] [[c' k] h]]|msg| |]; done.
Qed.

End properties.

(** ** Witness: a run of the kernel *)

#[local] Existing Instances dev_profile plain_debug size_first_layout phys_model phys_model_laws
  virt_model virt_model_laws mapper_model mapper_model_laws echo_keyboard list_lib list_laws
  list_gdt list_gdt_laws.

Definition empty_page_table : OffsetPageTable (gmap Z (Z * Z)) :=
  {| offset_page_table_new _ _ := ∅ |}.
#[local] Existing Instance empty_page_table.

Definition sample_boot_info : BootInfo := mkBootInfo sample_map 0x180000000000.

(** The timer ticks before the kernel accepts interrupts and in the demonstration; a key
    is pressed before the tasks are started and two while they run. *)
Definition sample_irqs : list (list irq) :=
  [[]; [TimerIrq]; []; []; []; [TimerIrq]; []; [KeyboardIrq 65]; []; []; []; []; []; [];
   [KeyboardIrq 66]; []; [TimerIrq]; [KeyboardIrq 67]].

Definition blank_buffer : Buffer := buffer Vga.blank_screen.

Definition debug_error (_ : MapToError (gmap Z (Z * Z)) BootInfoFrameAllocator) : string :=
  "error".

(** A queue aligned to cache lines, a reference count, two futures, of which one is dropped
    when its task has finished. *)
Definition sample_requests : list request :=
  [Allocate (mkLayout 512 128); Write 0 U64 0 0; Allocate (mkLayout 16 8); Write 0 U64 0 1;
   Allocate (mkLayout 24 8); Allocate (mkLayout 200 8); Release 1].

Lemma sample_requests_ok : requests_ok (Heap := LinkedListAllocator) sample_requests.
Proof. repeat constructor; by vm_compute. Qed.

Definition kernel_run :=
  kernel_main (Heap := LinkedListAllocator) (M := gmap Z (Z * Z)) 0x10000 debug_error 4 15
    sample_boot_info sample_requests (reset_cpu, boot_state blank_buffer sample_irqs, (ALLOCATOR_init, ∅)).

(** The text of the last rows of the screen, without the blanks at their ends. *)
Definition trim (l : list Z) : list Z :=
  reverse ((fix go l := match l with 32 :: l' => go l' | _ => l end) (reverse l)).
Definition shown (n : nat) (w : Writer) : list (list Z) :=
  (λ row, trim (ascii_character <$> row)) <$> drop (BUFFER_HEIGHT - n) (chars (buffer w)).

Lemma sample_paging : paging_ok (cr3 reset_cpu) (physical_memory_offset sample_boot_info).
Proof. split_and!; try done; by apply Z.mod_divide. Qed.

Lemma kernel_main_comes_to_rest_witness :
  match kernel_run with
  | Done (vars, executor, (c', s', heap')) =>
      quiesced (scancodes (concat sample_irqs)) (Done (executor, s')) ∧
      ready_for_interrupts 0x10000 c' ∧
      counts vars = (2, 1) ∧
      ∃ blocks, b_layout <$> blocks = [mkLayout 200 8; mkLayout 16 8; mkLayout 512 128] ∧
        hown HEAP_START heap_end ((raw <$> blocks) ++ demo_objects vars) heap'
  | Panicked msg =>
      (∃ e, msg = heap_init_error debug_error e) ∨ (∃ l, msg = alloc_error l) ∨
      msg = "task queue full" ∧ (QUEUE_CAPACITY < 2 + length (scancodes (concat sample_irqs)))%nat
  | Faulted | Diverged => False
  end.
Proof.
  unfold kernel_run.
  exact (kernel_main_comes_to_rest (Heap := LinkedListAllocator) (M := gmap Z (Z * Z)) 0x10000
           debug_error 4 15 sample_boot_info sample_requests reset_cpu blank_buffer sample_irqs ∅
           sample_requests_ok (proj1 blank_screen_wf) sample_map_ok sample_paging ltac:(done)
           ltac:(vm_compute; lia) ltac:(vm_compute; lia)).
Defined.

(** Parts of such a run: the greeting on the screen, and the demonstration on a heap of
    8 KiB, which is large enough for it. *)
Definition small_heap : outcome (Locked (FixedSizeBlockAllocator LinkedListAllocator) * mem) :=
  '(a, m) ← FixedSizeBlock.init (Heap := LinkedListAllocator) new (heap_words 4096 1024) 4096 8192;
  Done (Locked_new a, m).

Definition small_world : outcome (cpu * kstate * (Locked (FixedSizeBlockAllocator LinkedListAllocator) * mem)) :=
  h ← small_heap; Done (reset_cpu, boot_state blank_buffer sample_irqs, h).

Lemma greeting_run :
  match w ← small_world; greeting w with Done (_, (_, s, _)) => shown 3 (writer s) | _ => [] end =
  [bytes "Hello W" ++ [254; 254] ++ bytes "rld!";
   bytes "The numbers are 42 and 0.3333333333333333"; []].
Proof. vm_compute. reflexivity. Qed.

Lemma heap_demo_run :
  match w ← small_world; heap_demo w with
  | Done (vars, _) => Some (heap_value vars, vec_ptr (l_vec vars), vec_cap (l_vec vars), counts vars)
  | _ => None
  end = Some (4096, 6144, 512, (2, 1)).
Proof. vm_compute. reflexivity. Qed.
