(* ===== verification/ConsoleRun.v ===== *)
(** * The screen of the whole kernel, and its key presses

    The accounts of Console.v for the keyboard task, the executor, the tasks of
    [kernel_main] and [kernel_main] itself.  The theorem says what is on the screen when
    the kernel has come to rest: the texts of [kernel_main] and of its tasks, a dot for
    every tick of the timer, the decoded keys, and a warning for every key press that the
    decoder did not get to see. *)

From stdpp Require Import prelude gmap strings pretty.
From S2P Require Import Prelude Layout Memory Access GlobalAlloc AsyncLib Locked.
From S2P Require Import LinkedList FixedSizeBlock FallbackModel Vga Frames HeapInit Paging.
From S2P Require Import Collections HeapTests HeapTraffic Machine Interrupts Hoare Keyboard Console Task Executor.
From S2P Require Import Scheduler Boot KernelMain.

(** ** The keyboard task *)

Section keyboard.
Context `{BuildProfile, AsyncLaws, PcKeyboard}.
Abbreviation emitsK := (emits (λ s : kstate, s)).

(** Handling scancodes one after the other: each is taken, decoded and printed. *)
Fixpoint key_outputs (kb : Kbd) (h : list Z) : list output :=
  match h with
  | [] => []
  | sc :: h' =>
      let '(kb', out) := decode kb sc in
      Take sc :: ((λ c, Text [c]) <$> out) ++ key_outputs kb' h'
  end.

Lemma taken_texts {A} (f : A → list (list Z)) out : taken ((λ c, Text (f c)) <$> out) = [].
Proof. induction out as [|c out IH]; [done|exact IH]. Qed.

Lemma taken_app l1 l2 : taken (l1 ++ l2) = taken l1 ++ taken l2.
Proof. apply omap_app. Qed.

Lemma taken_key_outputs kb h : taken (key_outputs kb h) = h.
Proof.
  revert kb. induction h as [|sc h IH]; intros kb; [done|]. cbn [key_outputs].
  destruct (decode kb sc) as [kb' out]. change (sc :: taken (((λ c, Text [c]) <$> out) ++ key_outputs kb' h) = sc :: h).
  by rewrite taken_app, (taken_texts (λ c, [c])), IH.
Qed.

Lemma key_outputs_app kb h1 h2 :
  key_outputs kb (h1 ++ h2) = key_outputs kb h1 ++ key_outputs (decode_all kb h1).1 h2.
Proof.
  revert kb. induction h1 as [|sc h1 IH]; intros kb; [done|]. cbn [app key_outputs].
  rewrite decode_all_cons. destruct (decode kb sc) as [kb' out]. cbn. by rewrite IH, app_assoc.
Qed.

Lemma emits_pop_scancode :
  emitsK pop_scancode (λ o l, l = match o with Some sc => [Take sc] | None => [] end).
Proof.
  intros s o s'. unfold pop_scancode. destruct (cell_try_get _) as [q|] eqn:Hq; [|done].
  pose proof (queue_pop_spec q) as Hp. assert (queue_of s = Some (capacity q, elems q)) as Hqs
    by (unfold queue_of; by rewrite Hq).
  destruct (elems q) as [|sc sl] eqn:He.
  - rewrite Hp. intros [= <- <-]. exists []. split; [|done]. split_and!; [done..|].
    rewrite (cell_set_queue s q q Hq), He, Hqs. done.
  - destruct Hp as (q' & -> & Hq' & Hc). intros [= <- <-]. exists [Program (Take sc)].
    split; [|done]. split_and!; [done..|].
    rewrite (cell_set_queue s q q' Hq), Hqs, Hq', Hc. cbn.
    by rewrite bool_decide_eq_true_2.
Qed.

Lemma emits_stream_new : emitsK ScancodeStream_new (λ _ l, l = [Start]).
Proof.
  intros s [] s'. unfold ScancodeStream_new.
  pose proof (cell_try_init_once_spec (SCANCODE_QUEUE s) (λ _, queue_new 100)) as Hi.
  destruct (cell_try_get (SCANCODE_QUEUE s)) as [q|] eqn:Hq; [by rewrite Hi|].
  destruct Hi as (c & -> & Hc). intros [= <-]. exists [Program Start]. split; [|done].
  split_and!; [done..|]. unfold queue_of. cbn. rewrite Hq, Hc. cbn.
  destruct (queue_new_spec (A := Z) 100) as [-> ->]. done.
Qed.

Lemma emits_register w : emitsK (register_waker w) (λ _ l, l = []).
Proof. by apply emits_modify. Qed.

Lemma emits_take_waker : emitsK take_waker (λ _ l, l = []).
Proof. by apply emits_modify. Qed.

Lemma emits_poll_next w :
  emitsK (poll_next w) (λ p l,
    match p with
    | Ready (Some sc) => l = [Take sc]
    | Ready None => False
    | Pending => l = []
    end).
Proof.
  unfold poll_next. apply emitsK_seq; [apply emits_preempt|]. intros [].
  eapply emitsK_bind; [apply emits_pop_scancode|]. intros [sc|] l ->; [by apply emitsK_ret|].
  apply emitsK_seq; [apply emits_preempt|]. intros [].
  apply emitsK_seq; [apply emits_register|]. intros [].
  apply emitsK_seq; [apply emits_preempt|]. intros [].
  eapply emitsK_bind; [apply emits_pop_scancode|]. intros [sc|] l ->; [|by apply emitsK_ret].
  eapply emitsK_bind; [apply emits_preempt|]. intros [] l ->.
  eapply emitsK_bind; [apply emits_take_waker|]. intros [] l ->. by apply emitsK_ret.
Qed.

Lemma emits_handle_scancode kb sc :
  emitsK (handle_scancode kb sc) (λ kb' l,
    kb' = (decode kb sc).1 ∧ l = (λ c, Text [c]) <$> (decode kb sc).2).
Proof.
  unfold handle_scancode, decode.
  destruct (add_byte kb sc) as [[[e|]|] kb1]; [|by apply emitsK_ret..].
  destruct (process_keyevent kb1 e) as [[[c|c]|] kb2]; [| |by apply emitsK_ret].
  all: apply emitsK_seq; [apply emits_preempt|]; intros [];
    eapply emitsK_bind; [apply emits_print|]; intros [] l ->; by apply emitsK_ret.
Qed.

Lemma emits_keypress_loop fuel w kb :
  emitsK (keypress_loop fuel w kb) (λ r l,
    ∃ h, r = (Pending, KpAwait (decode_all kb h).1) ∧ l = key_outputs kb h).
Proof.
  revert kb. induction fuel as [|fuel IH]; intros kb; [apply emits_diverged|].
  cbn [keypress_loop]. eapply emitsK_bind; [apply emits_poll_next|].
  intros [[sc|]|] l Hl; [|done|].
  - subst l. eapply emitsK_bind; [apply emits_handle_scancode|]. intros kb' l [-> ->].
    eapply emits_conseq; [apply IH|]. intros r l (h & -> & ->). exists (sc :: h).
    rewrite decode_all_cons. split; [done|]. cbn [key_outputs].
    by destruct (decode kb sc) as [kb' out].
  - subst l. apply emitsK_ret. by exists [].
Qed.

(** What the task does while it gets from one state to another. *)
Definition key_run (f f' : keypress_future) (l : list output) : Prop :=
  match f with
  | KpStart =>
      f' = KpStart ∧ l = [] ∨
      ∃ h, f' = KpAwait (decode_all kbd_new h).1 ∧ l = Start :: key_outputs kbd_new h
  | KpAwait kb => ∃ h, f' = KpAwait (decode_all kb h).1 ∧ l = key_outputs kb h
  | KpDone => f' = KpDone ∧ l = []
  end.

Lemma key_run_refl f : key_run f f [].
Proof. destruct f as [|kb|]; [by left|by exists []|done]. Qed.

Lemma key_run_trans f1 f2 f3 l1 l2 :
  key_run f1 f2 l1 → key_run f2 f3 l2 → key_run f1 f3 (l1 ++ l2).
Proof.
  destruct f1 as [|kb|]; cbn.
  - intros [[-> ->]|(h & -> & ->)]; [done|]. intros (h2 & -> & ->). right. exists (h ++ h2).
    by rewrite decode_all_app, key_outputs_app.
  - intros (h & -> & ->) (h2 & -> & ->). exists (h ++ h2).
    by rewrite decode_all_app, key_outputs_app.
  - intros [-> ->]. done.
Qed.

Lemma emits_poll_keypresses fuel f w :
  emitsK (poll_keypresses fuel f w) (λ r l, r.1 = Pending ∧ key_run f r.2 l).
Proof.
  destruct f as [|kb|]; cbn [poll_keypresses]; [| |apply emits_panic].
  - apply emitsK_seq; [apply emits_preempt|]. intros [].
    eapply emitsK_bind; [apply emits_stream_new|]. intros [] l ->.
    eapply emits_conseq; [apply emits_keypress_loop|]. intros r l (h & -> & ->).
    split; [done|]. right. by exists h.
  - eapply emits_conseq; [apply emits_keypress_loop|]. intros r l (h & -> & ->).
    split; [done|]. by exists h.
Qed.

End keyboard.

(** ** The executor with the keyboard task alone *)

Section executor.
Context `{BuildProfile, AsyncLaws, PcKeyboard}.
Abbreviation emitsK := (emits (λ s : kstate, s)).
Variables (k : TaskId) (kfuel : nat).
#[local] Instance kernel_future_run : Future kernel_future := kernel_futures kfuel.
Implicit Types (ex : Executor kernel_future).

Definition key_only (f : keypress_future) ex : Prop :=
  tasks ex = {[ k := mkTask k (KeyTask f) ]}.

Lemma emits_poll_key f w :
  emitsK (poll (mkTask k (KeyTask f)) w) (λ r l,
    ∃ f', r = (Pending, mkTask k (KeyTask f')) ∧ key_run f f' l).
Proof.
  unfold poll. cbn [poll_future kernel_future_run kernel_futures poll_kernel future id].
  apply (emitsK_map _ _ (λ r l, ∃ f', r = (Pending, KeyTask f') ∧ key_run f f' l)).
  - eapply emitsK_map; [apply emits_poll_keypresses|]. intros [p f'] l [Hp Hl]. cbn in *.
    subst p. eauto.
  - intros [p f'] l (f1 & [= -> ->] & Hl). eauto.
Qed.

Definition example_text : list (list Z) :=
  [bytes "async number: "; bytes (pretty async_number); [newline]].

Lemma emits_poll_example i w :
  emitsK (poll (mkTask i (ExampleTask ExStart)) w) (λ r l,
    r.1 = Ready () ∧ l = [Text example_text]).
Proof.
  unfold poll. cbn [poll_future kernel_future_run kernel_futures poll_kernel poll_example future id].
  apply (emitsK_map _ _ (λ r l, r.1 = Ready () ∧ l = [Text example_text])).
  - apply (emitsK_map _ _ (λ r l, r.1 = Ready () ∧ l = [Text example_text])).
    + apply emitsK_seq; [apply emits_preempt|]. intros [].
      eapply emitsK_map; [apply emits_print|]. eauto.
    + intros [p f'] l Hl. eauto.
  - intros [p f'] l Hl. eauto.
Qed.

Lemma emits_hold i : emitsK (hold_waker i) (λ _ l, l = []).
Proof. by apply emits_modify. Qed.

Lemma emits_release i : emitsK (release_waker i) (λ _ l, l = []).
Proof. by apply emits_modify. Qed.

Lemma emits_pop_task : emitsK pop_task (λ _ l, l = []).
Proof.
  apply emits_silent. intros s o s'. unfold pop_task. destruct (queue_pop _).
  by intros [= <- <-].
Qed.

Lemma emits_run_ready fuel ex f :
  key_only f ex →
  emitsK (run_ready_tasks fuel ex) (λ ex' l, ∃ f', key_only f' ex' ∧ key_run f f' l).
Proof.
  revert ex f. induction fuel as [|fuel IH]; intros ex f Hex; [apply emits_diverged|].
  cbn [run_ready_tasks]. apply emitsK_seq; [apply emits_preempt|]. intros [].
  apply emitsK_seq; [apply emits_pop_task|]. intros [i|].
  2: { apply emitsK_ret. exists f. split; [done|apply key_run_refl]. }
  rewrite Hex. destruct (decide (i = k)) as [->|Hne].
  2: { rewrite lookup_singleton_ne by done. by apply IH. }
  rewrite lookup_singleton_eq. apply emitsK_seq; [apply emits_hold|]. intros [].
  eapply emitsK_bind; [apply emits_poll_key|]. intros r l (f1 & -> & Hl).
  eapply emits_conseq; [apply (IH _ f1)|].
  - unfold key_only. cbn. apply map_eq. intros j. destruct (decide (j = k)) as [->|].
    + by rewrite lookup_insert_eq, lookup_singleton_eq.
    + by rewrite lookup_insert_ne, Hex, !lookup_singleton_ne.
  - intros ex' l2 (f' & Hex' & Hl2). exists f'. split; [done|]. by eapply key_run_trans.
Qed.

Lemma emits_sleep_if_idle : emitsK sleep_if_idle (λ _ l, l = []).
Proof.
  assert (∀ b, emitsK (modify (set_flag b)) (λ _ l, l = [])) as Hflag
    by (intros b; by apply emits_modify).
  assert (emitsK hlt (λ _ l, l = [])) as Hhlt.
  { assert (∀ l, concat (skip_idle l) = concat l) as Hskip
      by (intros l; induction l as [|[|] l IH]; [done|exact IH|done]).
    intros s b s'. unfold hlt.
    set (sch := if bool_decide _ then skip_idle (schedule s) else schedule s).
    assert (future_irqs s = pending s ++ concat sch) as Hf.
    { unfold future_irqs, sch. case_bool_decide; [|done]. by rewrite Hskip. }
    case_bool_decide as Hnil.
    - intros [= <- <-]. exists []. split; [|done]. destruct Hnil as [Hp Hs].
      split_and!; [done| |done]. rewrite Hf, Hp, Hs. done.
    - intros E. assert (emitsK (_ ← preempt; mret true) (λ _ l, l = [])) as Hpre.
      { apply emitsK_seq; [apply emits_preempt|]. intros []. by apply emitsK_ret. }
      destruct (Hpre _ _ _ E) as (tr & (Hb1 & Hb2 & Hb3) & Hl). exists tr. split; [|done].
      split_and!; [done| |done]. rewrite Hf. exact Hb2. }
  unfold sleep_if_idle, sleep_check, enable_and_hlt. apply emitsK_seq.
  - apply emitsK_seq; [apply emits_preempt|]. intros []. apply emitsK_seq; [apply Hflag|]. intros [].
    apply emitsK_seq; [apply emits_preempt|]. intros []. apply emits_silent. intros s b s' [= <- <-].
    by split_and!.
  - intros []; (apply emitsK_seq; [apply Hflag|]); intros []; [apply Hhlt|by apply emitsK_ret].
Qed.

Lemma emits_run_key fuel ex f :
  key_only f ex → emitsK (run fuel ex) (λ ex' l, ∃ f', key_only f' ex' ∧ key_run f f' l).
Proof.
  revert ex f. induction fuel as [|fuel IH]; intros ex f Hex; [apply emits_diverged|].
  cbn [run]. eapply emitsK_bind; [by apply emits_run_ready|]. intros ex1 l1 (f1 & Hex1 & Hl1).
  apply emitsK_seq; [apply emits_sleep_if_idle|]. intros [].
  - eapply emits_conseq; [by apply (IH ex1 f1)|]. intros ex' l2 (f' & Hex' & Hl2).
    exists f'. split; [done|]. by eapply key_run_trans.
  - apply emitsK_ret. exists f1. by rewrite app_nil_r.
Qed.

End executor.

(** ** The tasks of [kernel_main] *)

Section tasks.
Context `{BuildProfile, AsyncLaws, PcKeyboard}.
Abbreviation emitsK := (emits (λ s : kstate, s)).
Implicit Types (s : kstate).

Lemma emits_spawn (ex : Executor kernel_future) t : emitsK (spawn ex t) (λ _ l, l = []).
Proof.
  unfold spawn. destruct (tasks ex !! id t); [apply emits_panic|].
  apply emitsK_seq; [apply emits_preempt|]. intros []. apply emitsK_seq; [|intros []; by apply emitsK_ret].
  apply emits_silent. intros s a s'. unfold push_task.
  destruct (queue_push _ _) as [[]]; [|done]. by intros [= <- <-].
Qed.

Lemma emits_spawn_tasks : emitsK spawn_tasks (λ _ l, l = []).
Proof.
  unfold spawn_tasks. apply emitsK_seq.
  - unfold Executor_new. apply emitsK_seq; [by apply emits_modify|]. intros []. by apply emitsK_ret.
  - intros ex. apply emitsK_seq; [apply emits_spawn|]. intros ex'. apply emits_spawn.
Qed.

(** The executor polls the example task first; then only the keyboard task is left. *)
Lemma run_spawned kfuel fuel s ex s' :
  machine_ok s → get_view s = mkView None None [mkTaskId 0; mkTaskId 1] →
  run (Future0 := kernel_futures kfuel) fuel spawned_executor s = Done (ex, s') →
  ∃ tr f l, between s tr s' ∧ program tr = Text example_text :: l ∧
    key_only (mkTaskId 1) f ex ∧ key_run KpStart f l.
Proof.
  intros Hok Hv. destruct fuel as [|fuel]; [done|]. cbn [run]. set (cont := λ ex1, _).
  assert (unstarted (get_view s)) as Hu by (by rewrite Hv).
  destruct (preempt_unstarted s Hok Hu) as (s1 & E1 & (_ & Hv1 & _)).
  destruct (emits_preempt s () s1 E1) as (tr1 & Hb1 & Hl1).
  rewrite Hv in Hv1. unfold get_view in Hv1. injection Hv1 as _ _ Hq.
  pose proof (queue_pop_spec (task_queue s1)) as Hp. rewrite Hq in Hp.
  destruct Hp as (q & Ep & _ & _). set (s2 := set_task_queue q s1).
  unfold mbind at 1, K_bind at 1. cbn [run_ready_tasks].
  rewrite (bind_K_Done _ _ _ _ _ E1), (bind_K_Done pop_task _ s1 (Some (mkTaskId 0)) s2)
    by (unfold pop_task; by rewrite Ep).
  replace (tasks spawned_executor !! mkTaskId 0)
    with (Some (mkTask (mkTaskId 0) (ExampleTask ExStart))) by done.
  cbv zeta. set (body := hold_waker _ ≫= _). intros E.
  assert (emitsK (body ≫= cont) (λ ex l, ∃ f l', l = Text example_text :: l' ∧
    key_only (mkTaskId 1) f ex ∧ key_run KpStart f l')) as He.
  { eapply (emitsK_bind _ _ (λ ex l, ∃ f l', l = Text example_text :: l' ∧
      key_only (mkTaskId 1) f ex ∧ key_run KpStart f l')).
    - apply emitsK_seq; [apply emits_hold|]. intros [].
      eapply emitsK_bind; [apply emits_poll_example|]. intros [p t'] l [Hr ->]. cbn in Hr. subst p.
      apply emitsK_seq; [apply emits_release|]. intros [].
      eapply emits_conseq; [apply (emits_run_ready (mkTaskId 1) kfuel fuel _ KpStart)|].
      + unfold key_only, spawned_executor. cbn [tasks]. apply map_eq. intros j.
        rewrite lookup_delete, lookup_singleton, !lookup_insert, lookup_empty.
        repeat case_decide; by subst.
      + intros ex1 l (f & Hf & Hl). eauto 10.
    - intros ex1 l (f & l' & -> & Hf & Hl). unfold cont.
      apply emitsK_seq; [apply emits_sleep_if_idle|]. intros [].
      + eapply emits_conseq; [by apply (emits_run_key (mkTaskId 1) kfuel fuel ex1 f)|].
        intros ex2 l2 (f2 & Hf2 & Hl2). exists f2, (l' ++ l2). split_and!; [done|done|].
        by eapply key_run_trans.
      + apply emitsK_ret. rewrite app_nil_r. eauto 10. }
  destruct (He s2 ex s' E) as (tr2 & Hb2 & f & l & Hl & Hf & Hr).
  exists (tr1 ++ tr2), f, l. split_and!; [|by unfold program in *; rewrite omap_app, Hl1|done|done].
  eapply between_trans; [exact Hb1|]. exact Hb2.
Qed.

(** The tasks from their creation on, when they come to rest. *)
Lemma kernel_tasks_account kfuel fuel s ex s' h :
  machine_ok s → unstarted (get_view s) → kernel_tasks kfuel fuel s = Done (ex, s') →
  tasks ex = {[ mkTaskId 1 := mkTask (mkTaskId 1) (KeyTask (KpAwait (decode_all kbd_new h).1)) ]} →
  ∃ tr h', between s tr s' ∧
    program tr = Text example_text :: Start :: key_outputs kbd_new h'.
Proof.
  intros Hok Hu. rewrite kernel_tasks_split.
  destruct (spawn_tasks_spec s Hok Hu) as (s1 & E1 & Hok1 & Hv1 & _).
  destruct (emits_spawn_tasks s _ s1 E1) as (tr1 & Hb1 & Hl1).
  rewrite (bind_K_Done _ _ _ _ _ E1). intros E Hex.
  destruct (run_spawned _ _ _ _ _ Hok1 Hv1 E) as (tr2 & f & l & Hb2 & Hl2 & Hf & Hr).
  unfold key_only in Hf. rewrite Hex in Hf. apply (f_equal (lookup (mkTaskId 1))) in Hf.
  rewrite !lookup_singleton_eq in Hf. injection Hf as <-.
  destruct Hr as [[? _]|(h' & _ & ->)]; [done|]. exists (tr1 ++ tr2), h'.
  split; [by eapply between_trans|]. unfold program in *. by rewrite omap_app, Hl1, Hl2.
Qed.

End tasks.

(** ** [kernel_main] *)

Section kernel.
Context `{BuildProfile, DebugLayout, AsyncLaws, PcKeyboard, X86Gdt, X86Virt, X86Phys}.
Context `{FallbackHeap Heap, !Mapper M BootInfoFrameAllocator, !OffsetPageTable M}.
Variable STACK : Z.
Variable debug_map_error : MapToError M BootInfoFrameAllocator → string.

Abbreviation world := (cpu * kstate * (Locked (FixedSizeBlockAllocator Heap) * mem))%type.
Abbreviation emitsW := (emits (λ w : world, w.1.2)).

(** The texts that [kernel_main] prints itself. *)
Definition greeting_texts : list (list (list Z)) :=
  [[bytes "H"]; [bytes "ello "]; [bytes "Wörld!"; [newline]];
   [bytes "The numbers are "; fmt_usize 42; bytes " and "; bytes "0.3333333333333333"; [newline]]].
Definition demo_texts (vars : locals) : list (list (list Z)) :=
  [[bytes "heap_value at "; fmt_pointer (heap_value vars); [newline]];
   [bytes "vec at "; fmt_pointer (vec_ptr (l_vec vars)); [newline]];
   [bytes "current reference count is "; fmt_usize (counts vars).1; [newline]];
   [bytes "reference count is "; fmt_usize (counts vars).2; bytes " now"; [newline]]].
Definition main_texts (vars : locals) : list (list (list Z)) :=
  greeting_texts ++ demo_texts vars ++ [[bytes "It did not crash!"; [newline]]].

Lemma emits_on_kernel {A} (f : K A) Φ : emits (λ s, s) f Φ → emitsW (on_kernel f) Φ.
Proof.
  intros Hf [[c k] h] a w'. unfold on_kernel, on_boot, on_machine. cbn [fst snd].
  destruct (f k) as [[b k']| | |] eqn:E; [|done..]. run. intros [= <- <-]. exact (Hf _ _ _ E).
Qed.

Lemma emits_kprint args : emitsW (kprint args) (λ _ l, l = [Text args]).
Proof. apply emits_on_kernel, emitsK_seq; [apply emits_preempt|]. intros []. apply emits_print. Qed.

Lemma emits_on_heap {A} (f : heapM (Locked (FixedSizeBlockAllocator Heap)) A) :
  emitsW (on_heap f) (λ _ l, l = []).
Proof.
  apply emits_silent. intros [[c k] h] a w'. unfold on_heap. cbn [fst snd].
  destruct (f h) as [[b h']| | |]; [|done..]. run. by intros [= <- <-].
Qed.

Lemma emits_setup_heap boot_info : emitsW (setup_heap debug_map_error boot_info) (λ _ l, l = []).
Proof.
  apply emits_silent. intros w [] w'. unfold setup_heap. intros E. inv_done.
  destruct_or?. repeat case_match; simplify_eq. by inv_done.
Qed.

Lemma emits_init : emitsW (on_boot (Boot.init STACK)) (λ _ l, l = []).
Proof.
  apply emits_silent. intros [b h] r w'. unfold on_boot. cbn [fst snd].
  destruct (Boot.init STACK b) as [[[] b']| | |] eqn:E; [|done..]. run. intros [= <- <-].
  apply init_changes in E as [x E]. cbn [fst]. by rewrite E.
Qed.

Lemma emits_greeting :
  emitsW greeting (λ _ l, l = Text <$> greeting_texts).
Proof.
  unfold greeting, kprintln.
  eapply emits_bind; [apply emits_kprint|]. intros [] l1 ->.
  eapply emits_bind; [apply emits_kprint|]. intros [] l2 ->.
  eapply emits_bind; [apply emits_kprint|]. intros [] l3 ->.
  eapply emits_conseq; [apply emits_kprint|]. by intros [] l4 ->.
Qed.

Lemma emits_heap_demo :
  emitsW heap_demo (λ vars l, l = Text <$> demo_texts vars).
Proof.
  unfold heap_demo, kprintln.
  apply emits_seq; [apply emits_on_heap|]. intros p.
  eapply emits_bind; [apply emits_kprint|]. intros [] l1 ->.
  apply emits_seq; [apply emits_on_heap|]. intros v.
  eapply emits_bind; [apply emits_kprint|]. intros [] l2 ->.
  apply emits_seq; [apply emits_on_heap|]. intros u.
  apply emits_seq; [apply emits_on_heap|]. intros rc.
  apply emits_seq; [apply emits_on_heap|]. intros cl.
  apply emits_seq; [apply emits_on_heap|]. intros n.
  eapply emits_bind; [apply emits_kprint|]. intros [] l3 ->.
  apply emits_seq; [apply emits_on_heap|]. intros [].
  apply emits_seq; [apply emits_on_heap|]. intros n'.
  eapply emits_bind; [apply emits_kprint|]. intros [] l4 ->.
  by apply emits_ret.
Qed.

Lemma emits_before_tasks boot_info requests :
  emitsW (before_tasks STACK debug_map_error boot_info requests) (λ vars l, l = Text <$> main_texts vars).
Proof.
  unfold before_tasks, kprintln.
  eapply emits_bind; [apply emits_greeting|]. intros [] l1 ->.
  apply emits_seq; [apply emits_init|]. intros [].
  apply emits_seq; [apply emits_setup_heap|]. intros [].
  eapply emits_bind; [apply emits_heap_demo|]. intros vars l2 ->.
  eapply emits_bind; [apply emits_kprint|]. intros [] l3 ->.
  apply emits_seq; [apply emits_on_heap|]. intros bs. by apply emits_ret.
Qed.

(** A complete account of a run from a screen [vga]: it explains what is on the screen in
    the end, all interrupts have been handled, and it is a possible account in which the
    program has printed its texts, then those of its tasks in the order in which they were
    spawned, and the decoder has got exactly the key presses that were queued. *)
Definition complete_account (vga : Buffer) (irqs : list irq) (vars : locals) (tr : list event)
    (s' : kstate) : Prop :=
  print_body (WRITER vga) (tr ≫= shown_text) = Done (writer s') ∧
  arrived tr = irqs ∧
  program tr = (Text <$> main_texts vars) ++
               Text example_text :: Start :: key_outputs kbd_new (queued tr) ∧
  replay tr None = Some (Some (QUEUE_CAPACITY, [])) ∧
  ((length (scancodes irqs) ≤ QUEUE_CAPACITY)%nat → ∀ sc, Key sc Dropped ∉ tr).

End kernel.

(** ** Properties *)

Section properties.
Context `{BuildProfile, DebugLayout, AsyncLaws, PcKeyboard, X86GdtLaws, X86VirtLaws, X86PhysLaws}.
Context `{FallbackLaws Heap, !Mapper M BootInfoFrameAllocator, !OffsetPageTable M}.
Context `{!MapperLaws M BootInfoFrameAllocator}.

(** C3: what the whole kernel shows, whatever interrupts arrive, whatever was on the screen
    before and whatever heap its tasks use.  When it comes to rest the screen is the result of printing the texts
    of a complete account of the run: the texts of [kernel_main] in their order, that of
    the example task, a dot for each tick of the timer and the decoded keys, interleaved
    as the interrupts came.  No key press is lost without a trace: it is decoded, in its
    turn, or there is a warning for it on the screen, that the queue does not exist yet or
    is full; the latter only if more keys are pressed than the queue holds. *)
Theorem screen_tells_all STACK debug_map_error kfuel fuel boot_info requests (c : cpu)
    vga irqs m :
  let input := scancodes (concat irqs) in
  requests_ok (Heap := Heap) requests → rows_wf (chars vga) → map_ok (memory_map boot_info) →
  paging_ok (cr3 c) (physical_memory_offset boot_info) →
  0 ≤ STACK ∧ STACK + STACK_SIZE < 2 ^ 47 →
  (length input < kfuel)%nat → (2 + 2 * length (concat irqs) < fuel)%nat →
  match kernel_main (Heap := Heap) (M := M) STACK debug_map_error kfuel fuel boot_info requests
          (c, boot_state vga irqs, (ALLOCATOR_init, m)) with
  | Done (vars, executor, (c', s', heap')) =>
      ∃ tr, complete_account vga (concat irqs) vars tr s' ∧ counts vars = (2, 1)
  | Panicked msg =>
      (∃ e, msg = heap_init_error debug_map_error e) ∨ (∃ l, msg = alloc_error l) ∨
      msg = "task queue full" ∧ (QUEUE_CAPACITY < 2 + length input)%nat
  | Faulted | Diverged => False
  end.
Proof.
  intros input Hrq Hv Hmm Hp Hst Hkf Hf. set (s0 := boot_state vga irqs).
  pose proof (boot_state_ok vga irqs Hv) as Hok.
  pose proof (boot_state_unstarted vga irqs) as Hu.
  set (w0 := (c, s0, (ALLOCATOR_init, m))).
  pose proof (htriple_kernel_main STACK debug_map_error s0 kfuel fuel boot_info requests c
    Hrq Hok Hu Hst Hmm Hp Hkf Hf w0 ltac:(done)) as Hk.
  destruct (kernel_main _ _ _ _ _ _ w0) as [[[vars ex] [[c' k] h]]|msg| |] eqn:E; [|done..].
  destruct Hk as (((handled & Hex & _) & [Hq _] & _ & Hfi) & _ & Hcnt & _).
  cbn [fst snd] in *. rewrite kernel_main_split in E.
  unfold mbind at 1, stM_bind at 1 in E.
  pose proof (htriple_before_tasks STACK debug_map_error s0 (λ _, True) ltac:(done) ltac:(done)
    boot_info requests c Hrq Hst Hmm Hp w0 ltac:(by split_and!)) as Hb.
  destruct (before_tasks _ _ _ _ w0) as [[vars1 w1]|msg| |] eqn:Eb; [|done..].
  destruct Hb as ([_ (Hok1 & Hv1 & _)] & _).
  destruct (emits_before_tasks STACK debug_map_error boot_info requests w0 vars1 w1 Eb)
    as (tr1 & Hb1 & Hl1).
  destruct w1 as [[c1 k1] h1]. cbn [fst snd] in *.
  unfold mbind, stM_bind, on_kernel, on_boot, on_machine in E. cbn [fst snd outcome_bind] in E.
  destruct (kernel_tasks kfuel fuel k1) as [[ex1 k2]|msg| |] eqn:Ek; [|done..].
  cbn [outcome_bind] in E. injection E as -> -> -> -> ->.
  destruct (kernel_tasks_account kfuel fuel k1 ex k handled Hok1 ltac:(by rewrite Hv1) Ek Hex)
    as (tr2 & h' & Hb2 & Hl2).
  destruct (between_trans _ _ _ _ _ Hb1 Hb2) as (Hpr & Hir & Hrp).
  exists (tr1 ++ tr2). split; [|done].
  assert (program (tr1 ++ tr2) = (Text <$> main_texts vars) ++
            Text example_text :: Start :: key_outputs kbd_new h') as Hprog
    by (unfold program in *; by rewrite omap_app, Hl1, Hl2).
  assert (queue_of s0 = None) as Hq0 by (unfold queue_of; cbn; by rewrite cell_uninit_spec).
  change (queue_of w0.1.2) with (queue_of s0) in Hrp. rewrite Hq0 in Hrp.
  assert (queue_of k = Some (QUEUE_CAPACITY, [])) as Hqk.
  { unfold get_view in Hq. cbn in Hq. unfold queue_of in *.
    destruct (cell_try_get (SCANCODE_QUEUE k)) as [q|]; [|done]. injection Hq as Hq. cbn in *.
    pose proof (replay_capacity _ _ _ Hrp ltac:(done)) as Hc. cbn in Hc. by rewrite Hc, Hq. }
  rewrite Hqk in Hrp. rewrite Hfi, app_nil_r in Hir.
  assert (queued (tr1 ++ tr2) = h') as Hh.
  { pose proof (replay_fifo _ _ _ Hrp) as Hfifo. rewrite Hprog, taken_app in Hfifo.
    rewrite (taken_texts (λ a, a)) in Hfifo.
    change (queued (tr1 ++ tr2) = taken (key_outputs kbd_new h') ++ []) in Hfifo.
    by rewrite Hfifo, app_nil_r, taken_key_outputs. }
  split_and!; [exact Hpr|by rewrite <-Hir|by rewrite Hh|exact Hrp|].
  intros Hlen sc. apply (none_dropped _ _ _ Hrp). rewrite <-Hir, <-length_scancodes. exact Hlen.
Qed.

End properties.

(** ** Witness *)

#[local] Existing Instances dev_profile plain_debug size_first_layout phys_model phys_model_laws
  virt_model virt_model_laws mapper_model mapper_model_laws echo_keyboard list_lib list_laws
  list_gdt list_gdt_laws empty_page_table.

Lemma screen_tells_all_witness :
  match kernel_run with
  | Done (vars, executor, (c', s', heap')) =>
      ∃ tr, complete_account blank_buffer (concat sample_irqs) vars tr s' ∧ counts vars = (2, 1)
  | Panicked msg =>
      (∃ e, msg = heap_init_error debug_error e) ∨ (∃ l, msg = alloc_error l) ∨
      msg = "task queue full" ∧ (QUEUE_CAPACITY < 2 + length (scancodes (concat sample_irqs)))%nat
  | Faulted | Diverged => False
  end.
Proof.
  unfold kernel_run.
  exact (screen_tells_all (Heap := LinkedListAllocator) (M := gmap Z (Z * Z)) 0x10000
           debug_error 4 15 sample_boot_info sample_requests reset_cpu blank_buffer sample_irqs ∅
           sample_requests_ok (proj1 blank_screen_wf) sample_map_ok sample_paging ltac:(done)
           ltac:(vm_compute; lia) ltac:(vm_compute; lia)).
Defined.

(** The screen after a run of the tasks: the key 30 came too early, the others are echoed. *)
Lemma tasks_shown :
  match kernel_tasks 4 13 boot_machine with Done (_, s') => shown 3 (writer s') | _ => [] end =
  [bytes ".WARNING: scancode queue uninitialized"; bytes "async number: 89"; [46; 254]].
Proof. vm_compute. reflexivity. Qed.
