(* ===== verification/Experiments.v ===== *)
(** * Looking at the page tables (src/src/main.rs)

    Two experiments that [kernel_main] keeps in comments: printing the translations of four
    addresses, and listing the entries of the level 4 page table with those of the tables
    below.  They run between [init] and the start of the tasks, with interrupts enabled.
    The theorems say exactly which lines the program prints, between those of the
    interrupts, in terms of the physical memory and the CPU's walk of it. *)

From stdpp Require Import prelude gmap strings pretty.
From S2P Require Import Prelude Layout Memory Access GlobalAlloc AsyncLib Locked.
From S2P Require Import LinkedList FixedSizeBlock FallbackModel Vga Frames HeapInit Paging PageWalk.
From S2P Require Import Collections HeapTests Machine Interrupts Hoare Keyboard Console Task Executor.
From S2P Require Import Scheduler Boot KernelMain.

(** [Translate::translate_addr] of the [x86_64] crate for the mapper. *)
Class Translate (M : Type) := { mapper_translate_addr : M → mem → Z → outcome (option Z) }.

(** It walks the tables as the CPU does, huge pages included. *)
Class TranslateLaws (M : Type) `{Translate M, OffsetPageTable M} := {
  mapper_translate_addr_spec m pm offset limit table va :
    physical_memory_mapped m pm offset limit → path_ok pm limit 4 table va →
    0 ≤ va < 2 ^ 47 →
    mapper_translate_addr (offset_page_table_new (offset + table) offset) m va =
      Done (snd <$> cpu_walk pm 4 table va);
}.

Section experiments.
Context `{BuildProfile, DebugLayout, AsyncLib, X86Gdt, X86Virt, X86PageTable}.
Context `{FallbackHeap Heap, !OffsetPageTable M, !Translate M}.

(** [{:?}] of a virtual address, of an optional physical one, and of a table entry. *)
Variable debug_virt : Z → list Z.
Variable debug_phys : option Z → list Z.
Variable debug_entry : Z → list Z.

Abbreviation world := (cpu * kstate * (Locked (FixedSizeBlockAllocator Heap) * mem))%type.

(** A computation on the CPU and the memory. *)
Definition observe {A} (f : cpu → mem → outcome A) : stM world A := λ w,
  r ← f w.1.1 w.2.2; Done (r, w).

(** [for] loops *)
Fixpoint for_each {A} (l : list A) (body : A → stM world unit) : stM world unit :=
  match l with
  | [] => mret ()
  | x :: l' => _ ← body x; for_each l' body
  end.

Definition print_translation (mapper : M) (address : Z) : stM world unit :=
  virt ← observe (λ _ _, virt_addr_new address);
  phys ← observe (λ _ m, mapper_translate_addr mapper m virt);
  kprintln [debug_virt virt; bytes " -> "; debug_phys phys].

(** The first experiment. *)
Definition print_translations (boot_info : BootInfo) : stM world unit :=
  phys_mem_offset ← observe (λ _ _, virt_addr_new (physical_memory_offset boot_info));
  mapper ← observe (λ c _, memory_init (cr3 c) phys_mem_offset);
  let addresses := [0xb8000; 0x201008; 0x010000201a10; physical_memory_offset boot_info] in
  for_each addresses (print_translation mapper).

(** [table.iter().enumerate()], with a line for each entry that is used. *)
Definition for_entries (table : Z) (body : Z → Z → stM world unit) : stM world unit :=
  for_each (seqZ 0 512) (λ i,
    entry ← observe (λ _ m, read_word m (table + word_size * i));
    if entry_is_unused entry then mret () else body i entry).

Definition print_level_3_table (l3_table : Z) : stM world unit :=
  for_entries l3_table (λ i entry,
    kprintln [bytes "  L3 Entry "; fmt_usize i; bytes ": "; debug_entry entry]).

(** [Result::unwrap], and the entry's table reached through the offset. *)
Definition entry_table (boot_info : BootInfo) (entry : Z) : outcome Z :=
  match entry_frame entry with
  | inl phys =>
      virt ← usize_add phys (physical_memory_offset boot_info);
      ptr ← virt_addr_new virt;
      page_table_ref ptr
  | inr FrameNotPresent => Panicked "called `Result::unwrap()` on an `Err` value: FrameNotPresent"
  | inr HugeFrame => Panicked "called `Result::unwrap()` on an `Err` value: HugeFrame"
  end.

(** The second experiment. *)
Definition print_level_4_table (boot_info : BootInfo) : stM world unit :=
  phys_mem_offset ← observe (λ _ _, virt_addr_new (physical_memory_offset boot_info));
  l4_table ← observe (λ c _, active_level_4_table (cr3 c) phys_mem_offset);
  for_entries l4_table (λ i entry,
    _ ← kprintln [bytes "L4 Entry "; fmt_usize i; bytes ": "; debug_entry entry];
    l3_table ← observe (λ _ _, entry_table boot_info entry);
    print_level_3_table l3_table).

(** ** What they are to print, from the physical memory *)

Abbreviation line := (list (list Z)).

Definition translation_line (pm : Z → Z) (table va : Z) : line :=
  [debug_virt va; bytes " -> "; debug_phys (snd <$> cpu_walk pm 4 table va); [newline]].

(** The lines of a table that is not used up to its end. *)
Definition entry_lines (pm : Z → Z) (table : Z) (lines : Z → Z → list line) : list line :=
  seqZ 0 512 ≫= λ i,
    let e := pm (table + word_size * i) in if bool_decide (e = 0) then [] else lines i e.

Definition level_3_lines (pm : Z → Z) (table : Z) : list line :=
  entry_lines pm table (λ i e,
    [[bytes "  L3 Entry "; fmt_usize i; bytes ": "; debug_entry e; [newline]]]).

Definition level_4_lines (pm : Z → Z) (table : Z) : list line :=
  entry_lines pm table (λ i e,
    [bytes "L4 Entry "; fmt_usize i; bytes ": "; debug_entry e; [newline]]
    :: level_3_lines pm (entry_address e)).

End experiments.

(** ** Rules for code that only looks and prints *)

Section proofs.
Context `{BuildProfile, DebugLayout, AsyncLaws, X86Gdt, X86VirtLaws, X86PageTableLaws}.
Context `{FallbackHeap Heap, !OffsetPageTable M, !Translate M, !TranslateLaws M}.
Variables (debug_virt debug_entry : Z → list Z) (debug_phys : option Z → list Z).

Abbreviation world := (cpu * kstate * (Locked (FixedSizeBlockAllocator Heap) * mem))%type.
Abbreviation heap := (Locked (FixedSizeBlockAllocator Heap) * mem)%type.

(** Before the tasks are started, with this CPU, heap and memory. *)
Definition looking (c : cpu) (h : heap) (w : world) : Prop :=
  w.1.1 = c ∧ w.2 = h ∧ machine_ok w.1.2 ∧ unstarted (get_view w.1.2).

(** The program returns, changes neither CPU nor memory, and itself prints these lines. *)
Definition prints c h (f : stM world unit) (lines : list (list (list Z))) : Prop :=
  ∀ w, looking c h w → ∃ w', f w = Done ((), w') ∧ looking c h w' ∧
    ∃ tr, between w.1.2 tr w'.1.2 ∧ program tr = Text <$> lines.

Section rules.
Variables (c : cpu) (h : heap).

Lemma prints_nothing : prints c h (mret ()) [].
Proof. intros w Hw. exists w. split_and!; [done|done|]. exists []. by split; [apply between_refl|]. Qed.

Lemma prints_seq f g lf lg :
  prints c h f lf → prints c h g lg → prints c h (_ ← f; g) (lf ++ lg).
Proof.
  intros Hf Hg w Hw. destruct (Hf w Hw) as (w1 & E1 & Hw1 & tr1 & Hb1 & Hl1).
  destruct (Hg w1 Hw1) as (w2 & E2 & Hw2 & tr2 & Hb2 & Hl2). exists w2.
  unfold mbind, stM_bind. rewrite E1. run. split_and!; [done|done|]. exists (tr1 ++ tr2).
  split; [by eapply between_trans|]. unfold program in *. by rewrite omap_app, Hl1, Hl2, fmap_app.
Qed.

Lemma prints_observe {A} (o : cpu → mem → outcome A) a (f : A → stM world unit) lines :
  o c h.2 = Done a → prints c h (f a) lines → prints c h (observe o ≫= f) lines.
Proof.
  intros Ho Hf w Hw. destruct (Hf w Hw) as (w' & E & Hw'). exists w'. split; [|done].
  unfold observe, mbind, stM_bind. destruct Hw as (-> & -> & _). by rewrite Ho.
Qed.

Lemma prints_for_each {A} (l : list A) body lines :
  (∀ x, x ∈ l → prints c h (body x) (lines x)) → prints c h (for_each l body) (l ≫= lines).
Proof.
  induction l as [|x l IH]; intros Hb; [apply prints_nothing|]. cbn [for_each].
  rewrite bind_cons. apply prints_seq; [apply Hb; set_solver|]. apply IH. set_solver.
Qed.

Lemma prints_kprintln args : prints c h (kprintln args) [args ++ [[newline]]].
Proof.
  intros [[c0 k] h0] (Hc & Hh & Hok & Hu). cbn [fst snd] in *.
  destruct (preempt_unstarted k Hok Hu) as (k1 & E1 & Hok1 & Hv1 & _).
  destruct (vga_print_spec (args ++ [[newline]]) k1 (proj1 Hok1)) as (v & k2 & E2 & Hsb & _).
  destruct (same_but_screen_ok k1 k2 Hsb Hok1) as (Hok2 & Hv2 & _).
  destruct (emits_preempt k () k1 E1) as (tr1 & Hb1 & Hl1).
  destruct (emits_print (args ++ [[newline]]) k1 () k2 E2) as (tr2 & Hb2 & Hl2).
  exists (c0, k2, h0). split.
  { unfold kprintln, kprint, on_kernel, on_boot, on_machine. cbn [fst snd].
    by rewrite (bind_K_Done _ _ _ _ _ E1), E2. }
  split; [split_and!; [done..|cbn; by rewrite Hv2, Hv1]|]. exists (tr1 ++ tr2).
  split; [by eapply between_trans|]. unfold program in *. by rewrite omap_app, Hl1, Hl2.
Qed.

End rules.

(** ** Reading the tables *)

Section tables.
Variables (c : cpu) (h : heap) (pm : Z → Z) (offset limit : Z).
Hypothesis mapped_ok : physical_memory_mapped h.2 pm offset limit.

Definition table_in (table : Z) : Prop :=
  0 ≤ table ∧ (page_size | table) ∧ table + page_size ≤ limit.

Lemma prints_for_entries table body lines :
  table_in table →
  (∀ i, 0 ≤ i < 512 → let e := pm (table + word_size * i) in
     e ≠ 0 → prints c h (body i e) (lines i e)) →
  prints c h (for_entries (offset + table) body) (entry_lines pm table lines).
Proof.
  intros (Hn & Hd & Hl) Hb.
  destruct (table_readable h.2 pm offset limit mapped_ok table Hn Hd Hl) as (_ & _ & _ & Hr).
  apply prints_for_each. intros i Hi%elem_of_seqZ. cbn zeta.
  eapply prints_observe; [apply Hr; lia|]. rewrite entry_is_unused_spec.
  case_bool_decide as Hz; [apply prints_nothing|]. apply Hb; [lia|done].
Qed.

Lemma prints_level_3_table table :
  table_in table →
  prints c h (print_level_3_table debug_entry (offset + table))
    (level_3_lines debug_entry pm table).
Proof. intros Ht. apply prints_for_entries; [done|]. intros i _ e _. apply prints_kprintln. Qed.

End tables.

(** The table of an entry, reached through the offset. *)
Lemma entry_table_Done (boot_info : BootInfo) m pm limit e :
  physical_memory_mapped m pm (physical_memory_offset boot_info) limit →
  entry_present e = true → entry_huge e = false → table_in limit (entry_address e) →
  entry_table boot_info e = Done (physical_memory_offset boot_info + entry_address e).
Proof.
  intros Hm Hp Hh (H0e & Hd & Hl). pose proof Hm as (Ho & _).
  destruct (table_readable m pm _ limit Hm _ H0e Hd Hl) as (_ & Er & Hlt & _).
  unfold entry_table. rewrite entry_frame_spec, Hp, Hh. cbn [negb].
  rewrite (Z.add_comm _ (entry_address e)) in *.
  run usize_add_Done by (unfold usize_modulus, usize_bits; lia).
  run virt_addr_new_ok by lia. exact Er.
Qed.

(** The entries of the level 4 table that are used lead to tables. *)
Definition level_4_ok (pm : Z → Z) (limit table : Z) : Prop :=
  table_in limit table ∧ ∀ i, 0 ≤ i < 512 → let e := pm (table + word_size * i) in
    e ≠ 0 → entry_present e = true ∧ entry_huge e = false ∧ table_in limit (entry_address e).

End proofs.

(** ** Properties *)

Section properties.
Context `{BuildProfile, DebugLayout, AsyncLaws, X86Gdt, X86VirtLaws, X86PageTableLaws}.
Context `{FallbackHeap Heap, !OffsetPageTable M, !Translate M, !TranslateLaws M}.
Variables (debug_virt debug_entry : Z → list Z) (debug_phys : option Z → list Z).

(** The listing of the page tables, before the tasks are started and whatever interrupts
    arrive: if every used entry of the level 4 table leads to a table, the experiment
    returns without changing CPU or memory, and it prints, between the lines of the
    interrupts, exactly one line for each used entry in the order of the table, each
    followed by one for every used entry of the table it leads to. *)
Lemma page_tables_listed boot_info pm limit (c : cpu)
    (h : Locked (FixedSizeBlockAllocator Heap) * mem) w :
  physical_memory_mapped h.2 pm (physical_memory_offset boot_info) limit →
  level_4_ok pm limit (cr3 c) → looking c h w →
  ∃ w', print_level_4_table debug_entry boot_info w = Done ((), w') ∧ looking c h w' ∧
    ∃ tr, between w.1.2 tr w'.1.2 ∧
      program tr = Text <$> level_4_lines debug_entry pm (cr3 c).
Proof.
  intros Hm (Hin & Hent) Hw. revert w Hw. pose proof Hm as (Ho & _ & Hlim & _).
  pose proof Hin as (Hc0 & Hcd & Hcl).
  destruct (table_readable h.2 pm _ limit Hm _ Hc0 Hcd Hcl) as (Ev & Er & Hlt & _).
  change (prints c h (print_level_4_table debug_entry boot_info)
    (level_4_lines debug_entry pm (cr3 c))).
  eapply prints_observe; [apply virt_addr_new_ok; lia|].
  eapply prints_observe; [unfold active_level_4_table; run Ev; exact Er|].
  apply (prints_for_entries c h pm _ limit); [done..|]. intros i Hi e He.
  destruct (Hent i Hi He) as (Hp & Hh & Ht). fold e in Hp, Hh, Ht.
  apply (prints_seq c h _ _ [_]); [apply prints_kprintln|].
  eapply prints_observe; [by eapply entry_table_Done|]. by eapply prints_level_3_table.
Qed.

(** The translations that the first experiment prints are the CPU's: one line for each
    of the four addresses, in their order, huge pages included, which the walk by hand of
    memory.rs does not support. *)
Lemma translations_printed boot_info pm limit (c : cpu)
    (h : Locked (FixedSizeBlockAllocator Heap) * mem) w :
  let addresses := [0xb8000; 0x201008; 0x010000201a10; physical_memory_offset boot_info] in
  physical_memory_mapped h.2 pm (physical_memory_offset boot_info) limit →
  table_in limit (cr3 c) → Forall (path_ok pm limit 4 (cr3 c)) addresses → looking c h w →
  ∃ w', print_translations (M := M) debug_virt debug_phys boot_info w = Done ((), w') ∧
    looking c h w' ∧
    ∃ tr, between w.1.2 tr w'.1.2 ∧
      program tr = Text <$> (translation_line debug_virt debug_phys pm (cr3 c) <$> addresses).
Proof.
  intros addresses Hm (Hc0 & Hcd & Hcl) Hpath Hw. revert w Hw. pose proof Hm as (Ho & _ & Hlim & _).
  destruct (table_readable h.2 pm _ limit Hm _ Hc0 Hcd Hcl) as (Ev & Er & Hlt & _).
  change (prints c h (print_translations (M := M) debug_virt debug_phys boot_info)
    (translation_line debug_virt debug_phys pm (cr3 c) <$> addresses)).
  eapply prints_observe; [apply virt_addr_new_ok; unfold page_size in *; lia|].
  eapply prints_observe; [unfold memory_init, active_level_4_table; run Ev; by run Er|].
  replace (translation_line debug_virt debug_phys pm (cr3 c) <$> addresses)
    with (addresses ≫= λ va, [translation_line debug_virt debug_phys pm (cr3 c) va])
    by done.
  apply prints_for_each. intros va Hva. rewrite Forall_forall in Hpath.
  assert (0 ≤ va < 2 ^ 47) as Hr.
  { unfold addresses, page_size in *. rewrite !elem_of_cons, elem_of_nil in Hva.
    destruct_or!; subst; lia. }
  unfold print_translation. eapply prints_observe; [by apply virt_addr_new_ok|].
  eapply prints_observe; [by eapply mapper_translate_addr_spec, Hr; [|apply Hpath]|].
  apply prints_kprintln.
Qed.

End properties.

(** ** Witnesses *)

#[local] Existing Instances dev_profile plain_debug size_first_layout virt_model virt_model_laws
  list_lib list_laws list_gdt page_table_model page_table_model_laws.

(** A mapper that walks the tables as the CPU does. *)
Lemma cpu_walk_ext pm pm' limit n table va :
  (∀ a, 0 ≤ a → a + word_size ≤ limit → (word_size | a) → pm' a = pm a) →
  path_ok pm limit n table va → cpu_walk pm' n table va = cpu_walk pm n table va.
Proof.
  intros Hpm. revert table. induction n as [|n IH]; intros table; [done|].
  intros (Ht & [j Hj] & Hl & Hp). cbn [cpu_walk]. pose proof (table_index_bound n va) as Hi.
  rewrite Hpm; [|unfold word_size, page_size in *; lia..|].
  2: { exists (512 * j + table_index n va). unfold word_size, page_size in *. lia. }
  cbn zeta in Hp. destruct (entry_present _); [|done]. cbn [negb].
  destruct (Hp eq_refl) as [_ Hrest]. destruct (entry_huge _); [by rewrite orb_true_r|]. rewrite andb_false_r, orb_false_r.
  case_bool_decide; [done|]. by apply IH, Hrest.
Qed.

Definition walking_page_table : OffsetPageTable (Z * Z) := {|
  offset_page_table_new level_4_table offset := (level_4_table - offset, offset);
|}.
Definition walking_translate : Translate (Z * Z) := {|
  mapper_translate_addr p m va :=
    Done (snd <$> cpu_walk (λ a, default 0 (m !! (p.2 + a))) 4 p.1 va);
|}.
#[local] Existing Instances walking_page_table walking_translate.

Lemma walking_translate_laws : TranslateLaws (Z * Z).
Proof.
  split. intros m pm offset limit table va (_ & _ & _ & Hm) Hp Hva.
  unfold mapper_translate_addr, walking_translate, offset_page_table_new, walking_page_table.
  cbn [fst snd]. f_equal. f_equal.
  replace (offset + table - offset) with table by lia. eapply cpu_walk_ext; [|exact Hp].
  intros a Ha Hl Hd. by rewrite Hm.
Qed.
#[local] Existing Instance walking_translate_laws.

Definition experiment_cpu : cpu := mkCpu None None None None 0.
Definition experiment_info : BootInfo := mkBootInfo [] tables_offset.

(** A key is pressed, and the timer ticks, while the experiments print. *)
Definition experiment_machine : kstate :=
  set_irqs [] [[]; [TimerIrq]; [KeyboardIrq 30]] idle_machine.

Definition experiment_world (m : mem)
    : cpu * kstate * (Locked (FixedSizeBlockAllocator LinkedListAllocator) * mem) :=
  (experiment_cpu, experiment_machine, (ALLOCATOR_init, m)).

Lemma experiment_looking m : looking experiment_cpu (ALLOCATOR_init, m) (experiment_world m).
Proof. split_and!; [done|done|exact idle_machine_ok|by split]. Qed.

(** A level 4 table with one entry, which leads to the same table. *)
Definition one_entry : mem := make_tables [(1, 3)].

Lemma one_entry_ok : level_4_ok (physical_of one_entry) 0x1000 0.
Proof.
  split; [split_and!; [done|by exists 0|done]|]. intros i Hi e He.
  assert (Forall (λ i, physical_of one_entry (0 + word_size * i) = if bool_decide (i = 1) then 3 else 0)
    (seqZ 0 512)) as Hall by (apply (bool_decide_unpack _); vm_compute; exact I).
  rewrite Forall_forall in Hall. specialize (Hall i ltac:(apply elem_of_seqZ; lia)).
  cbv beta in Hall. subst e. rewrite Hall in *. case_bool_decide; [|by destruct (He eq_refl)].
  split_and!; [done|done|]. split_and!; [done|by exists 0|done].
Qed.

Definition show_hex (e : Z) : list Z := fmt_pointer e.

Lemma page_tables_listed_witness :
  ∃ w' tr, print_level_4_table show_hex experiment_info (experiment_world one_entry) = Done ((), w') ∧
    between experiment_machine tr w'.1.2 ∧
    program tr = [Text [bytes "L4 Entry "; bytes "1"; bytes ": "; bytes "0x3"; [newline]];
                  Text [bytes "  L3 Entry "; bytes "1"; bytes ": "; bytes "0x3"; [newline]]].
Proof.
  destruct (page_tables_listed show_hex experiment_info (physical_of one_entry) 0x1000
    experiment_cpu (ALLOCATOR_init, one_entry) _ (make_tables_mapped [(1, 3)]) one_entry_ok (experiment_looking one_entry))
    as (w' & E & _ & tr & Hb & Hl).
  exists w', tr. split_and!; [exact E|exact Hb|]. rewrite Hl. vm_compute. reflexivity.
Defined.

(** The screen and a huge page are mapped, the third address is not, and the tables
    themselves are reached through the offset. *)
Definition mapped_addresses : mem := make_tables [(0, 3); (1, 0x400083); (48, 3); (184, 0xb8003)].

Definition show_phys (p : option Z) : list Z :=
  match p with Some a => bytes "Some " ++ fmt_pointer a | None => bytes "None" end.

Lemma mapped_addresses_path :
  Forall (path_ok (physical_of mapped_addresses) 0x1000 4 0)
    [0xb8000; 0x201008; 0x010000201a10; tables_offset].
Proof. apply (bool_decide_unpack _). vm_compute. exact I. Qed.

Lemma translations_printed_witness :
  ∃ w' tr, print_translations (M := Z * Z) show_hex show_phys experiment_info
             (experiment_world mapped_addresses) = Done ((), w') ∧
    between experiment_machine tr w'.1.2 ∧
    program tr = [Text [bytes "0xb8000"; bytes " -> "; bytes "Some 0xb8000"; [newline]];
                  Text [bytes "0x201008"; bytes " -> "; bytes "Some 0x401008"; [newline]];
                  Text [bytes "0x10000201a10"; bytes " -> "; bytes "None"; [newline]];
                  Text [bytes "0x180000000000"; bytes " -> "; bytes "Some 0x0"; [newline]]].
Proof.
  destruct (translations_printed (M := Z * Z) show_hex show_phys experiment_info
    (physical_of mapped_addresses) 0x1000 experiment_cpu (ALLOCATOR_init, mapped_addresses) _
    (make_tables_mapped [(0, 3); (1, 0x400083); (48, 3); (184, 0xb8003)])
    ltac:(split_and!; [done|by exists 0|done]) mapped_addresses_path
    (experiment_looking mapped_addresses)) as (w' & E & _ & tr & Hb & Hl).
  exists w', tr. split_and!; [exact E|exact Hb|]. rewrite Hl. vm_compute. reflexivity.
Defined.
