(* ===== verification/WakerRun.v ===== *)
(** * The wakers of the whole kernel

    WakerRefs.v follows the references to wakers through the tasks; this file does so from
    the kernel's entry on.  Before the tasks are created no waker exists, and nothing that
    runs until then, interrupts included, makes one.  When the kernel has come to rest one
    waker is left, that of the keyboard task, referenced by the executor's cache and
    registered for the next key press. *)

From stdpp Require Import prelude gmap strings.
From S2P Require Import Prelude Layout Memory Access GlobalAlloc AsyncLib Locked.
From S2P Require Import LinkedList FixedSizeBlock FallbackModel Vga Frames HeapInit Paging.
From S2P Require Import Collections HeapTests HeapTraffic Machine Interrupts Hoare Keyboard Task Executor.
From S2P Require Import Scheduler WakerRefs Boot KernelMain.

(** ** Until the tasks are created *)

Section before_tasks.
Context `{BuildProfile, DebugLayout, AsyncLaws, PcKeyboard, X86GdtLaws, X86Virt, X86Phys}.
Context `{FallbackHeap Heap, !Mapper M BootInfoFrameAllocator, !OffsetPageTable M}.
Variable STACK : Z.
Variable debug_map_error : MapToError M BootInfoFrameAllocator → string.

Abbreviation world := (cpu * kstate * (Locked (FixedSizeBlockAllocator Heap) * mem))%type.

(** Every run of the program that returns leaves the cache alone and registers nothing. *)
Definition wsteps {A} (m : stM world A) : Prop :=
  ∀ w a w', m w = Done (a, w') → refs_step w.1.2 w'.1.2.

Lemma wsteps_ret {A} (a : A) : wsteps (mret a).
Proof. intros w b w' [= <- <-]. apply refs_step_refl. Qed.

Lemma wsteps_bind {A B} (m : stM world A) (f : A → stM world B) :
  wsteps m → (∀ a, wsteps (f a)) → wsteps (m ≫= f).
Proof.
  intros Hm Hf w b w'. unfold mbind, stM_bind. destruct (m w) as [[a w1]| | |] eqn:E; [|done..].
  cbn. intros Ef. eapply refs_step_trans; [by eapply Hm|by eapply Hf].
Qed.

Lemma wsteps_on_kernel {A} (f : K A) : steps f → wsteps (on_kernel f).
Proof.
  intros Hf [[c k] h] a w'. unfold on_kernel, on_boot, on_machine. cbn [fst snd].
  destruct (f k) as [[b k']| | |] eqn:E; [|done..]. run. intros [= <- <-]. exact (Hf _ _ _ E).
Qed.

Lemma wsteps_kprint args : wsteps (kprint args).
Proof. apply wsteps_on_kernel. auto 10 with kernel. Qed.

Lemma wsteps_kprintln args : wsteps (kprintln args).
Proof. apply wsteps_kprint. Qed.

Lemma wsteps_on_heap {A} (f : heapM (Locked (FixedSizeBlockAllocator Heap)) A) :
  wsteps (on_heap f).
Proof.
  intros w a w'. unfold on_heap. destruct (f w.2) as [[b h']| | |]; [|done..]. run.
  intros [= <- <-]. apply refs_step_refl.
Qed.

Lemma wsteps_init : wsteps (on_boot (Boot.init STACK)).
Proof.
  intros w r w'. unfold on_boot.
  destruct (Boot.init STACK w.1) as [[[] b']| | |] eqn:E; [|done..]. run. intros [= <- <-].
  apply init_changes in E as [x E]. cbn [fst]. rewrite E. by apply refs_step_same.
Qed.

Lemma wsteps_setup_heap boot_info : wsteps (setup_heap debug_map_error boot_info).
Proof.
  intros w [] w'. unfold setup_heap. intros E. inv_done. destruct_or?.
  repeat case_match; simplify_eq. inv_done. apply refs_step_refl.
Qed.

Create HintDb boot discriminated.
#[local] Hint Resolve wsteps_ret wsteps_kprint wsteps_kprintln wsteps_on_heap wsteps_init
  wsteps_setup_heap : boot.
#[local] Hint Extern 2 (wsteps (_ ≫= _)) => apply wsteps_bind; [|intros ?] : boot.

Lemma wsteps_before_tasks boot_info requests : wsteps (before_tasks STACK debug_map_error boot_info requests).
Proof. unfold before_tasks, greeting, heap_demo. auto 20 with boot. Qed.

End before_tasks.

(** ** Properties *)

Section properties.
Context `{BuildProfile, DebugLayout, AsyncLaws, PcKeyboard, X86GdtLaws, X86VirtLaws, X86PhysLaws}.
Context `{FallbackLaws Heap, !Mapper M BootInfoFrameAllocator, !OffsetPageTable M}.
Context `{!MapperLaws M BootInfoFrameAllocator}.

(** The bookkeeping of wakers when the kernel is asleep: nothing was freed in a handler,
    and the waker of the keyboard task is the only one left, with two references. *)
Definition one_waker_left (executor : Executor kernel_future) (s : kstate) : Prop :=
  freed_wakers s = [] ∧
  waker_cache executor = {[ mkTaskId 1 := TaskWaker (mkTaskId 1) ]} ∧
  cached_wakers s = {[ mkTaskId 1 ]} ∧ is_registered s (mkTaskId 1).

Lemma rest_one_waker kfuel input ex s :
  exec_inv ex → exec_refs (KeepsWakers0 := kernel_keeps_wakers kfuel) ex s →
  quiesced input (Done (ex, s)) → one_waker_left ex s.
Proof.
  intros [_ Hw] ([Hf Hc] & Hd & _) ((h & Ht & _) & [_ Hreg] & _).
  assert (is_registered s (mkTaskId 1)) as Hr by exact Hreg.
  pose proof (Hc _ Hr) as Hin. rewrite Hd, elem_of_dom in Hin. destruct Hin as [w E].
  assert (waker_cache ex = {[ mkTaskId 1 := TaskWaker (mkTaskId 1) ]}) as Hcache.
  { apply map_eq. intros j. destruct (decide (j = mkTaskId 1)) as [->|Hne].
    - rewrite lookup_singleton_eq, E. by apply Hw in E as [-> _].
    - rewrite lookup_singleton_ne by done. destruct (waker_cache ex !! j) as [w'|] eqn:Ej; [|done].
      apply Hw in Ej as [_ Hs]. rewrite Ht, lookup_singleton_ne in Hs by done. by destruct Hs. }
  split_and!; [done|done| |done]. by rewrite Hd, Hcache, dom_singleton_L.
Qed.

(** C18: no interrupt handler frees the memory of a waker, from the kernel's entry up to the
    point where the CPU sleeps for good, whatever interrupts arrive and whatever heap
    the tasks use: each waker that a handler takes and drops is also held by the
    executor's cache.  In the end exactly one waker is left, that of the keyboard task, in
    the cache and registered: the example task's was dropped when the task finished, and
    no interrupt made the cache forget one. *)
Theorem no_waker_freed_in_handlers STACK debug_map_error kfuel fuel boot_info requests (c : cpu)
    vga irqs m :
  let input := scancodes (concat irqs) in
  requests_ok (Heap := Heap) requests → rows_wf (chars vga) → map_ok (memory_map boot_info) →
  paging_ok (cr3 c) (physical_memory_offset boot_info) →
  0 ≤ STACK ∧ STACK + STACK_SIZE < 2 ^ 47 →
  (length input < kfuel)%nat → (2 + 2 * length (concat irqs) < fuel)%nat →
  match kernel_main (Heap := Heap) (M := M) STACK debug_map_error kfuel fuel boot_info requests
          (c, boot_state vga irqs, (ALLOCATOR_init, m)) with
  | Done (vars, executor, (c', s', heap')) => one_waker_left executor s'
  | Panicked msg =>
      (∃ e, msg = heap_init_error debug_map_error e) ∨ (∃ l, msg = alloc_error l) ∨
      msg = "task queue full" ∧ (QUEUE_CAPACITY < 2 + length input)%nat
  | Faulted | Diverged => False
  end.
Proof.
  intros input Hrq Hv Hmm Hp Hst Hkf Hf. set (s0 := boot_state vga irqs).
  set (w0 := (c, s0, (ALLOCATOR_init, m))).
  pose proof (htriple_kernel_main STACK debug_map_error s0 kfuel fuel boot_info requests c
    Hrq (boot_state_ok vga irqs Hv) (boot_state_unstarted vga irqs) Hst Hmm Hp Hkf Hf w0 ltac:(done))
    as Hk.
  destruct (kernel_main _ _ _ _ _ _ w0) as [[[vars ex] [[c' k] h]]|msg| |] eqn:E; [|done..].
  destruct Hk as [Hq _]. cbn [fst snd] in Hq. rewrite kernel_main_split in E.
  unfold mbind at 1, stM_bind at 1 in E.
  destruct (before_tasks _ _ _ _ w0) as [[vars1 [[c1 k1] h1]]|msg| |] eqn:Eb; [|done..].
  apply wsteps_before_tasks in Eb as Hs. cbn [fst snd] in Hs.
  assert (refs_ok s0 ∧ ∀ j, ¬ is_registered s0 j) as [Hok0 Hn0].
  { assert (∀ j, ¬ is_registered s0 j) as Hn by (unfold is_registered; cbn; by rewrite waker_new_spec).
    split; [|done]. split; [done|]. by intros j ?%Hn. }
  unfold mbind, stM_bind, on_kernel, on_boot, on_machine in E. cbn [fst snd outcome_bind] in E.
  destruct (kernel_tasks kfuel fuel k1) as [[ex1 k2]|msg| |] eqn:Ek; [|done..].
  cbn [outcome_bind] in E. injection E as -> -> -> -> ->.
  assert (refs_ok k1 ∧ cached_wakers k1 = ∅ ∧ registered (WAKER k1) = None) as Hk1.
  { split_and!; [by eapply refs_step_ok|by destruct Hs as [-> _]|].
    destruct Hs as (_ & [-> | ->] & _); [apply waker_new_spec|done]. }
  destruct (kernel_tasks_refs kfuel fuel k1 ex k Hk1 Ek). by eapply rest_one_waker.
Qed.

End properties.

(** ** Witness *)

#[local] Existing Instances dev_profile plain_debug size_first_layout phys_model phys_model_laws
  virt_model virt_model_laws mapper_model mapper_model_laws echo_keyboard list_lib list_laws
  list_gdt list_gdt_laws empty_page_table.

Lemma no_waker_freed_in_handlers_witness :
  match kernel_run with
  | Done (vars, executor, (c', s', heap')) => one_waker_left executor s'
  | Panicked msg =>
      (∃ e, msg = heap_init_error debug_error e) ∨ (∃ l, msg = alloc_error l) ∨
      msg = "task queue full" ∧ (QUEUE_CAPACITY < 2 + length (scancodes (concat sample_irqs)))%nat
  | Faulted | Diverged => False
  end.
Proof.
  unfold kernel_run.
  exact (no_waker_freed_in_handlers (Heap := LinkedListAllocator) (M := gmap Z (Z * Z)) 0x10000
           debug_error 4 15 sample_boot_info sample_requests reset_cpu blank_buffer sample_irqs ∅
           sample_requests_ok (proj1 blank_screen_wf) sample_map_ok sample_paging ltac:(done)
           ltac:(vm_compute; lia) ltac:(vm_compute; lia)).
Defined.

(** The same bookkeeping in a run of the tasks that is evaluated. *)
Lemma tasks_leave_one_waker :
  match kernel_tasks 4 13 boot_machine with
  | Done (ex, s') => (freed_wakers s', elements (cached_wakers s'), base.size (waker_cache ex))
  | _ => ([], [], 0%nat)
  end = ([], [mkTaskId 1], 1%nat).
Proof. vm_compute. reflexivity. Qed.
