(* ===== verification/Testing.v ===== *)
(** * The test framework (src/src/lib.rs, src/src/serial.rs)

    The test runner prints its progress to the serial port and ends QEMU through the
    [isa-debug-exit] device; a panicking test ends the run with the failure code.  The
    serial port is the [uart_16550] crate's, outside the repository: a parameter. *)

From stdpp Require Import prelude gmap strings pretty.
From S2P Require Import Prelude Vga Machine.

(** [uart_16550::SerialPort], [SerialPort::new] with [init], and writing bytes. *)
Class Uart := {
  SerialPort : Type;
  serial_new : Z → SerialPort;
  serial_init : SerialPort → SerialPort;
  serial_send : SerialPort → list Z → SerialPort;
}.

(** [sent] are the bytes that were given to [send], in order, before the port's own
    encoding of the control characters backspace and delete, which no text of the kernel
    contains. *)
Class UartLaws `{Uart} := {
  sent : SerialPort → list Z;
  serial_new_spec base : sent (serial_init (serial_new base)) = [];
  serial_send_spec p b : sent (serial_send p b) = sent p ++ b;
}.

Inductive QemuExitCode := Success | Failed.

(** [exit_code as u32] *)
Definition exit_code_u32 (c : QemuExitCode) : Z :=
  match c with Success => 0x10 | Failed => 0x11 end.

(** The [isa-debug-exit] device: a write of [v] ends QEMU with this status. *)
Definition qemu_status (v : Z) : Z := Z.lor (Z.shiftl v 1) 1.

(** [test-success-exit-code] of Cargo.toml *)
Definition test_success_exit_code : Z := 33.

(** A test function: its type name and its body, a program over the machine's state. *)
Record test_fn (S : Type) := mkTest { type_name : list Z; body : stM S unit }.
Arguments mkTest {S}.
Arguments type_name {S}.
Arguments body {S}.

Section runner.
Context `{Uart}.

(** [SERIAL1] on first use. *)
Definition SERIAL1 : SerialPort := serial_init (serial_new 0x3F8).

(** [serial::_print], with the pieces of the formatted text. *)
Definition serial_print (p : SerialPort) (args : list (list Z)) : SerialPort :=
  foldl serial_send p args.

Definition serial_println (p : SerialPort) (args : list (list Z)) : SerialPort :=
  serial_print p (args ++ [[newline]]).

(** [exit_qemu] writes the code to port 0xf4; QEMU ends with the status. *)
Definition exit_qemu (exit_code : QemuExitCode) : Z := qemu_status (exit_code_u32 exit_code).

Context {S : Type}.

(** How the information passed to the panic handler is rendered; it has the message. *)
Variable panic_info : string → list Z.

(** [Testable::run]: [inr] when the test panicked, with the information. *)
Definition test_run (t : test_fn S) (s : S) (p : SerialPort)
    : outcome (S * SerialPort + list Z * SerialPort) :=
  let p := serial_print p [type_name t; bytes "..."; [9]] in
  match body t s with
  | Done (_, s') => Done (inl (s', serial_println p [bytes "[ok]"]))
  | Panicked msg => Done (inr (panic_info msg, p))
  | Faulted => Faulted
  | Diverged => Diverged
  end.

Fixpoint run_tests (tests : list (test_fn S)) (s : S) (p : SerialPort)
    : outcome (S * SerialPort + list Z * SerialPort) :=
  match tests with
  | [] => Done (inl (s, p))
  | t :: tests' =>
      r ← test_run t s p;
      match r with
      | inl (s', p') => run_tests tests' s' p'
      | inr e => Done (inr e)
      end
  end.

(** [test_panic_handler] *)
Definition test_panic_handler (info : list Z) (p : SerialPort) : Z * SerialPort :=
  let p := serial_println p [bytes "[failed]"; [newline]] in
  let p := serial_println p [bytes "Error: "; info; [newline]] in
  (exit_qemu Failed, p).

(** [test_runner]; a panic transfers control to the panic handler.  The result is the
    exit status of QEMU and the serial port. *)
Definition test_runner (tests : list (test_fn S)) (s : S) (p : SerialPort)
    : outcome (Z * SerialPort) :=
  let p := serial_println p
             [bytes "Running "; bytes (pretty (Z.of_nat (length tests))); bytes " tests"] in
  r ← run_tests tests s p;
  match r with
  | inl (_, p') => Done (exit_qemu Success, p')
  | inr (info, p') => Done (test_panic_handler info p')
  end.

(** The bodies alone, one after the other. *)
Fixpoint bodies (tests : list (test_fn S)) : stM S unit :=
  match tests with
  | [] => mret ()
  | t :: tests' => _ ← body t; bodies tests'
  end.

End runner.

(** ** What the runner reports *)

#[local] Arguments bytes : simpl never.

Definition started {S} (t : test_fn S) : list Z := type_name t ++ bytes "..." ++ [9].
Definition passed {S} (t : test_fn S) : list Z := started t ++ bytes "[ok]" ++ [newline].
Definition headline {S} (tests : list (test_fn S)) : list Z :=
  bytes "Running " ++ bytes (pretty (Z.of_nat (length tests))) ++ bytes " tests" ++ [newline].
Definition failure_report (info : list Z) : list Z :=
  bytes "[failed]" ++ [newline] ++ [newline] ++ bytes "Error: " ++ info ++ [newline] ++ [newline].

Section proofs.
Context `{UartLaws} {S : Type}.
Variable panic_info : string → list Z.
Implicit Types (tests : list (test_fn S)).

Lemma sent_serial_print p args : sent (serial_print p args) = sent p ++ concat args.
Proof.
  revert p. induction args as [|a args IH]; intros p; simpl; [by rewrite app_nil_r|].
  unfold serial_print in *. simpl. rewrite IH, serial_send_spec. by rewrite <-app_assoc.
Qed.

(** Which test stops the run, and in which state. *)
Definition stops (tests before : list (test_fn S)) (s : S) (t : test_fn S) msg : Prop :=
  ∃ after s1, tests = before ++ t :: after ∧ bodies before s = Done ((), s1) ∧
    body t s1 = Panicked msg.

Lemma run_tests_spec tests s p :
  match bodies tests s with
  | Done (_, s') =>
      ∃ p', run_tests panic_info tests s p = Done (inl (s', p')) ∧
        sent p' = sent p ++ (tests ≫= passed)
  | Panicked msg =>
      ∃ before t p', stops tests before s t msg ∧
        run_tests panic_info tests s p = Done (inr (panic_info msg, p')) ∧
        sent p' = sent p ++ (before ≫= passed) ++ started t
  | Faulted => run_tests panic_info tests s p = Faulted
  | Diverged => run_tests panic_info tests s p = Diverged
  end.
Proof.
  revert s p. induction tests as [|t tests IH]; intros s p; cbn [run_tests bodies].
  { exists p. by rewrite app_nil_r. }
  unfold mbind at 1, stM_bind, test_run. destruct (body t s) as [[[] s1]|msg| |] eqn:Hb; run.
  - set (p1 := serial_println _ _). specialize (IH s1 p1).
    assert (sent p1 = sent p ++ passed t) as Hs.
    { unfold p1, serial_println. rewrite !sent_serial_print. unfold passed, started. simpl.
      by rewrite ?app_nil_r, <-!app_assoc. }
    destruct (bodies tests s1) as [[[] s2]|msg| |]; [..|done|done].
    + destruct IH as (p' & E & Hp). exists p'. split; [exact E|]. by rewrite Hp, Hs, <-app_assoc.
    + destruct IH as (b & u & p' & (a & s3 & -> & Eb & Eu) & E & Hp). exists (t :: b), u, p'.
      split_and!; [|exact E|].
      * exists a, s3. split_and!; [done| |done]. cbn [bodies]. unfold mbind, stM_bind.
        by rewrite Hb.
      * rewrite Hp, Hs. simpl. by rewrite <-!app_assoc.
  - exists [], t. eexists. split_and!; [by exists tests, s|done|].
    rewrite sent_serial_print. simpl. by rewrite ?app_nil_r.
  - done.
  - done.
Qed.

Lemma test_panic_handler_spec info p :
  let '(status, p') := test_panic_handler info p in
  status = 35 ∧ sent p' = sent p ++ failure_report info.
Proof.
  split; [done|]. unfold serial_println. rewrite !sent_serial_print. unfold failure_report.
  do 3 (cbn [concat app]; rewrite ?app_nil_r, <-?app_assoc). done.
Qed.

Lemma test_runner_spec tests s p :
  match bodies tests s with
  | Done _ =>
      ∃ p', test_runner panic_info tests s p = Done (test_success_exit_code, p') ∧
        sent p' = sent p ++ headline tests ++ (tests ≫= passed)
  | Panicked msg =>
      ∃ before t p' status, stops tests before s t msg ∧
        test_runner panic_info tests s p = Done (status, p') ∧
        status = 35 ∧ status ≠ test_success_exit_code ∧
        sent p' = sent p ++ headline tests ++ (before ≫= passed) ++ started t ++
                  failure_report (panic_info msg)
  | Faulted => test_runner panic_info tests s p = Faulted
  | Diverged => test_runner panic_info tests s p = Diverged
  end.
Proof.
  unfold test_runner. set (p1 := serial_println p _).
  assert (sent p1 = sent p ++ headline tests) as Hs.
  { unfold p1, serial_println. rewrite sent_serial_print. unfold headline. simpl.
    by rewrite ?app_nil_r, <-?app_assoc. }
  pose proof (run_tests_spec tests s p1) as Hr.
  destruct (bodies tests s) as [[[] s']|msg| |].
  - destruct Hr as (p' & E & Hp). exists p'. rewrite E. split; [done|].
    by rewrite Hp, Hs, <-app_assoc.
  - destruct Hr as (b & t & p' & Hst & E & Hp). rewrite E. run.
    destruct (test_panic_handler_spec (panic_info msg) p') as [_ Hf].
    eexists b, t, _, _. split_and!; [done|done|done|done|].
    rewrite Hf, Hp, Hs. by rewrite <-!app_assoc.
  - by rewrite Hr.
  - by rewrite Hr.
Qed.

(** C40: what a test run reports and how it ends, for tests that are arbitrary programs
    over the machine's state.  If every test passes in the state that the ones before it
    leave, they are reported in order as passed and QEMU ends with the status that the
    build configuration takes for success.  If a test panics, those before it are
    reported as passed, that one as failed with the panic's message, none after it is run
    and QEMU ends with a different status.  Otherwise the run does what the test does. *)
Theorem test_runner_reports tests s p :
  match bodies tests s with
  | Done _ =>
      ∃ p', test_runner panic_info tests s p = Done (test_success_exit_code, p') ∧
        sent p' = sent p ++ headline tests ++ (tests ≫= passed)
  | Panicked msg =>
      ∃ before t p' status, stops tests before s t msg ∧
        test_runner panic_info tests s p = Done (status, p') ∧
        status = 35 ∧ status ≠ test_success_exit_code ∧
        sent p' = sent p ++ headline tests ++ (before ≫= passed) ++ started t ++
                  failure_report (panic_info msg)
  | Faulted => test_runner panic_info tests s p = Faulted
  | Diverged => test_runner panic_info tests s p = Diverged
  end.
Proof. apply test_runner_spec. Qed.

End proofs.

(** A serial port that records what is sent, and a run with a failing test. *)
Definition log_uart : Uart := {|
  SerialPort := list Z;
  serial_new _ := [];
  serial_init p := p;
  serial_send p b := p ++ b;
|}.

Program Definition log_uart_laws : @UartLaws log_uart := {| sent p := p |}.
Next Obligation. done. Qed.
Next Obligation. done. Qed.

#[local] Existing Instances log_uart log_uart_laws.

(** Tests on a counter, the second one fails. *)
Definition sample_tests : list (test_fn nat) :=
  [mkTest (bytes "first") (λ n, Done ((), S n));
   mkTest (bytes "second") (λ n, Panicked "assertion failed");
   mkTest (bytes "third") (λ n, Done ((), S n))].

Lemma test_runner_reports_run :
  test_runner bytes sample_tests 0%nat [] =
  Done (35, bytes "Running 3 tests" ++ [newline] ++ bytes "first..." ++ [9] ++ bytes "[ok]" ++
            [newline] ++ bytes "second..." ++ [9] ++ failure_report (bytes "assertion failed")).
Proof. vm_compute. reflexivity. Qed.

Lemma test_runner_reports_witness :
  ∃ before t p' status, stops sample_tests before 0%nat t "assertion failed" ∧
    test_runner bytes sample_tests 0%nat [] = Done (status, p') ∧
    status = 35 ∧ status ≠ test_success_exit_code ∧
    sent p' = sent ([] : list Z) ++ headline sample_tests ++ (before ≫= passed) ++ started t ++
              failure_report (bytes "assertion failed").
Proof. exact (test_runner_reports bytes sample_tests 0%nat []). Defined.
