(* ===== verification/KernelTests.v ===== *)
(** * The kernel's own tests under interrupts (src/src/vga_buffer.rs, lib.rs, main.rs)

    The test functions of the library and the binary as programs over the machine, and
    [test_kernel_main], the entry point of the library's test build: [init], then the
    test runner.  All tests pass whatever interrupts arrive between their steps; in
    particular the timer's dots never get between the text that [test_println_output]
    writes and its check of the screen. *)

From stdpp Require Import prelude gmap strings.
From S2P Require Import Prelude Vga HeapInit AsyncLib Machine Interrupts Hoare Keyboard Scheduler.
From S2P Require Import Boot Testing.

Section tests.
Context `{BuildProfile, AsyncLib}.

(** [println!] *)
Definition test_println (args : list (list Z)) : K unit :=
  _ ← preempt; vga_print (args ++ [[newline]]).

Definition test_println_simple : K unit := test_println [bytes "test_println_simple output"].

(** [for _ in 0..n] *)
Fixpoint println_many (n : nat) : K unit :=
  match n with
  | O => mret ()
  | S n' => _ ← test_println [bytes "test_println_many output"]; println_many n'
  end.

Definition test_println_many : K unit := println_many 200.

(** [writeln!(writer, ..).expect("writeln failed")] *)
Definition writeln (writer : Writer) (args : list (list Z)) : outcome Writer :=
  '(w, r) ← write_fmt writer (args ++ [[newline]]);
  match r with inl _ => Done w | inr _ => Panicked "writeln failed" end.

(** The loop over the characters: the [i]-th one of the row is compared. *)
Fixpoint check_chars (b : Buffer) (i : nat) (cs : list Z) : outcome unit :=
  match cs with
  | [] => Done ()
  | c :: cs' =>
      screen_char ← read_char b (BUFFER_HEIGHT - 2) i;
      _ ← rust_assert (bool_decide (ascii_character screen_char = c))
            "assertion failed: `(left == right)`";
      check_chars b (S i) cs'
  end.

Definition output_text : list Z := bytes "Some test string that fits on a single line".

Definition test_println_output : K unit :=
  let s := output_text in
  _ ← preempt;
  without_interrupts (
    writer ← writer_lock;
    _ ← preempt;
    writer ← lift (writeln writer [[newline]; s]);
    _ ← preempt;
    _ ← lift (check_chars (buffer writer) 0 s);
    writer_unlock writer).

(** [int3], with the rendered stack frame. *)
Definition test_breakpoint_exception (frame : list Z) : K unit :=
  _ ← preempt; dispatch (Z.of_nat breakpoint_vector) (mkInfo 0 frame [] []).

Definition trivial_assertion : K unit :=
  lift (rust_assert (bool_decide (1 = 1)) "assertion failed: `(left == right)`").

(** [test_println] of src/tests/basic_boot.rs *)
Definition basic_boot_println : K unit := test_println [bytes "test_println output"].

Definition kernel_test_bodies (frame : list Z) : list (K unit) :=
  [test_println_simple; test_println_many; test_println_output;
   test_breakpoint_exception frame; trivial_assertion; basic_boot_println].

End tests.

Section test_kernel.
Context `{BuildProfile, AsyncLib, X86Gdt, X86Virt, Uart}.

(** [test_kernel_main]; [test_main] is the generated call of the test runner with the
    list of tests, after which QEMU has ended. *)
Definition test_kernel_main (STACK : Z) (panic_info : string → list Z)
    (tests : list (test_fn (cpu * kstate))) (b : cpu * kstate) (p : SerialPort)
    : outcome (Z * SerialPort) :=
  '(_, b) ← init STACK b;
  test_runner panic_info tests b p.

End test_kernel.

Section proofs.
Context `{BuildProfile, AsyncLaws}.

(** Printing, and nothing else, may have happened. *)
Definition testing (s : kstate) : Prop := machine_ok s ∧ unstarted (get_view s).

Abbreviation htriple := (Prelude.htriple (S := kstate) (λ _, False)).

Lemma htriple_K_bind {A B} P (f : K A) (g : A → K B) M Q :
  htriple P f M → (∀ r, htriple (M r) (g r) Q) → htriple P (mbind (M := K) g f) Q.
Proof. apply (htriple_bind (S := kstate)). Qed.

Lemma htriple_preempt : htriple testing preempt (λ _, testing).
Proof.
  intros s [Hok Hu]. destruct (preempt_unstarted s Hok Hu) as (s' & -> & Hok' & Hv & _).
  split; [done|]. by rewrite Hv.
Qed.

Lemma htriple_vga_print point args :
  masked_noop point → htriple testing (vga_print_at point args) (λ _, testing).
Proof.
  intros Hpt s [Hok Hu].
  destruct (vga_print_at_spec point args s Hpt (proj1 Hok)) as (w & s' & -> & Hsb & _).
  destruct (same_but_screen_ok _ _ Hsb Hok) as (Hok' & Hv & _). split; [done|]. by rewrite Hv.
Qed.

Lemma htriple_test_println args : htriple testing (test_println args) (λ _, testing).
Proof. eapply htriple_K_bind; [apply htriple_preempt|]. intros []. apply htriple_vga_print, interruptible_masked. Qed.

Lemma htriple_println_many n : htriple testing (println_many n) (λ _, testing).
Proof.
  induction n as [|n IH]; cbn [println_many]; [by apply htriple_ret|].
  eapply htriple_K_bind; [apply htriple_test_println|]. by intros [].
Qed.

Lemma check_chars_spec b cs i :
  (∀ j c, cs !! j = Some c → ∃ cc, read_char b (BUFFER_HEIGHT - 2) (i + j) = Done (mkScreenChar c cc)) →
  check_chars b i cs = Done ().
Proof.
  revert i. induction cs as [|c cs IH]; intros i Hc; [done|]. cbn [check_chars].
  destruct (Hc O c eq_refl) as [cc E]. rewrite Nat.add_0_r in E. run E.
  rewrite bool_decide_eq_true_2 by done. run. apply IH. intros j c' Hj.
  replace (S i + j)%nat with (i + S j)%nat by lia. by apply Hc.
Qed.

Lemma output_text_printable :
  Forall (λ b, 32 ≤ b ≤ 126) output_text ∧ (length output_text ≤ BUFFER_WIDTH)%nat.
Proof.
  split; [|by vm_compute; lia]. apply Forall_forall. intros b Hb.
  assert (forallb (λ b, (32 <=? b) && (b <=? 126)) output_text = true) as Hf by by vm_compute.
  rewrite forallb_forall in Hf. apply list_elem_of_In in Hb.
  apply Hf, andb_true_iff in Hb as [??]. lia.
Qed.

(** Writing the text and checking it on a well-formed screen. *)
Lemma output_checked w :
  writer_wf w →
  ∃ w', writeln w [[newline]; output_text] = Done w' ∧ writer_wf w' ∧
    w_color_code w' = w_color_code w ∧ check_chars (buffer w') 0 output_text = Done ().
Proof.
  intros Hw. destruct output_text_printable as [Hp Hl].
  destruct (println_shows_text w output_text (proj1 Hw) Hp Hl) as (w' & E & Hc).
  destruct (write_string_wf w (concat [[newline]; output_text; [newline]]) Hw) as (w2 & E2 & Hw2 & Hcc).
  rewrite <-print_body_concat, E in E2. injection E2 as <-. exists w'. split_and!; [|done|done|].
  - unfold writeln, print_body in *. cbn [app].
    destruct (write_fmt w _) as [[w2 [[]|[]]]|?| |]; cbn in *; congruence.
  - apply check_chars_spec. intros j c Hj. eexists. by apply Hc.
Qed.

Lemma htriple_println_output : htriple testing test_println_output (λ _, testing).
Proof.
  unfold test_println_output. cbv zeta.
  eapply htriple_K_bind; [apply htriple_preempt|]. intros [] s [Hok Hu].
  destruct Hok as ((Hlw & Hlp & Hw) & Hcaps).
  destruct (output_checked (writer s) Hw) as (w & E & Hw' & _ & Ec).
  pose proof (mutex_lock_spec (writer_mutex s)) as Hm. rewrite Hlw in Hm.
  destruct Hm as (x & Ex & _).
  assert (locked (mutex_unlock x) = false) as Hx by apply mutex_unlock_spec.
  revert E Ec. generalize output_text. intros t E Ec.
  destruct s as [c aw tq wr wm pc pm fl pe sc ch fr]; cbn in Ex, E.
  unfold without_interrupts, writer_lock, writer_unlock, preempt, modify, gets, lift, mbind,
    K_bind.
  destruct fl; cbn; rewrite Ex; cbn; rewrite E; cbn; rewrite Ec; cbn; (split; [split|]);
    [by split_and!|exact Hcaps|exact Hu|by split_and!|exact Hcaps|exact Hu].
Qed.

Lemma htriple_breakpoint frame : htriple testing (test_breakpoint_exception frame) (λ _, testing).
Proof.
  eapply htriple_K_bind; [apply htriple_preempt|]. intros [] s Hs. unfold dispatch.
  change (IDT !! Z.to_nat (Z.of_nat breakpoint_vector))
    with (Some (mkEntry breakpoint_handler None)).
  cbn [entry_handler]. rewrite (bind_K_Done (gets interrupt_flag) _ s (interrupt_flag s) s) by done.
  rewrite (bind_K_Done (modify (set_flag false)) _ s () (set_flag false s)) by done.
  pose proof (htriple_vga_print gated
    [bytes "EXCEPTION: BREAKPOINT"; [newline]; frame; [newline]] gated_masked (set_flag false s) Hs) as Hp.
  cbn [run_handler stack_frame]. unfold mbind, K_bind.
  unfold handler_print. destruct (vga_print_at _ _ _) as [[[] s']| | |]; [|done..]. exact Hp.
Qed.

(** Every test passes from every such state. *)
Lemma kernel_test_triple frame f :
  f ∈ kernel_test_bodies frame → htriple testing f (λ _, testing).
Proof.
  unfold kernel_test_bodies. rewrite !elem_of_cons, elem_of_nil.
  intros [->|[->|[->|[->|[->|[->|[]]]]]]].
  - apply htriple_test_println.
  - apply htriple_println_many.
  - apply htriple_println_output.
  - apply htriple_breakpoint.
  - by intros s Hs.
  - apply htriple_test_println.
Qed.

Context `{X86GdtLaws, X86VirtLaws, UartLaws}.
Variable panic_info : string → list Z.

(** A test function whose body is one of the kernel's. *)
Definition kernel_test (t : test_fn (cpu * kstate)) : Prop :=
  ∃ frame f, f ∈ kernel_test_bodies frame ∧ body t = on_machine f.

Lemma kernel_tests_run tests c s p :
  testing s → Forall kernel_test tests →
  ∃ p', test_runner panic_info tests (c, s) p = Done (test_success_exit_code, p') ∧
    sent p' = sent p ++ headline tests ++ (tests ≫= passed).
Proof.
  intros Hs Ht. assert (∃ s', bodies tests (c, s) = Done ((), (c, s'))) as [s' E].
  { revert s Hs. induction Ht as [|t tests (frame & f & Hf & Hb) Ht IH]; intros s Hs; [by eexists|].
    pose proof (kernel_test_triple frame f Hf s Hs) as Hk. cbn [bodies]. rewrite Hb.
    unfold mbind, stM_bind, on_machine. cbn [fst snd].
    destruct (f s) as [[[] s1]| | |]; [|done..]. destruct (IH s1 Hk) as [s2 E]. by exists s2. }
  pose proof (test_runner_spec panic_info tests (c, s) p) as Hr. by rewrite E in Hr.
Qed.

(** [_start] of src/tests/basic_boot.rs: the test runner without any initialisation. *)
Definition basic_boot_start (c : cpu) s p : outcome (Z * SerialPort) :=
  test_runner panic_info
    [mkTest (bytes "basic_boot::test_println") (on_machine basic_boot_println)] (c, s) p.

Lemma basic_boot_passes c vga irqs p :
  rows_wf (chars vga) →
  ∃ p', basic_boot_start c (boot_state vga irqs) p = Done (test_success_exit_code, p').
Proof.
  intros Hv. destruct (kernel_tests_run
    [mkTest (bytes "basic_boot::test_println") (on_machine basic_boot_println)]
    c (boot_state vga irqs) p) as (p' & E & _).
  - split; [by apply boot_state_ok|apply boot_state_unstarted].
  - constructor; [|constructor]. exists [], basic_boot_println. split; [|done].
    by apply (list_elem_of_lookup_2 _ 5).
  - by exists p'.
Qed.

(** C14: the library's test build passes, from the kernel's entry on and whatever
    interrupts arrive: for any selection and order of the kernel's tests, [init] and then
    the test runner report each of them as passed and end QEMU with the status for
    success.  In particular [test_println_output] finds its text on the screen although
    the timer writes to it, and no test blocks on the screen's lock. *)
Theorem kernel_tests_pass STACK tests c vga irqs p :
  rows_wf (chars vga) → 0 ≤ STACK ∧ STACK + STACK_SIZE < 2 ^ 47 → Forall kernel_test tests →
  ∃ p', test_kernel_main STACK panic_info tests (c, boot_state vga irqs) p =
          Done (test_success_exit_code, p') ∧
    sent p' = sent p ++ headline tests ++ (tests ≫= passed).
Proof.
  intros Hv Hst Ht. set (k := boot_state vga irqs).
  destruct (init_steps_spec STACK Hst c k (mutex_new_spec)) as (g & sels & x & Hrun & _ & Hx).
  cbn zeta in Hrun. specialize (Hrun 6%nat). unfold test_kernel_main.
  change (init STACK) with (run_steps (take 6 (init_steps STACK))). rewrite Hrun. run.
  cbn [lookup list_lookup default from_option id].
  apply kernel_tests_run; [|done]. destruct (boot_state_ok vga irqs Hv) as [(? & ? & ?) ?].
  split; [split; [by split_and!|done]|]. apply (boot_state_unstarted vga irqs).
Qed.

End proofs.

(** ** Witness: all tests, while the timer ticks and keys are pressed *)

#[local] Existing Instances dev_profile list_lib list_laws virt_model virt_model_laws list_gdt
  list_gdt_laws log_uart log_uart_laws.

Definition all_tests : list (test_fn (cpu * kstate)) :=
  zip_with (λ name f, mkTest name (on_machine f))
    [bytes "test_println_simple"; bytes "test_println_many"; bytes "test_println_output";
     bytes "test_breakpoint_exception"; bytes "trivial_assertion"; bytes "test_println"]
    (kernel_test_bodies (bytes "frame")).

Lemma all_tests_kernel : Forall kernel_test all_tests.
Proof.
  apply Forall_lookup. intros i t (name & f & -> & _ & Hf)%lookup_zip_with_Some.
  exists (bytes "frame"), f. split; [by eapply list_elem_of_lookup_2|done].
Qed.

Lemma kernel_tests_pass_witness :
  ∃ p', test_kernel_main 0x10000 bytes all_tests
          (reset_cpu, boot_state (buffer Vga.blank_screen) (replicate 300 [TimerIrq; KeyboardIrq 65]))
          [] = Done (test_success_exit_code, p') ∧
    sent p' = sent ([] : list Z) ++ headline all_tests ++ (all_tests ≫= passed).
Proof.
  exact (kernel_tests_pass bytes 0x10000 all_tests reset_cpu (buffer Vga.blank_screen)
           (replicate 300 [TimerIrq; KeyboardIrq 65]) [] (proj1 blank_screen_wf) ltac:(done)
           all_tests_kernel).
Defined.
