(* ===== verification/ExpectedFailures.v ===== *)
(** * The expected-failure tests (src/tests/should_panic.rs, src/tests/stack_overflow.rs)

    Two executables that pass by failing: the first in its panic handler, the second in
    the double fault handler of a table of its own, which the overflow of the stack must
    reach.  The second one is [gdt::init] of src/src/gdt.rs under test. *)

From stdpp Require Import prelude gmap strings.
From S2P Require Import Prelude Vga HeapInit AsyncLib Machine Interrupts Boot Testing.

(** ** src/tests/should_panic.rs *)

Section should_panic.
Context `{Uart}.

(** [should_fail]: the port, and how the function ends. *)
Definition should_fail (p : SerialPort) : SerialPort * outcome unit :=
  let p := serial_print p [bytes "should_panic::should_fail..." ++ [9]] in
  (p, rust_assert (bool_decide (0 = 1)) "assertion failed: `(left == right)`").

(** [panic] *)
Definition should_panic_panic (p : SerialPort) : Z * SerialPort :=
  let p := serial_println p [bytes "[ok]"] in
  (exit_qemu Success, p).

(** [_start], with the test function as an argument: the status of QEMU and the port. *)
Definition should_panic_start (test : SerialPort → SerialPort * outcome unit) (p : SerialPort)
    : outcome (Z * SerialPort) :=
  let '(p, result) := test p in
  match result with
  | Done _ =>
      let p := serial_println p [bytes "[test did not panic]"] in
      Done (exit_qemu Failed, p)
  | Panicked _ => Done (should_panic_panic p)
  | Faulted => Faulted
  | Diverged => Diverged
  end.

End should_panic.

(** ** src/tests/stack_overflow.rs *)

Inductive test_handler := test_double_fault_handler.

(** The static [TEST_IDT]. *)
Definition TEST_IDT : gmap nat (idt_entry test_handler) :=
  let idt := ∅ in
  <[double_fault_vector :=
      mkEntry test_double_fault_handler (Some DOUBLE_FAULT_IST_INDEX)]> idt.

Section stack_overflow.
Context `{X86Gdt, X86Virt, AsyncLib, Uart}.

Variable STACK : Z.
Variable panic_info : string → list Z.

Abbreviation booting := (cpu_with test_handler * kstate)%type.

Definition init_test_idt : stM booting unit := load_idt TEST_IDT.

(** [stack_overflow]: each call pushes a return address, for which [room] more words are
    left on the stack.  The push that finds no room raises a page fault, which the CPU
    cannot handle on that stack.  [None] means that the machine resets. *)
Fixpoint stack_overflow (room : nat) (c : cpu_with test_handler)
    : option (test_handler * handler_stack) :=
  match room with
  | S room' => stack_overflow room' c
  | O => raise_exception c false page_fault_vector
  end.

(** [test_double_fault_handler] *)
Definition run_test_handler (h : test_handler) (p : SerialPort) : Z * SerialPort :=
  match h with
  | test_double_fault_handler =>
      let p := serial_println p [bytes "[ok]"] in
      (exit_qemu Success, p)
  end.

(** [_start]: the status of QEMU and the port, or nothing when the machine resets. *)
Definition stack_overflow_start (room : nat) (w : booting) (p : SerialPort)
    : outcome (option (Z * SerialPort)) :=
  let p := serial_print p [bytes "stack_overflow::stack_overflow..." ++ [9]] in
  match (_ ← run_steps (gdt_init STACK); init_test_idt) w with
  | Done (_, (c, _)) =>
      Done ('(h, _) ← stack_overflow room c; Some (run_test_handler h p))
  | Panicked msg => Done (Some (test_panic_handler (panic_info msg) p))
  | Faulted => Faulted
  | Diverged => Diverged
  end.

End stack_overflow.

(** ** Properties *)

#[local] Arguments bytes : simpl never.

Section proofs.
Context `{X86GdtLaws, X86VirtLaws, AsyncLaws, UartLaws}.
Variable STACK : Z.
Variable panic_info : string → list Z.
Hypothesis STACK_canonical : 0 ≤ STACK ∧ STACK + STACK_SIZE < 2 ^ 47.

(** The overflow reaches the handler in the end, however much room there was. *)
Lemma stack_overflow_spec room c :
  segments_loaded STACK c → idtr c = Some TEST_IDT →
  stack_overflow room c =
    Some (test_double_fault_handler, InterruptStack (STACK + STACK_SIZE)).
Proof.
  intros Hs Hi. induction room as [|room IH]; [|done]. cbn. unfold raise_exception.
  replace (enter_handler c false page_fault_vector)
    with (@None (test_handler * handler_stack)) by (unfold enter_handler; by rewrite Hi).
  by eapply enter_on_double_fault_stack.
Qed.

Lemma load_test_idt w :
  ∃ c k, (_ ← run_steps (gdt_init STACK); init_test_idt) w = Done ((), (c, k)) ∧
    segments_loaded STACK c ∧ idtr c = Some TEST_IDT.
Proof.
  destruct w as [c k].
  destruct (gdt_init_spec STACK STACK_canonical c k) as (g & cs_sel & tr_sel & E & Hs).
  cbn zeta in E, Hs. unfold mbind, stM_bind. rewrite E. cbn.
  eexists _, k. split; [done|]. split; [|done].
  destruct Hs as (g' & tss & ? & ? & ?). by eexists g', tss, _, _.
Qed.

(** C39: the two tests that are expected to fail judge correctly.  should_panic.rs
    succeeds for a test function that panics, as [should_fail] does, and fails for one
    that returns.  stack_overflow.rs succeeds from every state of the CPU and with any
    room left on the stack: with the tables of [gdt::init] the overflow ends in the test's
    own double fault handler, so that the machine does not reset. *)
Theorem expected_failures_judged test w room p :
  (∀ msg, (test p).2 = Panicked msg → ∃ p',
     should_panic_start test p = Done (test_success_exit_code, p') ∧
     sent p' = sent (test p).1 ++ bytes "[ok]" ++ [newline]) ∧
  ((test p).2 = Done () → ∃ p',
     should_panic_start test p = Done (35, p') ∧
     sent p' = sent (test p).1 ++ bytes "[test did not panic]" ++ [newline]) ∧
  (∃ p', should_panic_start should_fail p = Done (test_success_exit_code, p') ∧
    sent p' = sent p ++ bytes "should_panic::should_fail..." ++ [9] ++ bytes "[ok]" ++ [newline]) ∧
  ∃ p', stack_overflow_start STACK panic_info room w p =
          Done (Some (test_success_exit_code, p')) ∧
    sent p' = sent p ++ bytes "stack_overflow::stack_overflow..." ++ [9] ++
                bytes "[ok]" ++ [newline].
Proof.
  assert (∀ p verdict, sent (serial_println p [verdict]) = sent p ++ verdict ++ [newline]) as Hln.
  { intros q verdict. unfold serial_println. by rewrite sent_serial_print. }
  assert (∀ name, sent (serial_print p [name ++ [9]]) = sent p ++ name ++ [9]) as Hname.
  { intros name. rewrite sent_serial_print. cbn [concat]. by rewrite app_nil_r. }
  unfold should_panic_start. split_and!.
  - intros msg. destruct (test p) as [q r]. cbn. intros ->. eexists. by split; [|apply Hln].
  - destruct (test p) as [q r]. cbn. intros ->. eexists. by split; [|apply Hln].
  - eexists. split; [done|]. by rewrite Hln, Hname, <-!app_assoc.
  - unfold stack_overflow_start. destruct (load_test_idt w) as (c & k & -> & Hs & Hi).
    rewrite stack_overflow_spec by done. eexists. split; [done|].
    by rewrite Hln, Hname, <-!app_assoc.
Qed.

End proofs.

(** ** Witness *)

#[local] Existing Instances list_lib list_laws virt_model virt_model_laws list_gdt list_gdt_laws
  log_uart log_uart_laws.

Definition test_cpu : cpu_with test_handler := mkCpu None None None None 0x1000.

Lemma expected_failures_judged_witness :
  (∃ p', should_panic_start should_fail [] = Done (test_success_exit_code, p')) ∧
  (∃ p', should_panic_start (λ p, (p, Done ())) [] = Done (35, p')) ∧
  ∃ p', stack_overflow_start 0x10000 bytes 1000 (test_cpu, reset_machine) [] =
          Done (Some (test_success_exit_code, p')).
Proof.
  pose proof (expected_failures_judged 0x10000 bytes ltac:(done) (λ p, (p, Done ()))
    (test_cpu, reset_machine) 1000 []) as (_ & Hd & (p1 & Hp & _) & p2 & Ho & _).
  destruct (Hd eq_refl) as (p3 & Hf & _). split; [by exists p1|]. split; [by exists p3|by exists p2].
Defined.
