(* ===== verification/TestBuilds.v ===== *)
(** * The test builds with a heap (src/tests/heap_allocation.rs, src/src/main.rs)

    The entry point of the heap tests' executable, and [kernel_main] in a test build, where
    it calls the test runner after the heap demonstration.  A panic before or in the tests
    goes to the panic handler of the test framework, so that every run ends with a
    verdict: the theorem says which one. *)

From stdpp Require Import prelude gmap strings.
From S2P Require Import Prelude Layout Memory Access GlobalAlloc AsyncLib Locked.
From S2P Require Import LinkedList FixedSizeBlock FallbackModel Vga Frames HeapInit Paging.
From S2P Require Import Collections HeapTests Machine Interrupts Hoare Keyboard Scheduler Boot.
From S2P Require Import KernelMain Testing KernelTests.

Section builds.
Context `{BuildProfile, DebugLayout, AsyncLib, PcKeyboard, X86Gdt, X86Virt, X86Phys, Uart}.
Context `{FallbackHeap Heap, !Mapper M BootInfoFrameAllocator, !OffsetPageTable M}.
Variable STACK : Z.
Variable debug_map_error : MapToError M BootInfoFrameAllocator → string.
Variable panic_info : string → list Z.

Abbreviation world := (cpu * kstate * (Locked (FixedSizeBlockAllocator Heap) * mem))%type.

(** The code before [test_main], with the panic handler of the test build. *)
Definition test_main_after (setup : stM world unit) (tests : list (test_fn world)) (w : world)
    (p : SerialPort) : outcome (Z * SerialPort) :=
  match setup w with
  | Done (_, w') => test_runner panic_info tests w' p
  | Panicked msg => Done (test_panic_handler (panic_info msg) p)
  | Faulted => Faulted
  | Diverged => Diverged
  end.

(** [main] of heap_allocation.rs *)
Definition heap_allocation_setup (boot_info : BootInfo) : stM world unit :=
  _ ← on_boot (Boot.init STACK); setup_heap debug_map_error boot_info.

(** [kernel_main] up to the call of [test_main] *)
Definition kernel_main_setup (boot_info : BootInfo) : stM world unit :=
  _ ← greeting;
  _ ← on_boot (Boot.init STACK);
  _ ← setup_heap debug_map_error boot_info;
  _ ← heap_demo;
  mret ().

Definition test_setups (boot_info : BootInfo) : list (stM world unit) :=
  [heap_allocation_setup boot_info; kernel_main_setup boot_info].

End builds.

Section proofs.
Context `{BuildProfile, DebugLayout, AsyncLaws, PcKeyboard, X86GdtLaws, X86VirtLaws, X86PhysLaws}.
Context `{FallbackLaws Heap, !Mapper M BootInfoFrameAllocator, !OffsetPageTable M}.
Context `{!MapperLaws M BootInfoFrameAllocator, UartLaws}.
Variable STACK : Z.
Variable debug_map_error : MapToError M BootInfoFrameAllocator → string.
Variable panic_info : string → list Z.

Abbreviation world := (cpu * kstate * (Locked (FixedSizeBlockAllocator Heap) * mem))%type.
Abbreviation htriple := (Prelude.htriple (S := world) (heap_error debug_map_error)).

Lemma heap_errors_fail : may_fail (heap_error debug_map_error).
Proof. intros l. right. by exists l. Qed.

(** Between tests: exactly [objs] are allocated. *)
Definition tested (objs : list object) (w : world) : Prop :=
  testing w.1.2 ∧ hown HEAP_START heap_end objs w.2.

(** A test function of the heap tests or of the kernel. *)
Definition build_test (t : test_fn world) : Prop :=
  (∃ f, f ∈ [simple_allocation; large_vec; many_boxes; many_boxes_long_lived] ∧
        body t = on_heap f) ∨
  (∃ frame f, f ∈ kernel_test_bodies frame ∧ body t = on_kernel f).

Lemma htriple_build_test objs t :
  build_test t → htriple (tested objs) (body t) (λ _, tested objs).
Proof.
  intros [(f & Hf & ->)|(frame & f & Hf & ->)] [[c k] h] [Hk Hh]; cbn [fst snd] in *.
  - pose proof (heap_tests_triple HEAP_START heap_end _ heap_errors_fail f Hf objs h Hh) as Ht.
    unfold on_heap. cbn [fst snd]. destruct (f h) as [[[] h']| | |]; try done.
  - pose proof (kernel_test_triple frame f Hf k Hk) as Ht.
    unfold on_kernel, on_boot, on_machine. cbn [fst snd].
    destruct (f k) as [[[] k']| | |]; try done.
Qed.

Lemma htriple_bodies objs tests :
  Forall build_test tests → htriple (tested objs) (bodies tests) (λ _, tested objs).
Proof.
  induction 1 as [|t tests Ht Hts IH]; cbn [bodies]; [by apply htriple_ret|].
  eapply htriple_bind; [by apply htriple_build_test|]. by intros [].
Qed.

Lemma htriple_setup setup boot_info (c : cpu) s0 :
  machine_ok s0 → unstarted (get_view s0) → setup ∈ test_setups STACK debug_map_error boot_info →
  0 ≤ STACK ∧ STACK + STACK_SIZE < 2 ^ 47 →
  map_ok (memory_map boot_info) → paging_ok (cr3 c) (physical_memory_offset boot_info) →
  htriple (λ w, w.1 = (c, s0) ∧ w.2.1 = ALLOCATOR_init) setup (λ _ w, ∃ objs, tested objs w).
Proof.
  intros Hok Hu Hs Hst Hmm Hp.
  assert (∀ e, heap_error debug_map_error (heap_init_error debug_map_error e)) as Em
    by (intros e; left; by exists e).
  pose proof heap_errors_fail as Ea.
  eapply (htriple_pre _ _ (booting s0 (eq c) (λ h, h.1 = ALLOCATOR_init))).
  { intros [[c' k] h] [[= -> ->] Hh]. by split_and!. }
  assert (∀ C objs w, booting s0 C (hown HEAP_START heap_end objs) w → ∃ objs, tested objs w) as Hend.
  { intros C objs w ([_ (Hok' & Hv & _)] & _ & Hh). exists objs. split; [|done].
    split; [done|]. by rewrite Hv. }
  unfold test_setups in Hs. rewrite !elem_of_cons, elem_of_nil in Hs. destruct Hs as [->|[->|[]]].
  - eapply htriple_conseq; [by intros w Hw| |by apply (htriple_boot_heap STACK _ s0 _ Em)].
    intros [] w. apply Hend.
  - eapply htriple_bind; [apply htriple_greeting|]. intros [].
    eapply htriple_bind; [by apply htriple_init|]. intros [].
    eapply htriple_bind; [by apply htriple_setup_heap|]. intros [].
    eapply htriple_bind; [by apply htriple_heap_demo|]. intros vars.
    apply htriple_ret. intros w (Hk & Hc & _ & Hh). by eapply (Hend _ (demo_objects vars) w (conj Hk (conj Hc Hh))).
Qed.

(** C19: the test builds with a heap end with a verdict, whatever interrupts arrive: for
    the entry point of the heap tests and for [kernel_main] in a test build, with any
    selection and order of heap tests and kernel tests.  Either all tests are reported
    as passed and QEMU ends with the status for success, or it ends with the status for
    failure and the last thing reported is a heap that could not be mapped or was
    exhausted.  No assertion fails, and no run hangs or faults. *)
Theorem test_builds_end_with_verdict setup boot_info tests (c : cpu) vga irqs m p :
  setup ∈ test_setups (Heap := Heap) (M := M) STACK debug_map_error boot_info →
  Forall build_test tests → rows_wf (chars vga) →
  0 ≤ STACK ∧ STACK + STACK_SIZE < 2 ^ 47 →
  map_ok (memory_map boot_info) → paging_ok (cr3 c) (physical_memory_offset boot_info) →
  ∃ status p',
    test_main_after panic_info setup tests (c, boot_state vga irqs, (ALLOCATOR_init, m)) p =
      Done (status, p') ∧
    (status = test_success_exit_code ∧ sent p' = sent p ++ headline tests ++ (tests ≫= passed) ∨
     status = 35 ∧ ∃ msg report, heap_error debug_map_error msg ∧
       sent p' = sent p ++ report ++ failure_report (panic_info msg)).
Proof.
  intros Hs Ht Hv Hst Hmm Hp. unfold test_main_after.
  pose proof (htriple_setup setup boot_info c (boot_state vga irqs) (boot_state_ok vga irqs Hv)
    (boot_state_unstarted vga irqs) Hs Hst Hmm Hp (c, boot_state vga irqs, (ALLOCATOR_init, m))
    ltac:(done)) as Hset.
  destruct (setup _) as [[[] w]|msg| |]; [|..|done|done].
  - destruct Hset as [objs Hw]. pose proof (htriple_bodies objs tests Ht w Hw) as Hb.
    pose proof (test_runner_spec panic_info tests w p) as Hr.
    destruct (bodies tests w) as [[[] w']|msg| |]; [|..|done|done].
    + destruct Hr as (p' & E & Hp'). eexists _, p'. split; [exact E|]. by left.
    + destruct Hr as (b & t & p' & status & _ & E & -> & _ & Hp'). eexists _, p'.
      split; [exact E|]. right. split; [done|].
      exists msg, (headline tests ++ (b ≫= passed) ++ started t).
      split; [done|]. by rewrite Hp', <-!app_assoc.
  - destruct (test_panic_handler_spec (panic_info msg) p) as [_ Hf].
    eexists _, _. split; [done|]. right. split; [done|]. by exists msg, [].
Qed.

End proofs.

(** ** Witness: both kinds of tests in the heap tests' executable *)

#[local] Existing Instances dev_profile plain_debug size_first_layout phys_model phys_model_laws
  virt_model virt_model_laws mapper_model mapper_model_laws echo_keyboard list_lib list_laws
  list_gdt list_gdt_laws empty_page_table log_uart log_uart_laws.

Definition build_tests
  : list (test_fn (cpu * kstate * (Locked (FixedSizeBlockAllocator LinkedListAllocator) * mem))) :=
  [mkTest (bytes "many_boxes") (on_heap many_boxes);
   mkTest (bytes "test_println_output") (on_kernel test_println_output)].

Lemma build_tests_ok : Forall build_test build_tests.
Proof.
  constructor; [left|constructor; [right|constructor]].
  - exists many_boxes. split; [by apply (list_elem_of_lookup_2 _ 2)|done].
  - exists [], test_println_output. split; [by apply (list_elem_of_lookup_2 _ 2)|done].
Qed.

Definition heap_test_setup :=
  heap_allocation_setup (Heap := LinkedListAllocator) (M := gmap Z (Z * Z)) 0x10000 debug_error
    sample_boot_info.

Lemma heap_test_setup_in : heap_test_setup ∈ test_setups 0x10000 debug_error sample_boot_info.
Proof. left. Qed.

Lemma test_builds_end_with_verdict_witness :
  ∃ status p',
    test_main_after bytes heap_test_setup build_tests
      (reset_cpu, boot_state blank_buffer sample_irqs, (ALLOCATOR_init, ∅)) [] = Done (status, p') ∧
    (status = test_success_exit_code ∧
     sent p' = sent ([] : list Z) ++ headline build_tests ++ (build_tests ≫= passed) ∨
     status = 35 ∧ ∃ msg report, heap_error debug_error msg ∧
       sent p' = sent ([] : list Z) ++ report ++ failure_report (bytes msg)).
Proof.
  exact (test_builds_end_with_verdict 0x10000 debug_error bytes heap_test_setup sample_boot_info
           build_tests reset_cpu blank_buffer sample_irqs ∅ [] heap_test_setup_in build_tests_ok
           (proj1 blank_screen_wf) ltac:(done) sample_map_ok sample_paging).
Defined.
